(* ===== verification/_CoqProject ===== *)
-Q . S2P
Prelude.v
Utf8.v
Protocol.v
ProtoWire.v
Traits.v
PubSub.v
PubSubProps.v
MemoryBroker.v
BrokerProps.v
BrokerRace.v
Remote.v
Crdt.v
NamespaceAcl.v
SchemaRegistry.v
Jwt.v
Session.v
Hub.v
Node.v
HubInv.v
HubReach.v
HubSteps.v
HubBalance.v
HubProps.v
Access.v
Delivery.v
Ws.v
Outbox.v
Async.v
Race.v
Service.v
Running.v
Linear.v
Index.v
Overlap.v
Resume.v
WsProps.v
Sockets.v
Watch.v
EndToEnd.v
Wt.v
Sse.v
SseProps.v
Admin.v
Config.v
App.v
AppProps.v
Security.v
Grants.v
Serve.v
Run.v
RunProps.v
Cli.v
Json.v
Deserialize.v
Loader.v
TsGen.v
TsProps.v
AsyncApi.v
SdkMain.v
SdkProps.v
TestKit.v
HubTests.v
CoreTests.v
ChannelTests.v
FrameTests.v
AclTests.v
ServerTests.v
KindTests.v
TextTests.v
ServerKit.v
IntegrationTests.v
