(* ===== verification/Prelude.v ===== *)
(** * Cherenkov: a verified model of the real-time messaging server

    Cherenkov accepts client connections over several transports, lets each
    session subscribe to channels and publish on them, and fans publications out
    through a broker.  This library translates the server's Rust crates (under
    src/crates/) into executable Rocq definitions and proves what makes them
    correct.

    ** How the code is translated

    - A handler is a computation [io W E A := W -> result E A * W]: it reads and
      updates a shared memory and returns a value or an error; what it did before
      failing stays done.  Async functions run from one call to the next without
      interleaving inside; concurrency is the order in which whole handlers,
      forwarder turns and socket turns happen ([hub_step] of HubReach.v; theorems
      about its [reachable] states are about whole handlers).  Async.v goes below
      that: a hub handler is a sequence of segments, one per await, between which
      anything else may happen ([running_step] of Running.v).
    - A trait object is the record of its methods over the memory (Traits.v).  A
      component that owns part of the memory is plugged in through a [lens].
    - [Arc<Session>] values are pointers into a heap that is part of the hub's
      state; the last reference to go runs [Drop] ([drop_arc] of Hub.v).
    - [u64] is [N] below 2^64 with wrapping and saturating operations written out;
      bytes are lists of [Byte.byte]; strings are byte strings, [is_str] of Utf8.v
      being the ones that are UTF-8; [HashMap] and [DashMap] are [gmap].
    - Third-party crates are type classes: operations, and where a theorem relies
      on them, laws in a second class.  Each has an instance, used by the
      witnesses: prost (Protocol.v, ProtoWire.v), tokio's broadcast channel
      (MemoryBroker.v), mpsc (Hub.v) and Notify (Session.v), globset
      (NamespaceAcl.v), jsonschema (SchemaRegistry.v), jsonwebtoken (Jwt.v), yrs
      and automerge (Crdt.v), fred and async_nats (Remote.v), tokio's listeners
      and wtransport (Serve.v), the Prometheus recorder (Run.v), figment and
      tracing_subscriber (Cli.v), serde_json's documents (Json.v), serde_yaml
      (SdkMain.v; a serializer in TextTests.v), Unicode's tables (TsGen.v).

    ** The files

    - Prelude.v (this file): the computations and their Hoare triples, lenses,
      64-bit integers, strings and lists.  Utf8.v: [str::from_utf8].
    - Protocol.v: cherenkov-protocol/src/frame.rs, the frames, their conversions
      and the codec entry points; ProtoWire.v: the protobuf wire format as an
      instance of the codec, and the codec's theorems (round trip of every frame,
      rejection of a missing [kind]).
    - Traits.v: cherenkov-core/src/{channel,broker,schema,auth,acl,error}.rs.
    - PubSub.v, PubSubProps.v: cherenkov-channel-pubsub.  The channel kind refines
      a log per channel with a size and an age bound; replays are gap free.
    - MemoryBroker.v, BrokerProps.v: cherenkov-broker.  Over every history of
      calls, a stream returns an ordered subsequence of its topic's publications
      and every loss is counted.  BrokerRace.v: the operations cut into their accesses
      to the shared map, for threads that interleave; what they keep, and the
      subscription a reaped topic leaves deaf.
    - Remote.v: cherenkov-broker-redis and cherenkov-broker-nats.  What one node
      publishes and the server takes to another node is what its stream yields.
    - Crdt.v: cherenkov-channel-crdt, both kinds proved against one class.
    - NamespaceAcl.v, Jwt.v: cherenkov-auth; what jsonwebtoken checks of a token
      (signature, expiry, audience, issuer) is a law of its class.
      SchemaRegistry.v: cherenkov-schema.
    - Session.v, Hub.v: cherenkov-core/src/session.rs and hub.rs.  The state
      [HubSt] has the registry and its reverse channel index, the heap, the
      forwarder tasks, the metrics, the outboxes and the components' memory.
    - HubInv.v, HubReach.v: the invariant of that state ([core_inv]: exact reverse
      index, no orphaned forwarder, counters that add up), kept by every handler
      whatever the components do, and so true of every reachable state.
      HubSteps.v, Outbox.v: what single stages of a handler do, in general and to
      the outboxes.  HubBalance.v: the calls made to channel kinds, counted by a
      kind that logs them.  HubProps.v: the hub's theorems.
    - Delivery.v: hub and in-process broker together.  Every forwarder owns a live
      stream of its channel, and what is published reaches the subscriber's outbox,
      once and in order.
    - Access.v: every subscription of a reachable state was granted to claims the
      authenticator made, by the ACL, while its session was connected; every
      publication too.
    - Async.v: the four handlers as sequences of segments; uninterrupted they are the
      handlers of Hub.v.  Race.v: any number of interrupted handlers keeps the
      invariant while their sessions stay registered; a kick in the middle of a
      subscribe does not.  Overlap.v: publishers that take turns between channel kind
      and broker; Resume.v: a client that resumes a channel while they do, before
      each segment of its subscribe, misses nothing; it may get publications twice.
    - Service.v: the hub as an abstract service, peers with claims and channels and
      requests that take effect in one step.  Running.v: the hub with any number of
      requests in flight, as a machine one can run ([perform]).  Linear.v: that
      machine refines the service, so requests are linearizable.  Index.v: the reverse
      index in every state of that machine, and the entry of a session kicked in the
      middle of a subscribe, which no later step removes.  Grants.v: access
      control under interleaving, by induction on the service and carried over to
      the hub and to the configured server.  Sockets.v: any number of WebSockets whose
      dispatches are interrupted; their runs are runs of that machine.
    - Node.v: a concrete single node and sample states for the witnesses.
    - Ws.v, WsProps.v, Wt.v, Sse.v, SseProps.v: the WebSocket, WebTransport and
      SSE transports.  One reply per request, cleanup when a connection ends,
      equality of the two frame dispatchers, framing and query round trips, the
      sessions HTTP requests leave behind.  Watch.v, EndToEnd.v: a publication from
      the bytes one WebSocket client sends to the bytes another is sent.
    - Admin.v: cherenkov-admin, its views over every state of the machine of
      Running.v.  Config.v, App.v, AppProps.v: the configuration
      and [build_hub] of cherenkov-server; which configurations boot and what hub
      they boot into.  Security.v: Access.v on that hub, in terms of the configured
      secret, audiences and rules.
    - Serve.v: the transports' builders, routes and entry points.  Run.v,
      RunProps.v: starting every configured transport, waiting and stopping
      (cherenkov-server/src/app.rs).  Cli.v: loading the configuration, the
      binary's [main] and its exit codes (config.rs, main.rs).  Deserialize.v: the
      configuration read from a document as its serde attributes say (unknown keys
      are refused here), with a writer it inverts; Loader.v: file and environment, and
      the variable that stops the boot.
    - Json.v, TsGen.v, TsProps.v: JSON documents and the TypeScript generator of
      cherenkov-sdk-ts/src/tsgen.rs; it terminates, and a payload the server
      accepts inhabits the emitted type.  AsyncApi.v: asyncapi.rs, whose references
      resolve.  SdkMain.v, SdkProps.v: the command; it reads the schemas the server
      enforces.
    - TestKit.v and the files ending in Tests.v: the repository's unit tests, run on
      the model (HubTests.v, CoreTests.v: cherenkov-core; ChannelTests.v: pub/sub and
      broker; FrameTests.v: the frames, the property tests for every frame their
      generators can produce; AclTests.v: ACL and schema registry; ServerTests.v:
      server and admin API; KindTests.v: CRDT kinds, JWT, remote brokers; TextTests.v:
      SSE queries, the SDK generator and the WebTransport builder).  ServerKit.v,
      IntegrationTests.v: the integration tests of cherenkov-server/tests, on a booted
      server with sockets.

    ** Bounds and fuel

    [poll_stream] of MemoryBroker.v has fuel 2: a lag notice is never followed by
    another ([mb_next_spec]).  The remote brokers poll with one unit more than the
    queue is long ([polls_filter_map]).  In ProtoWire.v the varint writer has as
    much fuel as the number has bits; the field reader, and [read_all] of Wt.v,
    take the length of the input, which every step shortens.  [ts_type] of TsGen.v
    recurses into sub-documents: more fuel than the document is large is enough and
    does not change the result ([render_terminates]); the parser of TsProps.v takes
    the length of the text.  Theorems about session ids assume fewer than 2^64
    sessions were opened, and the refinement of the pub/sub kind fewer than 2^64
    calls; the wrapping and saturating operations themselves are modelled.

    ** Not modelled

    Sockets, TLS, HTTP routing and the runtime's scheduling; tracing output; how
    YAML text and the values of environment variables are parsed; clap's parsing of the
    command lines; the JSON text of admin bodies and the HTML console; interleavings inside a
    segment (threads that meet between two lock acquisitions), those of the in-process
    broker apart; the panic of a history too large to allocate;
    interleavings inside the async functions of the SSE and WebTransport transports.  Running.v
    asks of a transport that it keeps a session while a request of it is in flight and
    sends its connects one after the other, which Sockets.v proves of WebSockets; a
    handler whose future is dropped half-way is one that gets no more turns.  The facade
    crate, the test support and the benchmarks have no behaviour of their own. *)
From stdpp Require Export base tactics option list numbers strings gmap pretty.
From Stdlib Require Export Strings.Ascii Strings.Byte.
From Stdlib Require Export Lia Wf_nat.

(** ** Notation scopes *)

Declare Scope io_scope.
Delimit Scope io_scope with io.
Declare Scope u64_scope.
Delimit Scope u64_scope with u64.

(** ** Rust's [Result] *)

Inductive result (E A : Type) : Type :=
| Ok (a : A)
| Err (e : E).
Arguments Ok {E A} a.
Arguments Err {E A} e.

#[export] Instance result_eq_dec `{EqDecision E, EqDecision A} : EqDecision (result E A).
Proof. solve_decision. Defined.

Definition result_map_err {E F A} (f : E → F) (r : result E A) : result F A :=
  match r with Ok a => Ok a | Err e => Err (f e) end.

(** [Option::ok_or]. *)
Definition ok_or {E A} (o : option A) (e : E) : result E A :=
  match o with Some a => Ok a | None => Err e end.

Definition is_ok {E A} (r : result E A) : bool :=
  match r with Ok _ => true | Err _ => false end.

Definition result_bind {E A B} (r : result E A) (k : A → result E B) : result E B :=
  match r with Ok a => k a | Err e => Err e end.

Notation "'let?' x ':=' r 'in' k" := (result_bind r (λ x, k))
  (at level 10, x pattern, r at level 100, k at level 200) : io_scope.

(** ** Fallible stateful computations

    [io W E A] is the shape of every handler of the server: it reads and
    updates the shared state [W] and either returns an [A] or fails with an
    [E].  The state reached before a failure is kept, as in Rust, where an
    early [return Err(..)] undoes nothing. *)

Definition io (W E A : Type) : Type := W → result E A * W.

Section io.
Context {W E : Type}.

Definition io_ret {A} (a : A) : io W E A := λ w, (Ok a, w).
Definition io_fail {A} (e : E) : io W E A := λ w, (Err e, w).
Definition io_bind {A B} (m : io W E A) (k : A → io W E B) : io W E B := λ w,
  match m w with
  | (Ok a, w') => k a w'
  | (Err e, w') => (Err e, w')
  end.
Definition io_of_result {A} (r : result E A) : io W E A := λ w, (r, w).
Definition io_gets {A} (f : W → A) : io W E A := λ w, (Ok (f w), w).
Definition io_modify (f : W → W) : io W E unit := λ w, (Ok (), f w).
(** The outcome as a value: [match m.await { Ok(..) => .., Err(..) => .. }]. *)
Definition io_try {A} (m : io W E A) : io W E (result E A) := λ w,
  let '(r, w') := m w in (Ok r, w').
Definition io_map_err {F A} (f : E → F) (m : io W E A) : io W F A := λ w,
  let '(r, w') := m w in (result_map_err f r, w').
Definition io_when (b : bool) (m : io W E unit) : io W E unit :=
  if b then m else io_ret ().
End io.

Notation "'let!' x ':=' m 'in' k" := (io_bind m (λ x, k))
  (at level 10, x pattern, m at level 100, k at level 200) : io_scope.
Notation "m ';;' k" := (io_bind m (λ _, k))
  (at level 100, k at level 200, right associativity) : io_scope.

Open Scope io_scope.

(** Two computations are equal when they agree on every state. *)
Definition io_eq {W E A} (m n : io W E A) : Prop := ∀ w, m w = n w.
Infix "≅" := io_eq (at level 70, no associativity) : io_scope.

#[export] Instance io_eq_equivalence {W E A} : Equivalence (@io_eq W E A).
Proof.
  split.
  - by intros m w.
  - intros m n H w. by rewrite H.
  - intros m n p H1 H2 w. by rewrite H1, H2.
Qed.

#[export] Instance io_bind_proper {W E A B} :
  Proper (@io_eq W E A ==> pointwise_relation A (@io_eq W E B) ==> @io_eq W E B) io_bind.
Proof.
  intros m n Hm k l Hk w. unfold io_bind. rewrite Hm.
  destruct (n w) as [[a|e] w']; [apply Hk | done].
Qed.

#[export] Instance io_try_proper {W E A} :
  Proper (@io_eq W E A ==> @io_eq W E (result E A)) io_try.
Proof. intros m n Hm w. unfold io_try. by rewrite Hm. Qed.

Section io_laws.
Context {W E : Type}.

Lemma io_bind_ret_l {A B} (a : A) (k : A → io W E B) : io_bind (io_ret a) k ≅ k a.
Proof. done. Qed.

Lemma io_bind_ret_r {A} (m : io W E A) : io_bind m io_ret ≅ m.
Proof. intros w. unfold io_bind. by destruct (m w) as [[a|e] w']. Qed.

Lemma io_bind_assoc {A B C} (m : io W E A) (k : A → io W E B) (l : B → io W E C) :
  io_bind (io_bind m k) l ≅ io_bind m (λ a, io_bind (k a) l).
Proof. intros w. unfold io_bind. by destruct (m w) as [[a|e] w']. Qed.

Lemma io_bind_Ok {A B} (m : io W E A) (k : A → io W E B) w b w'' :
  io_bind m k w = (Ok b, w'') ↔ ∃ a w', m w = (Ok a, w') ∧ k a w' = (Ok b, w'').
Proof.
  unfold io_bind. destruct (m w) as [[a|e] w'] eqn:Hm; naive_solver.
Qed.

Lemma io_bind_Err {A B} (m : io W E A) (k : A → io W E B) w e w'' :
  io_bind m k w = (Err e, w'') ↔
    m w = (Err e, w'') ∨ ∃ a w', m w = (Ok a, w') ∧ k a w' = (Err e, w'').
Proof.
  unfold io_bind. destruct (m w) as [[a|e'] w'] eqn:Hm; naive_solver.
Qed.

(** Rewriting a bind when its first computation is known. *)
Lemma io_bind_Ok_eq {A B} (m : io W E A) (k : A → io W E B) w a w' :
  m w = (Ok a, w') → io_bind m k w = k a w'.
Proof. unfold io_bind. by intros ->. Qed.

Lemma io_bind_Err_eq {A B} (m : io W E A) (k : A → io W E B) w e w' :
  m w = (Err e, w') → io_bind m k w = (Err e, w').
Proof. unfold io_bind. by intros ->. Qed.

Lemma io_map_err_Ok {F A} (f : E → F) (m : io W E A) w a w' :
  io_map_err f m w = (Ok a, w') ↔ m w = (Ok a, w').
Proof. unfold io_map_err. destruct (m w) as [[?|?] ?]; naive_solver. Qed.

Lemma io_map_err_Err {F A} (f : E → F) (m : io W E A) w x w' :
  io_map_err f m w = (Err x, w') ↔ ∃ e, m w = (Err e, w') ∧ x = f e.
Proof. unfold io_map_err. destruct (m w) as [[?|?] ?]; naive_solver. Qed.

Lemma io_try_Ok {A} (m : io W E A) w r w' : io_try m w = (Ok r, w') ↔ m w = (r, w').
Proof. unfold io_try. destruct (m w) as [? ?]; naive_solver. Qed.

Lemma io_try_Err {A} (m : io W E A) w e w' : io_try m w = (Err e, w') ↔ False.
Proof. unfold io_try. destruct (m w) as [? ?]; naive_solver. Qed.
End io_laws.

(** [io_inv H] splits a hypothesis [H : m w = (r, w')] about a sequence of
    computations into one hypothesis per computation. *)
Ltac io_step H :=
  lazymatch type of H with
  | io_bind _ _ _ = (Ok _, _) =>
      let a := fresh "a" in let w := fresh "w" in let H' := fresh "Hio" in
      apply io_bind_Ok in H as (a & w & H' & H)
  | io_bind _ _ _ = (Err _, _) =>
      let a := fresh "a" in let w := fresh "w" in let H' := fresh "Hio" in
      apply io_bind_Err in H as [H | (a & w & H' & H)]
  | io_try _ _ = (Ok _, _) => apply (proj1 (io_try_Ok _ _ _ _)) in H
  | io_try _ _ = (Err _, _) => apply io_try_Err in H; destruct H
  | io_map_err _ _ _ = (Ok _, _) => apply io_map_err_Ok in H
  | io_map_err _ _ _ = (Err _, _) =>
      let e := fresh "e" in
      apply io_map_err_Err in H as (e & H & ->)
  end.

Ltac io_inv H := repeat io_step H.

(** ** Specifications of computations

    [triple P m Q R]: from a state satisfying [P], [m] either returns a value and a
    state satisfying [Q], or fails with an error and a state satisfying [R]. *)

Definition triple {W E A} (P : W → Prop) (m : io W E A) (Q : A → W → Prop)
    (R : E → W → Prop) : Prop :=
  ∀ w, P w → match m w with
             | (Ok a, w') => Q a w'
             | (Err e, w') => R e w'
             end.

Section triple.
Context {W E : Type}.

Lemma triple_ret {A} (a : A) (P : W → Prop) Q (R : E → W → Prop) :
  (∀ w, P w → Q a w) → triple P (io_ret a) Q R.
Proof. intros H w. apply H. Qed.

Lemma triple_fail {A} (e : E) (P : W → Prop) (Q : A → W → Prop) (R : E → W → Prop) :
  (∀ w, P w → R e w) → triple P (io_fail e) Q R.
Proof. intros H w. apply H. Qed.

Lemma triple_bind {A B} (m : io W E A) (k : A → io W E B) P Q S R :
  triple P m Q R → (∀ a, triple (Q a) (k a) S R) → triple P (io_bind m k) S R.
Proof.
  intros Hm Hk w Hw. unfold io_bind. specialize (Hm w Hw).
  destruct (m w) as [[a|e] w']; [by apply Hk|done].
Qed.

Lemma triple_try {A} (m : io W E A) P Q (R : E → W → Prop) :
  triple P m (λ a, Q (Ok a)) (λ e, Q (Err e)) → triple P (io_try m) Q R.
Proof. intros Hm w Hw. specialize (Hm w Hw). unfold io_try. by destruct (m w) as [[a|e] w']. Qed.

Lemma triple_map_err {F A} (f : E → F) (m : io W E A) P Q R :
  triple P m Q (λ e, R (f e)) → triple P (io_map_err f m) Q R.
Proof. intros Hm w Hw. specialize (Hm w Hw). unfold io_map_err. by destruct (m w) as [[a|e] w']. Qed.

Lemma triple_conseq {A} (m : io W E A) (P P' : W → Prop) (Q Q' : A → W → Prop)
    (R R' : E → W → Prop) :
  triple P' m Q' R' → (∀ w, P w → P' w) → (∀ a w, Q' a w → Q a w) →
  (∀ e w, R' e w → R e w) → triple P m Q R.
Proof.
  intros Hm HP HQ HR w Hw. specialize (Hm w (HP w Hw)).
  destruct (m w) as [[a|e] w']; auto.
Qed.

Lemma triple_modify (f : W → W) P Q (R : E → W → Prop) :
  (∀ w, P w → Q () (f w)) → triple P (io_modify f) Q R.
Proof. intros H w Hw. by apply H. Qed.

Lemma triple_gets {A} (f : W → A) P Q (R : E → W → Prop) :
  (∀ w, P w → Q (f w) w) → triple P (io_gets f) Q R.
Proof. intros H w Hw. by apply H. Qed.

(** A fact about the initial state may be used to verify the computation. *)
Lemma triple_pre {A} (m : io W E A) (P : W → Prop) Q R :
  (∀ w, P w → triple (eq w) m Q R) → triple P m Q R.
Proof. intros H w Hw. by apply (H w Hw w). Qed.
End triple.

(** ** Lenses

    A component that owns a part [S] of the shared state [W] is given as a lens;
    [io_zoom] runs one of its operations on the whole state. *)

Record lens (W S : Type) : Type := {
  view : W → S;
  update : S → W → W;
  view_update : ∀ s w, view (update s w) = s;
  update_view : ∀ w, update (view w) w = w;
  update_update : ∀ s s' w, update s (update s' w) = update s w;
}.
Arguments view {W S} _ _.
Arguments update {W S} _ _ _.
Arguments view_update {W S} _ _ _.
Arguments update_view {W S} _ _.
Arguments update_update {W S} _ _ _ _.

Definition io_zoom {W S E A} (l : lens W S) (m : io S E A) : io W E A := λ w,
  let '(r, s) := m (view l w) in (r, update l s w).

Definition lens_id {W} : lens W W.
Proof. by refine {| view w := w; update s _ := s |}. Defined.

#[export] Instance io_zoom_proper {W S E A} (l : lens W S) :
  Proper (@io_eq S E A ==> @io_eq W E A) (io_zoom l).
Proof. intros m n Hm w. unfold io_zoom. by rewrite Hm. Qed.

Lemma io_zoom_run {W S E A} (l : lens W S) (m : io S E A) w r w' :
  io_zoom l m w = (r, w') ↔ ∃ s, m (view l w) = (r, s) ∧ w' = update l s w.
Proof.
  unfold io_zoom. destruct (m (view l w)) as [r' s'] eqn:Hm. split.
  - intros [= <- <-]. eauto.
  - intros (s & [= -> ->] & ->). done.
Qed.

(** ** 64-bit unsigned integers

    A [u64] (and a [usize] of a 64-bit target) is a number of type [N] below
    [2^64]; the three additions and the subtraction the program uses are
    written out. *)

Definition u64_modulus : N := (2 ^ 64)%N.
Definition u64_max : N := (u64_modulus - 1)%N.
Definition is_u64 (n : N) : Prop := (n < u64_modulus)%N.

(** [AtomicU64::fetch_add] wraps around. *)
Definition u64_wrapping_add (a b : N) : N := ((a + b) mod u64_modulus)%N.
(** [u64::saturating_add] and [u64::saturating_sub]. *)
Definition u64_saturating_add (a b : N) : N := N.min (a + b) u64_max.
Definition u64_saturating_sub (a b : N) : N := (a - b)%N.

#[export] Instance is_u64_dec n : Decision (is_u64 n).
Proof. unfold is_u64. apply _. Defined.

Lemma u64_modulus_pos : (0 < u64_modulus)%N.
Proof. done. Qed.

Lemma u64_wrapping_add_is_u64 a b : is_u64 (u64_wrapping_add a b).
Proof. apply N.mod_lt. done. Qed.

Lemma u64_wrapping_add_small a b :
  (a + b < u64_modulus)%N → u64_wrapping_add a b = (a + b)%N.
Proof. apply N.mod_small. Qed.

Lemma u64_saturating_add_is_u64 a b : is_u64 (u64_saturating_add a b).
Proof. unfold is_u64, u64_saturating_add, u64_max. pose proof u64_modulus_pos. lia. Qed.

Lemma u64_saturating_add_small a b :
  (a + b < u64_modulus)%N → u64_saturating_add a b = (a + b)%N.
Proof. unfold u64_saturating_add, u64_max. lia. Qed.

Lemma u64_saturating_add_mono a b :
  is_u64 a → (a ≤ u64_saturating_add a b)%N.
Proof. unfold is_u64, u64_saturating_add, u64_max. lia. Qed.

#[global] Opaque u64_modulus.

(** ** Strings

    A Rust [String] is its UTF-8 byte sequence: a [string] of 8-bit characters.
    Splitting at an ASCII character never cuts a UTF-8 sequence, so the byte
    level definition is the one of the standard library. *)

(** [str::split_once]: the parts before and after the first [c]. *)
Fixpoint split_once (c : ascii) (s : string) : option (string * string) :=
  match s with
  | EmptyString => None
  | String a s' =>
      if decide (a = c) then Some (EmptyString, s')
      else match split_once c s' with
           | Some (l, r) => Some (String a l, r)
           | None => None
           end
  end.

Lemma string_app_cons a s t : String a s +:+ t = String a (s +:+ t).
Proof. done. Qed.

Lemma string_app_nil_l t : "" +:+ t = t.
Proof. done. Qed.

Lemma string_app_assoc (s t u : string) : s +:+ (t +:+ u) = (s +:+ t) +:+ u.
Proof.
  induction s as [|a s IH]; [done|]. rewrite !string_app_cons. by rewrite IH.
Qed.

Lemma string_app_nil_r s : s +:+ "" = s.
Proof. induction s as [|a s IH]; [done|]. rewrite string_app_cons. by rewrite IH. Qed.

Lemma length_string_app s t : String.length (s +:+ t) = String.length s + String.length t.
Proof. induction s as [|a s IH]; simpl; [done|]. by rewrite IH. Qed.

Definition string_has (c : ascii) (s : string) : Prop := c ∈ String.list_ascii_of_string s.

#[export] Instance string_has_dec c s : Decision (string_has c s).
Proof. unfold string_has. apply _. Defined.

Lemma string_has_app c s t : string_has c (s +:+ t) ↔ string_has c s ∨ string_has c t.
Proof.
  unfold string_has. induction s as [|a s IH].
  - rewrite string_app_nil_l. simpl. rewrite elem_of_nil. tauto.
  - rewrite string_app_cons. simpl. rewrite !elem_of_cons, IH. tauto.
Qed.


Lemma split_once_Some c s l r :
  split_once c s = Some (l, r) ↔ s = l +:+ String c r ∧ ¬ string_has c l.
Proof.
  revert l r. induction s as [|a s IH]; intros l r; simpl.
  - split; [done|]. intros [H _]. by destruct l.
  - destruct (decide (a = c)) as [->|Hne].
    + split.
      * intros [= <- <-]. split; [done|]. apply not_elem_of_nil.
      * intros [H Hc]. destruct l as [|b l]; simpl in H.
        { by injection H as [= ->]. }
        injection H as [= -> ->]. destruct Hc. apply elem_of_cons. by left.
    + split.
      * destruct (split_once c s) as [[l' r']|]; [|done].
        intros [= <- <-]. destruct (proj1 (IH l' r') eq_refl) as [-> Hl]. split; [done|].
        unfold string_has in *. simpl. rewrite elem_of_cons. naive_solver.
      * intros [H Hc]. destruct l as [|b l]; simpl in H.
        { injection H as [= -> ->]. done. }
        injection H as [= -> ->]. unfold string_has in Hc; simpl in Hc.
        rewrite elem_of_cons in Hc.
        destruct (IH l r) as [_ IH']. rewrite IH'; [done|]. split; [done|]. naive_solver.
Qed.

Lemma split_once_None c s : split_once c s = None ↔ ¬ string_has c s.
Proof.
  unfold string_has. induction s as [|a s IH]; simpl.
  - split; [intros _; apply not_elem_of_nil | done].
  - rewrite elem_of_cons. destruct (decide (a = c)) as [->|Hne].
    + naive_solver.
    + destruct (split_once c s) as [[l r]|]; naive_solver.
Qed.

(** [str::strip_prefix]. *)
Fixpoint strip_prefix (p s : string) : option string :=
  match p, s with
  | EmptyString, _ => Some s
  | String a p', String b s' => if decide (a = b) then strip_prefix p' s' else None
  | String _ _, EmptyString => None
  end.

Lemma strip_prefix_Some p s r : strip_prefix p s = Some r ↔ s = p +:+ r.
Proof.
  revert s. induction p as [|a p IH]; intros s.
  { rewrite string_app_nil_l. simpl. split; [by intros [= ->] | by intros ->]. }
  rewrite string_app_cons. destruct s as [|b s]; simpl; [done|].
  case_decide; [rewrite IH|]; split; congruence.
Qed.

(** [u64]'s [Display]. *)
Definition show_u64 (n : N) : string := pretty n.

(** ** Bytes *)

Abbreviation Bytes := (list Byte.byte).

#[export] Instance byte_eq_dec : EqDecision Byte.byte := Byte.byte_eq_dec.

Definition bytes_of_string : string → Bytes := String.list_byte_of_string.
Definition string_of_bytes : Bytes → string := String.string_of_list_byte.

Lemma string_of_bytes_of_string s : string_of_bytes (bytes_of_string s) = s.
Proof. apply String.string_of_list_byte_of_string. Qed.

Lemma bytes_of_string_of_bytes b : bytes_of_string (string_of_bytes b) = b.
Proof. apply String.list_byte_of_string_of_list_byte. Qed.

(** ** Lists *)

(** Numbers [a, a+1, ..], [n] of them: the offsets of consecutive publications. *)
Fixpoint seqN_from (a : N) (n : nat) : list N :=
  match n with
  | O => []
  | S n => a :: seqN_from (N.succ a) n
  end.

Lemma seqN_from_app a n m :
  seqN_from a (n + m) = seqN_from a n ++ seqN_from (a + N.of_nat n) m.
Proof.
  revert a. induction n as [|n IH]; intros a; simpl.
  - by rewrite N.add_0_r.
  - rewrite IH. do 3 f_equal. lia.
Qed.

Lemma elem_of_seqN_from a n x : x ∈ seqN_from a n ↔ (a ≤ x < a + N.of_nat n)%N.
Proof.
  revert a. induction n as [|n IH]; intros a; simpl.
  - rewrite elem_of_nil. lia.
  - rewrite elem_of_cons, IH. lia.
Qed.

Lemma length_seqN_from a n : length (seqN_from a n) = n.
Proof. revert a. induction n; intros a; simpl; auto. Qed.

(** Dropping a prefix of a list is what both evictions of a ring buffer do. *)
Lemma suffix_filter_head {A} (l k : list A) : l `suffix_of` k → ∃ n, l = drop n k.
Proof. intros [p ->]. exists (length p). by rewrite drop_app_length. Qed.

Lemma sublist_length_eq {A} (l k : list A) :
  l `sublist_of` k → length k ≤ length l → l = k.
Proof.
  induction 1 as [|x l k _ IH|x l k Hs _]; intros Hle; simpl in *; [done| |].
  - by rewrite IH by lia.
  - apply sublist_length in Hs. lia.
Qed.

(** Filtering an element out of a list without duplicates. *)
Lemma filter_ne_not_elem {A} `{EqDecision A} (x : A) (l : list A) :
  x ∉ l → filter (λ y, y ≠ x) l = l.
Proof.
  induction l as [|a l IH]; intros Hx; [done|].
  apply not_elem_of_cons in Hx as [? ?]. rewrite filter_cons_True by done.
  by rewrite IH.
Qed.

Create HintDb cherenkov.
#[export] Hint Resolve u64_wrapping_add_is_u64 u64_saturating_add_is_u64 : cherenkov.
