(* ===== verification/Utf8.v ===== *)
(** * UTF-8 validity of byte strings

    The standard library's [str::from_utf8] / [String::from_utf8], used by the
    SSE query decoder, and the validity invariant every Rust [String] carries. *)
From S2P Require Import Prelude.

Definition byte_val (b : Byte.byte) : N := Byte.to_N b.

Definition in_range (lo hi : N) (b : Byte.byte) : bool :=
  (lo <=? byte_val b)%N && (byte_val b <=? hi)%N.

(** The continuation bytes [80..BF]. *)
Definition is_cont : Byte.byte → bool := in_range 128 191.

(** Well-formed two, three and four byte sequences (Unicode table 3-7). *)
Definition utf8_2 (b0 b1 : Byte.byte) : bool := in_range 194 223 b0 && is_cont b1.

Definition utf8_3 (b0 b1 b2 : Byte.byte) : bool :=
  ((in_range 224 224 b0 && in_range 160 191 b1)
   || ((in_range 225 236 b0 || in_range 238 239 b0) && is_cont b1)
   || (in_range 237 237 b0 && in_range 128 159 b1)) && is_cont b2.

Definition utf8_4 (b0 b1 b2 b3 : Byte.byte) : bool :=
  ((in_range 240 240 b0 && in_range 144 191 b1)
   || (in_range 241 243 b0 && is_cont b1)
   || (in_range 244 244 b0 && in_range 128 143 b1)) && is_cont b2 && is_cont b3.

Fixpoint utf8_valid (bs : Bytes) : bool :=
  match bs with
  | [] => true
  | b0 :: r0 =>
      if (byte_val b0 <? 128)%N then utf8_valid r0 else
      match r0 with
      | [] => false
      | b1 :: r1 =>
          if utf8_2 b0 b1 then utf8_valid r1 else
          match r1 with
          | [] => false
          | b2 :: r2 =>
              if utf8_3 b0 b1 b2 then utf8_valid r2 else
              match r2 with
              | [] => false
              | b3 :: r3 => if utf8_4 b0 b1 b2 b3 then utf8_valid r3 else false
              end
          end
      end
  end.

(** [String::from_utf8]. *)
Inductive Utf8Error : Type := mk_Utf8Error.

Definition from_utf8 (bs : Bytes) : result Utf8Error string :=
  if utf8_valid bs then Ok (string_of_bytes bs) else Err mk_Utf8Error.

(** What Rust guarantees of every value of type [String] or [&str]. *)
Definition is_str (s : string) : Prop := utf8_valid (bytes_of_string s) = true.

#[export] Instance is_str_dec s : Decision (is_str s).
Proof. unfold is_str. apply _. Defined.

(** Induction along the sequences of a valid byte string. *)
Lemma utf8_valid_app l k :
  utf8_valid l = true → utf8_valid (l ++ k) = utf8_valid k.
Proof.
  induction l as [l IH] using (induction_ltof1 _ (@length Byte.byte)). unfold ltof in IH.
  assert (IH' : ∀ l', length l' < length l → utf8_valid l' = true →
                      utf8_valid (l' ++ k) = utf8_valid k) by (intros; by apply IH).
  clear IH. destruct l as [|b0 r0]; simpl in *; [done|].
  destruct (byte_val b0 <? 128)%N; [intros; apply IH'; [lia|done]|].
  destruct r0 as [|b1 r1]; simpl in *; [done|].
  destruct (utf8_2 b0 b1); [intros; apply IH'; [lia|done]|].
  destruct r1 as [|b2 r2]; simpl in *; [done|].
  destruct (utf8_3 b0 b1 b2); [intros; apply IH'; [lia|done]|].
  destruct r2 as [|b3 r3]; simpl in *; [done|].
  destruct (utf8_4 b0 b1 b2 b3); [intros; apply IH'; [lia|done]|done].
Qed.

Lemma utf8_valid_ascii l : Forall (λ b, byte_val b < 128)%N l → utf8_valid l = true.
Proof.
  induction 1 as [|b l Hb _ IH]; simpl; [done|].
  by rewrite (proj2 (N.ltb_lt _ _) Hb).
Qed.

Lemma bytes_of_string_app s t :
  bytes_of_string (s +:+ t) = bytes_of_string s ++ bytes_of_string t.
Proof.
  unfold bytes_of_string. induction s as [|a s IH]; [done|].
  rewrite string_app_cons. cbn. f_equal. exact IH.
Qed.

Lemma is_str_app s t : is_str s → is_str t → is_str (s +:+ t).
Proof.
  unfold is_str. intros Hs Ht. by rewrite bytes_of_string_app, utf8_valid_app.
Qed.

Lemma from_utf8_bytes_of_string s :
  is_str s → from_utf8 (bytes_of_string s) = Ok s.
Proof. unfold is_str, from_utf8. intros ->. by rewrite string_of_bytes_of_string. Qed.

Lemma from_utf8_is_str bs s : from_utf8 bs = Ok s → is_str s ∧ bs = bytes_of_string s.
Proof.
  unfold from_utf8, is_str. destruct (utf8_valid bs) eqn:Hv; [|done].
  intros [= <-]. by rewrite bytes_of_string_of_bytes.
Qed.

#[export] Hint Resolve is_str_app : cherenkov.
