(* ===== verification/Protocol.v ===== *)
(** * The v1 wire protocol (crates/cherenkov-protocol/src/frame.rs)

    The owned wrapper types that cross crate boundaries, the types [prost]
    generates from [proto/v1.proto] (module [Proto]), the conversions between the
    two, and the encode / decode entry points.  The generated codec itself is not
    in the repository: it is the interface [ProstCodec], with the documented
    round trip of well-formed messages as the laws [ProstCodecLaws]; [ProtoWire]
    builds an instance that implements the schema of [v1.proto]. *)
From S2P Require Import Prelude Utf8.

(** ** The generated message types *)

Module Proto.
Record Subscribe : Type := mk_Subscribe {
sub_request_id : N;
sub_channel : string;
sub_since_offset : N
}.

Record Unsubscribe : Type := mk_Unsubscribe {
unsub_request_id : N;
unsub_channel : string
}.

Record Publish : Type := mk_Publish {
pub_request_id : N;
pub_channel : string;
pub_data : Bytes
}.

Record Connect : Type := mk_Connect {
con_request_id : N;
con_token : string
}.

Record SubscribeOk : Type := mk_SubscribeOk {
subok_request_id : N;
subok_channel : string;
subok_epoch : N;
subok_offset : N
}.

Record UnsubscribeOk : Type := mk_UnsubscribeOk {
unsubok_request_id : N;
unsubok_channel : string
}.

Record Publication : Type := mk_Publication {
publ_channel : string;
publ_offset : N;
publ_data : Bytes
}.

Record Error : Type := mk_Error {
err_request_id : N;
err_code : N;
err_message : string
}.

Record ConnectOk : Type := mk_ConnectOk {
conok_request_id : N;
conok_subject : string;
conok_expires_at : N
}.

Module client_frame.
Inductive Kind : Type :=
| Kind_Subscribe (m : Subscribe)
| Kind_Unsubscribe (m : Unsubscribe)
| Kind_Publish (m : Publish)
| Kind_Connect (m : Connect).
End client_frame.

Module server_frame.
Inductive Kind : Type :=
| Kind_SubscribeOk (m : SubscribeOk)
| Kind_UnsubscribeOk (m : UnsubscribeOk)
| Kind_Publication (m : Publication)
| Kind_Error (m : Error)
| Kind_ConnectOk (m : ConnectOk).
End server_frame.

Record ClientFrame : Type := mk_ClientFrame { client_kind : option client_frame.Kind }.
Record ServerFrame : Type := mk_ServerFrame { server_kind : option server_frame.Kind }.
End Proto.

(** ** The wrapper types *)

Record Subscribe : Type := mk_Subscribe {
  sub_request_id : N;
  sub_channel : string;
  sub_since_offset : N
}.

Record Unsubscribe : Type := mk_Unsubscribe {
  unsub_request_id : N;
  unsub_channel : string
}.

Record Publish : Type := mk_Publish {
  pub_request_id : N;
  pub_channel : string;
  pub_data : Bytes
}.

Record Connect : Type := mk_Connect {
  con_request_id : N;
  con_token : string
}.

Record SubscribeOk : Type := mk_SubscribeOk {
  subok_request_id : N;
  subok_channel : string;
  subok_epoch : N;
  subok_offset : N
}.

Record UnsubscribeOk : Type := mk_UnsubscribeOk {
  unsubok_request_id : N;
  unsubok_channel : string
}.

Record Publication : Type := mk_Publication {
  publ_channel : string;
  publ_offset : N;
  publ_data : Bytes
}.

Record ProtocolError : Type := mk_ProtocolError {
  perr_request_id : N;
  perr_code : N;
  perr_message : string
}.

Record ConnectOk : Type := mk_ConnectOk {
  conok_request_id : N;
  conok_subject : string;
  conok_expires_at : N
}.

Inductive ClientFrame : Type :=
| CF_Subscribe (m : Subscribe)
| CF_Unsubscribe (m : Unsubscribe)
| CF_Publish (m : Publish)
| CF_Connect (m : Connect).

Inductive ServerFrame : Type :=
| SF_SubscribeOk (m : SubscribeOk)
| SF_UnsubscribeOk (m : UnsubscribeOk)
| SF_Publication (m : Publication)
| SF_Error (m : ProtocolError)
| SF_ConnectOk (m : ConnectOk).

#[export] Instance Subscribe_eq_dec : EqDecision Subscribe.
Proof. solve_decision. Defined.
#[export] Instance Unsubscribe_eq_dec : EqDecision Unsubscribe.
Proof. solve_decision. Defined.
#[export] Instance Publish_eq_dec : EqDecision Publish.
Proof. solve_decision. Defined.
#[export] Instance Connect_eq_dec : EqDecision Connect.
Proof. solve_decision. Defined.
#[export] Instance SubscribeOk_eq_dec : EqDecision SubscribeOk.
Proof. solve_decision. Defined.
#[export] Instance UnsubscribeOk_eq_dec : EqDecision UnsubscribeOk.
Proof. solve_decision. Defined.
#[export] Instance Publication_eq_dec : EqDecision Publication.
Proof. solve_decision. Defined.
#[export] Instance ProtocolError_eq_dec : EqDecision ProtocolError.
Proof. solve_decision. Defined.
#[export] Instance ConnectOk_eq_dec : EqDecision ConnectOk.
Proof. solve_decision. Defined.
#[export] Instance ClientFrame_eq_dec : EqDecision ClientFrame.
Proof. solve_decision. Defined.
#[export] Instance ServerFrame_eq_dec : EqDecision ServerFrame.
Proof. solve_decision. Defined.

(** [ErrorCode] and [From<ErrorCode> for u32]. *)
Inductive ErrorCode : Type :=
| InvalidFrame | InvalidChannelCode | Unauthorized | Internal
| ValidationFailed | InvalidTokenCode | AclDenied | NotConnectedCode.

#[export] Instance ErrorCode_eq_dec : EqDecision ErrorCode.
Proof. solve_decision. Defined.

Definition u32_of_error_code (c : ErrorCode) : N :=
  match c with
  | InvalidFrame => 1 | InvalidChannelCode => 2 | Unauthorized => 3 | Internal => 4
  | ValidationFailed => 5 | InvalidTokenCode => 6 | AclDenied => 7 | NotConnectedCode => 8
  end.

Lemma u32_of_error_code_inj c d : u32_of_error_code c = u32_of_error_code d → c = d.
Proof. by destruct c, d. Qed.

(** ** Wrapper to generated type *)

Definition subscribe_into_proto (v : Subscribe) : Proto.Subscribe :=
  Proto.mk_Subscribe v.(sub_request_id) v.(sub_channel) v.(sub_since_offset).

Definition unsubscribe_into_proto (v : Unsubscribe) : Proto.Unsubscribe :=
  Proto.mk_Unsubscribe v.(unsub_request_id) v.(unsub_channel).

Definition publish_into_proto (v : Publish) : Proto.Publish :=
  Proto.mk_Publish v.(pub_request_id) v.(pub_channel) v.(pub_data).

Definition connect_into_proto (v : Connect) : Proto.Connect :=
  Proto.mk_Connect v.(con_request_id) v.(con_token).

Definition subscribe_ok_into_proto (v : SubscribeOk) : Proto.SubscribeOk :=
  Proto.mk_SubscribeOk v.(subok_request_id) v.(subok_channel) v.(subok_epoch) v.(subok_offset).

Definition unsubscribe_ok_into_proto (v : UnsubscribeOk) : Proto.UnsubscribeOk :=
  Proto.mk_UnsubscribeOk v.(unsubok_request_id) v.(unsubok_channel).

Definition publication_into_proto (v : Publication) : Proto.Publication :=
  Proto.mk_Publication v.(publ_channel) v.(publ_offset) v.(publ_data).

Definition protocol_error_into_proto (v : ProtocolError) : Proto.Error :=
  Proto.mk_Error v.(perr_request_id) v.(perr_code) v.(perr_message).

Definition connect_ok_into_proto (v : ConnectOk) : Proto.ConnectOk :=
  Proto.mk_ConnectOk v.(conok_request_id) v.(conok_subject) v.(conok_expires_at).

Definition client_into_proto (value : ClientFrame) : Proto.ClientFrame :=
  Proto.mk_ClientFrame (Some match value with
  | CF_Subscribe x => Proto.client_frame.Kind_Subscribe (subscribe_into_proto x)
  | CF_Unsubscribe x => Proto.client_frame.Kind_Unsubscribe (unsubscribe_into_proto x)
  | CF_Publish x => Proto.client_frame.Kind_Publish (publish_into_proto x)
  | CF_Connect x => Proto.client_frame.Kind_Connect (connect_into_proto x)
  end).

Definition server_into_proto (value : ServerFrame) : Proto.ServerFrame :=
  Proto.mk_ServerFrame (Some match value with
  | SF_SubscribeOk x => Proto.server_frame.Kind_SubscribeOk (subscribe_ok_into_proto x)
  | SF_UnsubscribeOk x => Proto.server_frame.Kind_UnsubscribeOk (unsubscribe_ok_into_proto x)
  | SF_Publication x => Proto.server_frame.Kind_Publication (publication_into_proto x)
  | SF_Error x => Proto.server_frame.Kind_Error (protocol_error_into_proto x)
  | SF_ConnectOk x => Proto.server_frame.Kind_ConnectOk (connect_ok_into_proto x)
  end).

(** ** Generated type to wrapper *)

Definition subscribe_of_proto (v : Proto.Subscribe) : Subscribe :=
  mk_Subscribe v.(Proto.sub_request_id) v.(Proto.sub_channel) v.(Proto.sub_since_offset).

Definition unsubscribe_of_proto (v : Proto.Unsubscribe) : Unsubscribe :=
  mk_Unsubscribe v.(Proto.unsub_request_id) v.(Proto.unsub_channel).

Definition publish_of_proto (v : Proto.Publish) : Publish :=
  mk_Publish v.(Proto.pub_request_id) v.(Proto.pub_channel) v.(Proto.pub_data).

Definition connect_of_proto (v : Proto.Connect) : Connect :=
  mk_Connect v.(Proto.con_request_id) v.(Proto.con_token).

Definition subscribe_ok_of_proto (v : Proto.SubscribeOk) : SubscribeOk :=
  mk_SubscribeOk v.(Proto.subok_request_id) v.(Proto.subok_channel) v.(Proto.subok_epoch) v.(Proto.subok_offset).

Definition unsubscribe_ok_of_proto (v : Proto.UnsubscribeOk) : UnsubscribeOk :=
  mk_UnsubscribeOk v.(Proto.unsubok_request_id) v.(Proto.unsubok_channel).

Definition publication_of_proto (v : Proto.Publication) : Publication :=
  mk_Publication v.(Proto.publ_channel) v.(Proto.publ_offset) v.(Proto.publ_data).

Definition protocol_error_of_proto (v : Proto.Error) : ProtocolError :=
  mk_ProtocolError v.(Proto.err_request_id) v.(Proto.err_code) v.(Proto.err_message).

Definition connect_ok_of_proto (v : Proto.ConnectOk) : ConnectOk :=
  mk_ConnectOk v.(Proto.conok_request_id) v.(Proto.conok_subject) v.(Proto.conok_expires_at).

(** [DecodeError]: the backend's own error, or an unset [kind] oneof. *)
Inductive DecodeError (P : Type) : Type :=
| Prost (e : P)
| MissingClientKind
| MissingServerKind.
Arguments Prost {P} e.
Arguments MissingClientKind {P}.
Arguments MissingServerKind {P}.

(** [TryFrom<proto::ClientFrame> for ClientFrame]. *)
Definition client_of_proto {P} (value : Proto.ClientFrame) : result (DecodeError P) ClientFrame :=
  let? kind := ok_or value.(Proto.client_kind) MissingClientKind in
  Ok match kind with
     | Proto.client_frame.Kind_Subscribe x => CF_Subscribe (subscribe_of_proto x)
     | Proto.client_frame.Kind_Unsubscribe x => CF_Unsubscribe (unsubscribe_of_proto x)
     | Proto.client_frame.Kind_Publish x => CF_Publish (publish_of_proto x)
     | Proto.client_frame.Kind_Connect x => CF_Connect (connect_of_proto x)
     end.

(** [TryFrom<proto::ServerFrame> for ServerFrame]. *)
Definition server_of_proto {P} (value : Proto.ServerFrame) : result (DecodeError P) ServerFrame :=
  let? kind := ok_or value.(Proto.server_kind) MissingServerKind in
  Ok match kind with
     | Proto.server_frame.Kind_SubscribeOk x => SF_SubscribeOk (subscribe_ok_of_proto x)
     | Proto.server_frame.Kind_UnsubscribeOk x => SF_UnsubscribeOk (unsubscribe_ok_of_proto x)
     | Proto.server_frame.Kind_Publication x => SF_Publication (publication_of_proto x)
     | Proto.server_frame.Kind_Error x => SF_Error (protocol_error_of_proto x)
     | Proto.server_frame.Kind_ConnectOk x => SF_ConnectOk (connect_ok_of_proto x)
     end.

(** ** Well-formed values: what the Rust field types guarantee *)

Definition wf_subscribe (v : Subscribe) : Prop :=
  is_u64 v.(sub_request_id) ∧ is_str v.(sub_channel) ∧ is_u64 v.(sub_since_offset).

Definition wf_unsubscribe (v : Unsubscribe) : Prop :=
  is_u64 v.(unsub_request_id) ∧ is_str v.(unsub_channel).

Definition wf_publish (v : Publish) : Prop :=
  is_u64 v.(pub_request_id) ∧ is_str v.(pub_channel).

Definition wf_connect (v : Connect) : Prop :=
  is_u64 v.(con_request_id) ∧ is_str v.(con_token).

Definition wf_subscribe_ok (v : SubscribeOk) : Prop :=
  is_u64 v.(subok_request_id) ∧ is_str v.(subok_channel) ∧ is_u64 v.(subok_epoch) ∧ is_u64 v.(subok_offset).

Definition wf_unsubscribe_ok (v : UnsubscribeOk) : Prop :=
  is_u64 v.(unsubok_request_id) ∧ is_str v.(unsubok_channel).

Definition wf_publication (v : Publication) : Prop :=
  is_str v.(publ_channel) ∧ is_u64 v.(publ_offset).

Definition wf_protocol_error (v : ProtocolError) : Prop :=
  is_u64 v.(perr_request_id) ∧ (v.(perr_code) < 2 ^ 32)%N ∧ is_str v.(perr_message).

Definition wf_connect_ok (v : ConnectOk) : Prop :=
  is_u64 v.(conok_request_id) ∧ is_str v.(conok_subject) ∧ is_u64 v.(conok_expires_at).

Definition wf_client (f : ClientFrame) : Prop :=
  match f with
  | CF_Subscribe x => wf_subscribe x
  | CF_Unsubscribe x => wf_unsubscribe x
  | CF_Publish x => wf_publish x
  | CF_Connect x => wf_connect x
  end.

Definition wf_server (f : ServerFrame) : Prop :=
  match f with
  | SF_SubscribeOk x => wf_subscribe_ok x
  | SF_UnsubscribeOk x => wf_unsubscribe_ok x
  | SF_Publication x => wf_publication x
  | SF_Error x => wf_protocol_error x
  | SF_ConnectOk x => wf_connect_ok x
  end.

(** ** The codec interface *)

Class ProstCodec : Type := {
  prost_error : Type;
  encode_proto_client : Proto.ClientFrame → Bytes;
  decode_proto_client : Bytes → result prost_error Proto.ClientFrame;
  encode_proto_server : Proto.ServerFrame → Bytes;
  decode_proto_server : Bytes → result prost_error Proto.ServerFrame;
  encode_proto_publication : Proto.Publication → Bytes;
  decode_proto_publication : Bytes → result prost_error Proto.Publication;
}.

(** What the program relies on: messages within their field types survive the
    round trip, and an empty buffer is the message with every field unset. *)
Class ProstCodecLaws (C : ProstCodec) : Prop := {
  proto_client_round_trip f : wf_client f →
    decode_proto_client (encode_proto_client (client_into_proto f)) = Ok (client_into_proto f);
  proto_server_round_trip f : wf_server f →
    decode_proto_server (encode_proto_server (server_into_proto f)) = Ok (server_into_proto f);
  proto_publication_round_trip p : wf_publication p →
    decode_proto_publication (encode_proto_publication (publication_into_proto p))
    = Ok (publication_into_proto p);
  proto_client_empty : decode_proto_client [] = Ok (Proto.mk_ClientFrame None);
  proto_server_empty : decode_proto_server [] = Ok (Proto.mk_ServerFrame None);
}.

Section codec.
Context {C : ProstCodec}.

Definition encode_client (frame : ClientFrame) : Bytes :=
  encode_proto_client (client_into_proto frame).
Definition encode_server (frame : ServerFrame) : Bytes :=
  encode_proto_server (server_into_proto frame).
Definition encode_publication (publication : Publication) : Bytes :=
  encode_proto_publication (publication_into_proto publication).

Definition decode_publication (bytes : Bytes) : result (DecodeError prost_error) Publication :=
  let? proto := result_map_err Prost (decode_proto_publication bytes) in
  Ok (publication_of_proto proto).
Definition decode_client (bytes : Bytes) : result (DecodeError prost_error) ClientFrame :=
  let? proto := result_map_err Prost (decode_proto_client bytes) in
  client_of_proto proto.
Definition decode_server (bytes : Bytes) : result (DecodeError prost_error) ServerFrame :=
  let? proto := result_map_err Prost (decode_proto_server bytes) in
  server_of_proto proto.
End codec.

(** ** Correctness *)

Lemma client_of_into_proto {P} f : client_of_proto (P:=P) (client_into_proto f) = Ok f.
Proof. by destruct f as [[]|[]|[]|[]]. Qed.

Lemma server_of_into_proto {P} f : server_of_proto (P:=P) (server_into_proto f) = Ok f.
Proof. by destruct f as [[]|[]|[]|[]|[]]. Qed.

Lemma publication_of_into_proto p : publication_of_proto (publication_into_proto p) = p.
Proof. by destruct p. Qed.

Section codec_laws.
Context {C : ProstCodec} {L : ProstCodecLaws C}.

Lemma decode_encode_client f : wf_client f → decode_client (encode_client f) = Ok f.
Proof.
  intros Hwf. unfold decode_client, encode_client.
  rewrite proto_client_round_trip by done. apply client_of_into_proto.
Qed.

Lemma decode_encode_server f : wf_server f → decode_server (encode_server f) = Ok f.
Proof.
  intros Hwf. unfold decode_server, encode_server.
  rewrite proto_server_round_trip by done. apply server_of_into_proto.
Qed.

Lemma decode_encode_publication p :
  wf_publication p → decode_publication (encode_publication p) = Ok p.
Proof.
  intros Hwf. unfold decode_publication, encode_publication.
  rewrite proto_publication_round_trip by done. simpl. by rewrite publication_of_into_proto.
Qed.
End codec_laws.
