(* ===== verification/ProtoWire.v ===== *)
(** * A proto3 codec for v1.proto

    An instance of the codec interface of [Protocol]: the proto3 wire format
    (varints, length-delimited fields, default values left out) applied to the
    messages and field numbers of [crates/cherenkov-protocol/proto/v1.proto].
    It shows that the codec laws can hold, it evaluates, and it reproduces the
    byte snapshots the repository keeps under
    [crates/cherenkov-protocol/src/snapshots].  No theorem about the server
    depends on this particular codec. *)
From S2P Require Import Prelude Utf8 Protocol.

(** ** Varints *)

Definition byte_of (n : N) : Byte.byte := default x00 (Byte.of_N n).

Lemma byte_val_byte_of n : (n < 256)%N → byte_val (byte_of n) = n.
Proof.
  intros Hn. unfold byte_of, byte_val.
  destruct (Byte.of_N n) as [b|] eqn:Hb; simpl.
  - by apply Byte.to_of_N in Hb.
  - apply Byte.of_N_None_iff in Hb. lia.
Qed.

Fixpoint varint_go (fuel : nat) (n : N) : Bytes :=
  match fuel with
  | O => [byte_of n]
  | S fuel =>
      if (n <? 128)%N then [byte_of n]
      else byte_of (128 + n mod 128) :: varint_go fuel (n / 128)
  end.

Definition varint (n : N) : Bytes := varint_go (N.size_nat n) n.

Fixpoint read_varint (bs : Bytes) : option (N * Bytes) :=
  match bs with
  | [] => None
  | b :: r =>
      let v := byte_val b in
      if (v <? 128)%N then Some (v, r)
      else match read_varint r with
           | Some (m, r') => Some (v - 128 + 128 * m, r')%N
           | None => None
           end
  end.

Lemma read_varint_go fuel n rest :
  (n < 128 * 2 ^ N.of_nat fuel)%N → read_varint (varint_go fuel n ++ rest) = Some (n, rest).
Proof.
  revert n. induction fuel as [|fuel IH]; intros n Hn.
  - change (2 ^ N.of_nat 0)%N with 1%N in Hn. simpl.
    rewrite byte_val_byte_of by lia. by rewrite (proj2 (N.ltb_lt n 128)) by lia.
  - simpl. destruct (N.ltb_spec n 128) as [Hlt|Hge]; simpl.
    + rewrite byte_val_byte_of by lia. by rewrite (proj2 (N.ltb_lt n 128)).
    + pose proof (N.mod_lt n 128 ltac:(done)) as Hm.
      rewrite byte_val_byte_of by lia.
      rewrite (proj2 (N.ltb_ge (128 + n mod 128) 128) (N.le_add_r _ _)).
      rewrite IH.
      * do 2 f_equal. pose proof (N.div_mod n 128 ltac:(done)) as Hd.
        rewrite (N.add_comm 128), N.add_sub, N.add_comm. by symmetry.
      * apply N.Div0.div_lt_upper_bound.
        rewrite Nat2N.inj_succ, N.pow_succ_r' in Hn.
        generalize dependent (2 ^ N.of_nat fuel)%N. intros x _ Hx. lia.
Qed.

Lemma read_varint_varint n rest : read_varint (varint n ++ rest) = Some (n, rest).
Proof.
  apply read_varint_go. assert (N.of_nat (N.size_nat n) = N.size n) as ->.
  { destruct n as [|p]; [done|]. cbn [N.size_nat N.size].
    induction p as [p IH|p IH|]; [| |done]; cbn [Pos.size_nat Pos.size];
      rewrite Nat2N.inj_succ, IH; reflexivity. }
  pose proof (N.size_gt n) as Hs. lia.
Qed.

(** ** Fields *)

Inductive wire : Type :=
| WVarint (n : N)
| WLen (b : Bytes)
| WFixed (b : Bytes).

Definition field : Type := N * wire.

Definition take_bytes (n : N) (bs : Bytes) : option (Bytes * Bytes) :=
  if decide (n ≤ N.of_nat (length bs))%N
  then Some (take (N.to_nat n) bs, drop (N.to_nat n) bs) else None.

Definition encode_field (f : field) : Bytes :=
  match f with
  | (tag, WVarint n) => varint (8 * tag) ++ varint n
  | (tag, WLen b) => varint (8 * tag + 2) ++ varint (N.of_nat (length b)) ++ b
  | (tag, WFixed b) => varint (8 * tag + 1) ++ b
  end.

Definition read_field (bs : Bytes) : option (field * Bytes) :=
  '(key, r) ← read_varint bs;
  let tag := (key / 8)%N in
  if decide (tag = 0%N) then None else
  match (key mod 8)%N with
  | 0%N => '(n, r) ← read_varint r; Some ((tag, WVarint n), r)
  | 2%N => '(n, r) ← read_varint r; '(b, r) ← take_bytes n r; Some ((tag, WLen b), r)
  | 1%N => '(b, r) ← take_bytes 8 r; Some ((tag, WFixed b), r)
  | 5%N => '(b, r) ← take_bytes 4 r; Some ((tag, WFixed b), r)
  | _ => None
  end.

Fixpoint read_fields (fuel : nat) (bs : Bytes) : option (list field) :=
  match bs, fuel with
  | [], _ => Some []
  | _, O => None
  | _, S fuel => '(f, r) ← read_field bs; l ← read_fields fuel r; Some (f :: l)
  end.

(** Every field takes at least one byte, so the length of the buffer is enough. *)
Definition parse (bs : Bytes) : option (list field) := read_fields (length bs) bs.

Definition encode_fields (l : list field) : Bytes := concat (map encode_field l).

Definition field_ok (f : field) : Prop :=
  f.1 ≠ 0%N ∧ match f.2 with WFixed _ => False | _ => True end.

Lemma take_bytes_app b r : take_bytes (N.of_nat (length b)) (b ++ r) = Some (b, r).
Proof.
  unfold take_bytes. rewrite decide_True by (rewrite length_app; lia).
  by rewrite Nat2N.id, take_app_length, drop_app_length.
Qed.

Lemma key_div tag k : (k < 8 → (8 * tag + k) / 8 = tag ∧ (8 * tag + k) mod 8 = k)%N.
Proof.
  intros Hk. rewrite N.mul_comm, N.div_add_l by done.
  rewrite N.div_small, N.add_0_r by done. split; [done|].
  rewrite N.add_comm, N.Div0.mod_add. by apply N.mod_small.
Qed.

Lemma read_encode_field f rest :
  field_ok f → read_field (encode_field f ++ rest) = Some (f, rest).
Proof.
  destruct f as [tag [n|b|b]]; intros [Htag Hw]; simpl in *; [| |done];
    unfold read_field; rewrite <- !(assoc_L (++)), read_varint_varint; simpl.
  - rewrite <- (N.add_0_r (8 * tag)). destruct (key_div tag 0) as [-> ->]; [done|].
    rewrite decide_False by done. by rewrite read_varint_varint.
  - destruct (key_div tag 2) as [-> ->]; [done|].
    rewrite decide_False by done. rewrite read_varint_varint. simpl.
    by rewrite take_bytes_app.
Qed.

Lemma varint_nonempty n : 1 ≤ length (varint n).
Proof.
  unfold varint. generalize n at 1. intros m.
  destruct (N.size_nat m); simpl; [lia|]. case_match; simpl; lia.
Qed.

Lemma encode_field_nonempty f : field_ok f → 1 ≤ length (encode_field f).
Proof.
  destruct f as [tag [n|b|b]]; intros [_ Hw]; simpl in *; [| |done]; rewrite length_app.
  - pose proof (varint_nonempty (8 * tag)). lia.
  - pose proof (varint_nonempty (8 * tag + 2)). lia.
Qed.

Lemma read_fields_encode l fuel :
  Forall field_ok l → length (encode_fields l) ≤ fuel →
  read_fields fuel (encode_fields l) = Some l.
Proof.
  intros Hl. revert fuel. induction Hl as [|f l Hf Hl IH]; intros fuel Hfuel.
  { by destruct fuel. }
  unfold encode_fields in *. simpl in *. rewrite length_app in Hfuel.
  pose proof (encode_field_nonempty f Hf) as Hne.
  destruct fuel as [|fuel]; [lia|].
  destruct (encode_field f) as [|b e] eqn:He; simpl in *; [lia|].
  change (b :: e ++ concat (map encode_field l))
    with ((b :: e) ++ concat (map encode_field l)).
  rewrite <- He, read_encode_field by done. simpl. rewrite IH by lia. done.
Qed.

Lemma parse_encode l : Forall field_ok l → parse (encode_fields l) = Some l.
Proof. intros Hl. by apply read_fields_encode. Qed.

(** ** Scalars: a field at its default value is left out, the last occurrence wins *)

Definition put_uint (tag n : N) : list field :=
  if decide (n = 0%N) then [] else [(tag, WVarint n)].
Definition put_bytes (tag : N) (b : Bytes) : list field :=
  match b with [] => [] | _ => [(tag, WLen b)] end.
Definition put_string (tag : N) (s : string) : list field :=
  put_bytes tag (bytes_of_string s).

Fixpoint get (tag : N) (l : list field) (acc : option wire) : option wire :=
  match l with
  | [] => acc
  | (t, w) :: l => get tag l (if decide (t = tag) then Some w else acc)
  end.

Definition as_u64 (o : option wire) : option N :=
  match o with
  | None => Some 0%N
  | Some (WVarint n) => if decide (is_u64 n) then Some n else None
  | Some _ => None
  end.
Definition as_u32 (o : option wire) : option N :=
  match o with
  | None => Some 0%N
  | Some (WVarint n) => if decide (is_u64 n) then Some (n mod 2 ^ 32)%N else None
  | Some _ => None
  end.
Definition as_bytes (o : option wire) : option Bytes :=
  match o with
  | None => Some []
  | Some (WLen b) => Some b
  | Some _ => None
  end.
Definition as_string (o : option wire) : option string :=
  b ← as_bytes o; match from_utf8 b with Ok s => Some s | Err _ => None end.

Lemma get_app tag l k acc : get tag (l ++ k) acc = get tag k (get tag l acc).
Proof. revert acc. by induction l as [|[t w] l IH]; intros acc; simpl. Qed.

Lemma get_put_uint_ne tag t n acc : t ≠ tag → get tag (put_uint t n) acc = acc.
Proof. intros. unfold put_uint. case_decide; simpl; [done|]. by rewrite decide_False. Qed.

Lemma get_put_bytes_ne tag t b acc : t ≠ tag → get tag (put_bytes t b) acc = acc.
Proof. intros. destruct b; simpl; [done|]. by rewrite decide_False. Qed.

Lemma get_put_string_ne tag t s acc : t ≠ tag → get tag (put_string t s) acc = acc.
Proof. apply get_put_bytes_ne. Qed.

Lemma as_u64_put tag n : is_u64 n → as_u64 (get tag (put_uint tag n) None) = Some n.
Proof.
  intros. unfold put_uint. case_decide as Hn; simpl; [by rewrite Hn|].
  rewrite decide_True by done. simpl. by rewrite decide_True.
Qed.

Lemma as_u32_put tag n : (n < 2 ^ 32)%N → as_u32 (get tag (put_uint tag n) None) = Some n.
Proof.
  intros. unfold put_uint. case_decide as Hn; simpl; [by rewrite Hn|].
  rewrite decide_True by done. simpl. rewrite decide_True.
  - by rewrite N.mod_small.
  - eapply N.lt_le_trans; [done|]. by vm_compute.
Qed.

Lemma as_bytes_put tag b : as_bytes (get tag (put_bytes tag b) None) = Some b.
Proof. destruct b; simpl; [done|]. by rewrite decide_True. Qed.

Lemma as_string_put tag s : is_str s → as_string (get tag (put_string tag s) None) = Some s.
Proof.
  intros. unfold as_string, put_string. rewrite as_bytes_put. simpl.
  by rewrite from_utf8_bytes_of_string.
Qed.

Lemma field_ok_put_uint tag n : tag ≠ 0%N → Forall field_ok (put_uint tag n).
Proof. intros. unfold put_uint. case_decide; by repeat constructor. Qed.

Lemma field_ok_put_bytes tag b : tag ≠ 0%N → Forall field_ok (put_bytes tag b).
Proof. intros. destruct b; by repeat constructor. Qed.

Lemma field_ok_put_string tag s : tag ≠ 0%N → Forall field_ok (put_string tag s).
Proof. apply field_ok_put_bytes. Qed.

Create HintDb wire.
Create Rewrite HintDb wire_rw.
#[export] Hint Resolve Forall_app_2 field_ok_put_uint field_ok_put_bytes
  field_ok_put_string : wire.

Arguments parse : simpl never.
Arguments encode_fields : simpl never.
Arguments put_uint : simpl never.
Arguments put_bytes : simpl never.
Arguments put_string : simpl never.
Arguments as_u64 : simpl never.
Arguments as_u32 : simpl never.
Arguments as_bytes : simpl never.
Arguments as_string : simpl never.

(** [solve_get] reads the scalars of a message back from its fields: fields of
    another number are skipped, the one that was written gives the value. *)
Ltac skip_field :=
  match goal with
  | |- context [get ?t (put_uint ?u ?n) ?acc] => rewrite (get_put_uint_ne t u n acc) by done
  | |- context [get ?t (put_bytes ?u ?n) ?acc] => rewrite (get_put_bytes_ne t u n acc) by done
  | |- context [get ?t (put_string ?u ?n) ?acc] => rewrite (get_put_string_ne t u n acc) by done
  end.

Ltac solve_get :=
  rewrite !get_app; repeat skip_field;
  repeat first
    [ rewrite as_u64_put by done | rewrite as_u32_put by done
    | rewrite as_bytes_put | rewrite as_string_put by done ];
  reflexivity.

(** ** Messages, with the field numbers of v1.proto *)

Definition put_subscribe (m : Proto.Subscribe) : list field :=
  put_uint 1 m.(Proto.sub_request_id) ++ put_string 2 m.(Proto.sub_channel) ++ put_uint 3 m.(Proto.sub_since_offset).
Definition get_subscribe (l : list field) : option Proto.Subscribe :=
  request_id ← as_u64 (get 1 l None);
  channel ← as_string (get 2 l None);
  since_offset ← as_u64 (get 3 l None);
  Some (Proto.mk_Subscribe request_id channel since_offset).

Definition put_unsubscribe (m : Proto.Unsubscribe) : list field :=
  put_uint 1 m.(Proto.unsub_request_id) ++ put_string 2 m.(Proto.unsub_channel).
Definition get_unsubscribe (l : list field) : option Proto.Unsubscribe :=
  request_id ← as_u64 (get 1 l None);
  channel ← as_string (get 2 l None);
  Some (Proto.mk_Unsubscribe request_id channel).

Definition put_publish (m : Proto.Publish) : list field :=
  put_uint 1 m.(Proto.pub_request_id) ++ put_string 2 m.(Proto.pub_channel) ++ put_bytes 3 m.(Proto.pub_data).
Definition get_publish (l : list field) : option Proto.Publish :=
  request_id ← as_u64 (get 1 l None);
  channel ← as_string (get 2 l None);
  data ← as_bytes (get 3 l None);
  Some (Proto.mk_Publish request_id channel data).

Definition put_connect (m : Proto.Connect) : list field :=
  put_uint 1 m.(Proto.con_request_id) ++ put_string 2 m.(Proto.con_token).
Definition get_connect (l : list field) : option Proto.Connect :=
  request_id ← as_u64 (get 1 l None);
  token ← as_string (get 2 l None);
  Some (Proto.mk_Connect request_id token).

Definition put_subscribeok (m : Proto.SubscribeOk) : list field :=
  put_uint 1 m.(Proto.subok_request_id) ++ put_string 2 m.(Proto.subok_channel) ++ put_uint 3 m.(Proto.subok_epoch) ++ put_uint 4 m.(Proto.subok_offset).
Definition get_subscribeok (l : list field) : option Proto.SubscribeOk :=
  request_id ← as_u64 (get 1 l None);
  channel ← as_string (get 2 l None);
  epoch ← as_u64 (get 3 l None);
  offset ← as_u64 (get 4 l None);
  Some (Proto.mk_SubscribeOk request_id channel epoch offset).

Definition put_unsubscribeok (m : Proto.UnsubscribeOk) : list field :=
  put_uint 1 m.(Proto.unsubok_request_id) ++ put_string 2 m.(Proto.unsubok_channel).
Definition get_unsubscribeok (l : list field) : option Proto.UnsubscribeOk :=
  request_id ← as_u64 (get 1 l None);
  channel ← as_string (get 2 l None);
  Some (Proto.mk_UnsubscribeOk request_id channel).

Definition put_publication (m : Proto.Publication) : list field :=
  put_string 1 m.(Proto.publ_channel) ++ put_uint 2 m.(Proto.publ_offset) ++ put_bytes 3 m.(Proto.publ_data).
Definition get_publication (l : list field) : option Proto.Publication :=
  channel ← as_string (get 1 l None);
  offset ← as_u64 (get 2 l None);
  data ← as_bytes (get 3 l None);
  Some (Proto.mk_Publication channel offset data).

Definition put_error (m : Proto.Error) : list field :=
  put_uint 1 m.(Proto.err_request_id) ++ put_uint 2 m.(Proto.err_code) ++ put_string 3 m.(Proto.err_message).
Definition get_error (l : list field) : option Proto.Error :=
  request_id ← as_u64 (get 1 l None);
  code ← as_u32 (get 2 l None);
  message ← as_string (get 3 l None);
  Some (Proto.mk_Error request_id code message).

Definition put_connectok (m : Proto.ConnectOk) : list field :=
  put_uint 1 m.(Proto.conok_request_id) ++ put_string 2 m.(Proto.conok_subject) ++ put_uint 3 m.(Proto.conok_expires_at).
Definition get_connectok (l : list field) : option Proto.ConnectOk :=
  request_id ← as_u64 (get 1 l None);
  subject ← as_string (get 2 l None);
  expires_at ← as_u64 (get 3 l None);
  Some (Proto.mk_ConnectOk request_id subject expires_at).

Lemma get_put_subscribe v : wf_subscribe v →
  get_subscribe (put_subscribe (subscribe_into_proto v)) = Some (subscribe_into_proto v).
Proof.
  destruct v; unfold wf_subscribe, get_subscribe, put_subscribe; simpl. intros; destruct_and?. solve_get.
Qed.
Lemma field_ok_put_subscribe m : Forall field_ok (put_subscribe m).
Proof. unfold put_subscribe. auto 10 with wire. Qed.

Lemma get_put_unsubscribe v : wf_unsubscribe v →
  get_unsubscribe (put_unsubscribe (unsubscribe_into_proto v)) = Some (unsubscribe_into_proto v).
Proof.
  destruct v; unfold wf_unsubscribe, get_unsubscribe, put_unsubscribe; simpl. intros; destruct_and?. solve_get.
Qed.
Lemma field_ok_put_unsubscribe m : Forall field_ok (put_unsubscribe m).
Proof. unfold put_unsubscribe. auto 10 with wire. Qed.

Lemma get_put_publish v : wf_publish v →
  get_publish (put_publish (publish_into_proto v)) = Some (publish_into_proto v).
Proof.
  destruct v; unfold wf_publish, get_publish, put_publish; simpl. intros; destruct_and?. solve_get.
Qed.
Lemma field_ok_put_publish m : Forall field_ok (put_publish m).
Proof. unfold put_publish. auto 10 with wire. Qed.

Lemma get_put_connect v : wf_connect v →
  get_connect (put_connect (connect_into_proto v)) = Some (connect_into_proto v).
Proof.
  destruct v; unfold wf_connect, get_connect, put_connect; simpl. intros; destruct_and?. solve_get.
Qed.
Lemma field_ok_put_connect m : Forall field_ok (put_connect m).
Proof. unfold put_connect. auto 10 with wire. Qed.

Lemma get_put_subscribeok v : wf_subscribe_ok v →
  get_subscribeok (put_subscribeok (subscribe_ok_into_proto v)) = Some (subscribe_ok_into_proto v).
Proof.
  destruct v; unfold wf_subscribe_ok, get_subscribeok, put_subscribeok; simpl. intros; destruct_and?. solve_get.
Qed.
Lemma field_ok_put_subscribeok m : Forall field_ok (put_subscribeok m).
Proof. unfold put_subscribeok. auto 10 with wire. Qed.

Lemma get_put_unsubscribeok v : wf_unsubscribe_ok v →
  get_unsubscribeok (put_unsubscribeok (unsubscribe_ok_into_proto v)) = Some (unsubscribe_ok_into_proto v).
Proof.
  destruct v; unfold wf_unsubscribe_ok, get_unsubscribeok, put_unsubscribeok; simpl. intros; destruct_and?. solve_get.
Qed.
Lemma field_ok_put_unsubscribeok m : Forall field_ok (put_unsubscribeok m).
Proof. unfold put_unsubscribeok. auto 10 with wire. Qed.

Lemma get_put_publication v : wf_publication v →
  get_publication (put_publication (publication_into_proto v)) = Some (publication_into_proto v).
Proof.
  destruct v; unfold wf_publication, get_publication, put_publication; simpl. intros; destruct_and?. solve_get.
Qed.
Lemma field_ok_put_publication m : Forall field_ok (put_publication m).
Proof. unfold put_publication. auto 10 with wire. Qed.

Lemma get_put_error v : wf_protocol_error v →
  get_error (put_error (protocol_error_into_proto v)) = Some (protocol_error_into_proto v).
Proof.
  destruct v; unfold wf_protocol_error, get_error, put_error; simpl. intros; destruct_and?. solve_get.
Qed.
Lemma field_ok_put_error m : Forall field_ok (put_error m).
Proof. unfold put_error. auto 10 with wire. Qed.

Lemma get_put_connectok v : wf_connect_ok v →
  get_connectok (put_connectok (connect_ok_into_proto v)) = Some (connect_ok_into_proto v).
Proof.
  destruct v; unfold wf_connect_ok, get_connectok, put_connectok; simpl. intros; destruct_and?. solve_get.
Qed.
Lemma field_ok_put_connectok m : Forall field_ok (put_connectok m).
Proof. unfold put_connectok. auto 10 with wire. Qed.

(** The oneof of [ClientFrame]: the last occurrence of a known field number wins. *)
Definition put_client_kind (k : Proto.client_frame.Kind) : list field :=
  match k with
  | Proto.client_frame.Kind_Subscribe m => [(1%N, WLen (encode_fields (put_subscribe m)))]
  | Proto.client_frame.Kind_Unsubscribe m => [(2%N, WLen (encode_fields (put_unsubscribe m)))]
  | Proto.client_frame.Kind_Publish m => [(3%N, WLen (encode_fields (put_publish m)))]
  | Proto.client_frame.Kind_Connect m => [(4%N, WLen (encode_fields (put_connect m)))]
  end.

Definition get_client_kind (f : field) : option (option Proto.client_frame.Kind) :=
  match f with
  | (1%N, WLen b) => l ← parse b; m ← get_subscribe l; Some (Some (Proto.client_frame.Kind_Subscribe m))
  | (2%N, WLen b) => l ← parse b; m ← get_unsubscribe l; Some (Some (Proto.client_frame.Kind_Unsubscribe m))
  | (3%N, WLen b) => l ← parse b; m ← get_publish l; Some (Some (Proto.client_frame.Kind_Publish m))
  | (4%N, WLen b) => l ← parse b; m ← get_connect l; Some (Some (Proto.client_frame.Kind_Connect m))
  | (tag, _) => if decide ((0 < tag ≤ 4)%N) then None else Some None
  end.

Fixpoint get_client (l : list field) (acc : option Proto.client_frame.Kind) :
    option (option Proto.client_frame.Kind) :=
  match l with
  | [] => Some acc
  | f :: l => k ← get_client_kind f; get_client l (match k with None => acc | _ => k end)
  end.

(** The oneof of [ServerFrame]: the last occurrence of a known field number wins. *)
Definition put_server_kind (k : Proto.server_frame.Kind) : list field :=
  match k with
  | Proto.server_frame.Kind_SubscribeOk m => [(1%N, WLen (encode_fields (put_subscribeok m)))]
  | Proto.server_frame.Kind_UnsubscribeOk m => [(2%N, WLen (encode_fields (put_unsubscribeok m)))]
  | Proto.server_frame.Kind_Publication m => [(3%N, WLen (encode_fields (put_publication m)))]
  | Proto.server_frame.Kind_Error m => [(4%N, WLen (encode_fields (put_error m)))]
  | Proto.server_frame.Kind_ConnectOk m => [(5%N, WLen (encode_fields (put_connectok m)))]
  end.

Definition get_server_kind (f : field) : option (option Proto.server_frame.Kind) :=
  match f with
  | (1%N, WLen b) => l ← parse b; m ← get_subscribeok l; Some (Some (Proto.server_frame.Kind_SubscribeOk m))
  | (2%N, WLen b) => l ← parse b; m ← get_unsubscribeok l; Some (Some (Proto.server_frame.Kind_UnsubscribeOk m))
  | (3%N, WLen b) => l ← parse b; m ← get_publication l; Some (Some (Proto.server_frame.Kind_Publication m))
  | (4%N, WLen b) => l ← parse b; m ← get_error l; Some (Some (Proto.server_frame.Kind_Error m))
  | (5%N, WLen b) => l ← parse b; m ← get_connectok l; Some (Some (Proto.server_frame.Kind_ConnectOk m))
  | (tag, _) => if decide ((0 < tag ≤ 5)%N) then None else Some None
  end.

Fixpoint get_server (l : list field) (acc : option Proto.server_frame.Kind) :
    option (option Proto.server_frame.Kind) :=
  match l with
  | [] => Some acc
  | f :: l => k ← get_server_kind f; get_server l (match k with None => acc | _ => k end)
  end.

(** ** The codec *)

Inductive wire_error : Type := malformed.

Definition wire_encode_client (f : Proto.ClientFrame) : Bytes :=
  encode_fields (match f.(Proto.client_kind) with Some k => put_client_kind k | None => [] end).
Definition wire_encode_server (f : Proto.ServerFrame) : Bytes :=
  encode_fields (match f.(Proto.server_kind) with Some k => put_server_kind k | None => [] end).
Definition wire_encode_publication (p : Proto.Publication) : Bytes :=
  encode_fields (put_publication p).

Definition wire_decode_client (bs : Bytes) : result wire_error Proto.ClientFrame :=
  ok_or (l ← parse bs; k ← get_client l None; Some (Proto.mk_ClientFrame k)) malformed.
Definition wire_decode_server (bs : Bytes) : result wire_error Proto.ServerFrame :=
  ok_or (l ← parse bs; k ← get_server l None; Some (Proto.mk_ServerFrame k)) malformed.
Definition wire_decode_publication (bs : Bytes) : result wire_error Proto.Publication :=
  ok_or (l ← parse bs; get_publication l) malformed.

#[export] Instance wire_codec : ProstCodec := {
  prost_error := wire_error;
  encode_proto_client := wire_encode_client;
  decode_proto_client := wire_decode_client;
  encode_proto_server := wire_encode_server;
  decode_proto_server := wire_decode_server;
  encode_proto_publication := wire_encode_publication;
  decode_proto_publication := wire_decode_publication;
}.

Lemma field_ok_len tag b : tag ≠ 0%N → Forall field_ok [(tag, WLen b)].
Proof. intros. by repeat constructor. Qed.

#[export] Hint Resolve field_ok_put_subscribe field_ok_put_unsubscribe field_ok_put_publish
  field_ok_put_connect field_ok_put_subscribeok field_ok_put_unsubscribeok
  field_ok_put_publication field_ok_put_error field_ok_put_connectok field_ok_len : wire.

#[export] Hint Rewrite get_put_subscribe get_put_unsubscribe get_put_publish get_put_connect
  get_put_subscribeok get_put_unsubscribeok get_put_publication get_put_error
  get_put_connectok using done : wire_rw.

Lemma wire_client_round_trip f : wf_client f →
  wire_decode_client (wire_encode_client (client_into_proto f)) = Ok (client_into_proto f).
Proof.
  destruct f as [v|v|v|v]; intros Hwf; unfold wire_decode_client, wire_encode_client; simpl;
    rewrite parse_encode by auto with wire; simpl;
    rewrite parse_encode by auto with wire; simpl;
    autorewrite with wire_rw; done.
Qed.

Lemma wire_server_round_trip f : wf_server f →
  wire_decode_server (wire_encode_server (server_into_proto f)) = Ok (server_into_proto f).
Proof.
  destruct f as [v|v|v|v|v]; intros Hwf; unfold wire_decode_server, wire_encode_server; simpl;
    rewrite parse_encode by auto with wire; simpl;
    rewrite parse_encode by auto with wire; simpl;
    autorewrite with wire_rw; done.
Qed.

Lemma wire_publication_round_trip p : wf_publication p →
  wire_decode_publication (wire_encode_publication (publication_into_proto p))
  = Ok (publication_into_proto p).
Proof.
  intros Hwf. unfold wire_decode_publication, wire_encode_publication.
  rewrite parse_encode by auto with wire. simpl. autorewrite with wire_rw; done.
Qed.

#[export] Instance wire_codec_laws : ProstCodecLaws wire_codec.
Proof.
  split; [exact wire_client_round_trip | exact wire_server_round_trip
         | exact wire_publication_round_trip | done | done].
Qed.

(** Bytes given as numbers. *)
Definition bytes_of_nats (l : list N) : Bytes := map byte_of l.

(** ** Properties *)

Section properties.
Context {C : ProstCodec} {L : ProstCodecLaws C}.

(** C16: every client frame, server frame and bare publication whose fields are
    within their Rust types decodes back to itself, with any codec that keeps
    protobuf's promises; an encoded client frame is never an empty buffer. *)
Theorem frame_round_trip (f : ClientFrame) (g : ServerFrame) (p : Publication)
    (Hf : wf_client f) (Hg : wf_server g) (Hp : wf_publication p) :
  decode_client (encode_client f) = Ok f ∧ decode_server (encode_server g) = Ok g ∧
  decode_publication (encode_publication p) = Ok p ∧ encode_client f ≠ [].
Proof.
  split; [by apply decode_encode_client|]. split; [by apply decode_encode_server|].
  split; [by apply decode_encode_publication|]. intros He.
  pose proof (decode_encode_client f Hf) as Hd. rewrite He in Hd.
  unfold decode_client in Hd. rewrite proto_client_empty in Hd. done.
Qed.

(** A buffer decodes to a frame exactly when it parses as a message with its
    [kind] set, and then to that frame; a message without [kind] (the empty
    buffer is one) gives the error of its direction, not a frame. *)
Theorem missing_kind_rejected (bs : Bytes) :
  (∀ f, decode_client bs = Ok f ↔ ∃ k, decode_proto_client bs = Ok (Proto.mk_ClientFrame (Some k)) ∧
     client_into_proto f = Proto.mk_ClientFrame (Some k)) ∧
  (decode_client bs = Err MissingClientKind ↔ decode_proto_client bs = Ok (Proto.mk_ClientFrame None)) ∧
  (decode_server bs = Err MissingServerKind ↔ decode_proto_server bs = Ok (Proto.mk_ServerFrame None)) ∧
  decode_client [] = Err MissingClientKind ∧ decode_server [] = Err MissingServerKind.
Proof.
  unfold decode_client, decode_server. rewrite proto_client_empty, proto_server_empty.
  split; [|split; [|split; [|done]]].
  - intros f. destruct (decode_proto_client bs) as [[[k|]]|e]; simpl; [|naive_solver..].
    assert (Hinv : ∀ f', client_into_proto f' = Proto.mk_ClientFrame (Some k) →
              client_of_proto (P:=prost_error) (Proto.mk_ClientFrame (Some k)) = Ok f')
      by (intros f' <-; apply client_of_into_proto).
    split.
    + intros Hf. exists k. split; [done|].
      destruct k as [[]|[]|[]|[]]; unfold client_of_proto in Hf; simpl in Hf;
        injection Hf as <-; done.
    + intros (k' & [= <-] & Hf). by apply Hinv.
  - destruct (decode_proto_client bs) as [[[k|]]|e]; simpl; naive_solver.
  - destruct (decode_proto_server bs) as [[[k|]]|e]; simpl; naive_solver.
Qed.
End properties.

Lemma frame_round_trip_witness :
  decode_client (encode_client (CF_Subscribe (mk_Subscribe 7 "rooms.lobby" 3)))
  = Ok (CF_Subscribe (mk_Subscribe 7 "rooms.lobby" 3)) ∧
  decode_publication (encode_publication (mk_Publication "a" 1 [x00]))
  = Ok (mk_Publication "a" 1 [x00]).
Proof.
  destruct (frame_round_trip (CF_Subscribe (mk_Subscribe 7 "rooms.lobby" 3))
    (SF_Publication (mk_Publication "a" 1 [x00])) (mk_Publication "a" 1 [x00])) as (H1 & _ & H2 & _).
  - vm_compute. repeat split.
  - vm_compute. repeat split.
  - vm_compute. repeat split.
  - split; [exact H1|exact H2].
Defined.

Lemma missing_kind_rejected_witness :
  decode_client [] = Err MissingClientKind ∧ decode_server [] = Err MissingServerKind.
Proof. exact (proj2 (proj2 (proj2 (missing_kind_rejected [])))). Defined.
