(* ===== verification/Traits.v ===== *)
(** * The extension traits of the core and their error types

    crates/cherenkov-core/src: channel.rs, broker.rs, schema.rs, auth.rs, acl.rs
    and error.rs.

    A trait object [Arc<dyn Trait>] is a record of its methods.  The methods take
    [&self] and keep their state behind interior mutability, so each is a
    computation over the shared memory [W]: two [Arc]s to the same object are the
    same record and act on the same part of [W], and objects of different types
    live side by side.  A boxed stream returned by [Broker::subscribe] is a handle
    of type [Str]; polling and dropping it are methods of the broker record. *)
From S2P Require Import Prelude Protocol.

(** ** Channel kinds (channel.rs) *)

Record ChannelCursor : Type := mk_ChannelCursor { epoch : N; offset : N }.

#[export] Instance ChannelCursor_eq_dec : EqDecision ChannelCursor.
Proof. solve_decision. Defined.

Definition ChannelCursor_default : ChannelCursor := mk_ChannelCursor 0 0.

Inductive ChannelError : Type :=
| InvalidChannel (channel : string)
| RejectedPublication (reason : string)
| ChannelOther (msg : string).

#[export] Instance ChannelError_eq_dec : EqDecision ChannelError.
Proof. solve_decision. Defined.

Definition show_channel_error (e : ChannelError) : string :=
  match e with
  | InvalidChannel channel => "invalid channel name: " +:+ channel
  | RejectedPublication reason => "publication rejected by channel kind: " +:+ reason
  | ChannelOther msg => "channel kind error: " +:+ msg
  end.

Record ChannelKind (W : Type) : Type := mk_ChannelKind {
  kind_name : string;
  on_subscribe : string → io W ChannelError ChannelCursor;
  on_unsubscribe : string → io W ChannelError unit;
  on_publish : string → Bytes → io W ChannelError Publication;
  replay_since : string → N → io W ChannelError (list Publication);
}.
Arguments mk_ChannelKind {W}.
Arguments kind_name {W} _.
Arguments on_subscribe {W} _ _ _.
Arguments on_unsubscribe {W} _ _ _.
Arguments on_publish {W} _ _ _ _.
Arguments replay_since {W} _ _ _ _.

(** The provided method of the trait. *)
Definition default_replay_since {W} (_channel : string) (_since_offset : N) :
    io W ChannelError (list Publication) :=
  io_ret [].

(** What the hub relies on from every kind: the publication it returns carries the
    channel and the payload it was given, replayed publications belong to the
    channel and are newer than the cursor, and the empty name is refused. *)
Class ChannelKindLaws {W} (k : ChannelKind W) : Prop := {
  on_publish_echo channel data w p w' :
    on_publish k channel data w = (Ok p, w') →
    p.(publ_channel) = channel ∧ p.(publ_data) = data;
  replay_since_newer channel since w ps w' :
    replay_since k channel since w = (Ok ps, w') →
    Forall (λ p, p.(publ_channel) = channel ∧ (since < p.(publ_offset))%N) ps;
  on_subscribe_empty w : on_subscribe k "" w = (Err (InvalidChannel ""), w);
  on_publish_empty data w : on_publish k "" data w = (Err (InvalidChannel ""), w);
}.

(** ** Brokers (broker.rs) *)

Inductive BrokerError : Type :=
| PublishRejected (topic reason : string)
| Unavailable (msg : string)
| BrokerOther (msg : string).

#[export] Instance BrokerError_eq_dec : EqDecision BrokerError.
Proof. solve_decision. Defined.

Definition show_broker_error (e : BrokerError) : string :=
  match e with
  | PublishRejected topic reason =>
      "broker rejected publish on `" +:+ topic +:+ "`: " +:+ reason
  | Unavailable msg => "broker backend unavailable: " +:+ msg
  | BrokerOther msg => "broker error: " +:+ msg
  end.

(** [Stream::poll_next]. *)
Inductive Poll (A : Type) : Type := Pending | Ready (a : A).
Arguments Pending {A}.
Arguments Ready {A} a.

Record Broker (W Str : Type) : Type := mk_Broker {
  broker_name : string;
  broker_subscribe : string → io W BrokerError Str;
  broker_publish : string → Publication → io W BrokerError unit;
  stream_next : Str → W → Poll (option Publication) * W;
  stream_drop : Str → W → W;
}.
Arguments mk_Broker {W Str}.
Arguments broker_name {W Str} _.
Arguments broker_subscribe {W Str} _ _ _.
Arguments broker_publish {W Str} _ _ _ _.
Arguments stream_next {W Str} _ _ _.
Arguments stream_drop {W Str} _ _ _.

(** ** Schema validators (schema.rs) *)

Inductive SchemaError : Type :=
| PayloadRejected (channel reason : string)
| SchemaOther (msg : string).

#[export] Instance SchemaError_eq_dec : EqDecision SchemaError.
Proof. solve_decision. Defined.

Definition show_schema_error (e : SchemaError) : string :=
  match e with
  | PayloadRejected channel reason =>
      "payload rejected by schema for `" +:+ channel +:+ "`: " +:+ reason
  | SchemaOther msg => "schema validator error: " +:+ msg
  end.

Record SchemaValidator (W : Type) : Type := mk_SchemaValidator {
  validator_name : string;
  validate : string → Bytes → io W SchemaError unit;
}.
Arguments mk_SchemaValidator {W}.
Arguments validator_name {W} _.
Arguments validate {W} _ _ _ _.

Definition AllowAllValidator {W} : SchemaValidator W := {|
  validator_name := "allow-all";
  validate _channel _data := io_ret ();
|}.

(** ** Authenticators (auth.rs) *)

Record SessionClaims : Type := mk_SessionClaims {
  subject : string;
  permissions : list string;
  expires_at : N;
}.

#[export] Instance SessionClaims_eq_dec : EqDecision SessionClaims.
Proof. solve_decision. Defined.

Definition anonymous : SessionClaims := {|
  subject := "anonymous"; permissions := []; expires_at := 0
|}.

Inductive AuthError : Type :=
| InvalidToken (reason : string)
| AuthOther (msg : string).

#[export] Instance AuthError_eq_dec : EqDecision AuthError.
Proof. solve_decision. Defined.

Definition show_auth_error (e : AuthError) : string :=
  match e with
  | InvalidToken reason => "invalid token: " +:+ reason
  | AuthOther msg => "authenticator error: " +:+ msg
  end.

Record Authenticator (W : Type) : Type := mk_Authenticator {
  auth_name : string;
  allow_anonymous : bool;
  authenticate : string → io W AuthError SessionClaims;
}.
Arguments mk_Authenticator {W}.
Arguments auth_name {W} _.
Arguments allow_anonymous {W} _.
Arguments authenticate {W} _ _ _.

Definition AllowAllAuthenticator {W} : Authenticator W := {|
  auth_name := "allow-all";
  allow_anonymous := true;
  authenticate _token := io_ret anonymous;
|}.

(** ** ACL checkers (acl.rs) *)

Inductive AclAction : Type := ActSubscribe | ActPublish.

#[export] Instance AclAction_eq_dec : EqDecision AclAction.
Proof. solve_decision. Defined.

Definition acl_action_as_str (a : AclAction) : string :=
  match a with ActSubscribe => "subscribe" | ActPublish => "publish" end.

Inductive AclDecision : Type := Allow | Deny.

#[export] Instance AclDecision_eq_dec : EqDecision AclDecision.
Proof. solve_decision. Defined.

Inductive AclError : Type :=
| Denied (subject action channel reason : string)
| AclOther (msg : string).

#[export] Instance AclError_eq_dec : EqDecision AclError.
Proof. solve_decision. Defined.

Definition show_acl_error (e : AclError) : string :=
  match e with
  | Denied subject action channel reason =>
      "session `" +:+ subject +:+ "` denied " +:+ action +:+ " on `" +:+ channel
      +:+ "`: " +:+ reason
  | AclOther msg => "acl checker error: " +:+ msg
  end.

Record AclChecker (W : Type) : Type := mk_AclChecker {
  acl_name : string;
  check : SessionClaims → AclAction → string → io W AclError AclDecision;
}.
Arguments mk_AclChecker {W}.
Arguments acl_name {W} _.
Arguments check {W} _ _ _ _ _.

Definition AllowAllAcl {W} : AclChecker W := {|
  acl_name := "allow-all";
  check _claims _action _channel := io_ret Allow;
|}.

(** ** [HubError] (error.rs) *)

Inductive HubError : Type :=
| SessionGone (session_id : N)
| UnknownChannel (channel : string)
| AlreadySubscribed (session_id : N) (channel : string)
| NotSubscribed (session_id : N) (channel : string)
| EChannel (e : ChannelError)
| EBroker (e : BrokerError)
| ESchema (e : SchemaError)
| EAuth (e : AuthError)
| EAcl (e : AclError)
| NotConnected (session_id : N)
| AlreadyConnected (session_id : N).

#[export] Instance HubError_eq_dec : EqDecision HubError.
Proof. solve_decision. Defined.

Definition show_hub_error (e : HubError) : string :=
  match e with
  | SessionGone session_id =>
      "session " +:+ show_u64 session_id +:+ " is not registered or has been closed"
  | UnknownChannel channel => "no channel kind registered for `" +:+ channel +:+ "`"
  | AlreadySubscribed session_id channel =>
      "session " +:+ show_u64 session_id +:+ " is already subscribed to `" +:+ channel +:+ "`"
  | NotSubscribed session_id channel =>
      "session " +:+ show_u64 session_id +:+ " is not subscribed to `" +:+ channel +:+ "`"
  | EChannel e => "channel kind error: " +:+ show_channel_error e
  | EBroker e => "broker error: " +:+ show_broker_error e
  | ESchema e => "schema validation failed: " +:+ show_schema_error e
  | EAuth e => "authentication failed: " +:+ show_auth_error e
  | EAcl e => "acl check failed: " +:+ show_acl_error e
  | NotConnected session_id => "session " +:+ show_u64 session_id +:+ " has not connected"
  | AlreadyConnected session_id =>
      "session " +:+ show_u64 session_id +:+ " is already connected"
  end.

(** ** Transports (transport.rs): the error type of [serve] *)

Inductive TransportError : Type :=
| Bind (msg : string)
| TransportOther (msg : string).

Definition show_transport_error (e : TransportError) : string :=
  match e with
  | Bind msg => "transport failed to bind: " +:+ msg
  | TransportOther msg => "transport error: " +:+ msg
  end.
