(* ===== verification/PubSub.v ===== *)
(** * The pub/sub channel kind (crates/cherenkov-channel-pubsub/src/lib.rs)

    [PubSubChannel] keeps a ring buffer per channel and evicts by age and by
    count.  Its operations are computations over the object's own state; the
    instant read by [Instant::now] is an argument.  [Instant] and [Duration] are
    counts of nanoseconds. *)
From stdpp Require Import sorting.
From S2P Require Import Prelude Protocol Traits.

Definition DEFAULT_HISTORY_SIZE : N := 256.
Definition DEFAULT_HISTORY_TTL : N := (300 * 1000000000)%N.

Record HistoryEntry : Type := mk_HistoryEntry {
  inserted_at : N;
  entry_offset : N;
  entry_data : Bytes;
}.

#[export] Instance HistoryEntry_eq_dec : EqDecision HistoryEntry.
Proof. solve_decision. Defined.

Record ChannelState : Type := mk_ChannelState {
  next_offset : N;
  entries : list HistoryEntry;
}.

Record PubSubChannel : Type := mk_PubSubChannel {
  ps_epoch : N;
  history_size : N;
  history_ttl : N;
  ps_state : gmap string ChannelState;
}.

Definition with_bounds (history_size history_ttl : N) : PubSubChannel := {|
  ps_epoch := 1;
  history_size := N.max history_size 1;
  history_ttl := history_ttl;
  ps_state := ∅;
|}.

Definition new : PubSubChannel := with_bounds DEFAULT_HISTORY_SIZE DEFAULT_HISTORY_TTL.

Definition set_ps_state (self : PubSubChannel) (m : gmap string ChannelState) : PubSubChannel :=
  mk_PubSubChannel self.(ps_epoch) self.(history_size) self.(history_ttl) m.

(** [Instant::saturating_duration_since]. *)
Definition saturating_duration_since (now earlier : N) : N := (now - earlier)%N.

(** The loop of [evict_expired]: pop from the front while the front is too old. *)
Fixpoint evict_expired (ttl now : N) (l : list HistoryEntry) : list HistoryEntry :=
  match l with
  | [] => []
  | front :: rest =>
      if decide (ttl < saturating_duration_since now front.(inserted_at))%N
      then evict_expired ttl now rest
      else l
  end.

(** [while state.entries.len() > self.history_size { pop_front }]. *)
Fixpoint trim (size : N) (l : list HistoryEntry) : list HistoryEntry :=
  match l with
  | [] => []
  | _ :: rest => if decide (size < N.of_nat (length l))%N then trim size rest else l
  end.

Definition cursor_locked (self : PubSubChannel) (st : ChannelState) : ChannelCursor :=
  mk_ChannelCursor self.(ps_epoch) (u64_saturating_sub st.(next_offset) 1).

Definition cursor (self : PubSubChannel) (channel : string) : ChannelCursor :=
  match self.(ps_state) !! channel with
  | Some entry => cursor_locked self entry
  | None => mk_ChannelCursor self.(ps_epoch) 0
  end.

Definition history_len (self : PubSubChannel) (channel : string) : nat :=
  match self.(ps_state) !! channel with
  | Some e => length e.(entries)
  | None => 0
  end.

Definition ps_on_subscribe (channel : string) : io PubSubChannel ChannelError ChannelCursor :=
  if decide (channel = "") then io_fail (InvalidChannel channel)
  else io_gets (λ self, cursor self channel).

Definition ps_on_unsubscribe (_channel : string) : io PubSubChannel ChannelError unit :=
  io_ret ().

Definition ps_on_publish (now : N) (channel : string) (data : Bytes) :
    io PubSubChannel ChannelError Publication := λ self,
  if decide (channel = "") then (Err (InvalidChannel channel), self) else
  let st := default (mk_ChannelState 0 []) (self.(ps_state) !! channel) in
  let kept := evict_expired self.(history_ttl) now st.(entries) in
  let offset := st.(next_offset) in
  let st' := {|
    next_offset := u64_saturating_add st.(next_offset) 1;
    entries := trim self.(history_size) (kept ++ [mk_HistoryEntry now offset data]);
  |} in
  (Ok (mk_Publication channel offset data),
   set_ps_state self (<[channel := st']> self.(ps_state))).

Definition entry_publication (channel : string) (e : HistoryEntry) : Publication :=
  mk_Publication channel e.(entry_offset) e.(entry_data).

Definition ps_replay_since (now : N) (channel : string) (since_offset : N) :
    io PubSubChannel ChannelError (list Publication) := λ self,
  match self.(ps_state) !! channel with
  | None => (Ok [], self)
  | Some st =>
      let kept := evict_expired self.(history_ttl) now st.(entries) in
      let out := entry_publication channel
                 <$> filter (λ e, since_offset < e.(entry_offset))%N kept in
      (Ok out, set_ps_state self
                 (<[channel := mk_ChannelState st.(next_offset) kept]> self.(ps_state)))
  end.

(** The trait object: the state is the part [l] of the memory, [clock] is what
    [Instant::now] reads. *)
Definition pubsub_kind {W} (l : lens W PubSubChannel) (clock : W → N) : ChannelKind W := {|
  kind_name := "pubsub";
  on_subscribe channel := io_zoom l (ps_on_subscribe channel);
  on_unsubscribe channel := io_zoom l (ps_on_unsubscribe channel);
  on_publish channel data w := io_zoom l (ps_on_publish (clock w) channel data) w;
  replay_since channel since w := io_zoom l (ps_replay_since (clock w) channel since) w;
|}.

(** ** Evictions as list functions *)

Definition lastn {A} (n : nat) (l : list A) : list A := drop (length l - n) l.

Lemma trim_lastn size l : trim size l = lastn (N.to_nat size) l.
Proof.
  unfold lastn. induction l as [|e l IH]; [done|].
  cbn [trim]. case_decide as Hs; cbn [length] in *.
  - rewrite IH. replace (S (length l) - N.to_nat size) with (S (length l - N.to_nat size)) by lia.
    done.
  - by replace (S (length l) - N.to_nat size) with 0 by lia.
Qed.

(** An entry is fresh at [now] when the eviction keeps it. *)
Definition fresh (ttl now : N) (e : HistoryEntry) : Prop :=
  (saturating_duration_since now e.(inserted_at) ≤ ttl)%N.

#[export] Instance fresh_dec ttl now e : Decision (fresh ttl now e).
Proof. unfold fresh. apply _. Defined.

(** Entries are inserted in the order of the clock. *)
Definition not_later (a b : HistoryEntry) : Prop := (a.(inserted_at) ≤ b.(inserted_at))%N.

Definition by_time : list HistoryEntry → Prop := StronglySorted not_later.

Lemma fresh_earlier ttl t now e : (t ≤ now)%N → fresh ttl now e → fresh ttl t e.
Proof. unfold fresh, saturating_duration_since. lia. Qed.

Lemma fresh_not_later ttl now a b : not_later a b → fresh ttl now a → fresh ttl now b.
Proof. unfold fresh, not_later, saturating_duration_since. lia. Qed.

Lemma filter_all {A} (P : A → Prop) `{∀ x, Decision (P x)} (l : list A) :
  Forall P l → filter P l = l.
Proof. induction 1; [done|]. rewrite filter_cons_True by done. by f_equal. Qed.

Lemma by_time_all_fresh ttl now a l :
  by_time (a :: l) → fresh ttl now a → Forall (fresh ttl now) (a :: l).
Proof.
  intros Hs Ha. apply StronglySorted_inv in Hs as [_ Hl]. constructor; [done|].
  eapply Forall_impl; [exact Hl|]. intros b Hb. by eapply fresh_not_later.
Qed.

Lemma evict_expired_filter ttl now l :
  by_time l → evict_expired ttl now l = filter (fresh ttl now) l.
Proof.
  induction l as [|e l IH]; intros Hs; [done|]. cbn [evict_expired]. case_decide as Hx.
  - rewrite filter_cons_False by (unfold fresh; lia). apply IH.
    by apply StronglySorted_inv in Hs as [].
  - symmetry. apply filter_all, by_time_all_fresh; [done|]. unfold fresh. lia.
Qed.

Lemma by_time_sublist l k : sublist l k → by_time k → by_time l.
Proof.
  unfold by_time. induction 1 as [|a l k Hlk IH|a l k Hlk IH]; intros Hs; [constructor| |].
  - apply StronglySorted_inv in Hs as [Hk Ha]. constructor; [by apply IH|].
    rewrite Forall_forall in *. intros x Hx. apply Ha. by eapply elem_of_sublist.
  - apply StronglySorted_inv in Hs as [Hk _]. by apply IH.
Qed.

Lemma by_time_snoc l e :
  by_time l → Forall (λ a, not_later a e) l → by_time (l ++ [e]).
Proof.
  unfold by_time. induction l as [|a l IH]; intros Hs He; simpl.
  { by repeat constructor. }
  apply StronglySorted_inv in Hs as [Hl Ha]. apply Forall_cons in He as [Hae He].
  constructor; [by apply IH|]. apply Forall_app. auto.
Qed.

(** ** The specification: a channel is the log of everything published to it

    What a channel retains is the part of the last [size] publications whose age
    does not exceed the TTL. *)

Definition retained (size ttl now : N) (log : list HistoryEntry) : list HistoryEntry :=
  filter (fresh ttl now) (lastn (N.to_nat size) log).

Lemma sublist_lastn {A} n (l : list A) : sublist (lastn n l) l.
Proof. apply sublist_drop. Qed.

Lemma retained_sublist size ttl now log : sublist (retained size ttl now log) log.
Proof. unfold retained. etrans; [apply sublist_filter | apply sublist_lastn]. Qed.

Lemma length_retained size ttl now log : length (retained size ttl now log) ≤ N.to_nat size.
Proof.
  unfold retained. etrans; [apply length_filter|]. unfold lastn. rewrite length_drop. lia.
Qed.

Lemma evict_retained size ttl t now log :
  by_time log → (t ≤ now)%N →
  evict_expired ttl now (retained size ttl t log) = retained size ttl now log.
Proof.
  intros Hs Ht. rewrite evict_expired_filter.
  - unfold retained. apply list_filter_filter_l. intros e He. by eapply fresh_earlier.
  - eapply by_time_sublist; [apply retained_sublist | done].
Qed.

Lemma lastn_snoc {A} n (l : list A) x :
  1 ≤ n → n ≤ length l → lastn n (l ++ [x]) = drop 1 (lastn n l) ++ [x].
Proof.
  intros Hn Hl. unfold lastn. rewrite length_app. simpl.
  replace (length l + 1 - n) with (S (length l - n)) by lia.
  rewrite drop_app_le by lia. by rewrite drop_drop, Nat.add_1_r.
Qed.

Lemma lastn_all {A} n (l : list A) : length l ≤ n → lastn n l = l.
Proof. intros. unfold lastn. by replace (length l - n) with 0 by lia. Qed.

Lemma trim_retained size ttl now log e :
  (1 ≤ size)%N → by_time log → e.(inserted_at) = now →
  trim size (retained size ttl now log ++ [e]) = retained size ttl now (log ++ [e]).
Proof.
  intros Hsize Hs He. rewrite trim_lastn.
  assert (Hfe : fresh ttl now e) by (unfold fresh, saturating_duration_since; lia).
  destruct (decide (length log < N.to_nat size)) as [Hlt|Hge].
  - unfold retained. rewrite !(lastn_all (N.to_nat size) log) by lia.
    rewrite (lastn_all _ (log ++ [e])) by (rewrite length_app; simpl; lia).
    rewrite filter_app, (filter_cons_True _ e) by done.
    apply lastn_all. rewrite length_app; simpl. pose proof (length_filter (fresh ttl now) log). lia.
  - unfold retained. rewrite (lastn_snoc _ log) by lia.
    assert (HL : by_time (lastn (N.to_nat size) log))
      by (eapply by_time_sublist; [apply sublist_lastn | done]).
    assert (Hlen : length (lastn (N.to_nat size) log) = N.to_nat size)
      by (unfold lastn; rewrite length_drop; lia).
    destruct (lastn (N.to_nat size) log) as [|a L]; simpl in Hlen; [lia|].
    cbn [drop]. rewrite drop_0, filter_app, (filter_cons_True _ e) by done.
    destruct (decide (fresh ttl now a)) as [Ha|Ha].
    + pose proof (by_time_all_fresh _ _ _ _ HL Ha) as HF.
      rewrite filter_all by done. apply Forall_cons in HF as [_ HF].
      rewrite filter_all by done. rewrite lastn_snoc by (simpl; lia).
      by rewrite (lastn_all _ (a :: L)) by (simpl; lia).
    + rewrite (filter_cons_False _ a) by done. apply lastn_all.
      rewrite length_app; simpl. pose proof (length_filter (fresh ttl now) L). lia.
Qed.

(** ** The object against the log of each channel

    A [log] entry carries the offset it must have been given: its position. *)

Definition log_ok (log : list HistoryEntry) : Prop :=
  entry_offset <$> log = seqN_from 0 (length log).

(** One channel: [t] is the instant of the last eviction. *)
Record channel_rel (size ttl t : N) (log : list HistoryEntry) (st : ChannelState) : Prop := {
  rel_next : st.(next_offset) = N.of_nat (length log);
  rel_entries : st.(entries) = retained size ttl t log;
  rel_log : log_ok log;
  rel_time : by_time log;
  rel_past : Forall (λ e, (e.(inserted_at) ≤ t)%N) log;
}.

(** The whole object at instant [t], against the logs of all channels. *)
Record pubsub_rel (t : N) (logs : string → list HistoryEntry) (self : PubSubChannel) : Prop := {
  rel_size : (1 ≤ self.(history_size))%N;
  rel_absent ch : self.(ps_state) !! ch = None → logs ch = [];
  rel_present ch st : self.(ps_state) !! ch = Some st →
    ∃ t', (t' ≤ t)%N ∧ channel_rel self.(history_size) self.(history_ttl) t' (logs ch) st;
}.

(** The entry a publication at instant [now] adds to a log. *)
Definition log_entry (now : N) (log : list HistoryEntry) (data : Bytes) : HistoryEntry :=
  mk_HistoryEntry now (N.of_nat (length log)) data.

Lemma log_ok_snoc now log data : log_ok log → log_ok (log ++ [log_entry now log data]).
Proof.
  unfold log_ok. intros H. rewrite fmap_app, length_app, seqN_from_app, H. done.
Qed.

Lemma channel_rel_init size ttl t : channel_rel size ttl t [] (mk_ChannelState 0 []).
Proof. split; simpl; [done| |done|constructor|constructor]. by unfold retained, lastn. Qed.

Lemma channel_rel_publish size ttl t now log st data :
  (1 ≤ size)%N → (t ≤ now)%N → (N.of_nat (length log) < u64_max)%N →
  channel_rel size ttl t log st →
  channel_rel size ttl now (log ++ [log_entry now log data])
    {| next_offset := u64_saturating_add st.(next_offset) 1;
       entries := trim size (evict_expired ttl now st.(entries)
                             ++ [mk_HistoryEntry now st.(next_offset) data]) |}.
Proof.
  intros Hsize Ht Hmax [Hn He Hl Hs Hp]. unfold u64_max in Hmax. split; simpl.
  - rewrite Hn, length_app, u64_saturating_add_small by lia. simpl. lia.
  - rewrite He, evict_retained by done. rewrite Hn.
    by apply (trim_retained size ttl now log (log_entry now log data)).
  - by apply log_ok_snoc.
  - apply by_time_snoc; [done|]. eapply Forall_impl; [exact Hp|].
    intros e He'. unfold not_later. simpl in *. lia.
  - apply Forall_app. split; [|by repeat constructor].
    eapply Forall_impl; [exact Hp|]. simpl. lia.
Qed.

Lemma channel_rel_evict size ttl t now log st :
  (t ≤ now)%N → channel_rel size ttl t log st →
  channel_rel size ttl now log
    (mk_ChannelState st.(next_offset) (evict_expired ttl now st.(entries))).
Proof.
  intros Ht [Hn He Hl Hs Hp]. split; simpl; try done.
  - by rewrite He, evict_retained.
  - eapply Forall_impl; [exact Hp|]. simpl. lia.
Qed.

Lemma pubsub_rel_new size ttl t : pubsub_rel t (λ _, []) (with_bounds size ttl).
Proof.
  split; simpl; [lia|done|]. intros ch st. by rewrite lookup_empty.
Qed.

Definition log_insert (ch : string) (log : list HistoryEntry)
    (logs : string → list HistoryEntry) : string → list HistoryEntry :=
  λ c, if decide (c = ch) then log else logs c.

(** The specification of the three operations. *)
Definition spec_publication (logs : string → list HistoryEntry) (ch : string) (data : Bytes) :
    Publication :=
  mk_Publication ch (N.of_nat (length (logs ch))) data.

Definition spec_replay (size ttl now since : N) (logs : string → list HistoryEntry)
    (ch : string) : list Publication :=
  entry_publication ch
  <$> filter (λ e, since < e.(entry_offset))%N (retained size ttl now (logs ch)).

Definition spec_cursor (epoch : N) (logs : string → list HistoryEntry) (ch : string) :
    ChannelCursor :=
  mk_ChannelCursor epoch (N.of_nat (length (logs ch)) - 1).

Lemma pubsub_rel_later t now logs self :
  (t ≤ now)%N → pubsub_rel t logs self → pubsub_rel now logs self.
Proof.
  intros Ht [Hs Ha Hp]. split; try done. intros ch st Hst.
  destruct (Hp ch st Hst) as (t' & ? & ?). exists t'. split; [lia|done].
Qed.

Lemma pubsub_rel_insert t logs self ch log st :
  (1 ≤ self.(history_size))%N →
  pubsub_rel t logs self →
  channel_rel self.(history_size) self.(history_ttl) t log st →
  pubsub_rel t (log_insert ch log logs) (set_ps_state self (<[ch:=st]> self.(ps_state))).
Proof.
  intros Hsize [_ Ha Hp] Hrel. split; simpl; [done| |]; intros c.
  - intros [Hc Hne]%lookup_insert_None. unfold log_insert.
    rewrite decide_False by done. by apply Ha.
  - intros st' Hst'. unfold log_insert. case_decide as Hc.
    + subst c. rewrite lookup_insert_eq in Hst'. simplify_eq. eauto.
    + rewrite lookup_insert_ne in Hst' by done. by apply Hp.
Qed.

Lemma pubsub_rel_lookup t logs self ch :
  pubsub_rel t logs self →
  ∃ t', (t' ≤ t)%N ∧ channel_rel self.(history_size) self.(history_ttl) t' (logs ch)
                       (default (mk_ChannelState 0 []) (self.(ps_state) !! ch)).
Proof.
  intros [_ Ha Hp]. destruct (self.(ps_state) !! ch) as [st|] eqn:Hst; simpl.
  - by apply Hp.
  - rewrite (Ha ch Hst). exists t. split; [lia|apply channel_rel_init].
Qed.

(** The bounds of the object never change. *)
Lemma set_ps_state_bounds self m :
  history_size (set_ps_state self m) = history_size self ∧
  history_ttl (set_ps_state self m) = history_ttl self ∧
  ps_epoch (set_ps_state self m) = ps_epoch self.
Proof. done. Qed.

Lemma refine_publish t now logs self ch data :
  ch ≠ "" → (t ≤ now)%N → (N.of_nat (length (logs ch)) < u64_max)%N →
  pubsub_rel t logs self →
  ∃ self', ps_on_publish now ch data self = (Ok (spec_publication logs ch data), self') ∧
    pubsub_rel now (log_insert ch (logs ch ++ [log_entry now (logs ch) data]) logs) self'.
Proof.
  intros Hch Ht Hmax Hrel. unfold ps_on_publish. rewrite decide_False by done.
  destruct (pubsub_rel_lookup t logs self ch Hrel) as (t' & Ht' & Hc).
  unfold spec_publication. rewrite <- (rel_next _ _ _ _ _ Hc).
  eexists. split; [done|]. pose proof (rel_size _ _ _ Hrel).
  apply pubsub_rel_insert; [done|by eapply pubsub_rel_later|].
  eapply channel_rel_publish; [done| |done|done]. lia.
Qed.

Lemma channel_rel_kept size ttl t now log st :
  (t ≤ now)%N → channel_rel size ttl t log st →
  evict_expired ttl now st.(entries) = retained size ttl now log.
Proof. intros Ht Hc. rewrite (rel_entries _ _ _ _ _ Hc). by apply evict_retained, Ht; destruct Hc. Qed.

Lemma pubsub_rel_ext t logs logs' self :
  (∀ c, logs c = logs' c) → pubsub_rel t logs self → pubsub_rel t logs' self.
Proof.
  intros Hl [Hs Ha Hp]. split; [done| |]; intros c; rewrite <- Hl; [apply Ha | apply Hp].
Qed.

Lemma log_insert_id logs ch c : log_insert ch (logs ch) logs c = logs c.
Proof. unfold log_insert. case_decide; congruence. Qed.

Lemma refine_replay t now logs self ch since :
  (t ≤ now)%N → pubsub_rel t logs self →
  ∃ self', ps_replay_since now ch since self
           = (Ok (spec_replay self.(history_size) self.(history_ttl) now since logs ch), self') ∧
    pubsub_rel now logs self'.
Proof.
  intros Ht Hrel. unfold ps_replay_since, spec_replay.
  destruct (self.(ps_state) !! ch) as [st|] eqn:Hst.
  - destruct (rel_present _ _ _ Hrel _ _ Hst) as (t' & Ht' & Hc).
    rewrite (channel_rel_kept _ _ t' now _ _ ltac:(lia) Hc).
    eexists. split; [done|].
    eapply pubsub_rel_ext; [apply (log_insert_id logs ch)|].
    apply pubsub_rel_insert; [apply Hrel | by eapply pubsub_rel_later |].
    rewrite <- (channel_rel_kept _ _ t' now _ _ ltac:(lia) Hc).
    apply (channel_rel_evict _ _ t'); [lia|done].
  - exists self. rewrite (rel_absent _ _ _ Hrel _ Hst).
    split; [done | by eapply pubsub_rel_later].
Qed.

Lemma refine_subscribe t logs self ch :
  ch ≠ "" → pubsub_rel t logs self →
  ps_on_subscribe ch self = (Ok (spec_cursor self.(ps_epoch) logs ch), self).
Proof.
  intros Hch Hrel. unfold ps_on_subscribe. rewrite decide_False by done.
  unfold io_gets, cursor, cursor_locked, spec_cursor, u64_saturating_sub.
  destruct (self.(ps_state) !! ch) as [st|] eqn:Hst.
  - destruct (rel_present _ _ _ Hrel _ _ Hst) as (t' & Ht' & Hc).
    by rewrite (rel_next _ _ _ _ _ Hc).
  - by rewrite (rel_absent _ _ _ Hrel _ Hst).
Qed.
