(* ===== verification/PubSubProps.v ===== *)
(** * Correctness of the pub/sub channel kind

    Every sequence of calls on a [PubSubChannel] answers as the specification
    does: one unbounded log per channel, read through the retention window. *)
From stdpp Require Import sorting.
From S2P Require Import Prelude Protocol Traits PubSub.

(** ** Traces of calls *)

Inductive ps_op : Type :=
| OpSubscribe (channel : string)
| OpUnsubscribe (channel : string)
| OpPublish (channel : string) (data : Bytes)
| OpReplay (channel : string) (since : N).

Inductive ps_out : Type :=
| OutCursor (r : result ChannelError ChannelCursor)
| OutUnit (r : result ChannelError unit)
| OutPublication (r : result ChannelError Publication)
| OutReplay (r : result ChannelError (list Publication)).

#[export] Instance ps_out_eq_dec : EqDecision ps_out.
Proof. solve_decision. Defined.

Definition ps_step (c : N * ps_op) (self : PubSubChannel) : ps_out * PubSubChannel :=
  let '(now, op) := c in
  match op with
  | OpSubscribe ch => let '(r, s) := ps_on_subscribe ch self in (OutCursor r, s)
  | OpUnsubscribe ch => let '(r, s) := ps_on_unsubscribe ch self in (OutUnit r, s)
  | OpPublish ch data => let '(r, s) := ps_on_publish now ch data self in (OutPublication r, s)
  | OpReplay ch since => let '(r, s) := ps_replay_since now ch since self in (OutReplay r, s)
  end.

Fixpoint ps_run (cs : list (N * ps_op)) (self : PubSubChannel) : list ps_out * PubSubChannel :=
  match cs with
  | [] => ([], self)
  | c :: cs => let '(o, s) := ps_step c self in
               let '(os, s') := ps_run cs s in (o :: os, s')
  end.

(** The specification of a call, on the logs alone. *)
Definition spec_step (size ttl : N) (c : N * ps_op) (logs : string → list HistoryEntry) :
    ps_out * (string → list HistoryEntry) :=
  let '(now, op) := c in
  match op with
  | OpSubscribe ch =>
      (OutCursor (if decide (ch = "") then Err (InvalidChannel ch)
                  else Ok (spec_cursor 1 logs ch)), logs)
  | OpUnsubscribe _ => (OutUnit (Ok ()), logs)
  | OpPublish ch data =>
      if decide (ch = "") then (OutPublication (Err (InvalidChannel ch)), logs)
      else (OutPublication (Ok (spec_publication logs ch data)),
            log_insert ch (logs ch ++ [log_entry now (logs ch) data]) logs)
  | OpReplay ch since => (OutReplay (Ok (spec_replay size ttl now since logs ch)), logs)
  end.

Fixpoint spec_run (size ttl : N) (cs : list (N * ps_op)) (logs : string → list HistoryEntry) :
    list ps_out * (string → list HistoryEntry) :=
  match cs with
  | [] => ([], logs)
  | c :: cs => let '(o, l) := spec_step size ttl c logs in
               let '(os, l') := spec_run size ttl cs l in (o :: os, l')
  end.

(** Calls in the order of the clock. *)
Fixpoint clocked (t : N) (cs : list (N * ps_op)) : Prop :=
  match cs with
  | [] => True
  | c :: cs => (t ≤ c.1)%N ∧ clocked c.1 cs
  end.

(** The instant of the last call. *)
Fixpoint end_clock (t : N) (cs : list (N * ps_op)) : N :=
  match cs with [] => t | c :: cs => end_clock c.1 cs end.

Lemma clocked_snoc t cs c :
  clocked t (cs ++ [c]) → clocked t cs ∧ (end_clock t cs ≤ c.1)%N.
Proof.
  revert t. induction cs as [|c' cs IH]; intros t; simpl; [tauto|].
  intros [? H]. apply IH in H as []. done.
Qed.

(** The invariant of a run: related states, unchanged bounds, short logs. *)
Record run_inv (size ttl t n : N) (logs : string → list HistoryEntry) (self : PubSubChannel) :
    Prop := {
  run_rel : pubsub_rel t logs self;
  run_size : self.(history_size) = size;
  run_ttl : self.(history_ttl) = ttl;
  run_epoch : self.(ps_epoch) = 1%N;
  run_len ch : (N.of_nat (length (logs ch)) ≤ n)%N;
}.

Lemma log_insert_len n logs ch e c :
  (∀ c, N.of_nat (length (logs c)) ≤ n)%N →
  (N.of_nat (length (log_insert ch (logs ch ++ [e]) logs c)) ≤ n + 1)%N.
Proof.
  intros Hn. unfold log_insert. case_decide.
  - rewrite length_app. simpl. specialize (Hn ch). lia.
  - specialize (Hn c). lia.
Qed.

Lemma ps_step_refines size ttl t n c logs self :
  (t ≤ c.1)%N → (n < u64_max)%N → run_inv size ttl t n logs self →
  ∃ self', ps_step c self = ((spec_step size ttl c logs).1, self') ∧
           run_inv size ttl c.1 (n + 1) (spec_step size ttl c logs).2 self'.
Proof.
  intros Ht Hn [Hrel Hs Httl Hep Hlen]. destruct c as [now op]; simpl in *.
  assert (Hlen' : ∀ ch, (N.of_nat (length (logs ch)) ≤ n + 1)%N)
    by (intros ch; specialize (Hlen ch); lia).
  destruct op as [ch|ch|ch data|ch since]; simpl.
  - exists self. split; [|by split; [eapply pubsub_rel_later|..]].
    case_decide as Hch.
    + unfold ps_on_subscribe. by rewrite decide_True.
    + by rewrite (refine_subscribe t logs), Hep.
  - exists self. split; [done|]. by split; [eapply pubsub_rel_later|..].
  - case_decide as Hch; simpl.
    + exists self. unfold ps_on_publish. rewrite decide_True by done.
      split; [done|]. by split; [eapply pubsub_rel_later|..].
    + destruct (refine_publish t now logs self ch data) as (self' & Hp & Hrel'); [done|done| |done|].
      { specialize (Hlen ch). lia. }
      exists self'. rewrite Hp. split; [done|].
      unfold ps_on_publish in Hp. rewrite decide_False in Hp by done. simplify_eq.
      split; [exact Hrel'|done..|]. intros c. by apply log_insert_len.
  - destruct (refine_replay t now logs self ch since) as (self' & Hr & Hrel'); [done..|].
    exists self'. rewrite Hr, Hs, Httl. split; [done|].
    unfold ps_replay_since in Hr. case_match; simplify_eq; by split.
Qed.

Lemma ps_run_refines size ttl t n cs logs self :
  clocked t cs → (n + N.of_nat (length cs) ≤ u64_max)%N → run_inv size ttl t n logs self →
  (ps_run cs self).1 = (spec_run size ttl cs logs).1 ∧
  run_inv size ttl (end_clock t cs) (n + N.of_nat (length cs)) (spec_run size ttl cs logs).2
    (ps_run cs self).2.
Proof.
  revert t n logs self. induction cs as [|c cs IH]; intros t n logs self; simpl.
  { intros _ _ Hinv. split; [done|]. by rewrite N.add_0_r. }
  intros [Ht Hcs] Hn Hinv.
  destruct (ps_step_refines size ttl t n c logs self) as (self' & Hstep & Hinv');
    [done|lia|done|].
  rewrite Hstep. destruct (spec_step size ttl c logs) as [o logs'] eqn:Hspec; simpl in *.
  destruct (IH c.1 (n + 1)%N logs' self') as [Hout Hfin]; [done|lia|done|].
  destruct (ps_run cs self') as [os s'] eqn:E1; destruct (spec_run size ttl cs logs') as [os' l'] eqn:E2.
  simpl in *. subst. split; [done|].
  by replace (n + N.of_nat (S (length cs)))%N with (n + 1 + N.of_nat (length cs))%N by lia.
Qed.

Lemma run_inv_new size ttl t :
  run_inv (N.max size 1) ttl t 0 (λ _, []) (with_bounds size ttl).
Proof. split; try done. apply pubsub_rel_new. Qed.

(** ** Consequences on the log: windows are suffixes *)

Lemma fresh_suffix ttl now l :
  by_time l → ∃ k, filter (fresh ttl now) l = drop k l.
Proof.
  induction l as [|e l IH]; intros Hs; [by exists 0|].
  destruct (decide (fresh ttl now e)) as [He|He].
  - exists 0. rewrite drop_0. by apply filter_all, by_time_all_fresh.
  - rewrite filter_cons_False by done. apply StronglySorted_inv in Hs as [Hs _].
    destruct (IH Hs) as [k ->]. by exists (S k).
Qed.

Lemma retained_suffix size ttl now log :
  by_time log → ∃ k, retained size ttl now log = drop k log.
Proof.
  intros Hs. destruct (fresh_suffix ttl now (lastn (N.to_nat size) log)) as [k Hk].
  { eapply by_time_sublist; [apply sublist_lastn|done]. }
  exists (length log - N.to_nat size + k). unfold retained. rewrite Hk.
  unfold lastn. by rewrite drop_drop.
Qed.

Lemma seqN_from_drop k a n : drop k (seqN_from a n) = seqN_from (a + N.of_nat k) (n - k).
Proof.
  revert a n. induction k as [|k IH]; intros a n.
  - by rewrite N.add_0_r, Nat.sub_0_r.
  - destruct n as [|n]; [done|]. simpl. rewrite IH. f_equal. lia.
Qed.

Lemma seqN_from_filter_gt since a n :
  ∃ k, filter (λ o, since < o)%N (seqN_from a n) = seqN_from (a + N.of_nat k) (n - k).
Proof.
  revert a. induction n as [|n IH]; intros a; [by exists 0|]. simpl.
  destruct (decide (since < a)%N) as [Ha|Ha].
  - exists 0. rewrite N.add_0_r, Nat.sub_0_r. simpl. rewrite filter_cons_True by done. f_equal.
    apply filter_all, Forall_forall. intros x Hx%elem_of_seqN_from. lia.
  - rewrite filter_cons_False by done. destruct (IH (N.succ a)) as [k Hk].
    exists (S k). rewrite Hk. f_equal. lia.
Qed.

Lemma fmap_filter_offset since (l : list HistoryEntry) :
  entry_offset <$> filter (λ e, since < e.(entry_offset))%N l
  = filter (λ o, since < o)%N (entry_offset <$> l).
Proof.
  induction l as [|e l IH]; [done|]. rewrite !fmap_cons.
  destruct (decide (since < entry_offset e)%N).
  - rewrite !filter_cons_True by done. simpl. by f_equal.
  - by rewrite !filter_cons_False.
Qed.

(** The offsets replayed on a channel are consecutive and end at the newest. *)
Lemma spec_replay_offsets size ttl now since logs ch :
  log_ok (logs ch) → by_time (logs ch) →
  ∃ k, publ_offset <$> spec_replay size ttl now since logs ch
       = seqN_from (N.of_nat k) (length (logs ch) - k).
Proof.
  intros Hok Hs. unfold spec_replay.
  rewrite <- list_fmap_compose.
  change (publ_offset ∘ entry_publication ch) with entry_offset. rewrite fmap_filter_offset.
  destruct (retained_suffix size ttl now (logs ch) Hs) as [k ->].
  rewrite fmap_drop, Hok, seqN_from_drop.
  destruct (seqN_from_filter_gt since (0 + N.of_nat k) (length (logs ch) - k)) as [j ->].
  exists (k + j). f_equal; lia.
Qed.

(** A log as a run of the specification builds it is well-formed. *)
Lemma run_inv_log size ttl t n logs self ch :
  run_inv size ttl t n logs self → log_ok (logs ch) ∧ by_time (logs ch).
Proof.
  intros Hinv. destruct (pubsub_rel_lookup t logs self ch (run_rel _ _ _ _ _ _ Hinv)) as (?&_&Hc).
  split; apply Hc.
Qed.

(** ** The trait object keeps the promises the hub relies on *)

#[export] Instance pubsub_kind_laws {W} (l : lens W PubSubChannel) (clock : W → N) :
  ChannelKindLaws (pubsub_kind l clock).
Proof.
  split; simpl.
  - intros ch data w p w' (s & Hp & _)%io_zoom_run. unfold ps_on_publish in Hp.
    case_decide; simplify_eq. done.
  - intros ch since w ps w' (s & Hp & _)%io_zoom_run. unfold ps_replay_since in Hp.
    case_match; simplify_eq; [|constructor].
    apply Forall_fmap, Forall_forall. intros e [He _]%list_elem_of_filter. done.
  - intros w. unfold io_zoom. simpl. by rewrite update_view.
  - intros data w. unfold io_zoom. simpl. by rewrite update_view.
Qed.

(** ** Properties *)

(** C9: on every sequence of calls made in clock order, a pub/sub channel built
    with any bounds answers exactly as its specification: offsets count the
    publications of the channel from 0, the cursor is the newest offset, a replay
    returns the publications newer than the cursor among the last [history_size]
    whose age is within the TTL, the empty name is refused, and channels do not
    interfere.  (Fewer than [2^64] calls, so that no offset saturates.) *)
Theorem pubsub_refines_log size ttl t cs :
  clocked t cs → (N.of_nat (length cs) ≤ u64_max)%N →
  (ps_run cs (with_bounds size ttl)).1 = (spec_run (N.max size 1) ttl cs (λ _, [])).1.
Proof.
  intros Hcs Hlen. by eapply ps_run_refines; [..|apply (run_inv_new size ttl t)].
Qed.

Lemma pubsub_refines_log_witness :
  let cs := [(0, OpPublish "a" [x01]); (1, OpPublish "a" [x02]); (2, OpPublish "b" [x03]);
             (3, OpSubscribe "a"); (5, OpReplay "a" 0); (9, OpReplay "a" 0)]%N in
  (ps_run cs (with_bounds 2 4)).1 = (spec_run 2 4 cs (λ _, [])).1 ∧
  (spec_run 2 4 cs (λ _, [])).1
  = [OutPublication (Ok (mk_Publication "a" 0 [x01]));
     OutPublication (Ok (mk_Publication "a" 1 [x02]));
     OutPublication (Ok (mk_Publication "b" 0 [x03]));
     OutCursor (Ok (mk_ChannelCursor 1 1));
     OutReplay (Ok [mk_Publication "a" 1 [x02]]); OutReplay (Ok [])].
Proof.
  split; [|vm_compute; reflexivity].
  apply (pubsub_refines_log 2 4 0); [vm_compute; intuition congruence | vm_compute; congruence].
Defined.

(** The state after a run and the next replay, against the specification. *)
Lemma replay_after_run size ttl t cs now ch since :
  clocked t (cs ++ [(now, OpReplay ch since)]) → (N.of_nat (length cs) ≤ u64_max)%N →
  let logs := (spec_run (N.max size 1) ttl cs (λ _, [])).2 in
  (ps_replay_since now ch since (ps_run cs (with_bounds size ttl)).2).1
  = Ok (spec_replay (N.max size 1) ttl now since logs ch) ∧
  log_ok (logs ch) ∧ by_time (logs ch).
Proof.
  intros [Hcs Hend]%clocked_snoc Hlen logs.
  destruct (ps_run_refines (N.max size 1) ttl t 0 cs (λ _, []) (with_bounds size ttl))
    as [_ Hinv]; [done|lia|apply run_inv_new|].
  fold logs in Hinv. split; [|by eapply run_inv_log].
  destruct Hinv as [Hrel Hs Httl _ _].
  destruct (refine_replay _ now _ _ ch since Hend Hrel) as (s' & -> & _).
  by rewrite Hs, Httl.
Qed.

(** After any sequence of calls in clock order, a replay returns consecutive
    offsets that end at the newest publication of the channel: no retained
    publication is skipped, reordered or repeated. *)
Theorem replay_gap_free size ttl t cs now ch since :
  clocked t (cs ++ [(now, OpReplay ch since)]) → (N.of_nat (length cs) ≤ u64_max)%N →
  let published := length ((spec_run (N.max size 1) ttl cs (λ _, [])).2 ch) in
  ∃ ps k, (ps_replay_since now ch since (ps_run cs (with_bounds size ttl)).2).1 = Ok ps ∧
    publ_offset <$> ps = seqN_from (N.of_nat k) (published - k).
Proof.
  intros Hcs Hlen published.
  destruct (replay_after_run size ttl t cs now ch since Hcs Hlen) as (Hr & Hok & Hs).
  destruct (spec_replay_offsets (N.max size 1) ttl now since _ ch Hok Hs) as [k Hk].
  eauto.
Qed.

Lemma replay_gap_free_witness :
  let cs := [(0, OpPublish "a" [x01]); (1, OpPublish "a" [x02]); (2, OpPublish "a" [x03]);
             (3, OpPublish "a" [x04])]%N in
  ∃ ps k, (ps_replay_since 4 "a" 0 (ps_run cs (with_bounds 3 10)).2).1 = Ok ps ∧
    publ_offset <$> ps = seqN_from (N.of_nat k) (4 - k).
Proof.
  apply (replay_gap_free 3 10 0 [(0, OpPublish "a" [x01]); (1, OpPublish "a" [x02]);
    (2, OpPublish "a" [x03]); (3, OpPublish "a" [x04])]%N 4 "a" 0);
    [vm_compute; intuition congruence | vm_compute; congruence].
Defined.

(** When the publication right after the requested cursor has been evicted
    while newer ones are retained, the replay still returns every retained
    publication: the client sees a jump in the offsets, not the empty answer the
    trait's documentation and v1.proto announce for an evicted cursor. *)
Theorem replay_after_eviction size ttl t cs now ch since :
  clocked t (cs ++ [(now, OpReplay ch since)]) → (N.of_nat (length cs) ≤ u64_max)%N →
  let window := retained (N.max size 1) ttl now
                  ((spec_run (N.max size 1) ttl cs (λ _, [])).2 ch) in
  Forall (λ e, since + 1 < e.(entry_offset))%N window →
  (ps_replay_since now ch since (ps_run cs (with_bounds size ttl)).2).1
  = Ok (entry_publication ch <$> window).
Proof.
  intros Hcs Hlen window Hev.
  destruct (replay_after_run size ttl t cs now ch since Hcs Hlen) as (-> & _ & _).
  unfold spec_replay. fold window. rewrite filter_all; [done|].
  eapply Forall_impl; [exact Hev|]. simpl. lia.
Qed.

(** Two retained out of five, cursor 1: offsets 3 and 4 come back, 2 is lost. *)
Lemma replay_after_eviction_witness :
  let cs := [(0, OpPublish "r" [x00]); (0, OpPublish "r" [x01]); (0, OpPublish "r" [x02]);
             (0, OpPublish "r" [x03]); (0, OpPublish "r" [x04])]%N in
  (ps_replay_since 1 "r" 1 (ps_run cs (with_bounds 2 60)).2).1
  = Ok [mk_Publication "r" 3 [x03]; mk_Publication "r" 4 [x04]].
Proof.
  etransitivity; [apply (replay_after_eviction 2 60 0 [(0, OpPublish "r" [x00]);
    (0, OpPublish "r" [x01]); (0, OpPublish "r" [x02]); (0, OpPublish "r" [x03]);
    (0, OpPublish "r" [x04])]%N 1 "r" 1) | vm_compute; reflexivity].
  - vm_compute; intuition congruence.
  - vm_compute; congruence.
  - vm_compute. repeat constructor.
Defined.

Lemma length_evict_expired ttl now l : length (evict_expired ttl now l) ≤ length l.
Proof. induction l as [|e l IH]; simpl; [done|]. case_decide; simpl; lia. Qed.

Lemma length_trim size l : (N.of_nat (length (trim size l)) ≤ size)%N.
Proof. rewrite trim_lastn. unfold lastn. rewrite length_drop. lia. Qed.

(** Every ring buffer is within the cap. *)
Definition bounded (size : N) (self : PubSubChannel) : Prop :=
  self.(history_size) = size ∧ ∀ c, (N.of_nat (history_len self c) ≤ size)%N.

Lemma history_len_insert self ch st c :
  history_len (set_ps_state self (<[ch:=st]> self.(ps_state))) c
  = if decide (c = ch) then length st.(entries) else history_len self c.
Proof.
  unfold history_len. simpl. case_decide as Hc.
  - subst. by rewrite lookup_insert_eq.
  - by rewrite lookup_insert_ne.
Qed.

Lemma ps_step_bounded size c self : bounded size self → bounded size (ps_step c self).2.
Proof.
  intros [Hs Hl]. destruct c as [now [ch|ch|ch data|ch since]]; simpl.
  - unfold ps_on_subscribe. case_decide; by split.
  - by split.
  - unfold ps_on_publish. case_decide; [by split|]. split; [done|]. intros c; cbn [snd].
    rewrite history_len_insert. case_decide; [|done]. cbn [entries]. rewrite <- Hs.
    apply length_trim.
  - unfold ps_replay_since. destruct (ps_state self !! ch) as [st|] eqn:Hst; [|by split].
    split; [done|]. intros c; cbn [snd]. rewrite history_len_insert. case_decide; [|done].
    cbn [entries]. pose proof (length_evict_expired (history_ttl self) now (entries st)).
    specialize (Hl ch). unfold history_len in Hl. rewrite Hst in Hl. lia.
Qed.

Lemma ps_run_bounded size cs self : bounded size self → bounded size (ps_run cs self).2.
Proof.
  revert self. induction cs as [|c cs IH]; intros self Hb; simpl; [done|].
  apply (ps_step_bounded _ c) in Hb. destruct (ps_step c self) as [o s]; simpl in Hb.
  apply IH in Hb. by destruct (ps_run cs s) as [os s'].
Qed.

(** C40: the ring buffer of a channel never holds more than [history_size]
    entries, whatever sequence of calls is made and at whatever instants. *)
Theorem history_bounded size ttl cs ch :
  (N.of_nat (history_len (ps_run cs (with_bounds size ttl)).2 ch) ≤ N.max size 1)%N.
Proof.
  apply ps_run_bounded. split; [done|]. intros c. unfold history_len. simpl.
  rewrite lookup_empty. simpl. lia.
Qed.

(** A publication takes the channel's next offset and moves it up by one,
    stopping at [u64::MAX]; it leaves every other channel alone, and an empty
    name changes nothing. *)
Lemma publish_offset_step now ch data self :
  let st := default (mk_ChannelState 0 []) (self.(ps_state) !! ch) in
  if decide (ch = "")
  then ps_on_publish now ch data self = (Err (InvalidChannel ""), self)
  else ∃ self', ps_on_publish now ch data self
                = (Ok (mk_Publication ch st.(next_offset) data), self') ∧
       next_offset <$> (self'.(ps_state) !! ch)
       = Some (N.min (st.(next_offset) + 1) u64_max) ∧
       ∀ c, c ≠ ch → self'.(ps_state) !! c = self.(ps_state) !! c.
Proof.
  intros st. unfold ps_on_publish. fold st. case_decide as Hch; [by rewrite Hch|].
  eexists. split; [done|]. simpl. split.
  - by rewrite lookup_insert_eq.
  - intros c Hc. by rewrite lookup_insert_ne.
Qed.
