(* ===== verification/MemoryBroker.v ===== *)
(** * The in-process broker (crates/cherenkov-broker/src/lib.rs)

    [MemoryBroker] owns one [tokio::sync::broadcast] channel per topic.  The
    broadcast channel is not in the repository: it is the interface [Broadcast]
    whose laws state its documented behaviour through the view [bc_view], the
    publications each receiver has still to see together with the number it has
    lost to overflow.  [QueueBroadcast] is an instance of the interface. *)
From S2P Require Import Prelude Protocol Traits.

(** ** [tokio::sync::broadcast] *)

Inductive RecvOutcome : Type :=
| RecvItem (p : Publication)
| RecvLagged (skipped : N)
| RecvPending
| RecvClosed.

Class Broadcast : Type := {
  Chan : Type;
  bc_channel : N → Chan;
  bc_subscribe : Chan → N * Chan;
  bc_send : Publication → Chan → bool * Chan;
  bc_recv : N → Chan → RecvOutcome * Chan;
  bc_drop : N → Chan → Chan;
  bc_receiver_count : Chan → N;
}.

(** A slot of a receiver's view: publications missed since the last report, and
    the publications still buffered for it. *)
Definition slot : Type := N * list Publication.

(** Sending to a receiver whose buffer is full pushes the oldest one out. *)
Definition deliver_slot (cap : N) (p : Publication) (s : slot) : slot :=
  let '(missed, q) := s in
  if decide (N.of_nat (length q) < cap)%N then (missed, q ++ [p])
  else ((missed + 1)%N, tail q ++ [p]).

Class BroadcastLaws (B : Broadcast) : Type := {
  bc_view : Chan → gmap N slot;
  bc_capacity : Chan → N;
  bc_channel_view n : bc_view (bc_channel n) = ∅;
  bc_channel_capacity n : (1 ≤ n)%N → (n ≤ bc_capacity (bc_channel n))%N;
  bc_receiver_count_view c : bc_receiver_count c = N.of_nat (size (bc_view c));
  bc_subscribe_view c r c' : bc_subscribe c = (r, c') →
    bc_view c !! r = None ∧ bc_view c' = <[r := (0%N, [])]> (bc_view c) ∧
    bc_capacity c' = bc_capacity c;
  bc_send_none p c : bc_view c = ∅ → bc_send p c = (false, c);
  bc_send_some p c : bc_view c ≠ ∅ → ∃ c', bc_send p c = (true, c') ∧
    bc_view c' = deliver_slot (bc_capacity c) p <$> bc_view c ∧ bc_capacity c' = bc_capacity c;
  bc_recv_lagged r c missed q : bc_view c !! r = Some (missed, q) → (0 < missed)%N →
    ∃ c', bc_recv r c = (RecvLagged missed, c') ∧ bc_view c' = <[r := (0%N, q)]> (bc_view c) ∧
          bc_capacity c' = bc_capacity c;
  bc_recv_item r c p q : bc_view c !! r = Some (0%N, p :: q) →
    ∃ c', bc_recv r c = (RecvItem p, c') ∧ bc_view c' = <[r := (0%N, q)]> (bc_view c) ∧
          bc_capacity c' = bc_capacity c;
  (* the map of the broker or a stream being opened holds a sender: nothing closes *)
  bc_recv_empty r c : bc_view c !! r = Some (0%N, []) → bc_recv r c = (RecvPending, c);
  bc_drop_view r c : bc_view (bc_drop r c) = delete r (bc_view c) ∧
    bc_capacity (bc_drop r c) = bc_capacity c;
}.

(** ** The broker *)

Definition DEFAULT_TOPIC_CAPACITY : N := 1024.

Section broker.
Context {B : Broadcast}.

(** [topics] holds the senders; the channels they belong to stay alive as long
    as a sender or a receiver does, so they live in [chans] under an identity.
    [dropped_total] is the counter [cherenkov_broker_dropped_total]. *)
Record MemoryBroker : Type := mk_MemoryBroker {
  capacity : N;
  topics : gmap string N;
  chans : gmap N Chan;
  next_chan : N;
  dropped_total : gmap string N;
}.

Definition with_capacity (capacity : N) : MemoryBroker :=
  mk_MemoryBroker (N.max capacity 1) ∅ ∅ 0 ∅.

Definition new : MemoryBroker := with_capacity DEFAULT_TOPIC_CAPACITY.

Definition topic_count (self : MemoryBroker) : nat := size self.(topics).

Definition set_chan (self : MemoryBroker) (id : N) (c : Chan) : MemoryBroker :=
  mk_MemoryBroker self.(capacity) self.(topics) (<[id := c]> self.(chans))
    self.(next_chan) self.(dropped_total).

(** The sender of [topic], created on first use. *)
Definition sender_for (topic : string) (self : MemoryBroker) : N * MemoryBroker :=
  match self.(topics) !! topic with
  | Some s => (s, self)
  | None =>
      let id := self.(next_chan) in
      (id, mk_MemoryBroker self.(capacity) (<[topic := id]> self.(topics))
             (<[id := bc_channel self.(capacity)]> self.(chans)) (id + 1)%N
             self.(dropped_total))
  end.

(** The boxed stream: the receiver and the label of the topic. *)
Record MemStream : Type := mk_MemStream {
  ms_chan : N;
  ms_rcv : N;
  topic_label : string;
}.

Definition mb_subscribe (topic : string) : io MemoryBroker BrokerError MemStream := λ self,
  let '(id, self) := sender_for topic self in
  match self.(chans) !! id with
  | Some c => let '(r, c') := bc_subscribe c in
              (Ok (mk_MemStream id r topic), set_chan self id c')
  | None => (Ok (mk_MemStream id 0 topic), self)
  end.

Definition mb_publish (topic : string) (publication : Publication) :
    io MemoryBroker BrokerError unit := λ self,
  match self.(topics) !! topic with
  | None => (Ok (), self)
  | Some id =>
      match self.(chans) !! id with
      | None => (Ok (), self)
      | Some c =>
          let '(sent, c') := bc_send publication c in
          let self := set_chan self id c' in
          if sent then (Ok (), self)
          else if decide (bc_receiver_count c' = 0%N)
          then (Ok (), mk_MemoryBroker self.(capacity) (delete topic self.(topics))
                         self.(chans) self.(next_chan) self.(dropped_total))
          else (Ok (), self)
      end
  end.

Definition add_dropped (topic : string) (skipped : N) (self : MemoryBroker) : MemoryBroker :=
  mk_MemoryBroker self.(capacity) self.(topics) self.(chans) self.(next_chan)
    (<[topic := (default 0 (self.(dropped_total) !! topic) + skipped)%N]> self.(dropped_total)).

(** [filter_map] polls the receiver again after every item it filters out, here
    a lag report; a report is never followed by another, so two polls are
    enough ([mb_next_spec] of BrokerProps.v). *)
Fixpoint poll_stream (fuel : nat) (s : MemStream) (self : MemoryBroker) :
    Poll (option Publication) * MemoryBroker :=
  match fuel, self.(chans) !! s.(ms_chan) with
  | S fuel, Some c =>
      let '(item, c') := bc_recv s.(ms_rcv) c in
      let self := set_chan self s.(ms_chan) c' in
      match item with
      | RecvItem p => (Ready (Some p), self)
      | RecvLagged skipped =>
          poll_stream fuel s (add_dropped s.(topic_label) skipped self)
      | RecvPending => (Pending, self)
      | RecvClosed => (Ready None, self)
      end
  | _, _ => (Pending, self)
  end.

Definition mb_next : MemStream → MemoryBroker → Poll (option Publication) * MemoryBroker :=
  poll_stream 2.

Definition mb_drop (s : MemStream) (self : MemoryBroker) : MemoryBroker :=
  match self.(chans) !! s.(ms_chan) with
  | Some c => set_chan self s.(ms_chan) (bc_drop s.(ms_rcv) c)
  | None => self
  end.

Definition memory_broker {W} (l : lens W MemoryBroker) : Broker W MemStream := {|
  broker_name := "memory";
  broker_subscribe topic := io_zoom l (mb_subscribe topic);
  broker_publish topic p := io_zoom l (mb_publish topic p);
  stream_next s w := let '(r, b) := mb_next s (view l w) in (r, update l b w);
  stream_drop s w := update l (mb_drop s (view l w)) w;
|}.
End broker.

(** ** An instance of the interface: one queue per receiver *)

Record QueueChan : Type := mk_QueueChan {
  qc_cap : N;
  qc_slots : gmap N slot;
}.

Definition qc_recv (r : N) (c : QueueChan) : RecvOutcome * QueueChan :=
  match c.(qc_slots) !! r with
  | None => (RecvClosed, c)
  | Some (missed, q) =>
      if decide (0 < missed)%N
      then (RecvLagged missed, mk_QueueChan c.(qc_cap) (<[r := (0%N, q)]> c.(qc_slots)))
      else match q with
           | [] => (RecvPending, c)
           | p :: q => (RecvItem p, mk_QueueChan c.(qc_cap)
                                      (<[r := (0%N, q)]> c.(qc_slots)))
           end
  end.

Definition fresh_receiver (m : gmap N slot) : N := fresh (dom m : gset N).

Lemma fresh_receiver_None (m : gmap N slot) : m !! fresh_receiver m = None.
Proof. apply (not_elem_of_dom (D:=gset N)). unfold fresh_receiver. apply is_fresh. Qed.

#[export] Instance QueueBroadcast : Broadcast := {
  Chan := QueueChan;
  bc_channel n := mk_QueueChan n ∅;
  bc_subscribe c :=
    let r := fresh_receiver c.(qc_slots) in
    (r, mk_QueueChan c.(qc_cap) (<[r := (0%N, [])]> c.(qc_slots)));
  bc_send p c :=
    if decide (c.(qc_slots) = ∅) then (false, c)
    else (true, mk_QueueChan c.(qc_cap)
                  (deliver_slot c.(qc_cap) p <$> c.(qc_slots)));
  bc_recv := qc_recv;
  bc_drop r c := mk_QueueChan c.(qc_cap) (delete r c.(qc_slots));
  bc_receiver_count c := N.of_nat (size c.(qc_slots));
}.

#[export] Instance QueueBroadcastLaws : BroadcastLaws QueueBroadcast.
Proof.
  refine {| bc_view := qc_slots; bc_capacity := qc_cap |}; simpl; try done.
  - intros c r c' [= <- <-]. split; [|done]. apply fresh_receiver_None.
  - intros p c Hc. by rewrite decide_True.
  - intros p c Hc. rewrite decide_False by done. eauto.
  - intros r c missed q Hr Hm. unfold qc_recv. rewrite Hr, decide_True by done. eauto.
  - intros r c p q Hr. unfold qc_recv. rewrite Hr. simpl. eauto.
  - intros r c Hr. unfold qc_recv. by rewrite Hr.
Defined.
