(* ===== verification/BrokerProps.v ===== *)
(** * Correctness of the in-process broker

    Against any broadcast channel that keeps its documented promises: what each
    subscriber receives is, in order, what was published on its topic while it
    was subscribed; what is missing is counted; topics do not interfere and the
    topic of a live subscriber is never reaped. *)
From S2P Require Import Prelude Protocol Traits MemoryBroker.

Section laws.
Context {B : Broadcast} {L : BroadcastLaws B}.

(** ** Well-formed brokers *)

Record broker_wf (b : MemoryBroker) : Prop := {
  wf_cap : (1 ≤ b.(capacity))%N;
  wf_topic t id : b.(topics) !! t = Some id → is_Some (b.(chans) !! id);
  wf_inj t1 t2 id : b.(topics) !! t1 = Some id → b.(topics) !! t2 = Some id → t1 = t2;
  wf_fresh id c : b.(chans) !! id = Some c → (id < b.(next_chan))%N;
  wf_chan_cap id c : b.(chans) !! id = Some c → (b.(capacity) ≤ bc_capacity c)%N;
}.

(** What a stream has still to see. *)
Definition stream_slot (b : MemoryBroker) (s : MemStream) : option slot :=
  c ← b.(chans) !! s.(ms_chan); bc_view c !! s.(ms_rcv).

(** A stream that was returned by [subscribe] and not dropped yet. *)
Definition live (b : MemoryBroker) (s : MemStream) : Prop :=
  b.(topics) !! s.(topic_label) = Some s.(ms_chan) ∧ is_Some (stream_slot b s).

Definition same_receiver (s s' : MemStream) : Prop :=
  s.(ms_chan) = s'.(ms_chan) ∧ s.(ms_rcv) = s'.(ms_rcv).

Lemma broker_wf_new n : broker_wf (with_capacity n).
Proof. split; simpl; [lia|..]; intros *; rewrite ?lookup_empty; done. Qed.

(** Replacing the state of an allocated channel. *)
Lemma broker_wf_set_chan b id c c' :
  broker_wf b → b.(chans) !! id = Some c → bc_capacity c' = bc_capacity c →
  broker_wf (set_chan b id c').
Proof.
  intros [Hcap Ht Hi Hf Hc] Hid Hcap'. split; simpl; try done.
  - intros t id' H'. destruct (decide (id' = id)) as [->|].
    + rewrite lookup_insert_eq. eauto.
    + rewrite lookup_insert_ne by done. eauto.
  - intros id' c2. rewrite lookup_insert_Some. naive_solver.
  - intros id' c2. rewrite lookup_insert_Some. intros [[<- <-]|[? ?]]; [|eauto].
    rewrite Hcap'. eauto.
Qed.

Lemma stream_slot_set_chan b id c' s :
  stream_slot (set_chan b id c') s
  = if decide (s.(ms_chan) = id) then bc_view c' !! s.(ms_rcv) else stream_slot b s.
Proof.
  unfold stream_slot. simpl. case_decide as H.
  - by rewrite H, lookup_insert_eq.
  - by rewrite lookup_insert_ne.
Qed.

(** Updating one receiver of one channel. *)
Lemma stream_slot_set_receiver b s c c' (o : option slot) s' :
  b.(chans) !! s.(ms_chan) = Some c →
  bc_view c' = partial_alter (λ _, o) s.(ms_rcv) (bc_view c) →
  stream_slot (set_chan b s.(ms_chan) c') s'
  = if decide (same_receiver s' s) then o else stream_slot b s'.
Proof.
  intros Hc Hv. rewrite stream_slot_set_chan. unfold same_receiver.
  case_decide as Hch; [|by rewrite decide_False by tauto].
  rewrite Hv. destruct (decide (ms_rcv s' = ms_rcv s)) as [Hr|Hr].
  - rewrite Hr, lookup_partial_alter_eq. by rewrite decide_True.
  - rewrite lookup_partial_alter_ne by done. rewrite decide_False by tauto.
    unfold stream_slot. by rewrite Hch, Hc.
Qed.

#[export] Instance same_receiver_dec s s' : Decision (same_receiver s s').
Proof. unfold same_receiver. apply _. Defined.

(** ** Subscribe *)

Lemma sender_for_spec t b :
  broker_wf b → ∃ id b' c, sender_for t b = (id, b') ∧ broker_wf b' ∧
    b'.(topics) !! t = Some id ∧ b'.(chans) !! id = Some c ∧
    (∀ t' id', b.(topics) !! t' = Some id' → b'.(topics) !! t' = Some id') ∧
    (∀ s v, stream_slot b s = Some v → stream_slot b' s = Some v) ∧
    (∀ r, b.(topics) !! t = None → bc_view c !! r = None) ∧
    b'.(dropped_total) = b.(dropped_total) ∧ b'.(capacity) = b.(capacity).
Proof.
  intros Hwf. unfold sender_for. destruct (b.(topics) !! t) as [id|] eqn:Ht.
  - destruct (wf_topic _ Hwf _ _ Ht) as [c Hc]. exists id, b, c. naive_solver.
  - exists b.(next_chan). eexists. exists (bc_channel b.(capacity)).
    destruct Hwf as [Hcap Htop Hinj Hfr Hcc].
    assert (Hnc : b.(chans) !! b.(next_chan) = None).
    { destruct (b.(chans) !! b.(next_chan)) as [c|] eqn:E; [|done]. apply Hfr in E. lia. }
    split; [done|]. split; [split; simpl|].
    + done.
    + intros t' id'. rewrite lookup_insert_Some. intros [[<- <-]|[? Hid]].
      * rewrite lookup_insert_eq. eauto.
      * destruct (Htop _ _ Hid) as [c Hc]. rewrite lookup_insert_ne by congruence. eauto.
    + intros t1 t2 id'. rewrite !lookup_insert_Some.
      intros [[<- <-]|[? H1]] [[<- He]|[? H2]]; eauto.
      * destruct (Htop _ _ H2) as [c Hc]. congruence.
      * subst. destruct (Htop _ _ H1) as [c Hc]. congruence.
    + intros id' c. rewrite lookup_insert_Some. intros [[<- _]|[_ H]]; [lia|].
      apply Hfr in H. lia.
    + intros id' c. rewrite lookup_insert_Some. intros [[<- <-]|[_ H]]; [|eauto].
      by apply bc_channel_capacity.
    + simpl. rewrite !lookup_insert_eq. repeat split; try done.
      * intros t' id' Ht'. rewrite lookup_insert_ne by congruence. done.
      * intros s v. unfold stream_slot. simpl.
        destruct (decide (ms_chan s = next_chan b)) as [->|]; [by rewrite Hnc|].
        by rewrite lookup_insert_ne.
      * intros r _. by rewrite bc_channel_view, lookup_empty.
Qed.

Lemma mb_subscribe_spec t b :
  broker_wf b → ∃ s b', mb_subscribe t b = (Ok s, b') ∧ broker_wf b' ∧
    s.(topic_label) = t ∧ live b' s ∧ stream_slot b' s = Some (0%N, []) ∧
    (∀ s', live b s' → ¬ same_receiver s' s) ∧
    (∀ s', live b s' → live b' s' ∧ stream_slot b' s' = stream_slot b s') ∧
    b'.(dropped_total) = b.(dropped_total) ∧ b'.(capacity) = b.(capacity).
Proof.
  intros Hwf. destruct (sender_for_spec t b Hwf)
    as (id & b1 & c & Hs & Hwf1 & Ht & Hc & Hmono & Hslot & Hnew & Hd & Hcapb).
  unfold mb_subscribe. rewrite Hs, Hc. destruct (bc_subscribe c) as [r c'] eqn:Hsub.
  apply bc_subscribe_view in Hsub as (Hr & Hv & Hcap).
  exists (mk_MemStream id r t). eexists. split; [done|].
  pose proof (stream_slot_set_receiver b1 (mk_MemStream id r t) c c' (Some (0%N, []))) as Hset.
  simpl in Hset. specialize (λ s', Hset s' Hc Hv).
  assert (Hdiff : ∀ s', live b s' → ¬ same_receiver s' (mk_MemStream id r t)).
  { intros s' [_ [v Hv']] [Hch Hrc]; simpl in *. apply Hslot in Hv'.
    unfold stream_slot in Hv'. rewrite Hch, Hc, Hrc in Hv'. simpl in Hv'. congruence. }
  split; [by eapply broker_wf_set_chan|]. split; [done|].
  assert (Hnewslot : stream_slot (set_chan b1 id c') (mk_MemStream id r t) = Some (0%N, []))
    by (rewrite Hset; by rewrite decide_True).
  split; [by split; [|rewrite Hnewslot]|]. split; [done|]. split; [done|].
  split; [|done]. intros s' Hlive.
  assert (Heq : stream_slot (set_chan b1 id c') s' = stream_slot b s').
  { rewrite Hset, decide_False by auto. destruct Hlive as [_ [v Hv']].
    rewrite Hv'. by apply Hslot. }
  split; [|done]. destruct Hlive as [Hl1 Hl2]. split; [by apply Hmono|by rewrite Heq].
Qed.

(** ** Publish *)

Lemma live_channel b s t id c :
  live b s → b.(topics) !! t = Some id → b.(chans) !! id = Some c →
  s.(topic_label) = t → ∃ v, bc_view c !! s.(ms_rcv) = Some v.
Proof.
  intros [Hl [v Hv]] Ht Hc <-. unfold stream_slot in Hv.
  assert (ms_chan s = id) as Hid by congruence. rewrite Hid, Hc in Hv. eauto.
Qed.

Lemma broker_wf_reap b t :
  broker_wf b →
  broker_wf (mk_MemoryBroker b.(capacity) (delete t b.(topics)) b.(chans)
               b.(next_chan) b.(dropped_total)).
Proof.
  intros [? Ht Hi ? ?]; split; simpl; try done.
  - intros t' id. rewrite lookup_delete_Some. naive_solver.
  - intros t1 t2 id. rewrite !lookup_delete_Some. naive_solver.
Qed.

Lemma mb_publish_spec t p b :
  broker_wf b → ∃ b' cap, mb_publish t p b = (Ok (), b') ∧ broker_wf b' ∧
    (b.(capacity) ≤ cap)%N ∧ b'.(capacity) = b.(capacity) ∧
    b'.(dropped_total) = b.(dropped_total) ∧
    (∀ s, live b s → live b' s ∧
       stream_slot b' s = if decide (s.(topic_label) = t)
                          then deliver_slot cap p <$> stream_slot b s
                          else stream_slot b s).
Proof.
  intros Hwf. unfold mb_publish. destruct (topics b !! t) as [id|] eqn:Ht.
  2:{ exists b, b.(capacity). repeat split; try done; try apply Hwf; try apply H.
      rewrite decide_False; [done|]. intros <-. destruct H as [H _]. congruence. }
  destruct (wf_topic _ Hwf _ _ Ht) as [c Hc]. rewrite Hc.
  destruct (decide (bc_view c = ∅)) as [Hempty|Hne].
  - rewrite bc_send_none by done. exists
      (mk_MemoryBroker b.(capacity) (delete t b.(topics)) (<[id:=c]> b.(chans))
         b.(next_chan) b.(dropped_total)), b.(capacity).
    rewrite bc_receiver_count_view, Hempty, map_size_empty. simpl.
    repeat split; try done.
    1-5: pose proof (broker_wf_reap _ t (broker_wf_set_chan b id c c Hwf Hc eq_refl)) as Hwf';
         apply Hwf'.
    all: destruct (decide (topic_label s = t)) as [Heq|Hneq];
      [destruct (live_channel b s t id c H Ht Hc Heq) as [v Hv];
       by rewrite Hempty, lookup_empty in Hv|].
    + simpl. rewrite lookup_delete_ne by done. apply H.
    + unfold stream_slot; simpl. rewrite (insert_id _ _ _ Hc). apply H.
    + unfold stream_slot; simpl. by rewrite (insert_id _ _ _ Hc).
  - destruct (bc_send_some p c Hne) as (c' & Hs & Hv & Hcap'). rewrite Hs.
    exists (set_chan b id c'), (bc_capacity c).
    assert (Hslot : ∀ s, live b s → stream_slot (set_chan b id c') s
       = if decide (s.(topic_label) = t)
         then deliver_slot (bc_capacity c) p <$> stream_slot b s else stream_slot b s).
    { intros s Hl. rewrite stream_slot_set_chan. case_decide as Htl.
      - destruct Hl as [Hl _]. rewrite decide_True by (eapply wf_inj; [done..|congruence]).
        rewrite Hv, lookup_fmap. unfold stream_slot.
        assert (ms_chan s = id) as -> by congruence. by rewrite Hc.
      - rewrite decide_False; [done|]. intros <-. destruct Hl as [Hl _]. congruence. }
    split; [done|]. split; [by eapply broker_wf_set_chan|].
    split; [by eapply wf_chan_cap|]. split; [done|]. split; [done|].
    intros s Hl. split; [|by apply Hslot]. split; [apply Hl|].
    rewrite Hslot by done. destruct Hl as [_ [v ->]]. case_decide; simpl; eauto.
Qed.

(** ** Polling and dropping a stream *)

(** What one poll of a stream does to its slot: the lag report, if there is one,
    is added to the counter and the poll goes on to the oldest publication. *)
Definition slot_poll (v : slot) : Poll (option Publication) * slot :=
  match v.2 with
  | [] => (Pending, (0%N, []))
  | p :: q => (Ready (Some p), (0%N, q))
  end.

Lemma set_chan_set_chan b id c c' : set_chan (set_chan b id c) id c' = set_chan b id c'.
Proof. unfold set_chan. simpl. by rewrite insert_insert_eq. Qed.

Lemma poll_no_lag fuel b s q :
  broker_wf b → stream_slot b s = Some (0%N, q) → ∃ b',
    poll_stream (S fuel) s b = ((slot_poll (0%N, q)).1, b') ∧ broker_wf b' ∧
    b'.(topics) = b.(topics) ∧ b'.(capacity) = b.(capacity) ∧
    b'.(dropped_total) = b.(dropped_total) ∧
    ∀ s', stream_slot b' s' = if decide (same_receiver s' s)
                              then Some (slot_poll (0%N, q)).2 else stream_slot b s'.
Proof.
  intros Hwf Hs. simpl. unfold stream_slot in Hs.
  destruct (chans b !! ms_chan s) as [c|] eqn:Hc; simpl in Hs; [|done].
  destruct q as [|p q]; simpl.
  - rewrite bc_recv_empty by done. eexists. split; [done|].
    split; [by eapply broker_wf_set_chan|]. do 3 (split; [done|]).
    intros s'. eapply stream_slot_set_receiver; [done|].
    apply map_eq. intros r. destruct (decide (r = ms_rcv s)) as [->|].
    + by rewrite lookup_partial_alter_eq.
    + by rewrite lookup_partial_alter_ne.
  - destruct (bc_recv_item _ _ _ _ Hs) as (c' & -> & Hv & Hcap).
    eexists. split; [done|]. split; [by eapply broker_wf_set_chan|].
    do 3 (split; [done|]). intros s'. by eapply stream_slot_set_receiver.
Qed.

Lemma mb_next_spec b s v :
  broker_wf b → stream_slot b s = Some v → ∃ b',
    mb_next s b = ((slot_poll v).1, b') ∧ broker_wf b' ∧
    b'.(topics) = b.(topics) ∧ b'.(capacity) = b.(capacity) ∧
    (∀ t, default 0%N (b'.(dropped_total) !! t)
          = (default 0 (b.(dropped_total) !! t)
             + if decide (t = s.(topic_label)) then v.1 else 0)%N) ∧
    ∀ s', stream_slot b' s' = if decide (same_receiver s' s)
                              then Some (slot_poll v).2 else stream_slot b s'.
Proof.
  intros Hwf Hs. destruct v as [missed q]. destruct (decide (missed = 0%N)) as [->|Hm].
  { destruct (poll_no_lag 1 b s q Hwf Hs) as (b' & ? & ? & ? & ? & Hd & ?).
    exists b'. repeat (split; [done|]). split; [|done].
    intros t. rewrite Hd. simpl. case_decide; lia. }
  pose proof Hs as Hs'. unfold stream_slot in Hs'.
  destruct (chans b !! ms_chan s) as [c|] eqn:Hc; simpl in Hs'; [|done].
  destruct (bc_recv_lagged _ _ _ _ Hs') as (c' & Hr & Hv & Hcap); [lia|].
  set (b1 := add_dropped s.(topic_label) missed (set_chan b s.(ms_chan) c')).
  assert (Hstep : mb_next s b = poll_stream 1 s b1).
  { unfold mb_next. simpl. by rewrite Hc, Hr. }
  assert (Hslot : ∀ s', stream_slot b1 s'
            = if decide (same_receiver s' s) then Some (0%N, q) else stream_slot b s').
  { intros s'. apply (stream_slot_set_receiver b s c c' (Some (0%N, q)) s' Hc Hv). }
  assert (Hwf1 : broker_wf b1)
    by (destruct (broker_wf_set_chan b _ c c' Hwf Hc Hcap); by split).
  destruct (poll_no_lag 0 b1 s q Hwf1) as (b' & Hp & ? & ? & ? & Hd & Hs2).
  { rewrite Hslot. by rewrite decide_True. }
  exists b'. rewrite Hstep, Hp. repeat (split; [done|]). split.
  - intros t. rewrite Hd. simpl. case_decide as Ht.
    + subst t. by rewrite lookup_insert_eq.
    + rewrite lookup_insert_ne by done. lia.
  - intros s'. rewrite Hs2. case_decide; [done|]. rewrite Hslot. by case_decide.
Qed.

Lemma mb_drop_spec b s :
  broker_wf b → broker_wf (mb_drop s b) ∧
    (mb_drop s b).(topics) = b.(topics) ∧ (mb_drop s b).(capacity) = b.(capacity) ∧
    (mb_drop s b).(dropped_total) = b.(dropped_total) ∧
    ∀ s', stream_slot (mb_drop s b) s'
          = if decide (same_receiver s' s) then None else stream_slot b s'.
Proof.
  intros Hwf. unfold mb_drop. destruct (chans b !! ms_chan s) as [c|] eqn:Hc.
  - destruct (bc_drop_view s.(ms_rcv) c) as [Hv Hcap].
    split; [by eapply broker_wf_set_chan|]. do 3 (split; [done|]).
    intros s'. by eapply stream_slot_set_receiver.
  - do 4 (split; [done|]). intros s'. case_decide as Hsr; [|done].
    destruct Hsr as [Hch _]. unfold stream_slot. by rewrite Hch, Hc.
Qed.

(** ** Histories of a broker *)

Inductive mb_op : Type :=
| MSubscribe (t : string)
| MPublish (t : string) (p : Publication)
| MNext (k : nat)
| MDrop (k : nat).

(** The record kept of each live stream: what was published on its topic since
    it was opened, what it returned, and the losses it reported to the counter. *)
Record ghost : Type := mk_ghost {
  g_stream : MemStream;
  g_published : list Publication;
  g_received : list Publication;
  g_reported : N;
}.

Definition dropped_on (b : MemoryBroker) (t : string) : N :=
  default 0%N (b.(dropped_total) !! t).

Definition g_publish (t : string) (p : Publication) (g : ghost) : ghost :=
  if decide (g.(g_stream).(topic_label) = t)
  then mk_ghost g.(g_stream) (g.(g_published) ++ [p]) g.(g_received) g.(g_reported)
  else g.

Definition g_poll (r : Poll (option Publication)) (reported : N) (g : ghost) : ghost :=
  mk_ghost g.(g_stream) g.(g_published)
    (g.(g_received) ++ match r with Ready (Some p) => [p] | _ => [] end)
    (g.(g_reported) + reported).

Definition mb_step (op : mb_op) (st : MemoryBroker * list ghost) :
    MemoryBroker * list ghost :=
  let '(b, gs) := st in
  match op with
  | MSubscribe t =>
      match mb_subscribe t b with
      | (Ok s, b') => (b', gs ++ [mk_ghost s [] [] 0])
      | (Err _, b') => (b', gs)
      end
  | MPublish t p => let '(_, b') := mb_publish t p b in (b', g_publish t p <$> gs)
  | MNext k =>
      match gs !! k with
      | Some g =>
          let '(r, b') := mb_next g.(g_stream) b in
          let t := g.(g_stream).(topic_label) in
          (b', <[k := g_poll r (dropped_on b' t - dropped_on b t) g]> gs)
      | None => (b, gs)
      end
  | MDrop k =>
      match gs !! k with
      | Some g => (mb_drop g.(g_stream) b, delete k gs)
      | None => (b, gs)
      end
  end.

Definition mb_run (cap : N) (ops : list mb_op) : MemoryBroker * list ghost :=
  foldl (λ st op, mb_step op st) (with_capacity cap, []) ops.

(** A stream received, or still has queued, a subsequence of what was published
    since it was opened, and what is missing is accounted for. *)
Definition g_ok (b : MemoryBroker) (g : ghost) : Prop :=
  live b g.(g_stream) ∧
  ∃ missed q, stream_slot b g.(g_stream) = Some (missed, q) ∧
    g.(g_received) ++ q `sublist_of` g.(g_published) ∧
    N.of_nat (length g.(g_published))
    = (N.of_nat (length g.(g_received)) + N.of_nat (length q) + missed + g.(g_reported))%N.

Record run_ok (st : MemoryBroker * list ghost) : Prop := {
  ro_wf : broker_wf st.1;
  ro_streams : Forall (g_ok st.1) st.2;
  ro_distinct i j g g' : st.2 !! i = Some g → st.2 !! j = Some g' →
    same_receiver g.(g_stream) g'.(g_stream) → i = j;
}.

(** The invariant of a stream survives an operation that leaves its slot alone. *)
Lemma g_ok_frame b b' g :
  g_ok b g → live b' g.(g_stream) →
  stream_slot b' g.(g_stream) = stream_slot b g.(g_stream) → g_ok b' g.
Proof. intros (_ & m & q & Hs & H) Hl Heq. split; [done|]. exists m, q. by rewrite Heq. Qed.

Lemma g_ok_deliver b b' cap p t g :
  (1 ≤ cap)%N → g.(g_stream).(topic_label) = t → g_ok b g → live b' g.(g_stream) →
  stream_slot b' g.(g_stream) = deliver_slot cap p <$> stream_slot b g.(g_stream) →
  g_ok b' (g_publish t p g).
Proof.
  intros Hcap Ht (_ & m & q & Hs & Hsub & Hlen) Hl Heq. unfold g_publish.
  rewrite decide_True by done. split; [done|]. simpl. rewrite Heq, Hs. simpl.
  rewrite length_app. simpl. case_decide as Hq.
  - exists m, (q ++ [p]). split; [done|]. split.
    + rewrite app_assoc. by apply sublist_app.
    + rewrite length_app. simpl. lia.
  - exists (m + 1)%N, (tail q ++ [p]). split; [done|].
    destruct q as [|p0 q]; simpl in *; [lia|]. split.
    + rewrite app_assoc. apply sublist_app; [|done].
      etrans; [|exact Hsub]. apply sublist_app; [done|]. by apply sublist_cons.
    + rewrite length_app. simpl. lia.
Qed.

Lemma g_ok_poll b b' g v :
  g_ok b g → stream_slot b g.(g_stream) = Some v → live b' g.(g_stream) →
  stream_slot b' g.(g_stream) = Some (slot_poll v).2 →
  g_ok b' (g_poll (slot_poll v).1 v.1 g).
Proof.
  intros (_ & m & q & Hs & Hsub & Hlen) Hv Hl Heq. rewrite Hs in Hv. simplify_eq.
  split; [done|]. unfold slot_poll in *. simpl in *. destruct q as [|p q]; simpl in *.
  - exists 0%N, []. rewrite !app_nil_r in *. split; [done|]. split; [done|]. simpl. lia.
  - exists 0%N, q. split; [done|]. rewrite <-app_assoc. simpl. split; [done|].
    rewrite length_app. simpl. lia.
Qed.

Lemma same_receiver_sym s s' : same_receiver s s' → same_receiver s' s.
Proof. by intros [? ?]. Qed.

Lemma live_same_topics b b' s v :
  b'.(topics) = b.(topics) → stream_slot b' s = Some v → live b s → live b' s.
Proof. intros Ht Hs [Hl _]. split; [by rewrite Ht|]. by rewrite Hs. Qed.

Lemma g_stream_publish t p g : g_stream (g_publish t p g) = g_stream g.
Proof. unfold g_publish. by case_decide. Qed.

Lemma run_ok_subscribe t st : run_ok st → run_ok (mb_step (MSubscribe t) st).
Proof.
  intros [Hwf Hgs Hd]. destruct st as [b gs]; simpl in *.
  destruct (mb_subscribe_spec t b Hwf)
    as (s & b' & -> & Hwf' & _ & Hl & Hslot & Hfresh & Hold & _).
  rewrite Forall_forall in Hgs. split; simpl; [done|..].
  - apply Forall_app. split.
    + apply Forall_forall. intros g Hg. pose proof (Hgs g Hg) as Hok.
      destruct (Hold _ (proj1 Hok)). by eapply g_ok_frame.
    + apply Forall_singleton. split; [done|]. exists 0%N, []. done.
  - intros i j g g' Hi Hj Hsr. apply lookup_app_Some in Hi, Hj.
    assert (Hno : ∀ k g0 g1, gs !! k = Some g0 → [mk_ghost s [] [] 0] !! 0 = Some g1 →
               ¬ same_receiver (g_stream g0) (g_stream g1)).
    { intros k g0 g1 Hk [= <-]. apply Hfresh, Hgs. by eapply list_elem_of_lookup_2. }
    destruct Hi as [Hi|[Hli Hi]], Hj as [Hj|[Hlj Hj]]; [by eauto|..].
    + apply list_lookup_singleton_Some in Hj as [? <-]. destruct (Hno _ _ _ Hi eq_refl Hsr).
    + apply list_lookup_singleton_Some in Hi as [? <-].
      destruct (Hno _ _ _ Hj eq_refl (same_receiver_sym _ _ Hsr)).
    + apply list_lookup_singleton_Some in Hi as [? _], Hj as [? _]. lia.
Qed.

Lemma run_ok_publish t p st : run_ok st → run_ok (mb_step (MPublish t p) st).
Proof.
  intros [Hwf Hgs Hd]. destruct st as [b gs]; simpl in *.
  destruct (mb_publish_spec t p b Hwf) as (b' & cap & -> & Hwf' & Hcap & _ & _ & Hl).
  pose proof (wf_cap _ Hwf). rewrite Forall_forall in Hgs. split; simpl; [done|..].
  - apply Forall_fmap, Forall_forall. intros g Hg. pose proof (Hgs g Hg) as Hok. simpl.
    destruct (Hl _ (proj1 Hok)) as [Hl' Hs].
    destruct (decide (topic_label (g_stream g) = t)) as [Ht|Ht].
    + eapply (g_ok_deliver b b' cap); try done. lia.
    + unfold g_publish. rewrite decide_False by done. by eapply g_ok_frame.
  - intros i j g g'. rewrite !list_lookup_fmap, !fmap_Some.
    intros (g0 & Hi & ->) (g1 & Hj & ->). rewrite !g_stream_publish. eauto.
Qed.

Lemma run_ok_next k st : run_ok st → run_ok (mb_step (MNext k) st).
Proof.
  intros [Hwf Hgs Hd]. destruct st as [b gs]; simpl in *.
  destruct (gs !! k) as [g|] eqn:Hk; [|done].
  rewrite Forall_lookup in Hgs. pose proof (Hgs _ _ Hk) as Hok.
  destruct Hok as (Hl & m & q & Hslot & _).
  destruct (mb_next_spec b _ _ Hwf Hslot) as (b' & -> & Hwf' & Ht & _ & Hdrop & Hs).
  assert (Hrep : (dropped_on b' (topic_label (g_stream g))
                  - dropped_on b (topic_label (g_stream g)))%N = (m, q).1).
  { unfold dropped_on. rewrite Hdrop, decide_True by done. lia. }
  rewrite Hrep. split; simpl; [done|..].
  - apply Forall_lookup. intros i g'. rewrite list_lookup_insert_Some.
    intros [(-> & <- & _)|[Hne Hi]].
    + pose proof (Hs (g_stream g)) as Hsg. rewrite decide_True in Hsg by done.
      eapply g_ok_poll; [by eauto|done|by eapply live_same_topics|done].
    + pose proof (Hs (g_stream g')) as Hsg. rewrite decide_False in Hsg by (intros ?; destruct Hne; by eauto using same_receiver_sym).
      pose proof (Hgs _ _ Hi) as Hok'. pose proof Hok' as ((Hl1 & [v Hv]) & _).
      eapply g_ok_frame; [done| |done].
      eapply live_same_topics; [done|by rewrite Hsg|by split; [|rewrite Hv]].
  - assert (Hstr : ∀ i x, <[k:=g_poll (slot_poll (m, q)).1 (m, q).1 g]> gs !! i = Some x →
              ∃ y, gs !! i = Some y ∧ g_stream y = g_stream x).
    { intros i x. rewrite list_lookup_insert_Some.
      intros [(<- & <- & _)|[_ ?]]; eauto. }
    intros i j x y Hi Hj. apply Hstr in Hi as (? & ? & <-), Hj as (? & ? & <-). eauto.
Qed.

Lemma lookup_delete_list {A} (l : list A) k i x :
  delete k l !! i = Some x → ∃ j, j ≠ k ∧ l !! j = Some x ∧ i = if decide (j < k) then j else pred j.
Proof.
  intros H. destruct (decide (i < k)) as [Hik|Hik].
  - rewrite list_lookup_delete_lt in H by done. exists i. rewrite decide_True by done. split; [lia|done].
  - rewrite list_lookup_delete_ge in H by lia. exists (S i). rewrite decide_False by lia.
    split; [lia|]. split; [done|lia].
Qed.

Lemma run_ok_drop k st : run_ok st → run_ok (mb_step (MDrop k) st).
Proof.
  intros [Hwf Hgs Hd]. destruct st as [b gs]; simpl in *.
  destruct (gs !! k) as [g|] eqn:Hk; [|done]. rewrite Forall_lookup in Hgs.
  destruct (mb_drop_spec b (g_stream g) Hwf) as (Hwf' & Ht & _ & _ & Hs).
  split; simpl; [done|..].
  - apply Forall_lookup. intros i g' (j & Hj & Hg' & _)%lookup_delete_list.
    pose proof (Hs (g_stream g')) as Hsg. rewrite decide_False in Hsg by eauto.
    pose proof (Hgs _ _ Hg') as Hok'. pose proof Hok' as ((Hl1 & [v Hv]) & _).
    eapply g_ok_frame; [done| |done].
    eapply live_same_topics; [done|by rewrite Hsg|by split; [|rewrite Hv]].
  - intros i j x y (i' & ? & Hi & ->)%lookup_delete_list (j' & ? & Hj & ->)%lookup_delete_list Hsr.
    by rewrite (Hd _ _ _ _ Hi Hj Hsr).
Qed.

Lemma run_ok_step op st : run_ok st → run_ok (mb_step op st).
Proof.
  destruct op; [apply run_ok_subscribe|apply run_ok_publish|apply run_ok_next|apply run_ok_drop].
Qed.

Lemma run_ok_run cap ops : run_ok (mb_run cap ops).
Proof.
  unfold mb_run. assert (H : run_ok (with_capacity cap, [])).
  { split; simpl; [apply broker_wf_new|done|]. intros i j g g' Hi. by rewrite lookup_nil in Hi. }
  revert H. generalize ((with_capacity cap, []) : MemoryBroker * list ghost).
  induction ops as [|op ops IH]; intros st H; simpl; [done|]. apply IH. by apply run_ok_step.
Qed.

(** ** Properties *)

(** Polling a stream [n] times. *)
Fixpoint drain (n : nat) (s : MemStream) (b : MemoryBroker) :
    list (Poll (option Publication)) * MemoryBroker :=
  match n with
  | O => ([], b)
  | S n => let '(r, b1) := mb_next s b in let '(rs, b2) := drain n s b1 in (r :: rs, b2)
  end.

Definition publish_all (t : string) (ps : list Publication) (b : MemoryBroker) : MemoryBroker :=
  foldl (λ b p, (mb_publish t p b).2) b ps.

Lemma drain_queue s q b :
  broker_wf b → stream_slot b s = Some (0%N, q) →
  (drain (S (length q)) s b).1 = ((λ p, Ready (Some p)) <$> q) ++ [Pending].
Proof.
  revert b. induction q as [|p q IH]; intros b Hwf Hs.
  - simpl. by destruct (mb_next_spec b s _ Hwf Hs) as (b' & -> & _).
  - change (drain (S (length (p :: q))) s b) with
      (let '(r, b1) := mb_next s b in
       let '(rs, b2) := drain (S (length q)) s b1 in (r :: rs, b2)).
    destruct (mb_next_spec b s _ Hwf Hs) as (b' & -> & Hwf' & _ & _ & _ & Hs').
    specialize (Hs' s). rewrite decide_True in Hs' by done.
    specialize (IH b' Hwf' Hs'). destruct (drain (S (length q)) s b') as [rs b2].
    simpl in *. by rewrite IH.
Qed.

Lemma publish_all_slot t s ps b q :
  broker_wf b → live b s → s.(topic_label) = t → stream_slot b s = Some (0%N, q) →
  (N.of_nat (length q + length ps) ≤ b.(capacity))%N →
  broker_wf (publish_all t ps b) ∧ stream_slot (publish_all t ps b) s = Some (0%N, q ++ ps).
Proof.
  revert b q. induction ps as [|p ps IH]; intros b q Hwf Hl Ht Hs Hlen; simpl in *.
  - by rewrite app_nil_r.
  - destruct (mb_publish_spec t p b Hwf) as (b' & cap & -> & Hwf' & Hcap & Hcap' & _ & Hp).
    destruct (Hp _ Hl) as [Hl' Hs']. rewrite decide_True, Hs in Hs' by done. simpl in *.
    rewrite decide_True in Hs' by lia.
    destruct (IH b' (q ++ [p]) Hwf' Hl' Ht Hs') as [? ?].
    { rewrite length_app, Hcap'. simpl. lia. }
    by rewrite <-app_assoc in *.
Qed.

(** C10: in every history of the broker (subscriptions, publications, polls and
    drops in any order), what a live stream returned followed by what it still
    has queued is an ordered subsequence of what was published on its topic
    since it was opened, nothing from another topic is in it, and every missing
    publication is either counted in [dropped_total] or pending in the
    receiver's lag: with no loss at all the two lists are equal.  A subscriber that
    falls behind is not removed, its stream goes on behind the gap. *)
Theorem memory_broker_delivery (cap : N) (ops : list mb_op) :
  let '(b, gs) := mb_run cap ops in
  Forall (λ g, ∃ missed q, stream_slot b g.(g_stream) = Some (missed, q) ∧
    g.(g_received) ++ q `sublist_of` g.(g_published) ∧
    (N.of_nat (length g.(g_published))
     = N.of_nat (length g.(g_received)) + N.of_nat (length q) + missed + g.(g_reported))%N ∧
    (missed = 0%N → g.(g_reported) = 0%N → g.(g_received) ++ q = g.(g_published))) gs.
Proof.
  pose proof (run_ok_run cap ops) as [_ H _]. destruct (mb_run cap ops) as [b gs]; simpl in *.
  eapply Forall_impl; [exact H|]. intros g (_ & m & q & Hs & Hsub & Hlen).
  exists m, q. repeat (split; [done|]). intros -> Hr.
  apply sublist_length_eq; [done|]. rewrite length_app. lia.
Qed.

(** A subscriber that opens its stream on any reachable broker and then falls
    behind by at most the broker's capacity loses nothing: polling returns
    exactly the publications of its topic, in order, and then waits. *)
Theorem memory_broker_keeps_up (cap : N) (ops : list mb_op) (t : string)
    (ps : list Publication)
    (Hcap : (N.of_nat (length ps) ≤ capacity (mb_run cap ops).1)%N) :
  let '(r, b) := mb_subscribe t (mb_run cap ops).1 in
  match r with
  | Ok s => (drain (S (length ps)) s (publish_all t ps b)).1
            = ((λ p, Ready (Some p)) <$> ps) ++ [Pending]
  | Err _ => False
  end.
Proof.
  pose proof (ro_wf _ (run_ok_run cap ops)) as Hwf. revert Hcap Hwf.
  generalize (mb_run cap ops).1 as b0. intros b0 Hcap Hwf.
  destruct (mb_subscribe_spec t b0 Hwf)
    as (s & b & -> & Hwf' & Ht & Hl & Hs & _ & _ & _ & Hc).
  destruct (publish_all_slot t s ps b [] Hwf' Hl Ht Hs) as [Hwf2 Hs2]; [by rewrite Hc|].
  by apply drain_queue.
Qed.

(** A topic that has subscribers is never reaped, and publishing on a topic
    without subscribers removes its entry and nothing else: afterwards the
    published topic has an entry exactly when it has a receiver. *)
Theorem publish_reaps_idle_topic (cap : N) (ops : list mb_op) (t : string) (p : Publication)
    (id : N) (Ht : (mb_run cap ops).1.(topics) !! t = Some id) :
  let b := (mb_run cap ops).1 in
  let b' := (mb_publish t p b).2 in
  (b'.(topics) = b.(topics) ∧ ∃ r, is_Some (stream_slot b (mk_MemStream id r t))) ∨
  (b'.(topics) = delete t b.(topics) ∧ ∀ r, stream_slot b (mk_MemStream id r t) = None).
Proof.
  pose proof (ro_wf _ (run_ok_run cap ops)) as Hwf. revert Ht Hwf.
  generalize (mb_run cap ops).1 as b. intros b Ht Hwf. simpl. unfold mb_publish. rewrite Ht.
  destruct (wf_topic _ Hwf _ _ Ht) as [c Hc]. rewrite Hc. unfold stream_slot; simpl.
  rewrite Hc; simpl. destruct (decide (bc_view c = ∅)) as [He|Hne].
  - right. rewrite bc_send_none by done.
    rewrite bc_receiver_count_view, He, map_size_empty. simpl. split; [done|].
    intros r. apply lookup_empty.
  - left. destruct (bc_send_some p c Hne) as (c' & -> & _). split; [done|].
    apply map_choose in Hne as (r & v & Hr). exists r. by rewrite Hr.
Qed.
End laws.

(** ** Witnesses, on the queue instance *)

Definition pub_of (n : N) : Publication := mk_Publication "c" n [].

(** One publication received, one still queued, none lost. *)
Lemma memory_broker_delivery_witness :
  let st := mb_run (B:=QueueBroadcast) 2
    [MSubscribe "a"; MPublish "a" (pub_of 0); MPublish "a" (pub_of 1); MNext 0] in
  Forall (λ g, ∃ missed q, stream_slot st.1 g.(g_stream) = Some (missed, q) ∧
    (missed = 0%N → g.(g_reported) = 0%N → g.(g_received) ++ q = g.(g_published))) st.2.
Proof.
  intros st. pose proof (memory_broker_delivery (B:=QueueBroadcast) 2
    [MSubscribe "a"; MPublish "a" (pub_of 0); MPublish "a" (pub_of 1); MNext 0]) as H.
  fold st in H. destruct st as [b gs]. eapply Forall_impl; [exact H|].
  intros g (m & q & H1 & _ & _ & H2). exists m, q. split; [exact H1|exact H2].
Defined.

Lemma memory_broker_keeps_up_witness :
  (drain 3 (mk_MemStream 0 0 "room")
     (publish_all "room" [pub_of 0; pub_of 1] (mb_subscribe "room" (mb_run (B:=QueueBroadcast) 2 []).1).2)).1
  = [Ready (Some (pub_of 0)); Ready (Some (pub_of 1)); Pending].
Proof.
  exact (memory_broker_keeps_up (B:=QueueBroadcast) 2 [] "room" [pub_of 0; pub_of 1]
           ltac:(vm_compute; discriminate)).
Defined.

Lemma publish_reaps_idle_topic_witness :
  let b := (mb_run (B:=QueueBroadcast) 2 [MSubscribe "a"; MSubscribe "b"; MDrop 0]).1 in
  (mb_publish "a" (pub_of 0) b).2.(topics) = {["b" := 1%N]}.
Proof.
  destruct (publish_reaps_idle_topic (B:=QueueBroadcast) 2
              [MSubscribe "a"; MSubscribe "b"; MDrop 0] "a" (pub_of 0) 0 eq_refl)
    as [[_ [r [v Hv]]]|[H _]].
  - exfalso. vm_compute in Hv. destruct r; discriminate.
  - exact H.
Defined.

(** A subscriber that is two publications late on a queue of two gets a lag of one
    counted and the two newest publications. *)
Example lag_is_counted :
  let '(b, gs) := mb_run (B:=QueueBroadcast) 2
    [MSubscribe "a"; MPublish "a" (pub_of 0); MPublish "b" (pub_of 9); MPublish "a" (pub_of 1);
     MPublish "a" (pub_of 2); MNext 0; MNext 0; MNext 0] in
  g_received <$> gs = [[pub_of 1; pub_of 2]] ∧ dropped_on b "a" = 1%N.
Proof. by vm_compute. Qed.
