(* ===== verification/BrokerRace.v ===== *)
(** * The in-process broker from several threads

    [MemoryBroker] is shared by all tasks of a multi-threaded runtime, and its
    operations are sequences of accesses to a concurrent map and to channels
    (crates/cherenkov-broker/src/lib.rs, [sender_for], [subscribe], [publish]).  An
    operation is a thread here, with one turn per access; uninterrupted it is the
    operation of MemoryBroker.v. *)
From S2P Require Import Prelude Protocol Traits MemoryBroker BrokerProps.

Section threads.
Context {B : Broadcast}.

(** Where an operation stands: [SubGet] before [topics.get], [SubEntry] before
    [topics.entry], [SubReceive] holding a sender before [sender.subscribe]; [PubGet]
    before [topics.get], [PubSend] holding a sender before [send], [PubReap] before
    [topics.remove_if]; [Dropping] before a stream is dropped. *)
Inductive thread : Type :=
| SubGet (topic : string)
| SubEntry (topic : string)
| SubReceive (topic : string) (sender : N)
| Subscribed (s : MemStream)
| PubGet (topic : string) (p : Publication)
| PubSend (topic : string) (p : Publication) (sender : N)
| PubReap (topic : string)
| Published
| Dropping (s : MemStream)
| Dropped.

(** [remove_if(topic, |_, s| s.receiver_count() == 0)]. *)
Definition remove_if (topic : string) (self : MemoryBroker) : MemoryBroker :=
  match self.(topics) !! topic with
  | Some id =>
      match self.(chans) !! id with
      | Some c => if decide (bc_receiver_count c = 0%N)
                  then mk_MemoryBroker self.(capacity) (delete topic self.(topics))
                         self.(chans) self.(next_chan) self.(dropped_total)
                  else self
      | None => self
      end
  | None => self
  end.

Definition thread_turn (th : thread) (b : MemoryBroker) : thread * MemoryBroker :=
  match th with
  | SubGet t => (match b.(topics) !! t with Some id => SubReceive t id | None => SubEntry t end, b)
  | SubEntry t => let '(id, b) := sender_for t b in (SubReceive t id, b)
  | SubReceive t id =>
      match b.(chans) !! id with
      | Some c => let '(r, c) := bc_subscribe c in
                  (Subscribed (mk_MemStream id r t), set_chan b id c)
      | None => (Subscribed (mk_MemStream id 0 t), b)
      end
  | PubGet t p => (match b.(topics) !! t with Some id => PubSend t p id | None => Published end, b)
  | PubSend t p id =>
      match b.(chans) !! id with
      | Some c => let '(sent, c) := bc_send p c in
                  (if sent : bool then Published else PubReap t, set_chan b id c)
      | None => (PubReap t, b)
      end
  | PubReap t => (Published, remove_if t b)
  | Dropping s => (Dropped, mb_drop s b)
  | Subscribed _ | Published | Dropped => (th, b)
  end.

(** ** Schedules *)

(** What the turn of a thread sends: thread, channel, publication. *)
Definition turn_sends (i : nat) (th : thread) : list (nat * N * Publication) :=
  match th with PubSend _ p id => [(i, id, p)] | _ => [] end.

Definition pool_turn (i : nat) (x : list thread * MemoryBroker) : list thread * MemoryBroker :=
  match x.1 !! i with
  | Some th => (<[i := (thread_turn th x.2).1]> x.1, (thread_turn th x.2).2)
  | None => x
  end.

Fixpoint run_schedule (sched : list nat) (x : list thread * MemoryBroker) :
    list (nat * N * Publication) * (list thread * MemoryBroker) :=
  match sched with
  | [] => ([], x)
  | i :: sched =>
      let '(log, y) := run_schedule sched (pool_turn i x) in
      (match x.1 !! i with Some th => turn_sends i th | None => [] end ++ log, y)
  end.

(** An operation that has not begun. *)
Definition idle (th : thread) : Prop :=
  match th with SubGet _ | PubGet _ _ | Dropping _ => True | _ => False end.

(** ** Alone, a thread runs its operation *)

Context {L : BroadcastLaws B}.

Lemma subscribe_alone t b :
  broker_wf b →
  let '(th, b') := thread_turn (SubGet t) b in
  let '(th, b') := thread_turn th b' in
  let '(th, b') := thread_turn th b' in
  ∃ s, th = Subscribed s ∧ mb_subscribe t b = (Ok s, b').
Proof.
  intros Hwf. unfold mb_subscribe. simpl. destruct (topics b !! t) as [id|] eqn:Ht.
  - unfold sender_for. rewrite Ht. destruct (wf_topic _ Hwf _ _ Ht) as [c Hc]. simpl. rewrite Hc.
    destruct (bc_subscribe c) as [r c']. simpl. eauto.
  - unfold thread_turn at 1.
    destruct (sender_for_spec t b Hwf) as (id & b1 & c & Hs & _ & _ & Hc & _). rewrite Hs. simpl.
    rewrite Hc. destruct (bc_subscribe c) as [r c']. eauto.
Qed.

Lemma publish_alone t p b :
  broker_wf b →
  let '(th, b') := thread_turn (PubGet t p) b in
  let '(th, b') := thread_turn th b' in
  let '(th, b') := thread_turn th b' in
  th = Published ∧ mb_publish t p b = (Ok (), b').
Proof.
  intros Hwf. unfold mb_publish. simpl. destruct (topics b !! t) as [id|] eqn:Ht; [|done].
  destruct (wf_topic _ Hwf _ _ Ht) as [c Hc]. simpl. rewrite Hc.
  destruct (bc_send p c) as [[|] c']; [done|]. simpl. split; [done|].
  unfold remove_if. simpl. rewrite Ht, lookup_insert_eq. by case_decide.
Qed.

(** ** What a turn does to a live stream *)

Variable s : MemStream.

(** The stream, with what it has still to see and the depth of its queue. *)
Definition watching (cap : N) (v : slot) (b : MemoryBroker) : Prop :=
  broker_wf b ∧ b.(topics) !! s.(topic_label) = Some s.(ms_chan) ∧
  ∃ c, b.(chans) !! s.(ms_chan) = Some c ∧ bc_capacity c = cap ∧ bc_view c !! s.(ms_rcv) = Some v.

Lemma watching_live cap v b : watching cap v b → live b s ∧ stream_slot b s = Some v.
Proof.
  intros (_ & Ht & c & Hc & _ & Hv). assert (stream_slot b s = Some v) as Hs
    by (unfold stream_slot; by rewrite Hc). split; [split; [done|by rewrite Hs]|done].
Qed.

Lemma live_watching b : broker_wf b → live b s →
  ∃ cap v, watching cap v b ∧ stream_slot b s = Some v ∧ (b.(capacity) ≤ cap)%N.
Proof.
  intros Hwf [Ht [v Hv]]. unfold stream_slot in Hv.
  destruct (chans b !! ms_chan s) as [c|] eqn:Hc; [|done]. simpl in Hv.
  exists (bc_capacity c), v. split; [split; [done|]; eauto|].
  split; [unfold stream_slot; by rewrite Hc|by eapply wf_chan_cap].
Qed.

(** What a thread may hold: senders of allocated channels, the channel of [s] only
    for its own topic; and nobody else drops [s]. *)
Definition thread_ok (b : MemoryBroker) (th : thread) : Prop :=
  match th with
  | SubReceive t id | PubSend t _ id => is_Some (b.(chans) !! id)
  | Dropping s' => ¬ same_receiver s s'
  | _ => True
  end.

(** Channels are never deallocated under a sender. *)
Definition grows (b b' : MemoryBroker) : Prop :=
  ∀ id, is_Some (b.(chans) !! id) → is_Some (b'.(chans) !! id).

Lemma thread_ok_grows b b' th : grows b b' → thread_ok b th → thread_ok b' th.
Proof. intros H. destruct th; simpl; auto. Qed.

Lemma grows_refl b : grows b b.
Proof. by intros id Hid. Qed.
#[local] Hint Resolve grows_refl : core.

Lemma grows_set_chan b id c : grows b (set_chan b id c).
Proof.
  intros id' Hid. simpl. destruct (decide (id' = id)) as [->|].
  - rewrite lookup_insert_eq. eauto.
  - by rewrite lookup_insert_ne.
Qed.

(** What the send of a thread adds to the stream. *)
Definition receives (cap : N) (sends : list (nat * N * Publication)) (v : slot) : slot :=
  foldl (λ v '(_, id, p), if decide (id = s.(ms_chan)) then deliver_slot cap p v else v) v sends.

Lemma watching_set_chan cap v v' b id c c' :
  watching cap v b → b.(chans) !! id = Some c → bc_capacity c' = bc_capacity c →
  (id = s.(ms_chan) → bc_view c' !! s.(ms_rcv) = Some v') → (id ≠ s.(ms_chan) → v' = v) →
  watching cap v' (set_chan b id c').
Proof.
  intros (Hwf & Ht & c0 & Hc0 & Hcap & Hv) Hc Hc' Hview Hother.
  split; [by eapply broker_wf_set_chan|]. split; [done|]. simpl.
  destruct (decide (id = s.(ms_chan))) as [->|Hne].
  - exists c'. rewrite lookup_insert_eq. split; [done|]. split; [congruence|auto].
  - exists c0. rewrite lookup_insert_ne by done. rewrite Hother by done. done.
Qed.

Lemma thread_turn_watching cap v b th i :
  watching cap v b → thread_ok b th →
  let '(th', b') := thread_turn th b in
  watching cap (receives cap (turn_sends i th) v) b' ∧ grows b b' ∧ thread_ok b' th'.
Proof.
  intros Hw Hok. pose proof Hw as (Hwf & Ht & c0 & Hc0 & Hcap & Hv).
  destruct th as [t|t|t id|s'|t p|t p id|t| |s'|]; cbn [thread_turn turn_sends receives foldl].
  - split; [done|]. split; [done|]. destruct (topics b !! t) eqn:E; simpl; [|done].
    by eapply wf_topic.
  - destruct (sender_for_spec t b Hwf)
      as (id & b' & c & Hs & Hwf' & Ht' & Hc & Hmono & Hslot & _ & _ & _). rewrite Hs.
    assert (stream_slot b s = Some v) as Hsv by (unfold stream_slot; by rewrite Hc0).
    unfold sender_for in Hs. destruct (topics b !! t) as [id'|] eqn:E.
    + injection Hs as <- <-. split; [done|]. split; [done|]. simpl. by rewrite Hc.
    + injection Hs as <- <-. split; [|split].
      * split; [done|]. split; [by apply Hmono|]. simpl. exists c0.
        rewrite lookup_insert_ne; [done|]. intros Heq. apply (wf_fresh _ Hwf) in Hc0. lia.
      * intros id' Hid. simpl. destruct (decide (id' = next_chan b)) as [->|];
          [rewrite lookup_insert_eq; eauto|by rewrite lookup_insert_ne].
      * simpl. rewrite lookup_insert_eq. eauto.
  - destruct Hok as [c Hc]. rewrite Hc. destruct (bc_subscribe c) as [r c'] eqn:E.
    apply bc_subscribe_view in E as (Hr & Hv' & Hcap'). split; [|split; [apply grows_set_chan|done]].
    eapply watching_set_chan; [exact Hw|exact Hc|done| |done]. intros ->. rewrite Hv'.
    assert (c0 = c) as -> by congruence. rewrite lookup_insert_ne by congruence. done.
  - done.
  - split; [done|]. split; [done|]. destruct (topics b !! t) eqn:E; simpl; [|done].
    by eapply wf_topic.
  - destruct Hok as [c Hc]. rewrite Hc. destruct (decide (bc_view c = ∅)) as [He|Hne].
    + rewrite bc_send_none by done. cbn [receives foldl]. rewrite decide_False.
      2:{ intros ->. assert (c0 = c) as -> by congruence. by rewrite He, lookup_empty in Hv. }
      split; [|split; [apply grows_set_chan|done]].
      eapply watching_set_chan; [exact Hw|exact Hc|done| |done]. intros ->. congruence.
    + destruct (bc_send_some p c Hne) as (c' & -> & Hv' & Hcap').
      split; [|split; [apply grows_set_chan|done]]. cbn [receives foldl].
      eapply watching_set_chan; [exact Hw|exact Hc|done| |intros Hid; by rewrite decide_False].
      intros ->. assert (c0 = c) as -> by congruence. rewrite decide_True by done.
      by rewrite Hv', lookup_fmap, Hv, Hcap.
  - unfold remove_if. split; [|split; [|done]].
    2:{ destruct (topics b !! t); [|done]. destruct (chans b !! n); [|done].
        case_decide; [by intros id Hid|done]. }
    destruct (topics b !! t) as [id|] eqn:E; [|done].
    destruct (chans b !! id) as [c|] eqn:Hc; [|done]. case_decide as Hcount; [|done].
    split; [by apply broker_wf_reap|]. simpl. split; [|eauto].
    rewrite lookup_delete_ne; [done|]. intros ->. assert (id = s.(ms_chan)) as -> by congruence.
    assert (c0 = c) as -> by congruence. rewrite bc_receiver_count_view in Hcount.
    assert (size (bc_view c) = 0) as Hz by lia. apply map_size_empty_inv in Hz.
    by rewrite Hz, lookup_empty in Hv.
  - done.
  - unfold mb_drop. destruct (chans b !! ms_chan s') as [c|] eqn:Hc; [|done].
    destruct (bc_drop_view s'.(ms_rcv) c) as [Hv' Hcap'].
    split; [|split; [apply grows_set_chan|done]].
    eapply watching_set_chan; [exact Hw|exact Hc|done| |done]. intros Hid. rewrite Hv'.
    assert (c0 = c) as -> by congruence. rewrite lookup_delete_ne; [done|].
    intros Hr. apply Hok. by split.
  - done.
Qed.

(** ** What a schedule does to a live stream *)

Lemma pool_turn_watching cap v i pool b :
  watching cap v b → Forall (thread_ok b) pool →
  let '(pool', b') := pool_turn i (pool, b) in
  watching cap (receives cap (match pool !! i with Some th => turn_sends i th | None => [] end) v) b' ∧
  Forall (thread_ok b') pool'.
Proof.
  intros Hw Hok. unfold pool_turn. simpl. destruct (pool !! i) as [th|] eqn:Hi; [|done].
  pose proof (thread_turn_watching cap v b th i Hw (Forall_lookup_1 _ _ _ _ Hok Hi)) as H.
  destruct (thread_turn th b) as [th' b']. simpl. destruct H as (H1 & H2 & H3). split; [done|].
  apply Forall_insert; [|done]. eapply Forall_impl; [exact Hok|]. intros th2.
  by apply thread_ok_grows.
Qed.

Lemma receives_app cap l1 l2 v : receives cap (l1 ++ l2) v = receives cap l2 (receives cap l1 v).
Proof. apply foldl_app. Qed.

Lemma run_watching sched cap v pool b :
  watching cap v b → Forall (thread_ok b) pool →
  let '(log, (pool', b')) := run_schedule sched (pool, b) in
  watching cap (receives cap log v) b' ∧ Forall (thread_ok b') pool'.
Proof.
  revert v pool b. induction sched as [|i sched IH]; intros v pool b Hw Hok; [done|].
  cbn [run_schedule]. pose proof (pool_turn_watching cap v i pool b Hw Hok) as H.
  destruct (pool_turn i (pool, b)) as [pool1 b1]. destruct H as [Hw1 Hok1].
  specialize (IH _ _ _ Hw1 Hok1). destruct (run_schedule sched (pool1, b1)) as [log [pool2 b2]].
  by rewrite receives_app.
Qed.

(** ** Each publish is sent once *)

(** What thread [i] sent on the stream's channel. *)
Definition hits (i : nat) (log : list (nat * N * Publication)) : list Publication :=
  snd <$> filter (λ e, e.1 = (i, s.(ms_chan))) log.

(** What it has still to send there. *)
Definition owed (th : thread) : list Publication :=
  match th with
  | PubGet t p => if decide (t = s.(topic_label)) then [p] else []
  | PubSend _ p id => if decide (id = s.(ms_chan)) then [p] else []
  | _ => []
  end.

Lemma hits_app i l1 l2 : hits i (l1 ++ l2) = hits i l1 ++ hits i l2.
Proof. unfold hits. by rewrite filter_app, fmap_app. Qed.

Lemma hits_turn i j th :
  hits i (turn_sends j th)
  = match th with
    | PubSend _ p id => if decide (j = i ∧ id = s.(ms_chan)) then [p] else []
    | _ => []
    end.
Proof.
  destruct th; try done. unfold hits. simpl. rewrite filter_cons, filter_nil. simpl.
  case_decide as H1; case_decide as H2; try done; exfalso; naive_solver.
Qed.

Lemma owed_turn cap v b th i :
  watching cap v b → hits i (turn_sends i th) ++ owed (thread_turn th b).1 = owed th.
Proof.
  intros (Hwf & Ht & _). rewrite hits_turn.
  destruct th as [t|t|t id|s'|t p|t p id|t| |s'|]; cbn [thread_turn fst owed app]; try done.
  - by destruct (topics b !! t).
  - by destruct (sender_for t b).
  - destruct (chans b !! id) as [c|]; [|done]. by destruct (bc_subscribe c).
  - destruct (decide (t = topic_label s)) as [->|Hne].
    + rewrite Ht. simpl. by rewrite decide_True.
    + destruct (topics b !! t) as [id|] eqn:E; [|done]. simpl. rewrite decide_False; [done|].
      intros ->. apply Hne. by eapply wf_inj.
  - assert (owed (match chans b !! id with
      | Some c => let '(sent, c') := bc_send p c in
                  (if sent : bool then Published else PubReap t, set_chan b id c')
      | None => (PubReap t, b) end).1 = []) as ->.
    { destruct (chans b !! id) as [c|]; [|done]. by destruct (bc_send p c) as [[] c']. }
    rewrite app_nil_r. case_decide as H1; case_decide; naive_solver.
Qed.

Lemma run_owed sched cap v pool b i th :
  watching cap v b → Forall (thread_ok b) pool → pool !! i = Some th →
  let '(log, (pool', b')) := run_schedule sched (pool, b) in
  ∃ th', pool' !! i = Some th' ∧ hits i log ++ owed th' = owed th.
Proof.
  revert v pool b th. induction sched as [|j sched IH]; intros v pool b th Hw Hok Hi; [by exists th|].
  cbn [run_schedule fst]. pose proof (pool_turn_watching cap v j pool b Hw Hok) as H.
  destruct (pool_turn j (pool, b)) as [pool1 b1] eqn:Hturn. destruct H as [Hw1 Hok1].
  assert (∃ th1, pool1 !! i = Some th1 ∧
    hits i (match pool !! j with Some th => turn_sends j th | None => [] end) ++ owed th1 = owed th)
    as (th1 & Hi1 & Howed).
  { unfold pool_turn in Hturn. simpl in Hturn. destruct (pool !! j) as [thj|] eqn:Hj.
    - injection Hturn as <- _. destruct (decide (j = i)) as [->|Hne].
      + assert (thj = th) as -> by congruence. exists (thread_turn th b).1.
        split; [apply list_lookup_insert_eq; by apply lookup_lt_Some in Hj|by eapply owed_turn].
      + exists th. split; [by rewrite list_lookup_insert_ne|]. rewrite hits_turn.
        destruct thj; try done. by rewrite decide_False by naive_solver.
    - injection Hturn as <- _. by exists th. }
  specialize (IH _ _ _ _ Hw1 Hok1 Hi1).
  destruct (run_schedule sched (pool1, b1)) as [log [pool2 b2]].
  destruct IH as (th' & Hi' & Howed'). exists th'. split; [done|].
  by rewrite hits_app, <-app_assoc, Howed'.
Qed.

(** ** A stream no topic leads to *)

Definition orphan (v : slot) (b : MemoryBroker) : Prop :=
  broker_wf b ∧ (∀ t, b.(topics) !! t ≠ Some s.(ms_chan)) ∧
  ∃ c, b.(chans) !! s.(ms_chan) = Some c ∧ bc_view c !! s.(ms_rcv) = Some v.

(** A thread that has nothing to do with it. *)
Definition thread_strange (b : MemoryBroker) (th : thread) : Prop :=
  thread_ok b th ∧
  match th with SubReceive _ id | PubSend _ _ id => id ≠ s.(ms_chan) | _ => True end.

Lemma orphan_set_chan v b id c c' :
  orphan v b → b.(chans) !! id = Some c → bc_capacity c' = bc_capacity c → id ≠ s.(ms_chan) →
  orphan v (set_chan b id c').
Proof.
  intros (Hwf & Hno & c0 & Hc0 & Hv) Hc Hcap Hne. split; [by eapply broker_wf_set_chan|].
  split; [done|]. exists c0. simpl. by rewrite lookup_insert_ne.
Qed.

Lemma thread_turn_orphan v b th :
  orphan v b → thread_strange b th →
  let '(th', b') := thread_turn th b in
  orphan v b' ∧ grows b b' ∧ thread_strange b' th'.
Proof.
  intros Ho [Hok Hst]. pose proof Ho as (Hwf & Hno & c0 & Hc0 & Hv).
  destruct th as [t|t|t id|s'|t p|t p id|t| |s'|]; cbn [thread_turn].
  - split; [done|]. split; [done|]. destruct (topics b !! t) eqn:E; [|done].
    split; [by eapply wf_topic|]. intros ->. by eapply Hno.
  - destruct (sender_for_spec t b Hwf)
      as (id & b' & c & Hs & Hwf' & Ht' & Hc & Hmono & _ & _ & _ & _). rewrite Hs.
    unfold sender_for in Hs. destruct (topics b !! t) as [id'|] eqn:E.
    + injection Hs as <- <-. split; [done|]. split; [done|]. split; [simpl; by rewrite Hc|].
      intros ->. by eapply Hno.
    + injection Hs as <- <-.
      assert (next_chan b ≠ s.(ms_chan)) as Hfresh
        by (intros Heq; apply (wf_fresh _ Hwf) in Hc0; lia).
      split; [|split].
      * split; [done|]. split.
        { intros t'. simpl. rewrite lookup_insert_Some. intros [[_ ?]|[_ ?]]; [done|by eapply Hno]. }
        exists c0. simpl. by rewrite lookup_insert_ne.
      * intros id' Hid. simpl. destruct (decide (id' = next_chan b)) as [->|];
          [rewrite lookup_insert_eq; eauto|by rewrite lookup_insert_ne].
      * split; [|done]. simpl. rewrite lookup_insert_eq. eauto.
  - destruct Hok as [c Hc]. rewrite Hc. destruct (bc_subscribe c) as [r c'] eqn:E.
    apply bc_subscribe_view in E as (_ & _ & Hcap').
    split; [by eapply orphan_set_chan|]. split; [apply grows_set_chan|by split].
  - by split_and!.
  - split; [done|]. split; [done|]. destruct (topics b !! t) eqn:E; [|by split].
    split; [by eapply wf_topic|]. intros ->. by eapply Hno.
  - destruct Hok as [c Hc]. rewrite Hc. destruct (bc_send p c) as [sent c'] eqn:E.
    assert (bc_capacity c' = bc_capacity c) as Hcap'.
    { destruct (decide (bc_view c = ∅)) as [He|Hne].
      - rewrite bc_send_none in E by done. by injection E as _ <-.
      - destruct (bc_send_some p c Hne) as (c2 & Hs & _ & ?). congruence. }
    split; [by eapply orphan_set_chan|]. split; [apply grows_set_chan|by destruct sent].
  - unfold remove_if. destruct (topics b !! t) as [id|] eqn:E; [|by split_and!].
    destruct (chans b !! id) as [c|] eqn:Hc; [|by split_and!]. case_decide; [|by split_and!].
    split; [|by split; [intros ? ?|]]. split; [by apply broker_wf_reap|]. split; [|by exists c0].
    intros t'. simpl. rewrite lookup_delete_Some. intros [_ ?]. by eapply Hno.
  - by split_and!.
  - unfold mb_drop. destruct (chans b !! ms_chan s') as [c|] eqn:Hc; [|by split_and!].
    destruct (bc_drop_view s'.(ms_rcv) c) as [Hv' Hcap'].
    split; [|split; [apply grows_set_chan|by split]].
    split; [by eapply broker_wf_set_chan|]. split; [done|]. simpl.
    destruct (decide (s'.(ms_chan) = s.(ms_chan))) as [Heq|Hne].
    + rewrite Heq, lookup_insert_eq. eexists. split; [done|]. rewrite Hv'.
      assert (c0 = c) as -> by congruence. rewrite lookup_delete_ne; [done|].
      intros Hr. apply Hok. by split.
    + exists c0. by rewrite lookup_insert_ne.
  - by split_and!.
Qed.

Lemma run_orphan sched v pool b :
  orphan v b → Forall (thread_strange b) pool →
  let '(log, (pool', b')) := run_schedule sched (pool, b) in
  orphan v b' ∧ Forall (thread_strange b') pool'.
Proof.
  revert pool b. induction sched as [|i sched IH]; intros pool b Ho Hst; [done|].
  cbn [run_schedule]. unfold pool_turn at 1. simpl.
  destruct (pool !! i) as [th|] eqn:Hi.
  - pose proof (thread_turn_orphan v b th Ho (Forall_lookup_1 _ _ _ _ Hst Hi)) as H.
    destruct (thread_turn th b) as [th' b1]. simpl. destruct H as (H1 & H2 & H3).
    specialize (IH (<[i:=th']> pool) b1 H1).
    destruct (run_schedule sched (<[i:=th']> pool, b1)) as [log [pool2 b2]]. apply IH.
    apply Forall_insert; [|done]. eapply Forall_impl; [exact Hst|]. intros th2 [A1 A2].
    split; [by eapply thread_ok_grows|done].
  - specialize (IH pool b Ho Hst). by destruct (run_schedule sched (pool, b)) as [log [pool2 b2]].
Qed.

(** Operations that have not begun, none of which drops the stream. *)
Definition idle_around (th : thread) : Prop :=
  idle th ∧ ∀ s', th = Dropping s' → ¬ same_receiver s s'.

Lemma idle_strange b pool : Forall idle_around pool → Forall (thread_strange b) pool.
Proof.
  intros H. eapply Forall_impl; [exact H|]. intros th [Hi Hd].
  by destruct th; simpl in Hi; try done; split; simpl; auto.
Qed.

Lemma idle_ok b pool : Forall idle_around pool → Forall (thread_ok b) pool.
Proof. intros H. eapply Forall_impl; [by apply idle_strange|]. by intros th []. Qed.

(** C11: publishes and subscribes of several threads, interleaved access by access in
    any order, do a stream that is live no harm: it stays live, and what it has to
    see is what it had to see before, followed by what was sent on its channel in
    the order of the sends; every publish on its topic that has returned was sent
    to it exactly once, and no other publish was sent to it. *)
Theorem interleaved_broker (sched : list nat) (pool : list thread) (b : MemoryBroker)
    (Hwf : broker_wf b) (Hlive : live b s) (Hidle : Forall idle_around pool) :
  let '(log, (pool', b')) := run_schedule sched (pool, b) in
  broker_wf b' ∧ live b' s ∧
  (∃ cap, (b.(capacity) ≤ cap)%N ∧ stream_slot b' s = receives cap log <$> stream_slot b s) ∧
  (∀ i t p, pool !! i = Some (PubGet t p) → pool' !! i = Some Published →
     hits i log = if decide (t = s.(topic_label)) then [p] else []) ∧
  (∀ i p, p ∈ hits i log → pool !! i = Some (PubGet s.(topic_label) p)).
Proof.
  destruct (live_watching b Hwf Hlive) as (cap & v & Hw & Hv & Hcap).
  pose proof (idle_ok b pool Hidle) as Hok.
  pose proof (run_watching sched cap v pool b Hw Hok) as Hrun.
  assert (∀ i th, pool !! i = Some th → let '(log, (pool', b')) := run_schedule sched (pool, b) in
    ∃ th', pool' !! i = Some th' ∧ hits i log ++ owed th' = owed th) as Howed
    by (intros i th Hi; by eapply run_owed).
  assert (∀ sched' pool' b', let '(log, _) := run_schedule sched' (pool', b') in
    ∀ i, pool' !! i = None → hits i log = []) as Hnone.
  { clear. induction sched' as [|j sched' IH]; intros pool' b'; [done|]. cbn [run_schedule fst].
    unfold pool_turn at 1. simpl. destruct (pool' !! j) as [th|] eqn:Hj.
    - specialize (IH (<[j:=(thread_turn th b').1]> pool') (thread_turn th b').2).
      destruct (run_schedule sched' _) as [log y]. intros i Hi.
      rewrite hits_app, IH, app_nil_r; [|rewrite list_lookup_insert_ne; [done|congruence]].
      rewrite hits_turn. destruct th; try done. rewrite decide_False; [done|].
      intros [-> _]. congruence.
    - specialize (IH pool' b'). destruct (run_schedule sched' _) as [log y]. exact IH. }
  specialize (Hnone sched pool b).
  destruct (run_schedule sched (pool, b)) as [log [pool' b']]. destruct Hrun as [Hw' _].
  destruct (watching_live _ _ _ Hw') as [Hlive' Hslot'].
  split; [by destruct Hw'|]. split; [done|].
  split; [exists cap; split; [done|]; by rewrite Hslot', Hv|]. split.
  - intros i t p Hi Hi'. destruct (Howed i _ Hi) as (th' & Hth' & Ho).
    assert (th' = Published) as -> by congruence. by rewrite app_nil_r in Ho.
  - intros i p Hp. destruct (pool !! i) as [th|] eqn:Hi; [|rewrite (Hnone i Hi) in Hp; by apply elem_of_nil in Hp].
    destruct (Howed i _ Hi) as (th' & _ & Ho).
    assert (p ∈ owed th) as Hin by (rewrite <-Ho; apply elem_of_app; by left).
    destruct (Forall_lookup_1 _ _ _ _ Hidle Hi) as [Hid _].
    destruct th; simpl in Hid, Hin; try done; try (by apply elem_of_nil in Hin).
    case_decide; [|by apply elem_of_nil in Hin]. apply list_elem_of_singleton in Hin. by subst.
Qed.
End threads.

(** ** A reap between two accesses of a subscribe *)

Section reap.
Context {B : Broadcast} {L : BroadcastLaws B}.

(** The subscriber clones the sender; the publisher finds no receiver; the topic is
    reaped; the subscriber creates its receiver. *)
Definition reap_schedule : list nat := [0; 1; 1; 1; 0].

(** C30: a subscribe that is overtaken by the reaping of its topic succeeds, and the
    stream it returns is deaf: no topic leads to its channel, so that nothing
    published afterwards, by any operations in any order, ever reaches it.  The
    topic only has to be in the map without a receiver, as it is after its last
    subscriber has left. *)
Theorem reaped_subscription_is_deaf (b : MemoryBroker) (t : string) (id : N) (c : Chan)
    (p : Publication) (Hwf : broker_wf b) (Ht : b.(topics) !! t = Some id)
    (Hc : b.(chans) !! id = Some c) (Hempty : bc_view c = ∅) :
  ∃ s b', (run_schedule reap_schedule ([SubGet t; PubGet t p], b)).2 = ([Subscribed s; Published], b') ∧
    s.(topic_label) = t ∧ stream_slot b' s = Some (0%N, []) ∧ ¬ live b' s ∧
    ∀ sched pool, Forall (idle_around s) pool →
      let '(_, (_, b'')) := run_schedule sched (pool, b') in
      stream_slot b'' s = Some (0%N, []) ∧ ¬ live b'' s.
Proof.
  destruct (bc_subscribe c) as [r c'] eqn:Hsub.
  pose proof (bc_subscribe_view _ _ _ Hsub) as (_ & Hv & Hcap).
  set (b1 := set_chan b id c).
  set (b2 := mk_MemoryBroker b1.(capacity) (delete t b1.(topics)) b1.(chans) b1.(next_chan)
               b1.(dropped_total)).
  exists (mk_MemStream id r t), (set_chan b2 id c').
  assert (broker_wf b2) as Hwf2 by (apply broker_wf_reap; by eapply broker_wf_set_chan).
  assert (b2.(chans) !! id = Some c) as Hc2 by (simpl; by rewrite lookup_insert_eq).
  assert (orphan (mk_MemStream id r t) (0%N, []) (set_chan b2 id c')) as Ho.
  { split; [by eapply broker_wf_set_chan|]. split; simpl.
    - intros t'. rewrite lookup_delete_Some. intros [Hne Ht']. apply Hne.
      by eapply (wf_inj _ Hwf).
    - exists c'. rewrite lookup_insert_eq. split; [done|]. by rewrite Hv, lookup_insert_eq. }
  assert (∀ b0, orphan (mk_MemStream id r t) (0%N, []) b0 →
    stream_slot b0 (mk_MemStream id r t) = Some (0%N, []) ∧ ¬ live b0 (mk_MemStream id r t)) as Hdeaf.
  { intros b0 (_ & Hno & c0 & Hc0 & Hv0). split; [unfold stream_slot; simpl in *; by rewrite Hc0|].
    intros [Hl _]. by apply (Hno _ Hl). }
  split; [|split; [done|split; [by apply Hdeaf|split; [by apply Hdeaf|]]]].
  - unfold reap_schedule. cbn [run_schedule]. unfold pool_turn. simpl. rewrite Ht. simpl.
    rewrite Hc, bc_send_none by done. simpl. unfold remove_if. simpl.
    rewrite Ht, lookup_insert_eq, bc_receiver_count_view, Hempty, map_size_empty. simpl.
    rewrite lookup_insert_eq, Hsub. done.
  - intros sched pool Hidle.
    pose proof (run_orphan _ sched _ pool _ Ho (idle_strange _ _ _ Hidle)) as Hrun.
    destruct (run_schedule sched (pool, _)) as [log [pool' b'']]. apply Hdeaf, Hrun.
Qed.
End reap.

(** ** Witnesses *)

Section witnesses.
#[local] Existing Instances QueueBroadcast.

(** One subscriber of the lobby. *)
Definition lobby_broker : MemoryBroker := (mb_subscribe "lobby" (with_capacity 4)).2.
Definition lobby_stream : MemStream := mk_MemStream 0 0 "lobby".

(** Two publishes on the lobby, access by access in turns, and a subscribe. *)
Definition lobby_pool : list thread :=
  [PubGet "lobby" (mk_Publication "lobby" 1 []); PubGet "lobby" (mk_Publication "lobby" 2 []);
   SubGet "lobby"].
Definition lobby_schedule : list nat := [0; 1; 2; 1; 2; 0].

(** The subscriber has left: a topic without a receiver. *)
Definition left_broker : MemoryBroker := mb_drop lobby_stream lobby_broker.
End witnesses.

Lemma lobby_broker_wf : broker_wf lobby_broker.
Proof.
  destruct (mb_subscribe_spec "lobby" (with_capacity 4) (broker_wf_new 4)) as (s & b' & H & ? & _).
  unfold lobby_broker. by rewrite H.
Qed.

Lemma interleaved_broker_witness :
  stream_slot (run_schedule lobby_schedule (lobby_pool, lobby_broker)).2.2 lobby_stream
  = Some (0%N, [mk_Publication "lobby" 2 []; mk_Publication "lobby" 1 []]) ∧
  live (run_schedule lobby_schedule (lobby_pool, lobby_broker)).2.2 lobby_stream.
Proof.
  pose proof (interleaved_broker lobby_stream lobby_schedule lobby_pool lobby_broker
    lobby_broker_wf) as H.
  split; [vm_compute; reflexivity|].
  destruct (run_schedule lobby_schedule (lobby_pool, lobby_broker)) as [log [pool' b']].
  apply H; [split; [vm_compute; reflexivity|eexists; vm_compute; reflexivity]|].
  by repeat constructor.
Defined.

Lemma reaped_subscription_is_deaf_witness :
  ∃ s b', (run_schedule reap_schedule
             ([SubGet "lobby"; PubGet "lobby" (mk_Publication "lobby" 1 [])], left_broker)).2
          = ([Subscribed s; Published], b') ∧
    let '(_, (_, b'')) := run_schedule [0; 0; 0] ([PubGet "lobby" (mk_Publication "lobby" 2 [])], b') in
    stream_slot b'' s = Some (0%N, []).
Proof.
  destruct (reaped_subscription_is_deaf left_broker "lobby" 0 (mk_QueueChan 4 ∅)
    (mk_Publication "lobby" 1 [])) as (s & b' & H1 & _ & _ & _ & H2).
  - apply mb_drop_spec, lobby_broker_wf.
  - vm_compute. reflexivity.
  - vm_compute. reflexivity.
  - reflexivity.
  - exists s, b'. split; [exact H1|].
    specialize (H2 [0; 0; 0] [PubGet "lobby" (mk_Publication "lobby" 2 [])]).
    destruct (run_schedule [0; 0; 0] _) as [log [pool' b'']]. apply H2.
    repeat constructor; simpl; congruence.
Defined.
