(* ===== verification/Remote.v ===== *)
(** * The Redis and NATS brokers

    crates/cherenkov-broker-redis/src/lib.rs and
    crates/cherenkov-broker-nats/src/lib.rs.  The clients are the crates [fred]
    and [async_nats], parameters of the model; their connections are part of the
    memory [W].  What the program adds is the wire format and the filtering of
    what arrives. *)
From S2P Require Import Prelude Utf8 Protocol ProtoWire Traits.

(** ** [StreamExt::filter_map] over a closure that never waits

    Polls the inner stream until it is not ready, ends, or yields an item the
    closure keeps. *)
Fixpoint poll_filter_map {W A B} (fuel : nat) (next : W → Poll (option A) * W)
    (f : A → option B) (w : W) : Poll (option B) * W :=
  match fuel with
  | O => (Pending, w)
  | S fuel =>
      match next w with
      | (Pending, w) => (Pending, w)
      | (Ready None, w) => (Ready None, w)
      | (Ready (Some a), w) =>
          match f a with
          | Some b => (Ready (Some b), w)
          | None => poll_filter_map fuel next f w
          end
      end
  end.

(** Polling [n] times. *)
Fixpoint polls {W B} (n : nat) (next : W → Poll (option B) * W) (w : W) : list (Poll (option B)) :=
  match n with
  | O => []
  | S n => let '(r, w) := next w in r :: polls n next w
  end.

(** Nothing to give, now or ever. *)
Definition idle {A} (r : Poll (option A)) : Prop := r = Pending ∨ r = Ready None.

(** A source of items: what it has queued, item by item; then it waits or ends. *)
Record queue_source {W A} (next : W → Poll (option A) * W) (queue : W → list A) : Prop := {
  qs_empty w : queue w = [] → idle (next w).1 ∧ queue (next w).2 = [];
  qs_item w a q : queue w = a :: q → ∃ w', next w = (Ready (Some a), w') ∧ queue w' = q;
}.

Section filter_map.
Context {W A B : Type} {next : W → Poll (option A) * W} {queue : W → list A}.
Context (f : A → option B) (Q : queue_source next queue).

(** What the source says once everything queued was taken. *)
Definition drained (w : W) : Poll (option A) :=
  (next (Nat.iter (length (queue w)) (λ w, (next w).2) w)).1.

Definition at_end (r : Poll (option A)) : Poll (option B) :=
  match r with Pending => Pending | Ready _ => Ready None end.

Lemma drained_item w a q w' :
  queue w = a :: q → next w = (Ready (Some a), w') → queue w' = q → drained w' = drained w.
Proof.
  intros Hq Hn <-. unfold drained. rewrite Hq. cbn [length]. rewrite Nat.iter_succ_r, Hn. done.
Qed.

Lemma poll_filter_map_skip fuel w :
  length (queue w) < fuel →
  match omap f (queue w) with
  | [] => (poll_filter_map fuel next f w).1 = at_end (drained w)
  | b :: bs => ∃ w', poll_filter_map fuel next f w = (Ready (Some b), w') ∧
                     omap f (queue w') = bs ∧ drained w' = drained w
  end.
Proof.
  revert w. induction fuel as [|fuel IH]; intros w Hf; [lia|]. simpl.
  destruct (queue w) as [|a q] eqn:Hq.
  - unfold drained. rewrite Hq. simpl. destruct (qs_empty _ _ Q w Hq) as [[Hi|Hi] _];
      destruct (next w) as [r w']; simpl in *; by subst r.
  - destruct (qs_item _ _ Q w a q Hq) as (w' & Hn & Hq'). rewrite Hn. simpl in *.
    pose proof (drained_item _ _ _ _ Hq Hn Hq') as Hd. destruct (f a) as [b|].
    + exists w'. by rewrite Hq'.
    + specialize (IH w'). rewrite Hq', Hd in IH. specialize (IH ltac:(lia)).
      change (list_omap A B f q) with (omap f q). by destruct (omap f q).
Qed.

(** With fuel for the whole queue, polling yields the kept items, and then the
    stream does what its source does. *)
Lemma polls_filter_map (fuel : W → nat) w :
  (∀ w', length (queue w') < fuel w') →
  polls (S (length (omap f (queue w)))) (λ w, poll_filter_map (fuel w) next f w) w
  = ((λ b, Ready (Some b)) <$> omap f (queue w)) ++ [at_end (drained w)].
Proof.
  intros Hf. remember (omap f (queue w)) as bs eqn:Hbs. revert w Hbs.
  induction bs as [|b bs IH]; intros w Hbs; cbn [polls length fmap list_fmap app];
    pose proof (poll_filter_map_skip (fuel w) w (Hf w)) as H; rewrite <-Hbs in H.
  - destruct (poll_filter_map _ _ _ w) as [r w']. simpl in H. by subst r.
  - destruct H as (w' & -> & Hq & <-). f_equal. by apply IH.
Qed.
End filter_map.

(** ** Redis *)

Inductive FredValue : Type :=
| ValueBytes (b : Bytes)
| ValueString (s : string)
| ValueOther.

Record Message : Type := mk_Message { msg_channel : string; msg_value : FredValue }.

(** [message_rx] is a broadcast receiver: it yields messages or a lag notice.
    [rx_len] is [Receiver::len], the number of items queued. *)
Class Fred (W : Type) : Type := {
  FredConfig : Type;
  from_url : string → result string FredConfig;
  Client : Type;
  SubscriberClient : Type;
  build_client : FredConfig → result string Client;
  build_subscriber_client : FredConfig → result string SubscriberClient;
  init_client : Client → io W string unit;
  init_subscriber : SubscriberClient → io W string unit;
  fred_subscribe : SubscriberClient → string → io W string unit;
  fred_publish : Client → string → Bytes → io W string N;
  Receiver : Type;
  message_rx : SubscriberClient → W → Receiver * W;
  rx_next : Receiver → W → Poll (option (result string Message)) * W;
  rx_len : Receiver → W → nat;
  rx_drop : Receiver → W → W;
}.

(** Redis Pub/Sub is best effort: [reaches] says that what the client publishes on
    the channel now gets to the receiver, whose connection has subscribed to it. *)
Class FredLaws {W} (F : Fred W) : Type := {
  rx_queue : Receiver → W → list (result string Message);
  reaches : Client → string → Receiver → W → Prop;
  fred_publish_reaches c channel b w n w' r :
    fred_publish c channel b w = (Ok n, w') → reaches c channel r w →
    rx_queue r w' = rx_queue r w ++ [Ok (mk_Message channel (ValueBytes b))];
  rx_len_queue r w : rx_len r w = length (rx_queue r w);
  rx_source r : queue_source (rx_next r) (rx_queue r);
}.

Section redis.
Context {W : Type} `{F : !Fred W} `{C : ProstCodec}.

Record RedisBrokerConfig : Type := mk_RedisBrokerConfig { redis_config_url : string }.

Record RedisBroker : Type := mk_RedisBroker {
  publisher : Client;
  subscriber : SubscriberClient;
}.

(** [map_err(|e| BrokerError::Other(format!(..)))]. *)
Definition other_error (what : string) (e : string) : BrokerError :=
  BrokerOther (what +:+ ": " +:+ e).

Definition redis_connect (config : RedisBrokerConfig) : io W BrokerError RedisBroker :=
  let! cfg := io_map_err (other_error "redis url")
                (io_of_result (from_url config.(redis_config_url))) in
  let! publisher := io_map_err (other_error "redis publisher build")
                      (io_of_result (build_client cfg)) in
  io_map_err (other_error "redis publisher init") (init_client publisher) ;;
  let! subscriber := io_map_err (other_error "redis subscriber build")
                       (io_of_result (build_subscriber_client cfg)) in
  io_map_err (other_error "redis subscriber init") (init_subscriber subscriber) ;;
  io_ret (mk_RedisBroker publisher subscriber).

(** The closure of the [filter_map]. *)
Definition redis_item (topic_label : string) (msg : result string Message) :
    option Publication :=
  match msg with
  | Err _ => None
  | Ok msg =>
      if decide (msg.(msg_channel) ≠ topic_label) then None else
      let decode bytes := match decode_publication bytes with Ok p => Some p | Err _ => None end in
      match msg.(msg_value) with
      | ValueBytes b => decode b
      | ValueString s => decode (bytes_of_string s)
      | ValueOther => None
      end
  end.

Record RedisStream : Type := mk_RedisStream { rs_topic : string; rs_receiver : Receiver }.

Definition redis_subscribe (self : RedisBroker) (topic : string) :
    io W BrokerError RedisStream :=
  io_map_err (other_error "redis SUBSCRIBE") (fred_subscribe self.(subscriber) topic) ;;
  let! receiver := λ w, let '(r, w) := message_rx self.(subscriber) w in (Ok r, w) in
  io_ret (mk_RedisStream topic receiver).

Definition redis_next (s : RedisStream) (w : W) : Poll (option Publication) * W :=
  poll_filter_map (S (rx_len s.(rs_receiver) w)) (rx_next s.(rs_receiver))
    (redis_item s.(rs_topic)) w.

Definition redis_publish (self : RedisBroker) (topic : string) (publication : Publication) :
    io W BrokerError unit :=
  let bytes := encode_publication publication in
  io_map_err (other_error "redis PUBLISH") (fred_publish self.(publisher) topic bytes) ;;
  io_ret ().

Definition redis_broker (self : RedisBroker) : Broker W RedisStream := {|
  broker_name := "redis";
  broker_subscribe := redis_subscribe self;
  broker_publish := redis_publish self;
  stream_next := redis_next;
  stream_drop s := rx_drop s.(rs_receiver);
|}.
End redis.

(** ** NATS *)

(** [sub_len] is the number of messages received and not yet polled. *)
Class AsyncNats (W : Type) : Type := {
  NatsClient : Type;
  nats_client_connect : string → io W string NatsClient;
  Subscriber : Type;
  nats_client_subscribe : NatsClient → string → io W string Subscriber;
  nats_client_publish : NatsClient → string → Bytes → io W string unit;
  sub_next : Subscriber → W → Poll (option Bytes) * W;
  sub_len : Subscriber → W → nat;
  sub_drop : Subscriber → W → W;
}.

Class AsyncNatsLaws {W} (AN : AsyncNats W) : Type := {
  sub_queue : Subscriber → W → list Bytes;
  nats_reaches : NatsClient → string → Subscriber → W → Prop;
  nats_publish_reaches c subject b w w' s :
    nats_client_publish c subject b w = (Ok (), w') → nats_reaches c subject s w →
    sub_queue s w' = sub_queue s w ++ [b];
  sub_len_queue s w : sub_len s w = length (sub_queue s w);
  sub_source s : queue_source (sub_next s) (sub_queue s);
}.

Section nats.
Context {W : Type} `{AN : !AsyncNats W} `{C : ProstCodec}.

Record NatsBrokerConfig : Type := mk_NatsBrokerConfig { nats_config_url : string }.
Record NatsBroker : Type := mk_NatsBroker { client : NatsClient }.

Definition nats_connect (config : NatsBrokerConfig) : io W BrokerError NatsBroker :=
  let! client := io_map_err (other_error "nats connect")
                   (nats_client_connect config.(nats_config_url)) in
  io_ret (mk_NatsBroker client).

(** The closure of the [filter_map], on the payload of a message. *)
Definition nats_item (payload : Bytes) : option Publication :=
  match decode_publication payload with Ok p => Some p | Err _ => None end.

Definition nats_subscribe (self : NatsBroker) (topic : string) : io W BrokerError Subscriber :=
  io_map_err (other_error "nats SUB") (nats_client_subscribe self.(client) topic).

Definition nats_next (s : Subscriber) (w : W) : Poll (option Publication) * W :=
  poll_filter_map (S (sub_len s w)) (sub_next s) nats_item w.

Definition nats_publish (self : NatsBroker) (topic : string) (publication : Publication) :
    io W BrokerError unit :=
  let bytes := encode_publication publication in
  io_map_err (other_error "nats PUB") (nats_client_publish self.(client) topic bytes) ;;
  io_ret ().

Definition nats_broker (self : NatsBroker) : Broker W Subscriber := {|
  broker_name := "nats";
  broker_subscribe := nats_subscribe self;
  broker_publish := nats_publish self;
  stream_next := nats_next;
  stream_drop := sub_drop;
|}.
End nats.

Section properties.
Context {W : Type} `{F : !Fred W} {FL : FredLaws F} `{AN : !AsyncNats W} {NL : AsyncNatsLaws AN}.
Context {C : ProstCodec} {CL : ProstCodecLaws C}.

(** What a stream gives from now on: the publications that wait for it, then
    whatever its source does when it has nothing left, which is to wait or to end. *)
Definition gives {St Item} (next : St → W → Poll (option Publication) * W) (s : St)
    (source_next : W → Poll (option Item) * W) (source_queue : W → list Item)
    (ps : list Publication) (w : W) : Prop :=
  polls (S (length ps)) (next s) w
  = ((λ p, Ready (Some p)) <$> ps) ++ [at_end (drained (next:=source_next) (queue:=source_queue) w)].

Definition redis_gives (s : RedisStream) : list Publication → W → Prop :=
  gives redis_next s (rx_next s.(rs_receiver)) (rx_queue s.(rs_receiver)).
Definition nats_gives (s : Subscriber) : list Publication → W → Prop :=
  gives nats_next s (sub_next s) (sub_queue s).

(** The publications among what has arrived. *)
Definition redis_waiting (s : RedisStream) (w : W) : list Publication :=
  omap (redis_item s.(rs_topic)) (rx_queue s.(rs_receiver) w).
Definition nats_waiting (s : Subscriber) (w : W) : list Publication :=
  omap nats_item (sub_queue s w).

Lemma redis_stream_gives s w : redis_gives s (redis_waiting s w) w.
Proof.
  apply (polls_filter_map _ (rx_source _) (λ w, S (rx_len _ w))).
  intros w'. rewrite rx_len_queue. lia.
Qed.

Lemma nats_stream_gives s w : nats_gives s (nats_waiting s w) w.
Proof.
  apply (polls_filter_map _ (sub_source _) (λ w, S (sub_len _ w))).
  intros w'. rewrite sub_len_queue. lia.
Qed.

Lemma nats_item_own p : wf_publication p → nats_item (encode_publication p) = Some p.
Proof. intros Hp. unfold nats_item. by rewrite decode_encode_publication. Qed.

Lemma redis_item_own topic channel p : wf_publication p →
  redis_item topic (Ok (mk_Message channel (ValueBytes (encode_publication p))))
  = if decide (channel = topic) then Some p else None.
Proof.
  intros Hp. unfold redis_item. simpl. rewrite decode_encode_publication by done.
  case_decide as Ht; case_decide as Ht'; done.
Qed.

(** C32: a Redis stream yields, in order, the publications decoded from the queued
    messages of its own topic, skipping lag notices, other topics and payloads that
    do not decode, and then waits, or ends if its receiver has ended; a NATS stream
    does the same with everything its subscription receives.  What one node
    publishes on a topic, when the server takes it to another node's stream, that
    stream yields unchanged after what was waiting there, with Redis only if it is a
    stream of that topic, with NATS whatever the subject; a publish the client
    refuses is an error of the broker. *)
Theorem remote_streams_deliver :
  (∀ s w, redis_gives s (redis_waiting s w) w) ∧
  (∀ s w, nats_gives s (nats_waiting s w) w) ∧
  (∀ node topic p w w' s, wf_publication p →
     redis_publish node topic p w = (Ok (), w') →
     reaches node.(publisher) topic s.(rs_receiver) w →
     redis_gives s (redis_waiting s w ++ (if decide (topic = s.(rs_topic)) then [p] else [])) w') ∧
  (∀ node topic p w w' s, wf_publication p →
     nats_publish node topic p w = (Ok (), w') → nats_reaches node.(client) topic s w →
     nats_gives s (nats_waiting s w ++ [p]) w') ∧
  (∀ node topic p w e w',
     fred_publish node.(publisher) topic (encode_publication p) w = (Err e, w') →
     redis_publish node topic p w = (Err (BrokerOther ("redis PUBLISH: " +:+ e)), w')) ∧
  (∀ node topic p w e w',
     nats_client_publish node.(client) topic (encode_publication p) w = (Err e, w') →
     nats_publish node topic p w = (Err (BrokerOther ("nats PUB: " +:+ e)), w')).
Proof.
  split; [apply redis_stream_gives|]. split; [apply nats_stream_gives|].
  split; [|split; [|split]].
  - intros node topic p w w' s Hp Hrun Hr. unfold redis_publish, io_bind, io_map_err in Hrun.
    destruct (fred_publish _ _ _ _) as [[n|e] w1] eqn:Hf; simpl in Hrun; [|done].
    injection Hrun as <-. pose proof (fred_publish_reaches _ _ _ _ _ _ _ Hf Hr) as Hq.
    pose proof (redis_stream_gives s w1) as H. unfold redis_waiting in *.
    rewrite Hq, omap_app in H. cbn [omap list_omap] in H. rewrite redis_item_own in H by done.
    by case_decide.
  - intros node topic p w w' s Hp Hrun Hr. unfold nats_publish, io_bind, io_map_err in Hrun.
    destruct (nats_client_publish _ _ _ _) as [[[]|e] w1] eqn:Hf; simpl in Hrun; [|done].
    injection Hrun as <-. pose proof (nats_publish_reaches _ _ _ _ _ _ Hf Hr) as Hq.
    pose proof (nats_stream_gives s w1) as H. unfold nats_waiting in *.
    rewrite Hq, omap_app in H. cbn [omap list_omap] in H. by rewrite nats_item_own in H.
  - intros node topic p w e w' H. unfold redis_publish, io_bind, io_map_err. by rewrite H.
  - intros node topic p w e w' H. unfold nats_publish, io_bind, io_map_err. by rewrite H.
Qed.
End properties.

(** ** An instance: two queues *)

Definition pop {A} (q : list A) : Poll (option A) * list A :=
  match q with [] => (Pending, []) | a :: q => (Ready (Some a), q) end.

Definition Queues : Type := list (result string Message) * list Bytes.

Definition QueueFred : Fred Queues := {|
  FredConfig := unit;
  from_url _ := Ok ();
  Client := unit;
  SubscriberClient := unit;
  build_client _ := Ok ();
  build_subscriber_client _ := Ok ();
  init_client _ := io_ret ();
  init_subscriber _ := io_ret ();
  fred_subscribe _ _ := io_ret ();
  fred_publish _ topic b w := (Ok 1%N, (w.1 ++ [Ok (mk_Message topic (ValueBytes b))], w.2));
  Receiver := unit;
  message_rx _ w := ((), w);
  rx_next _ w := let '(r, q) := pop w.1 in (r, (q, w.2));
  rx_len _ w := length w.1;
  rx_drop _ w := w;
|}.

#[export] Instance QueueFredLaws : FredLaws QueueFred.
Proof.
  refine {| rx_queue := (λ _, fst) : @Receiver _ QueueFred → _; reaches _ _ _ _ := True |}; [..|].
  - intros c channel b w n w' r [= _ <-] _. done.
  - done.
  - intros r. split.
  + intros [q n] H. simpl in *. rewrite H. split; [by left|done].
  + intros [q n] a q' H. simpl in *. rewrite H. eexists. split; [done|done].
Defined.

Definition QueueNats : AsyncNats Queues := {|
  NatsClient := unit;
  nats_client_connect _ := io_ret ();
  Subscriber := unit;
  nats_client_subscribe _ _ := io_ret ();
  nats_client_publish _ _ b w := (Ok (), (w.1, w.2 ++ [b]));
  sub_next _ w := let '(r, q) := pop w.2 in (r, (w.1, q));
  sub_len _ w := length w.2;
  sub_drop _ w := w;
|}.

#[export] Instance QueueNatsLaws : AsyncNatsLaws QueueNats.
Proof.
  refine {| sub_queue := (λ _, snd) : @Subscriber _ QueueNats → _; nats_reaches _ _ _ _ := True |}; [..|].
  - intros c subject b w w' s [= <-] _. done.
  - done.
  - intros s. split.
  + intros [q n] H. simpl in *. rewrite H. split; [by left|done].
  + intros [q n] a q' H. simpl in *. rewrite H. eexists. split; [done|done].
Defined.

(** A message of another topic, a lag notice, garbage, and then a node publishes. *)
Definition noise : Queues :=
  ([Ok (mk_Message "rooms.other" (ValueBytes [])); Err "lagged";
    Ok (mk_Message "rooms.lobby" (ValueBytes [xff]))], []).

Lemma remote_streams_deliver_witness :
  let p := mk_Publication "rooms.lobby" 3 [x01] in
  polls 2 (redis_next (F:=QueueFred) (C:=wire_codec) (mk_RedisStream (F:=QueueFred) "rooms.lobby" ()))
    (redis_publish (F:=QueueFred) (C:=wire_codec) (mk_RedisBroker (F:=QueueFred) () ())
       "rooms.lobby" p noise).2
  = [Ready (Some p); Pending].
Proof.
  intros p. destruct (remote_streams_deliver (F:=QueueFred) (AN:=QueueNats) (C:=wire_codec))
    as (_ & _ & H & _).
  refine (H (mk_RedisBroker (F:=QueueFred) () ()) "rooms.lobby" p noise _
    (mk_RedisStream (F:=QueueFred) "rooms.lobby" ()) _ eq_refl Logic.I).
  vm_compute. repeat split.
Defined.
