(* ===== verification/Crdt.v ===== *)
(** * The CRDT channel kinds (crates/cherenkov-channel-crdt/src)

    yjs.rs and automerge.rs: one document per channel and an offset counter.  The
    documents are those of the crates [yrs] and [automerge], parameters of the
    model; what the two kinds promise in common is the class [DocKind], against
    which their theorem is proved. *)
From S2P Require Import Prelude Protocol Traits.

(** ** What the program uses of the document libraries *)

Class YrsLib : Type := {
  Doc : Type;
  Update : Type;
  Doc_new : Doc;
  decode_v1 : Bytes → result string Update;
  apply_update : Update → Doc → result string unit * Doc;
  encode_state_as_update_v1 : Doc → Bytes;
}.

Class AutomergeLib : Type := {
  AutoCommit : Type;
  AutoCommit_new : AutoCommit;
  load_incremental : Bytes → AutoCommit → result string N * AutoCommit;
  save : AutoCommit → Bytes * AutoCommit;
}.

(** ** State shared by the two files *)

Inductive CrdtError : Type := InvalidUpdate (engine channel reason : string).

Definition show_crdt_error (e : CrdtError) : string :=
  match e with
  | InvalidUpdate engine channel reason =>
      "invalid " +:+ engine +:+ " update for channel `" +:+ channel +:+ "`: " +:+ reason
  end.

(** [map_err(|e| ChannelError::RejectedPublication { .. })]. *)
Definition rejected (engine channel reason : string) : ChannelError :=
  RejectedPublication (show_crdt_error (InvalidUpdate engine channel reason)).

Record DocSlot (D : Type) : Type := mk_DocSlot { doc : D; next_offset : N }.
Arguments mk_DocSlot {D}.
Arguments doc {D}.
Arguments next_offset {D}.

(** [docs.entry(channel).or_insert_with(..)]: the slot, and the map that holds it. *)
Definition slot_entry {D} (fresh : D) (channel : string) (docs : gmap string (DocSlot D)) :
    DocSlot D * gmap string (DocSlot D) :=
  let slot := default (mk_DocSlot fresh 0) (docs !! channel) in
  (slot, <[channel := slot]> docs).

(** [on_subscribe], the same text in both files. *)
Definition doc_on_subscribe {D} (fresh : D) (channel : string) :
    io (gmap string (DocSlot D)) ChannelError ChannelCursor := λ docs,
  if decide (channel = "") then (Err (InvalidChannel channel), docs) else
  let '(entry, docs) := slot_entry fresh channel docs in
  let offset := entry.(next_offset) in
  (Ok (mk_ChannelCursor 1 (u64_saturating_sub offset 1)), docs).

(** [fetch_add] returns the old value and wraps. *)
Definition fetch_add {D} (slot : DocSlot D) (d : D) : N * DocSlot D :=
  (slot.(next_offset), mk_DocSlot d (u64_wrapping_add slot.(next_offset) 1)).

(** ** [YjsChannel] *)

Section yjs.
Context `{Y : YrsLib}.

Definition YjsChannel : Type := gmap string (DocSlot Doc).
Definition yjs_new : YjsChannel := ∅.

Definition yjs_snapshot (self : YjsChannel) (channel : string) : option Bytes :=
  (λ slot, encode_state_as_update_v1 slot.(doc)) <$> self !! channel.

Definition yjs_on_subscribe (channel : string) : io YjsChannel ChannelError ChannelCursor :=
  doc_on_subscribe Doc_new channel.

(** The update is decoded before the entry is made. *)
Definition yjs_on_publish (channel : string) (data : Bytes) :
    io YjsChannel ChannelError Publication := λ docs,
  if decide (channel = "") then (Err (InvalidChannel channel), docs) else
  match decode_v1 data with
  | Err e => (Err (rejected "yjs" channel e), docs)
  | Ok update =>
      let '(slot, docs) := slot_entry Doc_new channel docs in
      match apply_update update slot.(doc) with
      | (Err e, d) =>
          (Err (rejected "yjs" channel e), <[channel := mk_DocSlot d slot.(next_offset)]> docs)
      | (Ok _, d) =>
          let '(offset, slot) := fetch_add slot d in
          (Ok (mk_Publication channel offset data), <[channel := slot]> docs)
      end
  end.

Definition yjs_kind {W} (l : lens W YjsChannel) : ChannelKind W := {|
  kind_name := "crdt-yjs";
  on_subscribe channel := io_zoom l (yjs_on_subscribe channel);
  on_unsubscribe _channel := io_ret ();
  on_publish channel data := io_zoom l (yjs_on_publish channel data);
  replay_since := default_replay_since;
|}.
End yjs.

(** ** [AutomergeChannel] *)

Section automerge.
Context `{A : AutomergeLib}.

Definition AutomergeChannel : Type := gmap string (DocSlot AutoCommit).
Definition am_new : AutomergeChannel := ∅.

(** [save] compacts the document it saves. *)
Definition am_snapshot (self : AutomergeChannel) (channel : string) :
    option Bytes * AutomergeChannel :=
  match self !! channel with
  | None => (None, self)
  | Some slot =>
      let '(bytes, d) := save slot.(doc) in
      (Some bytes, <[channel := mk_DocSlot d slot.(next_offset)]> self)
  end.

Definition am_on_subscribe (channel : string) : io AutomergeChannel ChannelError ChannelCursor :=
  doc_on_subscribe AutoCommit_new channel.

(** The entry is made first, whatever the bytes are. *)
Definition am_on_publish (channel : string) (data : Bytes) :
    io AutomergeChannel ChannelError Publication := λ docs,
  if decide (channel = "") then (Err (InvalidChannel channel), docs) else
  let '(slot, docs) := slot_entry AutoCommit_new channel docs in
  match load_incremental data slot.(doc) with
  | (Err e, d) =>
      (Err (rejected "automerge" channel e),
       <[channel := mk_DocSlot d slot.(next_offset)]> docs)
  | (Ok _, d) =>
      let '(offset, slot) := fetch_add slot d in
      (Ok (mk_Publication channel offset data), <[channel := slot]> docs)
  end.

Definition am_kind {W} (l : lens W AutomergeChannel) : ChannelKind W := {|
  kind_name := "crdt-automerge";
  on_subscribe channel := io_zoom l (am_on_subscribe channel);
  on_unsubscribe _channel := io_ret ();
  on_publish channel data := io_zoom l (am_on_publish channel data);
  replay_since := default_replay_since;
|}.
End automerge.

(** ** What the two kinds have in common *)

Definition the_slot {D} (fresh : D) (docs : gmap string (DocSlot D)) (channel : string) :
    DocSlot D := (slot_entry fresh channel docs).1.

(** The documents of the other channels. *)
Definition others_kept {D} (channel : string) (docs docs' : gmap string (DocSlot D)) : Prop :=
  ∀ ch, ch ≠ channel → docs' !! ch = docs !! ch.

(** [merge data d] tries to apply an update: whether it was accepted, and the
    document afterwards.  An accepted update takes the next offset; a refused one
    takes none. *)
Class DocKind {D} (fresh : D) (merge : Bytes → D → bool * D)
    (k : ChannelKind (gmap string (DocSlot D))) : Prop := {
  dk_subscribe channel docs : channel ≠ "" →
    on_subscribe k channel docs
    = (Ok (mk_ChannelCursor 1 (u64_saturating_sub (the_slot fresh docs channel).(next_offset) 1)),
       <[channel := the_slot fresh docs channel]> docs);
  dk_subscribe_empty docs : on_subscribe k "" docs = (Err (InvalidChannel ""), docs);
  dk_unsubscribe channel docs : on_unsubscribe k channel docs = (Ok (), docs);
  dk_publish_empty data docs : on_publish k "" data docs = (Err (InvalidChannel ""), docs);
  dk_publish_ok channel data docs d : channel ≠ "" →
    merge data (the_slot fresh docs channel).(doc) = (true, d) →
    on_publish k channel data docs
    = (Ok (mk_Publication channel (the_slot fresh docs channel).(next_offset) data),
       <[channel := (fetch_add (the_slot fresh docs channel) d).2]> docs);
  dk_publish_refused channel data docs d : channel ≠ "" →
    merge data (the_slot fresh docs channel).(doc) = (false, d) →
    ∃ reason docs', on_publish k channel data docs = (Err (RejectedPublication reason), docs') ∧
      the_slot fresh docs' channel
      = mk_DocSlot d (the_slot fresh docs channel).(next_offset) ∧
      (is_Some (docs !! channel) → is_Some (docs' !! channel)) ∧
      others_kept channel docs docs';
}.

Lemma the_slot_insert {D} (fresh : D) docs ch s ch' :
  the_slot fresh (<[ch := s]> docs) ch' = if decide (ch = ch') then s else the_slot fresh docs ch'.
Proof.
  unfold the_slot, slot_entry; simpl. case_decide as H.
  - subst. by rewrite lookup_insert_eq.
  - by rewrite lookup_insert_ne.
Qed.

Lemma the_slot_others {D} (fresh : D) ch docs docs' ch' :
  others_kept ch docs docs' → ch' ≠ ch → the_slot fresh docs' ch' = the_slot fresh docs ch'.
Proof. intros H Hne. unfold the_slot, slot_entry; simpl. by rewrite H. Qed.

Lemma others_kept_insert {D} ch (s : DocSlot D) docs : others_kept ch docs (<[ch := s]> docs).
Proof. intros ch' H. by rewrite lookup_insert_ne. Qed.

(** ** Sequences of calls *)

Inductive doc_op : Type :=
| DSubscribe (channel : string)
| DUnsubscribe (channel : string)
| DPublish (channel : string) (data : Bytes).

(** The answers given to the publishers, in order. *)
Definition answers : Type := list (string * result ChannelError Publication).

Section runs.
Context {D : Type}.
Implicit Types (docs : gmap string (DocSlot D)) (k : ChannelKind (gmap string (DocSlot D))).

Definition doc_step k (op : doc_op) (s : gmap string (DocSlot D) * answers) :
    gmap string (DocSlot D) * answers :=
  let '(docs, log) := s in
  match op with
  | DSubscribe ch => ((on_subscribe k ch docs).2, log)
  | DUnsubscribe ch => ((on_unsubscribe k ch docs).2, log)
  | DPublish ch data =>
      let '(r, docs) := on_publish k ch data docs in (docs, log ++ [(ch, r)])
  end.

Definition doc_run k (ops : list doc_op) : gmap string (DocSlot D) * answers :=
  foldl (λ s op, doc_step k op s) (∅, []) ops.

Definition accepted_on (ch : string) (a : string * result ChannelError Publication) :
    option Publication :=
  if decide (a.1 = ch) then match a.2 with Ok p => Some p | Err _ => None end else None.

Definition accepted (ch : string) (log : answers) : list Publication := omap (accepted_on ch) log.

Definition refused (ch : string) (log : answers) : Prop := ∃ e, (ch, Err e) ∈ log.

(** A subscriber's copy: the broadcast updates applied to a fresh document. *)
Definition replica (fresh : D) (merge : Bytes → D → bool * D) (ps : list Publication) : D :=
  foldl (λ d p, (merge p.(publ_data) d).2) fresh ps.

(** What holds of a channel after a run. *)
Record tracked (fresh : D) (merge : Bytes → D → bool * D) docs (log : answers) (ch : string) :
    Prop := {
  tr_offsets : publ_offset <$> accepted ch log
    = (λ i, i mod u64_modulus)%N <$> seqN_from 0 (length (accepted ch log));
  tr_channel : Forall (λ p, p.(publ_channel) = ch) (accepted ch log);
  tr_next : (the_slot fresh docs ch).(next_offset)
    = (N.of_nat (length (accepted ch log)) mod u64_modulus)%N;
  tr_present : accepted ch log ≠ [] → is_Some (docs !! ch);
  tr_doc : ¬ refused ch log →
    (the_slot fresh docs ch).(doc) = replica fresh merge (accepted ch log);
}.

Lemma tracked_docs fresh merge docs docs' log ch :
  tracked fresh merge docs log ch → the_slot fresh docs' ch = the_slot fresh docs ch →
  (is_Some (docs !! ch) → is_Some (docs' !! ch)) → tracked fresh merge docs' log ch.
Proof. intros [H1 H2 H3 H4 H5] Hs Hp. split; rewrite ?Hs; auto. Qed.

Lemma accepted_snoc ch log a :
  accepted ch (log ++ [a]) = accepted ch log ++ option_list (accepted_on ch a).
Proof.
  unfold accepted. by rewrite omap_app.
Qed.

(** An answer that accepts nothing on the channel. *)
Lemma tracked_log fresh merge docs log ch a :
  tracked fresh merge docs log ch → accepted_on ch a = None →
  tracked fresh merge docs (log ++ [a]) ch.
Proof.
  intros [H1 H2 H3 H4 H5] Ha.
  assert (Hacc : accepted ch (log ++ [a]) = accepted ch log)
    by (rewrite accepted_snoc, Ha; apply app_nil_r).
  split; rewrite ?Hacc; auto. intros Hr. apply H5. intros [e He]. apply Hr. exists e.
  apply elem_of_app. by left.
Qed.

Lemma tracked_accept fresh merge docs log ch data d :
  tracked fresh merge docs log ch → merge data (the_slot fresh docs ch).(doc) = (true, d) →
  tracked fresh merge (<[ch := (fetch_add (the_slot fresh docs ch) d).2]> docs)
    (log ++ [(ch, Ok (mk_Publication ch (the_slot fresh docs ch).(next_offset) data))]) ch.
Proof.
  intros [H1 H2 H3 H4 H5] Hm. set (p := mk_Publication _ _ _).
  assert (Hacc : accepted ch (log ++ [(ch, Ok p)]) = accepted ch log ++ [p])
    by (rewrite accepted_snoc; unfold accepted_on; simpl; by rewrite decide_True).
  split; rewrite ?Hacc, ?the_slot_insert, ?decide_True by done.
  - rewrite length_app, seqN_from_app, !fmap_app, H1. simpl. by rewrite H3.
  - apply Forall_app. by repeat constructor.
  - simpl. unfold u64_wrapping_add. rewrite H3, length_app, N.Div0.add_mod_idemp_l. simpl.
    f_equal. lia.
  - intros _. rewrite lookup_insert_eq. eauto.
  - intros Hr. simpl. unfold replica. rewrite foldl_app. simpl. fold (replica fresh merge (accepted ch log)).
    rewrite <-H5; [by rewrite Hm|]. intros [e He]. apply Hr. exists e. apply elem_of_app. by left.
Qed.

Lemma tracked_refuse fresh merge docs docs' log ch e d :
  tracked fresh merge docs log ch →
  the_slot fresh docs' ch = mk_DocSlot d (the_slot fresh docs ch).(next_offset) →
  (is_Some (docs !! ch) → is_Some (docs' !! ch)) →
  tracked fresh merge docs' (log ++ [(ch, Err e)]) ch.
Proof.
  intros [H1 H2 H3 H4 H5] Hs Hp.
  assert (Hacc : accepted ch (log ++ [(ch, Err e)]) = accepted ch log)
    by (rewrite accepted_snoc; unfold accepted_on; simpl; rewrite decide_True by done; apply app_nil_r).
  split; rewrite ?Hacc, ?Hs; auto. intros Hr. destruct Hr. exists e. apply elem_of_app. right.
  by apply list_elem_of_singleton.
Qed.

Lemma tracked_init fresh merge ch : tracked fresh merge ∅ [] ch.
Proof. by split. Qed.

(** Every call keeps every channel tracked. *)
Lemma doc_step_tracked {k fresh merge} `{K : !DocKind fresh merge k} op docs log ch :
  ch ≠ "" → tracked fresh merge docs log ch →
  tracked fresh merge (doc_step k op (docs, log)).1 (doc_step k op (docs, log)).2 ch.
Proof.
  intros Hch H. destruct op as [c|c|c data]; simpl.
  - destruct (decide (c = "")) as [->|Hc]; [by rewrite dk_subscribe_empty|].
    rewrite (dk_subscribe _ _ Hc); simpl. eapply tracked_docs; [exact H| |].
    + rewrite the_slot_insert. case_decide; by subst.
    + intros Hs. destruct (decide (c = ch)) as [->|?]; [rewrite lookup_insert_eq; eauto|].
      by rewrite lookup_insert_ne.
  - by rewrite dk_unsubscribe.
  - destruct (decide (c = "")) as [->|Hc].
    { rewrite dk_publish_empty. apply tracked_log; [done|]. unfold accepted_on. by case_decide. }
    destruct (merge data (the_slot fresh docs c).(doc)) as [[|] d] eqn:Em.
    + rewrite (dk_publish_ok _ _ _ _ Hc Em). simpl. destruct (decide (c = ch)) as [->|Hne].
      * by apply tracked_accept.
      * apply tracked_log; [|unfold accepted_on; by rewrite decide_False].
        eapply tracked_docs; [exact H| |by rewrite lookup_insert_ne].
        by rewrite the_slot_insert, decide_False.
    + destruct (dk_publish_refused _ _ _ _ Hc Em) as (e & docs' & -> & Hs & Hp & Ho). simpl.
      destruct (decide (c = ch)) as [->|Hne]; [by eapply tracked_refuse|].
      apply tracked_log; [|unfold accepted_on; by rewrite decide_False].
      eapply tracked_docs; [exact H|by eapply the_slot_others|]. by rewrite Ho.
Qed.

Lemma doc_run_tracked {k fresh merge} `{K : !DocKind fresh merge k} ops ch :
  ch ≠ "" → tracked fresh merge (doc_run k ops).1 (doc_run k ops).2 ch.
Proof.
  intros Hch. induction ops as [|op ops IH] using rev_ind; [apply tracked_init|].
  unfold doc_run in *. rewrite foldl_app. simpl.
  destruct (foldl _ _ ops) as [docs log]. by apply doc_step_tracked.
Qed.
End runs.

(** ** The two kinds are such kinds *)

Section instances.
Context `{Y : YrsLib} `{A : AutomergeLib}.

Definition yjs_merge (data : Bytes) (d : Doc) : bool * Doc :=
  match decode_v1 data with
  | Err _ => (false, d)
  | Ok update => let '(r, d) := apply_update update d in (is_ok r, d)
  end.

Definition am_merge (data : Bytes) (d : AutoCommit) : bool * AutoCommit :=
  let '(r, d) := load_incremental data d in (is_ok r, d).

#[export] Instance yjs_doc_kind : DocKind Doc_new yjs_merge (yjs_kind lens_id).
Proof.
  split; simpl; unfold io_zoom; simpl; try done.
  - intros ch docs Hch. unfold yjs_on_subscribe, doc_on_subscribe. by rewrite decide_False.
  - intros ch data docs d Hch. unfold yjs_on_publish, yjs_merge. rewrite decide_False by done.
    destruct (decode_v1 data) as [u|e]; [|done]. simpl. fold (the_slot Doc_new docs ch).
    destruct (apply_update u _) as [[|] d']; intros [= <-]; try done.
    by rewrite insert_insert_eq.
  - intros ch data docs d Hch. unfold yjs_on_publish, yjs_merge. rewrite decide_False by done.
    destruct (decode_v1 data) as [u|e].
    + simpl. fold (the_slot Doc_new docs ch).
      destruct (apply_update u _) as [[|] d']; intros [= <-]; try done.
      eexists _, _. split; [done|]. rewrite insert_insert_eq, the_slot_insert, decide_True by done.
      split; [done|]. split; [rewrite lookup_insert_eq; eauto|apply others_kept_insert].
    + intros [= <-]. eexists _, _. split; [done|]. split; [by destruct (the_slot _ _ _)|]. done.
Qed.

#[export] Instance am_doc_kind : DocKind AutoCommit_new am_merge (am_kind lens_id).
Proof.
  split; simpl; unfold io_zoom; simpl; try done.
  - intros ch docs Hch. unfold am_on_subscribe, doc_on_subscribe. by rewrite decide_False.
  - intros ch data docs d Hch. unfold am_on_publish, am_merge. rewrite decide_False by done.
    simpl. fold (the_slot AutoCommit_new docs ch).
    destruct (load_incremental data _) as [[|] d']; intros [= <-]; try done.
    by rewrite insert_insert_eq.
  - intros ch data docs d Hch. unfold am_on_publish, am_merge. rewrite decide_False by done.
    simpl. fold (the_slot AutoCommit_new docs ch).
    destruct (load_incremental data _) as [[|] d']; intros [= <-]; try done.
    eexists _, _. split; [done|]. rewrite insert_insert_eq, the_slot_insert, decide_True by done.
    split; [done|]. split; [rewrite lookup_insert_eq; eauto|apply others_kept_insert].
Qed.
(** What the hub relies on, wherever the documents live in its memory. *)
#[export] Instance yjs_kind_laws {W} (l : lens W YjsChannel) : ChannelKindLaws (yjs_kind l).
Proof.
  split; simpl.
  - intros ch data w p w' (s & Hp & _)%io_zoom_run. unfold yjs_on_publish in Hp.
    case_decide; [done|]. destruct (decode_v1 data) as [u|e]; [|done]. simpl in Hp.
    destruct (apply_update u _) as [[|] d]; by simplify_eq.
  - intros ch since w ps w' [= <- _]. constructor.
  - intros w. unfold io_zoom. simpl. by rewrite update_view.
  - intros data w. unfold io_zoom. simpl. by rewrite update_view.
Qed.

#[export] Instance am_kind_laws {W} (l : lens W AutomergeChannel) : ChannelKindLaws (am_kind l).
Proof.
  split; simpl.
  - intros ch data w p w' (s & Hp & _)%io_zoom_run. unfold am_on_publish in Hp.
    case_decide; [done|]. simpl in Hp.
    destruct (load_incremental data _) as [[|] d]; by simplify_eq.
  - intros ch since w ps w' [= <- _]. constructor.
  - intros w. unfold io_zoom. simpl. by rewrite update_view.
  - intros data w. unfold io_zoom. simpl. by rewrite update_view.
Qed.

(** C31: on every sequence of calls, a Y.js or an Automerge channel numbers its
    accepted updates 0, 1, 2, .. (modulo [2^64]: the counter wraps, unlike that of
    the pub/sub kind), tells a new subscriber the last of these offsets, and, as
    long as it refused no update, holds the very document a subscriber gets by
    applying the broadcast updates in order to a fresh one: its snapshot is that
    replica's. *)
Theorem crdt_replicas_converge (ops : list doc_op) (ch : string) (Hch : ch ≠ "") :
  (let '(docs, log) := doc_run (yjs_kind lens_id) ops in
   let ps := accepted ch log in
   publ_offset <$> ps = (λ i, i mod u64_modulus)%N <$> seqN_from 0 (length ps) ∧
   Forall (λ p, p.(publ_channel) = ch) ps ∧
   (yjs_on_subscribe ch docs).1
   = Ok (mk_ChannelCursor 1 (N.of_nat (length ps) mod u64_modulus - 1)%N) ∧
   (ps ≠ [] → ¬ refused ch log →
    yjs_snapshot docs ch
    = Some (encode_state_as_update_v1 (replica Doc_new yjs_merge ps)))) ∧
  (let '(docs, log) := doc_run (am_kind lens_id) ops in
   let ps := accepted ch log in
   publ_offset <$> ps = (λ i, i mod u64_modulus)%N <$> seqN_from 0 (length ps) ∧
   Forall (λ p, p.(publ_channel) = ch) ps ∧
   (am_on_subscribe ch docs).1
   = Ok (mk_ChannelCursor 1 (N.of_nat (length ps) mod u64_modulus - 1)%N) ∧
   (ps ≠ [] → ¬ refused ch log →
    (am_snapshot docs ch).1 = Some (save (replica AutoCommit_new am_merge ps)).1)).
Proof.
  split.
  - pose proof (doc_run_tracked (k:=yjs_kind lens_id) ops ch Hch) as [H1 H2 H3 H4 H5].
    destruct (doc_run _ ops) as [docs log]; simpl in *. repeat (split; [done|]). split.
    + unfold yjs_on_subscribe, doc_on_subscribe. rewrite decide_False by done. simpl.
      unfold the_slot, slot_entry in H3; simpl in H3. by rewrite H3.
    + intros Hps Hr. specialize (H5 Hr). destruct (H4 Hps) as [slot Hslot].
      unfold yjs_snapshot, YjsChannel, the_slot, slot_entry in *; simpl in *.
      rewrite Hslot in *. simpl in *.
      by rewrite H5.
  - pose proof (doc_run_tracked (k:=am_kind lens_id) ops ch Hch) as [H1 H2 H3 H4 H5].
    destruct (doc_run _ ops) as [docs log]; simpl in *. repeat (split; [done|]). split.
    + unfold am_on_subscribe, doc_on_subscribe. rewrite decide_False by done. simpl.
      unfold the_slot, slot_entry in H3; simpl in H3. by rewrite H3.
    + intros Hps Hr. specialize (H5 Hr). destruct (H4 Hps) as [slot Hslot].
      unfold am_snapshot, AutomergeChannel, the_slot, slot_entry in *; simpl in *.
      rewrite Hslot in *. simpl in *.
      rewrite H5. by destruct (save _).
Qed.

(** Bytes that are not a Y.js update are refused before anything is touched;
    bytes Automerge refuses leave an entry for the channel behind, but neither
    kind gives a refused update an offset or shows it to another channel, and the
    error names the engine and the channel. *)
Lemma crdt_refusals (ch : string) (data : Bytes) (e : string) (Hch : ch ≠ "") :
  (∀ docs : YjsChannel, decode_v1 data = Err e →
     yjs_on_publish ch data docs = (Err (rejected "yjs" ch e), docs)) ∧
  (∀ (docs : AutomergeChannel) d,
     load_incremental data (the_slot AutoCommit_new docs ch).(doc) = (Err e, d) →
     let '(r, docs') := am_on_publish ch data docs in
     r = Err (rejected "automerge" ch e) ∧ is_Some (docs' !! ch) ∧
     (the_slot AutoCommit_new docs' ch).(next_offset)
     = (the_slot AutoCommit_new docs ch).(next_offset) ∧
     others_kept ch docs docs').
Proof.
  split.
  - intros docs Hd. unfold yjs_on_publish. by rewrite decide_False, Hd.
  - unfold am_on_publish, AutomergeChannel. intros docs d Hd. rewrite decide_False by done. simpl.
    pose proof Hd as Hd'. unfold the_slot, slot_entry in Hd'. simpl in Hd'. rewrite Hd'.
    split; [done|]. rewrite insert_insert_eq, lookup_insert_eq, the_slot_insert, decide_True by done.
    split; [eauto|]. split; [done|]. apply others_kept_insert.
Qed.
End instances.

(** ** Witnesses: documents that are the list of their updates *)

Definition ListYrs : YrsLib := {|
  Doc := list Bytes;
  Update := Bytes;
  Doc_new := [];
  decode_v1 data := if decide (data = []) then Err "end of buffer" else Ok data;
  apply_update u d := (Ok (), d ++ [u]);
  encode_state_as_update_v1 d := concat d;
|}.

Definition ListAutomerge : AutomergeLib := {|
  AutoCommit := list Bytes;
  AutoCommit_new := [];
  load_incremental data d := if decide (data = []) then (Err "empty", d) else (Ok 1%N, d ++ [data]);
  save d := (concat d, d);
|}.

Lemma crdt_replicas_converge_witness :
  let run := doc_run (yjs_kind (Y:=ListYrs) lens_id)
               [DPublish "doc" [x01]; DPublish "other" []; DPublish "doc" [x02]] in
  publ_offset <$> accepted "doc" run.2 = [0; 1]%N ∧
  yjs_snapshot (Y:=ListYrs) run.1 "doc" = Some [x01; x02].
Proof.
  intros run. pose proof (crdt_replicas_converge (Y:=ListYrs) (A:=ListAutomerge)
    [DPublish "doc" [x01]; DPublish "other" []; DPublish "doc" [x02]] "doc" ltac:(done)) as [H _].
  assert (Hp : accepted "doc" run.2 = [mk_Publication "doc" 0 [x01]; mk_Publication "doc" 1 [x02]])
    by (vm_compute; reflexivity).
  assert (Hr : ¬ refused "doc" run.2).
  { intros [e He]. revert He. change run.2 with (doc_run (yjs_kind (Y:=ListYrs) lens_id)
      [DPublish "doc" [x01]; DPublish "other" []; DPublish "doc" [x02]]).2. vm_compute.
    intros He. repeat (apply elem_of_cons in He as [He|He]; [discriminate He|]).
    by apply elem_of_nil in He. }
  fold run in H. destruct run as [docs log]. destruct H as (H1 & _ & _ & H4). simpl in *.
  rewrite Hp in *. split; [reflexivity|]. rewrite H4; [reflexivity|discriminate|done].
Defined.
