(* ===== verification/NamespaceAcl.v ===== *)
(** * The glob-based ACL

    crates/cherenkov-auth/src/namespace_acl.rs.  The rules are tried in declaration
    order; the glob matcher is the crate [globset], a parameter here. *)
From S2P Require Import Prelude Traits.

(** [globset]: [Glob::new] may refuse a pattern, a compiled matcher decides. *)
Class GlobEngine : Type := {
  GlobMatcher : Type;
  GlobError : Type;
  glob_new : string → result GlobError GlobMatcher;
  is_match : GlobMatcher → string → bool;
  show_glob_error : GlobError → string;
}.

Inductive AclMatch : Type := MatchSubscribe | MatchPublish | MatchAny.

#[export] Instance AclMatch_eq_dec : EqDecision AclMatch.
Proof. solve_decision. Defined.

Definition AclMatch_default : AclMatch := MatchAny.

Definition covers (self : AclMatch) (action : AclAction) : bool :=
  match self, action with
  | MatchAny, _ => true
  | MatchSubscribe, ActSubscribe => true
  | MatchPublish, ActPublish => true
  | _, _ => false
  end.

Inductive Effect : Type := EffectAllow | EffectDeny.

Section acl.
Context `{GlobEngine}.

Record AclRule : Type := mk_AclRule {
  effect : Effect;
  rule_channel : GlobMatcher;
  rule_subject : option GlobMatcher;
  rule_action : AclMatch;
}.

Definition AclRule_new (effect : Effect) (channel_pattern : string) (action : AclMatch) :
    result GlobError AclRule :=
  let? channel := glob_new channel_pattern in
  Ok (mk_AclRule effect channel None action).

(** [allow] and [deny] panic on a pattern that does not compile: [None]. *)
Definition expect {E A} (r : result E A) : option A :=
  match r with Ok a => Some a | Err _ => None end.

Definition rule_allow (channel_pattern : string) (action : AclMatch) : option AclRule :=
  expect (AclRule_new EffectAllow channel_pattern action).
Definition rule_deny (channel_pattern : string) (action : AclMatch) : option AclRule :=
  expect (AclRule_new EffectDeny channel_pattern action).
Definition try_allow (channel_pattern : string) (action : AclMatch) :
    result GlobError AclRule :=
  AclRule_new EffectAllow channel_pattern action.
Definition try_deny (channel_pattern : string) (action : AclMatch) :
    result GlobError AclRule :=
  AclRule_new EffectDeny channel_pattern action.

Definition with_subject (self : AclRule) (subject_pattern : string) :
    result GlobError AclRule :=
  let? subj := glob_new subject_pattern in
  Ok (mk_AclRule self.(effect) self.(rule_channel) (Some subj) self.(rule_action)).

Definition rule_matches (self : AclRule) (claims : SessionClaims) (action : AclAction)
    (channel : string) : bool :=
  if negb (covers self.(rule_action) action) then false
  else if match self.(rule_subject) with
          | Some subj => negb (is_match subj claims.(subject))
          | None => false
          end
  then false
  else is_match self.(rule_channel) channel.

Record NamespaceAcl : Type := mk_NamespaceAcl {
  rules : list AclRule;
  default_allow : bool;
}.

(** The builder holds the same two fields. *)
Definition builder : NamespaceAcl := mk_NamespaceAcl [] false.
Definition with_rule (self : NamespaceAcl) (rule : AclRule) : NamespaceAcl :=
  mk_NamespaceAcl (self.(rules) ++ [rule]) self.(default_allow).
Definition set_default_allow (self : NamespaceAcl) (allow : bool) : NamespaceAcl :=
  mk_NamespaceAcl self.(rules) allow.
Definition build (self : NamespaceAcl) : NamespaceAcl :=
  mk_NamespaceAcl self.(rules) self.(default_allow).

(** The loop of [check]: its early return is the first match. *)
Fixpoint check_rules (rules : list AclRule) (default_allow : bool) (claims : SessionClaims)
    (action : AclAction) (channel : string) : AclDecision :=
  match rules with
  | [] => if default_allow then Allow else Deny
  | rule :: rules =>
      if rule_matches rule claims action channel
      then match rule.(effect) with EffectAllow => Allow | EffectDeny => Deny end
      else check_rules rules default_allow claims action channel
  end.

Definition namespace_check {W} (self : NamespaceAcl) (claims : SessionClaims)
    (action : AclAction) (channel : string) : io W AclError AclDecision :=
  io_ret (check_rules self.(rules) self.(default_allow) claims action channel).

Definition namespace_acl {W} (self : NamespaceAcl) : AclChecker W := {|
  acl_name := "namespace";
  check := namespace_check self;
|}.

(** ** The decision as a specification *)

(** [r] is the rule that decides: it matches and none before it does. *)
Definition deciding (rs : list AclRule) (claims : SessionClaims) (action : AclAction)
    (channel : string) (r : AclRule) : Prop :=
  ∃ before after, rs = before ++ r :: after ∧ rule_matches r claims action channel ∧
    Forall (λ r', ¬ rule_matches r' claims action channel) before.

Definition no_match (rs : list AclRule) (claims : SessionClaims) (action : AclAction)
    (channel : string) : Prop :=
  Forall (λ r, ¬ rule_matches r claims action channel) rs.

Lemma rule_matches_spec r claims action channel :
  rule_matches r claims action channel ↔
    covers r.(rule_action) action ∧ is_match r.(rule_channel) channel ∧
    ∀ subj, r.(rule_subject) = Some subj → is_match subj claims.(subject).
Proof.
  unfold rule_matches. destruct (covers _ _); simpl; [|naive_solver].
  destruct (rule_subject r) as [subj|]; simpl; [|naive_solver].
  destruct (is_match subj (subject claims)) eqn:E; simpl; [naive_solver|].
  split; [done|]. intros (_ & _ & Hs). specialize (Hs _ eq_refl). by rewrite E in Hs.
Qed.

Lemma check_rules_app_no_match rs1 rs2 d claims action channel :
  no_match rs1 claims action channel →
  check_rules (rs1 ++ rs2) d claims action channel = check_rules rs2 d claims action channel.
Proof.
  induction 1 as [|r rs1 Hr _ IH]; [done|]. simpl.
  destruct (rule_matches r claims action channel); [by destruct Hr|done].
Qed.

Lemma deciding_or_no_match rs claims action channel :
  (∃ r, deciding rs claims action channel r) ∨ no_match rs claims action channel.
Proof.
  induction rs as [|r rs IH]; [right; constructor|].
  destruct (rule_matches r claims action channel) eqn:E.
  - left. exists r, [], rs. rewrite E. repeat split; constructor.
  - destruct IH as [(r' & before & after & -> & Hm & Hb)|Hn].
    + left. exists r', (r :: before), after. repeat split; try done.
      constructor; [rewrite E; by intros []|done].
    + right. constructor; [rewrite E; by intros []|done].
Qed.

Lemma check_rules_deciding rs d claims action channel r :
  deciding rs claims action channel r →
  check_rules rs d claims action channel
  = match r.(effect) with EffectAllow => Allow | EffectDeny => Deny end.
Proof.
  intros (before & after & -> & Hm & Hb). rewrite check_rules_app_no_match by done.
  simpl. by destruct (rule_matches r claims action channel).
Qed.

(** The checker allows a request exactly when the first rule that matches
    it is an allow rule, or no rule matches and the default is to allow; it
    never fails and never touches the state. *)
Theorem namespace_acl_first_match {W} (acl : NamespaceAcl) (claims : SessionClaims)
    (action : AclAction) (channel : string) (w : W) :
  ∃ d, check (namespace_acl acl) claims action channel w = (Ok d, w) ∧
    (d = Allow ↔
      (∃ r, deciding acl.(rules) claims action channel r ∧ r.(effect) = EffectAllow) ∨
      (no_match acl.(rules) claims action channel ∧ acl.(default_allow) = true)).
Proof.
  eexists. split; [done|].
  destruct (deciding_or_no_match acl.(rules) claims action channel) as [[r Hr]|Hn].
  - rewrite (check_rules_deciding _ _ _ _ _ r Hr). split.
    + intros E. left. exists r. split; [done|]. by destruct (effect r).
    + intros [(r' & Hr' & He)|[Hn _]].
      * rewrite <-(check_rules_deciding _ (default_allow acl) _ _ _ r Hr).
        rewrite (check_rules_deciding _ _ _ _ _ r' Hr'). by rewrite He.
      * destruct Hr as (b & a & Heq & Hm & _). unfold no_match in Hn. rewrite Heq in Hn.
        apply Forall_app in Hn as [_ Hn]. apply Forall_cons in Hn as [Hn _]. done.
  - rewrite <-(app_nil_r (rules acl)), check_rules_app_no_match by done. simpl.
    destruct (default_allow acl) eqn:E; split; try done.
    + intros _. right. by rewrite app_nil_r.
    + rewrite app_nil_r. intros [(r & (b & a & Heq & Hm & _) & _)|[_ ?]]; [|done].
      unfold no_match in Hn. rewrite Heq in Hn.
      apply Forall_app in Hn as [_ Hn]. apply Forall_cons in Hn as [Hn _]. done.
Qed.
End acl.

(** ** A small matcher: [*] stands for any run of characters *)

Fixpoint star_match (p s : list ascii) : bool :=
  match p with
  | [] => match s with [] => true | _ => false end
  | a :: p' =>
      if decide (a = "*"%char)
      then (fix any (s : list ascii) : bool :=
              star_match p' s || match s with [] => false | _ :: s' => any s' end) s
      else match s with
           | b :: s' => if decide (a = b) then star_match p' s' else false
           | [] => false
           end
  end.

Definition StarGlob : GlobEngine := {|
  GlobMatcher := string;
  GlobError := string;
  glob_new p := if decide (string_has "["%char p) then Err "unclosed character class" else Ok p;
  is_match p s := star_match (String.list_ascii_of_string p) (String.list_ascii_of_string s);
  show_glob_error e := e;
|}.

Section examples.
#[local] Existing Instance StarGlob.

Definition alice : SessionClaims := mk_SessionClaims "alice" [] 0.
Definition with_rules (rs : list (option AclRule)) : NamespaceAcl :=
  foldl (λ acl r, match r with Some r => with_rule acl r | None => acl end) builder rs.

Example bad_pattern_panics : rule_allow "rooms.[" MatchAny = None.
Proof. reflexivity. Qed.
End examples.
