(* ===== verification/SchemaRegistry.v ===== *)
(** * The JSON Schema registry

    crates/cherenkov-schema/src/registry.rs.  The crates [jsonschema] and
    [serde_json] are parameters. *)
From S2P Require Import Prelude Traits.

Class JsonEngine : Type := {
  Value : Type;
  Validator : Type;
  validator_for : Value → result string Validator;
  from_slice : Bytes → result string Value;
  validator_validate : Validator → Value → result string unit;
}.

Inductive RegistryError : Type :=
| InvalidSchema (namespace reason : string).

Definition show_registry_error (e : RegistryError) : string :=
  match e with
  | InvalidSchema namespace reason =>
      "schema for namespace `" +:+ namespace +:+ "` is invalid: " +:+ reason
  end.

(** The namespace of a channel: everything before the first dot. *)
Definition namespace_of (channel : string) : string :=
  match split_once "."%char channel with
  | Some (ns, _) => ns
  | None => channel
  end.

Section registry.
Context `{JsonEngine}.

Record JsonSchemaRegistryBuilder : Type := mk_builder { builder_schemas : gmap string Validator }.
Record JsonSchemaRegistry : Type := mk_registry { schemas : gmap string Validator }.

Definition builder_new : JsonSchemaRegistryBuilder := mk_builder ∅.

Definition with_namespace (self : JsonSchemaRegistryBuilder) (namespace : string)
    (schema : Value) : result RegistryError JsonSchemaRegistryBuilder :=
  let? validator :=
    result_map_err (λ e, InvalidSchema namespace e) (validator_for schema) in
  Ok (mk_builder (<[namespace := validator]> self.(builder_schemas))).

Definition build (self : JsonSchemaRegistryBuilder) : JsonSchemaRegistry :=
  mk_registry self.(builder_schemas).

Definition empty : JsonSchemaRegistry := mk_registry ∅.
Definition len (self : JsonSchemaRegistry) : nat := size self.(schemas).
Definition is_empty (self : JsonSchemaRegistry) : bool := bool_decide (self.(schemas) = ∅).

Definition registry_validate (self : JsonSchemaRegistry) (channel : string) (data : Bytes) :
    result SchemaError unit :=
  let namespace := namespace_of channel in
  match self.(schemas) !! namespace with
  | None => Ok ()
  | Some validator =>
      let? value :=
        result_map_err
          (λ err, PayloadRejected channel ("payload is not valid JSON: " +:+ err))
          (from_slice data) in
      match validator_validate validator value with
      | Err err => Err (PayloadRejected channel err)
      | Ok _ => Ok ()
      end
  end.

Definition json_schema_registry {W} (self : JsonSchemaRegistry) : SchemaValidator W := {|
  validator_name := "json-schema";
  validate channel data := io_of_result (registry_validate self channel data);
|}.

(** ** Specification *)

(** Registering a list of schemas in order; the first that does not compile
    aborts. *)
Fixpoint with_namespaces (self : JsonSchemaRegistryBuilder) (l : list (string * Value)) :
    result RegistryError JsonSchemaRegistryBuilder :=
  match l with
  | [] => Ok self
  | (ns, schema) :: l => let? b := with_namespace self ns schema in with_namespaces b l
  end.

(** The schema a namespace ends up with: the last one registered for it. *)
Definition last_schema (l : list (string * Value)) (ns : string) : option Value :=
  snd <$> last (filter (λ e, e.1 = ns) l).

(** The payload conforms to the schema, when there is one. *)
Definition conforms (schema : option Value) (data : Bytes) : Prop :=
  match schema with
  | None => True
  | Some schema => ∃ v value u, validator_for schema = Ok v ∧ from_slice data = Ok value ∧
      validator_validate v value = Ok u
  end.

Lemma last_schema_snoc l ns schema ns' :
  last_schema (l ++ [(ns, schema)]) ns'
  = if decide (ns = ns') then Some schema else last_schema l ns'.
Proof.
  unfold last_schema. rewrite filter_app, filter_cons, filter_nil. simpl. case_decide.
  - by rewrite last_snoc.
  - by rewrite app_nil_r.
Qed.

Definition compiled (l : list (string * Value)) (m : gmap string Validator) : Prop :=
  ∀ ns, match last_schema l ns with
        | None => m !! ns = None
        | Some schema => ∃ v, validator_for schema = Ok v ∧ m !! ns = Some v
        end.

Lemma with_namespaces_compiled done l b b' :
  compiled done b.(builder_schemas) → with_namespaces b l = Ok b' →
  compiled (done ++ l) b'.(builder_schemas).
Proof.
  revert done b. induction l as [|[ns schema] l IH]; intros done b Hc; simpl.
  - intros [= <-]. by rewrite app_nil_r.
  - unfold with_namespace. destruct (validator_for schema) as [v|e] eqn:Hv; simpl; [|done].
    intros Hl. rewrite cons_middle, app_assoc. refine (IH (done ++ [(ns, schema)]) _ _ Hl).
    intros ns'. rewrite last_schema_snoc. simpl. case_decide as Hd.
    + subst. exists v. by rewrite lookup_insert_eq.
    + rewrite lookup_insert_ne by done. apply Hc.
Qed.

Lemma registry_validate_conforms (l : list (string * Value))
    (b : JsonSchemaRegistryBuilder) (channel : string) (data : Bytes) :
  with_namespaces builder_new l = Ok b →
  registry_validate (build b) channel data = Ok () ↔
    conforms (last_schema l (namespace_of channel)) data.
Proof.
  intros Hb. pose proof (with_namespaces_compiled [] l builder_new b) as Hc. simpl in Hc.
  specialize (Hc ltac:(intros ns; simpl; apply lookup_empty) Hb (namespace_of channel)).
  unfold registry_validate, conforms, build. simpl.
  destruct (last_schema l (namespace_of channel)) as [schema|]; [|by rewrite Hc].
  destruct Hc as (v & Hv & ->). destruct (from_slice data) as [value|err]; simpl; [|naive_solver].
  destruct (validator_validate v value) as [[]|err] eqn:E; [naive_solver|].
  split; [done|]. intros (v' & value' & u & ? & [= <-] & ?). congruence.
Qed.

Lemma registry_rejection_names_channel (self : JsonSchemaRegistry) channel data e :
  registry_validate self channel data = Err e → ∃ reason, e = PayloadRejected channel reason.
Proof.
  unfold registry_validate. destruct (schemas self !! _) as [v|]; [|done].
  destruct (from_slice data) as [value|err]; simpl; [|naive_solver].
  destruct (validator_validate v value); naive_solver.
Qed.

(** A registry built from a list of namespace schemas accepts a payload on
    a channel exactly when the last schema registered for the channel's
    namespace, if there is one, compiles to a validator that accepts the
    parsed payload; a rejection names the channel. *)
Theorem registry_accepts_iff_conforms (l : list (string * Value))
    (b : JsonSchemaRegistryBuilder) (channel : string) (data : Bytes)
    (Hb : with_namespaces builder_new l = Ok b) :
  (registry_validate (build b) channel data = Ok () ↔
     conforms (last_schema l (namespace_of channel)) data) ∧
  (∀ e, registry_validate (build b) channel data = Err e →
     ∃ reason, e = PayloadRejected channel reason).
Proof.
  split; [by apply registry_validate_conforms|]. intros e.
  apply registry_rejection_names_channel.
Qed.
End registry.

(** The namespace of a channel is what precedes its first dot: it holds no
    dot, and the channel is either the namespace itself or the namespace, a dot
    and the rest. *)
Lemma namespace_of_spec (channel : string) :
  ¬ string_has "."%char (namespace_of channel) ∧
  (channel = namespace_of channel ∨
   ∃ rest, channel = namespace_of channel +:+ "." +:+ rest).
Proof.
  unfold namespace_of. destruct (split_once "."%char channel) as [[ns rest]|] eqn:E.
  - apply split_once_Some in E as [-> Hns]. split; [done|]. right. by exists rest.
  - apply split_once_None in E. split; [done|]. by left.
Qed.

(** ** A toy engine: a schema is a maximal length, every byte sequence is JSON
    unless it starts with a zero byte *)

Definition LengthJson : JsonEngine := {|
  Value := nat;
  Validator := nat;
  validator_for n := if decide (n = 0) then Err "no length" else Ok n;
  from_slice b := match b with
                  | Byte.x00 :: _ => Err "expected value at line 1 column 1"
                  | _ => Ok (length b)
                  end;
  validator_validate n v := if decide (v ≤ n) then Ok () else Err "too long";
|}.

Lemma registry_accepts_iff_conforms_witness :
  registry_validate (H:=LengthJson) (mk_registry (H:=LengthJson) {["orders" := 3]})
    "orders.created" (bytes_of_string "abc") = Ok ().
Proof.
  refine (proj2 (proj1 (registry_accepts_iff_conforms (H:=LengthJson)
    [("orders", 1); ("orders", 3)] (mk_builder (H:=LengthJson) {["orders" := 3]})
    "orders.created" (bytes_of_string "abc") _)) _).
  - vm_compute. reflexivity.
  - exists 3, 3, (). repeat split.
Defined.
