(* ===== verification/Jwt.v ===== *)
(** * The JWT authenticator

    crates/cherenkov-auth/src/jwt.rs.  Signature and registered-claim checks are
    those of the crate [jsonwebtoken], a parameter; the builder decides which of
    them are asked for. *)
From S2P Require Import Prelude Traits.

Inductive JwtAlgorithm : Type := Hs256 | Hs384 | Hs512.
Inductive Algorithm : Type := HS256 | HS384 | HS512.

#[export] Instance algorithm_eq_dec : EqDecision Algorithm.
Proof. solve_decision. Defined.

Definition Algorithm_from (value : JwtAlgorithm) : Algorithm :=
  match value with Hs256 => HS256 | Hs384 => HS384 | Hs512 => HS512 end.

(** The claims of a token after deserialisation: a missing [permissions] is the
    empty list and a missing [exp] is zero. *)
Record CherenkovClaims : Type := mk_CherenkovClaims {
  sub : string;
  cc_permissions : list string;
  exp : N;
}.

(** What the program uses of [jsonwebtoken]; [decode] is given the current time,
    which it compares [exp] with. *)
Class JwtLib : Type := {
  DecodingKey : Type;
  from_secret : Bytes → DecodingKey;
  Validation : Type;
  Validation_new : Algorithm → Validation;
  set_audience : Validation → list string → Validation;
  set_issuer : Validation → list string → Validation;
  set_validate_aud : bool → Validation → Validation;
  decode : N → string → DecodingKey → Validation → result string CherenkovClaims;
}.

(** ** What [jsonwebtoken] documents *)

(** The public fields of a [Validation]. *)
Record ValidationFields : Type := mk_ValidationFields {
  algorithms : list Algorithm;
  required_spec_claims : list string;
  leeway : N;
  validate_exp : bool;
  validate_aud : bool;
  aud : option (list string);
  iss : option (list string);
}.

Definition with_aud (l : list string) (f : ValidationFields) : ValidationFields :=
  mk_ValidationFields f.(algorithms) f.(required_spec_claims) f.(leeway) f.(validate_exp)
    f.(validate_aud) (Some l) f.(iss).
Definition with_iss (l : list string) (f : ValidationFields) : ValidationFields :=
  mk_ValidationFields f.(algorithms) f.(required_spec_claims) f.(leeway) f.(validate_exp)
    f.(validate_aud) f.(aud) (Some l).
Definition with_validate_aud (b : bool) (f : ValidationFields) : ValidationFields :=
  mk_ValidationFields f.(algorithms) f.(required_spec_claims) f.(leeway) f.(validate_exp)
    b f.(aud) f.(iss).

(** A token taken apart: the algorithm of its header, the text that was signed, the
    signature, the registered claims it has, and its payload. *)
Record Token : Type := mk_Token {
  tok_alg : Algorithm;
  tok_message : string;
  tok_signature : Bytes;
  tok_exp : option N;
  tok_aud : option (list string);
  tok_iss : option (list string);
  tok_claims : CherenkovClaims;
}.

Definition has_claim (t : Token) (name : string) : bool :=
  if decide (name = "exp") then bool_decide (is_Some t.(tok_exp))
  else if decide (name = "aud") then bool_decide (is_Some t.(tok_aud))
  else if decide (name = "iss") then bool_decide (is_Some t.(tok_iss))
  else true.

(** A claim the token has must name one of the values; a claim it lacks is not
    looked at. *)
Definition claim_among (claim : option (list string)) (l : list string) : bool :=
  match claim with Some c => existsb (λ x, bool_decide (x ∈ l)) c | None => true end.

(** The checks of [decode] against the key whose signatures are [mac]. *)
Definition token_accepted (mac : Algorithm → string → Bytes) (now : N) (f : ValidationFields)
    (t : Token) : bool :=
  bool_decide (t.(tok_alg) ∈ f.(algorithms)) &&
  bool_decide (t.(tok_signature) = mac t.(tok_alg) t.(tok_message)) &&
  forallb (has_claim t) f.(required_spec_claims) &&
  (negb f.(validate_exp) ||
   match t.(tok_exp) with Some e => (now <=? e + f.(leeway))%N | None => true end) &&
  (negb f.(validate_aud) ||
   match f.(aud) with
   | Some l => claim_among t.(tok_aud) l
   | None => bool_decide (default [] t.(tok_aud) = [])
   end) &&
  match f.(iss) with Some l => claim_among t.(tok_iss) l | None => true end.

(** [Validation::new] asks for [exp] alone, with a minute of leeway; the setters set
    their field; [decode] accepts what passes the checks.  [mac] is the HMAC of
    each algorithm (RFC 7518). *)
Class JwtLibLaws (J : JwtLib) : Type := {
  fields : Validation → ValidationFields;
  parse_token : string → option Token;
  mac : Algorithm → Bytes → string → Bytes;
  new_fields a : fields (Validation_new a)
    = mk_ValidationFields [a] ["exp"] 60 true true None None;
  set_audience_fields v l : fields (set_audience v l) = with_aud l (fields v);
  set_issuer_fields v l : fields (set_issuer v l) = with_iss l (fields v);
  set_validate_aud_fields b v : fields (set_validate_aud b v) = with_validate_aud b (fields v);
  decode_accepts now token k v c :
    decode now token (from_secret k) v = Ok c ↔
    ∃ t, parse_token token = Some t ∧ tok_claims t = c ∧
      token_accepted (λ a, mac a k) now (fields v) t = true;
}.

Lemma decode_refuses `{L : JwtLibLaws} now token k v :
  (∀ t, parse_token token = Some t → token_accepted (λ a, mac a k) now (fields v) t = false) →
  ∃ e, decode now token (from_secret k) v = Err e.
Proof.
  intros H. destruct (decode _ _ _ _) as [c|e] eqn:E; [|eauto].
  apply decode_accepts in E as (t & Ht & _ & Ha). by rewrite (H t Ht) in Ha.
Qed.

Record JwtAuthBuilder : Type := mk_JwtAuthBuilder {
  secret : option Bytes;
  builder_algorithm : JwtAlgorithm;
  audiences : list string;
  issuer : option string;
}.

Definition jwt_builder : JwtAuthBuilder := mk_JwtAuthBuilder None Hs256 [] None.
Definition with_hmac_secret (self : JwtAuthBuilder) (s : Bytes) : JwtAuthBuilder :=
  mk_JwtAuthBuilder (Some s) self.(builder_algorithm) self.(audiences) self.(issuer).
Definition with_algorithm (self : JwtAuthBuilder) (alg : JwtAlgorithm) : JwtAuthBuilder :=
  mk_JwtAuthBuilder self.(secret) alg self.(audiences) self.(issuer).
Definition with_audience (self : JwtAuthBuilder) (audience : string) : JwtAuthBuilder :=
  mk_JwtAuthBuilder self.(secret) self.(builder_algorithm) (self.(audiences) ++ [audience])
    self.(issuer).
Definition with_issuer (self : JwtAuthBuilder) (iss : string) : JwtAuthBuilder :=
  mk_JwtAuthBuilder self.(secret) self.(builder_algorithm) self.(audiences) (Some iss).

Section jwt.
Context `{J : JwtLib}.

Record JwtAuthenticator : Type := mk_JwtAuthenticator {
  key : DecodingKey;
  validation : Validation;
}.

(** [None] is the panic of [expect]: no secret was supplied. *)
Definition jwt_build (self : JwtAuthBuilder) : option JwtAuthenticator :=
  match self.(secret) with
  | None => None
  | Some secret =>
      let validation := Validation_new (Algorithm_from self.(builder_algorithm)) in
      let validation :=
        if negb (bool_decide (self.(audiences) = []))
        then set_audience validation self.(audiences)
        else set_validate_aud false validation in
      let validation :=
        match self.(issuer) with
        | Some iss => set_issuer validation [iss]
        | None => validation
        end in
      Some (mk_JwtAuthenticator (from_secret secret) validation)
  end.

Definition jwt_authenticate {W} (clock : W → N) (self : JwtAuthenticator) (token : string) :
    io W AuthError SessionClaims := λ w,
  match result_map_err InvalidToken (decode (clock w) token self.(key) self.(validation)) with
  | Ok claims => (Ok (mk_SessionClaims claims.(sub) claims.(cc_permissions) claims.(exp)), w)
  | Err e => (Err e, w)
  end.

Definition jwt_authenticator {W} (clock : W → N) (self : JwtAuthenticator) :
    Authenticator W := {|
  auth_name := "jwt";
  allow_anonymous := false;
  authenticate := jwt_authenticate clock self;
|}.

(** What the configuration demands of a token at time [now]: signed with the secret
    and the configured algorithm, not expired for more than a minute, and, as far as
    the token names any, for a configured audience and from the configured issuer. *)
Definition token_meets `{L : !JwtLibLaws J} (b : JwtAuthBuilder) (now : N) (t : Token) : Prop :=
  (∃ s, b.(secret) = Some s ∧
     t.(tok_signature) = mac t.(tok_alg) s t.(tok_message)) ∧
  t.(tok_alg) = Algorithm_from b.(builder_algorithm) ∧
  (∃ e, t.(tok_exp) = Some e ∧ (now ≤ e + 60)%N) ∧
  (∀ l, t.(tok_aud) = Some l → b.(audiences) ≠ [] → ∃ x, x ∈ l ∧ x ∈ b.(audiences)) ∧
  (∀ l i, t.(tok_iss) = Some l → b.(issuer) = Some i → i ∈ l).

Lemma claim_among_true claim l :
  claim_among claim l = true ↔ ∀ c, claim = Some c → ∃ x, x ∈ c ∧ x ∈ l.
Proof.
  destruct claim as [c|]; simpl; [|by split]. rewrite existsb_exists.
  setoid_rewrite <-list_elem_of_In. setoid_rewrite bool_decide_eq_true.
  split; [intros H c' [= <-]; exact H|eauto].
Qed.

Lemma built_fields `{L : !JwtLibLaws J} b a :
  jwt_build b = Some a →
  fields a.(validation)
  = mk_ValidationFields [Algorithm_from b.(builder_algorithm)] ["exp"] 60 true
      (negb (bool_decide (b.(audiences) = [])))
      (if bool_decide (b.(audiences) = []) then None else Some b.(audiences))
      ((λ i, [i]) <$> b.(issuer)) ∧
  ∃ s, b.(secret) = Some s ∧ a.(key) = from_secret s.
Proof.
  unfold jwt_build. destruct (secret b) as [s|]; [|done]. intros [= <-]. simpl. split; [|eauto].
  case_bool_decide; simpl; destruct (issuer b); simpl;
    by rewrite ?set_issuer_fields, ?set_audience_fields, ?set_validate_aud_fields, new_fields.
Qed.

(** A built authenticator accepts exactly the tokens that meet its configuration,
    with their claims; every failure is an invalid token, and the check changes
    nothing.  A token that names no audience or no issuer passes whatever audiences
    and issuer are configured. *)
Theorem jwt_accepts `{L : !JwtLibLaws J} {W} (clock : W → N) (b : JwtAuthBuilder)
    (a : JwtAuthenticator) (token : string) (w : W) (Hb : jwt_build b = Some a) :
  let '(r, w') := authenticate (jwt_authenticator clock a) token w in
  w' = w ∧
  (∀ cl, r = Ok cl ↔ ∃ t, parse_token token = Some t ∧ token_meets b (clock w) t ∧
     cl = mk_SessionClaims t.(tok_claims).(sub) t.(tok_claims).(cc_permissions)
            t.(tok_claims).(exp)) ∧
  (∀ e, r = Err e → ∃ msg, e = InvalidToken msg).
Proof.
  destruct (built_fields b a Hb) as (Hf & s & Hs & Hk). simpl. unfold jwt_authenticate. rewrite Hk.
  assert (∀ t, token_accepted (λ a, mac a s) (clock w) (fields a.(validation)) t = true
    ↔ token_meets b (clock w) t) as Hacc.
  { intros t. rewrite Hf. unfold token_accepted, token_meets, has_claim. cbn. rewrite Hs.
    rewrite !andb_true_iff, !bool_decide_eq_true, list_elem_of_singleton.
    rewrite (decide_True (P:="exp" = "exp")), bool_decide_eq_true by done. split.
    - intros (((((H1 & H2) & [[e He] _]) & H4) & H5) & H6). rewrite He in *.
      apply N.leb_le in H4. split; [by exists s|]. split; [done|].
      split; [by exists e|]. split.
      + intros l Hl Hne. rewrite bool_decide_false in H5 by done.
        by apply (proj1 (claim_among_true _ _) H5).
      + intros l i Hl Hi. rewrite Hi in H6.
        destruct (proj1 (claim_among_true _ _) H6 l Hl) as (x & Hx & Hin).
        by apply list_elem_of_singleton in Hin as ->.
    - intros ((s' & [= <-] & H2) & H1 & (e & He & Hle) & H5 & H6). rewrite He.
      split_and!; [done|done|eauto|done|by apply N.leb_le| |].
      + case_bool_decide; [done|]. apply claim_among_true; eauto.
      + destruct (issuer b) as [i|]; [|done]. apply claim_among_true. intros c Hc'. exists i.
        split; [eauto|]. by apply list_elem_of_singleton. }
  destruct (decode _ _ _ _) as [c|e] eqn:E; simpl; (split; [done|split; [intros cl|]]).
  - apply decode_accepts in E as (t & Ht & <- & Ha%Hacc). split.
    + intros [= <-]. eauto.
    + intros (t' & Ht' & _ & ->). by simplify_eq.
  - done.
  - split; [done|]. intros (t & Ht & Hm%Hacc & _).
    assert (decode (clock w) token (from_secret s) (validation a) = Ok (tok_claims t)) as Hd
      by (apply decode_accepts; eauto). congruence.
  - intros e' [= <-]. eauto.
Qed.
End jwt.

(** ** An instance

    The token [sub:key], or [sub;aud;iss:key], is signed by naming its key; every
    token expires at time zero, where the clocks of the samples start. *)
Definition parse_plain (token : string) : option Token :=
  '(body, k) ← split_once ":"%char token;
  let token := mk_Token HS256 body (bytes_of_string k) (Some 0%N) in
  match split_once ";"%char body with
  | Some (s, rest) =>
      '(a, i) ← split_once ";"%char rest;
      Some (token (Some [a]) (Some [i]) (mk_CherenkovClaims s [] 0))
  | None => Some (token None None (mk_CherenkovClaims body [] 0))
  end.

(** A library over any format whose signatures are the key. *)
Definition checked_decode (parse : string → option Token) (now : N) (token : string)
    (key : Bytes) (f : ValidationFields) : result string CherenkovClaims :=
  match parse token with
  | Some t => if token_accepted (λ _ _, key) now f t then Ok t.(tok_claims) else Err "refused"
  | None => Err "InvalidToken"
  end.

Definition format_jwt (parse : string → option Token) : JwtLib := {|
  DecodingKey := Bytes;
  from_secret b := b;
  Validation := ValidationFields;
  Validation_new a := mk_ValidationFields [a] ["exp"] 60 true true None None;
  set_audience f l := with_aud l f;
  set_issuer f l := with_iss l f;
  set_validate_aud b f := with_validate_aud b f;
  decode := checked_decode parse;
|}.

#[export] Instance format_jwt_laws parse : JwtLibLaws (format_jwt parse).
Proof.
  refine {| fields := (λ f, f) : @Validation (format_jwt parse) → _; parse_token := parse;
            mac := λ _ k _, k |}; try done.
  intros now token k v c. simpl. unfold checked_decode. destruct (parse token) as [t|].
  - destruct (token_accepted _ _ _ _) eqn:E; split.
    + intros [= <-]. eauto.
    + intros (t' & [= <-] & <- & _). done.
    + done.
    + intros (t' & [= <-] & _ & Ha). congruence.
  - split; [done|]. by intros (t & ? & _).
Defined.

Definition PlainJwt : JwtLib := format_jwt parse_plain.
#[export] Instance PlainJwtLaws : JwtLibLaws PlainJwt := format_jwt_laws parse_plain.

Lemma jwt_accepts_witness :
  ∃ a, jwt_build (J:=PlainJwt) (with_issuer (with_audience
         (with_hmac_secret jwt_builder (bytes_of_string "k")) "chat") "idp") = Some a ∧
    (authenticate (jwt_authenticator (J:=PlainJwt) (λ w : N, w) a) "alice;chat;idp:k" 0%N).1
    = Ok (mk_SessionClaims "alice" [] 0) ∧
    is_ok (authenticate (jwt_authenticator (J:=PlainJwt) (λ w : N, w) a) "alice;other;idp:k" 0%N).1
    = false.
Proof.
  eexists. split; [reflexivity|]. split; [|reflexivity].
  pose proof (jwt_accepts (J:=PlainJwt) (λ w : N, w) (with_issuer (with_audience
         (with_hmac_secret jwt_builder (bytes_of_string "k")) "chat") "idp") _ "alice;chat;idp:k" 0%N
         eq_refl) as H.
  destruct (authenticate _ _ _) as [r w']. destruct H as (_ & H & _). apply H.
  eexists. split; [reflexivity|]. split; [|reflexivity]. split_and!; try (by eexists).
  - intros l [= <-] _. exists "chat". split; by apply list_elem_of_singleton.
  - intros l i [= <-] [= <-]. by apply list_elem_of_singleton.
Defined.
