(* ===== verification/Session.v ===== *)
(** * Sessions and the session registry

    crates/cherenkov-core/src/session.rs.  The registry keeps two indices: id to
    session and channel to subscriber ids.  The sessions themselves are shared
    ([Arc<Session>]): the registry holds pointers, the hub's state holds the heap
    they point to (Hub.v). *)
From S2P Require Import Prelude Traits.

(** ** [tokio::sync::Notify], as far as [notify_waiters] goes

    A [Notified] future is woken by the calls made after it was created, and by
    those only: no permit is stored for whoever asks later. *)
Class Notifier : Type := {
  Notify : Type;
  Notified : Type;
  Notify_new : Notify;
  notify_waiters : Notify → Notify;
  notified : Notify → Notified;
  notified_ready : Notify → Notified → bool;
}.

Class NotifierLaws (NO : Notifier) : Prop := {
  notified_pending n : notified_ready n (notified n) = false;
  notified_woken n : notified_ready (notify_waiters n) (notified n) = true;
}.

(** An instance: the number of calls so far. *)
Definition CountNotifier : Notifier := {|
  Notify := N;
  Notified := N;
  Notify_new := 0%N;
  notify_waiters n := (n + 1)%N;
  notified n := n;
  notified_ready n w := bool_decide (w < n)%N;
|}.

#[export] Instance CountNotifierLaws : NotifierLaws CountNotifier.
Proof.
  split; intros n; simpl; [apply bool_decide_eq_false|apply bool_decide_eq_true]; simpl; lia.
Qed.

(** ** [Session] *)

Section session.
Context `{NO : Notifier}.

(** The outbox and the forwarders are named by the numbers the hub's state gives
    them: a sender of the bounded channel and the handle of a spawned task. *)
Record Session : Type := mk_Session {
  id : N;
  outbox : N;
  subscriptions : gmap string N;
  claims : option SessionClaims;
  shutdown : Notify;
}.

Definition Session_new (id outbox : N) : Session := mk_Session id outbox ∅ None Notify_new.

Definition set_subscriptions (s : Session) (m : gmap string N) : Session :=
  mk_Session s.(id) s.(outbox) m s.(claims) s.(shutdown).

Definition shutdown_notifier (s : Session) : Notify := s.(shutdown).
Definition signal_shutdown (s : Session) : Session :=
  mk_Session s.(id) s.(outbox) s.(subscriptions) s.(claims) (notify_waiters s.(shutdown)).
Definition set_claims (c : SessionClaims) (s : Session) : option SessionClaims * Session :=
  (s.(claims), mk_Session s.(id) s.(outbox) s.(subscriptions) (Some c) s.(shutdown)).
Definition session_channels (s : Session) : list string := (map_to_list s.(subscriptions)).*1.
Definition has_subscription (s : Session) (channel : string) : bool :=
  bool_decide (is_Some (s.(subscriptions) !! channel)).

(** The entry API: the forwarder is handed back when the slot is taken. *)
Definition insert_subscription (channel : string) (forwarder : N) (s : Session) :
    result N unit * Session :=
  match s.(subscriptions) !! channel with
  | Some _ => (Err forwarder, s)
  | None => (Ok (), set_subscriptions s (<[channel := forwarder]> s.(subscriptions)))
  end.

Definition remove_subscription (channel : string) (s : Session) : option N * Session :=
  match s.(subscriptions) !! channel with
  | Some task => (Some task, set_subscriptions s (delete channel s.(subscriptions)))
  | None => (None, s)
  end.

(** The tasks to abort, in the order of the map, and the emptied session. *)
Definition abort_all (s : Session) : list N * Session :=
  ((map_to_list s.(subscriptions)).*2, set_subscriptions s ∅).
End session.

(** ** [SessionRegistry] *)

Record SessionRegistry : Type := mk_SessionRegistry {
  next_id_ctr : N;
  sessions : gmap N N;
  channels : gmap string (list N);
}.

Definition SessionRegistry_new : SessionRegistry := mk_SessionRegistry 0 ∅ ∅.

Definition next_id (reg : SessionRegistry) : N * SessionRegistry :=
  (reg.(next_id_ctr),
   mk_SessionRegistry (u64_wrapping_add reg.(next_id_ctr) 1) reg.(sessions) reg.(channels)).

(** [register]; the [debug_assert!] is not part of a release build. *)
Definition register (sid ptr : N) (reg : SessionRegistry) : SessionRegistry :=
  mk_SessionRegistry reg.(next_id_ctr) (<[sid := ptr]> reg.(sessions)) reg.(channels).

Definition get (reg : SessionRegistry) (sid : N) : option N := reg.(sessions) !! sid.

(** [ids.retain(|sid| sid != id); !ids.is_empty()]. *)
Definition scrub (sid : N) (ids : list N) : option (list N) :=
  match filter (λ i, i ≠ sid) ids with
  | [] => None
  | ids => Some ids
  end.

Definition deregister (sid : N) (reg : SessionRegistry) : option N * SessionRegistry :=
  match reg.(sessions) !! sid with
  | Some ptr => (Some ptr, mk_SessionRegistry reg.(next_id_ctr) (delete sid reg.(sessions))
                             (omap (scrub sid) reg.(channels)))
  | None => (None, reg)
  end.

Definition len (reg : SessionRegistry) : nat := size reg.(sessions).
Definition is_empty (reg : SessionRegistry) : bool := bool_decide (reg.(sessions) = ∅).
Definition snapshot (reg : SessionRegistry) : list N := (map_to_list reg.(sessions)).*2.
Definition ids (reg : SessionRegistry) : list N := (map_to_list reg.(sessions)).*1.
Definition subscribers_of (reg : SessionRegistry) (channel : string) : list N :=
  default [] (reg.(channels) !! channel).

Definition add_to_index (sid : N) (channel : string) (reg : SessionRegistry) : SessionRegistry :=
  mk_SessionRegistry reg.(next_id_ctr) reg.(sessions)
    (<[channel := default [] (reg.(channels) !! channel) ++ [sid]]> reg.(channels)).

Definition remove_from_index (sid : N) (channel : string) (reg : SessionRegistry) :
    SessionRegistry :=
  match reg.(channels) !! channel with
  | None => reg
  | Some entry =>
      match scrub sid entry with
      | Some entry => mk_SessionRegistry reg.(next_id_ctr) reg.(sessions)
                        (<[channel := entry]> reg.(channels))
      | None => mk_SessionRegistry reg.(next_id_ctr) reg.(sessions)
                  (delete channel reg.(channels))
      end
  end.

(** ** Laws of the reverse index *)

Lemma default_scrub sid l : default [] (scrub sid l) = filter (λ i, i ≠ sid) l.
Proof. unfold scrub. by destruct (filter _ l). Qed.

Lemma scrub_Some sid l l' : scrub sid l = Some l' → l' = filter (λ i, i ≠ sid) l ∧ l' ≠ [].
Proof. unfold scrub. destruct (filter _ l); naive_solver. Qed.

Lemma scrub_None sid l : scrub sid l = None ↔ filter (λ i, i ≠ sid) l = [].
Proof. unfold scrub. by destruct (filter _ l). Qed.

Lemma subscribers_of_add sid ch reg ch' :
  subscribers_of (add_to_index sid ch reg) ch'
  = if decide (ch = ch') then subscribers_of reg ch ++ [sid] else subscribers_of reg ch'.
Proof.
  unfold subscribers_of. simpl. case_decide as H.
  - subst. by rewrite lookup_insert_eq.
  - by rewrite lookup_insert_ne.
Qed.

Lemma subscribers_of_remove sid ch reg ch' :
  subscribers_of (remove_from_index sid ch reg) ch'
  = if decide (ch = ch') then filter (λ i, i ≠ sid) (subscribers_of reg ch)
    else subscribers_of reg ch'.
Proof.
  unfold remove_from_index, subscribers_of.
  destruct (channels reg !! ch) as [l|] eqn:El.
  - pose proof (default_scrub sid l) as Hs. destruct (scrub sid l) as [l'|]; simpl in *.
    + case_decide; subst; [by rewrite lookup_insert_eq|by rewrite lookup_insert_ne].
    + case_decide; subst; [by rewrite lookup_delete_eq|by rewrite lookup_delete_ne].
  - case_decide; [subst; by rewrite El|done].
Qed.

Lemma subscribers_of_deregister sid reg ch :
  is_Some (reg.(sessions) !! sid) →
  subscribers_of (deregister sid reg).2 ch = filter (λ i, i ≠ sid) (subscribers_of reg ch).
Proof.
  intros [p Hp]. unfold deregister, subscribers_of. rewrite Hp. simpl.
  rewrite lookup_omap. destruct (channels reg !! ch) as [l|]; simpl; [apply default_scrub|done].
Qed.

Lemma sessions_remove_from_index sid ch reg :
  (remove_from_index sid ch reg).(sessions) = reg.(sessions).
Proof. unfold remove_from_index. destruct (channels reg !! ch); [by destruct (scrub _ _)|done]. Qed.

Lemma next_id_remove_from_index sid ch reg :
  (remove_from_index sid ch reg).(next_id_ctr) = reg.(next_id_ctr).
Proof. unfold remove_from_index. destruct (channels reg !! ch); [by destruct (scrub _ _)|done]. Qed.

(** Entries of the index are never empty lists. *)
Definition no_empty_entry (reg : SessionRegistry) : Prop :=
  ∀ ch l, reg.(channels) !! ch = Some l → l ≠ [].

Lemma no_empty_entry_add sid ch reg :
  no_empty_entry reg → no_empty_entry (add_to_index sid ch reg).
Proof.
  intros H ch' l. simpl. rewrite lookup_insert_Some. intros [[_ <-]|[_ ?]]; [|eauto].
  intros [_ ?]%app_nil. done.
Qed.

Lemma no_empty_entry_remove sid ch reg :
  no_empty_entry reg → no_empty_entry (remove_from_index sid ch reg).
Proof.
  intros H. unfold remove_from_index. destruct (channels reg !! ch) as [l0|]; [|done].
  destruct (scrub sid l0) as [l1|] eqn:E; intros ch' l; simpl.
  - rewrite lookup_insert_Some. apply scrub_Some in E as [_ ?]. intros [[_ <-]|[_ ?]]; eauto.
  - rewrite lookup_delete_Some. intros [_ ?]; eauto.
Qed.

Lemma no_empty_entry_deregister sid reg :
  no_empty_entry reg → no_empty_entry (deregister sid reg).2.
Proof.
  intros H. unfold deregister. destruct (sessions reg !! sid); [|done].
  intros ch l. simpl. rewrite lookup_omap, bind_Some. intros (l0 & _ & Hs).
  by apply scrub_Some in Hs as [_ ?].
Qed.

#[export] Hint Resolve no_empty_entry_add no_empty_entry_remove no_empty_entry_deregister
  : cherenkov.
