(* ===== verification/Hub.v ===== *)
(** * The hub

    crates/cherenkov-core/src/hub.rs.  The hub's clones share one state; a handler
    is a computation over it.  Besides the registry, the state has the heap of
    [Arc<Session>] allocations, the handles the transports hold, the forwarder
    tasks, the outboxes and the memory [W] of the plugged-in kinds, broker,
    validator, authenticator and ACL. *)
From S2P Require Import Prelude Protocol Traits Session.

(** ** [tokio::sync::mpsc]

    A send appends to the queue, or fails once the receiver is gone.  A send that
    finds the channel full suspends until the receiver has taken a frame: the
    queue here includes the frames of suspended senders. *)
Class Mpsc : Type := {
  MChan : Type;
  mpsc_channel : N → MChan;
  mpsc_send : ServerFrame → MChan → bool * MChan;
  mpsc_recv : MChan → option ServerFrame * MChan;
  mpsc_close : MChan → MChan;
}.

Class MpscLaws (M : Mpsc) : Type := {
  mpsc_queue : MChan → list ServerFrame;
  mpsc_closed : MChan → bool;
  mpsc_channel_queue n : mpsc_queue (mpsc_channel n) = [];
  mpsc_channel_open n : mpsc_closed (mpsc_channel n) = false;
  mpsc_send_open f c : mpsc_closed c = false → ∃ c', mpsc_send f c = (true, c') ∧
    mpsc_queue c' = mpsc_queue c ++ [f] ∧ mpsc_closed c' = false;
  mpsc_send_closed f c : mpsc_closed c = true → mpsc_send f c = (false, c);
  mpsc_recv_some f q c : mpsc_queue c = f :: q → ∃ c', mpsc_recv c = (Some f, c') ∧
    mpsc_queue c' = q ∧ mpsc_closed c' = mpsc_closed c;
  mpsc_recv_none c : mpsc_queue c = [] → mpsc_recv c = (None, c);
  mpsc_close_closed c : mpsc_closed (mpsc_close c) = true;
}.

(** An instance: the queue and the closed flag. *)
Definition QueueMpsc : Mpsc := {|
  MChan := list ServerFrame * bool;
  mpsc_channel _ := ([], false);
  mpsc_send f c := if c.2 then (false, c) else (true, (c.1 ++ [f], c.2));
  mpsc_recv c := match c.1 with f :: q => (Some f, (q, c.2)) | [] => (None, c) end;
  mpsc_close c := (c.1, true);
|}.

#[export] Instance QueueMpscLaws : MpscLaws QueueMpsc.
Proof.
  refine {| mpsc_queue := (fst : MChan (Mpsc:=QueueMpsc) → _); mpsc_closed := snd |}; simpl; try done.
  - intros f [q b]; simpl. intros ->. eauto.
  - intros f [q b]; simpl. by intros ->.
  - intros f q [q' b]; simpl. intros ->. eauto.
  - intros [q b]; simpl. by intros ->.
Defined.

(** The part of a channel name before the first dot. *)
Definition namespace_of (channel : string) : string :=
  match split_once "."%char channel with
  | Some (ns, _) => ns
  | None => channel
  end.

Section hub.
Context {W Str : Type} `{NO : Notifier} `{M : Mpsc}.

Record Hub : Type := mk_Hub {
  kind : ChannelKind W;
  namespace_kinds : gmap string (ChannelKind W);
  broker : Broker W Str;
  validator : SchemaValidator W;
  authenticator : Authenticator W;
  acl : AclChecker W;
}.

(** ** The builder; transports are carried along untouched *)

Record HubBuilder (T : Type) : Type := mk_HubBuilder {
  b_kind : option (ChannelKind W);
  b_namespace_kinds : gmap string (ChannelKind W);
  b_broker : option (Broker W Str);
  b_validator : option (SchemaValidator W);
  b_authenticator : option (Authenticator W);
  b_acl : option (AclChecker W);
  b_transports : list T;
}.
Arguments mk_HubBuilder {T}.
Arguments b_kind {T}. Arguments b_namespace_kinds {T}. Arguments b_broker {T}.
Arguments b_validator {T}. Arguments b_authenticator {T}. Arguments b_acl {T}.
Arguments b_transports {T}.

Definition HubBuilder_new {T} : HubBuilder T := mk_HubBuilder None ∅ None None None None [].
Definition with_channel_kind {T} (b : HubBuilder T) k :=
  mk_HubBuilder (Some k) b.(b_namespace_kinds) b.(b_broker) b.(b_validator)
    b.(b_authenticator) b.(b_acl) b.(b_transports).
Definition with_channel_kind_for {T} (b : HubBuilder T) (namespace : string) k :=
  mk_HubBuilder b.(b_kind) (<[namespace := k]> b.(b_namespace_kinds)) b.(b_broker)
    b.(b_validator) b.(b_authenticator) b.(b_acl) b.(b_transports).
Definition with_broker {T} (b : HubBuilder T) br :=
  mk_HubBuilder b.(b_kind) b.(b_namespace_kinds) (Some br) b.(b_validator)
    b.(b_authenticator) b.(b_acl) b.(b_transports).
Definition with_schema_validator {T} (b : HubBuilder T) v :=
  mk_HubBuilder b.(b_kind) b.(b_namespace_kinds) b.(b_broker) (Some v)
    b.(b_authenticator) b.(b_acl) b.(b_transports).
Definition with_authenticator {T} (b : HubBuilder T) a :=
  mk_HubBuilder b.(b_kind) b.(b_namespace_kinds) b.(b_broker) b.(b_validator)
    (Some a) b.(b_acl) b.(b_transports).
Definition with_acl_checker {T} (b : HubBuilder T) a :=
  mk_HubBuilder b.(b_kind) b.(b_namespace_kinds) b.(b_broker) b.(b_validator)
    b.(b_authenticator) (Some a) b.(b_transports).
Definition with_transport {T} (b : HubBuilder T) t :=
  mk_HubBuilder b.(b_kind) b.(b_namespace_kinds) b.(b_broker) b.(b_validator)
    b.(b_authenticator) b.(b_acl) (b.(b_transports) ++ [t]).

(** [HubBuilt] is the pair of the hub and the transports. *)
Definition build {T} (self : HubBuilder T) : result string (Hub * list T) :=
  let? kind := ok_or self.(b_kind) "no channel kind registered" in
  let? broker := ok_or self.(b_broker) "no broker registered" in
  let validator := default AllowAllValidator self.(b_validator) in
  let authenticator := default AllowAllAuthenticator self.(b_authenticator) in
  let acl := default AllowAllAcl self.(b_acl) in
  Ok (mk_Hub kind self.(b_namespace_kinds) broker validator authenticator acl,
      self.(b_transports)).

(** ** The shared state *)

(** A spawned forwarder: the captures of its closure. *)
Record Task : Type := mk_Task {
  t_stream : Str;
  t_outbox : N;
  t_channel : string;
}.

Record Metrics : Type := mk_Metrics {
  sessions_opened_total : N;
  sessions_closed_total : N;
  sessions_kicked_total : N;
  sessions_active : N;
  publications_total : N;
}.

(** [heap] and [next_ptr] allocate sessions; [held] are the handles transports
    own, besides those of the registry. *)
Record HubCore : Type := mk_HubCore {
  registry : SessionRegistry;
  heap : gmap N Session;
  next_ptr : N;
  held : gset N;
  tasks : gmap N Task;
  next_task : N;
  metrics : Metrics;
}.

Record HubSt : Type := mk_HubSt {
  core : HubCore;
  outboxes : gmap N MChan;
  world : W;
}.

Definition hub_init (w : W) : HubSt :=
  mk_HubSt (mk_HubCore SessionRegistry_new ∅ 0 ∅ ∅ 0 (mk_Metrics 0 0 0 0 0)) ∅ w.

Definition world_lens : lens HubSt W.
Proof.
  refine {| view := world; update w st := mk_HubSt st.(core) st.(outboxes) w |}; simpl; try done.
  by intros [].
Defined.

Definition set_core (c : HubCore) (st : HubSt) : HubSt := mk_HubSt c st.(outboxes) st.(world).
Definition set_registry (r : SessionRegistry) (c : HubCore) : HubCore :=
  mk_HubCore r c.(heap) c.(next_ptr) c.(held) c.(tasks) c.(next_task) c.(metrics).
Definition set_heap (h : gmap N Session) (c : HubCore) : HubCore :=
  mk_HubCore c.(registry) h c.(next_ptr) c.(held) c.(tasks) c.(next_task) c.(metrics).
Definition set_held (h : gset N) (c : HubCore) : HubCore :=
  mk_HubCore c.(registry) c.(heap) c.(next_ptr) h c.(tasks) c.(next_task) c.(metrics).
Definition set_tasks (t : gmap N Task) (c : HubCore) : HubCore :=
  mk_HubCore c.(registry) c.(heap) c.(next_ptr) c.(held) t c.(next_task) c.(metrics).
Definition set_metrics (m : Metrics) (c : HubCore) : HubCore :=
  mk_HubCore c.(registry) c.(heap) c.(next_ptr) c.(held) c.(tasks) c.(next_task) m.

(** [counter!(..).increment(1)] and [gauge!(..).set(len)]. *)
Definition count_opened (c : HubCore) : HubCore :=
  let m := c.(metrics) in
  set_metrics (mk_Metrics (m.(sessions_opened_total) + 1) m.(sessions_closed_total)
    m.(sessions_kicked_total) (N.of_nat (len c.(registry))) m.(publications_total)) c.
Definition count_closed (c : HubCore) : HubCore :=
  let m := c.(metrics) in
  set_metrics (mk_Metrics m.(sessions_opened_total) (m.(sessions_closed_total) + 1)
    m.(sessions_kicked_total) (N.of_nat (len c.(registry))) m.(publications_total)) c.
Definition count_kicked (c : HubCore) : HubCore :=
  let m := c.(metrics) in
  set_metrics (mk_Metrics m.(sessions_opened_total) m.(sessions_closed_total)
    (m.(sessions_kicked_total) + 1) (N.of_nat (len c.(registry))) m.(publications_total)) c.
Definition count_publication (c : HubCore) : HubCore :=
  let m := c.(metrics) in
  set_metrics (mk_Metrics m.(sessions_opened_total) m.(sessions_closed_total)
    m.(sessions_kicked_total) m.(sessions_active) (m.(publications_total) + 1)) c.

(** An [Arc] always points to an allocation ([core_wf] in HubInv.v): the
    default is never read. *)
Definition deref (c : HubCore) (ptr : N) : Session :=
  default (Session_new 0 0) (c.(heap) !! ptr).

Definition store (ptr : N) (s : Session) (c : HubCore) : HubCore :=
  set_heap (<[ptr := s]> c.(heap)) c.

(** ** Tasks and sends *)

Definition outbox_send (o : N) (f : ServerFrame) (st : HubSt) : bool * HubSt :=
  match st.(outboxes) !! o with
  | Some ch => let '(ok, ch') := mpsc_send f ch in
               (ok, mk_HubSt st.(core) (<[o := ch']> st.(outboxes)) st.(world))
  | None => (false, st)
  end.

Definition spawn (t : Task) (st : HubSt) : N * HubSt :=
  let c := st.(core) in
  (c.(next_task),
   set_core (mk_HubCore c.(registry) c.(heap) c.(next_ptr) c.(held)
               (<[c.(next_task) := t]> c.(tasks)) (c.(next_task) + 1)%N c.(metrics)) st).

(** A task that ends or is aborted drops what it captured, its stream above all. *)
Definition end_task (hub : Hub) (task : N) (st : HubSt) : HubSt :=
  match st.(core).(tasks) !! task with
  | Some t => mk_HubSt (set_tasks (delete task st.(core).(tasks)) st.(core)) st.(outboxes)
                (stream_drop hub.(broker) t.(t_stream) st.(world))
  | None => st
  end.

Definition abort_tasks (hub : Hub) (l : list N) (st : HubSt) : HubSt :=
  foldl (λ st task, end_task hub task st) st l.

(** One turn of the forwarder's loop. *)
Definition forward (hub : Hub) (task : N) (st : HubSt) : HubSt :=
  match st.(core).(tasks) !! task with
  | None => st
  | Some t =>
      let '(item, w) := stream_next hub.(broker) t.(t_stream) st.(world) in
      let st := mk_HubSt st.(core) st.(outboxes) w in
      match item with
      | Pending => st
      | Ready None => end_task hub task st
      | Ready (Some publication) =>
          let '(sent, st) := outbox_send t.(t_outbox) (SF_Publication publication) st in
          if sent then st else end_task hub task st
      end
  end.

(** ** The lifetime of a session *)

Definition referenced (c : HubCore) (ptr : N) : bool :=
  bool_decide (ptr ∈ c.(held)) ||
  bool_decide (c.(registry).(sessions) !! (deref c ptr).(id) = Some ptr).

(** Dropping an [Arc<Session>]: the last one runs [Drop for Session]. *)
Definition drop_arc (hub : Hub) (ptr : N) (st : HubSt) : HubSt :=
  if referenced st.(core) ptr then st
  else
    let '(handles, _) := abort_all (deref st.(core) ptr) in
    let st := abort_tasks hub handles st in
    set_core (set_heap (delete ptr st.(core).(heap)) st.(core)) st.

(** The transport lets go of the handle [open_session] gave it. *)
Definition release (hub : Hub) (ptr : N) (st : HubSt) : HubSt :=
  drop_arc hub ptr (set_core (set_held (st.(core).(held) ∖ {[ptr]}) st.(core)) st).

Definition open_session (hub : Hub) (outbox : N) (st : HubSt) : N * HubSt :=
  let c := st.(core) in
  let '(sid, reg) := next_id c.(registry) in
  let session := Session_new sid outbox in
  let session := if allow_anonymous hub.(authenticator)
                 then snd (set_claims anonymous session) else session in
  let ptr := c.(next_ptr) in
  let c := mk_HubCore (register sid ptr reg) (<[ptr := session]> c.(heap)) (ptr + 1)%N
             ({[ptr]} ∪ c.(held)) c.(tasks) c.(next_task) c.(metrics) in
  (ptr, set_core (count_opened c) st).

Definition close_session (hub : Hub) (sid : N) (st : HubSt) : HubSt :=
  let '(removed, reg) := deregister sid st.(core).(registry) in
  let st := set_core (set_registry reg st.(core)) st in
  match removed with
  | Some ptr => drop_arc hub ptr (set_core (count_closed st.(core)) st)
  | None => st
  end.

Definition kick_session (hub : Hub) (sid : N) (st : HubSt) : bool * HubSt :=
  match get st.(core).(registry) sid with
  | None => (false, st)
  | Some ptr =>
      let c := store ptr (signal_shutdown (deref st.(core) ptr)) st.(core) in
      let '(removed, reg) := deregister sid c.(registry) in
      let st := set_core (set_registry reg c) st in
      match removed with
      | Some ptr => (true, drop_arc hub ptr (set_core (count_kicked st.(core)) st))
      | None => (false, st)
      end
  end.

(** ** Handlers *)

Definition requires_connect (hub : Hub) : bool := negb (allow_anonymous hub.(authenticator)).

Definition on_world {E A} (f : E → HubError) (m : io W E A) : io HubSt HubError A :=
  io_map_err f (io_zoom world_lens m).

Definition get_session (sid : N) : io HubSt HubError N := λ st,
  (ok_or (get st.(core).(registry) sid) (SessionGone sid), st).

Definition read_session {A} (ptr : N) (f : Session → A) : io HubSt HubError A :=
  io_gets (λ st, f (deref st.(core) ptr)).

Definition modify_session {A} (ptr : N) (f : Session → A * Session) :
    io HubSt HubError A := λ st,
  let '(a, s) := f (deref st.(core) ptr) in (Ok a, set_core (store ptr s st.(core)) st).

Definition handle_connect (hub : Hub) (session_id request_id : N) (token : string) :
    io HubSt HubError ConnectOk :=
  let! session := get_session session_id in
  let! connected := read_session session (λ s, bool_decide (is_Some s.(claims))) in
  if connected && negb (allow_anonymous hub.(authenticator))
  then io_fail (AlreadyConnected session_id)
  else
    let! claims := on_world EAuth (authenticate hub.(authenticator) token) in
    let subject := claims.(subject) in
    let expires_at := claims.(expires_at) in
    modify_session session (set_claims claims) ;;
    io_ret (mk_ConnectOk request_id subject expires_at).

Definition kind_for (hub : Hub) (channel : string) : ChannelKind W :=
  default hub.(kind) (hub.(namespace_kinds) !! namespace_of channel).

Definition require_claims (hub : Hub) (session : N) : io HubSt HubError SessionClaims :=
  let! current := read_session session claims in
  match current with
  | Some claims => io_ret claims
  | None =>
      if allow_anonymous hub.(authenticator)
      then modify_session session (set_claims anonymous) ;; io_ret anonymous
      else let! sid := read_session session id in io_fail (NotConnected sid)
  end.

Definition enforce_acl (hub : Hub) (claims : SessionClaims) (action : AclAction)
    (channel : string) : io HubSt HubError unit :=
  let! decision := on_world EAcl (check hub.(acl) claims action channel) in
  match decision with
  | Allow => io_ret ()
  | Deny => io_fail (EAcl (Denied claims.(subject) (acl_action_as_str action) channel
                             "policy denied"))
  end.

(** The replay loop of [handle_subscribe]. *)
Fixpoint send_replayed (session_id o : N) (replayed : list Publication) :
    io HubSt HubError unit := λ st,
  match replayed with
  | [] => (Ok (), st)
  | publication :: replayed =>
      let '(sent, st) := outbox_send o (SF_Publication publication) st in
      if sent then send_replayed session_id o replayed st
      else (Err (SessionGone session_id), st)
  end.

(** The block under [if since_offset > 0], with its two early returns. *)
Definition replay (k : ChannelKind W) (session_id o : N) (channel : string)
    (since_offset : N) : io HubSt HubError unit :=
  if decide (0 < since_offset)%N then
    let! replayed := on_world EChannel (replay_since k channel since_offset) in
    send_replayed session_id o replayed
  else io_ret ().

Definition drop_stream (hub : Hub) (stream : Str) : io HubSt HubError unit :=
  io_modify (λ st, update world_lens (stream_drop hub.(broker) stream st.(world)) st).

Definition handle_subscribe (hub : Hub) (session_id request_id : N) (channel : string)
    (since_offset : N) : io HubSt HubError SubscribeOk :=
  let! session := get_session session_id in
  let! claims := require_claims hub session in
  enforce_acl hub claims ActSubscribe channel ;;
  let! subscribed := read_session session (λ s, has_subscription s channel) in
  if subscribed : bool then io_fail (AlreadySubscribed session_id channel) else
  let k := kind_for hub channel in
  let! cursor := on_world EChannel (on_subscribe k channel) in
  let unwind := io_try (on_world EChannel (on_unsubscribe k channel)) in
  let! opened := io_try (on_world EBroker (broker_subscribe hub.(broker) channel)) in
  match opened with
  | Err err => unwind ;; io_fail err
  | Ok stream =>
      let! o := read_session session outbox in
      let! replayed := io_try (replay k session_id o channel since_offset) in
      match replayed with
      | Err err => unwind ;; drop_stream hub stream ;; io_fail err
      | Ok _ =>
          let! forwarder := (λ st, let '(t, st) := spawn (mk_Task stream o channel) st in
                                   (Ok t, st)) in
          let! inserted := modify_session session (insert_subscription channel forwarder) in
          match inserted with
          | Err stray =>
              io_modify (end_task hub stray) ;; unwind ;;
              io_fail (AlreadySubscribed session_id channel)
          | Ok _ =>
              io_modify (λ st, set_core (set_registry
                (add_to_index session_id channel st.(core).(registry)) st.(core)) st) ;;
              io_ret (mk_SubscribeOk request_id channel cursor.(epoch) cursor.(offset))
          end
      end
  end.

Definition handle_unsubscribe (hub : Hub) (session_id request_id : N) (channel : string) :
    io HubSt HubError UnsubscribeOk :=
  let! session := get_session session_id in
  let! removed := modify_session session (remove_subscription channel) in
  match removed with
  | None => io_fail (NotSubscribed session_id channel)
  | Some forwarder =>
      io_modify (end_task hub forwarder) ;;
      io_modify (λ st, set_core (set_registry
        (remove_from_index session_id channel st.(core).(registry)) st.(core)) st) ;;
      on_world EChannel (on_unsubscribe (kind_for hub channel) channel) ;;
      io_ret (mk_UnsubscribeOk request_id channel)
  end.

Definition handle_publish (hub : Hub) (session_id : N) (channel : string) (data : Bytes) :
    io HubSt HubError Publication :=
  let! session := get_session session_id in
  let! claims := require_claims hub session in
  enforce_acl hub claims ActPublish channel ;;
  on_world ESchema (validate hub.(validator) channel data) ;;
  let! publication := on_world EChannel (on_publish (kind_for hub channel) channel data) in
  on_world EBroker (broker_publish hub.(broker) channel publication) ;;
  io_modify (λ st, set_core (count_publication st.(core)) st) ;;
  io_ret publication.
End hub.
