(* ===== verification/Node.v ===== *)
(** * A single node: the default deployment

    What crates/cherenkov-server/src/app.rs plugs together when nothing else is
    configured: the pub/sub kind and the in-process broker, side by side in one
    memory with a clock.  It instantiates the theorems about the hub. *)
From S2P Require Import Prelude Protocol Traits PubSub PubSubProps MemoryBroker BrokerProps.
From S2P Require Import Session Hub NamespaceAcl Jwt.

Section node.
Context `{B : Broadcast}.

Record NodeW : Type := mk_NodeW {
  nw_clock : N;
  nw_kind : PubSubChannel;
  nw_broker : MemoryBroker;
}.

Definition kind_lens : lens NodeW PubSubChannel.
Proof.
  refine {| view := nw_kind; update k w := mk_NodeW w.(nw_clock) k w.(nw_broker) |}; try done.
  by intros [].
Defined.

Definition broker_lens : lens NodeW MemoryBroker.
Proof.
  refine {| view := nw_broker; update b w := mk_NodeW w.(nw_clock) w.(nw_kind) b |}; try done.
  by intros [].
Defined.

Definition node_hub (v : SchemaValidator NodeW) (a : Authenticator NodeW) (acl : AclChecker NodeW) :
    @Hub NodeW MemStream :=
  mk_Hub (pubsub_kind kind_lens nw_clock) ∅ (memory_broker broker_lens) v a acl.

Definition open_node : @Hub NodeW MemStream :=
  node_hub AllowAllValidator AllowAllAuthenticator AllowAllAcl.

#[export] Instance node_kind_laws v a acl ch : ChannelKindLaws (kind_for (node_hub v a acl) ch).
Proof. unfold kind_for. simpl. rewrite lookup_empty. apply _. Qed.

#[export] Instance open_node_kind_laws ch : ChannelKindLaws (kind_for open_node ch).
Proof. apply node_kind_laws. Qed.

Definition node_init (history : N) (ttl cap : N) : NodeW :=
  mk_NodeW 0 (with_bounds history ttl) (with_capacity cap).
End node.

(** ** Sample hubs and states

    Queues for the broadcast and mpsc channels; one session, on outbox 0. *)
Section samples.
#[local] Existing Instances QueueBroadcast CountNotifier QueueMpsc StarGlob PlainJwt.

Definition jwt_node : @Hub NodeW MemStream :=
  node_hub AllowAllValidator
    (jwt_authenticator nw_clock (mk_JwtAuthenticator (bytes_of_string "k" : DecodingKey) (Validation_new HS256)))
    AllowAllAcl.

(** Nobody may publish, everybody may subscribe. *)
Definition read_only_node : @Hub NodeW MemStream :=
  node_hub AllowAllValidator AllowAllAuthenticator
    (namespace_acl (NamespaceAcl.build (with_rules [rule_allow "*" MatchSubscribe]))).

Definition sample_init : @HubSt NodeW MemStream CountNotifier QueueMpsc :=
  mk_HubSt (hub_init (node_init 4 1000 8)).(core) {[0%N := ([], false)]} (node_init 4 1000 8).

Definition sample_open (hub : @Hub NodeW MemStream) : @HubSt NodeW MemStream CountNotifier QueueMpsc :=
  (open_session hub 0 sample_init).2.

Definition sample_sub (hub : @Hub NodeW MemStream) : @HubSt NodeW MemStream CountNotifier QueueMpsc :=
  (handle_subscribe hub 0 1 "rooms.lobby" 0 (sample_open hub)).2.

(** Three publications later, unsubscribed again. *)
Definition sample_pub (hub : @Hub NodeW MemStream) : @HubSt NodeW MemStream CountNotifier QueueMpsc :=
  let st := foldl (λ st d, (handle_publish hub 0 "rooms.lobby" (bytes_of_string d) st).2)
              (sample_sub hub) ["one"; "two"; "three"] in
  (handle_unsubscribe hub 0 2 "rooms.lobby" st).2.
End samples.
