(* ===== verification/HubInv.v ===== *)
(** * The invariant of the hub's state

    Registry, heap, forwarders and metrics stay consistent through every handler,
    however the plugged-in components behave: the reverse index lists exactly the
    subscribed sessions, every forwarder belongs to one subscription of a live
    session, and the session counters add up. *)
From S2P Require Import Prelude Protocol Traits Session Hub.

Section allocations.
Context `{NO : Notifier}.

(** What the invariant reads of an allocation. *)
Definition id_at (h : gmap N Session) (ptr : N) : option N := id <$> h !! ptr.
Definition outbox_at (h : gmap N Session) (ptr : N) : option N := outbox <$> h !! ptr.
Definition subs_at (h : gmap N Session) (ptr : N) (ch : string) : option N :=
  s ← h !! ptr; s.(subscriptions) !! ch.

Lemma id_at_insert h ptr s p :
  id_at (<[ptr := s]> h) p = if decide (p = ptr) then Some s.(id) else id_at h p.
Proof.
  unfold id_at. case_decide; subst; [by rewrite lookup_insert_eq|by rewrite lookup_insert_ne].
Qed.

Lemma outbox_at_insert h ptr s p :
  outbox_at (<[ptr := s]> h) p = if decide (p = ptr) then Some s.(outbox) else outbox_at h p.
Proof.
  unfold outbox_at. case_decide; subst; [by rewrite lookup_insert_eq|by rewrite lookup_insert_ne].
Qed.

Lemma subs_at_insert h ptr s p ch :
  subs_at (<[ptr := s]> h) p ch
  = if decide (p = ptr) then s.(subscriptions) !! ch else subs_at h p ch.
Proof.
  unfold subs_at. case_decide; subst; [by rewrite lookup_insert_eq|by rewrite lookup_insert_ne].
Qed.

Lemma id_at_delete h ptr p :
  id_at (delete ptr h) p = if decide (p = ptr) then None else id_at h p.
Proof.
  unfold id_at. case_decide; subst; [by rewrite lookup_delete_eq|by rewrite lookup_delete_ne].
Qed.

Lemma outbox_at_delete h ptr p :
  outbox_at (delete ptr h) p = if decide (p = ptr) then None else outbox_at h p.
Proof.
  unfold outbox_at. case_decide; subst; [by rewrite lookup_delete_eq|by rewrite lookup_delete_ne].
Qed.

Lemma subs_at_delete h ptr p ch :
  subs_at (delete ptr h) p ch = if decide (p = ptr) then None else subs_at h p ch.
Proof.
  unfold subs_at. case_decide; subst; [by rewrite lookup_delete_eq|by rewrite lookup_delete_ne].
Qed.

Lemma subs_at_id h p ch t : subs_at h p ch = Some t → is_Some (id_at h p).
Proof. unfold subs_at, id_at. destruct (h !! p); simpl; [eauto|done]. Qed.
End allocations.

Section inv.
Context {W Str : Type} `{NO : Notifier} `{M : Mpsc}.
Implicit Types (c : @HubCore Str _) (st : @HubSt W Str _ M).

(** [d] is a session that just lost its last reference and waits for [Drop]. *)
Record core_wf (d : option N) (c : @HubCore Str _) : Prop := {
  cw_sess sid ptr : c.(registry).(sessions) !! sid = Some ptr →
    id_at c.(heap) ptr = Some sid;
  cw_live ptr sid : id_at c.(heap) ptr = Some sid →
    ptr ∈ c.(held) ∨ c.(registry).(sessions) !! sid = Some ptr ∨ d = Some ptr;
  cw_held ptr : ptr ∈ c.(held) → is_Some (id_at c.(heap) ptr);
  cw_fresh ptr sid : id_at c.(heap) ptr = Some sid →
    (ptr < c.(next_ptr))%N ∧ (sid < c.(metrics).(sessions_opened_total))%N;
  cw_index ch sid : sid ∈ subscribers_of c.(registry) ch ↔
    ∃ ptr, c.(registry).(sessions) !! sid = Some ptr ∧ is_Some (subs_at c.(heap) ptr ch);
  cw_nodup ch : NoDup (subscribers_of c.(registry) ch);
  cw_entries : no_empty_entry c.(registry);
  cw_task t tk : c.(tasks) !! t = Some tk →
    ∃ ptr, subs_at c.(heap) ptr tk.(t_channel) = Some t ∧
      outbox_at c.(heap) ptr = Some tk.(t_outbox);
  cw_sub ptr ch t : subs_at c.(heap) ptr ch = Some t → (t < c.(next_task))%N;
  cw_sub_inj p1 ch1 p2 ch2 t : subs_at c.(heap) p1 ch1 = Some t →
    subs_at c.(heap) p2 ch2 = Some t → p1 = p2 ∧ ch1 = ch2;
  cw_id_inj p1 p2 sid : id_at c.(heap) p1 = Some sid → id_at c.(heap) p2 = Some sid → p1 = p2;
}.

(** The counters: the session ids come from a wrapping 64-bit counter. *)
Record counters_wf (c : @HubCore Str _) : Prop := {
  cnt_next : c.(registry).(next_id_ctr)
             = (c.(metrics).(sessions_opened_total) mod u64_modulus)%N;
  cnt_active : c.(metrics).(sessions_active) = N.of_nat (len c.(registry));
}.

Definition accounted (c : @HubCore Str _) : Prop :=
  c.(metrics).(sessions_opened_total)
  = (c.(metrics).(sessions_closed_total) + c.(metrics).(sessions_kicked_total)
     + N.of_nat (len c.(registry)))%N.

(** ** Changes that leave the subscriptions alone *)

Lemma core_wf_heap_ext d c h :
  core_wf d c → (∀ p, id_at h p = id_at c.(heap) p) →
  (∀ p, outbox_at h p = outbox_at c.(heap) p) →
  (∀ p ch, subs_at h p ch = subs_at c.(heap) p ch) → core_wf d (set_heap h c).
Proof.
  intros [Hs Hl Hh Hf Hi Hn He Ht Hb Hj Hu] Hid Ho Hsub. split; simpl; try done.
  - intros *. rewrite Hid. eauto.
  - intros *. rewrite Hid. eauto.
  - intros *. rewrite Hid. eauto.
  - intros *. rewrite Hid. eauto.
  - intros *. rewrite Hi. by setoid_rewrite Hsub.
  - intros *. setoid_rewrite Hsub. setoid_rewrite Ho. eauto.
  - intros *. setoid_rewrite Hsub. eauto.
  - intros *. setoid_rewrite Hsub. eauto.
  - intros *. rewrite !Hid. eauto.
Qed.

Lemma core_wf_store_same d c ptr s s' :
  core_wf d c → c.(heap) !! ptr = Some s →
  s'.(id) = s.(id) → s'.(outbox) = s.(outbox) → s'.(subscriptions) = s.(subscriptions) →
  core_wf d (store ptr s' c).
Proof.
  intros Hwf Hp Hid Ho Hsub. apply core_wf_heap_ext; [done|..]; intros p.
  - rewrite id_at_insert. case_decide; [|done]. subst. unfold id_at. rewrite Hp, Hid. done.
  - rewrite outbox_at_insert. case_decide; [|done]. subst. unfold outbox_at. rewrite Hp, Ho. done.
  - intros ch. rewrite subs_at_insert. case_decide; [|done]. subst. unfold subs_at.
    rewrite Hp, Hsub. done.
Qed.

Lemma core_wf_metrics d c m :
  core_wf d c → m.(sessions_opened_total) = c.(metrics).(sessions_opened_total) →
  core_wf d (set_metrics m c).
Proof. intros [] Hm; split; simpl; try done. intros *. rewrite Hm. eauto. Qed.

Lemma core_wf_tasks d c ts : core_wf d c → ts ⊆ c.(tasks) → core_wf d (set_tasks ts c).
Proof.
  intros [Hs Hl Hh Hf Hi Hn He Ht Hb Hj Hu] Hsub; split; simpl; try done.
  intros t tk H. apply Ht. by eapply lookup_weaken.
Qed.

(** ** Subscribe and unsubscribe *)

Lemma subs_at_insert_sub h ptr s ch t p ch' :
  h !! ptr = Some s →
  subs_at (<[ptr := set_subscriptions s (<[ch := t]> s.(subscriptions))]> h) p ch'
  = if decide (p = ptr ∧ ch' = ch) then Some t else subs_at h p ch'.
Proof.
  intros Hp. rewrite subs_at_insert. destruct (decide (p = ptr)) as [->|Hne]; simpl.
  - destruct (decide (ch' = ch)) as [->|].
    + rewrite decide_True by done. by rewrite lookup_insert_eq.
    + rewrite decide_False by tauto. rewrite lookup_insert_ne by done.
      unfold subs_at. by rewrite Hp.
  - by rewrite decide_False by tauto.
Qed.

Lemma subs_at_delete_sub h ptr s ch p ch' :
  h !! ptr = Some s →
  subs_at (<[ptr := set_subscriptions s (delete ch s.(subscriptions))]> h) p ch'
  = if decide (p = ptr ∧ ch' = ch) then None else subs_at h p ch'.
Proof.
  intros Hp. rewrite subs_at_insert. destruct (decide (p = ptr)) as [->|Hne]; simpl.
  - destruct (decide (ch' = ch)) as [->|].
    + rewrite decide_True by done. by rewrite lookup_delete_eq.
    + rewrite decide_False by tauto. rewrite lookup_delete_ne by done.
      unfold subs_at. by rewrite Hp.
  - by rewrite decide_False by tauto.
Qed.

Lemma id_at_set_subs h ptr s m p :
  h !! ptr = Some s → id_at (<[ptr := set_subscriptions s m]> h) p = id_at h p.
Proof. intros Hp. rewrite id_at_insert. case_decide; [|done]. subst. unfold id_at. by rewrite Hp. Qed.

Lemma outbox_at_set_subs h ptr s m p :
  h !! ptr = Some s → outbox_at (<[ptr := set_subscriptions s m]> h) p = outbox_at h p.
Proof.
  intros Hp. rewrite outbox_at_insert. case_decide; [|done]. subst. unfold outbox_at. by rewrite Hp.
Qed.

Lemma core_wf_insert c sid ptr s ch tk :
  core_wf None c → c.(registry).(sessions) !! sid = Some ptr → c.(heap) !! ptr = Some s →
  s.(subscriptions) !! ch = None → tk.(t_channel) = ch → tk.(t_outbox) = s.(outbox) →
  core_wf None
    (mk_HubCore (add_to_index sid ch c.(registry))
       (<[ptr := set_subscriptions s (<[ch := c.(next_task)]> s.(subscriptions))]> c.(heap))
       c.(next_ptr) c.(held) (<[c.(next_task) := tk]> c.(tasks)) (c.(next_task) + 1) c.(metrics)).
Proof.
  intros [Hs Hl Hh Hf Hi Hn He Ht Hb Hj Hu] Hsid Hp Hnone Hch Ho.
  assert (Hfree : subs_at c.(heap) ptr ch = None) by (unfold subs_at; by rewrite Hp).
  split; simpl; try setoid_rewrite id_at_set_subs; eauto.
  - intros ch' sid'. setoid_rewrite subs_at_insert_sub; [|done].
    rewrite subscribers_of_add. case_decide as Hc.
    + subst ch'. rewrite elem_of_app, list_elem_of_singleton, Hi. split.
      * intros [(p & H1 & H2)| ->].
        -- exists p. case_decide; eauto.
        -- exists ptr. rewrite decide_True by done. eauto.
      * intros (p & H1 & H2). case_decide as Hd; [right|left; eauto].
        destruct Hd as [-> _]. apply Hs in H1, Hsid. congruence.
    + rewrite Hi. split; intros (p & H1 & H2); exists p; (split; [done|]).
      * rewrite decide_False by naive_solver. done.
      * rewrite decide_False in H2 by naive_solver. done.
  - intros ch'. rewrite subscribers_of_add. case_decide as Hc; [|done]. subst ch'.
    apply NoDup_app. split; [done|]. split; [|apply NoDup_singleton].
    intros x Hx ->%list_elem_of_singleton. apply Hi in Hx as (p & H1 & H2).
    simplify_eq. rewrite Hfree in H2. by destruct H2.
  - auto with cherenkov.
  - intros t tk'. rewrite lookup_insert_Some. setoid_rewrite subs_at_insert_sub; [|done].
    setoid_rewrite outbox_at_set_subs; [|done]. intros [[<- <-]|[Hne Htk]].
    + exists ptr. rewrite decide_True by done. split; [done|]. unfold outbox_at.
      rewrite Hp. simpl. congruence.
    + destruct (Ht _ _ Htk) as (p & H1 & H2). exists p. rewrite decide_False; [done|].
      intros [-> E]. rewrite E in H1. congruence.
  - intros p ch' t. rewrite subs_at_insert_sub by done. case_decide; [intros [= <-]; lia|].
    intros Hx%Hb. lia.
  - intros p1 ch1 p2 ch2 t. rewrite !subs_at_insert_sub by done.
    destruct (decide (p1 = ptr ∧ ch1 = ch)) as [[-> ->]|];
      destruct (decide (p2 = ptr ∧ ch2 = ch)) as [[-> ->]|]; [done|..|eauto].
    + intros [= <-] H2%Hb. lia.
    + intros H1%Hb [= <-]. lia.
Qed.

Lemma core_wf_remove c sid ptr s ch t :
  core_wf None c → c.(registry).(sessions) !! sid = Some ptr → c.(heap) !! ptr = Some s →
  s.(subscriptions) !! ch = Some t →
  core_wf None
    (mk_HubCore (remove_from_index sid ch c.(registry))
       (<[ptr := set_subscriptions s (delete ch s.(subscriptions))]> c.(heap))
       c.(next_ptr) c.(held) (delete t c.(tasks)) c.(next_task) c.(metrics)).
Proof.
  intros [Hs Hl Hh Hf Hi Hn He Ht Hb Hj Hu] Hsid Hp Hsub.
  assert (Hhas : subs_at c.(heap) ptr ch = Some t) by (unfold subs_at; by rewrite Hp).
  split; simpl; try setoid_rewrite id_at_set_subs; rewrite ?sessions_remove_from_index; eauto.
  - intros ch' sid'. rewrite ?sessions_remove_from_index.
    setoid_rewrite subs_at_delete_sub; [|done].
    rewrite subscribers_of_remove. case_decide as Hc.
    + subst ch'. rewrite list_elem_of_filter, Hi. split.
      * intros [Hne (p & H1 & H2)]. exists p. split; [done|]. rewrite decide_False; [done|].
        intros [-> _]. apply Hs in H1, Hsid. congruence.
      * intros (p & H1 & H2). case_decide as Hd; [by destruct H2|].
        split; [|eauto]. intros ->. apply Hd. naive_solver.
    + rewrite Hi. split; intros (p & H1 & H2); exists p; (split; [done|]).
      * rewrite decide_False by naive_solver. done.
      * rewrite decide_False in H2 by naive_solver. done.
  - intros ch'. rewrite subscribers_of_remove. case_decide; [|done]. by apply NoDup_filter.
  - auto with cherenkov.
  - intros t' tk. rewrite lookup_delete_Some. intros [Hne Htk].
    destruct (Ht _ _ Htk) as (p & H1 & H2). exists p. rewrite subs_at_delete_sub by done.
    rewrite outbox_at_set_subs by done. rewrite decide_False; [done|].
    intros [-> E]. rewrite E in H1. congruence.
  - intros p ch' t'. rewrite subs_at_delete_sub by done. case_decide; [done|]. eauto.
  - intros p1 ch1 p2 ch2 t'. rewrite !subs_at_delete_sub by done. repeat case_decide; try done.
    eauto.
Qed.

(** ** References that go away *)

Lemma core_wf_deregister c sid ptr :
  core_wf None c → c.(registry).(sessions) !! sid = Some ptr →
  core_wf (Some ptr) (set_registry (deregister sid c.(registry)).2 c).
Proof.
  intros [Hs Hl Hh Hf Hi Hn He Ht Hb Hj Hu] Hsid.
  assert (Hsess : sessions (deregister sid c.(registry)).2 = delete sid c.(registry).(sessions))
    by (unfold deregister; by rewrite Hsid).
  split; simpl; rewrite ?Hsess; eauto.
  - intros sid' p. rewrite lookup_delete_Some. naive_solver.
  - intros p sid' H. rewrite lookup_delete_Some. destruct (Hl _ _ H) as [?|[H'|?]]; [by left| |done].
    destruct (decide (sid = sid')) as [<-|]; [|by eauto]. simplify_eq. eauto.
  - intros ch sid'. rewrite ?Hsess, subscribers_of_deregister by eauto.
    rewrite list_elem_of_filter, Hi. setoid_rewrite lookup_delete_Some. naive_solver.
  - intros ch. rewrite subscribers_of_deregister by eauto. by apply NoDup_filter.
  - auto with cherenkov.
Qed.

Lemma core_wf_unheld c ptr :
  core_wf None c → core_wf (Some ptr) (set_held (c.(held) ∖ {[ptr]}) c).
Proof.
  intros [Hs Hl Hh Hf Hi Hn He Ht Hb Hj Hu]. split; simpl; eauto.
  - intros p sid H. destruct (decide (p = ptr)) as [->|]; [by eauto|].
    destruct (Hl _ _ H) as [?|[?|?]]; [left; set_solver|eauto|done].
  - intros p Hp. apply Hh. set_solver.
Qed.

(** The last reference is gone: [Drop] runs. *)
Lemma core_wf_destroy c ptr ts :
  core_wf (Some ptr) c → ptr ∉ c.(held) →
  (∀ sid, c.(registry).(sessions) !! sid ≠ Some ptr) →
  ts ⊆ c.(tasks) → (∀ ch t, subs_at c.(heap) ptr ch = Some t → ts !! t = None) →
  core_wf None (set_heap (delete ptr c.(heap)) (set_tasks ts c)).
Proof.
  intros [Hs Hl Hh Hf Hi Hn He Ht Hb Hj Hu] Hheld Hreg Hts Habort. split; simpl.
  - intros sid p H. rewrite id_at_delete. case_decide; [subst; by destruct (Hreg sid)|eauto].
  - intros p sid. rewrite id_at_delete. case_decide; [done|]. intros H'.
    destruct (Hl _ _ H') as [?|[?|?]]; eauto. congruence.
  - intros p Hp. rewrite id_at_delete. case_decide; [subst; done|eauto].
  - intros p sid. rewrite id_at_delete. case_decide; [done|eauto].
  - intros ch sid. rewrite Hi. split; intros (p & H1 & H2); exists p; (split; [done|]).
    + rewrite subs_at_delete. case_decide; [subst; by destruct (Hreg sid)|done].
    + rewrite subs_at_delete in H2. case_decide; [by destruct H2|done].
  - done.
  - done.
  - intros t tk Htk. destruct (Ht t tk) as (p & H1 & H2); [by eapply lookup_weaken|].
    exists p. rewrite subs_at_delete, outbox_at_delete. case_decide as Hd; [|done]. subst.
    rewrite (Habort _ _ H1) in Htk. done.
  - intros p ch t. rewrite subs_at_delete. case_decide; [done|eauto].
  - intros p1 ch1 p2 ch2 t. rewrite !subs_at_delete. repeat case_decide; try done. eauto.
  - intros p1 p2 sid. rewrite !id_at_delete. repeat case_decide; try done. eauto.
Qed.

Lemma core_wf_referenced c ptr :
  core_wf (Some ptr) c → (ptr ∈ c.(held) ∨ ∃ sid, c.(registry).(sessions) !! sid = Some ptr) →
  core_wf None c.
Proof.
  intros Hwf Hr. destruct Hwf as [Hs Hl Hh Hf Hi Hn He Ht Hb Hj Hu]. split; eauto.
  intros p sid H. destruct (Hl _ _ H) as [?|[?|[= <-]]]; eauto.
  destruct Hr as [?|[sid' Hr]]; [by left|]. right; left.
  apply Hs in Hr as Hid. congruence.
Qed.

(** ** Opening *)

Lemma core_wf_open c s :
  core_wf None c → c.(registry).(next_id_ctr) = c.(metrics).(sessions_opened_total) →
  s.(id) = c.(registry).(next_id_ctr) → s.(subscriptions) = ∅ →
  core_wf None (count_opened
    (mk_HubCore (register s.(id) c.(next_ptr) (next_id c.(registry)).2)
       (<[c.(next_ptr) := s]> c.(heap)) (c.(next_ptr) + 1)
       ({[c.(next_ptr)]} ∪ c.(held)) c.(tasks) c.(next_task) c.(metrics))).
Proof.
  intros [Hs Hl Hh Hf Hi Hn He Ht Hb Hj Hu] Hnext Hid Hsub.
  assert (Hnew : id_at c.(heap) c.(next_ptr) = None).
  { destruct (id_at _ _) eqn:E; [|done]. apply Hf in E. lia. }
  assert (Hnosess : c.(registry).(sessions) !! s.(id) = None).
  { destruct (_ !! _) eqn:E; [|done]. apply Hs, Hf in E. lia. }
  assert (Hsubs : ∀ p ch, subs_at (<[c.(next_ptr) := s]> c.(heap)) p ch = subs_at c.(heap) p ch).
  { intros p ch. rewrite subs_at_insert. case_decide; [|done]. subst. rewrite Hsub, lookup_empty.
    destruct (subs_at _ _ _) eqn:E; [|done]. apply subs_at_id in E as [? ?]. congruence. }
  split; simpl.
  - intros sid p. rewrite id_at_insert, lookup_insert_Some. case_decide as Hd.
    + subst. intros [[<- _]|[_ H]]; [done|]. apply Hs in H. congruence.
    + intros [[_ ?]|[_ ?]]; [done|eauto].
  - intros p sid. rewrite id_at_insert, lookup_insert_Some. case_decide as Hd.
    + subst. intros _. left. set_solver.
    + intros H. destruct (Hl _ _ H) as [?|[?|?]]; [left; set_solver|right; left|done].
      right. split; [congruence|done].
  - intros p Hp. rewrite id_at_insert. case_decide; [eauto|]. apply Hh. set_solver.
  - intros p sid. rewrite id_at_insert. case_decide as Hd; [|intros H%Hf; lia].
    subst. intros [= <-]. lia.
  - intros ch sid. setoid_rewrite Hsubs. unfold subscribers_of. simpl.
    rewrite (Hi ch sid). setoid_rewrite lookup_insert_Some. split.
    + intros (p & H1 & H2). exists p. split; [|done]. right. split; [congruence|done].
    + intros (p & [[<- <-]|[? H1]] & H2); [|eauto]. destruct H2 as [t H2]. apply subs_at_id in H2 as [? H2]. congruence.
  - done.
  - done.
  - intros t tk H. destruct (Ht _ _ H) as (p & H1 & H2). exists p. rewrite Hsubs.
    split; [done|]. rewrite outbox_at_insert. case_decide; [|done]. subst.
    apply subs_at_id in H1 as [? ?]. congruence.
  - intros p ch t. rewrite Hsubs. eauto.
  - intros *. rewrite !Hsubs. eauto.
  - intros p1 p2 sid. rewrite !id_at_insert. repeat case_decide; subst; try done; [..|eauto].
    + intros [= <-] H2%Hf. lia.
    + intros H1%Hf [= <-]. lia.
Qed.

Lemma counters_open c s :
  core_wf None c → counters_wf c → accounted c →
  (c.(metrics).(sessions_opened_total) < u64_modulus)%N →
  s.(id) = c.(registry).(next_id_ctr) →
  let c' := count_opened
    (mk_HubCore (register s.(id) c.(next_ptr) (next_id c.(registry)).2)
       (<[c.(next_ptr) := s]> c.(heap)) (c.(next_ptr) + 1)
       ({[c.(next_ptr)]} ∪ c.(held)) c.(tasks) c.(next_task) c.(metrics)) in
  counters_wf c' ∧ accounted c'.
Proof.
  intros Hwf [Hn Ha] Hacc Hlt Hid. unfold accounted, len in *. simpl.
  assert (Hnone : c.(registry).(sessions) !! s.(id) = None).
  { destruct (_ !! _) eqn:E; [|done]. apply (cw_sess _ _ Hwf), (cw_fresh _ _ Hwf) in E.
    rewrite Hid, Hn, N.mod_small in E by done. lia. }
  split; [split|]; simpl; unfold len; simpl; rewrite ?map_size_insert_None by done.
  - rewrite Hn. unfold u64_wrapping_add. by rewrite N.Div0.add_mod_idemp_l.
  - done.
  - lia.
Qed.

(** ** The invariant of the handlers *)

Definition core_inv (c : @HubCore Str _) : Prop := core_wf None c ∧ counters_wf c ∧ accounted c.

(** A handler that looked [sid] up holds its session. *)
Definition has_session (sid ptr : N) (c : @HubCore Str _) : Prop :=
  c.(registry).(sessions) !! sid = Some ptr.

Definition keeps {A} (P : @HubCore Str _ → Prop) (m : io (@HubSt W Str _ M) HubError A) : Prop :=
  triple (λ st, P st.(core)) m (λ _ st, P st.(core)) (λ _ st, P st.(core)).

Lemma keeps_on_world {E A} P (f : E → HubError) (m : io W E A) : keeps P (on_world f m).
Proof.
  intros st HP. unfold on_world, io_map_err, io_zoom.
  by destruct (m _) as [[a|e] w'].
Qed.

Lemma keeps_bind {A B} P (m : io (@HubSt W Str _ M) HubError A) (k : A → io _ _ B) :
  keeps P m → (∀ a, keeps P (k a)) → keeps P (io_bind m k).
Proof. intros Hm Hk. eapply triple_bind; [exact Hm|exact Hk]. Qed.

Lemma keeps_ret {A} P (a : A) : keeps P (io_ret a).
Proof. by apply triple_ret. Qed.

Lemma keeps_fail {A} P e : keeps P (io_fail (A:=A) e).
Proof. by apply triple_fail. Qed.

Lemma keeps_try {A} P (m : io (@HubSt W Str _ M) HubError A) : keeps P m → keeps P (io_try m).
Proof. intros H. by apply triple_try. Qed.

Lemma keeps_read {A} P ptr (f : Session → A) : keeps P (read_session ptr f).
Proof. by apply triple_gets. Qed.

Lemma keeps_modify P (f : @HubSt W Str _ M → HubSt) :
  (∀ st, P st.(core) → P (f st).(core)) → keeps P (io_modify f).
Proof. intros H. by apply triple_modify. Qed.

Lemma keeps_decide {A} P (b : bool) (m n : io (@HubSt W Str _ M) HubError A) :
  keeps P m → keeps P n → keeps P (if b then m else n).
Proof. by destruct b. Qed.

Lemma outbox_send_core o f st : (outbox_send o f st).2.(core) = st.(core).
Proof.
  unfold outbox_send. destruct (outboxes st !! o); [|done]. by destruct (mpsc_send _ _).
Qed.

Lemma keeps_send_replayed P sid o ps : keeps P (send_replayed sid o ps).
Proof.
  induction ps as [|p ps IH]; intros st HP; simpl; [done|].
  pose proof (outbox_send_core o (SF_Publication p) st) as Hc.
  destruct (outbox_send o (SF_Publication p) st) as [[|] st']; simpl in *.
  - apply IH. by rewrite Hc.
  - by rewrite Hc.
Qed.

Lemma keeps_replay P k sid o ch since : keeps P (replay k sid o ch since).
Proof.
  unfold replay. case_decide; [|apply keeps_ret].
  apply keeps_bind; [apply keeps_on_world|]. intros. apply keeps_send_replayed.
Qed.

Lemma keeps_drop_stream P hub stream : keeps P (drop_stream hub stream).
Proof. by apply keeps_modify. Qed.

Lemma keeps_enforce_acl P hub cl action ch : keeps P (enforce_acl hub cl action ch).
Proof.
  apply keeps_bind; [apply keeps_on_world|]. intros []; [apply keeps_ret|apply keeps_fail].
Qed.

Lemma end_task_core hub task st :
  (end_task hub task st).(core) = set_tasks (delete task st.(core).(tasks)) st.(core).
Proof.
  unfold end_task. destruct (tasks (core st) !! task) eqn:E; [done|].
  destruct st as [[]]; simpl in *. by rewrite delete_id.
Qed.

Lemma core_inv_tasks c ts : core_inv c → ts ⊆ c.(tasks) → core_inv (set_tasks ts c).
Proof. intros (Hwf & [] & Hacc) H. split; [by apply core_wf_tasks|]. by split. Qed.

Lemma keeps_end_task hub task : keeps core_inv (io_modify (end_task hub task)).
Proof.
  apply keeps_modify. intros st Hinv. rewrite end_task_core.
  apply core_inv_tasks; [done|apply delete_subseteq].
Qed.

Lemma core_inv_heap c ptr :
  core_inv c → is_Some (id_at c.(heap) ptr) → ∃ s, c.(heap) !! ptr = Some s.
Proof. unfold id_at. intros _ [sid H]. destruct (heap c !! ptr); [eauto|done]. Qed.

Lemma core_inv_deref c sid ptr :
  core_inv c → has_session sid ptr c → c.(heap) !! ptr = Some (deref c ptr) ∧
    (deref c ptr).(id) = sid.
Proof.
  intros (Hwf & _) Hs. apply (cw_sess _ _ Hwf) in Hs. unfold id_at in Hs. unfold deref.
  destruct (heap c !! ptr); simpl in *; [|done]. split; congruence.
Qed.

Lemma core_inv_store_same c sid ptr s' :
  core_inv c → has_session sid ptr c → s'.(id) = (deref c ptr).(id) →
  s'.(outbox) = (deref c ptr).(outbox) → s'.(subscriptions) = (deref c ptr).(subscriptions) →
  core_inv (store ptr s' c).
Proof.
  intros Hinv Hs ? ? ?. destruct (core_inv_deref _ _ _ Hinv Hs) as [Hp _].
  destruct Hinv as (Hwf & [] & Hacc). split; [by eapply core_wf_store_same|]. by split.
Qed.

Lemma core_inv_metrics c m :
  core_inv c → m.(sessions_opened_total) = c.(metrics).(sessions_opened_total) →
  m.(sessions_active) = c.(metrics).(sessions_active) →
  m.(sessions_closed_total) = c.(metrics).(sessions_closed_total) →
  m.(sessions_kicked_total) = c.(metrics).(sessions_kicked_total) →
  core_inv (set_metrics m c).
Proof.
  intros (Hwf & [H1 H2] & Hacc) Ho Ha Hc Hk. split; [by apply core_wf_metrics|].
  unfold accounted in *. split; [split|]; simpl; congruence.
Qed.

Definition session_inv (sid ptr : N) (c : @HubCore Str _) : Prop :=
  core_inv c ∧ has_session sid ptr c.

Lemma get_session_spec sid :
  triple (λ st : @HubSt W Str _ M, core_inv st.(core)) (get_session sid)
    (λ ptr st, session_inv sid ptr st.(core)) (λ _ st, core_inv st.(core)).
Proof.
  intros st Hinv. unfold get_session, get. unfold session_inv, has_session.
  by destruct (sessions _ !! sid) as [ptr|] eqn:E.
Qed.

Lemma keeps_set_claims sid ptr cl :
  keeps (session_inv sid ptr) (modify_session ptr (set_claims cl)).
Proof.
  intros st [Hinv Hs]. simpl. split; [|done]. by eapply core_inv_store_same.
Qed.

Lemma keeps_require_claims hub sid ptr :
  keeps (session_inv sid ptr) (require_claims hub ptr).
Proof.
  apply keeps_bind; [apply keeps_read|]. intros [cl|]; [apply keeps_ret|].
  destruct (allow_anonymous _).
  - apply keeps_bind; [apply keeps_set_claims|]. intros _. apply keeps_ret.
  - apply keeps_bind; [apply keeps_read|]. intros. apply keeps_fail.
Qed.
End inv.

Create HintDb keeps.
#[export] Hint Resolve keeps_on_world keeps_ret keeps_fail keeps_read keeps_try keeps_replay
  keeps_drop_stream keeps_enforce_acl keeps_end_task keeps_set_claims keeps_require_claims : keeps.

(** [keeps_auto] goes through a handler one computation at a time. *)
Ltac keeps_auto :=
  repeat first
    [ solve [eauto with keeps]
    | apply keeps_bind; [|intros ?]
    | apply keeps_decide
    | match goal with |- keeps _ (match ?x with _ => _ end) => destruct x end ].
