(* ===== verification/HubReach.v ===== *)
(** * Reachable states of the hub

    Every handler, timer turn and disconnection preserves the invariant of
    HubInv.v; what it means for the running server is stated for all the states
    reachable from an empty hub. *)
From S2P Require Import Prelude Protocol Traits Session Hub HubInv.

Section reach.
Context {W Str : Type} `{NO : Notifier} `{M : Mpsc}.
Implicit Types (c : @HubCore Str _) (st : @HubSt W Str _ M) (hub : @Hub W Str).

(** A handler starts by looking its session up. *)
Lemma keeps_with_session {A} sid (k : N → io (@HubSt W Str _ M) HubError A) :
  (∀ ptr, triple (λ st, session_inv sid ptr st.(core)) (k ptr)
            (λ _ st, core_inv st.(core)) (λ _ st, core_inv st.(core))) →
  keeps core_inv (let! ptr := get_session sid in k ptr).
Proof. intros H. eapply triple_bind; [apply get_session_spec|exact H]. Qed.

Lemma session_inv_weaken {A} sid ptr (m : io (@HubSt W Str _ M) HubError A) :
  keeps (session_inv sid ptr) m →
  triple (λ st, session_inv sid ptr st.(core)) m
    (λ _ st, core_inv st.(core)) (λ _ st, core_inv st.(core)).
Proof. intros H w Hw. specialize (H w Hw). destruct (m w) as [[?|?] ?]; apply H. Qed.

Lemma keeps_handle_connect hub sid rid token :
  keeps core_inv (handle_connect hub sid rid token : io (@HubSt W Str _ M) _ _).
Proof. apply keeps_with_session. intros ptr. apply session_inv_weaken. keeps_auto. Qed.

Lemma keeps_count_publication sid ptr :
  keeps (session_inv sid ptr)
    (io_modify (λ st : @HubSt W Str _ M, set_core (count_publication st.(core)) st)).
Proof. apply keeps_modify. intros st [Hinv Hs]. split; [|done]. by apply core_inv_metrics. Qed.
#[local] Hint Resolve keeps_count_publication : keeps.

Lemma keeps_handle_publish hub sid ch data :
  keeps core_inv (handle_publish hub sid ch data : io (@HubSt W Str _ M) _ _).
Proof. apply keeps_with_session. intros ptr. apply session_inv_weaken. keeps_auto. Qed.

(** ** Subscribe *)

Definition not_subscribed (sid ptr : N) (ch : string) (c : @HubCore Str _) : Prop :=
  session_inv sid ptr c ∧ (deref c ptr).(subscriptions) !! ch = None.

(** Spawning the forwarder, recording it and indexing it, as the end of a
    successful subscribe does. *)
Definition commit_subscription (hub : Hub) (session_id request_id session : N)
    (channel : string) (k : ChannelKind W) (cursor : ChannelCursor) (stream : Str) (o : N) :
    io (@HubSt W Str _ M) HubError SubscribeOk :=
  let! forwarder := (λ st, let '(t, st) := spawn (mk_Task stream o channel) st in
                           (Ok t, st)) in
  let! inserted := modify_session session (insert_subscription channel forwarder) in
  match inserted with
  | Err stray =>
      io_modify (end_task hub stray) ;; io_try (on_world EChannel (on_unsubscribe k channel)) ;;
      io_fail (AlreadySubscribed session_id channel)
  | Ok _ =>
      io_modify (λ st, set_core (set_registry
        (add_to_index session_id channel st.(core).(registry)) st.(core)) st) ;;
      io_ret (mk_SubscribeOk request_id channel cursor.(epoch) cursor.(offset))
  end.

Lemma commit_subscription_run hub sid rid ptr ch k cursor stream o st :
  (deref st.(core) ptr).(subscriptions) !! ch = None →
  commit_subscription hub sid rid ptr ch k cursor stream o st
  = (Ok (mk_SubscribeOk rid ch cursor.(epoch) cursor.(offset)),
     let c := st.(core) in
     let s := deref c ptr in
     set_core (mk_HubCore (add_to_index sid ch c.(registry))
       (<[ptr := set_subscriptions s (<[ch := c.(next_task)]> s.(subscriptions))]> c.(heap))
       c.(next_ptr) c.(held) (<[c.(next_task) := mk_Task stream o ch]> c.(tasks))
       (c.(next_task) + 1) c.(metrics)) st).
Proof.
  intros Hnone. unfold commit_subscription, io_bind, modify_session, spawn. simpl.
  change (deref (set_core _ st).(core) ptr) with (deref st.(core) ptr).
  unfold deref in *. simpl. unfold insert_subscription. by rewrite Hnone.
Qed.

Lemma core_inv_commit sid ptr ch stream c :
  not_subscribed sid ptr ch c →
  let s := deref c ptr in
  core_inv (mk_HubCore (add_to_index sid ch c.(registry))
       (<[ptr := set_subscriptions s (<[ch := c.(next_task)]> s.(subscriptions))]> c.(heap))
       c.(next_ptr) c.(held) (<[c.(next_task) := mk_Task stream s.(outbox) ch]> c.(tasks))
       (c.(next_task) + 1) c.(metrics)).
Proof.
  intros [[Hinv Hs] Hnone]. destruct (core_inv_deref _ _ _ Hinv Hs) as [Hp _].
  destruct Hinv as (Hwf & [] & Hacc). split; [|by split]. simpl.
  exact (core_wf_insert c sid ptr _ ch (mk_Task stream _ ch) Hwf Hs Hp Hnone eq_refl eq_refl).
Qed.

(** A computation that keeps what is known, inside a handler that only owes the
    invariant once it fails. *)
Lemma keeps_step {A} (P : @HubCore Str _ → Prop) (m : io (@HubSt W Str _ M) HubError A) :
  (∀ c, P c → core_inv c) → keeps P m →
  triple (λ st, P st.(core)) m (λ _ st, P st.(core)) (λ _ st, core_inv st.(core)).
Proof. intros HP H w Hw. specialize (H w Hw). destruct (m w) as [[?|?] ?]; auto. Qed.

Lemma keeps_weaken {A} (P : @HubCore Str _ → Prop) (m : io (@HubSt W Str _ M) HubError A) :
  (∀ c, P c → core_inv c) → keeps P m →
  triple (λ st, P st.(core)) m (λ _ st, core_inv st.(core)) (λ _ st, core_inv st.(core)).
Proof. intros HP H w Hw. specialize (H w Hw). destruct (m w) as [[?|?] ?]; auto. Qed.

Lemma keeps_handle_subscribe hub sid rid ch since :
  keeps core_inv (handle_subscribe hub sid rid ch since : io (@HubSt W Str _ M) _ _).
Proof.
  apply keeps_with_session. intros ptr.
  assert (H1 : ∀ c, session_inv sid ptr c → core_inv c) by by intros ? [? _].
  assert (H2 : ∀ c, not_subscribed sid ptr ch c → core_inv c) by by intros ? [[? _] _].
  eapply triple_bind; [apply keeps_step; [exact H1|apply keeps_require_claims]|]. intros cl.
  eapply triple_bind; [apply keeps_step; [exact H1|apply keeps_enforce_acl]|]. intros [].
  eapply (triple_bind _ _ _ (λ b st, session_inv sid ptr st.(core) ∧
    (b = has_subscription (deref st.(core) ptr) ch))); [by apply triple_gets|].
  intros [|]; [apply triple_fail; by intros ? [[? _] _]|].
  eapply (triple_conseq _ _ (λ st, not_subscribed sid ptr ch st.(core)) _ _ _ _);
    [|intros st [H Hb]; split; [done|] |intros ? ? H; exact H|intros ? ? H; exact H].
  2:{ unfold has_subscription in Hb. symmetry in Hb. apply bool_decide_eq_false in Hb.
      by apply eq_None_not_Some. }
  eapply triple_bind; [apply keeps_step; [exact H2|apply keeps_on_world]|]. intros cursor.
  eapply triple_bind; [apply keeps_step; [exact H2|apply keeps_try, keeps_on_world]|].
  intros [stream|err]; [|apply keeps_weaken; [exact H2|keeps_auto]].
  set (P := λ o (c : @HubCore Str _), not_subscribed sid ptr ch c ∧ o = (deref c ptr).(outbox)).
  assert (H3 : ∀ o c, P o c → core_inv c) by by intros ? ? [[[? _] _] _].
  eapply (triple_bind _ _ _ (λ o st, P o st.(core))); [by apply triple_gets|]. intros o.
  eapply triple_bind; [apply keeps_step; [apply H3|apply keeps_try, keeps_replay]|].
  intros [[]|err]; [|apply keeps_weaken; [apply H3|keeps_auto]].
  fold (commit_subscription hub sid rid ptr ch (kind_for hub ch) cursor stream o).
  intros st [Hns ->]. rewrite commit_subscription_run by apply Hns. by apply core_inv_commit.
Qed.

(** ** Unsubscribe *)

Lemma keeps_handle_unsubscribe hub sid rid ch :
  keeps core_inv (handle_unsubscribe hub sid rid ch : io (@HubSt W Str _ M) _ _).
Proof.
  apply keeps_with_session. intros ptr st [Hinv Hs].
  destruct (core_inv_deref _ _ _ Hinv Hs) as [Hp Hid].
  unfold io_bind at 1. unfold modify_session, remove_subscription.
  destruct (subscriptions (deref (core st) ptr) !! ch) as [t|] eqn:Ht.
  - match goal with |- context [io_bind ?m ?k ?w] => set (st1 := w) end.
    assert (Hinv2 : core_inv (set_registry (remove_from_index sid ch st1.(core).(registry))
      (end_task hub t st1).(core))).
    { rewrite end_task_core. unfold st1. simpl. unfold store, set_heap, set_registry, set_tasks. simpl.
      destruct Hinv as (Hwf & [H1 H2] & Hacc). split; [by eapply core_wf_remove|].
      unfold accounted, len in *. split; [split|]; simpl; unfold len;
        by rewrite ?sessions_remove_from_index, ?next_id_remove_from_index. }
    unfold io_bind at 1. simpl. unfold io_bind at 1. simpl.
    assert (Hreg : registry (core (end_task hub t st1)) = registry (core st1))
      by by rewrite end_task_core.
    rewrite Hreg. revert Hinv2.
    match goal with |- context [io_bind _ _ ?w] => set (st2 := w) end.
    intros Hinv2. change (core_inv st2.(core)) in Hinv2. revert Hinv2. generalize st2.
    apply (keeps_bind core_inv (on_world EChannel (on_unsubscribe (kind_for hub ch) ch))
             (λ _, io_ret (mk_UnsubscribeOk rid ch))); [apply keeps_on_world|].
    intros _. apply keeps_ret.
  - simpl. change (core_inv (store ptr (deref st.(core) ptr) st.(core))).
    by eapply core_inv_store_same.
Qed.

(** ** Opening, closing, kicking and releasing *)

Lemma abort_tasks_core hub l st :
  (abort_tasks hub l st).(core)
  = set_tasks (foldl (λ ts t, delete t ts) st.(core).(tasks) l) st.(core).
Proof.
  unfold abort_tasks. revert st. induction l as [|t l IH]; intros st; simpl.
  - by destruct st as [[]].
  - rewrite IH, end_task_core. done.
Qed.

Lemma lookup_foldl_delete (ts : gmap N (@Task Str)) l t :
  foldl (λ ts t, delete t ts) ts l !! t = if decide (t ∈ l) then None else ts !! t.
Proof.
  revert ts. induction l as [|t' l IH]; intros ts; simpl; [done|].
  rewrite IH. repeat case_decide; try set_solver.
  - assert (t = t') as -> by set_solver. by rewrite lookup_delete_eq.
  - rewrite lookup_delete_ne by set_solver. done.
Qed.

Lemma foldl_delete_subseteq (ts : gmap N (@Task Str)) l :
  foldl (λ ts t, delete t ts) ts l ⊆ ts.
Proof.
  apply map_subseteq_spec. intros t tk. rewrite lookup_foldl_delete. by case_decide.
Qed.

Lemma elem_of_abort_all s ch t :
  s.(subscriptions) !! ch = Some t → t ∈ (abort_all s).1.
Proof.
  intros H. simpl. apply list_elem_of_fmap. exists (ch, t). split; [done|].
  by apply elem_of_map_to_list.
Qed.

Lemma core_inv_drop_arc hub ptr st :
  core_wf (Some ptr) st.(core) → counters_wf st.(core) → accounted st.(core) →
  is_Some (id_at st.(core).(heap) ptr) → core_inv (drop_arc hub ptr st).(core).
Proof.
  intros Hwf Hcnt Hacc [sid Hid]. unfold drop_arc, referenced.
  unfold id_at in Hid. destruct (heap (core st) !! ptr) as [s|] eqn:Hp; [|done].
  simpl in Hid. injection Hid as Hid.
  assert (Hd : deref st.(core) ptr = s) by (unfold deref; by rewrite Hp). rewrite Hd.
  case_bool_decide as Hh; simpl.
  { split; [|done]. eapply core_wf_referenced; eauto. }
  case_bool_decide as Hs; simpl.
  { split; [|done]. eapply core_wf_referenced; eauto. }
  rewrite abort_tasks_core. split; [|by destruct Hcnt; split].
  apply (core_wf_destroy _ _ _ Hwf Hh).
  - intros sid' H'. apply (cw_sess _ _ Hwf) in H' as H2. unfold id_at in H2. rewrite Hp in H2.
    simpl in H2. simplify_eq.
  - apply foldl_delete_subseteq.
  - intros ch t H. rewrite lookup_foldl_delete. rewrite decide_True; [done|].
    unfold subs_at in H. rewrite Hp in H. by eapply elem_of_abort_all.
Qed.

Lemma deregister_Some sid reg ptr :
  reg.(sessions) !! sid = Some ptr →
  deregister sid reg = (Some ptr, (deregister sid reg).2) ∧
  (deregister sid reg).2.(sessions) = delete sid reg.(sessions) ∧
  (deregister sid reg).2.(next_id_ctr) = reg.(next_id_ctr) ∧
  S (len (deregister sid reg).2) = len reg.
Proof.
  intros H. unfold deregister, len. rewrite H. simpl. repeat split.
  rewrite map_size_delete_Some by eauto. destruct (size (sessions reg)) eqn:E; [|done].
  apply map_size_empty_inv in E. by rewrite E, lookup_empty in H.
Qed.

Lemma core_inv_close hub sid st :
  core_inv st.(core) → core_inv (close_session hub sid st).(core).
Proof.
  intros (Hwf & [H1 H2] & Hacc). unfold close_session.
  destruct (sessions (registry (core st)) !! sid) as [ptr|] eqn:E.
  - destruct (deregister_Some _ _ _ E) as (Heq & Hs & Hn & Hlen). rewrite Heq.
    apply core_inv_drop_arc; simpl.
    + apply core_wf_metrics; [|done]. by apply core_wf_deregister.
    + split; simpl; [by rewrite Hn|done].
    + unfold accounted in *. simpl. lia.
    + rewrite (cw_sess _ _ Hwf _ _ E). eauto.
  - unfold deregister. rewrite E. destruct st as [[] ? ?]. simpl. repeat (split; try done).
Qed.

Lemma core_inv_kick hub sid st :
  core_inv st.(core) → core_inv (kick_session hub sid st).2.(core).
Proof.
  intros Hinv. unfold kick_session, get.
  destruct (sessions (registry (core st)) !! sid) as [ptr|] eqn:E; [|done].
  assert (Hinv' : core_inv (store ptr (signal_shutdown (deref st.(core) ptr)) st.(core)))
    by by eapply core_inv_store_same.
  clear Hinv. change (registry (store ?p ?s ?c)) with (registry c).
  destruct (deregister_Some _ _ _ E) as (Heq & Hs & Hn & Hlen). rewrite Heq. simpl.
  destruct Hinv' as (Hwf & [H1 H2] & Hacc).
  apply core_inv_drop_arc; simpl.
  - apply core_wf_metrics; [|done]. by apply (core_wf_deregister _ _ _ Hwf).
  - split; simpl; [by rewrite Hn|done].
  - unfold accounted in *. simpl in *. lia.
  - eexists. exact (cw_sess _ _ Hwf _ _ E).
Qed.

Lemma core_inv_release hub ptr st :
  core_inv st.(core) → ptr ∈ st.(core).(held) → core_inv (release hub ptr st).(core).
Proof.
  intros (Hwf & [H1 H2] & Hacc) Hheld. unfold release. apply core_inv_drop_arc; simpl.
  - by apply core_wf_unheld.
  - by split.
  - done.
  - by apply (cw_held _ _ Hwf).
Qed.

Lemma core_inv_open hub o st :
  core_inv st.(core) → (st.(core).(metrics).(sessions_opened_total) < u64_modulus)%N →
  core_inv (open_session hub o st).2.(core).
Proof.
  intros (Hwf & Hcnt & Hacc) Hlt. unfold open_session. simpl.
  set (s := if allow_anonymous _ then _ else _).
  assert (Hid : s.(id) = next_id_ctr (registry (core st)))
    by (subst s; by destruct (allow_anonymous _)).
  assert (Hsub : s.(subscriptions) = ∅) by (subst s; by destruct (allow_anonymous _)).
  assert (Hnx : next_id_ctr (registry (core st)) = sessions_opened_total (metrics (core st)))
    by (destruct Hcnt as [Hn _]; by rewrite N.mod_small in Hn).
  pose proof (core_wf_open _ s Hwf Hnx Hid Hsub) as Hw.
  pose proof (counters_open _ s Hwf Hcnt Hacc Hlt Hid) as Hc.
  rewrite Hid in Hw, Hc. split; [exact Hw|exact Hc].
Qed.

Lemma core_inv_end_task hub task st :
  core_inv st.(core) → core_inv (end_task hub task st).(core).
Proof.
  intros H. rewrite end_task_core. apply core_inv_tasks; [done|apply delete_subseteq].
Qed.

Lemma core_inv_forward hub task st :
  core_inv st.(core) → core_inv (forward hub task st).(core).
Proof.
  intros H. unfold forward. destruct (tasks (core st) !! task) as [t|]; [|done].
  destruct (stream_next _ _ _) as [[|[p|]] w]; [done| |by apply core_inv_end_task].
  pose proof (outbox_send_core t.(t_outbox) (SF_Publication p)
                (mk_HubSt st.(core) st.(outboxes) w)) as Hc.
  destruct (outbox_send _ _ _) as [[|] st']; simpl in Hc.
  - by rewrite Hc.
  - apply core_inv_end_task. by rewrite Hc.
Qed.

Lemma drop_arc_held hub ptr st : ptr ∈ st.(core).(held) → drop_arc hub ptr st = st.
Proof.
  intros H. unfold drop_arc, referenced. by rewrite bool_decide_eq_true_2.
Qed.

Lemma drop_arc_last hub ptr st :
  ptr ∉ st.(core).(held) →
  st.(core).(registry).(sessions) !! (deref st.(core) ptr).(id) ≠ Some ptr →
  (drop_arc hub ptr st).(core).(heap) = delete ptr st.(core).(heap) ∧
  ∀ t, (drop_arc hub ptr st).(core).(tasks) !! t
       = if decide (t ∈ (abort_all (deref st.(core) ptr)).1) then None
         else st.(core).(tasks) !! t.
Proof.
  intros Hh Hs. unfold drop_arc, referenced. rewrite !bool_decide_eq_false_2 by done. simpl.
  rewrite !abort_tasks_core. split; [done|]. intros t. simpl. by rewrite lookup_foldl_delete.
Qed.

(** ** Steps of the running hub *)

(** What happens to the state between two points where a task can be switched:
    a whole handler, a turn of a forwarder, or anything the components and the
    receiving ends of the outboxes do by themselves.  The switches at the awaits
    inside a handler are those of Running.v. *)
Inductive hub_step (hub : @Hub W Str) (st : @HubSt W Str _ M) : @HubSt W Str _ M → Prop :=
| step_open o : (st.(core).(metrics).(sessions_opened_total) < u64_modulus)%N →
    hub_step hub st (open_session hub o st).2
| step_connect sid rid token : hub_step hub st (handle_connect hub sid rid token st).2
| step_subscribe sid rid ch since : hub_step hub st (handle_subscribe hub sid rid ch since st).2
| step_unsubscribe sid rid ch : hub_step hub st (handle_unsubscribe hub sid rid ch st).2
| step_publish sid ch data : hub_step hub st (handle_publish hub sid ch data st).2
| step_close sid : hub_step hub st (close_session hub sid st)
| step_kick sid : hub_step hub st (kick_session hub sid st).2
| step_release ptr : ptr ∈ st.(core).(held) → hub_step hub st (release hub ptr st)
| step_forward task : hub_step hub st (forward hub task st)
| step_env outs w : hub_step hub st (mk_HubSt st.(core) outs w).

Definition reachable (hub : @Hub W Str) (st : @HubSt W Str _ M) : Prop :=
  ∃ w, rtc (hub_step hub) (hub_init w) st.

Lemma reachable_init hub w : reachable hub (hub_init w).
Proof. exists w. apply rtc_refl. Qed.

Lemma reachable_step hub st st' : reachable hub st → hub_step hub st st' → reachable hub st'.
Proof. intros [w H] Hs. exists w. by eapply rtc_r. Qed.

Lemma keeps_run {A} P (m : io (@HubSt W Str _ M) HubError A) st :
  keeps P m → P st.(core) → P (m st).2.(core).
Proof. intros H HP. specialize (H st HP). by destruct (m st) as [[?|?] ?]. Qed.

Lemma core_inv_step hub st st' : core_inv st.(core) → hub_step hub st st' → core_inv st'.(core).
Proof.
  intros Hinv H. destruct H.
  - by apply core_inv_open.
  - by apply keeps_run; [apply keeps_handle_connect|].
  - by apply keeps_run; [apply keeps_handle_subscribe|].
  - by apply keeps_run; [apply keeps_handle_unsubscribe|].
  - by apply keeps_run; [apply keeps_handle_publish|].
  - by apply core_inv_close.
  - by apply core_inv_kick.
  - by apply core_inv_release.
  - by apply core_inv_forward.
  - done.
Qed.

Lemma core_inv_init (w : W) : core_inv (hub_init (M:=M) (Str:=Str) w).(core).
Proof.
  split; [split; simpl|split; [split|]]; unfold id_at, subs_at, outbox_at, accounted, len; simpl.
  - intros *. by rewrite lookup_empty.
  - intros *. by rewrite lookup_empty.
  - intros *. set_solver.
  - intros *. by rewrite lookup_empty.
  - intros *. unfold subscribers_of. simpl. rewrite lookup_empty. simpl. split; [set_solver|].
    intros (p & H & _). by rewrite lookup_empty in H.
  - intros *. unfold subscribers_of. simpl. rewrite lookup_empty. apply NoDup_nil_2.
  - intros ch l. simpl. by rewrite lookup_empty.
  - intros *. by rewrite lookup_empty.
  - intros *. by rewrite lookup_empty.
  - intros *. by rewrite lookup_empty.
  - intros *. by rewrite lookup_empty.
  - done.
  - by rewrite map_size_empty.
  - by rewrite map_size_empty.
Qed.

Lemma core_inv_reachable hub st : reachable hub st → core_inv st.(core).
Proof.
  intros [w H]. apply (rtc_ind_r (λ st', core_inv st'.(core)) (hub_init w)) in H; [done|..].
  - apply core_inv_init.
  - intros y z _ Hstep Hy. by eapply core_inv_step.
Qed.
End reach.
