(* ===== verification/HubSteps.v ===== *)
(** * What each computation of a handler does to the state

    Inversion lemmas shared by the properties of the handlers: calls to the
    components change the world alone, claims change one session, replay extends
    one outbox. *)
From S2P Require Import Prelude Protocol Traits Session Hub HubInv HubReach.

Section steps.
Context {W Str : Type} `{NO : Notifier} `{M : Mpsc}.
Implicit Types (c : @HubCore Str _) (st : @HubSt W Str _ M) (hub : @Hub W Str).

Definition set_world (w : W) st : @HubSt W Str _ M := mk_HubSt st.(core) st.(outboxes) w.

Lemma on_world_Ok {E A} (f : E → HubError) (m : io W E A) st a st' :
  on_world f m st = (Ok a, st') ↔ ∃ w, m st.(world) = (Ok a, w) ∧ st' = set_world w st.
Proof.
  unfold on_world. rewrite io_map_err_Ok, io_zoom_run. done.
Qed.

Lemma on_world_Err {E A} (f : E → HubError) (m : io W E A) st e st' :
  on_world f m st = (Err e, st') ↔
    ∃ e' w, m st.(world) = (Err e', w) ∧ e = f e' ∧ st' = set_world w st.
Proof.
  unfold on_world. rewrite io_map_err_Err. setoid_rewrite io_zoom_run. naive_solver.
Qed.

Lemma on_world_eq {E A} (f : E → HubError) (m : io W E A) st r w :
  m st.(world) = (r, w) → on_world f m st = (result_map_err f r, set_world w st).
Proof. unfold on_world, io_map_err, io_zoom. simpl. by intros ->. Qed.

Lemma get_session_eq sid ptr st :
  get st.(core).(registry) sid = Some ptr → get_session sid st = (Ok ptr, st).
Proof. unfold get_session. by intros ->. Qed.

Lemma get_session_None sid st :
  get st.(core).(registry) sid = None → get_session sid st = (Err (SessionGone sid), st).
Proof. unfold get_session. by intros ->. Qed.

Lemma get_session_Ok sid ptr st st' :
  get_session sid st = (Ok ptr, st') ↔ get st.(core).(registry) sid = Some ptr ∧ st' = st.
Proof. unfold get_session. destruct (get _ _); simpl; naive_solver. Qed.

(** The claims a handler works with: those of the session or the anonymous ones,
    which are then the session's. *)
Definition effective_claims hub st ptr : option SessionClaims :=
  match (deref st.(core) ptr).(claims) with
  | Some cl => Some cl
  | None => if allow_anonymous hub.(authenticator) then Some anonymous else None
  end.

Definition with_claims hub ptr st : @HubSt W Str _ M :=
  match (deref st.(core) ptr).(claims) with
  | Some _ => st
  | None => set_core (store ptr (snd (set_claims anonymous (deref st.(core) ptr))) st.(core)) st
  end.

Lemma require_claims_eq hub ptr st cl :
  effective_claims hub st ptr = Some cl →
  require_claims hub ptr st = (Ok cl, with_claims hub ptr st).
Proof.
  unfold effective_claims, require_claims, with_claims, io_bind, read_session, io_gets. simpl.
  destruct (claims _) as [cl'|]; [by intros [= ->]|].
  destruct (allow_anonymous _); [by intros [= <-]|done].
Qed.

Lemma require_claims_None hub ptr st :
  effective_claims hub st ptr = None →
  require_claims hub ptr st = (Err (NotConnected (deref st.(core) ptr).(id)), st).
Proof.
  unfold effective_claims, require_claims, io_bind, read_session, io_gets. simpl.
  destruct (claims _) as [cl'|]; [done|]. by destruct (allow_anonymous _).
Qed.

Lemma with_claims_world hub ptr st : (with_claims hub ptr st).(world) = st.(world).
Proof. unfold with_claims. by destruct (claims _). Qed.

Lemma with_claims_outboxes hub ptr st : (with_claims hub ptr st).(outboxes) = st.(outboxes).
Proof. unfold with_claims. by destruct (claims _). Qed.

(** The three outcomes of the ACL, as the hub sees them. *)
Definition acl_verdict (cl : SessionClaims) (action : AclAction) (ch : string)
    (r : result AclError AclDecision) : result HubError unit :=
  match r with
  | Ok Allow => Ok ()
  | Ok Deny => Err (EAcl (Denied cl.(subject) (acl_action_as_str action) ch "policy denied"))
  | Err e => Err (EAcl e)
  end.

Lemma enforce_acl_eq hub cl action ch st r w :
  check hub.(acl) cl action ch st.(world) = (r, w) →
  enforce_acl hub cl action ch st = (acl_verdict cl action ch r, set_world w st).
Proof.
  intros H. unfold enforce_acl, io_bind. rewrite (on_world_eq _ _ _ _ _ H).
  by destruct r as [[]|].
Qed.

Lemma enforce_acl_Ok hub cl action ch st st' :
  enforce_acl hub cl action ch st = (Ok (), st') →
  ∃ w, check hub.(acl) cl action ch st.(world) = (Ok Allow, w) ∧ st' = set_world w st.
Proof.
  destruct (check hub.(acl) cl action ch st.(world)) as [r w] eqn:E.
  rewrite (enforce_acl_eq _ _ _ _ _ _ _ E). destruct r as [[]|]; simpl; naive_solver.
Qed.

Lemma require_claims_Ok hub ptr st cl st' :
  require_claims hub ptr st = (Ok cl, st') →
  effective_claims hub st ptr = Some cl ∧ st' = with_claims hub ptr st.
Proof.
  destruct (effective_claims hub st ptr) as [cl'|] eqn:E.
  - rewrite (require_claims_eq _ _ _ _ E). naive_solver.
  - by rewrite (require_claims_None _ _ _ E).
Qed.

Lemma read_session_Ok {A} ptr (f : Session → A) st a st' :
  read_session ptr f st = (Ok a, st') ↔ a = f (deref st.(core) ptr) ∧ st' = st.
Proof. unfold read_session, io_gets. naive_solver. Qed.

(** ** A successful subscribe, one computation at a time *)

Lemma handle_subscribe_Ok hub sid rid ch since st ok st' :
  handle_subscribe hub sid rid ch since st = (Ok ok, st') →
  ∃ ptr cl w1 cursor w2 stream w3 st4,
    get st.(core).(registry) sid = Some ptr ∧
    effective_claims hub st ptr = Some cl ∧
    let c1 := (with_claims hub ptr st).(core) in
    check hub.(acl) cl ActSubscribe ch st.(world) = (Ok Allow, w1) ∧
    has_subscription (deref c1 ptr) ch = false ∧
    on_subscribe (kind_for hub ch) ch w1 = (Ok cursor, w2) ∧
    broker_subscribe hub.(broker) ch w2 = (Ok stream, w3) ∧
    replay (kind_for hub ch) sid (deref c1 ptr).(outbox) ch since
      (mk_HubSt c1 st.(outboxes) w3) = (Ok (), st4) ∧
    st4.(core) = c1 ∧
    commit_subscription hub sid rid ptr ch (kind_for hub ch) cursor stream
      (deref c1 ptr).(outbox) st4 = (Ok ok, st').
Proof.
  intros H. unfold handle_subscribe in H.
  io_step H. apply get_session_Ok in Hio as [Hg ->]. rename a into ptr.
  io_step H. apply require_claims_Ok in Hio as [Hcl ->]. rename a into cl.
  io_step H. destruct a. apply enforce_acl_Ok in Hio as (w1 & Hacl & ->).
  rewrite with_claims_world in Hacl.
  io_step H. apply read_session_Ok in Hio as [-> ->]. simpl in H.
  destruct (has_subscription _ ch) eqn:Hsub; [done|].
  io_step H. apply on_world_Ok in Hio as (w2 & Hon & ->). rename a into cursor.
  io_step H. io_step Hio. destruct a as [stream|err].
  2:{ by io_step H. }
  apply on_world_Ok in Hio as (w3 & Hbr & ->).
  io_step H. apply read_session_Ok in Hio as [-> ->]. simpl in H.
  io_step H. io_step Hio. destruct a as [[]|err].
  2:{ io_step H. io_step H. done. }
  exists ptr, cl, w1, cursor, w2, stream, w3. eexists.
  do 6 (split; [done|]). split; [|split].
  - simpl. unfold set_world in Hio. simpl in Hio. rewrite with_claims_outboxes in Hio. exact Hio.
  - pose proof (keeps_replay (M:=M) (λ c, c = (with_claims hub ptr st).(core))
      (kind_for hub ch) sid (outbox (deref (core (with_claims hub ptr st)) ptr)) ch since) as Hk.
    specialize (Hk _ (eq_refl : (set_world w3 (set_world w2 (set_world w1
      (with_claims hub ptr st)))).(core) = _)). rewrite Hio in Hk. done.
  - exact H.
Qed.

(** ** The outbox *)

Section outbox.
Context {L : MpscLaws M}.

(** The frames waiting in an outbox, and whether its receiver is alive. *)
Definition queued st (o : N) : list ServerFrame :=
  default [] (mpsc_queue <$> st.(outboxes) !! o).
Definition outbox_open st (o : N) : Prop :=
  ∃ ch, st.(outboxes) !! o = Some ch ∧ mpsc_closed ch = false.

Lemma outbox_send_open o f st :
  outbox_open st o → ∃ st', outbox_send o f st = (true, st') ∧
    st'.(core) = st.(core) ∧ st'.(world) = st.(world) ∧ outbox_open st' o ∧
    queued st' o = queued st o ++ [f] ∧
    ∀ o', o' ≠ o → st'.(outboxes) !! o' = st.(outboxes) !! o'.
Proof.
  intros (ch & Ho & Hc). unfold outbox_send. rewrite Ho.
  destruct (mpsc_send_open f ch Hc) as (ch' & -> & Hq & Hc'). eexists. split; [done|].
  unfold outbox_open, queued. simpl. rewrite lookup_insert_eq, Ho. simpl.
  do 2 (split; [done|]). split; [eauto|]. split; [done|].
  intros o' Hne. by rewrite lookup_insert_ne.
Qed.

Lemma outbox_send_shut o f st :
  ¬ outbox_open st o → ∃ st', outbox_send o f st = (false, st') ∧
    st'.(core) = st.(core) ∧ st'.(world) = st.(world) ∧ st'.(outboxes) = st.(outboxes).
Proof.
  unfold outbox_open, outbox_send. intros H. destruct (outboxes st !! o) as [ch|] eqn:Ho.
  - destruct (mpsc_closed ch) eqn:Hc; [|naive_solver].
    rewrite mpsc_send_closed by done. eexists. split; [done|]. simpl.
    by rewrite insert_id.
  - eauto.
Qed.

#[export] Instance outbox_open_dec st o : Decision (outbox_open st o).
Proof.
  unfold outbox_open. destruct (st.(outboxes) !! o) as [ch|];
    [|right; by intros (? & ? & _)].
  destruct (mpsc_closed ch) eqn:Hb; [right|left; eauto].
  intros (? & [= <-] & ?). congruence.
Defined.

(** Replayed publications go to the outbox in order, all of them or none. *)
Lemma send_replayed_open sid o ps st :
  outbox_open st o → ∃ st', send_replayed sid o ps st = (Ok (), st') ∧
    st'.(core) = st.(core) ∧ st'.(world) = st.(world) ∧ outbox_open st' o ∧
    queued st' o = queued st o ++ (SF_Publication <$> ps) ∧
    ∀ o', o' ≠ o → st'.(outboxes) !! o' = st.(outboxes) !! o'.
Proof.
  revert st. induction ps as [|p ps IH]; intros st Ho; simpl.
  - exists st. by rewrite app_nil_r.
  - destruct (outbox_send_open o (SF_Publication p) st Ho)
      as (st1 & -> & Hc1 & Hw1 & Ho1 & Hq1 & Hf1).
    destruct (IH st1 Ho1) as (st' & -> & Hc & Hw & Ho' & Hq & Hf). exists st'.
    rewrite Hc, Hw, Hq, Hq1, <-app_assoc. repeat (split; [done|]).
    intros o' Hne. by rewrite Hf, Hf1.
Qed.

Lemma send_replayed_shut sid o ps st :
  ¬ outbox_open st o → ∃ st', send_replayed sid o ps st
    = (match ps with [] => Ok () | _ => Err (SessionGone sid) end, st') ∧
    st'.(core) = st.(core) ∧ st'.(world) = st.(world) ∧ st'.(outboxes) = st.(outboxes).
Proof.
  intros Ho. destruct ps as [|p ps]; simpl; [eauto|].
  destruct (outbox_send_shut o (SF_Publication p) st Ho) as (st1 & -> & ?). eauto.
Qed.
End outbox.

(** What a successful subscribe did. *)
Lemma subscribe_effect `{L : !MpscLaws M} hub st sid rid ch since ok st'
    {Hk : ChannelKindLaws (kind_for hub ch)}
    (Hrun : handle_subscribe hub sid rid ch since st = (Ok ok, st')) :
  ∃ ptr ps cursor stream t w1 w2 w3 cl,
    get st.(core).(registry) sid = Some ptr ∧
    check hub.(acl) cl ActSubscribe ch st.(world) = (Ok Allow, w1) ∧
    on_subscribe (kind_for hub ch) ch w1 = (Ok cursor, w2) ∧
    ok = mk_SubscribeOk rid ch cursor.(epoch) cursor.(offset) ∧
    broker_subscribe hub.(broker) ch w2 = (Ok stream, w3) ∧
    (if decide (since = 0%N) then ps = [] ∧ st'.(world) = w3
     else replay_since (kind_for hub ch) ch since w3 = (Ok ps, st'.(world))) ∧
    Forall (λ p, p.(publ_channel) = ch ∧ (since < p.(publ_offset))%N) ps ∧
    let o := (deref st.(core) ptr).(outbox) in
    queued st' o = queued st o ++ (SF_Publication <$> ps) ∧
    (∀ o', o' ≠ o → st'.(outboxes) !! o' = st.(outboxes) !! o') ∧
    (outbox_open st o → outbox_open st' o) ∧
    (deref st'.(core) ptr).(subscriptions) !! ch = Some t ∧
    t = st.(core).(next_task) ∧
    st'.(core).(tasks) = <[t := mk_Task stream o ch]> st.(core).(tasks) ∧
    sid ∈ subscribers_of st'.(core).(registry) ch.
Proof.
  apply handle_subscribe_Ok in Hrun
    as (ptr & cl & w1 & cursor & w2 & stream & w3 & st4 & Hg & Hcl & Hrest).
  destruct Hrest as (Hacl & Hsub & Hon & Hbr & Hrep & Hcore & Hcommit).
  set (c1 := (with_claims hub ptr st).(core)) in *.
  assert (Ho : (deref c1 ptr).(outbox) = (deref st.(core) ptr).(outbox)).
  { subst c1. unfold with_claims. destruct (claims _); [done|].
    unfold deref at 1. simpl. by rewrite lookup_insert_eq. }
  rewrite Ho in *. set (o := (deref st.(core) ptr).(outbox)) in *.
  assert (Hnone : (deref st4.(core) ptr).(subscriptions) !! ch = None).
  { rewrite Hcore. unfold has_subscription in Hsub. apply bool_decide_eq_false in Hsub.
    by apply eq_None_not_Some. }
  rewrite commit_subscription_run in Hcommit by done. injection Hcommit as <- <-.
  assert (Hps : ∃ ps, (if decide (since = 0%N) then ps = [] ∧ st4.(world) = w3
       else replay_since (kind_for hub ch) ch since w3 = (Ok ps, st4.(world))) ∧
    queued st4 o = queued st o ++ (SF_Publication <$> ps) ∧
    (∀ o', o' ≠ o → st4.(outboxes) !! o' = st.(outboxes) !! o') ∧
    (outbox_open st o → outbox_open st4 o)).
  { unfold replay in Hrep. destruct (decide (0 < since)%N) as [Hpos|Hzero].
    2:{ injection Hrep as <-. exists []. rewrite decide_True by lia. simpl.
        unfold queued. simpl. by rewrite app_nil_r. }
    io_step Hrep.
    apply on_world_Ok in Hio as (w4 & Hr & ->). exists a. simpl in Hr.
    destruct (decide (since = 0%N)) as [->|_]; [lia|].
    set (st5 := set_world w4 (mk_HubSt c1 st.(outboxes) w3)) in *.
    destruct (decide (outbox_open st5 o)) as [Hopen|Hshut].
    - destruct (send_replayed_open sid o a st5 Hopen) as (st6 & Hs6 & _ & Hw6 & Ho6 & Hq & Hf).
      rewrite Hs6 in Hrep. injection Hrep as <-. rewrite Hw6. done.
    - destruct (send_replayed_shut sid o a st5 Hshut) as (st6 & Hs6 & _ & Hw6 & Hf).
      rewrite Hs6 in Hrep. destruct a; [|done]. injection Hrep as <-. rewrite Hw6.
      split; [done|]. unfold queued, outbox_open. rewrite Hf. simpl. by rewrite app_nil_r. }
  destruct Hps as (ps & Hr & Hq & Hf & Hop).
  exists ptr, ps, cursor, stream, st4.(core).(next_task), w1, w2, w3, cl. simpl.
  do 5 (split; [done|]). split; [exact Hr|]. split.
  { case_decide; [destruct Hr as [-> _]; constructor|]. by eapply replay_since_newer. }
  split; [exact Hq|]. split; [exact Hf|]. split; [exact Hop|].
  assert (c1.(next_task) = st.(core).(next_task) ∧ c1.(tasks) = st.(core).(tasks)) as [Hnt Hts]
    by (subst c1; unfold with_claims; by destruct (claims _)).
  split; [|split; [by rewrite Hcore|split; [by rewrite Hcore, Hts|]]].
  - unfold deref at 1. simpl. rewrite lookup_insert_eq. simpl. by rewrite lookup_insert_eq.
  - rewrite subscribers_of_add, decide_True by done. apply elem_of_app. right. by apply list_elem_of_singleton.
Qed.

End steps.
