(* ===== verification/HubBalance.v ===== *)
(** * Balance of the calls to a channel kind

    [handle_subscribe] promises in a comment that every early return after
    [on_subscribe] calls [on_unsubscribe].  The calls are observed by running any
    hub with kinds that log them. *)
From S2P Require Import Prelude Protocol Traits Session Hub HubInv HubReach HubSteps PubSub.
From S2P Require Import MemoryBroker Node.

(** ** Logging kinds *)

Inductive kind_call : Type :=
| CallSubscribed (channel : string)
| CallUnsubscribe (channel : string).

(** Successful [on_subscribe]s of a channel minus its [on_unsubscribe]s. *)
Definition call_weight (ch : string) (c : kind_call) : Z :=
  match c with
  | CallSubscribed ch' => if decide (ch' = ch) then 1 else 0
  | CallUnsubscribe ch' => if decide (ch' = ch) then -1 else 0
  end%Z.

Fixpoint balance (ch : string) (log : list kind_call) : Z :=
  match log with
  | [] => 0
  | c :: log => call_weight ch c + balance ch log
  end%Z.

Section balance.
Context {W Str : Type} `{NO : Notifier} `{M : Mpsc}.

Abbreviation LW := (W * list kind_call)%type.

Definition fst_lens : lens LW W.
Proof. refine {| view := fst; update a w := (a, w.2) |}; try done. by intros []. Defined.

Definition log_call (c : kind_call) (w : LW) : LW := (w.1, c :: w.2).

Definition logging_kind (k : ChannelKind W) : ChannelKind LW := {|
  kind_name := k.(kind_name);
  on_subscribe ch w :=
    let '(r, w') := io_zoom fst_lens (on_subscribe k ch) w in
    (r, if is_ok r then log_call (CallSubscribed ch) w' else w');
  on_unsubscribe ch w :=
    let '(r, w') := io_zoom fst_lens (on_unsubscribe k ch) w in
    (r, log_call (CallUnsubscribe ch) w');
  on_publish ch data := io_zoom fst_lens (on_publish k ch data);
  replay_since ch since := io_zoom fst_lens (replay_since k ch since);
|}.

Definition lift_broker (b : Broker W Str) : Broker LW Str := {|
  broker_name := b.(broker_name);
  broker_subscribe t := io_zoom fst_lens (broker_subscribe b t);
  broker_publish t p := io_zoom fst_lens (broker_publish b t p);
  stream_next s w := let '(r, w') := stream_next b s w.1 in (r, (w', w.2));
  stream_drop s w := (stream_drop b s w.1, w.2);
|}.

(** The hub, its kinds logged and the other components as they are. *)
Definition logging_hub (hub : @Hub W Str) : @Hub LW Str := {|
  kind := logging_kind hub.(kind);
  namespace_kinds := logging_kind <$> hub.(namespace_kinds);
  broker := lift_broker hub.(broker);
  validator := {| validator_name := hub.(validator).(validator_name);
                  validate ch d := io_zoom fst_lens (validate hub.(validator) ch d) |};
  authenticator := {| auth_name := hub.(authenticator).(auth_name);
                      allow_anonymous := hub.(authenticator).(allow_anonymous);
                      authenticate t := io_zoom fst_lens (authenticate hub.(authenticator) t) |};
  acl := {| acl_name := hub.(acl).(acl_name);
            check cl a ch := io_zoom fst_lens (check hub.(acl) cl a ch) |};
|}.

Lemma kind_for_logging hub ch :
  kind_for (logging_hub hub) ch = logging_kind (kind_for hub ch).
Proof.
  unfold kind_for. simpl. rewrite lookup_fmap.
  by destruct (namespace_kinds hub !! namespace_of ch).
Qed.

(** ** Computations that log nothing *)

Implicit Types st : @HubSt LW Str _ M.

Definition quiet {A} (m : io (@HubSt LW Str _ M) HubError A) : Prop :=
  ∀ st, (m st).2.(world).2 = st.(world).2.

Lemma quiet_zoom {E A} (f : E → HubError) (m : io W E A) :
  quiet (on_world f (io_zoom fst_lens m)).
Proof.
  intros st. unfold on_world, io_map_err, io_zoom. simpl. unfold io_zoom. simpl.
  by destruct (m _) as [r w].
Qed.

Lemma quiet_bind {A B} (m : io (@HubSt LW Str _ M) HubError A) (k : A → io _ _ B) :
  quiet m → (∀ a, quiet (k a)) → quiet (io_bind m k).
Proof.
  intros Hm Hk st. specialize (Hm st). unfold io_bind.
  destruct (m st) as [[a|e] st']; simpl in *; [|done]. by rewrite Hk.
Qed.

Lemma quiet_try {A} (m : io (@HubSt LW Str _ M) HubError A) : quiet m → quiet (io_try m).
Proof. intros Hm st. specialize (Hm st). unfold io_try. by destruct (m st). Qed.

Lemma quiet_ret {A} (a : A) : quiet (io_ret a).
Proof. done. Qed.
Lemma quiet_fail {A} e : quiet (io_fail (A:=A) e).
Proof. done. Qed.
Lemma quiet_read {A} ptr (f : Session → A) : quiet (read_session ptr f).
Proof. done. Qed.
Lemma quiet_modify_session {A} ptr (f : Session → A * Session) : quiet (modify_session ptr f).
Proof. intros st. unfold modify_session. by destruct (f _). Qed.
Lemma quiet_get sid : quiet (get_session sid).
Proof. done. Qed.

Lemma end_task_quiet hub task st :
  (end_task (logging_hub hub) task st).(world).2 = st.(world).2.
Proof. unfold end_task. by destruct (tasks _ !! task). Qed.

Lemma quiet_send_replayed sid o ps : quiet (send_replayed sid o ps).
Proof.
  induction ps as [|p ps IH]; intros st; simpl; [done|].
  assert (Hs : (outbox_send o (SF_Publication p) st).2.(world) = st.(world)).
  { unfold outbox_send. destruct (outboxes st !! o); [|done]. by destruct (mpsc_send _ _). }
  destruct (outbox_send _ _ _) as [[|] st']; simpl in *; [|by rewrite Hs].
  by rewrite IH, Hs.
Qed.

Lemma quiet_replay k sid o ch since : quiet (replay (logging_kind k) sid o ch since).
Proof.
  unfold replay. case_decide; [|apply quiet_ret].
  apply quiet_bind; [apply quiet_zoom|]. intros. apply quiet_send_replayed.
Qed.

Lemma quiet_require_claims hub ptr : quiet (require_claims (logging_hub hub) ptr).
Proof.
  apply quiet_bind; [apply quiet_read|]. intros [cl|]; [apply quiet_ret|]. simpl.
  destruct (allow_anonymous _).
  - apply quiet_bind; [apply quiet_modify_session|]. intros. apply quiet_ret.
  - apply quiet_bind; [apply quiet_read|]. intros. apply quiet_fail.
Qed.

Lemma quiet_enforce_acl hub cl action ch : quiet (enforce_acl (logging_hub hub) cl action ch).
Proof.
  apply quiet_bind; [apply quiet_zoom|]. intros []; [apply quiet_ret|apply quiet_fail].
Qed.

Lemma quiet_broker_subscribe hub ch :
  quiet (on_world EBroker (broker_subscribe (logging_hub hub).(broker) ch)).
Proof. apply quiet_zoom. Qed.

(** ** Changes of the balance *)

(** From [st] to [st'] the balance of [ch] moved by [z], the others not at all. *)
Definition moved (ch : string) (z : Z) (st st' : @HubSt LW Str _ M) : Prop :=
  ∀ ch', balance ch' st'.(world).2
         = (balance ch' st.(world).2 + if decide (ch' = ch) then z else 0)%Z.

Lemma moved_trans ch x y z st1 st2 st3 :
  moved ch x st1 st2 → moved ch y st2 st3 → z = (x + y)%Z → moved ch z st1 st3.
Proof. intros H1 H2 -> ch'. rewrite H2, H1. case_decide; lia. Qed.

Lemma moved_eq ch st st' : st'.(world).2 = st.(world).2 → moved ch 0 st st'.
Proof. intros H ch'. rewrite H. case_decide; lia. Qed.

Lemma moved_quiet {A} ch (m : io (@HubSt LW Str _ M) HubError A) st r st' :
  quiet m → m st = (r, st') → moved ch 0 st st'.
Proof. intros Hm H. apply moved_eq. specialize (Hm st). by rewrite H in Hm. Qed.

Lemma moved_subscribed hub ch st r st' :
  on_world EChannel (on_subscribe (kind_for (logging_hub hub) ch) ch) st = (r, st') →
  moved ch (if is_ok r then 1 else 0) st st'.
Proof.
  rewrite kind_for_logging. unfold on_world, io_map_err, io_zoom. simpl. unfold io_zoom. simpl.
  destruct (on_subscribe (kind_for hub ch) ch (world st).1) as [[c|e] w]; simpl; intros [= <- <-] ch'; simpl;
    destruct (decide (ch = ch')), (decide (ch' = ch)); subst; simpl; try done; lia.
Qed.

Lemma moved_unsubscribe hub ch st r st' :
  on_world EChannel (on_unsubscribe (kind_for (logging_hub hub) ch) ch) st = (r, st') →
  moved ch (-1) st st'.
Proof.
  rewrite kind_for_logging. unfold on_world, io_map_err, io_zoom. simpl. unfold io_zoom. simpl.
  destruct (on_unsubscribe (kind_for hub ch) ch (world st).1) as [r' w]; simpl. intros [= <- <-] ch'. simpl.
  destruct (decide (ch = ch')), (decide (ch' = ch)); subst; simpl; try done; lia.
Qed.

Lemma moved_commit hub sid rid ptr ch cursor stream o st r st' :
  commit_subscription (logging_hub hub) sid rid ptr ch (kind_for (logging_hub hub) ch)
    cursor stream o st = (r, st') →
  moved ch (if is_ok r then 0 else -1) st st'.
Proof.
  unfold commit_subscription, spawn, modify_session, insert_subscription. unfold io_bind at 1.
  unfold io_bind at 1. simpl. destruct (subscriptions _ !! ch).
  - intros H. unfold io_bind at 1, io_modify in H. unfold io_bind in H.
    destruct (io_try _ _) as [[r'|e] st2] eqn:E; [|by apply io_try_Err in E].
    apply (proj1 (io_try_Ok _ _ _ _)) in E. apply moved_unsubscribe in E.
    simpl in H. injection H as <- <-. simpl.
    eapply moved_trans; [apply moved_eq|exact E|lia]. by rewrite end_task_quiet.
  - intros H. injection H as <- <-. by apply moved_eq.
Qed.

(** [m] moves the balance of [ch] by [z r] when it ends with [r]. *)
Definition moves {A} (ch : string) (z : result HubError A → Z)
    (m : io (@HubSt LW Str _ M) HubError A) : Prop :=
  ∀ st r st', m st = (r, st') → moved ch (z r) st st'.

Definition if_ok {A} (x y : Z) (r : result HubError A) : Z := if is_ok r then x else y.

Lemma moves_after_quiet {A B} ch x (m : io (@HubSt LW Str _ M) HubError A) (k : A → io _ _ B) :
  quiet m → (∀ a, moves ch (if_ok x 0) (k a)) → moves ch (if_ok x 0) (io_bind m k).
Proof.
  intros Hm Hk st r st' H. unfold io_bind in H.
  destruct (m st) as [[a|e] st1] eqn:E; eapply moved_quiet in E; try done.
  - eapply moved_trans; [exact E|by eapply Hk|lia].
  - by injection H as <- <-.
Qed.

Lemma moves_after_infallible {A B} ch z (m : io (@HubSt LW Str _ M) HubError A) (k : A → io _ _ B) :
  quiet m → (∀ st, is_ok (m st).1 = true) → (∀ a, moves ch z (k a)) → moves ch z (io_bind m k).
Proof.
  intros Hm Hok Hk st r st' H. unfold io_bind in H. specialize (Hok st).
  destruct (m st) as [[a|e] st1] eqn:E; [|done]. eapply moved_quiet in E; [|done].
  eapply moved_trans; [exact E|by eapply Hk|lia].
Qed.

Lemma moves_after_subscribe {B} hub ch (k : _ → io (@HubSt LW Str _ M) HubError B) :
  (∀ a, moves ch (if_ok 0 (-1)) (k a)) →
  moves ch (if_ok 1 0)
    (io_bind (on_world EChannel (on_subscribe (kind_for (logging_hub hub) ch) ch)) k).
Proof.
  intros Hk st r st' H. unfold io_bind in H.
  destruct (on_world _ _ st) as [[a|e] st1] eqn:E; apply moved_subscribed in E; simpl in E.
  - eapply moved_trans; [exact E|by eapply Hk|]. unfold if_ok. destruct (is_ok r); lia.
  - by injection H as <- <-.
Qed.

(** Unwinding after a failure. *)
Lemma moves_unwind {A} hub ch err (rest : io (@HubSt LW Str _ M) HubError A) :
  (∀ st, (rest st).1 = Err err) → quiet rest →
  moves ch (if_ok 0 (-1))
    (io_try (on_world EChannel (on_unsubscribe (kind_for (logging_hub hub) ch) ch)) ;; rest).
Proof.
  intros He Hq st r st' H. unfold io_bind in H.
  destruct (io_try _ st) as [[u|e] st1] eqn:E; [|by apply io_try_Err in E].
  apply (proj1 (io_try_Ok _ _ _ _)), moved_unsubscribe in E.
  pose proof (He st1) as Hr. rewrite H in Hr. simpl in Hr. subst r.
  eapply moved_quiet in H; [|exact Hq]. eapply moved_trans; [exact E|exact H|done].
Qed.

(** C20: whatever the components do, [handle_subscribe] keeps the channel kind
    balanced: compared with the calls made before, there is exactly one more
    successful [on_subscribe] than [on_unsubscribe] on the channel when the
    subscribe succeeds, and none when it fails, whichever stage failed; other
    channels are not involved. *)
Theorem subscribe_balanced (hub : @Hub W Str) st sid rid ch since r st'
    (Hrun : handle_subscribe (logging_hub hub) sid rid ch since st = (r, st')) :
  ∀ ch', balance ch' st'.(world).2
         = (balance ch' st.(world).2
            + if decide (ch' = ch) then if is_ok r then 1 else 0 else 0)%Z.
Proof.
  revert Hrun. change (handle_subscribe (logging_hub hub) sid rid ch since st = (r, st') →
    moved ch (if_ok 1 0 r) st st'). revert st r st'. fold (moves (A:=SubscribeOk) ch (if_ok 1 0)).
  apply moves_after_quiet; [apply quiet_get|]. intros ptr.
  apply moves_after_quiet; [apply quiet_require_claims|]. intros cl.
  apply moves_after_quiet; [apply quiet_enforce_acl|]. intros _.
  apply moves_after_quiet; [apply quiet_read|]. intros [|].
  { intros st r st' [= <- <-]. by apply moved_eq. }
  apply moves_after_subscribe. intros cursor.
  apply moves_after_infallible; [apply quiet_try, quiet_zoom| |].
  { intros st. unfold io_try. by destruct (on_world _ _ st). }
  intros [stream|err]; [|by apply (moves_unwind _ _ err)].
  apply moves_after_infallible; [apply quiet_read|done|]. intros o.
  apply moves_after_infallible; [rewrite kind_for_logging; apply quiet_try, quiet_replay| |].
  { intros st. unfold io_try. by destruct (replay _ _ _ _ _ st). }
  intros [[]|err].
  - intros st r st'. apply moved_commit.
  - by apply (moves_unwind _ _ err).
Qed.

Lemma on_unsubscribe_logged hub ch st r st' :
  on_world EChannel (on_unsubscribe (kind_for (logging_hub hub) ch) ch) st = (r, st') →
  st'.(world).2 = CallUnsubscribe ch :: st.(world).2 ∧ st'.(core) = st.(core) ∧
  ∀ e, r = Err e → ∃ e', e = EChannel e'.
Proof.
  rewrite kind_for_logging. unfold on_world, io_map_err, io_zoom. simpl. unfold io_zoom. simpl.
  destruct (on_unsubscribe (kind_for hub ch) ch (world st).1) as [[[]|e] w]; simpl; intros [= <- <-];
    (do 2 (split; [done|])); intros e' [= <-]; eauto.
Qed.

Lemma abort_tasks_quiet hub l st :
  (abort_tasks (logging_hub hub) l st).(world).2 = st.(world).2.
Proof.
  unfold abort_tasks. revert st. induction l as [|t l IH]; intros st; simpl; [done|].
  by rewrite IH, end_task_quiet.
Qed.

Lemma drop_arc_quiet hub p st : (drop_arc (logging_hub hub) p st).(world).2 = st.(world).2.
Proof. unfold drop_arc. destruct (referenced _ _); [done|]. simpl. by rewrite abort_tasks_quiet. Qed.

(** The session is registered and has a subscription to the channel. *)
Definition subscribed sid ch st : bool :=
  match get st.(core).(registry) sid with
  | Some ptr => has_subscription (deref st.(core) ptr) ch
  | None => false
  end.

(** C21: when the session is subscribed to the channel, [handle_unsubscribe] calls
    [on_unsubscribe] of the channel's kind exactly once, for this channel, whether
    the kind then fails or not, the subscription is gone afterwards, and the only
    error there can be is the kind's.  When it is not, no kind is called and the
    answer is that the session is gone or not subscribed.  Closing, kicking or
    releasing a session calls the kinds never, whatever subscriptions end with it. *)
Theorem unsubscribe_balanced (hub : @Hub W Str) st sid rid ch r st'
    (Hrun : handle_unsubscribe (logging_hub hub) sid rid ch st = (r, st')) :
  (if subscribed sid ch st
   then st'.(world).2 = CallUnsubscribe ch :: st.(world).2 ∧ subscribed sid ch st' = false ∧
        (r = Ok (mk_UnsubscribeOk rid ch) ∨ ∃ e, r = Err (EChannel e))
   else st'.(world).2 = st.(world).2 ∧
        r = Err (if get st.(core).(registry) sid is Some _ then NotSubscribed sid ch else SessionGone sid)) ∧
  (∀ sid' ptr, (close_session (logging_hub hub) sid' st).(world).2 = st.(world).2 ∧
     (kick_session (logging_hub hub) sid' st).2.(world).2 = st.(world).2 ∧
     (release (logging_hub hub) ptr st).(world).2 = st.(world).2).
Proof.
  split.
  - unfold handle_unsubscribe, get_session in Hrun. unfold io_bind at 1 in Hrun. unfold subscribed.
    destruct (get _ sid) as [ptr|] eqn:Hg; simpl in Hrun; [|by injection Hrun as <- <-].
    unfold io_bind at 1, modify_session, remove_subscription in Hrun. unfold has_subscription.
    destruct (subscriptions _ !! ch) as [t|] eqn:Hs.
    2:{ rewrite bool_decide_false by (intros [? ?]; congruence). by injection Hrun as <- <-. }
    rewrite bool_decide_true by eauto.
    do 3 (unfold io_bind at 1 in Hrun; simpl in Hrun).
    destruct (on_world _ _ _) as [r1 st2] eqn:E.
    apply on_unsubscribe_logged in E as (Hlog & Hcore & Herr). simpl in Hcore, Hlog.
    rewrite end_task_quiet in Hlog. simpl in Hlog.
    assert (st' = st2 ∧ (r = Ok (mk_UnsubscribeOk rid ch) ∨ ∃ e, r = Err (EChannel e))) as [-> Hr].
    { destruct r1 as [[]|e]; injection Hrun as <- <-; [by auto|]. split; [done|].
      destruct (Herr e eq_refl) as [e' ->]. eauto. }
    split; [done|]. split; [|done]. unfold get in *. rewrite Hcore. simpl.
    rewrite sessions_remove_from_index, end_task_core. simpl. rewrite Hg.
    unfold deref. simpl. rewrite lookup_insert_eq. simpl. rewrite lookup_delete_eq. done.
  - intros sid' ptr. split; [|split].
    + unfold close_session. destruct (deregister _ _) as [[p|] reg]; [by rewrite drop_arc_quiet|done].
    + unfold kick_session. destruct (get _ _) as [p|]; [|done].
      destruct (deregister _ _) as [[p'|] reg]; simpl; [by rewrite drop_arc_quiet|done].
    + unfold release. by rewrite drop_arc_quiet.
Qed.
End balance.

(** ** Witnesses *)

Definition logged_init : @HubSt (NodeW * list kind_call) MemStream CountNotifier QueueMpsc :=
  mk_HubSt (sample_open open_node).(core) (sample_open open_node).(outboxes)
    ((sample_open open_node).(world), []).

Lemma subscribe_balanced_witness :
  let hub := logging_hub (open_node (B:=QueueBroadcast)) in
  ∃ r st', handle_subscribe hub 0 1 "rooms.lobby" 0 logged_init = (r, st') ∧ is_ok r = true ∧
    balance "rooms.lobby" st'.(world).2 = 1%Z.
Proof.
  simpl. destruct (handle_subscribe _ 0 1 "rooms.lobby" 0 logged_init) as [r st'] eqn:E.
  exists r, st'. split; [reflexivity|].
  assert (Hr : is_ok r = true).
  { assert (H : is_ok (handle_subscribe (logging_hub (open_node (B:=QueueBroadcast))) 0 1
      "rooms.lobby" 0 logged_init).1 = true) by (vm_compute; reflexivity).
    rewrite E in H. exact H. }
  split; [exact Hr|].
  rewrite (subscribe_balanced open_node logged_init 0 1 "rooms.lobby" 0 r st' E), Hr.
  reflexivity.
Defined.

(** Unsubscribing balances the books; closing instead leaves the call open. *)
Lemma unsubscribe_balanced_witness :
  let hub := logging_hub (open_node (B:=QueueBroadcast)) in
  let st := (handle_subscribe hub 0 1 "rooms.lobby" 0 logged_init).2 in
  ∃ r st', handle_unsubscribe hub 0 2 "rooms.lobby" st = (r, st') ∧
    balance "rooms.lobby" st'.(world).2 = 0%Z ∧
    balance "rooms.lobby" (close_session hub 0 st).(world).2 = 1%Z.
Proof.
  intros hub st. destruct (handle_unsubscribe hub 0 2 "rooms.lobby" st) as [r st'] eqn:E.
  exists r, st'. split; [reflexivity|].
  destruct (unsubscribe_balanced open_node st 0 2 "rooms.lobby" r st' E) as [H1 H2].
  assert (subscribed 0 "rooms.lobby" st = true) as Hs by (vm_compute; reflexivity).
  rewrite Hs in H1. destruct H1 as [H1 _]. split.
  - rewrite H1. vm_compute. reflexivity.
  - etrans; [exact (f_equal (balance "rooms.lobby") (proj1 (H2 0%N 0%N)))|].
    vm_compute. reflexivity.
Defined.
