(* ===== verification/HubProps.v ===== *)
(** * Properties of the hub

    What the sessions, their subscriptions and the counters look like in every
    reachable state, and what each handler does on each of its branches. *)
From S2P Require Import Prelude Protocol Traits Session Hub HubInv HubReach HubSteps Node.
From S2P Require Import MemoryBroker PubSub NamespaceAcl.

Section props.
Context {W Str : Type} `{NO : Notifier} `{M : Mpsc}.
Implicit Types (c : @HubCore Str _) (st : @HubSt W Str _ M) (hub : @Hub W Str).

(** ** Reachable states *)

(** In every state that handlers reach one at a time the reverse channel index is
    exact (Index.v has what interruptions leave of it): a channel lists a session id
    if and only if that session is registered and has a subscription to the channel;
    no id is listed twice, and a channel without subscribers has no entry. *)
Theorem reverse_index_exact hub st (Hst : reachable hub st) (ch : string) :
  (∀ sid, sid ∈ subscribers_of st.(core).(registry) ch ↔
     ∃ ptr, get st.(core).(registry) sid = Some ptr ∧
            has_subscription (deref st.(core) ptr) ch = true) ∧
  NoDup (subscribers_of st.(core).(registry) ch) ∧
  st.(core).(registry).(channels) !! ch ≠ Some [].
Proof.
  destruct (core_inv_reachable _ _ Hst) as (Hwf & _ & _). split; [|split].
  - intros sid. rewrite (cw_index _ _ Hwf). unfold get, has_subscription.
    split; intros (ptr & Hs & Hc); exists ptr; (split; [done|]).
    + apply bool_decide_eq_true. unfold subs_at, deref in *.
      destruct (heap _ !! ptr); [done|by destruct Hc].
    + apply bool_decide_eq_true in Hc. unfold subs_at, deref in *.
      destruct (heap _ !! ptr); [done|]. simpl in Hc. rewrite lookup_empty in Hc. by destruct Hc.
  - apply (cw_nodup _ _ Hwf).
  - intros H. by apply (cw_entries _ _ Hwf) in H.
Qed.

(** C14: in every reachable state each running forwarder belongs to exactly one
    subscription of a live session and writes to that session's outbox; a
    session is alive only while a transport holds it or it is registered under
    its own id.  No forwarder is orphaned. *)
Theorem no_orphan_forwarder hub st (Hst : reachable hub st) :
  (∀ t tk, st.(core).(tasks) !! t = Some tk →
     ∃ ptr s, st.(core).(heap) !! ptr = Some s ∧
       s.(subscriptions) !! tk.(t_channel) = Some t ∧ s.(outbox) = tk.(t_outbox) ∧
       ∀ ptr' s' ch', st.(core).(heap) !! ptr' = Some s' →
         s'.(subscriptions) !! ch' = Some t → ptr' = ptr ∧ ch' = tk.(t_channel)) ∧
  (∀ ptr s, st.(core).(heap) !! ptr = Some s →
     ptr ∈ st.(core).(held) ∨ get st.(core).(registry) s.(id) = Some ptr).
Proof.
  destruct (core_inv_reachable _ _ Hst) as (Hwf & _ & _). split.
  - intros t tk Ht. destruct (cw_task _ _ Hwf _ _ Ht) as (ptr & Hs & Ho).
    unfold subs_at, outbox_at in *. destruct (heap _ !! ptr) as [s|] eqn:Hp; [|done]. simpl in *.
    exists ptr, s. repeat (split; [congruence|]). intros ptr' s' ch' Hp' Hs'.
    eapply (cw_sub_inj _ _ Hwf); unfold subs_at; [rewrite Hp'|rewrite Hp]; done.
  - intros ptr s Hp. destruct (cw_live _ _ Hwf ptr s.(id)) as [?|[?|?]]; [|auto..|done].
    unfold id_at. by rewrite Hp.
Qed.

(** C18: in every reachable state the session counters add up: every session
    ever opened was closed, or kicked, or is still registered, never two of
    them, and the gauge of active sessions is the size of the registry. *)
Theorem session_accounting hub st (Hst : reachable hub st) :
  let m := st.(core).(metrics) in
  m.(sessions_opened_total)
  = (m.(sessions_closed_total) + m.(sessions_kicked_total) + m.(sessions_active))%N ∧
  m.(sessions_active) = N.of_nat (len st.(core).(registry)).
Proof.
  destruct (core_inv_reachable _ _ Hst) as (_ & [_ Ha] & Hacc). simpl. rewrite Ha. done.
Qed.

(** ** Gates *)

(** When the authenticator does not allow anonymous access, a session that
    has not connected can neither subscribe nor publish: both handlers answer
    [NotConnected] and change nothing at all, so neither the ACL, the schema
    validator, the channel kind nor the broker is consulted. *)
Theorem not_connected_gate hub st sid rid ptr ch since data
    (Hst : reachable hub st) (Hreq : requires_connect hub = true)
    (Hs : get st.(core).(registry) sid = Some ptr)
    (Hc : (deref st.(core) ptr).(claims) = None) :
  handle_subscribe hub sid rid ch since st = (Err (NotConnected sid), st) ∧
  handle_publish hub sid ch data st = (Err (NotConnected sid), st).
Proof.
  assert (Hn : effective_claims hub st ptr = None).
  { unfold effective_claims. rewrite Hc. unfold requires_connect in Hreq.
    by apply negb_true_iff in Hreq as ->. }
  pose proof (require_claims_None _ _ _ Hn) as Hr.
  destruct (core_inv_deref _ _ _ (core_inv_reachable _ _ Hst) Hs) as [_ Hid]. rewrite Hid in Hr.
  unfold handle_subscribe, handle_publish.
  rewrite !(io_bind_Ok_eq _ _ _ _ _ (get_session_eq _ _ _ Hs)).
  by rewrite !(io_bind_Err_eq _ _ _ _ _ Hr).
Qed.

(** A subscribe or a publish the ACL does not allow fails with the ACL's
    error (a plain denial is reported with the subject, the action and the
    channel); the only thing that changed is what the ACL itself did: no
    registry entry, no forwarder, no outbox, and the validator, the kind and
    the broker were not called. *)
Theorem acl_denial_short_circuits hub st sid rid ptr ch since data cl r w
    (Hs : get st.(core).(registry) sid = Some ptr)
    (Hc : (deref st.(core) ptr).(claims) = Some cl) :
  (check hub.(acl) cl ActSubscribe ch st.(world) = (r, w) → r ≠ Ok Allow →
     ∃ e, handle_subscribe hub sid rid ch since st = (Err (EAcl e), set_world w st) ∧
       (r = Ok Deny → e = Denied cl.(subject) "subscribe" ch "policy denied") ∧
       (∀ e', r = Err e' → e = e')) ∧
  (check hub.(acl) cl ActPublish ch st.(world) = (r, w) → r ≠ Ok Allow →
     ∃ e, handle_publish hub sid ch data st = (Err (EAcl e), set_world w st) ∧
       (r = Ok Deny → e = Denied cl.(subject) "publish" ch "policy denied") ∧
       (∀ e', r = Err e' → e = e')).
Proof.
  assert (He : effective_claims hub st ptr = Some cl) by (unfold effective_claims; by rewrite Hc).
  pose proof (require_claims_eq _ _ _ _ He) as Hr.
  assert (Hw : with_claims hub ptr st = st) by (unfold with_claims; by rewrite Hc).
  rewrite Hw in Hr. unfold handle_subscribe, handle_publish.
  split; intros Hck Hne; apply enforce_acl_eq in Hck;
    rewrite !(io_bind_Ok_eq _ _ _ _ _ (get_session_eq _ _ _ Hs)),
            !(io_bind_Ok_eq _ _ _ _ _ Hr);
    (destruct r as [[]|e]; [done|..]; simpl in Hck;
     rewrite !(io_bind_Err_eq _ _ _ _ _ Hck); eexists; (split; [done|]); naive_solver).
Qed.

(** ** Publish *)

(** How far a publish got, with the world it left behind. *)
Inductive publish_outcome hub (cl : SessionClaims) (ch : string) (data : Bytes) (w : W) :
    result HubError Publication → W → Prop :=
| po_schema w1 e w2 :
    check hub.(acl) cl ActPublish ch w = (Ok Allow, w1) →
    validate hub.(validator) ch data w1 = (Err e, w2) →
    publish_outcome hub cl ch data w (Err (ESchema e)) w2
| po_channel w1 w2 e w3 :
    check hub.(acl) cl ActPublish ch w = (Ok Allow, w1) →
    validate hub.(validator) ch data w1 = (Ok (), w2) →
    on_publish (kind_for hub ch) ch data w2 = (Err e, w3) →
    publish_outcome hub cl ch data w (Err (EChannel e)) w3
| po_broker w1 w2 p w3 e w4 :
    check hub.(acl) cl ActPublish ch w = (Ok Allow, w1) →
    validate hub.(validator) ch data w1 = (Ok (), w2) →
    on_publish (kind_for hub ch) ch data w2 = (Ok p, w3) →
    broker_publish hub.(broker) ch p w3 = (Err e, w4) →
    publish_outcome hub cl ch data w (Err (EBroker e)) w4
| po_ok w1 w2 p w3 w4 :
    check hub.(acl) cl ActPublish ch w = (Ok Allow, w1) →
    validate hub.(validator) ch data w1 = (Ok (), w2) →
    on_publish (kind_for hub ch) ch data w2 = (Ok p, w3) →
    broker_publish hub.(broker) ch p w3 = (Ok (), w4) →
    p.(publ_channel) = ch → p.(publ_data) = data →
    publish_outcome hub cl ch data w (Ok p) w4.

Definition published (r : result HubError Publication) : N := if is_ok r then 1%N else 0%N.

(** C8: a publish that passes the ACL calls the schema validator, the channel
    kind and the broker in this order and stops at the first that fails, with
    that component's error; it succeeds exactly when all accept, returns a
    publication with the channel and the payload it was given, and only then
    counts it.  Sessions, subscriptions and outboxes are left alone.  When it
    is the broker that fails, what the kind did is kept. *)
Theorem publish_stages hub st sid ptr ch data cl w1
    {Hk : ChannelKindLaws (kind_for hub ch)}
    (Hs : get st.(core).(registry) sid = Some ptr)
    (Hc : (deref st.(core) ptr).(claims) = Some cl)
    (Ha : check hub.(acl) cl ActPublish ch st.(world) = (Ok Allow, w1)) :
  ∃ r w, publish_outcome hub cl ch data st.(world) r w ∧
    handle_publish hub sid ch data st
    = (r, mk_HubSt (if is_ok r then count_publication st.(core) else st.(core))
            st.(outboxes) w).
Proof.
  assert (He : effective_claims hub st ptr = Some cl) by (unfold effective_claims; by rewrite Hc).
  pose proof (require_claims_eq _ _ _ _ He) as Hr.
  assert (Hw : with_claims hub ptr st = st) by (unfold with_claims; by rewrite Hc).
  rewrite Hw in Hr. unfold handle_publish.
  rewrite (io_bind_Ok_eq _ _ _ _ _ (get_session_eq _ _ _ Hs)), (io_bind_Ok_eq _ _ _ _ _ Hr).
  rewrite (io_bind_Ok_eq _ _ _ _ _ (enforce_acl_eq _ _ _ _ _ _ _ Ha)).
  destruct (validate (validator hub) ch data w1) as [[[]|e] w2] eqn:Hv.
  2:{ rewrite (io_bind_Err_eq _ _ _ _ _ (on_world_eq _ _ (set_world w1 st) _ _ Hv)).
      do 2 eexists. split; [by eapply po_schema|done]. }
  rewrite (io_bind_Ok_eq _ _ _ _ _ (on_world_eq _ _ (set_world w1 st) _ _ Hv)).
  destruct (on_publish (kind_for hub ch) ch data w2) as [[p|e] w3] eqn:Hp.
  2:{ rewrite (io_bind_Err_eq _ _ _ _ _ (on_world_eq _ _ (set_world w2 st) _ _ Hp)).
      do 2 eexists. split; [by eapply po_channel|done]. }
  rewrite (io_bind_Ok_eq _ _ _ _ _ (on_world_eq _ _ (set_world w2 st) _ _ Hp)).
  destruct (on_publish_echo _ _ _ _ _ Hp) as [Hch Hdata].
  destruct (broker_publish (broker hub) ch p w3) as [[[]|e] w4] eqn:Hb.
  2:{ rewrite (io_bind_Err_eq _ _ _ _ _ (on_world_eq _ _ (set_world w3 st) _ _ Hb)).
      do 2 eexists. split; [by eapply po_broker|done]. }
  rewrite (io_bind_Ok_eq _ _ _ _ _ (on_world_eq _ _ (set_world w3 st) _ _ Hb)).
  do 2 eexists. split; [by eapply po_ok|done].
Qed.

(** ** Subscribe *)

(** C7: a successful subscribe, once the ACL has allowed it, calls [on_subscribe] of
    the channel's kind, opens the broker's stream, and only then asks the kind for
    the replay, each in the memory the one before left.  It answers with the request
    id, the channel and the cursor that [on_subscribe] returned; it pushes to the
    session's own outbox the publications the kind replays, in order and all newer
    than [since_offset] (when [since_offset] is zero the kind is not asked and
    nothing is pushed), and touches no other outbox; and it leaves one forwarder
    that reads that stream for the session's outbox, recorded as the session's
    subscription and in the reverse index. *)
Theorem subscribe_replays_then_forwards `{L : !MpscLaws M} hub st sid rid ch since ok st'
    {Hk : ChannelKindLaws (kind_for hub ch)}
    (Hrun : handle_subscribe hub sid rid ch since st = (Ok ok, st')) :
  ∃ ptr cl ps cursor stream t w1 w2 w3,
    get st.(core).(registry) sid = Some ptr ∧
    check hub.(acl) cl ActSubscribe ch st.(world) = (Ok Allow, w1) ∧
    on_subscribe (kind_for hub ch) ch w1 = (Ok cursor, w2) ∧
    broker_subscribe hub.(broker) ch w2 = (Ok stream, w3) ∧
    (if decide (since = 0%N) then ps = [] ∧ st'.(world) = w3
     else replay_since (kind_for hub ch) ch since w3 = (Ok ps, st'.(world))) ∧
    ok = mk_SubscribeOk rid ch cursor.(epoch) cursor.(offset) ∧
    Forall (λ p, p.(publ_channel) = ch ∧ (since < p.(publ_offset))%N) ps ∧
    let o := (deref st.(core) ptr).(outbox) in
    queued st' o = queued st o ++ (SF_Publication <$> ps) ∧
    (∀ o', o' ≠ o → st'.(outboxes) !! o' = st.(outboxes) !! o') ∧
    (deref st'.(core) ptr).(subscriptions) !! ch = Some t ∧
    st'.(core).(tasks) = <[t := mk_Task stream o ch]> st.(core).(tasks) ∧
    sid ∈ subscribers_of st'.(core).(registry) ch.
Proof.
  apply (subscribe_effect _ _ _ _ _ _ _ _ (Hk:=Hk)) in Hrun
    as (ptr & ps & cursor & stream & t & w1 & w2 & w3 & cl & ? & ? & ? & ? & ? & ? & ? & ? & ? &
        _ & ? & _ & Ht & ?).
  exists ptr, cl, ps, cursor, stream, t, w1, w2, w3. rewrite Ht.
  repeat (split; [done|]). done.
Qed.

(** ** Connect *)

(** On a hub that requires it, a successful connect gives the session the
    claims the authenticator returned and answers with their subject and expiry;
    from then on every further connect of that session is refused with
    [AlreadyConnected], without asking the authenticator. *)
Theorem connect_once hub st sid rid token ok st'
    (Hreq : requires_connect hub = true)
    (Hrun : handle_connect hub sid rid token st = (Ok ok, st')) :
  ∃ ptr cl w, get st.(core).(registry) sid = Some ptr ∧
    authenticate hub.(authenticator) token st.(world) = (Ok cl, w) ∧
    ok = mk_ConnectOk rid cl.(subject) cl.(expires_at) ∧ st'.(world) = w ∧
    (deref st'.(core) ptr).(claims) = Some cl ∧
    ∀ rid' token', handle_connect hub sid rid' token' st' = (Err (AlreadyConnected sid), st').
Proof.
  assert (Hreq' : negb (allow_anonymous (authenticator hub)) = true) by done.
  unfold handle_connect in Hrun.
  io_step Hrun. apply get_session_Ok in Hio as [Hg ->]. rename a into ptr.
  io_step Hrun. apply read_session_Ok in Hio as [-> ->].
  case_bool_decide as Hc; rewrite ?Hreq' in Hrun; simpl in Hrun; [done|].
  io_step Hrun. apply on_world_Ok in Hio as (w1 & Hw & ->). rename a into cl.
  injection Hrun as <- <-. exists ptr, cl, w1.
  assert (Hd : (deref (store ptr (set_claims cl (deref st.(core) ptr)).2 st.(core)) ptr).(claims)
               = Some cl) by (unfold deref at 1; simpl; by rewrite lookup_insert_eq).
  repeat (split; [done|]). intros rid' token'. unfold handle_connect.
  match goal with |- io_bind _ _ ?s = _ => set (st1 := s) end.
  assert (Hg' : get st1.(core).(registry) sid = Some ptr) by done.
  rewrite (io_bind_Ok_eq _ _ _ _ _ (get_session_eq _ _ _ Hg')).
  unfold io_bind at 1, read_session, io_gets. subst st1. simpl in *.
  rewrite Hd, Hreq'. done.
Qed.

(** ** Unknown sessions *)

(** Every handler answers [SessionGone] to an id that is not registered
    (never opened, closed or kicked) and changes nothing; closing or kicking
    such an id does nothing either. *)
Theorem unknown_session_is_gone hub st sid rid ch since data token
    (Hs : get st.(core).(registry) sid = None) :
  handle_connect hub sid rid token st = (Err (SessionGone sid), st) ∧
  handle_subscribe hub sid rid ch since st = (Err (SessionGone sid), st) ∧
  handle_unsubscribe hub sid rid ch st = (Err (SessionGone sid), st) ∧
  handle_publish hub sid ch data st = (Err (SessionGone sid), st) ∧
  close_session hub sid st = st ∧ kick_session hub sid st = (false, st).
Proof.
  pose proof (get_session_None _ _ Hs) as He.
  unfold handle_connect, handle_subscribe, handle_unsubscribe, handle_publish.
  rewrite !(io_bind_Err_eq _ _ _ _ _ He). do 4 (split; [done|]). split.
  - unfold close_session, deregister. unfold get in Hs. rewrite Hs. by destruct st as [[] ? ?].
  - unfold kick_session. by rewrite Hs.
Qed.

(** ** Kick *)

(** Kicking a registered session whose transport still holds it reports
    success, wakes a transport that is waiting on the shutdown notifier,
    removes the id from the registry and from every channel of the reverse
    index; its forwarders go on, and are all aborted once the transport lets
    go of the session. *)
Theorem kick_then_release {NL : NotifierLaws NO} hub st sid ptr
    (Hst : reachable hub st) (Hs : get st.(core).(registry) sid = Some ptr)
    (Hheld : ptr ∈ st.(core).(held)) :
  let s := deref st.(core) ptr in
  let '(kicked, st1) := kick_session hub sid st in
  let st2 := release hub ptr st1 in
  kicked = true ∧ get st1.(core).(registry) sid = None ∧
  (∀ ch, sid ∉ subscribers_of st1.(core).(registry) ch) ∧
  notified_ready (deref st1.(core) ptr).(shutdown) (notified s.(shutdown)) = true ∧
  st1.(core).(tasks) = st.(core).(tasks) ∧
  st2.(core).(heap) !! ptr = None ∧
  ∀ ch t, s.(subscriptions) !! ch = Some t → st2.(core).(tasks) !! t = None.
Proof.
  pose proof (core_inv_reachable _ _ Hst) as Hinv.
  destruct (core_inv_deref _ _ _ Hinv Hs) as [Hp Hid]. simpl.
  unfold kick_session. rewrite Hs. set (s := deref st.(core) ptr) in *.
  destruct (deregister_Some sid (registry (core st)) ptr Hs) as (Heq & Hsess & _ & _).
  change (registry (store ptr (signal_shutdown s) (core st))) with (registry (core st)).
  rewrite Heq. rewrite drop_arc_held by done.
  set (st1 := set_core (count_kicked _) _).
  assert (Hd1 : deref st1.(core) ptr = signal_shutdown s)
    by (unfold deref; simpl; by rewrite lookup_insert_eq).
  split; [done|]. split; [unfold get; simpl; by rewrite Hsess, lookup_delete_eq|]. split.
  { intros ch. simpl. rewrite subscribers_of_deregister by eauto.
    rewrite list_elem_of_filter. tauto. }
  rewrite Hd1. split; [apply notified_woken|].
  split; [done|]. unfold release.
  destruct (drop_arc_last hub ptr (set_core (set_held (held (core st1) ∖ {[ptr]}) (core st1)) st1))
    as [Hheap Htasks].
  - simpl. set_solver.
  - change (deref (core (set_core (set_held (held (core st1) ∖ {[ptr]}) (core st1)) st1)) ptr)
      with (deref (core st1) ptr). rewrite Hd1. simpl. rewrite Hid, Hsess, lookup_delete_eq. done.
  - rewrite Hheap. split; [simpl; by rewrite lookup_delete_eq|]. intros ch t Hc.
    rewrite Htasks, decide_True; [done|].
    change (deref (core (set_core (set_held (held (core st1) ∖ {[ptr]}) (core st1)) st1)) ptr)
      with (deref (core st1) ptr). rewrite Hd1. by eapply elem_of_abort_all.
Qed.
End props.

(** ** Witnesses *)

Section witnesses.
#[local] Existing Instances QueueBroadcast CountNotifier QueueMpsc.

Lemma reachable_sample_open (hub : @Hub NodeW MemStream) : reachable hub (sample_open hub).
Proof.
  apply (reachable_step _ sample_init); [|apply step_open; vm_compute; reflexivity].
  eapply reachable_step; [apply (reachable_init _ (node_init 4 1000 8))|].
  apply (step_env hub (hub_init (node_init 4 1000 8))).
Qed.

Lemma reachable_sample_sub (hub : @Hub NodeW MemStream) : reachable hub (sample_sub hub).
Proof. eapply reachable_step; [apply reachable_sample_open|apply step_subscribe]. Qed.
End witnesses.

Lemma reverse_index_exact_witness :
  subscribers_of (sample_sub open_node).(core).(registry) "rooms.lobby" = [0%N] ∧
  ∃ ptr, get (sample_sub open_node).(core).(registry) 0 = Some ptr ∧
    has_subscription (deref (sample_sub open_node).(core) ptr) "rooms.lobby" = true.
Proof.
  split; [vm_compute; reflexivity|].
  apply (reverse_index_exact open_node (sample_sub open_node) (reachable_sample_sub _) "rooms.lobby").
  vm_compute. constructor.
Defined.

Lemma no_orphan_forwarder_witness :
  ∃ tk, (sample_sub open_node).(core).(tasks) !! 0%N = Some tk ∧
    ∃ ptr s, (sample_sub open_node).(core).(heap) !! ptr = Some s ∧
      s.(subscriptions) !! tk.(t_channel) = Some 0%N.
Proof.
  eexists. split; [vm_compute; reflexivity|].
  destruct (proj1 (no_orphan_forwarder open_node _ (reachable_sample_sub _)) 0%N _ eq_refl)
    as (ptr & s & H1 & H2 & _).
  exists ptr, s. split; [exact H1|exact H2].
Defined.

Lemma session_accounting_witness :
  let m := (sample_sub open_node).(core).(metrics) in
  (m.(sessions_opened_total)
   = m.(sessions_closed_total) + m.(sessions_kicked_total) + m.(sessions_active))%N ∧
  m.(sessions_opened_total) = 1%N.
Proof.
  split; [|vm_compute; reflexivity].
  exact (proj1 (session_accounting open_node _ (reachable_sample_sub _))).
Defined.

Lemma not_connected_gate_witness :
  handle_subscribe jwt_node 0 1 "rooms.lobby" 0 (sample_open jwt_node)
  = (Err (NotConnected 0), sample_open jwt_node).
Proof.
  refine (proj1 (not_connected_gate jwt_node (sample_open jwt_node) 0 1 0 "rooms.lobby" 0 []
    (reachable_sample_open _) _ _ _)); vm_compute; reflexivity.
Defined.

Lemma acl_denial_short_circuits_witness :
  ∃ w, handle_publish read_only_node 0 "rooms.lobby" [] (sample_sub read_only_node)
  = (Err (EAcl (Denied "anonymous" "publish" "rooms.lobby" "policy denied")), w).
Proof.
  assert (Hck : ∀ w, check read_only_node.(acl) anonymous ActPublish "rooms.lobby" w = (Ok Deny, w))
    by (intros w; simpl; unfold namespace_check, io_ret; f_equal; vm_compute; reflexivity).
  destruct (proj2 (acl_denial_short_circuits read_only_node (sample_sub read_only_node) 0 1 0
    "rooms.lobby" 0 [] anonymous (Ok Deny) (sample_sub read_only_node).(world)
    ltac:(vm_compute; reflexivity) ltac:(vm_compute; reflexivity)) (Hck _)
    ltac:(discriminate)) as (e & H & He & _).
  rewrite (He eq_refl) in H. eexists. exact H.
Defined.

Lemma publish_stages_witness :
  ∃ w, handle_publish open_node 0 "rooms.lobby" [x01] (sample_sub open_node)
  = (Ok (mk_Publication "rooms.lobby" 0 [x01]), w) ∧
    w.(core).(metrics).(publications_total) = 1%N.
Proof.
  assert (Hck : ∀ w, check open_node.(acl) anonymous ActPublish "rooms.lobby" w = (Ok Allow, w))
    by reflexivity.
  destruct (publish_stages open_node (sample_sub open_node) 0 0 "rooms.lobby" [x01] anonymous
    (sample_sub open_node).(world) ltac:(vm_compute; reflexivity) ltac:(vm_compute; reflexivity)
    (Hck _)) as (r & w & Hout & Hrun).
  assert (Hr : r = Ok (mk_Publication "rooms.lobby" 0 [x01])).
  { assert (H : (handle_publish open_node 0 "rooms.lobby" [x01] (sample_sub open_node)).1
      = Ok (mk_Publication "rooms.lobby" 0 [x01])) by (vm_compute; reflexivity).
    rewrite Hrun in H. exact H. }
  rewrite Hr in Hrun. eexists. split; [exact Hrun|vm_compute; reflexivity].
Defined.

Lemma subscribe_replays_then_forwards_witness :
  ∃ ok st', handle_subscribe open_node 0 3 "rooms.lobby" 1 (sample_pub open_node) = (Ok ok, st') ∧
    (∃ ps cursor w1 w2, on_subscribe (kind_for open_node "rooms.lobby") "rooms.lobby" w1 = (Ok cursor, w2) ∧
       ok = mk_SubscribeOk 3 "rooms.lobby" cursor.(epoch) cursor.(offset) ∧
       queued st' 0%N = queued (sample_pub open_node) 0%N ++ (SF_Publication <$> ps) ∧
       Forall (λ p, p.(publ_channel) = "rooms.lobby" ∧ (1 < p.(publ_offset))%N) ps) ∧
    queued st' 0%N = [SF_Publication (mk_Publication "rooms.lobby" 2 (bytes_of_string "three"))] ∧
    ok = mk_SubscribeOk 3 "rooms.lobby" 1 2.
Proof.
  assert (H : queued (handle_subscribe open_node 0 3 "rooms.lobby" 1 (sample_pub open_node)).2 0%N
    = [SF_Publication (mk_Publication "rooms.lobby" 2 (bytes_of_string "three"))])
    by (vm_compute; reflexivity).
  assert (Hok : (handle_subscribe open_node 0 3 "rooms.lobby" 1 (sample_pub open_node)).1
    = Ok (mk_SubscribeOk 3 "rooms.lobby" 1 2)) by (vm_compute; reflexivity).
  revert H Hok. destruct (handle_subscribe open_node 0 3 "rooms.lobby" 1 (sample_pub open_node))
    as [[ok|e] st'] eqn:E; intros H Hok; [|discriminate Hok].
  injection Hok as Hok. exists ok, st'. split; [reflexivity|]. split; [|split; [exact H|exact Hok]].
  destruct (subscribe_replays_then_forwards open_node _ 0 3 "rooms.lobby" 1 ok st' E)
    as (ptr & cl & ps & cursor & stream & t & w1 & w2 & w3 & Hg & _ & Hon & _ & _ & Hc & Hps & Hq & _).
  vm_compute in Hg. injection Hg as <-. exists ps, cursor, w1, w2.
  split; [exact Hon|]. split; [exact Hc|]. split; [exact Hq|exact Hps].
Defined.

Lemma connect_once_witness :
  ∃ ok st', handle_connect jwt_node 0 1 "alice:k" (sample_open jwt_node) = (Ok ok, st') ∧
    handle_connect jwt_node 0 2 "alice:k" st' = (Err (AlreadyConnected 0), st').
Proof.
  assert (Hok : is_ok (handle_connect jwt_node 0 1 "alice:k" (sample_open jwt_node)).1 = true)
    by (vm_compute; reflexivity).
  revert Hok. destruct (handle_connect jwt_node 0 1 "alice:k" (sample_open jwt_node))
    as [[ok|e] st'] eqn:E; intros Hok.
  - exists ok, st'. split; [reflexivity|].
    destruct (connect_once jwt_node _ 0 1 "alice:k" ok st' ltac:(vm_compute; reflexivity) E)
      as (ptr & cl & w & _ & _ & _ & _ & _ & H).
    apply H.
  - discriminate Hok.
Defined.

Lemma unknown_session_is_gone_witness :
  handle_publish open_node 7 "rooms.lobby" [] (sample_sub open_node)
  = (Err (SessionGone 7), sample_sub open_node).
Proof.
  apply (unknown_session_is_gone open_node (sample_sub open_node) 7 1 "rooms.lobby" 0 [] "").
  vm_compute. reflexivity.
Defined.

Lemma kick_then_release_witness :
  (release open_node 0 (kick_session open_node 0 (sample_sub open_node)).2).(core).(tasks) !! 0%N
  = None.
Proof.
  pose proof (kick_then_release open_node (sample_sub open_node) 0 0 (reachable_sample_sub _)
    ltac:(vm_compute; reflexivity) ltac:(apply (bool_decide_unpack _); vm_compute; exact I)) as H.
  destruct (kick_session open_node 0 (sample_sub open_node)) as [b st1].
  destruct H as (_ & _ & _ & _ & _ & _ & H). apply (H "rooms.lobby"). vm_compute. reflexivity.
Defined.
