(* ===== verification/Access.v ===== *)
(** * Access control over the life of a session

    A session's claims are set by [handle_connect] alone and a subscription by
    [handle_subscribe] alone (crates/cherenkov-core/src/hub.rs), each after the
    check that guards it.  Here both are traced back from any reachable state of a
    hub that requires a connect to the request that passed the check. *)
From S2P Require Import Prelude Protocol Traits Session Hub HubInv HubReach HubSteps.
From S2P Require Import MemoryBroker Node HubProps.

Section access.
Context {W Str : Type} `{NO : Notifier} `{M : Mpsc}.
Implicit Types (c : @HubCore Str _) (st : @HubSt W Str _ M) (hub : @Hub W Str).

(** ** What a step may do to the sessions *)

(** Every session of [h] is one of [h0], with the same id, the same claims and
    no subscription of its own. *)
Definition ages (h0 h : gmap N Session) : Prop :=
  ∀ ptr s, h !! ptr = Some s → ∃ s0, h0 !! ptr = Some s0 ∧ s.(id) = s0.(id) ∧
    s.(claims) = s0.(claims) ∧
    ∀ ch, is_Some (s.(subscriptions) !! ch) → is_Some (s0.(subscriptions) !! ch).

#[local] Instance ages_refl : Reflexive ages.
Proof. intros h ptr s H. eauto 6. Qed.

#[local] Instance ages_trans : Transitive ages.
Proof.
  intros h1 h2 h3 H12 H23 ptr s Hs. destruct (H23 _ _ Hs) as (s2 & H2 & -> & -> & ?).
  destruct (H12 _ _ H2) as (s1 & ? & -> & -> & ?). exists s1. eauto 6.
Qed.

Lemma ages_subseteq h0 h : h ⊆ h0 → ages h0 h.
Proof. intros H ptr s Hs. exists s. split; [by eapply lookup_weaken|eauto]. Qed.

Lemma ages_insert h ptr s s' :
  h !! ptr = Some s → s'.(id) = s.(id) → s'.(claims) = s.(claims) →
  (∀ ch, is_Some (s'.(subscriptions) !! ch) → is_Some (s.(subscriptions) !! ch)) →
  ages h (<[ptr := s']> h).
Proof.
  intros Hs Hi Hc Hsub p s1. rewrite lookup_insert_Some. intros [[<- <-]|[_ H]]; [|eauto 6].
  exists s. eauto.
Qed.

(** A handler that holds an allocated session lets the sessions age. *)
Definition aged (h0 : gmap N Session) (ptr : N) c : Prop :=
  is_Some (c.(heap) !! ptr) ∧ ages h0 c.(heap).

Lemma keeps_aged_modify {A} h0 ptr (f : Session → A * Session) :
  (∀ s, (f s).2.(id) = s.(id) ∧ (f s).2.(claims) = s.(claims) ∧
     ∀ ch, is_Some ((f s).2.(subscriptions) !! ch) → is_Some (s.(subscriptions) !! ch)) →
  keeps (aged h0 ptr) (modify_session (M:=M) (W:=W) ptr f).
Proof.
  intros Hf st [[s Hs] Ha]. unfold modify_session.
  assert (deref st.(core) ptr = s) as -> by (unfold deref; by rewrite Hs).
  specialize (Hf s). destruct (f s) as [a s']. simpl in *. destruct Hf as (? & ? & ?).
  unfold aged, store. simpl.
  split; [rewrite lookup_insert_eq; eauto|]. etrans; [exact Ha|]. by eapply ages_insert.
Qed.

Lemma keeps_aged_registry h0 ptr (f : SessionRegistry → SessionRegistry) :
  keeps (aged h0 ptr)
    (io_modify (λ st, set_core (set_registry (f st.(core).(registry)) st.(core)) st)).
Proof. by apply keeps_modify. Qed.

Lemma keeps_aged_end_task h0 ptr hub task :
  keeps (aged h0 ptr) (io_modify (end_task (M:=M) hub task)).
Proof. apply keeps_modify. intros st H. by rewrite end_task_core. Qed.

Lemma keeps_aged_require hub h0 ptr :
  requires_connect hub = true → keeps (aged h0 ptr) (require_claims (M:=M) hub ptr).
Proof.
  intros Hreq%negb_true_iff. unfold require_claims. rewrite Hreq. keeps_auto.
Qed.

Lemma aged_start st sid ptr :
  core_inv st.(core) → get st.(core).(registry) sid = Some ptr →
  aged st.(core).(heap) ptr st.(core).
Proof. intros Hinv Hg. destruct (core_inv_deref _ _ _ Hinv Hg) as [Hp _]. by split; [exists (deref st.(core) ptr)|]. Qed.

(** A handler that looks its session up and keeps what ages. *)
Lemma ages_with_session {A} st sid (k : N → io (@HubSt W Str _ M) HubError A) :
  core_inv st.(core) → (∀ h0 ptr, keeps (aged h0 ptr) (k ptr)) →
  ages st.(core).(heap) ((let! ptr := get_session sid in k ptr) st).2.(core).(heap).
Proof.
  intros Hinv Hk. unfold io_bind. destruct (get st.(core).(registry) sid) as [ptr|] eqn:Hg.
  - rewrite (get_session_eq _ _ _ Hg).
    by destruct (keeps_run _ _ _ (Hk _ ptr) (aged_start _ _ _ Hinv Hg)).
  - by rewrite (get_session_None _ _ Hg).
Qed.

Lemma ages_publish hub st sid ch data :
  requires_connect hub = true → core_inv st.(core) →
  ages st.(core).(heap) (handle_publish hub sid ch data st).2.(core).(heap).
Proof.
  intros Hreq Hinv. apply (ages_with_session _ _ _ Hinv). intros h0 ptr.
  pose proof (keeps_aged_require hub h0 ptr Hreq). keeps_auto. by apply keeps_modify.
Qed.

Lemma ages_unsubscribe hub st sid rid ch :
  core_inv st.(core) → ages st.(core).(heap) (handle_unsubscribe hub sid rid ch st).2.(core).(heap).
Proof.
  intros Hinv. apply (ages_with_session _ _ _ Hinv). intros h0 ptr. apply keeps_bind.
  - apply keeps_aged_modify. intros s. unfold remove_subscription.
    destruct (_ !! ch); simpl; [|eauto]. split; [done|]. split; [done|]. intros ch' [t Ht].
    apply lookup_delete_Some in Ht as [_ ?]. eauto.
  - intros [t|]; [|apply keeps_fail].
    apply keeps_bind; [apply keeps_aged_end_task|]. intros _.
    apply keeps_bind; [apply keeps_aged_registry|]. intros _. keeps_auto.
Qed.

Lemma ages_drop_arc hub ptr st : ages st.(core).(heap) (drop_arc hub ptr st).(core).(heap).
Proof.
  unfold drop_arc. destruct (referenced _ _); [done|]. simpl.
  rewrite abort_tasks_core. apply ages_subseteq, delete_subseteq.
Qed.

Lemma ages_close hub sid st : ages st.(core).(heap) (close_session hub sid st).(core).(heap).
Proof.
  unfold close_session. destruct (deregister _ _) as [[ptr|] reg]; [|done].
  by etrans; [|apply ages_drop_arc].
Qed.

Lemma ages_kick hub sid st :
  core_inv st.(core) → ages st.(core).(heap) (kick_session hub sid st).2.(core).(heap).
Proof.
  intros Hinv. unfold kick_session. destruct (get _ sid) as [ptr|] eqn:Hg; [|done].
  destruct (core_inv_deref _ _ _ Hinv Hg) as [Hp _].
  assert (Ha : ages st.(core).(heap)
    (store ptr (signal_shutdown (deref st.(core) ptr)) st.(core)).(heap))
    by by eapply ages_insert.
  destruct (deregister _ _) as [[p|] reg]; simpl; [|done].
  match goal with |- context [drop_arc hub p ?st1] =>
    transitivity st1.(core).(heap); [exact Ha|apply ages_drop_arc] end.
Qed.

Lemma ages_forward hub task st : ages st.(core).(heap) (forward hub task st).(core).(heap).
Proof.
  unfold forward. destruct (tasks (core st) !! task) as [t|]; [|done].
  destruct (stream_next _ _ _) as [[|[p|]] w]; [done| |by rewrite end_task_core].
  pose proof (outbox_send_core t.(t_outbox) (SF_Publication p)
                (mk_HubSt st.(core) st.(outboxes) w)) as Hc.
  destruct (outbox_send _ _ _) as [[|] st']; simpl in Hc; rewrite ?end_task_core; by rewrite Hc.
Qed.

(** A subscribe that fails leaves the sessions as they were. *)
Lemma triple_true {A} h0 ptr (m : io (@HubSt W Str _ M) HubError A) :
  keeps (aged h0 ptr) m →
  triple (λ st, aged h0 ptr st.(core)) m (λ _ _, True) (λ _ st, aged h0 ptr st.(core)).
Proof. intros H st Hst. specialize (H st Hst). by destruct (m st) as [[?|?] ?]. Qed.

Lemma keeps_aged_spawn h0 ptr t :
  keeps (aged h0 ptr) (λ st : @HubSt W Str _ M, let '(i, st) := spawn t st in (Ok i, st)).
Proof. by intros st Hst. Qed.

Lemma insert_subscription_aged h0 ptr ch f :
  triple (λ st : @HubSt W Str _ M, aged h0 ptr st.(core))
    (modify_session ptr (insert_subscription ch f))
    (λ r st, match r with Ok _ => True | Err _ => aged h0 ptr st.(core) end)
    (λ _ st, aged h0 ptr st.(core)).
Proof.
  intros st Hst. pose proof Hst as [[s Hs] Ha]. unfold modify_session, insert_subscription.
  destruct (subscriptions _ !! ch); [|done]. unfold aged, store, deref. simpl.
  rewrite Hs. simpl. by rewrite (insert_id _ _ _ Hs).
Qed.

Lemma failed_subscribe_ages hub st sid rid ch since e st' :
  requires_connect hub = true → core_inv st.(core) →
  handle_subscribe hub sid rid ch since st = (Err e, st') →
  ages st.(core).(heap) st'.(core).(heap).
Proof.
  intros Hreq Hinv H. unfold handle_subscribe in H.
  destruct (get st.(core).(registry) sid) as [ptr|] eqn:Hg.
  2:{ rewrite (io_bind_Err_eq _ _ _ _ _ (get_session_None _ _ Hg)) in H. by simplify_eq. }
  rewrite (io_bind_Ok_eq _ _ _ _ _ (get_session_eq _ _ _ Hg)) in H.
  pose proof (aged_start _ _ _ Hinv Hg) as Hst.
  match type of H with ?m _ = _ =>
    assert (Ht : triple (λ st1, aged st.(core).(heap) ptr st1.(core)) m (λ _ _, True)
                   (λ _ st1, aged st.(core).(heap) ptr st1.(core))) end.
  2:{ specialize (Ht st Hst). rewrite H in Ht. apply Ht. }
  clear H Hst. generalize st.(core).(heap). intros h0.
  pose proof (keeps_aged_require hub h0 ptr Hreq) as Hr.
  eapply triple_bind; [exact Hr|]. intros cl.
  eapply triple_bind; [apply keeps_enforce_acl|]. intros [].
  eapply triple_bind; [apply keeps_read|]. intros [|]; [apply triple_true, keeps_fail|].
  eapply triple_bind; [apply keeps_on_world|]. intros cursor.
  eapply triple_bind; [apply keeps_try, keeps_on_world|].
  intros [stream|err]; [|apply triple_true; keeps_auto].
  eapply triple_bind; [apply keeps_read|]. intros o.
  eapply triple_bind; [apply keeps_try, keeps_replay|].
  intros [[]|err]; [|apply triple_true; keeps_auto].
  eapply triple_bind; [apply keeps_aged_spawn|]. intros t.
  eapply triple_bind; [apply insert_subscription_aged|].
  intros [_|stray]; [by intros ? _|]. apply triple_true.
  apply keeps_bind; [apply keeps_aged_end_task|]. intros _. keeps_auto.
Qed.

(** What a step of a hub that requires a connect does to the sessions: they age,
    one is opened, one presents a token, one is granted a subscription. *)
Inductive session_change hub st st' : Prop :=
| sc_ages : ages st.(core).(heap) st'.(core).(heap) → session_change hub st st'
| sc_open ptr s : s.(claims) = None → s.(subscriptions) = ∅ →
    st'.(core).(heap) = <[ptr := s]> st.(core).(heap) → session_change hub st st'
| sc_connect sid rid token ptr s cl w ok :
    get st.(core).(registry) sid = Some ptr → st.(core).(heap) !! ptr = Some s → s.(id) = sid →
    s.(claims) = None → authenticate hub.(authenticator) token st.(world) = (Ok cl, w) →
    handle_connect hub sid rid token st = (Ok ok, st') →
    st'.(core).(heap) = <[ptr := (set_claims cl s).2]> st.(core).(heap) →
    session_change hub st st'
| sc_subscribe sid rid ch since ptr s cl w t ok :
    get st.(core).(registry) sid = Some ptr → st.(core).(heap) !! ptr = Some s → s.(id) = sid →
    s.(claims) = Some cl → check hub.(acl) cl ActSubscribe ch st.(world) = (Ok Allow, w) →
    handle_subscribe hub sid rid ch since st = (Ok ok, st') →
    st'.(core).(heap)
    = <[ptr := set_subscriptions s (<[ch := t]> s.(subscriptions))]> st.(core).(heap) →
    session_change hub st st'.

(** A connect that fails changes nothing but what the authenticator did. *)
Lemma connect_change hub st sid rid token :
  requires_connect hub = true → core_inv st.(core) →
  session_change hub st (handle_connect hub sid rid token st).2.
Proof.
  intros Hreq Hinv. destruct (handle_connect hub sid rid token st) as [[ok|e] st'] eqn:H; simpl.
  - pose proof H as Hrun. unfold handle_connect in H.
    io_step H. apply get_session_Ok in Hio as [Hg ->]. rename a into ptr.
    io_step H. apply read_session_Ok in Hio as [-> ->]. unfold requires_connect in Hreq.
    case_bool_decide as Hc; rewrite ?Hreq in H; simpl in H; [done|].
    io_step H. apply on_world_Ok in Hio as (w1 & Hw & ->). rename a into cl.
    injection H as <- <-. destruct (core_inv_deref _ _ _ Hinv Hg) as [Hp Hid].
    eapply sc_connect; [exact Hg|exact Hp|exact Hid| |exact Hw|exact Hrun|done].
    by apply eq_None_not_Some.
  - apply sc_ages. unfold handle_connect in H. io_step H.
    + unfold get_session in H. by simplify_eq.
    + apply get_session_Ok in Hio as [Hg ->].
      io_step H; [done|]. apply read_session_Ok in Hio as [-> ->].
      match type of H with (if ?b then _ else _) _ = _ => destruct b end; [by injection H as _ <-|].
      io_step H; [|by io_step H]. by apply on_world_Err in H as (? & ? & _ & _ & ->).
Qed.

Lemma subscribe_change hub st sid rid ch since :
  requires_connect hub = true → core_inv st.(core) →
  session_change hub st (handle_subscribe hub sid rid ch since st).2.
Proof.
  intros Hreq Hinv.
  destruct (handle_subscribe hub sid rid ch since st) as [[ok|e] st'] eqn:H; simpl.
  2:{ apply sc_ages. by eapply failed_subscribe_ages. }
  pose proof H as Hrun. apply handle_subscribe_Ok in H
    as (ptr & cl & w1 & cursor & w2 & stream & w3 & st4 & Hg & Hcl & Hacl & Hsub & _ & _ & _ &
        Hcore & Hcommit).
  destruct (core_inv_deref _ _ _ Hinv Hg) as [Hp Hid].
  assert (Hs : (deref st.(core) ptr).(claims) = Some cl).
  { unfold effective_claims in Hcl. apply negb_true_iff in Hreq. rewrite Hreq in Hcl.
    by destruct (claims _). }
  assert (Hw : with_claims hub ptr st = st) by (unfold with_claims; by rewrite Hs).
  rewrite Hw in Hsub, Hcore, Hcommit. unfold has_subscription in Hsub.
  apply bool_decide_eq_false in Hsub. apply eq_None_not_Some in Hsub.
  rewrite commit_subscription_run in Hcommit by by rewrite Hcore. injection Hcommit as _ <-.
  eapply sc_subscribe; [exact Hg|exact Hp|exact Hid|exact Hs|exact Hacl|exact Hrun|].
  simpl. by rewrite Hcore.
Qed.

Lemma open_change hub o st :
  requires_connect hub = true → session_change hub st (open_session hub o st).2.
Proof.
  intros Hreq. unfold open_session. apply negb_true_iff in Hreq. rewrite Hreq.
  eapply sc_open; [| |done]; done.
Qed.

Lemma step_change hub st st' :
  requires_connect hub = true → core_inv st.(core) → hub_step hub st st' →
  session_change hub st st'.
Proof.
  intros Hreq Hinv []; [by apply open_change|by apply connect_change|by apply subscribe_change|..];
    apply sc_ages.
  - by apply ages_unsubscribe.
  - by apply ages_publish.
  - apply ages_close.
  - by apply ages_kick.
  - etrans; [|apply ages_drop_arc]. done.
  - apply ages_forward.
  - done.
Qed.

(** ** Looking back *)

(** At [st1], before [st], a connect of session [sid] with [token] succeeded. *)
Definition presented hub (w0 : W) st1 st (sid : N) (token : string) : Prop :=
  ∃ rid ok st2, rtc (hub_step hub) (hub_init w0) st1 ∧
    handle_connect hub sid rid token st1 = (Ok ok, st2) ∧ rtc (hub_step hub) st2 st.

(** Before [st], session [sid] presented [token] and the authenticator answered
    with [cl]. *)
Definition connected_with hub (w0 : W) st (sid : N) (token : string) (cl : SessionClaims) : Prop :=
  ∃ st1 w, presented hub w0 st1 st sid token ∧
    authenticate hub.(authenticator) token st1.(world) = (Ok cl, w).

(** Before [st], session [sid] asked for [ch] and the ACL allowed it for [cl]. *)
Definition subscribed_with hub (w0 : W) st (sid : N) (ch : string) (cl : SessionClaims) : Prop :=
  ∃ st1 rid since ok st2 w, rtc (hub_step hub) (hub_init w0) st1 ∧
    check hub.(acl) cl ActSubscribe ch st1.(world) = (Ok Allow, w) ∧
    handle_subscribe hub sid rid ch since st1 = (Ok ok, st2) ∧ rtc (hub_step hub) st2 st.

Lemma connected_later hub w0 st st' sid token cl :
  hub_step hub st st' → connected_with hub w0 st sid token cl →
  connected_with hub w0 st' sid token cl.
Proof.
  intros Hs (st1 & w & (rid & ok & st2 & H1 & H2 & H3) & Hau).
  exists st1, w. split; [|done]. exists rid, ok, st2. do 2 (split; [done|]). by eapply rtc_r.
Qed.

Lemma subscribed_later hub w0 st st' sid ch cl :
  hub_step hub st st' → subscribed_with hub w0 st sid ch cl →
  subscribed_with hub w0 st' sid ch cl.
Proof.
  intros Hs (st1 & rid & since & ok & st2 & w & H1 & H2 & H3 & H4).
  exists st1, rid, since, ok, st2, w. do 3 (split; [done|]). by eapply rtc_r.
Qed.

(** Everything a session has was granted to it. *)
Definition granted hub (w0 : W) st (s : Session) : Prop :=
  (∀ cl, s.(claims) = Some cl → ∃ token, connected_with hub w0 st s.(id) token cl) ∧
  (∀ ch, is_Some (s.(subscriptions) !! ch) →
     ∃ cl, s.(claims) = Some cl ∧ subscribed_with hub w0 st s.(id) ch cl).

Lemma granted_later hub w0 st st' s :
  hub_step hub st st' → granted hub w0 st s → granted hub w0 st' s.
Proof.
  intros Hs [Hc Hsub]. split.
  - intros cl Hcl. destruct (Hc cl Hcl) as [token H]. exists token. by eapply connected_later.
  - intros ch Hch. destruct (Hsub ch Hch) as (cl & Hcl & H). exists cl. split; [done|].
    by eapply subscribed_later.
Qed.

Lemma granted_ages hub w0 st s0 s :
  s.(id) = s0.(id) → s.(claims) = s0.(claims) →
  (∀ ch, is_Some (s.(subscriptions) !! ch) → is_Some (s0.(subscriptions) !! ch)) →
  granted hub w0 st s0 → granted hub w0 st s.
Proof. intros Hi Hc Hs [H1 H2]. unfold granted. rewrite Hi, Hc. eauto. Qed.

Lemma granted_change hub w0 st st' :
  rtc (hub_step hub) (hub_init w0) st → hub_step hub st st' → session_change hub st st' →
  (∀ ptr s, st.(core).(heap) !! ptr = Some s → granted hub w0 st s) →
  ∀ ptr s, st'.(core).(heap) !! ptr = Some s → granted hub w0 st' s.
Proof.
  intros Hrtc Hstep Hch IH ptr s Hs.
  assert (IH' : ∀ p s, st.(core).(heap) !! p = Some s → granted hub w0 st' s)
    by (intros; eapply granted_later; eauto).
  destruct Hch as [Ha|p s0 Hc0 Hs0 Hh|sid rid token p s0 cl w ok Hg Hp Hid Hc Hau Hrun Hh
                  |sid rid ch since p s0 cl w t ok Hg Hp Hid Hc Hck Hrun Hh].
  - destruct (Ha _ _ Hs) as (s0 & Hs0 & ? & ? & ?). eapply granted_ages; eauto.
  - rewrite Hh, lookup_insert_Some in Hs. destruct Hs as [[_ <-]|[_ Hs]]; [|eauto].
    unfold granted. rewrite Hc0, Hs0. split; [done|]. intros ch. rewrite lookup_empty. by intros [].
  - rewrite Hh, lookup_insert_Some in Hs. destruct Hs as [[_ <-]|[_ Hs]]; [|eauto].
    destruct (IH' _ _ Hp) as [_ Hsub]. split; simpl.
    + intros cl' [= <-]. exists token, st, w. rewrite Hid. split; [|done]. by exists rid, ok, st'.
    + intros ch Hch. destruct (Hsub ch Hch) as (cl' & ? & _). congruence.
  - rewrite Hh, lookup_insert_Some in Hs. destruct Hs as [[_ <-]|[_ Hs]]; [|eauto].
    destruct (IH' _ _ Hp) as [Hcl Hsub]. split; simpl; [exact Hcl|].
    intros ch' [t' Ht']. apply lookup_insert_Some in Ht' as [[<- _]|[_ Ht']]; [|eauto].
    exists cl. split; [done|]. exists st, rid, since, ok, st', w. by rewrite Hid.
Qed.

Lemma granted_reachable hub w0 st :
  requires_connect hub = true → rtc (hub_step hub) (hub_init w0) st →
  ∀ ptr s, st.(core).(heap) !! ptr = Some s → granted hub w0 st s.
Proof.
  intros Hreq H. revert st H.
  refine (rtc_ind_r (λ st, ∀ ptr s, st.(core).(heap) !! ptr = Some s → granted hub w0 st s)
            _ _ _).
  - intros ptr s. simpl. by rewrite lookup_empty.
  - intros st st' Hrtc Hstep IH. eapply granted_change; [done..| |exact IH].
    apply step_change; [done| |done].
    apply core_inv_reachable with (hub := hub). by exists w0.
Qed.

Lemma handle_publish_Ok hub sid ch data st p st' :
  requires_connect hub = true → handle_publish hub sid ch data st = (Ok p, st') →
  ∃ ptr cl w1 w2, get st.(core).(registry) sid = Some ptr ∧
    (deref st.(core) ptr).(claims) = Some cl ∧
    check hub.(acl) cl ActPublish ch st.(world) = (Ok Allow, w1) ∧
    validate hub.(validator) ch data w1 = (Ok (), w2).
Proof.
  intros Hreq%negb_true_iff H. unfold handle_publish in H.
  io_step H. apply get_session_Ok in Hio as [Hg ->]. rename a into ptr.
  io_step H. apply require_claims_Ok in Hio as [Hcl ->]. rename a into cl.
  unfold effective_claims in Hcl. unfold with_claims in H. rewrite Hreq in Hcl.
  destruct (claims _) as [cl'|] eqn:Hc; [|done]. injection Hcl as ->.
  io_step H. destruct a. apply enforce_acl_Ok in Hio as (w1 & Hacl & ->).
  io_step H. destruct a. apply on_world_Ok in Hio as (w2 & Hv & ->). eauto 8.
Qed.

(** Whoever publishes has connected: the claims the ACL was asked about are those
    of a token that this very session presented. *)
Lemma publisher_connected hub w0 st sid ch data p st' :
  requires_connect hub = true → rtc (hub_step hub) (hub_init w0) st →
  handle_publish hub sid ch data st = (Ok p, st') →
  ∃ token cl w1 w2, connected_with hub w0 st sid token cl ∧
    check hub.(acl) cl ActPublish ch st.(world) = (Ok Allow, w1) ∧
    validate hub.(validator) ch data w1 = (Ok (), w2).
Proof.
  intros Hreq Hrtc H.
  destruct (handle_publish_Ok _ _ _ _ _ _ _ Hreq H) as (ptr & cl & w1 & w2 & Hg & Hcl & Hacl & Hv).
  assert (Hinv : core_inv st.(core)) by (apply core_inv_reachable with (hub := hub); by exists w0).
  destruct (core_inv_deref _ _ _ Hinv Hg) as [Hp Hid].
  destruct (granted_reachable _ _ _ Hreq Hrtc _ _ Hp) as [Hc _]. rewrite Hid in Hc.
  destruct (Hc cl Hcl) as [token Ht]. eauto 8.
Qed.

(** Whoever has a subscription has connected, and the ACL allowed the channel for
    the claims of the token that this very session presented. *)
Lemma subscriber_connected hub w0 st sid ptr ch :
  requires_connect hub = true → rtc (hub_step hub) (hub_init w0) st →
  get st.(core).(registry) sid = Some ptr → has_subscription (deref st.(core) ptr) ch = true →
  ∃ token cl, connected_with hub w0 st sid token cl ∧ subscribed_with hub w0 st sid ch cl.
Proof.
  intros Hreq Hrtc Hg Hs%bool_decide_eq_true.
  assert (Hinv : core_inv st.(core)) by (apply core_inv_reachable with (hub := hub); by exists w0).
  destruct (core_inv_deref _ _ _ Hinv Hg) as [Hp Hid].
  destruct (granted_reachable _ _ _ Hreq Hrtc _ _ Hp) as [Hc Hsub]. rewrite Hid in Hc, Hsub.
  destruct (Hsub ch Hs) as (cl & Hcl & ?). destruct (Hc cl Hcl) as [token ?]. eauto.
Qed.

(** On a hub that requires a connect, in every state it can reach: whatever a
    session was given it was entitled to.  A publication is accepted only from a
    session that had presented a token the authenticator accepted, for the
    claims of that token, when the ACL allows those claims to publish there and
    the schema validator accepts the payload; and every subscription a session
    has, on whichever path it got there, was granted to it after it presented
    such a token and the ACL allowed those claims to subscribe to the channel. *)
Theorem access_is_authorised hub w0 st sid
    (Hreq : requires_connect hub = true) (Hst : rtc (hub_step hub) (hub_init w0) st) :
  (∀ ch data p st', handle_publish hub sid ch data st = (Ok p, st') →
     ∃ token cl w1 w2, connected_with hub w0 st sid token cl ∧
       check hub.(acl) cl ActPublish ch st.(world) = (Ok Allow, w1) ∧
       validate hub.(validator) ch data w1 = (Ok (), w2)) ∧
  (∀ ptr ch, get st.(core).(registry) sid = Some ptr →
     has_subscription (deref st.(core) ptr) ch = true →
     ∃ token cl, connected_with hub w0 st sid token cl ∧
       subscribed_with hub w0 st sid ch cl).
Proof.
  split; [intros ch data p st'; by apply publisher_connected|].
  intros ptr ch. by apply subscriber_connected.
Qed.
End access.

(** ** Witness: alice connects, subscribes and publishes *)

Section witnesses.
#[local] Existing Instances QueueBroadcast CountNotifier QueueMpsc.

Definition sample_connected : @HubSt NodeW MemStream CountNotifier QueueMpsc :=
  (handle_connect jwt_node 0 1 "alice:k" (sample_open jwt_node)).2.
Definition sample_granted : @HubSt NodeW MemStream CountNotifier QueueMpsc :=
  (handle_subscribe jwt_node 0 2 "rooms.lobby" 0 sample_connected).2.

Lemma reachable_sample_granted : reachable jwt_node sample_granted.
Proof.
  eapply reachable_step; [|apply step_subscribe].
  eapply reachable_step; [apply reachable_sample_open|apply step_connect].
Qed.
End witnesses.

Lemma access_is_authorised_witness :
  is_ok (handle_publish jwt_node 0 "rooms.lobby" [] sample_granted).1 = true ∧
  ∃ w0 token cl, connected_with jwt_node w0 sample_granted 0 token cl ∧
    subscribed_with jwt_node w0 sample_granted 0 "rooms.lobby" cl.
Proof.
  destruct reachable_sample_granted as [w0 Hst].
  split; [vm_compute; reflexivity|]. exists w0.
  apply (proj2 (access_is_authorised jwt_node w0 sample_granted 0 eq_refl Hst) 0%N);
    vm_compute; reflexivity.
Defined.
