(* ===== verification/Delivery.v ===== *)
(** * From publish to outbox

    The hub, the in-process broker and the forwarders together: what a subscriber's
    outbox gets.  The other components are arbitrary, as long as they leave the
    broker's part of the memory alone. *)
From S2P Require Import Prelude Protocol Traits PubSub PubSubProps MemoryBroker BrokerProps.
From S2P Require Import Session Hub Node HubInv HubReach HubSteps.

Section delivery.
Context {W : Type} `{NO : Notifier} `{M : Mpsc} {ML : MpscLaws M}.
Context {B : Broadcast} {BL : BroadcastLaws B}.
Variable bl : lens W MemoryBroker.
Implicit Types (st : @HubSt W MemStream _ M) (hub : @Hub W MemStream).

Definition untouched {E A} (m : io W E A) : Prop :=
  ∀ w, view bl (m w).2 = view bl w.

(** The hub over the broker at [bl], whose other components leave it alone. *)
Record broker_private hub : Prop := {
  bp_broker : hub.(broker) = memory_broker bl;
  bp_check cl a ch : untouched (check hub.(acl) cl a ch);
  bp_validate ch d : untouched (validate hub.(validator) ch d);
  bp_authenticate t : untouched (authenticate hub.(authenticator) t);
  bp_on_subscribe ch : untouched (on_subscribe (kind_for hub ch) ch);
  bp_on_unsubscribe ch : untouched (on_unsubscribe (kind_for hub ch) ch);
  bp_on_publish ch d : untouched (on_publish (kind_for hub ch) ch d);
  bp_replay ch n : untouched (replay_since (kind_for hub ch) ch n);
}.

Lemma untouched_run {E A} (m : io W E A) w r w' :
  untouched m → m w = (r, w') → view bl w' = view bl w.
Proof. intros H Hm. specialize (H w). by rewrite Hm in H. Qed.

(** ** Events: a session publishes, a forwarder gets a turn *)

Inductive event : Type :=
| EvPublish (sid : N) (channel : string) (data : Bytes)
| EvForward (task : N).

Definition ev_step hub (ev : event) st : @HubSt W MemStream _ M :=
  match ev with
  | EvPublish sid ch data => (handle_publish hub sid ch data st).2
  | EvForward t => forward hub t st
  end.

(** What the event published on the channel, as its publisher was told. *)
Definition ev_published hub (channel : string) (ev : event) st : list Publication :=
  match ev with
  | EvPublish sid ch data =>
      match (handle_publish hub sid ch data st).1 with
      | Ok p => if decide (ch = channel) then [p] else []
      | Err _ => []
      end
  | EvForward _ => []
  end.

Fixpoint ev_run hub (channel : string) (evs : list event) st :
    list Publication * @HubSt W MemStream _ M :=
  match evs with
  | [] => ([], st)
  | ev :: evs =>
      let '(ps, st') := ev_run hub channel evs (ev_step hub ev st) in
      (ev_published hub channel ev st ++ ps, st')
  end.

(** ** What a publish does *)

(** A computation that leaves the tasks, the outboxes and the broker alone. *)
Definition aside st st' : Prop :=
  st'.(core).(tasks) = st.(core).(tasks) ∧ st'.(outboxes) = st.(outboxes) ∧
  view bl st'.(world) = view bl st.(world).

Definition frames {A} (m : io (@HubSt W MemStream _ M) HubError A) : Prop :=
  ∀ st, aside st (m st).2.

Lemma aside_trans st1 st2 st3 : aside st1 st2 → aside st2 st3 → aside st1 st3.
Proof. unfold aside. intros (-> & -> & ->) (-> & -> & ->). done. Qed.

Lemma frames_run {A} (m : io (@HubSt W MemStream _ M) HubError A) st r st' :
  frames m → m st = (r, st') → aside st st'.
Proof. intros H Hm. specialize (H st). by rewrite Hm in H. Qed.

Lemma frames_get sid : frames (get_session sid).
Proof. done. Qed.

Lemma frames_require_claims hub ptr : frames (require_claims hub ptr).
Proof.
  intros st. destruct (effective_claims hub st ptr) as [cl|] eqn:E.
  - rewrite (require_claims_eq _ _ _ _ E). simpl. unfold with_claims.
    by destruct (claims _).
  - by rewrite (require_claims_None _ _ _ E).
Qed.

Lemma frames_on_world {E A} (f : E → HubError) (m : io W E A) : untouched m → frames (on_world f m).
Proof.
  intros H st. specialize (H st.(world)). destruct (m st.(world)) as [r w] eqn:E1.
  by rewrite (on_world_eq _ _ _ _ _ E1).
Qed.

Lemma frames_enforce_acl hub cl a ch : broker_private hub → frames (enforce_acl hub cl a ch).
Proof.
  intros Hp st. pose proof (bp_check _ Hp cl a ch st.(world)) as H.
  destruct (check hub.(acl) cl a ch st.(world)) as [r w] eqn:E1.
  by rewrite (enforce_acl_eq _ _ _ _ _ _ _ E1).
Qed.

(** The stages before the broker. *)
Definition publish_prefix hub (sid : N) (ch : string) (data : Bytes) :
    io (@HubSt W MemStream _ M) HubError Publication :=
  let! session := get_session sid in
  let! claims := require_claims hub session in
  enforce_acl hub claims ActPublish ch ;;
  on_world ESchema (validate hub.(validator) ch data) ;;
  on_world EChannel (on_publish (kind_for hub ch) ch data).

Lemma frames_bind {A C} (m : io (@HubSt W MemStream _ M) HubError A) (k : A → io _ HubError C) :
  frames m → (∀ a, frames (k a)) → frames (io_bind m k).
Proof.
  intros Hm Hk st. unfold io_bind. specialize (Hm st). destruct (m st) as [[a|e] st1]; [|done].
  eapply aside_trans; [done|apply Hk].
Qed.

Lemma frames_prefix hub sid ch data :
  broker_private hub → frames (publish_prefix hub sid ch data).
Proof.
  intros Hp. apply frames_bind; [apply frames_get|]. intros ptr.
  apply frames_bind; [apply frames_require_claims|]. intros cl.
  apply frames_bind; [by apply frames_enforce_acl|]. intros _.
  apply frames_bind; intros; apply frames_on_world; [by apply bp_validate|by apply bp_on_publish].
Qed.

Lemma handle_publish_prefix hub sid ch data :
  handle_publish hub sid ch data ≅
  (let! publication := publish_prefix hub sid ch data in
   on_world EBroker (broker_publish hub.(broker) ch publication) ;;
   io_modify (λ st, set_core (count_publication st.(core)) st) ;;
   io_ret publication).
Proof.
  intros st. unfold handle_publish, publish_prefix, io_bind.
  destruct (get_session sid st) as [[ptr|] st1]; [|done].
  destruct (require_claims hub ptr st1) as [[cl|] st2]; [|done].
  destruct (enforce_acl hub cl ActPublish ch st2) as [[[]|] st3]; [|done].
  by destruct (on_world ESchema (validate hub.(validator) ch data) st3) as [[[]|] st4].
Qed.

(** A publish changes the broker by the publication it returns, or not at all. *)
Lemma handle_publish_effect hub sid ch data st r st' :
  broker_private hub → broker_wf (view bl st.(world)) →
  handle_publish hub sid ch data st = (r, st') →
  st'.(core).(tasks) = st.(core).(tasks) ∧ st'.(outboxes) = st.(outboxes) ∧
  view bl st'.(world) = match r with
                        | Ok p => (mb_publish ch p (view bl st.(world))).2
                        | Err _ => view bl st.(world)
                        end.
Proof.
  intros Hp Hwf. rewrite (handle_publish_prefix hub sid ch data st). unfold io_bind at 1.
  pose proof (frames_prefix hub sid ch data Hp st) as (Ht & Ho & Hv).
  destruct (publish_prefix hub sid ch data st) as [[p|e] st1]; simpl in *; [|by intros [= <- <-]].
  rewrite <- Hv in Hwf.
  destruct (mb_publish_spec ch p _ Hwf) as (b' & cap & Hb & _).
  assert (broker_publish hub.(broker) ch p st1.(world) = (Ok (), update bl b' st1.(world))) as Hbp
    by (rewrite (bp_broker _ Hp); simpl; unfold io_zoom; by rewrite Hb).
  rewrite (io_bind_Ok_eq _ _ _ _ _ (on_world_eq EBroker _ _ _ _ Hbp)).
  intros [= <- <-]. simpl. by rewrite view_update, <- Hv, Hb.
Qed.

(** ** Forwarders and their streams *)

(** Every forwarder reads a live stream of its channel, and no two read the same
    receiver. *)
Record streams_ok st : Prop := {
  so_wf : broker_wf (view bl st.(world));
  so_live t tk : st.(core).(tasks) !! t = Some tk →
    live (view bl st.(world)) tk.(t_stream) ∧ tk.(t_stream).(topic_label) = tk.(t_channel);
  so_distinct t1 t2 tk1 tk2 : st.(core).(tasks) !! t1 = Some tk1 →
    st.(core).(tasks) !! t2 = Some tk2 → t1 ≠ t2 → ¬ same_receiver tk1.(t_stream) tk2.(t_stream);
}.

Lemma streams_ok_aside st st' : aside st st' → streams_ok st → streams_ok st'.
Proof. intros (Ht & _ & Hv) [H1 H2 H3]. split; rewrite ?Ht, ?Hv; done. Qed.

(** Fewer tasks, and a broker that keeps the streams of those that are left. *)
Lemma streams_ok_shrink st st' :
  streams_ok st → broker_wf (view bl st'.(world)) →
  (∀ t tk, st'.(core).(tasks) !! t = Some tk → st.(core).(tasks) !! t = Some tk) →
  (∀ t tk, st'.(core).(tasks) !! t = Some tk → live (view bl st.(world)) tk.(t_stream) →
     live (view bl st'.(world)) tk.(t_stream)) →
  streams_ok st'.
Proof.
  intros [H1 H2 H3] Hwf Hsub Hlive. split; [done| |].
  - intros t tk Htk. destruct (H2 t tk (Hsub _ _ Htk)). eauto.
  - intros t1 t2 tk1 tk2 Ht1 Ht2. apply (H3 t1 t2); auto.
Qed.

(** A broker in which one receiver's slot changed, but not to nothing. *)
Definition slot_only (b b' : MemoryBroker) (s : MemStream) (v : slot) : Prop :=
  broker_wf b' ∧ b'.(topics) = b.(topics) ∧ b'.(capacity) = b.(capacity) ∧
  ∀ s', stream_slot b' s' = if decide (same_receiver s' s) then Some v else stream_slot b s'.

Lemma slot_only_live b b' s v s' : slot_only b b' s v → live b s' → live b' s'.
Proof.
  intros (_ & Ht & _ & Hs) [H1 H2]. split; [by rewrite Ht|]. rewrite Hs. by case_decide.
Qed.

Lemma stream_next_slot hub st s v :
  broker_private hub → broker_wf (view bl st.(world)) →
  stream_slot (view bl st.(world)) s = Some v →
  ∃ b', stream_next hub.(broker) s st.(world) = ((slot_poll v).1, update bl b' st.(world)) ∧
        slot_only (view bl st.(world)) b' s (slot_poll v).2.
Proof.
  intros Hp Hwf Hs. destruct (mb_next_spec _ _ _ Hwf Hs) as (b' & Hb & ? & ? & ? & _ & ?).
  exists b'. rewrite (bp_broker _ Hp). simpl. by rewrite Hb.
Qed.

Lemma streams_ok_end_task hub t st :
  broker_private hub → streams_ok st → streams_ok (end_task hub t st).
Proof.
  intros Hp Hok. unfold end_task. destruct (tasks (core st) !! t) as [tk|] eqn:Htk; [|done].
  destruct (mb_drop_spec _ tk.(t_stream) (so_wf _ Hok)) as (Hwf & Ht & _ & _ & Hs).
  rewrite (bp_broker _ Hp). apply (streams_ok_shrink st); simpl; rewrite ?view_update; try done.
  - intros t' tk'. rewrite lookup_delete_Some. tauto.
  - intros t' tk'. rewrite lookup_delete_Some. intros [Hne Htk'] [H1 H2].
    split; [by rewrite Ht|]. rewrite Hs, decide_False; [done|].
    intros Hsame. by apply (so_distinct _ Hok t' t tk' tk).
Qed.

Lemma streams_ok_send o f st : streams_ok st → streams_ok (outbox_send o f st).2.
Proof.
  unfold outbox_send. destruct (outboxes st !! o) as [c|]; [|done].
  destruct (mpsc_send f c) as [ok c']. simpl. intros [? ? ?]. by split.
Qed.

Lemma streams_ok_forward hub t st :
  broker_private hub → streams_ok st → streams_ok (forward hub t st).
Proof.
  intros Hp Hok. unfold forward. destruct (tasks (core st) !! t) as [tk|] eqn:Htk; [|done].
  destruct (so_live _ Hok _ _ Htk) as [[_ [v Hv]] _].
  destruct (stream_next_slot hub st _ _ Hp (so_wf _ Hok) Hv) as (b' & -> & Hb).
  set (st1 := mk_HubSt st.(core) st.(outboxes) _).
  assert (streams_ok st1) as Hok1.
  { apply (streams_ok_shrink st); subst st1; simpl; rewrite ?view_update; try done.
    - apply Hb.
    - intros t' tk' _. by apply (slot_only_live _ _ _ _ _ Hb). }
  destruct (slot_poll v).1 as [|[p|]]; [done| |by apply streams_ok_end_task].
  pose proof (streams_ok_send tk.(t_outbox) (SF_Publication p) _ Hok1) as Hok2.
  destruct (outbox_send _ _ st1) as [[] st2]; [done|by apply streams_ok_end_task].
Qed.

Lemma streams_ok_publish hub sid ch data st :
  broker_private hub → streams_ok st → streams_ok (handle_publish hub sid ch data st).2.
Proof.
  intros Hp Hok. destruct (handle_publish hub sid ch data st) as [r st'] eqn:Hrun.
  destruct (handle_publish_effect _ _ _ _ _ _ _ Hp (so_wf _ Hok) Hrun) as (Ht & _ & Hv).
  destruct r as [p|e]; simpl.
  - destruct (mb_publish_spec ch p _ (so_wf _ Hok)) as (b' & cap & Hb & Hwf & _ & _ & _ & Hs).
    rewrite Hb in Hv. simpl in Hv. apply (streams_ok_shrink st); rewrite ?Ht, ?Hv; try done.
    intros t tk _ Hl. by apply Hs.
  - destruct Hok. split; rewrite ?Ht, ?Hv; done.
Qed.

(** ** Handlers keep the forwarders' streams in order *)

Definition okm {A} (m : io (@HubSt W MemStream _ M) HubError A) : Prop :=
  triple streams_ok m (λ _, streams_ok) (λ _, streams_ok).

Lemma streams_ok_ext st st' :
  streams_ok st → st'.(core).(tasks) = st.(core).(tasks) →
  view bl st'.(world) = view bl st.(world) → streams_ok st'.
Proof. intros [? ? ?] Ht Hv. split; rewrite ?Ht, ?Hv; done. Qed.

Lemma okm_frames {A} (m : io (@HubSt W MemStream _ M) HubError A) : frames m → okm m.
Proof.
  intros H st Hok. specialize (H st). destruct (m st) as [[a|e] st'];
    by eapply streams_ok_aside.
Qed.

Lemma okm_bind {A C} (m : io (@HubSt W MemStream _ M) HubError A) (k : A → io _ HubError C) :
  okm m → (∀ a, okm (k a)) → okm (io_bind m k).
Proof. apply triple_bind. Qed.

Lemma okm_ret {A} (a : A) : okm (io_ret a).
Proof. by apply triple_ret. Qed.
Lemma okm_fail {A} e : okm (io_fail (A:=A) e).
Proof. by apply triple_fail. Qed.

Lemma okm_try {A} (m : io (@HubSt W MemStream _ M) HubError A) : okm m → okm (io_try m).
Proof. intros H. by apply triple_try. Qed.

Lemma okm_modify (f : @HubSt W MemStream _ M → HubSt) :
  (∀ st, streams_ok st → streams_ok (f st)) → okm (io_modify f).
Proof. intros H st Hok. simpl. auto. Qed.

Lemma okm_core (f : @HubSt W MemStream _ M → @HubCore MemStream _) :
  (∀ st, (f st).(tasks) = st.(core).(tasks)) → okm (io_modify (λ st, set_core (f st) st)).
Proof. intros H. apply okm_modify. intros st Hok. eapply streams_ok_ext; [done|apply H|done]. Qed.

Lemma okm_get sid : okm (get_session sid).
Proof. apply okm_frames, frames_get. Qed.

Lemma okm_read {A} ptr (f : Session → A) : okm (read_session ptr f).
Proof. by intros st Hok. Qed.

Lemma okm_modify_session {A} ptr (f : Session → A * Session) : okm (modify_session ptr f).
Proof.
  intros st Hok. unfold modify_session. destruct (f _) as [a s]. by eapply streams_ok_ext.
Qed.

Lemma okm_on_world {E A} (f : E → HubError) (m : io W E A) : untouched m → okm (on_world f m).
Proof. intros H. by apply okm_frames, frames_on_world. Qed.

Lemma okm_require_claims hub ptr : okm (require_claims hub ptr).
Proof. apply okm_frames, frames_require_claims. Qed.

Create HintDb okm.
#[local] Hint Resolve okm_ret okm_fail okm_try okm_get okm_read okm_modify_session okm_on_world
  okm_require_claims bp_check bp_validate bp_authenticate bp_on_subscribe bp_on_unsubscribe
  bp_on_publish bp_replay : okm.
#[local] Ltac okm_auto := repeat first
  [ apply okm_bind; [|intros ?] | progress eauto with okm | case_match ].

Lemma okm_handle_connect hub sid rid token :
  broker_private hub → okm (handle_connect hub sid rid token).
Proof. intros Hp. unfold handle_connect. okm_auto. Qed.

Lemma okm_handle_unsubscribe hub sid rid ch :
  broker_private hub → okm (handle_unsubscribe hub sid rid ch).
Proof.
  intros Hp. unfold handle_unsubscribe. okm_auto.
  - apply okm_modify. intros st. by apply streams_ok_end_task.
  - by apply okm_core.
Qed.

Lemma streams_ok_abort hub l st :
  broker_private hub → streams_ok st → streams_ok (abort_tasks hub l st).
Proof.
  intros Hp. unfold abort_tasks. revert st. induction l as [|t l IH]; intros st Hok; [done|].
  simpl. by apply IH, streams_ok_end_task.
Qed.

Lemma streams_ok_drop_arc hub ptr st :
  broker_private hub → streams_ok st → streams_ok (drop_arc hub ptr st).
Proof.
  intros Hp Hok. unfold drop_arc. destruct (referenced _ _); [done|].
  destruct (abort_all _) as [handles s].
  eapply streams_ok_ext; [by apply (streams_ok_abort hub handles st)|done|done].
Qed.

(** A stream that was just opened and that no forwarder has yet. *)
Definition fresh_stream (ch : string) (s : MemStream) st : Prop :=
  streams_ok st ∧ live (view bl st.(world)) s ∧ s.(topic_label) = ch ∧
  ∀ t tk, st.(core).(tasks) !! t = Some tk → ¬ same_receiver tk.(t_stream) s.

Lemma fresh_stream_aside ch s st st' :
  st'.(core).(tasks) = st.(core).(tasks) → view bl st'.(world) = view bl st.(world) →
  fresh_stream ch s st → fresh_stream ch s st'.
Proof.
  intros Ht Hv (Hok & Hl & Hlab & Hd). split; [by eapply streams_ok_ext|].
  by rewrite Hv, Ht.
Qed.

Lemma broker_subscribe_fresh hub ch st r st' :
  broker_private hub → streams_ok st →
  on_world EBroker (broker_subscribe hub.(broker) ch) st = (r, st') →
  ∃ s, r = Ok s ∧ fresh_stream ch s st' ∧ st'.(core) = st.(core) ∧
    st'.(outboxes) = st.(outboxes) ∧
    stream_slot (view bl st'.(world)) s = Some (0%N, []) ∧
    (view bl st'.(world)).(capacity) = (view bl st.(world)).(capacity).
Proof.
  intros Hp Hok. destruct (mb_subscribe_spec ch _ (so_wf _ Hok))
    as (s & b' & Hb & Hwf & Hlab & Hl & Hs & Hd & Hmono & _ & Hcap).
  assert (broker_subscribe hub.(broker) ch st.(world) = (Ok s, update bl b' st.(world))) as Hsub
    by (rewrite (bp_broker _ Hp); simpl; unfold io_zoom; by rewrite Hb).
  rewrite (on_world_eq EBroker _ _ _ _ Hsub). intros [= <- <-]. exists s. split; [done|].
  unfold fresh_stream. simpl. rewrite view_update. split_and!; try done.
  - apply (streams_ok_shrink st); simpl; rewrite ?view_update; try done.
    intros t tk _ Hlt. by apply Hmono.
  - intros t tk Htk. apply Hd. by apply (so_live _ Hok t tk).
Qed.

Lemma send_replayed_rest sid o ps st :
  (send_replayed sid o ps st).2.(core) = st.(core) ∧
  (send_replayed sid o ps st).2.(world) = st.(world).
Proof.
  destruct (decide (outbox_open st o)) as [Ho|Ho].
  - by destruct (send_replayed_open sid o ps st Ho) as (st' & -> & ? & ? & _).
  - by destruct (send_replayed_shut sid o ps st Ho) as (st' & -> & ? & ? & _).
Qed.

Lemma replay_rest hub sid o ch since st :
  broker_private hub →
  (replay (kind_for hub ch) sid o ch since st).2.(core) = st.(core) ∧
  view bl (replay (kind_for hub ch) sid o ch since st).2.(world) = view bl st.(world).
Proof.
  intros Hp. unfold replay. case_decide; [|done]. unfold io_bind.
  pose proof (bp_replay _ Hp ch since st.(world)) as Hv.
  destruct (replay_since (kind_for hub ch) ch since st.(world)) as [r w] eqn:Hr.
  rewrite (on_world_eq EChannel _ _ _ _ Hr). destruct r as [ps|e]; simpl; [|done].
  destruct (send_replayed_rest sid o ps (set_world w st)) as [-> ->]. done.
Qed.

Lemma streams_ok_drop_stream hub ch s st :
  broker_private hub → fresh_stream ch s st →
  streams_ok (set_world (stream_drop hub.(broker) s st.(world)) st).
Proof.
  intros Hp (Hok & _ & _ & Hd). destruct (mb_drop_spec _ s (so_wf _ Hok)) as (Hwf & Ht & _ & _ & Hs).
  rewrite (bp_broker _ Hp). apply (streams_ok_shrink st); simpl; rewrite ?view_update; try done.
  intros t tk Htk [H1 H2]. split; [by rewrite Ht|]. rewrite Hs, decide_False; [done|]. by eapply Hd.
Qed.

Lemma streams_ok_spawn ch s o st :
  fresh_stream ch s st → streams_ok (spawn (mk_Task s o ch) st).2.
Proof.
  intros (Hok & Hl & Hlab & Hd). split; simpl; [apply Hok| |].
  - intros t tk. rewrite lookup_insert_Some. intros [[_ <-]|[_ Htk]]; [done|]. by eapply so_live.
  - intros t1 t2 tk1 tk2. rewrite !lookup_insert_Some.
    intros [[<- <-]|[? H1]] [[<- <-]|[? H2]] Hne; try done; simpl.
    + intros Hsame. apply (Hd t2 tk2 H2). destruct Hsame; by split.
    + by eapply Hd.
    + by eapply so_distinct.
Qed.

Lemma okm_handle_subscribe hub sid rid ch since :
  broker_private hub → okm (handle_subscribe hub sid rid ch since).
Proof.
  intros Hp. unfold handle_subscribe.
  apply okm_bind; [auto with okm|]. intros ptr.
  apply okm_bind; [auto with okm|]. intros cl.
  apply okm_bind; [by apply okm_frames, frames_enforce_acl|]. intros _.
  apply okm_bind; [auto with okm|]. intros [|]; [auto with okm|].
  apply okm_bind; [auto with okm|]. intros cursor st Hok. unfold io_bind at 1, io_try at 1.
  destruct (on_world EBroker _ st) as [r st1] eqn:Hb.
  apply (broker_subscribe_fresh _ _ _ _ _ Hp Hok) in Hb as (s & -> & Hf & _).
  unfold io_bind at 1, read_session, io_gets at 1. unfold io_bind at 1, io_try at 1.
  set (o := outbox _).
  destruct (replay_rest hub sid o ch since st1 Hp) as [Hc Hv].
  destruct (replay _ _ _ _ _ st1) as [[[]|e] st2]; simpl in Hc, Hv;
    (assert (fresh_stream ch s st2) as Hf2 by (eapply fresh_stream_aside; [by rewrite Hc|done|done])).
  - unfold io_bind at 1. pose proof (streams_ok_spawn ch s o st2 Hf2) as Hok3.
    destruct (spawn _ st2) as [t st3]. simpl in Hok3. revert st3 Hok3.
    change (okm (let! inserted := modify_session ptr (insert_subscription ch t) in
      match inserted with
      | Err stray => io_modify (end_task hub stray) ;;
          io_try (on_world EChannel (on_unsubscribe (kind_for hub ch) ch)) ;;
          io_fail (AlreadySubscribed sid ch)
      | Ok _ => io_modify (λ st, set_core (set_registry
                  (add_to_index sid ch st.(core).(registry)) st.(core)) st) ;;
          io_ret (mk_SubscribeOk rid ch cursor.(epoch) cursor.(offset))
      end)).
    apply okm_bind; [auto with okm|]. intros [u|stray].
    + apply okm_bind; [by apply okm_core|auto with okm].
    + apply okm_bind; [apply okm_modify; intros; by apply streams_ok_end_task|].
      intros _. apply okm_bind; eauto with okm.
  - unfold io_bind at 1, io_try at 1.
    destruct (on_world EChannel _ st2) as [r3 st3] eqn:Hu.
    pose proof (frames_run _ _ _ _ (frames_on_world EChannel _ (bp_on_unsubscribe _ Hp ch)) Hu)
      as (Ht3 & _ & Hv3). unfold io_bind, drop_stream, io_modify, io_fail. simpl.
    eapply (streams_ok_drop_stream hub ch s st3 Hp), fresh_stream_aside; [done|done|exact Hf2].
Qed.

(** ** Runs of the hub whose environment leaves the broker alone *)

Inductive node_step hub st : @HubSt W MemStream _ M → Prop :=
| ns_open o : node_step hub st (open_session hub o st).2
| ns_connect sid rid token : node_step hub st (handle_connect hub sid rid token st).2
| ns_subscribe sid rid ch since : node_step hub st (handle_subscribe hub sid rid ch since st).2
| ns_unsubscribe sid rid ch : node_step hub st (handle_unsubscribe hub sid rid ch st).2
| ns_publish sid ch data : node_step hub st (handle_publish hub sid ch data st).2
| ns_close sid : node_step hub st (close_session hub sid st)
| ns_kick sid : node_step hub st (kick_session hub sid st).2
| ns_release ptr : node_step hub st (release hub ptr st)
| ns_forward task : node_step hub st (forward hub task st)
| ns_env outs w : view bl w = view bl st.(world) → node_step hub st (mk_HubSt st.(core) outs w).

Lemma okm_run {A} (m : io (@HubSt W MemStream _ M) HubError A) st :
  okm m → streams_ok st → streams_ok (m st).2.
Proof. intros H Hok. specialize (H st Hok). by destruct (m st) as [[a|e] st']. Qed.

Lemma streams_ok_step hub st st' :
  broker_private hub → streams_ok st → node_step hub st st' → streams_ok st'.
Proof.
  intros Hp Hok H. destruct H as [o| | | | |sid|sid|ptr|task|outs w Hw].
  - unfold open_session. destruct (next_id _). by eapply streams_ok_ext.
  - by apply okm_run; [apply okm_handle_connect|].
  - by apply okm_run; [apply okm_handle_subscribe|].
  - by apply okm_run; [apply okm_handle_unsubscribe|].
  - by apply streams_ok_publish.
  - unfold close_session. destruct (deregister _ _) as [[ptr|] reg];
      [apply streams_ok_drop_arc; [done|]|]; by eapply streams_ok_ext.
  - unfold kick_session. destruct (get _ _) as [ptr|]; [|done].
    destruct (deregister _ _) as [[ptr'|] reg];
      [apply streams_ok_drop_arc; [done|]|]; by eapply streams_ok_ext.
  - apply streams_ok_drop_arc; [done|]. by eapply streams_ok_ext.
  - by apply streams_ok_forward.
  - by eapply streams_ok_ext.
Qed.

Lemma streams_ok_init w : broker_wf (view bl w) → streams_ok (hub_init w).
Proof. intros Hwf. split; simpl; [done|..]; intros *; by rewrite lookup_empty. Qed.

Lemma streams_ok_reachable hub w st :
  broker_private hub → broker_wf (view bl w) → rtc (node_step hub) (hub_init w) st → streams_ok st.
Proof.
  intros Hp Hwf H. apply (rtc_ind_r (λ st', streams_ok st') (hub_init w)) in H; [done|..].
  - by apply streams_ok_init.
  - intros y z _ Hstep Hy. by eapply streams_ok_step.
Qed.

(** Whatever sessions do, in every reachable state of a hub with the in-process
    broker each forwarder reads a stream that is live and belongs to its channel,
    and no two forwarders share a receiver: one never takes a publication from
    another. *)
Theorem forwarders_own_live_streams hub (w : W) (st : @HubSt W MemStream _ M)
    (Hp : broker_private hub) (Hwf : broker_wf (view bl w))
    (Hst : rtc (node_step hub) (hub_init w) st) :
  (∀ t tk, st.(core).(tasks) !! t = Some tk →
     live (view bl st.(world)) tk.(t_stream) ∧ tk.(t_stream).(topic_label) = tk.(t_channel)) ∧
  (∀ t1 t2 tk1 tk2, st.(core).(tasks) !! t1 = Some tk1 → st.(core).(tasks) !! t2 = Some tk2 →
     same_receiver tk1.(t_stream) tk2.(t_stream) → t1 = t2).
Proof.
  destruct (streams_ok_reachable hub w st Hp Hwf Hst) as [_ H2 H3]. split; [done|].
  intros t1 t2 tk1 tk2 Ht1 Ht2 Hs. destruct (decide (t1 = t2)) as [|Hne]; [done|].
  by destruct (H3 _ _ _ _ Ht1 Ht2 Hne).
Qed.

(** ** A tracked subscription *)

(** Task [t] forwards [ch] into outbox [o], which only it feeds: [sent] is what the
    outbox holds, [buf] what the stream has still to deliver. *)
Record tracked (cap : N) (ch : string) (t o : N) (stream : MemStream) st
    (sent : list ServerFrame) (buf : list Publication) : Prop := {
  tr_ok : streams_ok st;
  tr_task : st.(core).(tasks) !! t = Some (mk_Task stream o ch);
  tr_cap : (view bl st.(world)).(capacity) = cap;
  tr_slot : stream_slot (view bl st.(world)) stream = Some (0%N, buf);
  tr_open : outbox_open st o;
  tr_sent : queued st o = sent;
  tr_other t' tk : st.(core).(tasks) !! t' = Some tk → t' ≠ t → tk.(t_outbox) ≠ o;
}.

Lemma tracked_publish hub cap ch t o stream st sent buf sid ch' data r st' :
  broker_private hub → tracked cap ch t o stream st sent buf →
  handle_publish hub sid ch' data st = (r, st') →
  let ps := match r with Ok p => if decide (ch' = ch) then [p] else [] | Err _ => [] end in
  (N.of_nat (length buf + length ps) ≤ cap)%N →
  tracked cap ch t o stream st' sent (buf ++ ps).
Proof.
  intros Hp [Hok Htask Hcap Hslot Hopen Hsent Hother] Hrun.
  pose proof (streams_ok_publish hub sid ch' data st Hp Hok) as Hok'. rewrite Hrun in Hok'.
  destruct (handle_publish_effect _ _ _ _ _ _ _ Hp (so_wf _ Hok) Hrun) as (Ht & Ho & Hv).
  destruct (so_live _ Hok _ _ Htask) as [Hlive Hlab]. simpl in Hlive, Hlab.
  assert (outbox_open st' o ∧ queued st' o = sent) as [Hopen' Hsent']
    by (unfold outbox_open, queued; rewrite Ho; done).
  destruct r as [p|e]; simpl.
  2: { rewrite app_nil_r. intros _. split; rewrite ?Ht, ?Hv; done. }
  intros Hlen.
  destruct (mb_publish_spec ch' p _ (so_wf _ Hok)) as (b' & cap' & Hb & _ & Hle & Hc & _ & Hs).
  rewrite Hb in Hv. simpl in Hv. destruct (Hs stream Hlive) as [_ Hslot'].
  split; rewrite ?Ht, ?Hv; try done; [congruence|].
  rewrite Hslot', Hslot, Hlab. destruct (decide (ch' = ch)) as [->|Hne].
  - rewrite decide_True by done. simpl. simpl in Hlen. by rewrite decide_True by lia.
  - by rewrite decide_False, app_nil_r by congruence.
Qed.

(** A turn of the tracked forwarder moves the oldest publication to the outbox. *)
Lemma tracked_forward hub cap ch t o stream st sent buf :
  broker_private hub → tracked cap ch t o stream st sent buf →
  tracked cap ch t o stream (forward hub t st)
    (sent ++ (SF_Publication <$> take 1 buf)) (drop 1 buf).
Proof.
  intros Hp [Hok Htask Hcap Hslot Hopen Hsent Hother].
  pose proof (streams_ok_forward hub t st Hp Hok) as Hok'. revert Hok'. unfold forward.
  rewrite Htask. simpl.
  destruct (stream_next_slot hub st stream _ Hp (so_wf _ Hok) Hslot) as (b' & -> & _ & _ & Hc & Hs).
  set (st1 := mk_HubSt st.(core) st.(outboxes) (update bl b' st.(world))).
  specialize (Hs stream). rewrite decide_True in Hs by done.
  destruct buf as [|p buf]; simpl.
  - intros Hok'. split; subst st1; simpl; rewrite ?view_update, ?app_nil_r; try done. congruence.
  - destruct (outbox_send_open o (SF_Publication p) st1 Hopen)
      as (st2 & -> & Hc2 & Hw2 & Ho2 & Hq2 & _). intros Hok'.
    split; rewrite ?Hc2, ?Hw2; subst st1; simpl; rewrite ?view_update; try done; [congruence|].
    rewrite Hq2. by f_equal.
Qed.

Lemma end_task_other hub t t' st tk stream :
  broker_private hub → streams_ok st → t' ≠ t → st.(core).(tasks) !! t = Some tk →
  tk.(t_stream) = stream →
  (end_task hub t' st).(core).(tasks) !! t = Some tk ∧
  (∀ t2 tk2, (end_task hub t' st).(core).(tasks) !! t2 = Some tk2 →
     st.(core).(tasks) !! t2 = Some tk2) ∧
  (end_task hub t' st).(outboxes) = st.(outboxes) ∧
  stream_slot (view bl (end_task hub t' st).(world)) stream
  = stream_slot (view bl st.(world)) stream ∧
  (view bl (end_task hub t' st).(world)).(capacity) = (view bl st.(world)).(capacity).
Proof.
  intros Hp Hok Hne Htk <-. unfold end_task.
  destruct (tasks (core st) !! t') as [tk'|] eqn:Htk'; [|by split_and!].
  destruct (mb_drop_spec _ tk'.(t_stream) (so_wf _ Hok)) as (_ & _ & Hc & _ & Hs).
  rewrite (bp_broker _ Hp). simpl. rewrite view_update, lookup_delete_ne by done.
  split_and!; try done.
  - intros t2 tk2. rewrite lookup_delete_Some. tauto.
  - rewrite Hs, decide_False; [done|]. by apply (so_distinct _ Hok t t').
Qed.

(** A turn of another forwarder leaves the tracked one alone. *)
Lemma tracked_forward_other hub cap ch t o stream st sent buf t' :
  broker_private hub → tracked cap ch t o stream st sent buf → t' ≠ t →
  tracked cap ch t o stream (forward hub t' st) sent buf.
Proof.
  intros Hp Htr Hne. pose proof (streams_ok_forward hub t' st Hp (tr_ok _ _ _ _ _ _ _ _ Htr)) as Hok'.
  pose proof Htr as [Hok Htask Hcap Hslot Hopen Hsent Hother].
  revert Hok'. unfold forward.
  destruct (tasks (core st) !! t') as [tk|] eqn:Htk; [|done].
  destruct (so_live _ Hok _ _ Htk) as [[_ [v Hv]] _].
  destruct (stream_next_slot hub st _ _ Hp (so_wf _ Hok) Hv) as (b' & -> & Hwf & Ht & Hc & Hs).
  set (st1 := mk_HubSt st.(core) st.(outboxes) (update bl b' st.(world))).
  assert (streams_ok st1) as Hok1.
  { apply (streams_ok_shrink st); subst st1; simpl; rewrite ?view_update; try done.
    intros t2 tk2 _. by apply (slot_only_live _ _ tk.(t_stream) (slot_poll v).2). }
  assert (tracked cap ch t o stream st1 sent buf) as Htr1.
  { split; subst st1; simpl; rewrite ?view_update; try done; [congruence|].
    rewrite Hs, decide_False; [done|].
    apply (so_distinct _ Hok t t' _ _ Htask Htk). done. }
  assert (∀ st2, tracked cap ch t o stream st2 sent buf →
            tracked cap ch t o stream (end_task hub t' st2) sent buf) as Hend.
  { intros st2 Htr2. destruct (end_task_other hub t t' st2 _ stream Hp (tr_ok _ _ _ _ _ _ _ _ Htr2)
      Hne (tr_task _ _ _ _ _ _ _ _ Htr2) eq_refl) as (H1 & H2 & H3 & H4 & H5).
    pose proof (streams_ok_end_task hub t' st2 Hp (tr_ok _ _ _ _ _ _ _ _ Htr2)).
    destruct Htr2. split; rewrite ?H4, ?H5; try done; [| |eauto].
    - unfold outbox_open in *. by rewrite H3.
    - unfold queued in *. by rewrite H3. }
  intros _. destruct (slot_poll v).1 as [|[p|]]; [done| |by apply Hend].
  assert (tracked cap ch t o stream (outbox_send tk.(t_outbox) (SF_Publication p) st1).2 sent buf)
    as Htr2.
  { assert (tk.(t_outbox) ≠ o) as Hno by eauto. destruct Htr1.
    unfold outbox_send. destruct (outboxes st1 !! t_outbox tk) as [c|] eqn:Hc'; [|done].
    destruct (mpsc_send _ c) as [ok c']. unfold outbox_open, queued in *. simpl in *.
    split; try done; unfold outbox_open, queued; simpl; rewrite ?lookup_insert_ne by done; try done.
    by eapply streams_ok_ext. }
  destruct (outbox_send _ _ st1) as [[] st2]; [done|by apply Hend].
Qed.

Lemma tracked_run hub cap ch t o stream evs st sent buf :
  broker_private hub → tracked cap ch t o stream st sent buf →
  (N.of_nat (length buf + length (ev_run hub ch evs st).1) ≤ cap)%N →
  ∃ k, tracked cap ch t o stream (ev_run hub ch evs st).2
         (sent ++ (SF_Publication <$> take k (buf ++ (ev_run hub ch evs st).1)))
         (drop k (buf ++ (ev_run hub ch evs st).1)).
Proof.
  intros Hp. revert st sent buf. induction evs as [|ev evs IH]; intros st sent buf Htr Hcap.
  - exists 0. simpl. by rewrite app_nil_r, app_nil_r.
  - cbn [ev_run] in *. destruct (ev_run hub ch evs (ev_step hub ev st)) as [ps st2] eqn:Hrun.
    specialize (IH (ev_step hub ev st)). rewrite Hrun in IH. simpl in *.
    destruct ev as [sid ch' data|t']; simpl in *.
    + destruct (handle_publish hub sid ch' data st) as [r st1] eqn:Hpub. simpl in *.
      set (p := match r with Ok p => if decide (ch' = ch) then [p] else [] | Err _ => [] end) in *.
      rewrite length_app in Hcap.
      assert (tracked cap ch t o stream st1 sent (buf ++ p)) as Htr1
        by (eapply tracked_publish; [done..|fold p; lia]).
      destruct (IH sent (buf ++ p) Htr1) as [k Hk]; [rewrite length_app; lia|].
      exists k. by rewrite app_assoc.
    + destruct (decide (t' = t)) as [->|Hne].
      * pose proof (tracked_forward _ _ _ _ _ _ _ _ _ Hp Htr) as Htr1.
        destruct (IH _ _ Htr1) as [k Hk]; [rewrite length_drop; lia|].
        destruct buf as [|p buf]; simpl in *.
        { exists k. by rewrite app_nil_r in Hk. }
        exists (S k). simpl. by rewrite <- app_assoc, drop_0 in Hk.
      * by apply IH; [apply tracked_forward_other|].
Qed.

Lemma tracked_drain hub cap ch t o stream n st sent buf :
  broker_private hub → tracked cap ch t o stream st sent buf → length buf ≤ n →
  queued (Nat.iter n (forward hub t) st) o = sent ++ (SF_Publication <$> buf).
Proof.
  intros Hp. revert st sent buf. induction n as [|n IH]; intros st sent buf Htr Hn.
  - destruct buf; simpl in *; [|lia]. rewrite app_nil_r. by apply (tr_sent _ _ _ _ _ _ _ _ Htr).
  - rewrite Nat.iter_succ_r.
    rewrite (IH _ _ _ (tracked_forward _ _ _ _ _ _ _ _ _ Hp Htr)) by (rewrite length_drop; lia).
    rewrite <- app_assoc, <- fmap_app. by rewrite take_drop.
Qed.

(** A subscription that has just been made. *)
Lemma tracked_subscribe hub sid rid ch since ok st st' ptr
    {Hk : ChannelKindLaws (kind_for hub ch)} :
  broker_private hub → streams_ok st →
  handle_subscribe hub sid rid ch since st = (Ok ok, st') →
  get st.(core).(registry) sid = Some ptr →
  let o := (deref st.(core) ptr).(outbox) in
  outbox_open st o →
  (∀ t tk, st.(core).(tasks) !! t = Some tk → tk.(t_outbox) ≠ o) →
  ∃ t stream replayed,
    (if decide (since = 0%N) then replayed = []
     else ∃ w, replay_since (kind_for hub ch) ch since w = (Ok replayed, st'.(world))) ∧
    tracked (view bl st.(world)).(capacity) ch t o stream st'
      (queued st o ++ (SF_Publication <$> replayed)) [].
Proof.
  intros Hp Hok Hrun Hptr o Hopen Hown.
  pose proof (okm_run _ _ (okm_handle_subscribe hub sid rid ch since Hp) Hok) as Hok'.
  rewrite Hrun in Hok'. simpl in Hok'.
  apply (subscribe_effect _ _ _ _ _ _ _ _ (Hk:=Hk)) in Hrun
    as (ptr' & ps & cursor & stream & t & w1 & w2 & w3 & cl & Hptr' & Hch & Hon & _ & Hbr & Hrep &
        _ & Hq & _ & Hop & _ & -> & Ht & _).
  assert (ptr' = ptr) as -> by congruence. fold o in Hq, Hop, Ht.
  assert (view bl w2 = view bl st.(world)) as Hw2.
  { rewrite (untouched_run _ _ _ _ (bp_on_subscribe _ Hp ch) Hon).
    by rewrite (untouched_run _ _ _ _ (bp_check _ Hp cl ActSubscribe ch) Hch). }
  assert (broker_wf (view bl w2)) as Hwf by (rewrite Hw2; apply Hok).
  destruct (mb_subscribe_spec ch _ Hwf) as (s & b' & Hb & _ & _ & _ & Hs & _ & _ & _ & Hcap).
  rewrite (bp_broker _ Hp) in Hbr. simpl in Hbr. unfold io_zoom in Hbr. rewrite Hb in Hbr.
  injection Hbr as -> <-.
  assert (view bl st'.(world) = b') as Hv.
  { case_decide; [destruct Hrep as [_ ->]; apply view_update|].
    rewrite (untouched_run _ _ _ _ (bp_replay _ Hp ch since) Hrep). apply view_update. }
  exists st.(core).(next_task), stream, ps. split.
  { case_decide; [naive_solver|eauto]. }
  split; rewrite ?Hv; try done; [|congruence|by apply Hop|].
  - by rewrite Ht, lookup_insert_eq.
  - intros t' tk. rewrite Ht, lookup_insert_Some. intros [[<- _]|[_ Htk]] Hne; [done|by eapply Hown].
Qed.

(** From publish to outbox.  A session subscribes, on a reachable state of a hub
    with the in-process broker, and its outbox is fed by no other subscription.
    Then sessions publish on any channels and forwarders get turns, in any order.
    As long as no more is published on the channel than the broker's capacity, the
    outbox has at all times what was replayed followed by a prefix of what was
    published on the channel, in order; and as many turns of the forwarder as
    there were publications deliver all of them, each once. *)
Theorem subscriber_gets_every_publication hub (w0 : W) (st st' : @HubSt W MemStream _ M)
    sid rid ch since ok ptr evs {Hk : ChannelKindLaws (kind_for hub ch)}
    (Hp : broker_private hub) (Hwf : broker_wf (view bl w0))
    (Hst : rtc (node_step hub) (hub_init w0) st)
    (Hsub : handle_subscribe hub sid rid ch since st = (Ok ok, st'))
    (Hptr : get st.(core).(registry) sid = Some ptr)
    (Hopen : outbox_open st (deref st.(core) ptr).(outbox))
    (Hown : ∀ t tk, st.(core).(tasks) !! t = Some tk →
              tk.(t_outbox) ≠ (deref st.(core) ptr).(outbox))
    (Hcap : (N.of_nat (length (ev_run hub ch evs st').1) ≤ (view bl st.(world)).(capacity))%N) :
  let o := (deref st.(core) ptr).(outbox) in
  let '(published, st2) := ev_run hub ch evs st' in
  ∃ t replayed k,
    (if decide (since = 0%N) then replayed = []
     else ∃ w, replay_since (kind_for hub ch) ch since w = (Ok replayed, st'.(world))) ∧
    queued st2 o = queued st o ++ (SF_Publication <$> (replayed ++ take k published)) ∧
    ∀ n, length published ≤ n →
      queued (Nat.iter n (forward hub t) st2) o
      = queued st o ++ (SF_Publication <$> (replayed ++ published)).
Proof.
  pose proof (streams_ok_reachable hub w0 st Hp Hwf Hst) as Hok.
  destruct (tracked_subscribe hub sid rid ch since ok st st' ptr Hp Hok Hsub Hptr Hopen Hown)
    as (t & stream & replayed & Hrep & Htr).
  destruct (tracked_run hub _ _ _ _ _ evs _ _ _ Hp Htr) as [k Hk2]; [by simpl|].
  destruct (ev_run hub ch evs st') as [published st2]. simpl in Hk2.
  exists t, replayed, k. split; [done|]. rewrite !fmap_app, !app_assoc. split.
  - rewrite (tr_sent _ _ _ _ _ _ _ _ Hk2). done.
  - intros n Hn. rewrite (tracked_drain hub _ _ _ _ _ n _ _ _ Hp Hk2) by (rewrite length_drop; lia).
    rewrite <- app_assoc, <- fmap_app. by rewrite take_drop.
Qed.
End delivery.

(** ** Witnesses: the default node *)

Lemma node_broker_private `{B : Broadcast} :
  broker_private broker_lens open_node.
Proof.
  split; unfold untouched, kind_for; simpl; try done; intros *; rewrite ?lookup_empty; simpl;
    unfold io_zoom; simpl; try done.
  all: by match goal with |- context [let '(_, _) := ?m in _] => destruct m end.
Qed.

Section witnesses.
#[local] Existing Instances QueueBroadcast CountNotifier QueueMpsc.

Lemma sample_open_run : rtc (node_step broker_lens open_node) (hub_init (node_init 4 1000 8))
  (sample_open open_node).
Proof.
  apply (rtc_l _ _ sample_init).
  - by apply (ns_env broker_lens open_node (hub_init (node_init 4 1000 8))).
  - apply rtc_once. apply (ns_open broker_lens open_node sample_init 0).
Qed.

Lemma sample_sub_run : rtc (node_step broker_lens open_node) (hub_init (node_init 4 1000 8))
  (sample_sub open_node).
Proof. eapply rtc_r; [apply sample_open_run|]. by apply ns_subscribe. Qed.

(** Two publications on the channel and one elsewhere, the forwarder's turn among
    them. *)
Definition sample_events : list event :=
  [EvPublish 0 "rooms.lobby" [x01]; EvForward 0; EvPublish 0 "rooms.hall" [x02];
   EvPublish 0 "rooms.lobby" [x03]].
End witnesses.

Lemma forwarders_own_live_streams_witness :
  t_channel <$> (sample_sub open_node).(core).(tasks) !! 0%N = Some "rooms.lobby" ∧
  (λ tk, tk.(t_stream).(topic_label)) <$> (sample_sub open_node).(core).(tasks) !! 0%N
  = Some "rooms.lobby".
Proof.
  assert (t_channel <$> (sample_sub open_node).(core).(tasks) !! 0%N = Some "rooms.lobby") as Hch
    by (vm_compute; reflexivity).
  split; [exact Hch|].
  pose proof (proj1 (forwarders_own_live_streams broker_lens open_node (node_init 4 1000 8)
    (sample_sub open_node) node_broker_private (broker_wf_new 8) sample_sub_run) 0%N) as H.
  destruct (tasks (core (sample_sub open_node)) !! 0%N) as [tk|]; [|discriminate Hch].
  simpl in *. rewrite (proj2 (H tk eq_refl)). exact Hch.
Defined.

Lemma subscriber_gets_every_publication_witness :
  ∃ t, queued (Nat.iter 2 (forward open_node t)
         (ev_run open_node "rooms.lobby" sample_events (sample_sub open_node)).2) 0
  = SF_Publication <$> [mk_Publication "rooms.lobby" 0 [x01]; mk_Publication "rooms.lobby" 1 [x03]].
Proof.
  pose proof (subscriber_gets_every_publication broker_lens open_node (node_init 4 1000 8)
    (sample_open open_node) (sample_sub open_node) 0 1 "rooms.lobby" 0
    (mk_SubscribeOk 1 "rooms.lobby" 1 0) 0 sample_events node_broker_private (broker_wf_new 8)
    sample_open_run) as H.
  assert ((ev_run open_node "rooms.lobby" sample_events (sample_sub open_node)).1
    = [mk_Publication "rooms.lobby" 0 [x01]; mk_Publication "rooms.lobby" 1 [x03]]) as Hps
    by (vm_compute; reflexivity).
  destruct (ev_run open_node "rooms.lobby" sample_events (sample_sub open_node)) as [ps st2].
  simpl in Hps. subst ps. destruct H as (t & replayed & k & Hrep & _ & Hn).
  - assert ((handle_subscribe open_node 0 1 "rooms.lobby" 0 (sample_open open_node)).1
      = Ok (mk_SubscribeOk 1 "rooms.lobby" 1 0)) as Hok by (vm_compute; reflexivity).
    unfold sample_sub. destruct (handle_subscribe _ _ _ _ _ _) as [r st']. simpl in *. by subst r.
  - vm_compute. reflexivity.
  - eexists. split; vm_compute; reflexivity.
  - intros t tk. by change (tasks (core (sample_open open_node))) with (∅ : gmap N (@Task MemStream)).
  - vm_compute. discriminate.
  - exists t. simpl in Hrep. subst replayed. exact (Hn 2 (le_n 2)).
Defined.
