(* ===== verification/Ws.v ===== *)
(** * The WebSocket transport

    crates/cherenkov-transport-ws/src/lib.rs: the reply to every inbound frame,
    the dispatch of a message, and the life of a socket as steps of the writer
    task and of the [select!] loop, interleaved with everything else the hub does. *)
From S2P Require Import Prelude Protocol Traits Session Hub.

Definition DEFAULT_PATH : string := "/connect/v1".
Definition DEFAULT_OUTBOX_CAPACITY : N := 1024.

(** The builder, less the hub. *)
Record WsTransportBuilder : Type := mk_WsTransportBuilder {
  listen : string;
  path : string;
  outbox_capacity : N;
}.
Definition ws_builder (listen : string) : WsTransportBuilder :=
  mk_WsTransportBuilder listen DEFAULT_PATH DEFAULT_OUTBOX_CAPACITY.
Definition with_path (b : WsTransportBuilder) (p : string) : WsTransportBuilder :=
  mk_WsTransportBuilder b.(listen) p b.(outbox_capacity).
Definition with_outbox_capacity (b : WsTransportBuilder) (capacity : N) : WsTransportBuilder :=
  mk_WsTransportBuilder b.(listen) b.(path) (N.max capacity 1).

(** Map a [HubError] to its code on the wire. *)
Definition error_code_for (err : HubError) : ErrorCode :=
  match err with
  | ESchema _ => ValidationFailed
  | EAuth _ => InvalidTokenCode
  | EAcl _ => AclDenied
  | NotConnected _ => NotConnectedCode
  | _ => Internal
  end.

Inductive Message : Type :=
| Binary (bytes : Bytes)
| Text
| Ping
| Pong
| Close.

Section ws.
Context {W Str : Type} `{NO : Notifier} `{M : Mpsc} `{C : ProstCodec}.
(** [prost::DecodeError]'s [Display]. *)
Variable show_prost : prost_error → string.

Definition show_decode_error (e : DecodeError prost_error) : string :=
  match e with
  | Prost e => "protobuf decode failed: " +:+ show_prost e
  | MissingClientKind => "client frame missing required `kind` oneof"
  | MissingServerKind => "server frame missing required `kind` oneof"
  end.

Definition deliver (session_id : N) (frame : ServerFrame) (st : @HubSt W Str _ M) : HubSt :=
  match get st.(core).(registry) session_id with
  | None => st
  | Some session => (outbox_send (deref st.(core) session).(outbox) frame st).2
  end.

(** [ServerFrame::Error(ProtocolError { .. })]. *)
Definition error_frame (request_id : N) (code : ErrorCode) (message : string) : ServerFrame :=
  SF_Error (mk_ProtocolError request_id (u32_of_error_code code) message).

Definition handle_frame (frame : ClientFrame) (session_id : N) (hub : @Hub W Str)
    (st : @HubSt W Str _ M) : HubSt :=
  match frame with
  | CF_Subscribe sub =>
      match handle_subscribe hub session_id sub.(sub_request_id) sub.(sub_channel)
              sub.(sub_since_offset) st with
      | (Ok ok, st) => deliver session_id (SF_SubscribeOk ok) st
      | (Err err, st) =>
          let code := error_code_for err in
          deliver session_id (error_frame sub.(sub_request_id) code (show_hub_error err)) st
      end
  | CF_Unsubscribe unsub =>
      match handle_unsubscribe hub session_id unsub.(unsub_request_id) unsub.(unsub_channel) st with
      | (Ok ok, st) => deliver session_id (SF_UnsubscribeOk ok) st
      | (Err err, st) =>
          let code := error_code_for err in
          deliver session_id (error_frame unsub.(unsub_request_id) code (show_hub_error err)) st
      end
  | CF_Publish p =>
      match handle_publish hub session_id p.(pub_channel) p.(pub_data) st with
      | (Ok _, st) => st
      | (Err err, st) =>
          let code := error_code_for err in
          deliver session_id (error_frame p.(pub_request_id) code (show_hub_error err)) st
      end
  | CF_Connect c =>
      match handle_connect hub session_id c.(con_request_id) c.(con_token) st with
      | (Ok ok, st) => deliver session_id (SF_ConnectOk ok) st
      | (Err err, st) =>
          let code := error_code_for err in
          deliver session_id (error_frame c.(con_request_id) code (show_hub_error err)) st
      end
  end.

(** [false] closes the socket after this message. *)
Definition dispatch (msg : Message) (session_id : N) (hub : @Hub W Str) (st : @HubSt W Str _ M) :
    bool * HubSt :=
  match msg with
  | Binary bytes =>
      match decode_client bytes with
      | Ok frame => (true, handle_frame frame session_id hub st)
      | Err err =>
          (false, deliver session_id
                    (error_frame 0 InvalidFrame ("invalid frame: " +:+ show_decode_error err)) st)
      end
  | Text | Ping | Pong => (true, st)
  | Close => (false, st)
  end.

(** ** The life of a socket *)

(** [reader.next()]: a message, a read error, or the end of the stream. *)
Inductive read_event : Type :=
| ReadMsg (m : Message)
| ReadError
| ReadEnd.

(** [Selecting w]: suspended in the [select!], whose [shutdown.notified()] future
    was created when this turn of the loop began.  [Dispatching m]: in the body
    of the third branch. *)
Inductive phase : Type :=
| Selecting (w : Notified)
| Dispatching (m : Message)
| Finished.

Record Socket : Type := mk_Socket {
  session : N;
  session_id : N;
  out : N;
  state : phase;
  writer_running : bool;
  wire : list Bytes;
}.

Definition set_state (p : phase) (s : Socket) : Socket :=
  mk_Socket s.(session) s.(session_id) s.(out) p s.(writer_running) s.(wire).

(** The receiver of an outbox is dropped with the writer task that owns it. *)
Definition drop_receiver (o : N) (st : @HubSt W Str _ M) : HubSt :=
  mk_HubSt st.(core) (alter mpsc_close o st.(outboxes)) st.(world).

(** Up to the loop: open the session and spawn the writer. *)
Definition open_socket (hub : @Hub W Str) (o : N) (capacity : N) (st : @HubSt W Str _ M) :
    Socket * HubSt :=
  let st := mk_HubSt st.(core) (<[o := mpsc_channel capacity]> st.(outboxes)) st.(world) in
  let '(session, st) := open_session hub o st in
  let s := deref st.(core) session in
  (mk_Socket session s.(id) o (Selecting (notified s.(shutdown))) true [], st).

(** A turn of the writer task; [sent] is the outcome of [writer.send]. *)
Definition write_turn (sent : bool) (s : Socket) (st : @HubSt W Str _ M) : Socket * HubSt :=
  if s.(writer_running) then
    match st.(outboxes) !! s.(out) with
    | None => (s, st)
    | Some ch =>
        match mpsc_recv ch with
        | (None, _) => (s, st)
        | (Some frame, ch) =>
            let st := mk_HubSt st.(core) (<[s.(out) := ch]> st.(outboxes)) st.(world) in
            if sent
            then (mk_Socket s.(session) s.(session_id) s.(out) s.(state) true
                    (s.(wire) ++ [encode_server frame]), st)
            else (mk_Socket s.(session) s.(session_id) s.(out) s.(state) false s.(wire),
                  drop_receiver s.(out) st)
        end
    end
  else (s, st).

(** What follows the loop: abort the writer, close the session, and the function
    returns, dropping its [Arc<Session>]. *)
Definition finish (hub : @Hub W Str) (s : Socket) (st : @HubSt W Str _ M) : Socket * HubSt :=
  let st := drop_receiver s.(out) st in
  let st := close_session hub s.(session_id) st in
  (mk_Socket s.(session) s.(session_id) s.(out) Finished false s.(wire),
   release hub s.(session) st).

(** The [select!] resolves, tried in order ([biased]). *)
Definition select_turn (hub : @Hub W Str) (ev : read_event) (s : Socket) (st : @HubSt W Str _ M) :
    Socket * HubSt :=
  match s.(state) with
  | Selecting w =>
      if negb s.(writer_running) then finish hub s st
      else if notified_ready (deref st.(core) s.(session)).(shutdown) w then finish hub s st
      else match ev with
           | ReadMsg m => (set_state (Dispatching m) s, st)
           | ReadError | ReadEnd => finish hub s st
           end
  | _ => (s, st)
  end.

(** The body of the loop runs and the next turn begins, with a new notification
    future. *)
Definition dispatch_turn (hub : @Hub W Str) (s : Socket) (st : @HubSt W Str _ M) :
    Socket * HubSt :=
  match s.(state) with
  | Dispatching m =>
      let '(go_on, st) := dispatch m s.(session_id) hub st in
      if go_on
      then (set_state (Selecting (notified (deref st.(core) s.(session)).(shutdown))) s, st)
      else finish hub s st
  | _ => (s, st)
  end.
End ws.
