(* ===== verification/Outbox.v ===== *)
(** * Who writes to which outbox

    A handler running for a session writes to that session's outbox and to no
    other, and only by appending; the frames are those it replays. *)
From S2P Require Import Prelude Protocol Traits Session Hub HubInv HubReach HubSteps.

Section outbox.
Context {W Str : Type} `{NO : Notifier} `{M : Mpsc} {L : MpscLaws M}.
Implicit Types (c : @HubCore Str _) (st : @HubSt W Str _ M) (hub : @Hub W Str).

(** [sid] is registered and its outbox is [o]. *)
Definition bound (sid ptr o : N) (c : @HubCore Str _) : Prop :=
  get c.(registry) sid = Some ptr ∧ (deref c ptr).(outbox) = o.

(** [fs] was appended to the outbox [o], whose receiver is alive; the others are
    as they were. *)
Definition appended (o : N) (outs outs' : gmap N MChan) (fs : list ServerFrame) : Prop :=
  (∃ ch ch', outs !! o = Some ch ∧ outs' !! o = Some ch' ∧ mpsc_closed ch' = false ∧
     mpsc_queue ch' = mpsc_queue ch ++ fs) ∧
  ∀ o', o' ≠ o → outs' !! o' = outs !! o'.

Lemma appended_refl o outs ch :
  outs !! o = Some ch → mpsc_closed ch = false → appended o outs outs [].
Proof. intros Ho Hc. split; [|done]. exists ch, ch. by rewrite app_nil_r. Qed.

Lemma appended_trans o outs1 outs2 outs3 fs gs :
  appended o outs1 outs2 fs → appended o outs2 outs3 gs → appended o outs1 outs3 (fs ++ gs).
Proof.
  intros [(c1 & c2 & H1 & H2 & _ & Hq) Hf] [(c2' & c3 & H2' & H3 & Hc & Hq') Hf'].
  simplify_eq. split.
  - exists c1, c3. by rewrite Hq', Hq, app_assoc.
  - intros o' Ho. by rewrite Hf', Hf.
Qed.

Lemma appended_send o f st :
  outbox_open st o →
  ∃ st', outbox_send o f st = (true, st') ∧ st'.(core) = st.(core) ∧
    appended o st.(outboxes) st'.(outboxes) [f].
Proof.
  intros Ho. destruct (outbox_send_open o f st Ho) as (st' & Hs & Hc & _ & Ho' & Hq & Hf).
  exists st'. split; [done|]. split; [done|]. split; [|done].
  destruct Ho as (ch & H1 & _), Ho' as (ch' & H2 & Hcl). exists ch, ch'.
  unfold queued in Hq. rewrite H1, H2 in Hq. done.
Qed.

Lemma appended_open o outs st fs : appended o outs st.(outboxes) fs → outbox_open st o.
Proof. intros [(? & ch' & _ & ? & ? & _) _]. by exists ch'. Qed.

(** ** Computations that keep a property of the core and the outboxes *)

Definition calm {A} (P : @HubCore Str _ → gmap N MChan → Prop)
    (m : io (@HubSt W Str _ M) HubError A) : Prop :=
  triple (λ st, P st.(core) st.(outboxes)) m
    (λ _ st, P st.(core) st.(outboxes)) (λ _ st, P st.(core) st.(outboxes)).

Lemma calm_bind {A B} P (m : io (@HubSt W Str _ M) HubError A) (k : A → io _ _ B) :
  calm P m → (∀ a, calm P (k a)) → calm P (io_bind m k).
Proof. intros Hm Hk. eapply triple_bind; [exact Hm|exact Hk]. Qed.
(** When the value is known. *)
Lemma calm_bind_known {A B} P (m : io (@HubSt W Str _ M) HubError A) (k : A → io _ _ B) v :
  (∀ st, P st.(core) st.(outboxes) → m st = (Ok v, st)) → calm P (k v) → calm P (io_bind m k).
Proof. intros Hm Hk st HP. unfold io_bind. rewrite (Hm st HP). by apply Hk. Qed.
Lemma calm_ret {A} P (a : A) : calm P (io_ret a).
Proof. by apply triple_ret. Qed.
Lemma calm_fail {A} P e : calm P (io_fail (A:=A) e).
Proof. by apply triple_fail. Qed.
Lemma calm_try {A} P (m : io (@HubSt W Str _ M) HubError A) : calm P m → calm P (io_try m).
Proof. intros H. by apply triple_try. Qed.
Lemma calm_read {A} P ptr (f : Session → A) : calm P (read_session ptr f).
Proof. by apply triple_gets. Qed.
Lemma calm_get P sid : calm P (get_session sid).
Proof. intros st H. unfold get_session. by destruct (get _ _). Qed.
Lemma calm_on_world {E A} P (f : E → HubError) (m : io W E A) : calm P (on_world f m).
Proof. intros st H. unfold on_world, io_map_err, io_zoom. by destruct (m _) as [[?|?] ?]. Qed.
Lemma calm_drop_stream P hub s : calm P (drop_stream hub s).
Proof. by apply triple_modify. Qed.
Lemma calm_decide {A} P (b : bool) (m n : io (@HubSt W Str _ M) HubError A) :
  calm P m → calm P n → calm P (if b then m else n).
Proof. by destruct b. Qed.
Lemma calm_enforce_acl P hub cl a ch : calm P (enforce_acl hub cl a ch).
Proof. apply calm_bind; [apply calm_on_world|]. intros []; [apply calm_ret|apply calm_fail]. Qed.

(** The property the handlers keep. *)
Definition bound_with (sid ptr o : N) (F : gmap N MChan → Prop) (c : @HubCore Str _)
    (outs : gmap N MChan) : Prop := bound sid ptr o c ∧ F outs.

Lemma calm_modify_session {A} sid ptr o F p (f : Session → A * Session) :
  (∀ s, (f s).2.(outbox) = s.(outbox)) →
  calm (bound_with sid ptr o F) (modify_session p f).
Proof.
  intros Hf st [[Hg Ho] HF]. unfold modify_session. specialize (Hf (deref st.(core) p)).
  destruct (f _) as [a s]; simpl in *. split; [|done]. split; [done|].
  unfold deref in *. simpl. destruct (decide (p = ptr)) as [->|].
  - rewrite lookup_insert_eq. simpl. by rewrite Hf.
  - by rewrite lookup_insert_ne.
Qed.

Lemma calm_core sid ptr o F (f : @HubSt W Str _ M → HubSt) :
  (∀ st, get (f st).(core).(registry) sid = get st.(core).(registry) sid ∧
     (f st).(core).(heap) = st.(core).(heap) ∧ (f st).(outboxes) = st.(outboxes)) →
  calm (bound_with sid ptr o F) (io_modify f).
Proof.
  intros Hf. apply triple_modify. intros st [[Hg Ho] HF].
  destruct (Hf st) as (Hg' & Hh & Hout). rewrite Hout. split; [|done].
  unfold bound, deref in *. by rewrite Hg', Hh.
Qed.

Lemma outbox_set_claims cl s : (set_claims cl s).2.(outbox) = s.(outbox).
Proof. done. Qed.
Lemma outbox_insert_subscription ch t s : (insert_subscription ch t s).2.(outbox) = s.(outbox).
Proof. unfold insert_subscription. by destruct (subscriptions s !! ch). Qed.
Lemma outbox_remove_subscription ch s : (remove_subscription ch s).2.(outbox) = s.(outbox).
Proof. unfold remove_subscription. by destruct (subscriptions s !! ch). Qed.

Lemma end_task_outboxes hub t st : (end_task hub t st).(outboxes) = st.(outboxes).
Proof. unfold end_task. by destruct (tasks _ !! t). Qed.

Lemma calm_end_task sid ptr o F hub t :
  calm (bound_with sid ptr o F) (io_modify (end_task hub t)).
Proof. apply calm_core. intros st. by rewrite end_task_core, end_task_outboxes. Qed.

Lemma calm_index sid ptr o F sid' ch (f : N → string → SessionRegistry → SessionRegistry) :
  (∀ reg, (f sid' ch reg).(sessions) = reg.(sessions)) →
  calm (bound_with sid ptr o F) (io_modify (λ st,
    set_core (set_registry (f sid' ch st.(core).(registry)) st.(core)) st)).
Proof. intros Hf. apply calm_core. intros st. unfold get. simpl. by rewrite Hf. Qed.

Lemma calm_count sid ptr o F :
  calm (bound_with sid ptr o F) (io_modify (λ st, set_core (count_publication st.(core)) st)).
Proof. by apply calm_core. Qed.

Lemma calm_spawn sid ptr o F t :
  calm (bound_with sid ptr o F) (λ st, let '(t, st) := spawn t st in (Ok t, st)).
Proof. by intros st H. Qed.

Lemma calm_require_claims sid ptr o F hub p :
  calm (bound_with sid ptr o F) (require_claims hub p).
Proof.
  apply calm_bind; [apply calm_read|]. intros [cl|]; [apply calm_ret|].
  destruct (allow_anonymous _).
  - apply calm_bind; [apply calm_modify_session, outbox_set_claims|]. intros. apply calm_ret.
  - apply calm_bind; [apply calm_read|]. intros. apply calm_fail.
Qed.

Lemma calm_commit sid ptr o F hub sid' rid p ch k cursor stream o' :
  calm (bound_with sid ptr o F) (commit_subscription hub sid' rid p ch k cursor stream o').
Proof.
  apply calm_bind; [apply calm_spawn|]. intros t.
  apply calm_bind; [apply calm_modify_session, outbox_insert_subscription|]. intros [[]|stray].
  - apply calm_bind; [by apply calm_index|]. intros. apply calm_ret.
  - apply calm_bind; [apply calm_end_task|]. intros.
    apply calm_bind; [apply calm_try, calm_on_world|]. intros. apply calm_fail.
Qed.
End outbox.

Create HintDb calm.
#[export] Hint Resolve calm_ret calm_fail calm_read calm_get calm_on_world calm_drop_stream
  calm_enforce_acl calm_end_task calm_count calm_spawn calm_require_claims calm_commit
  calm_modify_session calm_try outbox_set_claims outbox_remove_subscription : calm.

Ltac calm_auto :=
  repeat first
    [ solve [eauto with calm]
    | apply calm_bind; [|intros ?]
    | apply calm_decide
    | apply calm_index; solve [intros; apply sessions_remove_from_index]
    | match goal with |- calm _ (match ?x with _ => _ end) => destruct x end ].

Section handlers.
Context {W Str : Type} `{NO : Notifier} `{M : Mpsc} {L : MpscLaws M}.
Implicit Types (c : @HubCore Str _) (st : @HubSt W Str _ M) (hub : @Hub W Str).

Lemma calm_handle_connect sid ptr o F hub sid' rid tok :
  calm (bound_with sid ptr o F) (handle_connect hub sid' rid tok : io (@HubSt W Str _ M) _ _).
Proof. unfold handle_connect. calm_auto. Qed.

Lemma calm_handle_unsubscribe sid ptr o F hub sid' rid ch :
  calm (bound_with sid ptr o F) (handle_unsubscribe hub sid' rid ch : io (@HubSt W Str _ M) _ _).
Proof. unfold handle_unsubscribe. calm_auto. Qed.

Lemma calm_handle_publish sid ptr o F hub sid' ch data :
  calm (bound_with sid ptr o F) (handle_publish hub sid' ch data : io (@HubSt W Str _ M) _ _).
Proof. unfold handle_publish. calm_auto. Qed.

(** ** Subscribe *)

(** The outboxes after some replay into [o]. *)
Definition replayed (o : N) (outs outs' : gmap N MChan) : Prop :=
  ∃ ps, appended o outs outs' (SF_Publication <$> ps).

Lemma replayed_send sid o ps outs st :
  replayed o outs st.(outboxes) → ∃ st', send_replayed sid o ps st = (Ok (), st') ∧
    st'.(core) = st.(core) ∧ replayed o outs st'.(outboxes).
Proof.
  revert st. induction ps as [|p ps IH]; intros st [qs Hr].
  - exists st. split; [done|]. split; [done|]. by exists qs.
  - simpl. destruct (appended_send o (SF_Publication p) st (appended_open _ _ _ _ Hr))
      as (st1 & -> & Hc & Ha). rewrite <-Hc. apply IH. exists (qs ++ [p]).
    rewrite fmap_app. by eapply appended_trans.
Qed.

Lemma calm_replay sid ptr o outs k sid' ch since :
  calm (bound_with sid ptr o (replayed o outs)) (replay k sid' o ch since : io (@HubSt W Str _ M) _ _).
Proof.
  unfold replay. case_decide; [|apply calm_ret].
  apply calm_bind; [apply calm_on_world|]. intros ps st [Hb Hr].
  destruct (replayed_send sid' o ps outs st Hr) as (st' & -> & Hc & Hr').
  split; [by rewrite Hc|done].
Qed.

Lemma handle_subscribe_outbox sid ptr o hub rid ch since outs :
  calm (bound_with sid ptr o (replayed o outs))
    (handle_subscribe hub sid rid ch since : io (@HubSt W Str _ M) _ _).
Proof.
  set (P := bound_with sid ptr o (replayed o outs)).
  apply (calm_bind_known _ _ _ ptr).
  { intros st [[Hg _] _]. by apply get_session_eq. }
  apply calm_bind; [apply calm_require_claims|]. intros cl.
  apply calm_bind; [apply calm_enforce_acl|]. intros _.
  apply calm_bind; [apply calm_read|]. intros [|]; [apply calm_fail|].
  apply calm_bind; [apply calm_on_world|]. intros cursor.
  apply calm_bind; [apply calm_try, calm_on_world|]. intros [stream|err]; [|calm_auto].
  apply (calm_bind_known _ _ _ o).
  { intros st [[_ Ho] _]. unfold read_session, io_gets. by rewrite Ho. }
  apply calm_bind; [apply calm_try, calm_replay|]. intros [[]|err]; [|calm_auto].
  fold (commit_subscription (M:=M) hub sid rid ptr ch (kind_for hub ch) cursor stream o).
  apply calm_commit.
Qed.

(** A calm computation, run. *)
Lemma calm_run {A} P (m : io (@HubSt W Str _ M) HubError A) st r st' :
  calm P m → P st.(core) st.(outboxes) → m st = (r, st') → P st'.(core) st'.(outboxes).
Proof. intros Hm HP Hrun. specialize (Hm st HP). rewrite Hrun in Hm. by destruct r. Qed.
End handlers.
