(* ===== verification/Async.v ===== *)
(** * Handlers that are interrupted

    An async function is a sequence of segments, one per await point.  The handlers
    of cherenkov-core/src/hub.rs are given in this form, and run without interruption
    they are the handlers of Hub.v; Race.v says what interruptions do. *)
From S2P Require Import Prelude Protocol Traits Session Hub.

(** ** Computations in segments *)

Section async.
Context {S E : Type}.

(** A computation that may be interrupted before every segment. *)
Inductive async (A : Type) : Type :=
| Done (r : result E A)
| Await {X : Type} (m : io S E X) (k : X → async A).
#[global] Arguments Done {A} r.
#[global] Arguments Await {A X} m k.

(** Without interruptions. *)
Fixpoint run {A} (a : async A) : io S E A :=
  match a with
  | Done r => io_of_result r
  | Await m k => let! x := m in run (k x)
  end.

(** One turn: the next segment, up to the next await. *)
Definition turn {A} (a : async A) (w : S) : async A * S :=
  match a with
  | Done r => (Done r, w)
  | Await m k =>
      let '(r, w) := m w in
      (match r with Ok x => k x | Err e => Done (Err e) end, w)
  end.

Fixpoint map_async {A B} (f : A → B) (a : async A) : async B :=
  match a with
  | Done r => Done (match r with Ok x => Ok (f x) | Err e => Err e end)
  | Await m k => Await m (λ x, map_async f (k x))
  end.

Lemma run_map {A B} (f : A → B) (a : async A) :
  run (map_async f a) ≅ (let! x := run a in io_ret (f x)).
Proof.
  induction a as [r|X m k IH]; intros w; simpl.
  - by destruct r.
  - unfold io_bind. destruct (m w) as [[x|e] w']; [|done]. apply IH.
Qed.

(** [P] holds whenever the computation waits, whatever [P]-keeping things happen
    meanwhile. *)
Fixpoint safe {A} (P : S → Prop) (a : async A) : Prop :=
  match a with
  | Done _ => True
  | Await m k => ∀ w, P w →
      let '(r, w') := m w in
      P w' ∧ match r with Ok x => safe P (k x) | Err _ => True end
  end.

Lemma safe_await {A X} (P : S → Prop) (m : io S E X) (k : X → async A) :
  triple P m (λ _, P) (λ _, P) → (∀ x, safe P (k x)) → safe P (Await m k).
Proof. intros Hm Hk w HP. specialize (Hm w HP). destruct (m w) as [[x|e] w']; auto. Qed.

(** When what the segment returns matters. *)
Lemma safe_await_post {A X} (P : S → Prop) (Q : X → Prop) (m : io S E X) (k : X → async A) :
  triple P m (λ x w, P w ∧ Q x) (λ _, P) → (∀ x, Q x → safe P (k x)) → safe P (Await m k).
Proof.
  intros Hm Hk w HP. specialize (Hm w HP). destruct (m w) as [[x|e] w']; [|auto].
  destruct Hm. auto.
Qed.

Lemma safe_map {A B} P (f : A → B) (a : async A) : safe P a → safe P (map_async f a).
Proof.
  induction a as [r|X m k IH]; intros H; simpl; [done|]. intros w HP. specialize (H w HP).
  destruct (m w) as [[x|e] w']; [|done]. destruct H. auto.
Qed.

Lemma safe_turn {A} P (a : async A) w :
  safe P a → P w → safe P (turn a w).1 ∧ P (turn a w).2.
Proof.
  destruct a as [r|X m k]; [done|]. intros H HP. specialize (H w HP). simpl.
  destruct (m w) as [[x|e] w']; naive_solver.
Qed.

(** Every segment keeps [P], whatever the earlier ones returned. *)
Fixpoint keeping {A} (P : S → Prop) (a : async A) : Prop :=
  match a with
  | Done _ => True
  | Await m k => triple P m (λ _, P) (λ _, P) ∧ ∀ x, keeping P (k x)
  end.

Lemma keeping_map {A B} P (f : A → B) (a : async A) : keeping P a → keeping P (map_async f a).
Proof. induction a as [r|X m k IH]; simpl; [done|]. intros [Hm Hk]. auto. Qed.

Lemma keeping_turn {A} P (a : async A) w :
  keeping P a → keeping P (turn a w).1 ∧ (P w → P (turn a w).2).
Proof.
  destruct a as [r|X m k]; [done|]. intros [Hm Hk]. simpl. specialize (Hm w).
  destruct (m w) as [[x|e] w']; simpl; auto.
Qed.

(** ** Tasks that take turns *)

(** A pool of suspended computations; [other] is what else happens to the state. *)
Inductive pool_step {A} (other : S → S → Prop) : list (async A) * S → list (async A) * S → Prop :=
| pool_turn pool w i a : pool !! i = Some a →
    pool_step other (pool, w) (<[i := (turn a w).1]> pool, (turn a w).2)
| pool_other pool w w' : other w w' → pool_step other (pool, w) (pool, w').

Definition pool_inv {A} (P : S → Prop) (x : list (async A) * S) : Prop :=
  Forall (safe P) x.1 ∧ P x.2.

Lemma pool_inv_run {A} (other : S → S → Prop) P (x y : list (async A) * S) :
  (∀ w w', P w → other w w' → P w') →
  rtc (pool_step other) x y → pool_inv P x → pool_inv P y.
Proof.
  intros Ho. induction 1 as [|x y z Hstep _ IH]; [done|]. intros [Hpool HP]. apply IH.
  destruct Hstep as [pool w i a Ha|pool w w' Hw]; simpl in *; [|split; eauto].
  pose proof (Forall_lookup_1 _ _ _ _ Hpool Ha) as Hsafe.
  destruct (safe_turn P a w Hsafe HP). split; [by apply Forall_insert|done].
Qed.
End async.
#[global] Arguments async S E A : clear implicits.

(** ** The handlers *)

Section handlers.
Context {W Str : Type} `{NO : Notifier} `{M : Mpsc}.
Implicit Types (hub : @Hub W Str).
Abbreviation io' := (io (@HubSt W Str _ M) HubError).
Abbreviation async' := (async (@HubSt W Str _ M) HubError).

(** The start of subscribe and publish, up to the first await. *)
Definition start hub (session_id : N) : io' (N * SessionClaims) :=
  let! session := get_session session_id in
  let! claims := require_claims hub session in
  io_ret (session, claims).

(** *** Subscribe *)

Definition unwind hub (ch : string) : io' (result HubError unit) :=
  io_try (on_world EChannel (on_unsubscribe (kind_for hub ch) ch)).

(** After the last await: spawning, recording and indexing the forwarder. *)
Definition commit_segment hub (session_id request_id session : N) (channel : string)
    (cursor : ChannelCursor) (stream : Str) (o : N) : io' (option SubscribeOk) :=
  let! forwarder := (λ st, let '(t, st) := spawn (mk_Task stream o channel) st in
                           (Ok t, st)) in
  let! inserted := modify_session session (insert_subscription channel forwarder) in
  match inserted with
  | Err stray => io_modify (end_task hub stray) ;; io_ret None
  | Ok _ =>
      io_modify (λ st, set_core (set_registry
        (add_to_index session_id channel st.(core).(registry)) st.(core)) st) ;;
      io_ret (Some (mk_SubscribeOk request_id channel cursor.(epoch) cursor.(offset)))
  end.

Definition commit_async hub (session_id request_id session : N) (channel : string)
    (cursor : ChannelCursor) (stream : Str) (o : N) : async' SubscribeOk :=
  Await (commit_segment hub session_id request_id session channel cursor stream o) (λ r,
    match r with
    | Some ok => Done (Ok ok)
    | None => Await (unwind hub channel) (λ _, Done (Err (AlreadySubscribed session_id channel)))
    end).

(** An early return after the stream was opened. *)
Definition fail_async hub (channel : string) (stream : Str) (err : HubError) :
    async' SubscribeOk :=
  Await (unwind hub channel) (λ _, Await (drop_stream hub stream) (λ _, Done (Err err))).

(** [outbox.send(..).await] of one frame. *)
Definition send_one (o : N) (f : ServerFrame) : io' bool :=
  λ st, let '(sent, st) := outbox_send o f st in (Ok sent, st).

Fixpoint send_async hub (session_id o : N) (channel : string) (stream : Str)
    (replayed : list Publication) (fin : async' SubscribeOk) : async' SubscribeOk :=
  match replayed with
  | [] => fin
  | publication :: replayed =>
      Await (send_one o (SF_Publication publication)) (λ sent,
        if sent : bool then send_async hub session_id o channel stream replayed fin
        else fail_async hub channel stream (SessionGone session_id))
  end.

Definition replay_async hub (session_id o : N) (channel : string) (since_offset : N)
    (stream : Str) (fin : async' SubscribeOk) : async' SubscribeOk :=
  if decide (0 < since_offset)%N then
    Await (io_try (on_world EChannel (replay_since (kind_for hub channel) channel since_offset)))
      (λ r, match r with
            | Ok replayed => send_async hub session_id o channel stream replayed fin
            | Err err => fail_async hub channel stream err
            end)
  else fin.

Definition subscribe_async hub (session_id request_id : N) (channel : string)
    (since_offset : N) : async' SubscribeOk :=
  Await (start hub session_id) (λ '(session, claims),
  Await (enforce_acl hub claims ActSubscribe channel) (λ _,
  Await (let! subscribed := read_session session (λ s, has_subscription s channel) in
         if subscribed : bool then io_fail (AlreadySubscribed session_id channel) else io_ret ())
  (λ _,
  Await (on_world EChannel (on_subscribe (kind_for hub channel) channel)) (λ cursor,
  Await (io_try (on_world EBroker (broker_subscribe hub.(broker) channel))) (λ opened,
    match opened with
    | Err err => Await (unwind hub channel) (λ _, Done (Err err))
    | Ok stream =>
        Await (read_session session outbox) (λ o,
        replay_async hub session_id o channel since_offset stream
          (commit_async hub session_id request_id session channel cursor stream o))
    end))))).

(** *** Connect, unsubscribe and publish *)

Definition connect_async hub (session_id request_id : N) (token : string) : async' ConnectOk :=
  Await (let! session := get_session session_id in
         let! connected := read_session session (λ s, bool_decide (is_Some s.(claims))) in
         if connected && negb (allow_anonymous hub.(authenticator))
         then io_fail (AlreadyConnected session_id) else io_ret session) (λ session,
  Await (on_world EAuth (authenticate hub.(authenticator) token)) (λ claims,
  Await (modify_session session (set_claims claims)) (λ _,
  Done (Ok (mk_ConnectOk request_id claims.(subject) claims.(expires_at)))))).

(** Up to the only await: forgetting and aborting the forwarder. *)
Definition remove_segment hub (session_id : N) (channel : string) : io' unit :=
  let! session := get_session session_id in
  let! removed := modify_session session (remove_subscription channel) in
  match removed with
  | None => io_fail (NotSubscribed session_id channel)
  | Some forwarder =>
      io_modify (end_task hub forwarder) ;;
      io_modify (λ st, set_core (set_registry
        (remove_from_index session_id channel st.(core).(registry)) st.(core)) st)
  end.

Definition unsubscribe_async hub (session_id request_id : N) (channel : string) :
    async' UnsubscribeOk :=
  Await (remove_segment hub session_id channel) (λ _,
  Await (on_world EChannel (on_unsubscribe (kind_for hub channel) channel)) (λ _,
  Done (Ok (mk_UnsubscribeOk request_id channel)))).

Definition publish_async hub (session_id : N) (channel : string) (data : Bytes) :
    async' Publication :=
  Await (start hub session_id) (λ '(session, claims),
  Await (enforce_acl hub claims ActPublish channel) (λ _,
  Await (on_world ESchema (validate hub.(validator) channel data)) (λ _,
  Await (on_world EChannel (on_publish (kind_for hub channel) channel data)) (λ publication,
  Await (on_world EBroker (broker_publish hub.(broker) channel publication)) (λ _,
  Await (io_modify (λ st, set_core (count_publication st.(core)) st)) (λ _,
  Done (Ok publication))))))).

(** *** Any of them *)

Inductive Request : Type :=
| RConnect (session_id request_id : N) (token : string)
| RSubscribe (session_id request_id : N) (channel : string) (since_offset : N)
| RUnsubscribe (session_id request_id : N) (channel : string)
| RPublish (session_id : N) (channel : string) (data : Bytes).

Inductive Answer : Type :=
| AConnect (ok : ConnectOk)
| ASubscribe (ok : SubscribeOk)
| AUnsubscribe (ok : UnsubscribeOk)
| APublish (publication : Publication).

Definition requester (r : Request) : N :=
  match r with
  | RConnect s _ _ | RSubscribe s _ _ _ | RUnsubscribe s _ _ | RPublish s _ _ => s
  end.

Definition handle hub (r : Request) : io' Answer :=
  match r with
  | RConnect s rid token => let! ok := handle_connect hub s rid token in io_ret (AConnect ok)
  | RSubscribe s rid ch since =>
      let! ok := handle_subscribe hub s rid ch since in io_ret (ASubscribe ok)
  | RUnsubscribe s rid ch => let! ok := handle_unsubscribe hub s rid ch in io_ret (AUnsubscribe ok)
  | RPublish s ch data => let! p := handle_publish hub s ch data in io_ret (APublish p)
  end.

Definition handle_async hub (r : Request) : async' Answer :=
  match r with
  | RConnect s rid token => map_async AConnect (connect_async hub s rid token)
  | RSubscribe s rid ch since => map_async ASubscribe (subscribe_async hub s rid ch since)
  | RUnsubscribe s rid ch => map_async AUnsubscribe (unsubscribe_async hub s rid ch)
  | RPublish s ch data => map_async APublish (publish_async hub s ch data)
  end.

(** ** Without interruptions they are the handlers *)

Lemma run_fail hub ch stream err st :
  run (fail_async hub ch stream err) st
  = (unwind hub ch ;; drop_stream hub stream ;; io_fail err) st.
Proof. done. Qed.

Lemma run_send hub sid o ch stream ps fin st :
  run (send_async hub sid o ch stream ps fin) st
  = match send_replayed sid o ps st with
    | (Ok _, st) => run fin st
    | (Err err, st) => (unwind hub ch ;; drop_stream hub stream ;; io_fail err) st
    end.
Proof.
  revert st. induction ps as [|p ps IH]; intros st; [done|].
  cbn [send_async run send_replayed]. unfold io_bind at 1, send_one.
  destruct (outbox_send o (SF_Publication p) st) as [[|] st1]; [apply IH|done].
Qed.

Lemma run_replay hub sid o ch since stream fin st :
  run (replay_async hub sid o ch since stream fin) st
  = match replay (kind_for hub ch) sid o ch since st with
    | (Ok _, st) => run fin st
    | (Err err, st) => (unwind hub ch ;; drop_stream hub stream ;; io_fail err) st
    end.
Proof.
  unfold replay_async, replay. case_decide; [|done]. cbn [run].
  unfold io_bind, io_try. destruct (on_world EChannel _ st) as [[ps|err] st1]; [|done].
  rewrite run_send. by destruct (send_replayed _ _ _ st1) as [[[]|e] st2].
Qed.

Lemma run_subscribe hub sid rid ch since :
  run (subscribe_async hub sid rid ch since) ≅ handle_subscribe hub sid rid ch since.
Proof.
  intros st. unfold subscribe_async, handle_subscribe, start. cbn [run]. unfold io_bind.
  destruct (get_session sid st) as [[ptr|e] st1]; [|done].
  destruct (require_claims hub ptr st1) as [[cl|e] st2]; [|done]. cbn [io_ret run]. unfold io_bind.
  destruct (enforce_acl hub cl ActSubscribe ch st2) as [[u|e] st3]; [|done].
  cbn [run read_session io_gets].
  destruct (has_subscription _ ch); [done|]. cbn [io_ret].
  destruct (on_world EChannel _ st3) as [[cursor|e] st4]; [|done]. unfold io_try.
  destruct (on_world EBroker _ st4) as [[stream|e] st5]; [|done].
  cbn [run]. unfold io_bind. cbn [read_session io_gets]. rewrite run_replay.
  destruct (replay _ _ _ _ _ st5) as [[[]|e] st6]; [|done].
  unfold commit_async, commit_segment. cbn [run]. unfold io_bind.
  destruct (spawn _ st6) as [t st7].
  by destruct (modify_session _ _ st7) as [[[[]|stray]|e] st8].
Qed.

Lemma run_connect hub sid rid token :
  run (connect_async hub sid rid token) ≅ handle_connect hub sid rid token.
Proof.
  intros st. unfold connect_async, handle_connect. cbn [run]. unfold io_bind.
  destruct (get_session sid st) as [[ptr|e] st1]; [|done]. cbn [read_session io_gets].
  destruct (_ && _); [done|]. cbn [io_ret].
  by destruct (on_world EAuth _ st1) as [[cl|e] st2].
Qed.

Lemma run_unsubscribe hub sid rid ch :
  run (unsubscribe_async hub sid rid ch) ≅ handle_unsubscribe hub sid rid ch.
Proof.
  intros st. unfold unsubscribe_async, handle_unsubscribe, remove_segment. cbn [run]. unfold io_bind.
  destruct (get_session sid st) as [[ptr|e] st1]; [|done].
  by destruct (modify_session _ _ st1) as [[[t|]|e] st2].
Qed.

Lemma run_publish hub sid ch data :
  run (publish_async hub sid ch data) ≅ handle_publish hub sid ch data.
Proof.
  intros st. unfold publish_async, handle_publish, start. cbn [run]. unfold io_bind.
  destruct (get_session sid st) as [[ptr|e] st1]; [|done].
  by destruct (require_claims hub ptr st1) as [[cl|e] st2].
Qed.

(** The segments of any handler, run one after the other, are the handler: same
    answer, same error, same state. *)
Theorem uninterrupted_handlers hub (r : Request) :
  run (handle_async hub r) ≅ handle hub r.
Proof.
  intros st. destruct r; cbn [handle_async handle]; rewrite (run_map _ _ st); unfold io_bind.
  - by rewrite (run_connect _ _ _ _ st).
  - by rewrite (run_subscribe _ _ _ _ _ st).
  - by rewrite (run_unsubscribe _ _ _ _ st).
  - by rewrite (run_publish _ _ _ _ st).
Qed.
End handlers.
