(* ===== verification/Race.v ===== *)
(** * What interruptions do to the hub

    Handlers of cherenkov-core/src/hub.rs await their components, and other tasks run
    meanwhile.  While their sessions stay registered, any number of interrupted
    handlers keeps the hub's invariant; a kick in the middle of a subscribe does not. *)
From S2P Require Import Prelude Protocol Traits MemoryBroker Session Hub HubInv HubReach HubSteps.
From S2P Require Import HubProps Outbox Node Async.

Section race.
Context {W Str : Type} `{NO : Notifier} `{M : Mpsc}.
Implicit Types (c : @HubCore Str _) (st : @HubSt W Str _ M) (hub : @Hub W Str).

Definition anything (outs : gmap N MChan) : Prop := True.

Lemma calm_subscribe_any sid ptr o hub sid' rid ch since :
  calm (bound_with sid ptr o anything)
    (handle_subscribe hub sid' rid ch since : io (@HubSt W Str _ M) _ _).
Proof.
  assert (∀ k p n, calm (bound_with sid ptr o anything)
            (replay k sid' p ch n : io (@HubSt W Str _ M) _ _)) as Hreplay.
  { intros k p n st [Hb _]. pose proof (keeps_replay (bound sid ptr o) k sid' p ch n st Hb) as H.
    by destruct (replay k sid' p ch n st) as [[|] st']. }
  unfold handle_subscribe.
  apply calm_bind; [apply calm_get|]. intros p.
  apply calm_bind; [apply calm_require_claims|]. intros cl.
  apply calm_bind; [apply calm_enforce_acl|]. intros _.
  apply calm_bind; [apply calm_read|]. intros [|]; [apply calm_fail|].
  apply calm_bind; [apply calm_on_world|]. intros cursor.
  apply calm_bind; [apply calm_try, calm_on_world|]. intros [stream|err]; [|calm_auto].
  apply calm_bind; [apply calm_read|]. intros o'.
  apply calm_bind; [apply calm_try, Hreplay|]. intros [[]|err]; [|calm_auto].
  fold (commit_subscription (M:=M) hub sid' rid p ch (kind_for hub ch) cursor stream o').
  apply calm_commit.
Qed.

Lemma calm_bound {A} sid ptr o (m : io (@HubSt W Str _ M) HubError A) st :
  calm (bound_with sid ptr o anything) m → bound sid ptr o st.(core) →
  bound sid ptr o (m st).2.(core).
Proof.
  intros H Hb. specialize (H st (conj Hb Logic.I)). by destruct (m st) as [[|] st']; apply H.
Qed.

Lemma drop_arc_heap hub p st q s :
  (drop_arc hub p st).(core).(heap) !! q = Some s → st.(core).(heap) !! q = Some s.
Proof.
  unfold drop_arc. destruct (referenced _ _); [done|]. destruct (abort_all _) as [handles s'].
  simpl. rewrite lookup_delete_Some, abort_tasks_core. by intros [_ ?].
Qed.

Lemma drop_arc_registry hub p st : (drop_arc hub p st).(core).(registry) = st.(core).(registry).
Proof.
  unfold drop_arc. destruct (referenced _ _); [done|]. destruct (abort_all _) as [handles s'].
  simpl. by rewrite abort_tasks_core.
Qed.

(** Dropping references keeps the outbox of whoever is still there. *)
Lemma outbox_drop_arc hub p st sid ptr o :
  core_inv (drop_arc hub p st).(core) → (drop_arc hub p st).(core).(registry).(sessions) !! sid = Some ptr →
  (deref st.(core) ptr).(outbox) = o → bound sid ptr o (drop_arc hub p st).(core).
Proof.
  intros Hinv Hs Ho. split; [done|].
  destruct (core_inv_deref _ _ _ Hinv Hs) as [Hp _]. apply drop_arc_heap in Hp.
  rewrite <- Ho. unfold deref at 2. by rewrite Hp.
Qed.

Lemma bound_step hub st st' sid ptr o :
  core_inv st.(core) → bound sid ptr o st.(core) → hub_step hub st st' →
  has_session sid ptr st'.(core) → bound sid ptr o st'.(core).
Proof.
  intros Hinv Hb Hstep Hs. pose proof (core_inv_step _ _ _ Hinv Hstep) as Hinv'.
  destruct Hb as [Hg Ho]. assert (bound sid ptr o st.(core)) as Hb by done.
  destruct Hstep as [o'| | | | |sid'|sid'|p|task|outs w].
  - split; [done|]. destruct (core_inv_deref _ _ _ Hinv Hg) as [Hp Hid].
    destruct Hinv as (Hwf & _). destruct (cw_fresh _ _ Hwf ptr sid) as [Hlt _].
    { unfold id_at. by rewrite Hp, <- Hid. }
    rewrite <- Ho. unfold open_session, deref. simpl. by rewrite lookup_insert_ne by lia.
  - apply calm_bound; [apply calm_handle_connect|done].
  - apply calm_bound; [apply calm_subscribe_any|done].
  - apply calm_bound; [apply calm_handle_unsubscribe|done].
  - apply calm_bound; [apply calm_handle_publish|done].
  - unfold close_session, has_session in *. destruct (deregister _ _) as [[p|] reg]; [|done].
    by apply outbox_drop_arc.
  - unfold kick_session, has_session in *. destruct (get _ sid') as [p|] eqn:Hp; [|done].
    destruct (deregister _ _) as [[p'|] reg]; simpl in *.
    + apply outbox_drop_arc; [done..|]. rewrite <- Ho. unfold deref. simpl.
      destruct (decide (p = ptr)) as [->|]; [by rewrite lookup_insert_eq|by rewrite lookup_insert_ne].
    + split; [done|]. rewrite <- Ho. unfold deref. simpl.
      destruct (decide (p = ptr)) as [->|]; [by rewrite lookup_insert_eq|by rewrite lookup_insert_ne].
  - by apply outbox_drop_arc.
  - unfold forward in *. destruct (tasks _ !! task) as [tk|]; [|done].
    destruct (stream_next _ _ _) as [[|[pb|]] w]; [done| |].
    + pose proof (outbox_send_core tk.(t_outbox) (SF_Publication pb)
        (mk_HubSt st.(core) st.(outboxes) w)) as Hc.
      destruct (outbox_send _ _ _) as [[] st1]; simpl in Hc; unfold bound;
        rewrite ?end_task_core, ?Hc; done.
    + unfold bound. by rewrite end_task_core.
  - done.
Qed.

(** ** Several handlers at once *)

(** The sessions the suspended handlers run for, with their allocations and outboxes. *)
Definition all_bound (L : list (N * N * N)) (c : @HubCore Str _) : Prop :=
  ∀ sid ptr o, (sid, ptr, o) ∈ L → bound sid ptr o c.
Definition together (L : list (N * N * N)) (c : @HubCore Str _) : Prop :=
  core_inv c ∧ all_bound L c.
Abbreviation all_well L := (λ st : @HubSt W Str _ M, together L st.(core)).

(** Whatever else the hub does that leaves these sessions registered. *)
Definition hub_other hub (L : list (N * N * N)) st st' : Prop :=
  hub_step hub st st' ∧ ∀ sid ptr o, (sid, ptr, o) ∈ L → has_session sid ptr st'.(core).

Lemma together_other hub L st st' :
  together L st.(core) → hub_other hub L st st' → together L st'.(core).
Proof.
  intros [Hinv Hb] [Hstep Hs]. split; [by eapply core_inv_step|].
  intros sid ptr o Hin. eapply bound_step; eauto.
Qed.

Lemma keeps_together {A} L (m : io (@HubSt W Str _ M) HubError A) :
  (∀ st, together L st.(core) → core_inv (m st).2.(core)) →
  (∀ sid ptr o, calm (bound_with sid ptr o anything) m) → keeps (together L) m.
Proof.
  intros Hi Hc st HP.
  assert (together L (m st).2.(core)) as H.
  { split; [auto|]. intros sid ptr o Hin. apply calm_bound; [done|]. by apply HP. }
  by destruct (m st) as [[x|e] st'].
Qed.

(** A segment that only needs its session, looked up by it. *)
Lemma keeps_together_post {A} L (Q : A → Prop) (m : io (@HubSt W Str _ M) HubError A) :
  keeps (together L) m → (∀ st a st', together L st.(core) → m st = (Ok a, st') → Q a) →
  triple (all_well L) m (λ a st, together L st.(core) ∧ Q a) (λ _, all_well L).
Proof.
  intros Hk HQ st HP. specialize (Hk st HP). destruct (m st) as [[a|e] st'] eqn:E; eauto.
Qed.

Lemma get_session_bound sid ptr o st p st' :
  bound sid ptr o st.(core) → get_session sid st = (Ok p, st') → p = ptr ∧ st' = st.
Proof. intros [Hg _]. rewrite (get_session_eq _ _ _ Hg). by intros [= <- <-]. Qed.

(** *** Subscribe *)

Lemma keeps_unwind P hub ch : keeps P (unwind hub ch).
Proof. apply keeps_try, keeps_on_world. Qed.

Lemma safe_fail L hub ch stream err : safe (all_well L) (fail_async hub ch stream err).
Proof.
  apply safe_await; [apply keeps_unwind|]. intros _.
  apply safe_await; [apply keeps_drop_stream|]. done.
Qed.

Lemma safe_replay L hub sid o ch since stream fin :
  safe (all_well L) fin → safe (all_well L) (replay_async hub sid o ch since stream fin).
Proof.
  intros Hfin. unfold replay_async. case_decide; [|done].
  apply safe_await; [apply keeps_try, keeps_on_world|]. intros [ps|err]; [|apply safe_fail].
  induction ps as [|p ps IH]; simpl; [done|]. apply (safe_await _ (send_one o (SF_Publication p))).
  - intros st HP. unfold send_one. pose proof (outbox_send_core o (SF_Publication p) st) as Hc.
    destruct (outbox_send _ _ _) as [b st']. simpl in *. by rewrite Hc.
  - intros [|]; [exact IH|apply safe_fail].
Qed.

(** The last segment decides again whether the slot is free. *)

Lemma commit_segment_free hub sid rid ptr ch cursor stream o st :
  (deref st.(core) ptr).(subscriptions) !! ch = None →
  commit_segment hub sid rid ptr ch cursor stream o st
  = (Ok (Some (mk_SubscribeOk rid ch cursor.(epoch) cursor.(offset))),
     (commit_subscription hub sid rid ptr ch (kind_for hub ch) cursor stream o st).2).
Proof.
  intros Hnone. rewrite commit_subscription_run by done.
  unfold commit_segment, io_bind, modify_session, spawn. simpl.
  change (deref (set_core _ st).(core) ptr) with (deref st.(core) ptr).
  unfold deref in *. simpl. unfold insert_subscription. by rewrite Hnone.
Qed.

(** A forwarder that was spawned and aborted leaves a gap in the numbering. *)
Lemma core_inv_skip_task c n :
  core_inv c → core_inv (mk_HubCore c.(registry) c.(heap) c.(next_ptr) c.(held) c.(tasks)
                           (c.(next_task) + n) c.(metrics)).
Proof.
  intros ([Hs Hl Hh Hf Hi Hn He Ht Hb Hj Hu] & [] & Hacc). split; [|by split].
  split; simpl; try done. intros p ch t H%Hb. lia.
Qed.

Lemma commit_segment_taken hub sid rid ptr ch cursor stream o st t :
  (deref st.(core) ptr).(subscriptions) !! ch = Some t →
  commit_segment hub sid rid ptr ch cursor stream o st
  = (Ok None, end_task hub st.(core).(next_task)
       (set_core (store ptr (deref st.(core) ptr) (spawn (mk_Task stream o ch) st).2.(core)) st)).
Proof.
  intros Ht. unfold commit_segment, io_bind, modify_session, spawn. simpl.
  change (deref (set_core _ st).(core) ptr) with (deref st.(core) ptr).
  unfold deref in *. simpl. unfold insert_subscription. rewrite Ht. done.
Qed.

Lemma core_inv_commit_segment hub sid rid ptr ch cursor stream o st :
  core_inv st.(core) → bound sid ptr o st.(core) →
  core_inv (commit_segment hub sid rid ptr ch cursor stream o st).2.(core).
Proof.
  intros Hinv [Hs Ho]. destruct ((deref st.(core) ptr).(subscriptions) !! ch) as [t|] eqn:Ht.
  - erewrite commit_segment_taken by done. simpl. rewrite end_task_core. simpl.
    pose proof (core_inv_skip_task _ 1 (core_inv_store_same _ _ _ _ Hinv Hs eq_refl eq_refl eq_refl))
      as Hskip.
    apply (core_inv_tasks _ (delete st.(core).(next_task) st.(core).(tasks))) in Hskip;
      [|apply delete_subseteq].
    unfold set_tasks, store, set_heap in *. simpl in *. rewrite delete_insert_eq. exact Hskip.
  - rewrite commit_segment_free, commit_subscription_run by done. simpl. rewrite <- Ho.
    by apply core_inv_commit.
Qed.

Lemma calm_commit_segment s p o' hub sid rid ptr ch cursor stream o :
  calm (bound_with s p o' anything) (commit_segment hub sid rid ptr ch cursor stream o).
Proof.
  apply calm_bind; [apply calm_spawn|]. intros t.
  apply calm_bind; [apply calm_modify_session, outbox_insert_subscription|]. intros [[]|stray].
  - apply calm_bind; [by apply calm_index|]. intros. apply calm_ret.
  - apply calm_bind; [apply calm_end_task|]. intros. apply calm_ret.
Qed.

Lemma safe_commit L hub sid rid ptr ch cursor stream o :
  (sid, ptr, o) ∈ L → safe (all_well L) (commit_async hub sid rid ptr ch cursor stream o).
Proof.
  intros Hin. apply safe_await.
  - apply keeps_together; [|intros; apply calm_commit_segment].
    intros st [Hinv Hb]. apply core_inv_commit_segment; [done|by apply Hb].
  - intros [ok|]; [done|]. apply safe_await; [apply keeps_unwind|done].
Qed.

Lemma start_together L hub sid ptr o :
  (sid, ptr, o) ∈ L →
  triple (all_well L) (start hub sid) (λ a st, together L st.(core) ∧ a.1 = ptr) (λ _, all_well L).
Proof.
  intros Hin. apply keeps_together_post.
  - apply keeps_together.
    + intros st [Hinv _]. apply keeps_run; [|done]. apply keeps_with_session. intros p.
      apply session_inv_weaken. keeps_auto.
    + intros *. unfold start. calm_auto.
  - intros st a st' [_ Hb] H. unfold start in H. io_step H.
    apply (get_session_bound _ _ _ _ _ _ (Hb _ _ _ Hin)) in Hio as [-> ->].
    io_step H. by injection H as <- <-.
Qed.

Lemma safe_subscribe L hub sid rid ptr o ch since :
  (sid, ptr, o) ∈ L → safe (all_well L) (subscribe_async hub sid rid ch since).
Proof.
  intros Hin. eapply safe_await_post; [by eapply start_together|].
  intros [p cl] Hp. simpl in Hp. subst p.
  apply safe_await; [apply keeps_enforce_acl|]. intros _.
  apply safe_await; [apply keeps_bind; [apply keeps_read|]; intros [|]; keeps_auto|]. intros _.
  apply safe_await; [apply keeps_on_world|]. intros cursor.
  apply safe_await; [apply keeps_try, keeps_on_world|]. intros [stream|err].
  2:{ apply safe_await; [apply keeps_unwind|done]. }
  intros st HP. simpl. split; [done|].
  rewrite (proj2 (proj2 HP _ _ _ Hin)). by apply safe_replay, safe_commit.
Qed.

(** *** The other handlers *)

Lemma safe_publish L hub sid ptr o ch data :
  (sid, ptr, o) ∈ L → safe (all_well L) (publish_async hub sid ch data).
Proof.
  intros Hin. eapply safe_await_post; [by eapply start_together|].
  intros [p cl] _.
  apply safe_await; [apply keeps_enforce_acl|]. intros _.
  apply safe_await; [apply keeps_on_world|]. intros _.
  apply safe_await; [apply keeps_on_world|]. intros publication.
  apply safe_await; [apply keeps_on_world|]. intros _.
  apply safe_await; [|done]. apply keeps_together; [|intros; apply calm_count].
  intros st [Hinv _]. by apply core_inv_metrics.
Qed.

Lemma safe_connect L hub sid rid ptr o token :
  (sid, ptr, o) ∈ L → safe (all_well L) (connect_async hub sid rid token).
Proof.
  intros Hin. eapply (safe_await_post _ (λ p, p = ptr)).
  - apply keeps_together_post.
    + apply keeps_together.
      * intros st [Hinv _]. apply keeps_run; [|done]. apply keeps_with_session. intros p.
        apply session_inv_weaken. keeps_auto.
      * intros *. calm_auto.
    + intros st a st' [_ Hb] H. io_step H.
      apply (get_session_bound _ _ _ _ _ _ (Hb _ _ _ Hin)) in Hio as [-> ->].
      io_step H. apply read_session_Ok in Hio as [-> ->]. revert H.
      destruct (_ && _); [done|]. by intros [= -> _].
  - intros p ->. apply safe_await; [apply keeps_on_world|]. intros cl.
    apply safe_await; [|done]. apply keeps_together.
    + intros st [Hinv Hb]. apply (keeps_run (session_inv sid ptr)); [apply keeps_set_claims|].
      split; [done|]. by apply (Hb _ _ _ Hin).
    + intros *. apply calm_modify_session, outbox_set_claims.
Qed.

Lemma remove_segment_core hub sid rid ch st :
  (remove_segment hub sid ch st).2.(core) = (handle_unsubscribe hub sid rid ch st).2.(core).
Proof.
  rewrite <- (run_unsubscribe hub sid rid ch st). unfold unsubscribe_async. cbn [run].
  unfold io_bind at 1. destruct (remove_segment hub sid ch st) as [[[]|e] st']; [|done].
  unfold io_bind. pose proof (keeps_run (λ c, c = st'.(core)) _ st'
    (keeps_on_world _ EChannel (on_unsubscribe (kind_for hub ch) ch)) eq_refl) as H.
  by destruct (on_world _ _ st') as [[[]|e] st''].
Qed.

Lemma safe_unsubscribe L hub sid rid ch :
  safe (all_well L) (unsubscribe_async hub sid rid ch).
Proof.
  apply safe_await; [|intros _; apply safe_await; [apply keeps_on_world|done]].
  apply keeps_together.
  - intros st [Hinv _]. rewrite (remove_segment_core hub sid rid ch).
    by apply keeps_run; [apply keeps_handle_unsubscribe|].
  - intros *. unfold remove_segment. calm_auto.
Qed.

Lemma safe_handle L hub r :
  (∃ ptr o, (requester r, ptr, o) ∈ L) → safe (all_well L) (handle_async hub r).
Proof.
  destruct r; intros (ptr & o & Hin); apply safe_map; eauto using safe_connect, safe_subscribe,
    safe_unsubscribe, safe_publish.
Qed.

(** C12: any number of handlers, of the same session and channel or of others, each
    suspended at any of its awaits while the others, the forwarders and the
    components run: as long as the sessions they run for stay registered the hub's
    state stays consistent (the reverse index lists exactly the subscribed sessions,
    every forwarder has its subscription, the counters add up), and so it is after
    the next turn of any of them. *)
Theorem concurrent_handlers_keep_invariant hub (L : list (N * N * N)) (requests : list Request)
    st pool st'
    (Hinv : core_inv st.(core)) (Hb : all_bound L st.(core))
    (Hreq : Forall (λ r, ∃ ptr o, (requester r, ptr, o) ∈ L) requests)
    (Hrun : rtc (pool_step (hub_other hub L)) (handle_async hub <$> requests, st) (pool, st')) :
  core_inv st'.(core) ∧ ∀ i a, pool !! i = Some a → core_inv (turn a st').2.(core).
Proof.
  apply (pool_inv_run _ (all_well L)) in Hrun as [Hpool HP];
    [|by intros; eapply together_other|].
  - split; [apply HP|]. intros i a Ha. apply Forall_lookup_1 with (1 := Hpool) in Ha.
    by apply (safe_turn _ a st' Ha HP).
  - split; [|done]. apply Forall_fmap. eapply Forall_impl; [exact Hreq|].
    intros r Hr. by apply safe_handle.
Qed.

(** ** What a kick in between does *)

Lemma kick_run hub sid ptr st :
  get st.(core).(registry) sid = Some ptr → ptr ∈ st.(core).(held) →
  kick_session hub sid st
  = (true, set_core (count_kicked
       (set_registry (deregister sid st.(core).(registry)).2
          (store ptr (signal_shutdown (deref st.(core) ptr)) st.(core)))) st).
Proof.
  intros Hs Hheld. unfold kick_session. rewrite Hs. cbn [registry store set_heap].
  destruct (deregister_Some _ _ _ Hs) as (-> & _). simpl. by rewrite drop_arc_held.
Qed.

(** A kick, then the last segment of a subscribe that was waiting, then the
    connection lets go (Index.v). *)
Lemma kick_then_commit hub sid ptr rid ch cursor stream o st :
  get st.(core).(registry) sid = Some ptr → (deref st.(core) ptr).(id) = sid →
  ptr ∈ st.(core).(held) → (deref st.(core) ptr).(subscriptions) !! ch = None →
  ∃ st2, commit_segment hub sid rid ptr ch cursor stream o (kick_session hub sid st).2
         = (Ok (Some (mk_SubscribeOk rid ch cursor.(epoch) cursor.(offset))), st2) ∧
    ptr ∈ st2.(core).(held) ∧ (deref st2.(core) ptr).(id) = sid ∧
    st2.(core).(metrics).(sessions_opened_total) = st.(core).(metrics).(sessions_opened_total) ∧
    get st2.(core).(registry) sid = None ∧ sid ∈ subscribers_of st2.(core).(registry) ch ∧
    st2.(core).(tasks) !! st.(core).(next_task) = Some (mk_Task stream o ch) ∧
    (deref st2.(core) ptr).(subscriptions) !! ch = Some st.(core).(next_task).
Proof.
  intros Hs Hid Hheld Hfree. rewrite (kick_run _ _ _ _ Hs Hheld). simpl.
  set (st1 := set_core _ st).
  assert (deref st1.(core) ptr = signal_shutdown (deref st.(core) ptr)) as Hd
    by (unfold deref; simpl; by rewrite lookup_insert_eq).
  rewrite commit_segment_free, commit_subscription_run by (by rewrite Hd).
  set (st2 := set_core _ st1).
  assert (deref st2.(core) ptr = set_subscriptions (signal_shutdown (deref st.(core) ptr))
    (<[ch := st.(core).(next_task)]> (deref st.(core) ptr).(subscriptions))) as Hd2
    by (transitivity (set_subscriptions (deref st1.(core) ptr)
          (<[ch := st1.(core).(next_task)]> (deref st1.(core) ptr).(subscriptions)));
        [unfold deref at 1; simpl; by rewrite lookup_insert_eq|by rewrite Hd]).
  exists st2. split; [done|]. rewrite Hd2.
  split; [done|]. split; [done|]. split; [done|]. split; [|split; [|split]]; simpl.
  - unfold get. simpl. destruct (deregister_Some _ _ _ Hs) as (_ & -> & _).
    by rewrite lookup_delete_eq.
  - rewrite subscribers_of_add, decide_True by done. set_solver.
  - by rewrite lookup_insert_eq.
  - by rewrite lookup_insert_eq.
Qed.

(** The connection of a session that is not registered lets go. *)
Lemma release_gone hub sid ptr ch t st :
  (deref st.(core) ptr).(id) = sid → get st.(core).(registry) sid = None →
  (deref st.(core) ptr).(subscriptions) !! ch = Some t →
  let st' := release hub ptr st in
  st'.(core).(registry) = st.(core).(registry) ∧ st'.(core).(heap) !! ptr = None ∧
  st'.(core).(tasks) !! t = None.
Proof.
  intros Hid Hgone Hsub. unfold release. set (st0 := set_core _ st).
  destruct (drop_arc_last hub ptr st0) as [Hheap Htasks].
  - simpl. set_solver.
  - change (deref st0.(core) ptr) with (deref st.(core) ptr). rewrite Hid.
    unfold get in Hgone. simpl. by rewrite Hgone.
  - split; [by rewrite drop_arc_registry|]. split; [by rewrite Hheap, lookup_delete_eq|].
    rewrite Htasks, decide_True; [done|]. by eapply elem_of_abort_all.
Qed.
End race.

(** ** Witnesses *)

Section witnesses.
#[local] Existing Instances QueueBroadcast CountNotifier QueueMpsc.

Definition two_requests : list Request :=
  [RSubscribe 0 1 "rooms.lobby" 0; RPublish 0 "rooms.lobby" [x01]].

Lemma concurrent_handlers_keep_invariant_witness :
  core_inv (turn (handle_async open_node (RSubscribe 0 1 "rooms.lobby" 0))
              (sample_open open_node)).2.(core).
Proof.
  destruct (concurrent_handlers_keep_invariant open_node [(0%N, 0%N, 0%N)] two_requests
    (sample_open open_node) (handle_async open_node <$> two_requests) (sample_open open_node))
    as [_ H].
  - apply (core_inv_reachable open_node), reachable_sample_open.
  - intros sid ptr o H%list_elem_of_singleton. simplify_eq. split; vm_compute; reflexivity.
  - repeat constructor; exists 0%N, 0%N; set_solver.
  - apply rtc_refl.
  - exact (H 0 _ eq_refl).
Defined.

End witnesses.
