(* ===== verification/Service.v ===== *)
(** * The hub as an abstract service

    What the hub promises its clients, without registry, heap, forwarders or
    awaits: members with their claims and channels, and requests that each take
    effect on their member in one indivisible step between the moment they are
    made and the moment they are answered.  Linear.v shows that the handlers of
    cherenkov-core/src/hub.rs, interrupted at every await, refine it. *)
From S2P Require Import Prelude Protocol Traits Session Hub Async.

(** The states of the components' memory that count: those of a given run. *)
Class During (W : Type) : Type := during : W → Prop.

Section service.
Context {W Str : Type} `{NO : Notifier} `{D : During W}.
Implicit Types (hub : @Hub W Str).

(** ** Members *)

(** A session as its client knows it; [m_present] until it is closed or kicked. *)
Record Peer : Type := mk_Peer {
  m_id : N;
  m_present : bool;
  m_claims : option SessionClaims;
  m_channels : gset string;
}.

Definition grant (cl : SessionClaims) (m : Peer) : Peer :=
  mk_Peer m.(m_id) m.(m_present) (Some cl) m.(m_channels).
Definition join (ch : string) (m : Peer) : Peer :=
  mk_Peer m.(m_id) m.(m_present) m.(m_claims) ({[ch]} ∪ m.(m_channels)).
Definition leave (ch : string) (m : Peer) : Peer :=
  mk_Peer m.(m_id) m.(m_present) m.(m_claims) (m.(m_channels) ∖ {[ch]}).
Definition dismiss (m : Peer) : Peer :=
  mk_Peer m.(m_id) false m.(m_claims) m.(m_channels).

(** Members by the handle the transports have of them. *)
Abbreviation Service := (gmap N Peer).

(** ** What a request may do *)

(** The component's answer at a moment of the run. *)
Definition said {E A} (m : io W E A) (v : result E A) : Prop :=
  ∃ w w', during w ∧ m w = (v, w').

Definition cleared hub (cl : SessionClaims) (action : AclAction) (ch : string) : Prop :=
  said (check hub.(acl) cl action ch) (Ok Allow).

(** What a request asks the ACL. *)
Definition asks (r : Request) : option (AclAction * string) :=
  match r with
  | RSubscribe _ _ ch _ => Some (ActSubscribe, ch)
  | RPublish _ ch _ => Some (ActPublish, ch)
  | _ => None
  end.

(** How the ACL's answer fails a request. *)
Inductive denied_with hub (cl : SessionClaims) (action : AclAction) (ch : string) : HubError → Prop :=
| denied_by_policy : said (check hub.(acl) cl action ch) (Ok Deny) →
    denied_with hub cl action ch
      (EAcl (Denied cl.(subject) (acl_action_as_str action) ch "policy denied"))
| denied_by_failure e : said (check hub.(acl) cl action ch) (Err e) →
    denied_with hub cl action ch (EAcl e).

(** The failures of a subscribe the ACL allowed. *)
Inductive subscribe_fails hub (sid : N) (ch : string) (since : N) : HubError → Prop :=
| fails_cursor e : said (on_subscribe (kind_for hub ch) ch) (Err e) →
    subscribe_fails hub sid ch since (EChannel e)
| fails_stream e : said (broker_subscribe hub.(broker) ch) (Err e) →
    subscribe_fails hub sid ch since (EBroker e)
| fails_history e : (0 < since)%N → said (replay_since (kind_for hub ch) ch since) (Err e) →
    subscribe_fails hub sid ch since (EChannel e)
| fails_outbox p ps : (0 < since)%N →
    said (replay_since (kind_for hub ch) ch since) (Ok ps) → p ∈ ps →
    subscribe_fails hub sid ch since (SessionGone sid).

Inductive publish_fails hub (ch : string) (data : Bytes) : HubError → Prop :=
| fails_schema e : said (validate hub.(validator) ch data) (Err e) →
    publish_fails hub ch data (ESchema e)
| fails_kind e : said (validate hub.(validator) ch data) (Ok ()) →
    said (on_publish (kind_for hub ch) ch data) (Err e) →
    publish_fails hub ch data (EChannel e)
| fails_broker p e : said (validate hub.(validator) ch data) (Ok ()) →
    said (on_publish (kind_for hub ch) ch data) (Ok p) →
    said (broker_publish hub.(broker) ch p) (Err e) →
    publish_fails hub ch data (EBroker e).

(** [serves hub seen m r answers m']: request [r], whose member had the claims
    [seen] when it was looked up, turns [m] into [m'] and may then be given any of
    the [answers]. *)
Inductive serves hub (seen : option SessionClaims) (m : Peer) :
    Request → (result HubError Answer → Prop) → Peer → Prop :=
| serves_already s rid token :
    is_Some seen → allow_anonymous hub.(authenticator) = false →
    serves hub seen m (RConnect s rid token) (eq (Err (AlreadyConnected s))) m
| serves_refused s rid token e :
    said (authenticate hub.(authenticator) token) (Err e) →
    serves hub seen m (RConnect s rid token) (eq (Err (EAuth e))) m
| serves_connect s rid token cl :
    m.(m_claims) = None ∨ allow_anonymous hub.(authenticator) = true →
    said (authenticate hub.(authenticator) token) (Ok cl) →
    serves hub seen m (RConnect s rid token)
      (eq (Ok (AConnect (mk_ConnectOk rid cl.(subject) cl.(expires_at))))) (grant cl m)
| serves_stranger r :
    is_Some (asks r) → seen = None → allow_anonymous hub.(authenticator) = false →
    serves hub seen m r (eq (Err (NotConnected m.(m_id)))) m
| serves_denied r action ch cl e :
    asks r = Some (action, ch) → seen = Some cl → denied_with hub cl action ch e →
    serves hub seen m r (eq (Err e)) m
| serves_taken s rid ch since cl :
    seen = Some cl → cleared hub cl ActSubscribe ch → ch ∈ m.(m_channels) →
    serves hub seen m (RSubscribe s rid ch since) (eq (Err (AlreadySubscribed s ch))) m
| serves_subscribe_fails s rid ch since cl e :
    seen = Some cl → cleared hub cl ActSubscribe ch → subscribe_fails hub s ch since e →
    serves hub seen m (RSubscribe s rid ch since) (eq (Err e)) m
| serves_subscribe s rid ch since cl cursor stream :
    seen = Some cl → cleared hub cl ActSubscribe ch → ch ∉ m.(m_channels) →
    said (on_subscribe (kind_for hub ch) ch) (Ok cursor) →
    said (broker_subscribe hub.(broker) ch) (Ok stream) →
    serves hub seen m (RSubscribe s rid ch since)
      (eq (Ok (ASubscribe (mk_SubscribeOk rid ch cursor.(epoch) cursor.(offset))))) (join ch m)
| serves_absent s rid ch : ch ∉ m.(m_channels) →
    serves hub seen m (RUnsubscribe s rid ch) (eq (Err (NotSubscribed s ch))) m
| serves_unsubscribe s rid ch : ch ∈ m.(m_channels) →
    serves hub seen m (RUnsubscribe s rid ch)
      (λ a, (said (on_unsubscribe (kind_for hub ch) ch) (Ok ()) ∧
             a = Ok (AUnsubscribe (mk_UnsubscribeOk rid ch))) ∨
            ∃ e, said (on_unsubscribe (kind_for hub ch) ch) (Err e) ∧ a = Err (EChannel e))
      (leave ch m)
| serves_publish_fails s ch data cl e :
    seen = Some cl → cleared hub cl ActPublish ch → publish_fails hub ch data e →
    serves hub seen m (RPublish s ch data) (eq (Err e)) m
| serves_publish s ch data cl p :
    seen = Some cl → cleared hub cl ActPublish ch →
    said (validate hub.(validator) ch data) (Ok ()) →
    said (on_publish (kind_for hub ch) ch data) (Ok p) →
    said (broker_publish hub.(broker) ch p) (Ok ()) →
    serves hub seen m (RPublish s ch data) (eq (Ok (APublish p))) m.

(** ** Calls *)

(** The life of a request: made, bound to its member, settled (its effect has
    taken place), answered. *)
Inductive Call : Type :=
| Waiting (r : Request)
| Bound (r : Request) (ptr : N) (seen : option SessionClaims)
| Settled (r : Request) (answers : result HubError Answer → Prop)
| Answered (r : Request) (a : result HubError Answer).

Definition call_request (x : Call) : Request :=
  match x with Waiting r | Bound r _ _ | Settled r _ | Answered r _ => r end.

(** What a call does by itself. *)
Inductive call_step hub : Call * Service → Call * Service → Prop :=
| call_gone r S :
    (∀ p m, S !! p = Some m → m.(m_present) = true → m.(m_id) ≠ requester r) →
    call_step hub (Waiting r, S) (Settled r (eq (Err (SessionGone (requester r)))), S)
| call_bind r S p m :
    S !! p = Some m → m.(m_id) = requester r → m.(m_present) = true →
    call_step hub (Waiting r, S) (Bound r p m.(m_claims), S)
| call_serve r S p seen m A m' :
    S !! p = Some m → m.(m_id) = requester r → serves hub seen m r A m' →
    call_step hub (Bound r p seen, S) (Settled r A, <[p := m']> S).

(** ** The service *)

(** What clients see of the calls; calls are numbered in the order they are made. *)
Inductive Observed : Type :=
| Invoked (r : Request)
| Returned (i : nat) (a : result HubError Answer).

Record SpecSt : Type := mk_SpecSt {
  s_history : list Observed;
  s_calls : list Call;
  s_service : Service;
}.

Inductive service_step hub : SpecSt → SpecSt → Prop :=
| spec_invoke h xs S r :
    service_step hub (mk_SpecSt h xs S) (mk_SpecSt (h ++ [Invoked r]) (xs ++ [Waiting r]) S)
| spec_call h xs S i x x' S' :
    xs !! i = Some x → call_step hub (x, S) (x', S') →
    service_step hub (mk_SpecSt h xs S) (mk_SpecSt h (<[i := x']> xs) S')
| spec_return h xs S i r (A : result HubError Answer → Prop) a :
    xs !! i = Some (Settled r A) → A a →
    service_step hub (mk_SpecSt h xs S)
      (mk_SpecSt (h ++ [Returned i a]) (<[i := Answered r a]> xs) S)
| spec_open h xs S p sid cl :
    S !! p = None → (∀ q m, S !! q = Some m → m.(m_id) ≠ sid) →
    cl = (if allow_anonymous hub.(authenticator) then Some anonymous else None) →
    service_step hub (mk_SpecSt h xs S) (mk_SpecSt h xs (<[p := mk_Peer sid true cl ∅]> S))
| spec_dismiss h xs S p m :
    S !! p = Some m → m.(m_present) = true →
    service_step hub (mk_SpecSt h xs S) (mk_SpecSt h xs (<[p := dismiss m]> S))
| spec_forget h xs S p m :
    S !! p = Some m → m.(m_present) = false →
    service_step hub (mk_SpecSt h xs S) (mk_SpecSt h xs (delete p S)).

Definition service_init : SpecSt := mk_SpecSt [] [] ∅.

(** ** What a call may rely on *)

(** Two connects of one session: each checks that the other has not been there and
    then waits for the authenticator. *)
Definition competing (r r' : Request) : bool :=
  match r, r' with
  | RConnect s _ _, RConnect s' _ _ => bool_decide (s = s')
  | _, _ => false
  end.

Definition is_connect (r : Request) : bool :=
  match r with RConnect _ _ _ => true | _ => false end.

(** A bound call has its member, and a connect that found no claims will find none. *)
Definition relies hub (S : Service) (x : Call) : Prop :=
  match x with
  | Bound r p seen => ∃ m, S !! p = Some m ∧ m.(m_id) = requester r ∧
      (is_connect r = true → seen = None → allow_anonymous hub.(authenticator) = false →
       m.(m_claims) = None)
  | _ => True
  end.

Lemma serves_id hub seen m r A m' : serves hub seen m r A m' → m'.(m_id) = m.(m_id).
Proof. by destruct 1. Qed.

Lemma serves_claims hub seen m r A m' :
  serves hub seen m r A m' → is_connect r = false → m'.(m_claims) = m.(m_claims).
Proof. by destruct 1. Qed.

Lemma relies_insert hub S p m m' x :
  S !! p = Some m → m'.(m_id) = m.(m_id) → m'.(m_claims) = m.(m_claims) →
  relies hub S x → relies hub (<[p := m']> S) x.
Proof.
  intros Hp Hid Hcl. destruct x as [r|r q seen|r A|r a]; simpl; try done.
  intros (mq & Hq & Hr & Hc). destruct (decide (p = q)) as [->|Hne].
  - exists m'. rewrite lookup_insert_eq. simplify_eq. rewrite Hid, Hcl. done.
  - exists mq. by rewrite lookup_insert_ne.
Qed.

(** A call's own steps. *)
Lemma relies_own hub x S x' S' : call_step hub (x, S) (x', S') → relies hub S' x'.
Proof.
  inversion 1; subst; simpl; try done. eexists. split; [done|]. by split.
Qed.

(** The steps of another call, unless the two compete. *)
Lemma relies_other hub x S x' S' y :
  call_step hub (x, S) (x', S') → relies hub S x → competing (call_request x) (call_request y) = false →
  relies hub S y → relies hub S' y.
Proof.
  inversion 1 as [| |r S0 p seen m A m' Hp _ Hs]; subst; simpl; try done.
  intros (m0 & Hp0 & Hid & _) Hcomp Hy. simplify_eq.
  destruct (is_connect r) eqn:Hr.
  2:{ eapply relies_insert; eauto using serves_id, serves_claims. }
  destruct y as [r'|r' q seen'|r' A'|r' a']; simpl in *; try done.
  destruct Hy as (mq & Hq & Hr' & Hc). destruct (decide (p = q)) as [->|Hne].
  - simplify_eq. exists m'. rewrite lookup_insert_eq, (serves_id _ _ _ _ _ _ Hs). split; [done|].
    split; [done|]. intros Hcon. destruct r, r'; try done. simpl in *.
    apply bool_decide_eq_false in Hcomp. congruence.
  - exists mq. by rewrite lookup_insert_ne.
Qed.

Lemma relies_steps hub x S x' S' :
  rtc (call_step hub) (x, S) (x', S') → relies hub S x →
  relies hub S' x' ∧ call_request x' = call_request x ∧
  ∀ y, competing (call_request x) (call_request y) = false → relies hub S y → relies hub S' y.
Proof.
  intros H. remember (x, S) as a eqn:Ea. remember (x', S') as b eqn:Eb.
  revert x S x' S' Ea Eb. induction H as [a|a [x1 S1] b Hstep _ IH]; intros x S x' S' Ea Eb; simplify_eq.
  - done.
  - intros Hx. destruct (IH _ _ _ _ eq_refl eq_refl) as (H1 & H2 & H3).
    + by eapply relies_own.
    + assert (call_request x1 = call_request x) as Hr by by inversion Hstep.
      split; [done|]. split; [congruence|]. intros y Hy Hsy. apply H3; [by rewrite Hr|].
      by eapply relies_other.
Qed.

(** The steps of one call are steps of the service. *)
Lemma spec_calls hub h xs i x S x' S' :
  xs !! i = Some x → rtc (call_step hub) (x, S) (x', S') →
  rtc (service_step hub) (mk_SpecSt h xs S) (mk_SpecSt h (<[i := x']> xs) S').
Proof.
  intros Hi H. remember (x, S) as a eqn:Ea. remember (x', S') as b eqn:Eb.
  revert xs x S x' S' Ea Eb Hi. induction H as [a|a [x1 S1] b Hstep _ IH]; intros xs x S x' S' Ea Eb Hi; simplify_eq.
  - by rewrite list_insert_id.
  - eapply rtc_l; [by eapply spec_call|].
    specialize (IH (<[i:=x1]> xs) x1 S1 x' S' eq_refl eq_refl).
    rewrite list_insert_insert_eq in IH. apply IH. apply list_lookup_insert_eq. by eapply lookup_lt_Some.
Qed.

End service.
