(* ===== verification/Running.v ===== *)
(** * The hub with requests in flight

    Any number of requests run at once against the hub of
    cherenkov-core/src/hub.rs, one segment at a time in any order, while sessions
    are opened, closed and kicked and forwarders run.  Here is that machine, the
    members it has (Service.v) and the invariant of its handles; Linear.v has the
    refinement. *)
From S2P Require Import Prelude Protocol Traits Session Hub HubInv HubReach HubSteps.
From S2P Require Import Async Race Service.

Section running.
Context {W Str : Type} `{NO : Notifier} `{M : Mpsc}.
Implicit Types (c : @HubCore Str _) (st : @HubSt W Str _ M) (hub : @Hub W Str).
Abbreviation io' := (io (@HubSt W Str _ M) HubError).
Abbreviation async' := (async (@HubSt W Str _ M) HubError).

(** ** The running hub *)

Record Running : Type := mk_Running {
  history : list Observed;
  calls : list (Request * async' Answer);
  hub_state : @HubSt W Str _ M;
}.

Inductive Action : Type :=
| DoArrive (r : Request)
| DoTurn (i : nat)
| DoOpen (outbox : N)
| DoClose (sid : N)
| DoKick (sid : N)
| DoRelease (ptr : N)
| DoForward (task : N).

Definition suspended (a : async' Answer) : bool :=
  match a with Done _ => false | Await _ _ => true end.

(** The requests that wait for an answer. *)
Definition in_flight (cs : list (Request * async' Answer)) : list Request :=
  (filter (λ x, suspended x.2 = true) cs).*1.

(** A request comes from the transport that holds its session, which sends the
    connects of a session one after the other. *)
Definition may_arrive (R : Running) (r : Request) : bool :=
  forallb (λ r', negb (competing r r')) (in_flight R.(calls)) &&
  match get R.(hub_state).(core).(registry) (requester r) with
  | Some ptr => bool_decide (ptr ∈ R.(hub_state).(core).(held))
  | None => true
  end.

(** Nor does it let go of the session while a request of it is in flight. *)
Definition may_release (R : Running) (ptr : N) : bool :=
  bool_decide (ptr ∈ R.(hub_state).(core).(held)) &&
  forallb (λ r, bool_decide (requester r ≠ (deref R.(hub_state).(core) ptr).(id)))
    (in_flight R.(calls)).

Definition with_state (st : @HubSt W Str _ M) (R : Running) : Running :=
  mk_Running R.(history) R.(calls) st.

Definition answer_of (i : nat) (a : async' Answer) : list Observed :=
  match a with Done v => [Returned i v] | Await _ _ => [] end.

Definition perform hub (act : Action) (R : Running) : option Running :=
  let st := R.(hub_state) in
  match act with
  | DoArrive r =>
      if may_arrive R r
      then Some (mk_Running (R.(history) ++ [Invoked r]) (R.(calls) ++ [(r, handle_async hub r)]) st)
      else None
  | DoTurn i =>
      match R.(calls) !! i with
      | Some (r, a) =>
          if suspended a
          then let '(a, st) := turn a st in
               Some (mk_Running (R.(history) ++ answer_of i a) (<[i := (r, a)]> R.(calls)) st)
          else None
      | None => None
      end
  | DoOpen o =>
      if bool_decide (st.(core).(metrics).(sessions_opened_total) < u64_modulus)%N
      then Some (with_state (open_session hub o st).2 R) else None
  | DoClose sid => Some (with_state (close_session hub sid st) R)
  | DoKick sid => Some (with_state (kick_session hub sid st).2 R)
  | DoRelease ptr => if may_release R ptr then Some (with_state (release hub ptr st) R) else None
  | DoForward task => Some (with_state (forward hub task st) R)
  end.

Inductive running_step hub (R : Running) : Running → Prop :=
| run_action act R' : perform hub act R = Some R' → running_step hub R R'
| run_env outs w : running_step hub R (with_state (mk_HubSt R.(hub_state).(core) outs w) R).

Definition running_init (w : W) : Running := mk_Running [] [] (hub_init w).

(** Several actions; the first that is not possible ends the run. *)
Fixpoint run_actions hub (acts : list Action) (R : Running) : Running :=
  match acts with
  | [] => R
  | act :: acts =>
      match perform hub act R with Some R => run_actions hub acts R | None => R end
  end.

Lemma run_actions_steps hub acts R : rtc (running_step hub) R (run_actions hub acts R).
Proof.
  revert R. induction acts as [|act acts IH]; intros R; simpl; [apply rtc_refl|].
  destruct (perform hub act R) eqn:E; [|apply rtc_refl].
  eapply rtc_l; [by eapply run_action|apply IH].
Qed.

(** ** The sessions as members *)

Definition peer_of (ss : gmap N N) (ptr : N) (s : Session) : Peer :=
  mk_Peer s.(id) (bool_decide (ss !! s.(id) = Some ptr)) s.(claims) (dom s.(subscriptions)).

Definition service c : gmap N Peer :=
  map_imap (λ ptr s, Some (peer_of c.(registry).(sessions) ptr s)) c.(heap).

Lemma service_lookup c p :
  service c !! p = peer_of c.(registry).(sessions) p <$> c.(heap) !! p.
Proof. unfold service. rewrite map_lookup_imap. by destruct (heap c !! p). Qed.

Lemma service_lookup_Some c p m :
  service c !! p = Some m ↔
  ∃ s, c.(heap) !! p = Some s ∧ m = peer_of c.(registry).(sessions) p s.
Proof. rewrite service_lookup, fmap_Some. done. Qed.

(** ** Handles and sessions

    The invariant of HubInv.v is lost when a kick meets a subscribe (Race.v); what
    is left of it, which no interruption breaks.  [d] is a session that just lost a
    reference. *)

Record arcs_but hub (d : option N) c : Prop := {
  ao_sess sid p : c.(registry).(sessions) !! sid = Some p →
    ∃ s, c.(heap) !! p = Some s ∧ s.(id) = sid;
  ao_held p : p ∈ c.(held) → is_Some (c.(heap) !! p);
  ao_live p s : c.(heap) !! p = Some s →
    p ∈ c.(held) ∨ c.(registry).(sessions) !! s.(id) = Some p ∨ d = Some p;
  ao_fresh p s : c.(heap) !! p = Some s →
    (p < c.(next_ptr))%N ∧ (s.(id) < c.(metrics).(sessions_opened_total))%N;
  ao_next : c.(registry).(next_id_ctr)
            = (c.(metrics).(sessions_opened_total) mod u64_modulus)%N;
  ao_unique p1 s1 p2 s2 : c.(heap) !! p1 = Some s1 → c.(heap) !! p2 = Some s2 →
    s1.(id) = s2.(id) → p1 = p2;
  ao_anonymous p s : allow_anonymous hub.(authenticator) = true →
    c.(heap) !! p = Some s → is_Some s.(claims);
}.

Abbreviation arcs_ok hub := (arcs_but hub None).

(** What it reads. *)
Definition arcs c :=
  (c.(registry).(sessions), c.(registry).(next_id_ctr), c.(heap), c.(held), c.(next_ptr),
   c.(metrics).(sessions_opened_total)).

Lemma arcs_ok_ext hub d c c' : arcs c' = arcs c → arcs_but hub d c → arcs_but hub d c'.
Proof.
  unfold arcs. intros [= Hs Hn Hh Hl Hp Ho] []. split; rewrite ?Hs, ?Hn, ?Hh, ?Hl, ?Hp, ?Ho; done.
Qed.

Lemma service_ext c c' : arcs c' = arcs c → service c' = service c.
Proof. unfold arcs, service. intros [= Hs _ Hh _ _ _]. by rewrite Hs, Hh. Qed.

Lemma arcs_ok_store hub d c p s s' :
  arcs_but hub d c → c.(heap) !! p = Some s → s'.(id) = s.(id) →
  (is_Some s.(claims) → is_Some s'.(claims)) → arcs_but hub d (store p s' c).
Proof.
  intros [Hse Hhe Hli Hfr Hne Hun Han] Hp Hid Hcl. split; simpl.
  - intros sid q Hq. destruct (Hse _ _ Hq) as (sq & Hsq & Hi).
    destruct (decide (p = q)) as [->|]; [|by rewrite lookup_insert_ne; eauto].
    exists s'. rewrite lookup_insert_eq. simplify_eq. done.
  - intros q Hq. destruct (decide (p = q)) as [->|]; [by rewrite lookup_insert_eq|].
    rewrite lookup_insert_ne by done. auto.
  - intros q sq [[<- <-]|[_ Hq]]%lookup_insert_Some; [rewrite Hid|]; eauto.
  - intros q sq [[<- <-]|[_ Hq]]%lookup_insert_Some; [rewrite Hid|]; eauto.
  - done.
  - intros q1 s1 q2 s2 [[<- <-]|[? H1]]%lookup_insert_Some [[<- <-]|[? H2]]%lookup_insert_Some;
      rewrite ?Hid; eauto.
  - intros q sq Ha [[<- <-]|[_ Hq]]%lookup_insert_Some; eauto.
Qed.

Lemma service_store c p s s' :
  c.(heap) !! p = Some s →
  service (store p s' c) = <[p := peer_of c.(registry).(sessions) p s']> (service c).
Proof.
  intros Hp. apply map_eq. intros q. rewrite service_lookup. simpl.
  destruct (decide (p = q)) as [->|]; [by rewrite !lookup_insert_eq|].
  by rewrite !lookup_insert_ne, service_lookup.
Qed.

Lemma deref_heap c p s : c.(heap) !! p = Some s → deref c p = s.
Proof. unfold deref. by intros ->. Qed.
(** ** What happens besides requests *)

(** Dropping a handle forgets the member if it was the last. *)
Lemma arcs_drop_arc hub p st :
  arcs_but hub (Some p) st.(core) →
  let st' := drop_arc hub p st in
  arcs_ok hub st'.(core) ∧ st'.(core).(held) = st.(core).(held) ∧
  st'.(core).(registry).(sessions) = st.(core).(registry).(sessions) ∧
  (service st'.(core) = service st.(core) ∨
   (¬ p ∈ st.(core).(held) ∧ (∀ m, service st.(core) !! p = Some m → m.(m_present) = false) ∧
    service st'.(core) = delete p (service st.(core)))).
Proof.
  intros [Hse Hhe Hli Hfr Hne Hun Han]. unfold drop_arc, referenced.
  destruct (bool_decide (p ∈ held (core st))) eqn:Hh; simpl.
  { apply bool_decide_eq_true in Hh. split; [split; try done|by auto].
    intros q s Hq. destruct (Hli _ _ Hq) as [|[|[= ->]]]; auto. }
  apply bool_decide_eq_false in Hh.
  destruct (bool_decide (_ = Some p)) eqn:Hs; simpl.
  { apply bool_decide_eq_true in Hs. split; [split; try done|by auto].
    intros q s Hq. destruct (Hli _ _ Hq) as [|[|[= <-]]]; auto.
    rewrite (deref_heap _ _ _ Hq) in Hs. auto. }
  apply bool_decide_eq_false in Hs. rewrite !abort_tasks_core. simpl.
  split; [|split; [done|split; [done|right; split; [done|]]]].
  - split; simpl.
    + intros sid q Hq. destruct (Hse _ _ Hq) as (s & Hsq & Hid). exists s. split; [|done].
      rewrite lookup_delete_ne; [done|]. intros ->.
      rewrite (deref_heap _ _ _ Hsq) in Hs. congruence.
    + intros q Hq. rewrite lookup_delete_ne by (by intros ->). auto.
    + intros q s [Hpq Hq]%lookup_delete_Some. destruct (Hli _ _ Hq) as [|[|]]; auto; congruence.
    + intros q s [_ Hq]%lookup_delete_Some. auto.
    + done.
    + intros q1 s1 q2 s2 [_ H1]%lookup_delete_Some [_ H2]%lookup_delete_Some. eauto.
    + intros q s Ha [_ Hq]%lookup_delete_Some. eauto.
  - split.
    + intros m (s & Hp & ->)%service_lookup_Some. simpl. apply bool_decide_eq_false.
      by rewrite (deref_heap _ _ _ Hp) in Hs.
    + apply map_eq. intros q. rewrite service_lookup. simpl.
      destruct (decide (p = q)) as [->|]; [by rewrite !lookup_delete_eq|].
      by rewrite !lookup_delete_ne, service_lookup.
Qed.

(** Closing or kicking: the session leaves the registry. *)
Lemma arcs_deregister hub c sid p s m :
  arcs_ok hub c → c.(registry).(sessions) !! sid = Some p → c.(heap) !! p = Some s →
  m.(sessions_opened_total) = c.(metrics).(sessions_opened_total) →
  let c' := set_metrics m (set_registry (deregister sid c.(registry)).2 c) in
  arcs_but hub (Some p) c' ∧ c'.(held) = c.(held) ∧
  c'.(registry).(sessions) = delete sid c.(registry).(sessions) ∧
  service c' = <[p := dismiss (peer_of c.(registry).(sessions) p s)]> (service c).
Proof.
  intros [Hse Hhe Hli Hfr Hne Hun Han] Hp Hs Hm. destruct (deregister_Some _ _ _ Hp) as (_ & Hd & Hn & _).
  destruct (Hse _ _ Hp) as (s' & Hs' & Hid). simplify_eq.
  split; [|split; [done|split; [done|]]].
  - split; simpl; rewrite ?Hd, ?Hn, ?Hm; try done.
    + intros sid q [_ Hq]%lookup_delete_Some. eauto.
    + intros q sq Hq. destruct (Hli _ _ Hq) as [|[Hr|[=]]]; auto.
      destruct (decide (q = p)) as [->|]; [auto|]. right. left. rewrite lookup_delete_ne; [done|].
      intros Hi. rewrite <- Hi, Hp in Hr. by injection Hr as ->.
  - apply map_eq. intros q. rewrite service_lookup. simpl. rewrite Hd.
    destruct (decide (p = q)) as [->|Hne'].
    + rewrite lookup_insert_eq, Hs. simpl. unfold peer_of, dismiss. simpl. do 2 f_equal.
      rewrite lookup_delete_eq. by apply bool_decide_eq_false.
    + rewrite lookup_insert_ne, service_lookup by done. destruct (heap c !! q) as [sq|] eqn:Hq; [|done].
      simpl. unfold peer_of. do 2 f_equal. rewrite lookup_delete_ne; [done|].
      intros Hi. apply Hne'. eapply Hun; eauto.
Qed.

(** The claims a session is opened with. *)
Definition opening_claims hub : option SessionClaims :=
  if allow_anonymous hub.(authenticator) then Some anonymous else None.

Lemma arcs_open hub o st :
  arcs_ok hub st.(core) → (st.(core).(metrics).(sessions_opened_total) < u64_modulus)%N →
  let c := st.(core) in
  let c' := (open_session hub o st).2.(core) in
  let sid := c.(registry).(next_id_ctr) in
  arcs_ok hub c' ∧ c'.(held) = {[c.(next_ptr)]} ∪ c.(held) ∧
  c'.(registry).(sessions) = <[sid := c.(next_ptr)]> c.(registry).(sessions) ∧
  service c !! c.(next_ptr) = None ∧ (∀ q m, service c !! q = Some m → m.(m_id) ≠ sid) ∧
  service c' = <[c.(next_ptr) := mk_Peer sid true (opening_claims hub) ∅]> (service c).
Proof.
  intros [Hse Hhe Hli Hfr Hne Hun Han] Hlt. simpl. rewrite N.mod_small in Hne by done.
  set (c := st.(core)) in *. set (sid := c.(registry).(next_id_ctr)) in *.
  set (s := if allow_anonymous _ then _ else _).
  assert (s.(id) = sid ∧ s.(claims) = opening_claims hub ∧ s.(subscriptions) = ∅) as (Hid & Hcl & Hsub)
    by (unfold s, opening_claims; by destruct (allow_anonymous _)).
  assert (c.(heap) !! c.(next_ptr) = None) as Hnone.
  { destruct (heap c !! next_ptr c) eqn:E; [|done]. apply Hfr in E as [? _]. lia. }
  assert (∀ q sq, c.(heap) !! q = Some sq → sq.(id) ≠ sid) as Hnew.
  { intros q sq Hq. apply Hfr in Hq as [_ ?]. lia. }
  split; [split; simpl|split; [done|split; [done|split; [|split]]]].
  - intros sid' q [[<- <-]|[_ Hq]]%lookup_insert_Some; [exists s; by rewrite lookup_insert_eq|].
    destruct (Hse _ _ Hq) as (sq & Hsq & Hi). exists sq. rewrite lookup_insert_ne; [done|]. congruence.
  - intros q [->%elem_of_singleton|Hq]%elem_of_union; [by rewrite lookup_insert_eq|].
    destruct (Hhe _ Hq). rewrite lookup_insert_ne; [eauto|]. congruence.
  - intros q sq [[<- <-]|[_ Hq]]%lookup_insert_Some; [set_solver|].
    destruct (Hli _ _ Hq) as [|[|]]; [set_solver| |done]. right. left.
    rewrite lookup_insert_ne; [done|]. intros Hi. by apply Hnew in Hq.
  - intros q sq [[<- <-]|[_ Hq]]%lookup_insert_Some; [rewrite Hid; lia|].
    apply Hfr in Hq. lia.
  - unfold u64_wrapping_add. fold sid. by rewrite Hne.
  - intros q1 s1 q2 s2 [[<- <-]|[? H1]]%lookup_insert_Some [[<- <-]|[? H2]]%lookup_insert_Some;
      rewrite ?Hid; eauto; intros Hi; exfalso; [by apply Hnew in H2|by apply Hnew in H1].
  - intros q sq Ha [[<- <-]|[_ Hq]]%lookup_insert_Some; [|eauto].
    rewrite Hcl. unfold opening_claims. rewrite Ha. eauto.
  - by rewrite service_lookup, Hnone.
  - intros q m (sq & Hq & ->)%service_lookup_Some. by apply Hnew in Hq.
  - apply map_eq. intros q. rewrite service_lookup. simpl.
    destruct (decide (c.(next_ptr) = q)) as [<-|].
    + rewrite !lookup_insert_eq. simpl. unfold peer_of. rewrite Hid, Hcl, Hsub, lookup_insert_eq.
      by rewrite bool_decide_eq_true_2, dom_empty_L.
    + rewrite !lookup_insert_ne, service_lookup by done.
      destruct (heap c !! q) as [sq|] eqn:Hq; [|done]. simpl. unfold peer_of. do 2 f_equal.
      rewrite lookup_insert_ne; [done|]. intros Hi. by apply Hnew in Hq.
Qed.

(** ** The reverse index

    What interruptions leave of it: it is right about every session that is
    registered, and about the others as long as they are alive. *)

Record index_ok c : Prop := {
  ix_alive ch p s : c.(heap) !! p = Some s → s.(id) ∈ subscribers_of c.(registry) ch →
    is_Some (s.(subscriptions) !! ch);
  ix_registered ch sid p s : c.(registry).(sessions) !! sid = Some p → c.(heap) !! p = Some s →
    is_Some (s.(subscriptions) !! ch) → sid ∈ subscribers_of c.(registry) ch;
  ix_nodup ch : NoDup (subscribers_of c.(registry) ch);
  ix_entries : no_empty_entry c.(registry);
  ix_opened ch sid : sid ∈ subscribers_of c.(registry) ch →
    (sid < c.(metrics).(sessions_opened_total))%N;
}.

Lemma index_ok_init (w : W) : index_ok (hub_init (M:=M) w).(core).
Proof.
  split; try done; intros ch; [apply NoDup_nil_2|]. by intros sid ?%not_elem_of_nil.
Qed.

(** What it reads. *)
Definition listing c :=
  (c.(registry).(sessions), c.(registry).(channels), c.(heap),
   c.(metrics).(sessions_opened_total)).

Lemma index_ok_ext c c' : listing c' = listing c → index_ok c → index_ok c'.
Proof.
  unfold listing. intros [= Hs Hc Hh Ho] [].
  assert (∀ ch, subscribers_of c'.(registry) ch = subscribers_of c.(registry) ch) as Hsub
    by (intros ch; unfold subscribers_of; by rewrite Hc).
  split; try setoid_rewrite Hsub; rewrite ?Hs, ?Hh, ?Ho; try done.
  intros ch l. rewrite Hc. by apply ix_entries0.
Qed.

Lemma index_ok_store c p s s' :
  c.(heap) !! p = Some s → s'.(id) = s.(id) → s'.(subscriptions) = s.(subscriptions) →
  index_ok c → index_ok (store p s' c).
Proof.
  intros Hp Hid Hsub [Hal Hre Hnd Hen Hop]. split; simpl; try done.
  - intros ch q sq [[<- <-]|[_ Hq]]%lookup_insert_Some; [rewrite Hid, Hsub|]; eauto.
  - intros ch sid q sq Hs [[<- <-]|[_ Hq]]%lookup_insert_Some; [rewrite Hsub|]; eauto.
Qed.

(** Entering a subscription, in the session and in the index. *)
Lemma index_ok_enter hub d c p s ch t :
  arcs_but hub d c → c.(heap) !! p = Some s → s.(subscriptions) !! ch = None → index_ok c →
  index_ok (set_registry (add_to_index s.(id) ch c.(registry))
              (store p (set_subscriptions s (<[ch := t]> s.(subscriptions))) c)).
Proof.
  intros Hok Hp Hnone [Hal Hre Hnd Hen Hop].
  assert (s.(id) ∉ subscribers_of c.(registry) ch) as Hnot
    by (intros Hin; destruct (Hal _ _ _ Hp Hin); congruence).
  split; simpl.
  - intros ch' q sq Hq. rewrite subscribers_of_add.
    assert (∀ sq, c.(heap) !! q = Some sq → sq.(id) = s.(id) → q = p) as Hq'
      by (intros; by eapply (ao_unique _ _ _ Hok)).
    apply lookup_insert_Some in Hq as [[<- <-]|[Hne Hq]]; simpl.
    + case_decide as Hch; [subst; by rewrite lookup_insert_eq|].
      rewrite lookup_insert_ne by done. by eapply Hal.
    + case_decide as Hch; [|by eapply Hal]. subst ch'.
      intros [Hin|Hid%list_elem_of_singleton]%elem_of_app; [by eapply Hal|].
      by specialize (Hq' sq Hq Hid).
  - intros ch' sid q sq Hs Hq Hsub. rewrite subscribers_of_add.
    apply lookup_insert_Some in Hq as [[<- <-]|[Hne Hq]].
    + destruct (ao_sess _ _ _ Hok _ _ Hs) as (s' & Hs' & <-). simplify_eq.
      case_decide as Hch; [set_solver|]. simpl in Hsub. rewrite lookup_insert_ne in Hsub by done.
      by eapply Hre.
    + case_decide as Hch; [subst; apply elem_of_app; left|]; by eapply Hre.
  - intros ch'. rewrite subscribers_of_add. case_decide as Hch; [|done]. subst.
    apply NoDup_app. split; [done|]. split; [|apply NoDup_singleton].
    by intros x Hx ->%list_elem_of_singleton.
  - by apply no_empty_entry_add.
  - intros ch' sid. rewrite subscribers_of_add. case_decide; [|by apply Hop].
    intros [Hin| ->%list_elem_of_singleton]%elem_of_app; [by eapply Hop|].
    by apply (ao_fresh _ _ _ Hok) in Hp as [_ ?].
Qed.

(** Forgetting a subscription of a registered session. *)
Lemma index_ok_leave hub d c p s ch :
  arcs_but hub d c → c.(heap) !! p = Some s → c.(registry).(sessions) !! s.(id) = Some p →
  index_ok c →
  index_ok (set_registry (remove_from_index s.(id) ch c.(registry))
              (store p (set_subscriptions s (delete ch s.(subscriptions))) c)).
Proof.
  intros Hok Hp Hs [Hal Hre Hnd Hen Hop].
  assert (∀ ch' sid, sid ∈ subscribers_of (remove_from_index s.(id) ch c.(registry)) ch' ↔
    sid ∈ subscribers_of c.(registry) ch' ∧ (ch' = ch → sid ≠ s.(id))) as Hsub.
  { intros ch' sid. rewrite subscribers_of_remove. case_decide as Hch.
    - subst. rewrite list_elem_of_filter. naive_solver.
    - split; [|naive_solver]. intros Hin. split; [done|]. by intros ->. }
  split; simpl; try setoid_rewrite Hsub; try setoid_rewrite sessions_remove_from_index.
  - intros ch' q sq [[<- <-]|[Hne Hq]]%lookup_insert_Some [Hin Hch]; simpl in *.
    + rewrite lookup_delete_ne by (intros <-; by apply Hch). by eapply Hal.
    + by eapply Hal.
  - intros ch' sid q sq Hsid Hq Hsome.
    apply lookup_insert_Some in Hq as [[<- <-]|[Hne Hq]]; simpl in *.
    + destruct (decide (ch' = ch)) as [->|]; [by rewrite lookup_delete_eq, is_Some_alt in Hsome|].
      rewrite lookup_delete_ne in Hsome by done. split; [by eapply Hre|done].
    + split; [by eapply Hre|]. intros -> ->. congruence.
  - intros ch'. rewrite subscribers_of_remove. case_decide; [by apply NoDup_filter|done].
  - by apply no_empty_entry_remove.
  - intros ch' sid [Hin _]. by eapply Hop.
Qed.

Lemma index_ok_deregister c sid p m :
  c.(registry).(sessions) !! sid = Some p →
  m.(sessions_opened_total) = c.(metrics).(sessions_opened_total) → index_ok c →
  index_ok (set_metrics m (set_registry (deregister sid c.(registry)).2 c)).
Proof.
  intros Hp Hm [Hal Hre Hnd Hen Hop]. destruct (deregister_Some _ _ _ Hp) as (_ & Hd & _ & _).
  split; simpl; rewrite ?Hd, ?Hm.
  - intros ch q s Hq. rewrite subscribers_of_deregister by eauto.
    intros [_ Hin]%list_elem_of_filter. by eapply Hal.
  - intros ch sid' q s [Hne Hs]%lookup_delete_Some Hq Hsub.
    rewrite subscribers_of_deregister by eauto. apply list_elem_of_filter.
    split; [congruence|]. by eapply Hre.
  - intros ch. rewrite subscribers_of_deregister by eauto. by apply NoDup_filter.
  - by apply no_empty_entry_deregister.
  - intros ch sid'. rewrite subscribers_of_deregister by eauto.
    intros [_ Hin]%list_elem_of_filter. by eapply Hop.
Qed.

Lemma index_ok_drop_arc hub p st : index_ok st.(core) → index_ok (drop_arc hub p st).(core).
Proof.
  intros Hix. unfold drop_arc. destruct (referenced _ _); [done|]. simpl.
  rewrite !abort_tasks_core. destruct Hix as [Hal Hre Hnd Hen Hop]. split; simpl; try done.
  - intros ch q s [_ Hq]%lookup_delete_Some. by eapply Hal.
  - intros ch sid q s Hs [_ Hq]%lookup_delete_Some. by eapply Hre.
Qed.

Lemma index_ok_open hub o st :
  arcs_ok hub st.(core) → (st.(core).(metrics).(sessions_opened_total) < u64_modulus)%N →
  index_ok st.(core) → index_ok (open_session hub o st).2.(core).
Proof.
  intros Hok Hlt [Hal Hre Hnd Hen Hop]. simpl. set (c := st.(core)) in *.
  pose proof (ao_next _ _ _ Hok) as Hne. fold c in Hne. rewrite N.mod_small in Hne by done.
  set (sid := c.(registry).(next_id_ctr)) in *.
  set (s := if allow_anonymous _ then _ else _).
  assert (s.(id) = sid ∧ s.(subscriptions) = ∅) as (Hid & Hsub)
    by (unfold s; destruct (allow_anonymous _); split; reflexivity).
  split; simpl; try done.
  - intros ch q sq [[<- <-]|[_ Hq]]%lookup_insert_Some Hin; [|by eapply Hal].
    rewrite Hid in Hin. apply (Hop ch) in Hin. lia.
  - intros ch sid' q sq [[<- <-]|[_ Hs]]%lookup_insert_Some Hq Hsome.
    + rewrite lookup_insert_eq in Hq. injection Hq as <-.
      rewrite Hsub, lookup_empty in Hsome. by destruct Hsome.
    + destruct (ao_sess _ _ _ Hok _ _ Hs) as (s' & Hs' & _).
      apply (ao_fresh _ _ _ Hok) in Hs' as Hfr.
      rewrite lookup_insert_ne in Hq by (fold c in Hfr; lia). exact (Hre ch sid' q sq Hs Hq Hsome).
  - intros ch sid' Hin. apply (Hop ch) in Hin. lia.
Qed.

Lemma listing_forward hub task st : listing (forward hub task st).(core) = listing st.(core).
Proof.
  unfold forward. destruct (tasks (core st) !! task) as [t|]; [|done].
  destruct (stream_next _ _ _) as [[|[p|]] w]; [done| |].
  - pose proof (outbox_send_core t.(t_outbox) (SF_Publication p)
                  (mk_HubSt st.(core) st.(outboxes) w)) as Hc.
    destruct (outbox_send _ _ _) as [[|] st']; simpl in Hc; rewrite ?end_task_core, Hc; done.
  - by rewrite end_task_core.
Qed.
End running.
