(* ===== verification/Linear.v ===== *)
(** * Interrupted handlers refine the abstract service

    Every run of the hub of Running.v is a run of the service of Service.v: the
    same calls with the same answers, and the sessions of the hub are the members
    of the service. *)
From S2P Require Import Prelude Protocol Traits Session Hub HubInv HubReach HubSteps.
From S2P Require Import Async Race Service Running.
From S2P Require Import MemoryBroker Node HubProps.

Section linear.
Context {W Str : Type} `{NO : Notifier} `{M : Mpsc} `{D : During W}.
Implicit Types (c : @HubCore Str _) (st : @HubSt W Str _ M) (hub : @Hub W Str).
Abbreviation io' := (io (@HubSt W Str _ M) HubError).
Abbreviation async' := (async (@HubSt W Str _ M) HubError).
Abbreviation arcs_ok hub := (arcs_but hub None).

(** ** One call

    [a] is what is left of a handler and [x] where its call is: each segment is
    some steps of the call, and the handler is done when the call is settled. *)

Definition finished (x : Call) (v : result HubError Answer) : Prop :=
  ∃ A, x = Settled (call_request x) A ∧ A v.

(** What a segment leaves alone. *)
Definition same_handles c c' : Prop :=
  c'.(held) = c.(held) ∧ c'.(registry).(sessions) = c.(registry).(sessions).

Definition segment_ok hub (x : Call) c c' (P : Call → Prop) : Prop :=
  arcs_ok hub c' ∧ same_handles c c' ∧ (index_ok c → index_ok c') ∧
  ∃ x', rtc (call_step hub) (x, service c) (x', service c') ∧ P x'.

Fixpoint tracks hub (a : async' Answer) (x : Call) : Prop :=
  match a with
  | Done v => finished x v
  | Await m k => ∀ st, during st.(world) → arcs_ok hub st.(core) →
      relies hub (service st.(core)) x →
      segment_ok hub x st.(core) (m st).2.(core) (λ x',
        match (m st).1 with Ok v => tracks hub (k v) x' | Err e => finished x' (Err e) end)
  end.

#[local] Arguments tracks : simpl never.

(** *** Segments that leave the hub's state alone *)

Lemma tracks_quiet {X} hub (m : io' X) (k : X → async' Answer) x :
  (∀ c, keeps (eq c) m) →
  (∀ st, during st.(world) → arcs_ok hub st.(core) → relies hub (service st.(core)) x →
     ∃ x', rtc (call_step hub) (x, service st.(core)) (x', service st.(core)) ∧
       match (m st).1 with Ok v => tracks hub (k v) x' | Err e => finished x' (Err e) end) →
  tracks hub (Await m k) x.
Proof.
  intros Hk H st Hd Hok Hr. pose proof (keeps_run (eq st.(core)) m st (Hk _) eq_refl) as Hc.
  unfold segment_ok, same_handles. rewrite <- Hc. auto.
Qed.

Lemma tracks_stay {X} hub (m : io' X) (k : X → async' Answer) x :
  (∀ c, keeps (eq c) m) → (∀ st, during st.(world) → ∃ v, (m st).1 = Ok v ∧ tracks hub (k v) x) →
  tracks hub (Await m k) x.
Proof.
  intros Hk H. apply tracks_quiet; [done|]. intros st Hd _ _. exists x. split; [apply rtc_refl|].
  by destruct (H st Hd) as (v & -> & ?).
Qed.

(** Settling now for the answer [v]. *)
Definition can_settle hub (x : Call) (v : result HubError Answer) : Prop :=
  ∀ S, relies hub S x → ∃ x', rtc (call_step hub) (x, S) (x', S) ∧ finished x' v.

Lemma can_settle_serve hub r p seen v :
  (∀ m, m.(m_id) = requester r → serves hub seen m r (eq v) m) →
  can_settle hub (Bound r p seen) v.
Proof.
  intros H S (m & Hp & Hid & _). exists (Settled r (eq v)). split.
  - apply rtc_once. pose proof (call_serve hub r S p seen m _ _ Hp Hid (H m Hid)) as Hs.
    by rewrite insert_id in Hs.
  - eexists. split; [done|]. done.
Qed.

Lemma can_settle_settled hub r (A : result HubError Answer → Prop) v :
  A v → can_settle hub (Settled r A) v.
Proof. intros HA S _. eexists. split; [apply rtc_refl|]. by exists A. Qed.

(** A call of a component. *)
Lemma tracks_component {E A} hub (f : E → HubError) (m : io W E A) (k : A → async' Answer) x :
  (∀ a, said m (Ok a) → tracks hub (k a) x) →
  (∀ e, said m (Err e) → can_settle hub x (Err (f e))) →
  tracks hub (Await (on_world f m) k) x.
Proof.
  intros Hok Herr. apply tracks_quiet; [intros; apply keeps_on_world|]. intros st Hd _ Hr.
  destruct (m st.(world)) as [v w] eqn:E0. rewrite (on_world_eq f m st v w E0). simpl.
  assert (said m v) by by exists st.(world), w. destruct v as [a|e]; simpl.
  - exists x. split; [apply rtc_refl|auto].
  - by apply Herr.
Qed.

(** The same, when the handler looks at the outcome. *)
Lemma tracks_try {E A} hub (f : E → HubError) (m : io W E A)
    (k : result HubError A → async' Answer) x :
  (∀ v, said m v → tracks hub (k (result_map_err f v)) x) →
  tracks hub (Await (io_try (on_world f m)) k) x.
Proof.
  intros H. apply tracks_stay; [intros; apply keeps_try, keeps_on_world|]. intros st Hd.
  destruct (m st.(world)) as [v w] eqn:E0. unfold io_try. rewrite (on_world_eq f m st v w E0). simpl.
  eexists. split; [done|]. apply H. by exists st.(world), w.
Qed.

(** The end of a handler that has given up. *)
Lemma tracks_last {X} hub (m : io' X) x v :
  (∀ c, keeps (eq c) m) → (∀ st, ∃ u, (m st).1 = Ok u) → can_settle hub x v →
  tracks hub (Await m (λ _, Done v)) x.
Proof.
  intros Hk Hm Hs. apply tracks_quiet; [done|]. intros st _ _ Hr. destruct (Hm st) as [u ->].
  by apply Hs.
Qed.

Lemma unwind_Ok hub ch st : ∃ u, (unwind hub ch st).1 = Ok u.
Proof. unfold unwind, io_try. destruct (on_world _ _ st). eauto. Qed.

Lemma tracks_give_up hub ch stream e x :
  can_settle hub x (Err e) → tracks hub (map_async ASubscribe (fail_async hub ch stream e)) x.
Proof.
  intros H. apply tracks_stay; [intros; apply keeps_unwind|]. intros st _.
  destruct (unwind_Ok hub ch st) as [u Hu]. exists u. split; [done|].
  apply tracks_last; [intros; apply keeps_drop_stream|by eexists|done].
Qed.
(** *** Looking the session up *)

Lemma call_lookup hub r st :
  arcs_ok hub st.(core) →
  match get st.(core).(registry) (requester r) with
  | None => ∃ x', rtc (call_step hub) (Waiting r, service st.(core)) (x', service st.(core)) ∧
              finished x' (Err (SessionGone (requester r)))
  | Some p => ∃ s, st.(core).(heap) !! p = Some s ∧ s.(id) = requester r ∧
      call_step hub (Waiting r, service st.(core)) (Bound r p s.(claims), service st.(core))
  end.
Proof.
  intros Hok. unfold get. destruct (sessions _ !! _) as [p|] eqn:Hp.
  - destruct (ao_sess _ _ _ Hok _ _ Hp) as (s & Hs & Hid). exists s. do 2 (split; [done|]).
    apply (call_bind hub r _ p (peer_of st.(core).(registry).(sessions) p s)); simpl.
    + by rewrite service_lookup, Hs.
    + done.
    + apply bool_decide_eq_true. by rewrite Hid.
  - eexists. split; [apply rtc_once, call_gone|by eexists].
    intros p m (s & Hs & ->)%service_lookup_Some Hm%bool_decide_eq_true Hid. simpl in Hid. congruence.
Qed.

Lemma tracks_start hub r (k : N * SessionClaims → async' Answer) :
  is_Some (asks r) → (∀ p cl, tracks hub (k (p, cl)) (Bound r p (Some cl))) →
  tracks hub (Await (start hub (requester r)) k) (Waiting r).
Proof.
  intros Hasks Hk st _ Hok Hr. pose proof (call_lookup hub r st Hok) as Hl.
  unfold segment_ok, same_handles, start, io_bind.
  destruct (get _ _) as [p|] eqn:Hg.
  2:{ rewrite (get_session_None _ _ Hg). done. }
  rewrite (get_session_eq _ _ _ Hg). destruct Hl as (s & Hs & Hid & Hb).
  pose proof (deref_heap _ _ _ Hs) as Hd. destruct s.(claims) as [cl|] eqn:Hcl.
  - assert (effective_claims hub st p = Some cl) as He by (unfold effective_claims; by rewrite Hd, Hcl).
    rewrite (require_claims_eq _ _ _ _ He). unfold with_claims. rewrite Hd, Hcl. simpl.
    do 3 (split; [done|]). eexists. split; [by apply rtc_once|]. apply Hk.
  - assert (allow_anonymous hub.(authenticator) = false) as Ha.
    { destruct (allow_anonymous _) eqn:E; [|done].
      destruct (ao_anonymous _ _ _ Hok _ _ E Hs). congruence. }
    assert (effective_claims hub st p = None) as He
      by (unfold effective_claims; by rewrite Hd, Hcl, Ha).
    rewrite (require_claims_None _ _ _ He). simpl. do 3 (split; [done|]).
    destruct (can_settle_serve hub r p None (Err (NotConnected (deref st.(core) p).(id))))
      with (S := service st.(core)) as (x' & Hx & Hf).
    + intros m Hm. rewrite Hd, Hid, <- Hm. by apply serves_stranger.
    + by eapply relies_own.
    + exists x'. split; [by eapply rtc_l|done].
Qed.

Lemma tracks_acl hub r p cl action ch (k : unit → async' Answer) :
  asks r = Some (action, ch) →
  (cleared hub cl action ch → tracks hub (k ()) (Bound r p (Some cl))) →
  tracks hub (Await (enforce_acl hub cl action ch) k) (Bound r p (Some cl)).
Proof.
  intros Hasks Hk. apply tracks_quiet; [intros; apply keeps_enforce_acl|]. intros st Hd _ Hr.
  destruct (check hub.(acl) cl action ch st.(world)) as [v w] eqn:E.
  rewrite (enforce_acl_eq _ _ _ _ _ _ _ E). simpl.
  assert (said (check hub.(acl) cl action ch) v) as Hs by by exists st.(world), w.
  destruct v as [[|]|e]; simpl.
  - eexists. split; [apply rtc_refl|]. auto.
  - apply can_settle_serve; [|done]. intros m _. eapply serves_denied; [done..|]. by apply denied_by_policy.
  - apply can_settle_serve; [|done]. intros m _. eapply serves_denied; [done..|]. by apply denied_by_failure.
Qed.

(** *** Segments that change the member *)

(** A segment that leaves the handles as [store p s'] does. *)
Lemma segment_store hub r p seen c c' s s' A (P : Call → Prop) :
  arcs_ok hub c → c.(heap) !! p = Some s → s.(id) = requester r → s'.(id) = s.(id) →
  (is_Some s.(claims) → is_Some s'.(claims)) → arcs c' = arcs (store p s' c) →
  (index_ok c → index_ok c') →
  serves hub seen (peer_of c.(registry).(sessions) p s) r A (peer_of c.(registry).(sessions) p s') →
  P (Settled r A) → segment_ok hub (Bound r p seen) c c' P.
Proof.
  intros Hok Hp Hreq Hid Hcl Harcs Hix Hs HP. split; [|split; [|split; [exact Hix|]]].
  - apply (arcs_ok_ext _ _ _ _ Harcs). by eapply arcs_ok_store.
  - by injection Harcs.
  - exists (Settled r A). split; [|done]. apply rtc_once.
    rewrite (service_ext _ _ Harcs), (service_store _ _ _ _ Hp). apply call_serve with (3 := Hs); [|done].
    by rewrite service_lookup, Hp.
Qed.

(** A segment that leaves them as they are. *)
Lemma segment_same hub r p seen c c' s A (P : Call → Prop) :
  arcs_ok hub c → c.(heap) !! p = Some s → s.(id) = requester r → arcs c' = arcs c →
  listing c' = listing c →
  serves hub seen (peer_of c.(registry).(sessions) p s) r A (peer_of c.(registry).(sessions) p s) →
  P (Settled r A) → segment_ok hub (Bound r p seen) c c' P.
Proof.
  intros Hok Hp Hreq Harcs Hl. apply segment_store; [done..| |by apply index_ok_ext].
  rewrite Harcs. unfold arcs. simpl. by rewrite insert_id.
Qed.

Lemma serve_now hub r p seen c s v :
  c.(heap) !! p = Some s → s.(id) = requester r →
  serves hub seen (peer_of c.(registry).(sessions) p s) r (eq v) (peer_of c.(registry).(sessions) p s) →
  ∃ x', rtc (call_step hub) (Bound r p seen, service c) (x', service c) ∧ finished x' v.
Proof.
  intros Hp Hid Hs. exists (Settled r (eq v)). split; [|by exists (eq v)]. apply rtc_once.
  assert (service c !! p = Some (peer_of c.(registry).(sessions) p s)) as Hm
    by by rewrite service_lookup, Hp.
  pose proof (call_serve hub r _ p seen _ _ _ Hm Hid Hs) as H. by rewrite insert_id in H.
Qed.

Lemma relies_heap hub r p seen c :
  relies hub (service c) (Bound r p seen) →
  ∃ s, c.(heap) !! p = Some s ∧ deref c p = s ∧ s.(id) = requester r ∧
    (is_connect r = true → seen = None → allow_anonymous hub.(authenticator) = false →
     s.(claims) = None).
Proof.
  intros (m & (s & Hs & ->)%service_lookup_Some & Hid & Hc).
  exists s. split; [done|]. by split; [apply deref_heap|].
Qed.

Lemma tracks_commit hub sid rid p cl ch since cursor stream o :
  cleared hub cl ActSubscribe ch → said (on_subscribe (kind_for hub ch) ch) (Ok cursor) →
  said (broker_subscribe hub.(broker) ch) (Ok stream) →
  tracks hub (map_async ASubscribe (commit_async hub sid rid p ch cursor stream o))
    (Bound (RSubscribe sid rid ch since) p (Some cl)).
Proof.
  intros Hcl Hon Hbr st _ Hok Hr. destruct (relies_heap _ _ _ _ _ Hr) as (s & Hs & Hd & Hid & _).
  destruct (s.(subscriptions) !! ch) as [t|] eqn:Ht.
  - assert ((deref st.(core) p).(subscriptions) !! ch = Some t) as Ht' by by rewrite Hd.
    rewrite (commit_segment_taken _ _ _ _ _ _ _ _ _ _ Ht').
    eapply segment_same; [done|exact Hs|exact Hid| | | |].
    + simpl. rewrite end_task_core. unfold arcs. simpl. rewrite Hd. by rewrite insert_id.
    + simpl. rewrite end_task_core. unfold listing. simpl. rewrite Hd. by rewrite insert_id.
    + apply (serves_taken _ _ _ _ _ _ _ cl); [done..|]. simpl. apply elem_of_dom. eauto.
    + simpl. apply tracks_last; [intros; apply keeps_unwind|apply unwind_Ok|].
      by apply can_settle_settled.
  - assert ((deref st.(core) p).(subscriptions) !! ch = None) as Ht' by by rewrite Hd.
    rewrite (commit_segment_free _ _ _ _ _ _ _ _ _ Ht'), commit_subscription_run by done.
    eapply segment_store; [done|exact Hs|exact Hid|..].
    3:{ unfold arcs. simpl. reflexivity. }
    + by rewrite Hd.
    + by rewrite Hd.
    + intros Hix. eapply index_ok_ext;
        [|by eapply (index_ok_enter hub None st.(core) p s ch st.(core).(next_task))].
      unfold listing. simpl. by rewrite Hd, Hid.
    + match goal with |- serves _ _ ?m _ _ ?m' => replace m' with (join ch m) end.
      * apply (serves_subscribe _ _ _ _ _ _ _ cl cursor stream); try done. simpl.
        by apply not_elem_of_dom.
      * rewrite Hd. unfold join, peer_of. simpl. f_equal. by rewrite dom_insert_L.
    + by eexists.
Qed.

Lemma keeps_send_one (P : @HubCore Str _ → Prop) o f : keeps P (send_one o f : io' bool).
Proof.
  intros st HP. unfold send_one. pose proof (outbox_send_core o f st) as Hc.
  destruct (outbox_send _ _ _) as [b st']. simpl in *. by rewrite Hc.
Qed.

Lemma tracks_subscribe hub sid rid ch since :
  tracks hub (handle_async hub (RSubscribe sid rid ch since)) (Waiting (RSubscribe sid rid ch since)).
Proof.
  apply (tracks_start hub (RSubscribe sid rid ch since)); [by eexists|]. intros p cl.
  set (r := RSubscribe sid rid ch since). apply (tracks_acl hub r); [done|]. intros Hcl.
  apply tracks_quiet; [intros; apply keeps_bind; [apply keeps_read|]; intros [|]; keeps_auto|].
  intros st _ Hok Hr. destruct (relies_heap _ _ _ _ _ Hr) as (s & Hs & Hd & Hid & _).
  unfold io_bind. simpl. rewrite Hd. destruct (has_subscription s ch) eqn:Hsub.
  { eapply serve_now; [done|exact Hid|]. apply (serves_taken _ _ _ _ _ _ _ cl); [done..|].
    simpl. apply elem_of_dom. by apply bool_decide_eq_true in Hsub. }
  exists (Bound r p (Some cl)). split; [apply rtc_refl|]. simpl.
  clear st Hok Hr s Hs Hd Hid Hsub.
  assert (∀ e, subscribe_fails hub sid ch since e → can_settle hub (Bound r p (Some cl)) (Err e))
    as Hfail.
  { intros e He. apply can_settle_serve. intros m _.
    by apply (serves_subscribe_fails _ _ _ _ _ _ _ cl). }
  apply (tracks_component hub EChannel); [|by intros e He; apply Hfail, fails_cursor].
  intros cursor Hcursor. apply (tracks_try hub EBroker). intros [stream|e] Hbr; simpl.
  2:{ apply tracks_last; [intros; apply keeps_unwind|apply unwind_Ok|]. by apply Hfail, fails_stream. }
  apply tracks_stay; [intros; apply keeps_read|]. intros st _. eexists. split; [done|].
  generalize (outbox (deref st.(core) p)). intros o. clear st.
  pose proof (tracks_commit hub sid rid p cl ch since cursor stream o Hcl Hcursor Hbr) as Hcommit.
  fold r in Hcommit. unfold replay_async. case_decide as Hpos; [|done].
  apply (tracks_try hub EChannel). intros [ps|e] Hps; simpl.
  2:{ by apply tracks_give_up, Hfail, fails_history. }
  assert (∀ q, q ∈ ps → can_settle hub (Bound r p (Some cl)) (Err (SessionGone sid))) as Hgone
    by (intros q Hq; by eapply Hfail, fails_outbox).
  clear Hps. induction ps as [|q ps IH]; simpl; [done|].
  apply tracks_quiet; [intros; apply keeps_send_one|].
  intros st _ _ _. exists (Bound r p (Some cl)). split; [apply rtc_refl|]. unfold send_one.
  destruct (outbox_send _ _ _) as [[|] st']; simpl.
  - apply IH. intros q' Hq'. apply (Hgone q'). by right.
  - apply tracks_give_up, (Hgone q). by left.
Qed.

Lemma tracks_connect hub sid rid token :
  tracks hub (handle_async hub (RConnect sid rid token)) (Waiting (RConnect sid rid token)).
Proof.
  set (r := RConnect sid rid token). intros st _ Hok Hr.
  pose proof (call_lookup hub r st Hok) as Hl. simpl in Hl.
  unfold segment_ok, same_handles, io_bind. destruct (get _ _) as [p|] eqn:Hg.
  2:{ rewrite (get_session_None _ _ Hg). done. }
  rewrite (get_session_eq _ _ _ Hg). destruct Hl as (s & Hs & Hid & Hb).
  simpl. rewrite (deref_heap _ _ _ Hs). destruct (_ && _) eqn:Hc; simpl.
  { apply andb_true_iff in Hc as [Hc%bool_decide_eq_true Ha%negb_true_iff].
    do 3 (split; [done|]). destruct (serve_now hub r p s.(claims) st.(core) s
      (Err (AlreadyConnected sid)) Hs Hid) as (x' & Hx & Hf); [by apply serves_already|].
    exists x'. split; [by eapply rtc_l|done]. }
  do 3 (split; [done|]). eexists. split; [by apply rtc_once|].
  assert (s.(claims) = None ∨ allow_anonymous hub.(authenticator) = true) as Hseen.
  { apply andb_false_iff in Hc as [Hc%bool_decide_eq_false|Hc%negb_false_iff]; [left|by right].
    by apply eq_None_not_Some. }
  clear Hc Hb. revert Hseen. generalize s.(claims). intros seen Hseen.
  clear dependent st. clear dependent s.
  apply (tracks_component hub EAuth).
  2:{ intros e He. apply can_settle_serve. intros m _. by apply serves_refused. }
  intros cl Hau st _ Hok Hr. destruct (relies_heap _ _ _ _ _ Hr) as (s & Hs & Hd & Hid & Hc).
  eapply segment_store; [done|exact Hs|exact Hid|..].
  3:{ unfold modify_session. simpl. unfold arcs. simpl. reflexivity. }
  - by rewrite Hd.
  - simpl. eauto.
  - unfold modify_session. simpl. apply (index_ok_store _ p s); [done|by rewrite Hd..].
  - rewrite Hd. apply (serves_connect hub seen (peer_of _ p s) sid rid token cl); [|done].
    destruct Hseen as [->|]; [|by right]. destruct (allow_anonymous _) eqn:Ha; [by right|].
    left. by apply Hc.
  - by eexists.
Qed.

Lemma segment_bind hub r p seen c c' (P : Call → Prop) :
  call_step hub (Waiting r, service c) (Bound r p seen, service c) →
  segment_ok hub (Bound r p seen) c c' P → segment_ok hub (Waiting r) c c' P.
Proof.
  intros Hb (H1 & H2 & H3 & x' & Hx & HP). do 3 (split; [done|]). exists x'.
  split; [by eapply rtc_l|done].
Qed.

Lemma tracks_unsubscribe hub sid rid ch :
  tracks hub (handle_async hub (RUnsubscribe sid rid ch)) (Waiting (RUnsubscribe sid rid ch)).
Proof.
  set (r := RUnsubscribe sid rid ch). intros st _ Hok Hr.
  pose proof (call_lookup hub r st Hok) as Hl. simpl in Hl.
  unfold remove_segment, io_bind. destruct (get _ _) as [p|] eqn:Hg.
  2:{ rewrite (get_session_None _ _ Hg). split; [exact Hok|]. split; [done|]. split; [done|]. exact Hl. }
  rewrite (get_session_eq _ _ _ Hg). destruct Hl as (s & Hs & Hid & Hb).
  eapply segment_bind; [exact Hb|].
  unfold modify_session, remove_subscription. rewrite (deref_heap _ _ _ Hs).
  destruct (subscriptions s !! ch) as [t|] eqn:Ht; simpl.
  - apply (segment_store hub r p s.(claims) _ _ s (set_subscriptions s (delete ch s.(subscriptions)))
      (λ a, (said (on_unsubscribe (kind_for hub ch) ch) (Ok ()) ∧
             a = Ok (AUnsubscribe (mk_UnsubscribeOk rid ch))) ∨
            ∃ e, said (on_unsubscribe (kind_for hub ch) ch) (Err e) ∧ a = Err (EChannel e))); try done.
    + rewrite end_task_core. unfold arcs. simpl.
      by rewrite sessions_remove_from_index, next_id_remove_from_index.
    + intros Hix. rewrite end_task_core. eapply index_ok_ext;
        [|by eapply (index_ok_leave hub None st.(core) p s ch); rewrite ?Hid].
      unfold listing. simpl. by rewrite Hid.
    + assert (ch ∈ (peer_of st.(core).(registry).(sessions) p s).(m_channels)) as Hin
        by (simpl; apply elem_of_dom; eauto).
      pose proof (serves_unsubscribe hub s.(claims) _ sid rid ch Hin) as H.
      unfold leave in H. simpl in H. rewrite <- dom_delete_L in H. exact H.
    + apply tracks_quiet; [intros; apply keeps_on_world|]. intros st' Hd' _ _.
      eexists. split; [apply rtc_refl|].
      destruct (on_unsubscribe (kind_for hub ch) ch st'.(world)) as [v w] eqn:E0.
      rewrite (on_world_eq EChannel _ _ _ _ E0).
      assert (said (on_unsubscribe (kind_for hub ch) ch) v) by by exists st'.(world), w.
      destruct v as [[]|e]; (eexists; split; [reflexivity|]); simpl; eauto.
  - apply (segment_same hub r p s.(claims) _ _ s (eq (Err (NotSubscribed sid ch)))); try done.
    + unfold arcs. simpl. by rewrite insert_id.
    + unfold listing. simpl. by rewrite insert_id.
    + apply serves_absent. simpl. by apply not_elem_of_dom.
    + by eexists.
Qed.

Lemma tracks_publish hub sid ch data :
  tracks hub (handle_async hub (RPublish sid ch data)) (Waiting (RPublish sid ch data)).
Proof.
  apply (tracks_start hub (RPublish sid ch data)); [by eexists|]. intros p cl.
  set (r := RPublish sid ch data). apply (tracks_acl hub r); [done|]. intros Hcl.
  assert (∀ e, publish_fails hub ch data e → can_settle hub (Bound r p (Some cl)) (Err e)) as Hfail.
  { intros e He. apply can_settle_serve. intros m _. by apply (serves_publish_fails _ _ _ _ _ _ cl). }
  apply (tracks_component hub ESchema); [|by intros e He; apply Hfail, fails_schema]. intros [] Hv.
  apply (tracks_component hub EChannel); [|by intros e He; apply Hfail, fails_kind]. intros pb Hp.
  apply (tracks_component hub EBroker); [|by intros e He; eapply Hfail, fails_broker]. intros [] Hbr.
  intros st _ Hok Hr. destruct (relies_heap _ _ _ _ _ Hr) as (s & Hs & _ & Hid & _).
  apply (segment_same hub r p (Some cl) _ _ s (eq (Ok (APublish pb)))); try done.
  - by apply (serves_publish _ _ _ _ _ _ cl).
  - by eexists.
Qed.

Lemma tracks_handle hub r : tracks hub (handle_async hub r) (Waiting r).
Proof.
  destruct r; [apply tracks_connect|apply tracks_subscribe|apply tracks_unsubscribe|apply tracks_publish].
Qed.
Lemma tracks_turn hub (a : async' Answer) x st :
  suspended a = true → tracks hub a x → during st.(world) → arcs_ok hub st.(core) → relies hub (service st.(core)) x →
  segment_ok hub x st.(core) (turn a st).2.(core) (tracks hub (turn a st).1).
Proof.
  destruct a as [v|X m k]; [done|]. intros _ Ht Hd Hok Hr. specialize (Ht st Hd Hok Hr). simpl.
  by destruct (m st) as [[v|e] st'].
Qed.

(** ** All calls together *)

(** The handle of a session whose request is in flight is held. *)
Definition kept c (x : Call) : Prop :=
  match x with
  | Waiting r => ∀ p, c.(registry).(sessions) !! requester r = Some p → p ∈ c.(held)
  | Bound _ p _ => p ∈ c.(held)
  | _ => True
  end.

Definition agrees c (S : gmap N Peer) : Prop :=
  ∀ p m, S !! p = Some m → m.(m_present) = true →
    c.(registry).(sessions) !! m.(m_id) = Some p.

Lemma agrees_service c : agrees c (service c).
Proof. intros p m (s & _ & ->)%service_lookup_Some. by intros ?%bool_decide_eq_true. Qed.

Lemma kept_steps hub c x S x' S' :
  rtc (call_step hub) (x, S) (x', S') → agrees c S → kept c x → kept c x'.
Proof.
  intros H. remember (x, S) as a eqn:Ea. remember (x', S') as b eqn:Eb.
  revert x S x' S' Ea Eb. induction H as [a|a [x1 S1] b Hstep _ IH]; intros x S x' S' Ea Eb Hag Hx;
    simplify_eq; [done|].
  eapply IH; [done..| |].
  - inversion Hstep as [| |r S0 p seen m A m' Hp _ Hs]; subst; try done.
    assert (m'.(m_id) = m.(m_id) ∧ m'.(m_present) = m.(m_present)) as [Hid Hpr] by by destruct Hs.
    intros q mq [[<- <-]|[_ Hq]]%lookup_insert_Some; [rewrite Hid, Hpr|]; auto.
  - inversion Hstep as [|r S0 p m Hp Hid Hpr|]; subst; try done. simpl in *. apply Hx.
    rewrite <- Hid. auto.
Qed.

Lemma kept_same c c' x : same_handles c c' → kept c x → kept c' x.
Proof. intros [Hh Hs]. destruct x; simpl; by rewrite ?Hh, ?Hs. Qed.

(** What is left of a handler, and its call. *)
Definition follows hub (y : Request * async' Answer) (x : Call) : Prop :=
  call_request x = y.1 ∧
  match y.2 with Done v => x = Answered y.1 v | Await _ _ => tracks hub y.2 x end.

Definition one_connect (cs : list (Request * async' Answer)) : Prop :=
  ∀ i j y z, i ≠ j → cs !! i = Some y → cs !! j = Some z →
    suspended y.2 = true → suspended z.2 = true → competing y.1 z.1 = false.

(** The states that correspond; [d] as in Running.v. *)
Record sim hub (d : option N) (R : Running) (S : SpecSt) : Prop := {
  sim_history : S.(s_history) = R.(history);
  sim_service : S.(s_service) = service R.(hub_state).(core);
  sim_arcs : arcs_but hub d R.(hub_state).(core);
  sim_calls : Forall2 (follows hub) R.(calls) S.(s_calls);
  sim_relies : Forall (relies hub S.(s_service)) S.(s_calls);
  sim_kept : Forall (kept R.(hub_state).(core)) S.(s_calls);
  sim_connects : one_connect R.(calls);
  sim_index : index_ok R.(hub_state).(core);
}.

(** *** A turn *)

Lemma relies_answered hub S y x : follows hub y x → suspended y.2 = false → relies hub S x.
Proof. intros [_ H]. destruct y as [r [v|X m k]]; [|done]. simpl in *. by subst. Qed.

Lemma sim_turn hub R S i r a :
  sim hub None R S → during R.(hub_state).(world) →
  R.(calls) !! i = Some (r, a) → suspended a = true →
  ∃ S', rtc (service_step hub) S S' ∧
    sim hub None (mk_Running (R.(history) ++ answer_of i (turn a R.(hub_state)).1)
      (<[i := (r, (turn a R.(hub_state)).1)]> R.(calls)) (turn a R.(hub_state)).2) S'.
Proof.
  destruct R as [h cs st], S as [h' xs Sv]. intros [Hh Hsv Hok Hcs Hre Hke Hco Hix] Hd Hi Hs; simpl in *.
  subst h' Sv. destruct (Forall2_lookup_l _ _ _ _ _ Hcs Hi) as (x & Hx & Hreq & Hfol). simpl in *.
  assert (tracks hub a x) as Ht by by destruct a.
  pose proof (Forall_lookup_1 _ _ _ _ Hre Hx) as Hrx.
  pose proof (Forall_lookup_1 _ _ _ _ Hke Hx) as Hkx.
  destruct (tracks_turn hub a x st Hs Ht Hd Hok Hrx) as (Hok' & Hsame & Hix' & x' & Hsteps & Ht').
  destruct (turn a st) as [a' st']. simpl in *.
  destruct (relies_steps _ _ _ _ _ Hsteps Hrx) as (Hrx' & Hreq' & Hothers).
  pose proof (kept_steps _ _ _ _ _ _ Hsteps (agrees_service _) Hkx) as Hkx'.
  set (x2 := match a' with Done v => Answered r v | Await _ _ => x' end).
  exists (mk_SpecSt (h ++ answer_of i a') (<[i := x2]> xs) (service st'.(core))).
  split; [|split; simpl].
  - etrans; [by eapply spec_calls|]. subst x2. destruct a' as [v|X m k]; simpl.
    + destruct Ht' as (A & -> & HA). apply rtc_once. rewrite Hreq', Hreq.
      rewrite <- (list_insert_insert_eq xs i (Answered r v) (Settled r A)).
      eapply spec_return; [|done]. apply list_lookup_insert_eq. by eapply lookup_lt_Some.
    + by rewrite app_nil_r.
  - done.
  - done.
  - done.
  - apply Forall2_insert; [done|]. subst x2. destruct a'; split; simpl; try done. congruence.
  - apply Forall_lookup_2. intros j y Hy. destruct (decide (i = j)) as [<-|Hne].
    + rewrite list_lookup_insert_eq in Hy by (by eapply lookup_lt_Some). injection Hy as <-.
      subst x2. by destruct a'.
    + rewrite list_lookup_insert_ne in Hy by done.
      destruct (Forall2_lookup_r _ _ _ _ _ Hcs Hy) as (z & Hz & Hfz).
      destruct (suspended z.2) eqn:Hsz; [|by eapply relies_answered].
      apply Hothers; [|by eapply Forall_lookup_1 in Hre]. destruct Hfz as [Hrz _].
      rewrite Hrz, Hreq. exact (Hco i j (r, a) z Hne Hi Hz Hs Hsz).
  - apply Forall_insert.
    + eapply Forall_impl; [exact Hke|]. intros y. by apply kept_same.
    + subst x2. destruct a'; [done|]. by eapply kept_same.
  - intros j1 j2 y z Hne Hy Hz Hsy Hsz.
    assert (∀ j w, <[i := (r, a')]> cs !! j = Some w → suspended w.2 = true →
      ∃ w', cs !! j = Some w' ∧ w'.1 = w.1 ∧ suspended w'.2 = true) as Hback.
    { intros j w [(-> & <- & _)|[_ ?]]%list_lookup_insert_Some Hw; eauto. }
    destruct (Hback _ _ Hy Hsy) as (y' & Hy' & <- & ?), (Hback _ _ Hz Hsz) as (z' & Hz' & <- & ?).
    by eapply Hco.
  - auto.
Qed.
(** *** What happens besides the calls *)

(** The members change and the calls stay where they are. *)
Lemma sim_env hub d d' R S st' S' :
  sim hub d R S → arcs_but hub d' st'.(core) →
  (index_ok R.(hub_state).(core) → index_ok st'.(core)) →
  rtc (service_step hub) S (mk_SpecSt S.(s_history) S.(s_calls) S') → S' = service st'.(core) →
  (∀ x, x ∈ S.(s_calls) → relies hub S.(s_service) x → kept R.(hub_state).(core) x →
     relies hub S' x ∧ kept st'.(core) x) →
  ∃ S2, rtc (service_step hub) S S2 ∧ sim hub d' (with_state st' R) S2.
Proof.
  intros [Hh Hsv Hok Hcs Hre Hke Hco Hix] Hok' Hix' Hsteps -> Hx. eexists. split; [exact Hsteps|].
  split; simpl; try done; [..|by auto]; apply Forall_forall; intros x Hin; apply Hx; try done;
    by eapply Forall_forall.
Qed.

Lemma sim_same_arcs hub d R S st' :
  sim hub d R S → arcs st'.(core) = arcs R.(hub_state).(core) →
  listing st'.(core) = listing R.(hub_state).(core) →
  sim hub d (with_state st' R) S.
Proof.
  intros [Hh Hsv Hok Hcs Hre Hke Hco Hix] Ha Hl. split; simpl; try done.
  - by rewrite (service_ext _ _ Ha).
  - by eapply arcs_ok_ext.
  - eapply Forall_impl; [exact Hke|]. intros x. apply kept_same. unfold arcs in Ha. split; congruence.
  - by eapply index_ok_ext.
Qed.

Lemma sim_drop hub p R S :
  sim hub (Some p) R S →
  ∃ S', rtc (service_step hub) S S' ∧ sim hub None (with_state (drop_arc hub p R.(hub_state)) R) S'.
Proof.
  intros Hsim. destruct (arcs_drop_arc hub p R.(hub_state) (sim_arcs _ _ _ _ Hsim))
    as (Hok & Hheld & Hsess & Hcase).
  pose proof (sim_service _ _ _ _ Hsim) as Hsv.
  destruct Hcase as [Heq|(Hnot & Hgone & Heq)].
  - eapply sim_env; [exact Hsim|exact Hok|apply index_ok_drop_arc| |reflexivity|].
    + rewrite Heq, <- Hsv. by destruct S.
    + intros x _ Hr Hk. rewrite Heq, <- Hsv. split; [done|]. by eapply kept_same.
  - destruct (service (core (hub_state R)) !! p) as [m|] eqn:Hp.
    2:{ eapply sim_env; [exact Hsim|exact Hok|apply index_ok_drop_arc| |reflexivity|].
        - rewrite Heq, delete_id, <- Hsv by done. by destruct S.
        - intros x _ Hr Hk. rewrite Heq, delete_id, <- Hsv by done. split; [done|]. by eapply kept_same. }
    eapply sim_env; [exact Hsim|exact Hok|apply index_ok_drop_arc| |reflexivity|].
    + rewrite Heq, <- Hsv. destruct S as [h xs Sv]. simpl in *. subst Sv. apply rtc_once.
      eapply spec_forget; [done|]. by apply Hgone.
    + intros x _ Hr Hk. split; [|by eapply kept_same]. rewrite Heq, <- Hsv.
      destruct x as [r|r q seen|r A|r a]; simpl; try done.
      destruct Hr as (mq & Hq & Hrest). exists mq. rewrite lookup_delete_ne; [done|].
      intros ->. done.
Qed.

Lemma kept_incl c c' x :
  c'.(registry).(sessions) ⊆ c.(registry).(sessions) → c.(held) ⊆ c'.(held) → kept c x → kept c' x.
Proof.
  intros Hs Hh. destruct x as [r|r p seen|r A|r a]; simpl; try done; [|set_solver].
  intros H p Hp. apply Hh, H. by eapply lookup_weaken.
Qed.

(** A session leaves the registry. *)
Lemma sim_deregister hub R S sid p m :
  let c := R.(hub_state).(core) in
  sim hub None R S → c.(registry).(sessions) !! sid = Some p →
  m.(sessions_opened_total) = c.(metrics).(sessions_opened_total) →
  ∃ S', rtc (service_step hub) S S' ∧
    sim hub (Some p) (with_state (set_core
      (set_metrics m (set_registry (deregister sid c.(registry)).2 c)) R.(hub_state)) R) S'.
Proof.
  intros c Hsim Hp Hm. pose proof (sim_arcs _ _ _ _ Hsim) as Hok.
  destruct (ao_sess _ _ _ Hok _ _ Hp) as (s & Hs & Hid). fold c in Hs.
  destruct (arcs_deregister hub c sid p s m Hok Hp Hs Hm) as (Hok' & Hheld & Hsess & Hserv).
  pose proof (sim_service _ _ _ _ Hsim) as Hsv. fold c in Hsv.
  assert (service c !! p = Some (peer_of c.(registry).(sessions) p s)) as Hmem
    by by rewrite service_lookup, Hs.
  eapply sim_env; [exact Hsim|exact Hok'|by eapply index_ok_deregister| |reflexivity|]; simpl; rewrite Hserv, <- Hsv.
  - destruct S as [h xs Sv]. simpl in *. subst Sv. apply rtc_once. apply spec_dismiss; [done|].
    simpl. apply bool_decide_eq_true. by rewrite Hid.
  - intros x _ Hr Hk. split; [eapply relies_insert; [by rewrite Hsv|done..]|].
    eapply kept_incl; [| |exact Hk]; [rewrite Hsess; apply delete_subseteq|by rewrite Hheld].
Qed.

Lemma sim_close hub R S sid :
  sim hub None R S →
  ∃ S', rtc (service_step hub) S S' ∧
    sim hub None (with_state (close_session hub sid R.(hub_state)) R) S'.
Proof.
  intros Hsim. unfold close_session.
  destruct (sessions (registry (core (hub_state R))) !! sid) as [p|] eqn:Hp.
  - destruct (deregister_Some _ _ _ Hp) as (Heq & _). rewrite Heq.
    edestruct (sim_deregister hub R S sid p) as (S1 & H1 & Hsim1); [done|done| |].
    2:{ destruct (sim_drop _ _ _ _ Hsim1) as (S2 & H2 & Hsim2). exists S2.
        split; [by etrans|]. exact Hsim2. }
    done.
  - exists S. split; [apply rtc_refl|]. unfold deregister. rewrite Hp.
    by apply sim_same_arcs.
Qed.

Lemma sim_kick hub R S sid :
  sim hub None R S →
  ∃ S', rtc (service_step hub) S S' ∧
    sim hub None (with_state (kick_session hub sid R.(hub_state)).2 R) S'.
Proof.
  intros Hsim. unfold kick_session, get.
  destruct (sessions (registry (core (hub_state R))) !! sid) as [p|] eqn:Hp.
  2:{ exists S. split; [apply rtc_refl|]. by apply sim_same_arcs. }
  set (c := R.(hub_state).(core)) in *.
  set (st1 := set_core (store p (signal_shutdown (deref c p)) c) R.(hub_state)).
  destruct (ao_sess _ _ _ (sim_arcs _ _ _ _ Hsim) _ _ Hp) as (s & Hs & Hid). fold c in Hs.
  assert (sim hub None (with_state st1 R) S) as Hsim1.
  { assert (service st1.(core) = service c) as Hsv.
    { simpl. rewrite (service_store _ _ s) by done. apply insert_id.
      by rewrite service_lookup, Hs, (deref_heap _ _ _ Hs). }
    unfold st1 in Hsv. simpl in Hsv.
    destruct Hsim as [? ? Hok ? ? Hke ? Hix]. split; simpl; try done.
    - by rewrite Hsv.
    - eapply arcs_ok_store; [done|exact Hs|by rewrite (deref_heap _ _ _ Hs)..].
    - eapply index_ok_store; [exact Hs|by rewrite (deref_heap _ _ _ Hs)..|done]. }
  destruct (deregister_Some _ _ _ Hp) as (Heq & _).
  change (registry (store ?p ?s ?c)) with (registry c). rewrite Heq.
  edestruct (sim_deregister hub (with_state st1 R) S sid p) as (S1 & H1 & Hsim2); [done|done| |].
  2:{ destruct (sim_drop _ _ _ _ Hsim2) as (S2 & H2 & Hsim3). exists S2.
      split; [by etrans|]. exact Hsim3. }
  done.
Qed.

Lemma in_flight_elem (cs : list (Request * async' Answer)) y :
  y ∈ cs → suspended y.2 = true → y.1 ∈ in_flight cs.
Proof. intros Hy Hs. apply list_elem_of_fmap. exists y. split; [done|]. by apply list_elem_of_filter. Qed.

Lemma sim_in_flight hub d R S x :
  sim hub d R S → x ∈ S.(s_calls) →
  match x with Answered _ _ => True | _ => call_request x ∈ in_flight R.(calls) end.
Proof.
  intros Hsim Hx. apply list_elem_of_lookup in Hx as [i Hi].
  destruct (Forall2_lookup_r _ _ _ _ _ (sim_calls _ _ _ _ Hsim) Hi) as ([r a] & Hy & Hr & Hf).
  simpl in *. assert (suspended a = true → call_request x ∈ in_flight R.(calls)) as H.
  { intros Hs. rewrite Hr. change r with (r, a).1. apply in_flight_elem; [|done].
    by eapply list_elem_of_lookup_2. }
  destruct a as [v|X m k]; [by rewrite Hf|]. destruct x; auto.
Qed.

Lemma sim_release hub R S p :
  sim hub None R S → may_release R p = true →
  ∃ S', rtc (service_step hub) S S' ∧
    sim hub None (with_state (release hub p R.(hub_state)) R) S'.
Proof.
  intros Hsim [Hheld%bool_decide_eq_true Hfree]%andb_true_iff.
  set (c := R.(hub_state).(core)) in *. pose proof (sim_arcs _ _ _ _ Hsim) as Hok. fold c in Hok.
  destruct (ao_held _ _ _ Hok _ Hheld) as [s Hs].
  assert (∀ x, x ∈ S.(s_calls) → match x with Answered _ _ => True | _ => requester (call_request x) ≠ s.(id) end)
    as Hother.
  { intros x Hx. pose proof (sim_in_flight _ _ _ _ _ Hsim Hx) as Hin.
    rewrite forallb_forall in Hfree. rewrite (deref_heap _ _ _ Hs) in Hfree.
    destruct x; try done; apply list_elem_of_In, Hfree, bool_decide_eq_true in Hin; done. }
  destruct (sim_env hub None (Some p) R S (set_core (set_held (c.(held) ∖ {[p]}) c) R.(hub_state))
    (service c)) as (S1 & H1 & Hsim1); [done| | | |done| |].
  - destruct Hok as [Hse Hhe Hli Hfr Hne Hun Han]. split; simpl; try done.
    + intros q Hq. apply Hhe. set_solver.
    + intros q sq Hq. destruct (Hli _ _ Hq) as [|[|]]; [|by auto|done].
      destruct (decide (q = p)) as [->|]; [by auto|]. left. set_solver.
  - by apply index_ok_ext.
  - unfold c. rewrite <- (sim_service _ _ _ _ Hsim). by destruct S.
  - intros x Hx Hr Hk. unfold c. rewrite <- (sim_service _ _ _ _ Hsim). split; [done|].
    specialize (Hother x Hx). destruct x as [r|r q seen|r A|r a]; simpl in *; try done.
    + intros q Hq. specialize (Hk q Hq). destruct (decide (q = p)) as [->|]; [|set_solver].
      destruct (ao_sess _ _ _ Hok _ _ Hq) as (s' & Hs' & Hid). simplify_eq.
    + destruct (decide (q = p)) as [->|]; [|set_solver]. destruct Hr as (m & Hm & Hid & _).
      rewrite (sim_service _ _ _ _ Hsim) in Hm. fold c in Hm.
      apply service_lookup_Some in Hm as (s' & Hs' & ->). simplify_eq.
  - destruct (sim_drop _ _ _ _ Hsim1) as (S2 & H2 & Hsim2). exists S2. split; [by etrans|]. exact Hsim2.
Qed.
Lemma sim_open hub R S o :
  sim hub None R S →
  (R.(hub_state).(core).(metrics).(sessions_opened_total) < u64_modulus)%N →
  ∃ S', rtc (service_step hub) S S' ∧
    sim hub None (with_state (open_session hub o R.(hub_state)).2 R) S'.
Proof.
  intros Hsim Hlt. destruct (arcs_open hub o R.(hub_state) (sim_arcs _ _ _ _ Hsim) Hlt)
    as (Hok & Hheld & Hsess & Hnone & Hnew & Hserv).
  set (c := R.(hub_state).(core)) in *. pose proof (sim_service _ _ _ _ Hsim) as Hsv. fold c in Hsv.
  eapply sim_env; [exact Hsim|exact Hok|apply index_ok_open; [apply Hsim|exact Hlt]| |reflexivity|]; rewrite Hserv, <- Hsv.
  - destruct S as [h xs Sv]. simpl in *. subst Sv. apply rtc_once. by apply spec_open.
  - intros x _ Hr Hk. destruct x as [r|r q seen|r A|r a]; try done; simpl in *.
    + split; [done|]. rewrite Hheld. setoid_rewrite Hsess.
      intros q [[_ <-]|[_ Hq]]%lookup_insert_Some; [set_solver|]. specialize (Hk q Hq). set_solver.
    + split; [|rewrite Hheld; set_solver]. destruct Hr as (m & Hm & Hrest). exists m.
      rewrite lookup_insert_ne; [done|]. rewrite Hsv in Hm. congruence.
Qed.

Lemma handle_suspended hub r : suspended (handle_async (M:=M) hub r) = true.
Proof. by destruct r. Qed.

Lemma competing_sym r r' : competing r r' = competing r' r.
Proof. destruct r, r'; try done. simpl. by apply bool_decide_ext. Qed.

Lemma sim_arrive hub R S r :
  sim hub None R S → may_arrive R r = true →
  ∃ S', rtc (service_step hub) S S' ∧
    sim hub None (mk_Running (R.(history) ++ [Invoked r]) (R.(calls) ++ [(r, handle_async hub r)])
                    R.(hub_state)) S'.
Proof.
  destruct R as [h cs st], S as [h' xs Sv]. intros [Hh Hsv Hok Hcs Hre Hke Hco Hix]. simpl in *.
  intros [Hcomp Hheld]%andb_true_iff. simpl in *. subst h' Sv.
  eexists. split; [apply rtc_once, spec_invoke|]. split; simpl; try done.
  - apply Forall2_app; [done|]. constructor; [|done]. split; [done|]. simpl.
    pose proof (tracks_handle hub r) as Ht. by destruct (handle_async hub r) eqn:E;
      [pose proof (handle_suspended hub r) as Hs; rewrite E in Hs|].
  - apply Forall_app. split; [done|]. by constructor.
  - apply Forall_app. split; [done|]. constructor; [|done]. simpl. intros p Hp. unfold get in Hheld.
    rewrite Hp in Hheld. by apply bool_decide_eq_true in Hheld.
  - rewrite forallb_forall in Hcomp.
    assert (∀ i y, cs !! i = Some y → suspended y.2 = true → competing r y.1 = false) as Hnew.
    { intros i y Hy Hsy. apply negb_true_iff, Hcomp, list_elem_of_In, in_flight_elem; [|done].
      by eapply list_elem_of_lookup_2. }
    intros i j y z Hne Hy Hz Hsy Hsz.
    apply lookup_app_Some in Hy as [Hy|[Hi Hy]], Hz as [Hz|[Hj Hz]].
    + by eapply Hco.
    + apply list_lookup_singleton_Some in Hz as [_ <-]. simpl. rewrite competing_sym. by eapply Hnew.
    + apply list_lookup_singleton_Some in Hy as [_ <-]. by eapply Hnew.
    + apply list_lookup_singleton_Some in Hy as [? _], Hz as [? _]. lia.
Qed.

Lemma arcs_forward hub task st : arcs (forward hub task st).(core) = arcs st.(core).
Proof.
  unfold forward. destruct (tasks (core st) !! task) as [t|]; [|done].
  destruct (stream_next _ _ _) as [[|[p|]] w]; [done| |].
  - pose proof (outbox_send_core t.(t_outbox) (SF_Publication p)
                  (mk_HubSt st.(core) st.(outboxes) w)) as Hc.
    destruct (outbox_send _ _ _) as [[|] st']; simpl in Hc; rewrite ?end_task_core, Hc; done.
  - by rewrite end_task_core.
Qed.

Lemma sim_step hub R R' S :
  sim hub None R S → during R.(hub_state).(world) → running_step hub R R' →
  ∃ S', rtc (service_step hub) S S' ∧ sim hub None R' S'.
Proof.
  intros Hsim Hd [act R1 Hact|outs w].
  2:{ exists S. split; [apply rtc_refl|]. by apply sim_same_arcs. }
  destruct act; simpl in Hact.
  - destruct (may_arrive R r) eqn:E; [|done]. injection Hact as <-. by apply sim_arrive.
  - destruct (calls R !! i) as [[r a]|] eqn:Hi; [|done].
    destruct (suspended a) eqn:Hs; [|done].
    pose proof (sim_turn hub R S i r a Hsim Hd Hi Hs) as H. destruct (turn a _) as [a' st'].
    by injection Hact as <-.
  - case_bool_decide; [|done]. injection Hact as <-. by apply sim_open.
  - injection Hact as <-. by apply sim_close.
  - injection Hact as <-. by apply sim_kick.
  - destruct (may_release R ptr) eqn:E; [|done]. injection Hact as <-. by apply sim_release.
  - injection Hact as <-. exists S. split; [apply rtc_refl|]. apply sim_same_arcs; [done| |].
    + apply arcs_forward.
    + apply listing_forward.
Qed.

Lemma sim_init hub (w : W) : sim hub None (running_init w) service_init.
Proof.
  split; simpl; try done. apply (index_ok_init w).
Qed.

Lemma sim_run hub R R' S :
  rtc (running_step hub) R R' →
  (∀ R1, rtc (running_step hub) R R1 → rtc (running_step hub) R1 R' →
     during R1.(hub_state).(world)) →
  sim hub None R S →
  ∃ S', rtc (service_step hub) S S' ∧ sim hub None R' S'.
Proof.
  intros H. revert S. induction H as [R|R R1 R' Hstep Hrest IH]; intros S Hd Hsim.
  - exists S. split; [apply rtc_refl|done].
  - assert (during R.(hub_state).(world)) as Hw
      by (apply Hd; [apply rtc_refl|exact (rtc_l _ R R1 R' Hstep Hrest)]).
    destruct (sim_step hub R R1 S Hsim Hw Hstep) as (S1 & H1 & Hsim1).
    destruct (IH S1) as (S2 & H2 & Hsim2); [|done|exists S2; split; [by etrans|done]].
    intros R2 H12 H2. apply Hd; [exact (rtc_l _ R R1 R2 Hstep H12)|done].
Qed.
End linear.

Section linearizability.
Context {W Str : Type} `{NO : Notifier} `{M : Mpsc}.
Implicit Types (hub : @Hub W Str).

(** The components' memory at the moments of a run. *)
Definition moments hub (w0 : W) (R : @Running W Str NO M) : During W := λ w,
  ∃ R1, rtc (running_step hub) (running_init w0) R1 ∧ rtc (running_step hub) R1 R ∧
    w = R1.(hub_state).(world).

Lemma sim_reachable hub (w0 : W) R :
  rtc (running_step hub) (running_init w0) R →
  ∃ S, rtc (service_step (D:=moments hub w0 R) hub) service_init S ∧
    sim (D:=moments hub w0 R) hub None R S.
Proof.
  intros Hrun. apply (sim_run (D:=moments hub w0 R) _ _ _ _ Hrun); [|apply sim_init].
  intros R1 H1 H2. by exists R1.
Qed.

(** The run to [R] is one of the service: [xs] are the calls there. *)
Definition linearized hub (w0 : W) (R : @Running W Str NO M) : Prop :=
  ∃ xs, rtc (service_step (D:=moments hub w0 R) hub) service_init
          (mk_SpecSt R.(history) xs (service R.(hub_state).(core))) ∧
    Forall2 (λ y x, call_request x = y.1 ∧ ∀ v, y.2 = Done v → x = Answered y.1 v) R.(calls) xs.

Lemma run_linearized hub (w0 : W) R :
  rtc (running_step hub) (running_init w0) R → linearized hub w0 R.
Proof.
  intros Hrun. destruct (sim_reachable _ _ _ Hrun) as ([h xs Sv] & Hsteps & Hsim).
  exists xs. destruct Hsim as [Hh Hsv _ Hcs _ _ _ _]. simpl in *. subst h Sv. split; [done|].
  eapply Forall2_impl; [exact Hcs|]. intros [r a] x [Hr Hf]. split; [done|]. simpl in *.
  intros v ->. done.
Qed.

End linearizability.

(** ** Witness: a subscribe and a kick cross, and a publish of someone else *)

Section witnesses.
#[local] Existing Instances QueueBroadcast CountNotifier QueueMpsc.

Definition crossing : list Action :=
  [DoOpen 0; DoOpen 1; DoArrive (RSubscribe 0 1 "rooms.lobby" 0); DoTurn 0; DoTurn 0;
   DoArrive (RPublish 1 "rooms.lobby" [x01]); DoTurn 1; DoTurn 0; DoKick 0; DoTurn 1; DoTurn 0; DoTurn 1; DoTurn 0;
   DoTurn 1; DoTurn 1; DoTurn 0; DoTurn 0; DoTurn 1].

Definition crossed : @Running NodeW MemStream CountNotifier QueueMpsc :=
  run_actions open_node crossing (running_init (node_init 4 1000 8)).

(** Who was answered, and whether with success. *)
Definition verdicts (h : list Observed) : list (option (nat * bool)) :=
  (λ e, match e with Invoked _ => None | Returned i a => Some (i, is_ok a) end) <$> h.

Definition peers (R : @Running NodeW MemStream CountNotifier QueueMpsc) : list (N * bool * list string) :=
  (λ m, (m.(m_id), m.(m_present), elements m.(m_channels)))
    <$> (map_to_list (service R.(hub_state).(core))).*2.

(** The kicked session is answered, and has its subscription until its connection
    lets go of it. *)
Example crossed_outcome :
  (verdicts crossed.(history), peers crossed)
  = ([None; None; Some (0, true); Some (1, true)],
     [(1%N, true, []); (0%N, false, ["rooms.lobby"])]).
Proof. vm_compute. reflexivity. Qed.

(** The promise of the transports is needed: of two connects of a session, the
    second segment of each after the first of both, both succeed. *)
Definition racing_connects : list bool :=
  let connect := turn (handle_async jwt_node (RConnect 0 1 "alice:k")) in
  let '(a, st) := connect (sample_open jwt_node) in
  let '(b, st) := connect st in
  let '(x, st) := run a st in
  let '(y, st) := run b st in
  [is_ok x; is_ok y; is_ok (handle jwt_node (RConnect 0 1 "alice:k") st).1].

Example racing_connects_both_succeed : racing_connects = [true; true; false].
Proof. vm_compute. reflexivity. Qed.
End witnesses.

