(* ===== verification/Index.v ===== *)
(** * The reverse index while requests interleave

    The channel index of cherenkov-core/src/session.rs, in every state that the
    machine of Running.v reaches: right about every registered session, and wrong for
    good about a session that is kicked before its subscribe commits. *)
From S2P Require Import Prelude Protocol Traits Session Hub HubInv HubReach HubSteps.
From S2P Require Import MemoryBroker Node HubProps Ws Async Race Service Running Linear.

Section index.
Context {W Str : Type} `{NO : Notifier} `{M : Mpsc}.
Implicit Types (c : @HubCore Str _) (st : @HubSt W Str _ M) (hub : @Hub W Str).
Abbreviation io' := (io (@HubSt W Str _ M) HubError).
Abbreviation async' := (async (@HubSt W Str _ M) HubError).
Abbreviation arcs_ok hub := (arcs_but hub None).

(** ** What every running state has *)

Lemma running_arcs hub (w0 : W) (R : @Running W Str NO M) :
  rtc (running_step hub) (running_init w0) R → arcs_ok hub R.(hub_state).(core).
Proof. intros H. destruct (sim_reachable _ _ _ H) as (S & _ & Hsim). by destruct Hsim. Qed.

Lemma running_index hub (w0 : W) (R : @Running W Str NO M) :
  rtc (running_step hub) (running_init w0) R → index_ok R.(hub_state).(core).
Proof. intros H. destruct (sim_reachable _ _ _ H) as (S & _ & Hsim). by destruct Hsim. Qed.

Lemma running_deref hub c sid ptr :
  arcs_ok hub c → get c.(registry) sid = Some ptr →
  c.(heap) !! ptr = Some (deref c ptr) ∧ (deref c ptr).(id) = sid.
Proof.
  intros Hok Hs. destruct (ao_sess _ _ _ Hok _ _ Hs) as (s & Hp & Hid).
  by rewrite (deref_heap _ _ _ Hp).
Qed.

Lemma running_listed hub c sid ptr ch :
  arcs_ok hub c → index_ok c → get c.(registry) sid = Some ptr →
  sid ∈ subscribers_of c.(registry) ch ↔ has_subscription (deref c ptr) ch = true.
Proof.
  intros Hok Hix Hs. destruct (running_deref _ _ _ _ Hok Hs) as [Hp Hid].
  unfold has_subscription. rewrite bool_decide_eq_true. split.
  - intros Hin. eapply (ix_alive _ Hix); [exact Hp|by rewrite Hid].
  - intros Hsub. by eapply (ix_registered _ Hix).
Qed.

(** C6: in every state the hub reaches, with any number of requests, forwarders,
    kicks and closes interleaved await by await (transports keep the handle of a
    session while a request of it is in flight), a session that is registered is
    listed under a channel if and only if it has a subscription to it.  No id is
    listed twice, and a channel nobody is listed under has no entry.  An id that is
    listed without being registered is that of a session that was opened and has
    since been closed or kicked, and that has the subscription as long as its
    connection holds on to it (C29 is how that comes about). *)
Theorem index_exact_while_running hub (w0 : W) R (ch : string)
    (Hrun : rtc (running_step hub) (running_init w0) R) :
  let c := R.(hub_state).(core) in
  (∀ sid ptr, get c.(registry) sid = Some ptr →
     (deref c ptr).(id) = sid ∧
     (sid ∈ subscribers_of c.(registry) ch ↔ has_subscription (deref c ptr) ch = true)) ∧
  (∀ ptr s, c.(heap) !! ptr = Some s → s.(id) ∈ subscribers_of c.(registry) ch →
     has_subscription s ch = true) ∧
  (∀ sid, sid ∈ subscribers_of c.(registry) ch →
     (sid < c.(metrics).(sessions_opened_total))%N) ∧
  NoDup (subscribers_of c.(registry) ch) ∧ c.(registry).(channels) !! ch ≠ Some [].
Proof.
  pose proof (running_arcs _ _ _ Hrun) as Hok. pose proof (running_index _ _ _ Hrun) as Hix.
  intros c. split; [|split; [|split; [|split]]].
  - intros sid ptr Hs. split; [by eapply running_deref|by eapply running_listed].
  - intros ptr s Hp Hin. apply bool_decide_eq_true. by eapply (ix_alive _ Hix).
  - apply (ix_opened _ Hix).
  - apply (ix_nodup _ Hix).
  - intros H. by apply (ix_entries _ Hix) in H.
Qed.

(** ** An entry that stays *)

(** Nobody has the id any more, and the index lists it. *)
Definition stale (sid : N) (ch : string) c : Prop :=
  get c.(registry) sid = None ∧ (sid < c.(metrics).(sessions_opened_total))%N ∧
  sid ∈ subscribers_of c.(registry) ch.

Lemma stale_ext sid ch c c' :
  c'.(registry) = c.(registry) →
  c'.(metrics).(sessions_opened_total) = c.(metrics).(sessions_opened_total) →
  stale sid ch c → stale sid ch c'.
Proof. unfold stale. by intros -> ->. Qed.

Lemma keeps_stale_get sid ch {A} sid' (k : N → io' A) :
  (sid' ≠ sid → ∀ p, keeps (stale sid ch) (k p)) →
  keeps (stale sid ch) (let! p := get_session sid' in k p).
Proof.
  intros Hk st HP. unfold io_bind. destruct (get st.(core).(registry) sid') as [p|] eqn:Hg.
  - rewrite (get_session_eq _ _ _ Hg). apply Hk; [|done]. intros ->.
    destruct HP as [Hn _]. congruence.
  - by rewrite (get_session_None _ _ Hg).
Qed.

Lemma keeps_stale_modify sid ch {A} p (f : Session → A * Session) :
  keeps (stale sid ch) (modify_session p f : io' A).
Proof. intros st HP. unfold modify_session. by destruct (f _). Qed.

Lemma keeps_stale_end_task sid ch hub t : keeps (stale sid ch) (io_modify (end_task hub t) : io' unit).
Proof. apply keeps_modify. intros st. by rewrite end_task_core. Qed.

Lemma keeps_stale_spawn sid ch tk :
  keeps (stale sid ch) ((λ st, let '(t, st) := spawn tk st in (Ok t, st)) : io' N).
Proof. intros st HP. unfold spawn. exact HP. Qed.

Lemma keeps_stale_add sid ch sid' ch' :
  keeps (stale sid ch) (io_modify (λ st, set_core (set_registry
    (add_to_index sid' ch' st.(core).(registry)) st.(core)) st) : io' unit).
Proof.
  apply keeps_modify. intros st (Hn & Hlt & Hin). split; [done|]. split; [done|].
  simpl. rewrite subscribers_of_add. case_decide; [subst; set_solver|done].
Qed.

Lemma keeps_stale_remove sid ch sid' ch' : sid' ≠ sid →
  keeps (stale sid ch) (io_modify (λ st, set_core (set_registry
    (remove_from_index sid' ch' st.(core).(registry)) st.(core)) st) : io' unit).
Proof.
  intros Hne. apply keeps_modify. intros st (Hn & Hlt & Hin). split; [|split; [done|]].
  - unfold get. simpl. by rewrite sessions_remove_from_index.
  - simpl. rewrite subscribers_of_remove. case_decide; [subst|done].
    by apply list_elem_of_filter.
Qed.

#[local] Hint Resolve keeps_stale_modify keeps_stale_end_task keeps_stale_spawn keeps_stale_add
  keeps_stale_remove keeps_unwind keeps_send_one : keeps.

Lemma keeps_stale_claims sid ch hub p : keeps (stale sid ch) (require_claims hub p : io' _).
Proof.
  apply keeps_bind; [apply keeps_read|]. intros [cl|]; [apply keeps_ret|].
  destruct (allow_anonymous _); keeps_auto.
Qed.

#[local] Hint Resolve keeps_stale_claims : keeps.

Lemma keeps_stale_start sid ch hub sid' : keeps (stale sid ch) (start hub sid' : io' _).
Proof. apply keeps_stale_get. intros _ p. keeps_auto. Qed.

Lemma keeps_stale_commit sid ch hub sid' rid p ch' cursor stream o :
  keeps (stale sid ch) (commit_segment hub sid' rid p ch' cursor stream o : io' _).
Proof.
  apply keeps_bind; [apply keeps_stale_spawn|]. intros t. keeps_auto.
Qed.

Lemma keeps_stale_remove_segment sid ch hub sid' ch' :
  keeps (stale sid ch) (remove_segment hub sid' ch' : io' _).
Proof. apply keeps_stale_get. intros Hne p. keeps_auto. Qed.

Lemma keeping_fail P hub ch stream e :
  keeping (λ st, P st.(core)) (fail_async hub ch stream e : async' _).
Proof. split; [apply keeps_unwind|]. intros _. split; [apply keeps_drop_stream|done]. Qed.

Lemma keeping_replay P hub sid o ch since stream (fin : async' SubscribeOk) :
  keeping (λ st, P st.(core)) fin →
  keeping (λ st, P st.(core)) (replay_async hub sid o ch since stream fin).
Proof.
  intros Hfin. unfold replay_async. case_decide; [|done].
  split; [apply keeps_try, keeps_on_world|]. intros [ps|e]; [|apply keeping_fail].
  induction ps as [|p ps IH]; simpl; [done|].
  split; [apply keeps_send_one|]. intros [|]; [exact IH|apply keeping_fail].
Qed.

Lemma keeping_stale_commit sid ch hub sid' rid p ch' cursor stream o :
  keeping (λ st, stale sid ch st.(core))
    (commit_async hub sid' rid p ch' cursor stream o : async' _).
Proof.
  split; [apply keeps_stale_commit|]. intros [ok|]; [done|]. split; [apply keeps_unwind|done].
Qed.

(** No request takes the entry away. *)
Lemma keeping_stale sid ch hub r :
  keeping (λ st, stale sid ch st.(core)) (handle_async hub r : async' Answer).
Proof.
  destruct r; apply keeping_map.
  - split; [apply keeps_stale_get; intros _ p; keeps_auto|]. intros p.
    split; [apply keeps_on_world|]. intros cl. split; [apply keeps_stale_modify|done].
  - split; [apply keeps_stale_start|]. intros [p cl].
    split; [apply keeps_enforce_acl|]. intros _. split; [keeps_auto|]. intros _.
    split; [apply keeps_on_world|]. intros cursor. split; [apply keeps_try, keeps_on_world|].
    intros [stream|e]; [|split; [apply keeps_unwind|done]].
    split; [apply keeps_read|]. intros o. apply (keeping_replay (stale sid ch)), keeping_stale_commit.
  - split; [apply keeps_stale_remove_segment|]. intros _. split; [apply keeps_on_world|done].
  - split; [apply keeps_stale_start|]. intros [p cl].
    split; [apply keeps_enforce_acl|]. intros _. do 3 (split; [apply keeps_on_world|]; intros ?).
    split; [|done]. by apply keeps_modify.
Qed.

Lemma stale_drop_arc sid ch hub p st :
  stale sid ch st.(core) → stale sid ch (drop_arc hub p st).(core).
Proof.
  apply stale_ext; [apply drop_arc_registry|]. unfold drop_arc. destruct (referenced _ _); [done|].
  simpl. by rewrite abort_tasks_core.
Qed.

Lemma stale_deregister sid ch sid' p c :
  get c.(registry) sid' = Some p → stale sid ch c →
  stale sid ch (set_registry (deregister sid' c.(registry)).2 c).
Proof.
  intros Hp (Hn & Hlt & Hin). destruct (deregister_Some _ _ _ Hp) as (_ & Hd & _ & _).
  split; [|split; [done|]].
  - unfold get in *. simpl. rewrite Hd. apply lookup_delete_None. by right.
  - simpl. rewrite subscribers_of_deregister by eauto. apply list_elem_of_filter.
    split; [congruence|done].
Qed.

Definition only_handlers hub (R : @Running W Str NO M) : Prop :=
  ∀ sid ch, Forall (λ y, keeping (λ st, stale sid ch st.(core)) y.2) R.(calls).

Lemma only_handlers_step hub R R' :
  only_handlers hub R → running_step hub R R' → only_handlers hub R'.
Proof.
  intros H [act R1 Hact|outs w]; [|done]. intros sid ch. specialize (H sid ch).
  destruct act; simpl in Hact; repeat case_match; simplify_eq; try done; simpl.
  - apply Forall_app. split; [done|]. constructor; [apply keeping_stale|done].
  - apply Forall_insert; [done|]. simpl.
    match goal with Ht : turn ?a ?w = _, Hi : calls _ !! _ = Some (_, ?a) |- _ =>
      pose proof (keeping_turn _ a w (Forall_lookup_1 _ _ _ _ H Hi)) as [Hk _];
      rewrite Ht in Hk end. done.
Qed.

(** Nothing takes it away. *)
Lemma stale_step sid ch hub R R' :
  arcs_ok hub R.(hub_state).(core) → only_handlers hub R → running_step hub R R' →
  stale sid ch R.(hub_state).(core) → stale sid ch R'.(hub_state).(core).
Proof.
  intros Hok Hon [act R1 Hact|outs w] Hst; [|done]. specialize (Hon sid ch).
  destruct act; simpl in Hact.
  - case_match; simplify_eq; done.
  - destruct (calls R !! i) as [[r a]|] eqn:Hi; [|done]. destruct (suspended a); [|done].
    pose proof (keeping_turn _ a R.(hub_state) (Forall_lookup_1 _ _ _ _ Hon Hi)) as [_ Hk].
    destruct (turn a _) as [a' st']. simplify_eq. simpl in *. auto.
  - case_bool_decide as Hlt; simplify_eq. destruct Hst as (Hn & Ho & Hin).
    pose proof (ao_next _ _ _ Hok) as Hne. rewrite N.mod_small in Hne by done.
    split; [|split; [simpl; lia|done]]. unfold get in *. simpl. rewrite lookup_insert_ne; [done|].
    rewrite Hne. lia.
  - simplify_eq. simpl. unfold close_session.
    destruct (sessions (registry (core (hub_state R))) !! sid0) as [p|] eqn:Hp.
    + destruct (deregister_Some _ _ _ Hp) as (-> & _). apply stale_drop_arc. simpl.
      eapply stale_ext; [..|by eapply stale_deregister]; done.
    + unfold deregister. by rewrite Hp.
  - simplify_eq. simpl. unfold kick_session.
    destruct (get _ sid0) as [p|] eqn:Hp; [|done].
    change (registry (store ?p ?s ?c)) with (registry c).
    destruct (deregister_Some _ _ _ Hp) as (-> & _). simpl. apply stale_drop_arc.
    eapply stale_ext; [..|by eapply stale_deregister]; done.
  - case_match; simplify_eq. simpl. unfold release. by apply stale_drop_arc.
  - simplify_eq. simpl. pose proof (listing_forward hub task R.(hub_state)) as Hl.
    unfold listing in Hl. injection Hl as Hs Hc Hh Ho. unfold stale, get, subscribers_of.
    rewrite Hs, Hc, Ho. exact Hst.
Qed.

Lemma only_handlers_run hub R R' :
  rtc (running_step hub) R R' → only_handlers hub R → only_handlers hub R'.
Proof. induction 1; eauto using only_handlers_step. Qed.

Lemma stale_run sid ch hub (w0 : W) R R' :
  rtc (running_step hub) (running_init w0) R → rtc (running_step hub) R R' →
  stale sid ch R.(hub_state).(core) → stale sid ch R'.(hub_state).(core).
Proof.
  intros H0 H. induction H as [R|R R1 R' Hstep _ IH]; [done|]. intros Hst.
  apply IH; [by eapply rtc_r|]. eapply stale_step; [by eapply running_arcs| |done..].
  eapply only_handlers_run; [exact H0|]. intros ??. constructor.
Qed.

(** C29: a session is kicked while its subscribe to a channel it does not have waits
    to commit (nothing else of it is in flight, and its connection holds it): it is
    subscribed all the same.  The handler succeeds, its reply finds no session to go
    to, and the forwarder is spawned.  Once the connection lets go the session and
    the forwarder are gone; in every state the hub reaches from there, whatever
    runs, the session is not registered and the reverse index still lists it. *)
Theorem kick_mid_subscribe_leaves_stale_entry hub (w0 : W) R i sid rid ch since ptr cursor stream o
    (Hrun : rtc (running_step hub) (running_init w0) R)
    (Hcall : R.(calls) !! i = Some (RSubscribe sid rid ch since,
       map_async ASubscribe (commit_async hub sid rid ptr ch cursor stream o)))
    (Honly : ∀ j r a, j ≠ i → R.(calls) !! j = Some (r, a) → suspended a = true →
       requester r ≠ sid)
    (Hs : get R.(hub_state).(core).(registry) sid = Some ptr)
    (Hheld : ptr ∈ R.(hub_state).(core).(held))
    (Hfree : has_subscription (deref R.(hub_state).(core) ptr) ch = false) :
  let ok := mk_SubscribeOk rid ch cursor.(epoch) cursor.(offset) in
  let t := R.(hub_state).(core).(next_task) in
  ∃ R1 R2 R3, perform hub (DoKick sid) R = Some R1 ∧ perform hub (DoTurn i) R1 = Some R2 ∧
    perform hub (DoRelease ptr) R2 = Some R3 ∧
    R2.(history) = R.(history) ++ [Returned i (Ok (ASubscribe ok))] ∧
    deliver sid (SF_SubscribeOk ok) R2.(hub_state) = R2.(hub_state) ∧
    R2.(hub_state).(core).(tasks) !! t = Some (mk_Task stream o ch) ∧
    R3.(hub_state).(core).(tasks) !! t = None ∧ R3.(hub_state).(core).(heap) !! ptr = None ∧
    ∀ R4, rtc (running_step hub) R3 R4 →
      get R4.(hub_state).(core).(registry) sid = None ∧
      sid ∈ subscribers_of R4.(hub_state).(core).(registry) ch.
Proof.
  pose proof (running_arcs _ _ _ Hrun) as Hok. intros ok t.
  destruct (running_deref _ _ _ _ Hok Hs) as [Hp Hid].
  destruct (kick_then_commit hub sid ptr rid ch cursor stream o R.(hub_state)) as
    (st2 & Hcommit & Hheld2 & Hid2 & Ho2 & Hgone & Hin & Htask & Hsub); [done..| |].
  { apply bool_decide_eq_false in Hfree. by apply eq_None_not_Some. }
  set (R1 := with_state (kick_session hub sid R.(hub_state)).2 R).
  set (R2 := mk_Running (R.(history) ++ [Returned i (Ok (ASubscribe ok))])
    (<[i := (RSubscribe sid rid ch since, Done (Ok (ASubscribe ok)))]> R.(calls)) st2).
  set (R3 := with_state (release hub ptr st2) R2).
  assert (perform hub (DoKick sid) R = Some R1) as H1 by done.
  assert (perform hub (DoTurn i) R1 = Some R2) as H2
    by (simpl; rewrite Hcall; simpl; by rewrite Hcommit).
  assert (may_release R2 ptr = true) as Hmay.
  { unfold may_release. simpl. rewrite Hid2, bool_decide_eq_true_2 by done. simpl.
    apply forallb_forall. intros r Hr%list_elem_of_In. apply bool_decide_eq_true.
    apply list_elem_of_fmap in Hr as ([r' a] & -> & [Hsus Hy]%list_elem_of_filter).
    apply list_elem_of_lookup in Hy as [j Hj]. simpl in *.
    apply list_lookup_insert_Some in Hj as [(_ & [= <- <-] & _)|[Hne Hj]]; [done|].
    by eapply (Honly j). }
  assert (perform hub (DoRelease ptr) R2 = Some R3) as H3
    by (unfold perform; by rewrite Hmay).
  destruct (release_gone hub sid ptr ch t st2 Hid2 Hgone Hsub) as (Hreg & Hheap & Hnone).
  exists R1, R2, R3. do 3 (split; [done|]). split; [done|].
  split; [unfold deliver; by simpl; rewrite Hgone|]. do 3 (split; [done|]).
  intros R4 H4. assert (rtc (running_step hub) (running_init w0) R3) as Hrun3.
  { etrans; [exact Hrun|]. eapply rtc_l; [by eapply run_action|].
    eapply rtc_l; [by eapply run_action|]. apply rtc_once. by eapply run_action. }
  destruct (stale_run sid ch hub w0 R3 R4 Hrun3 H4) as (? & _ & ?); [|done].
  split; [simpl; by rewrite Hreg|]. split; [|simpl; by rewrite Hreg].
  assert (metrics (core (hub_state R3)) = metrics st2.(core)) as ->.
  { simpl. unfold release, drop_arc. destruct (referenced _ _); [done|]. simpl.
    by rewrite abort_tasks_core. }
  rewrite Ho2. rewrite <- Hid. by apply (ao_fresh _ _ _ Hok) in Hp as [_ ?].
Qed.
End index.

(** ** Witnesses *)

Section witnesses.
#[local] Existing Instances QueueBroadcast CountNotifier QueueMpsc.

Abbreviation NodeR := (@Running NodeW MemStream CountNotifier QueueMpsc).
Definition fresh_node : NodeR := running_init (node_init 4 1000 8).

(** A session that has subscribed, and one about to commit its subscription. *)
Definition committing : NodeR :=
  run_actions open_node
    ([DoOpen 0; DoOpen 1; DoArrive (RSubscribe 1 7 "rooms.lobby" 0)] ++ replicate 7 (DoTurn 0) ++
     [DoArrive (RSubscribe 0 8 "rooms.lobby" 0)] ++ replicate 6 (DoTurn 1)) fresh_node.

(** The second is kicked and commits, and the first unsubscribes. *)
Definition busy : NodeR :=
  run_actions open_node
    [DoKick 0; DoTurn 1; DoRelease 0; DoOpen 2; DoArrive (RUnsubscribe 1 9 "rooms.lobby");
     DoTurn 2; DoTurn 2] committing.

Definition listed (R : NodeR) : list N :=
  subscribers_of R.(hub_state).(core).(registry) "rooms.lobby".

Lemma committing_runs : rtc (running_step open_node) fresh_node committing.
Proof. apply run_actions_steps. Qed.

(** Only the second call is in flight. *)
Lemma committing_calls j y : calls committing !! j = Some y → j = 1 ∨ suspended y.2 = false.
Proof.
  assert (from_option (λ y, suspended y.2) true (calls committing !! 0) = false) as H0
    by (vm_compute; reflexivity).
  assert (length (calls committing) = 2) as Hl by (vm_compute; reflexivity).
  intros Hj. apply lookup_lt_Some in Hj as Hlt. rewrite Hl in Hlt.
  destruct j as [|[|j]]; [right|by left|lia]. rewrite Hj in H0. exact H0.
Qed.

Lemma busy_runs : rtc (running_step open_node) fresh_node busy.
Proof. etrans; [apply committing_runs|apply run_actions_steps]. Qed.

Example listed_ids : (listed committing, listed busy) = ([1%N], [0%N]).
Proof. vm_compute. reflexivity. Qed.
End witnesses.

Lemma index_exact_while_running_witness :
  listed committing = [1%N] ∧
  (1%N ∈ listed committing ↔
     has_subscription (deref committing.(hub_state).(core) 1) "rooms.lobby" = true) ∧
  ∀ sid, sid ∈ listed busy → (sid < 3)%N.
Proof.
  split; [vm_compute; reflexivity|]. split.
  - destruct (index_exact_while_running open_node (node_init 4 1000 8) committing "rooms.lobby"
      committing_runs) as [H _].
    apply (H 1%N 1%N). vm_compute. reflexivity.
  - destruct (index_exact_while_running open_node (node_init 4 1000 8) busy "rooms.lobby"
      busy_runs) as (_ & _ & H & _).
    exact H.
Defined.

Lemma kick_mid_subscribe_leaves_stale_entry_witness :
  ∃ R3, history R3 = history committing ++
      [Returned 1 (Ok (ASubscribe (mk_SubscribeOk 8 "rooms.lobby" 1 0)))] ∧
    ∀ R4, rtc (running_step open_node) R3 R4 → 0%N ∈ listed R4.
Proof.
  destruct (kick_mid_subscribe_leaves_stale_entry open_node (node_init 4 1000 8) committing 1
    0 8 "rooms.lobby" 0 0 (mk_ChannelCursor 1 0) (mk_MemStream 0 1 "rooms.lobby") 0)
    as (R1 & R2 & R3 & _ & _ & H3 & Hh & _ & _ & _ & _ & H).
  - apply committing_runs.
  - reflexivity.
  - intros j r a Hne Hj Hs. destruct (committing_calls j (r, a) Hj) as [Hj1|Hd].
    + exfalso. exact (Hne Hj1).
    + simpl in Hd. rewrite Hs in Hd. discriminate Hd.
  - vm_compute. reflexivity.
  - apply (bool_decide_unpack _). vm_compute. exact Logic.I.
  - vm_compute. reflexivity.
  - exists R3. split; [|intros R4 H4; by apply (H R4 H4)].
    unfold perform in H3. destruct (may_release R2 0); [|discriminate H3]. injection H3 as <-. exact Hh.
Defined.
