(* ===== verification/Overlap.v ===== *)
(** * Publishing while others subscribe

    [handle_publish] of cherenkov-core/src/hub.rs hands a publication to the channel
    kind and then, after an await, to the broker.  Here are publishers cut between the
    two, and what any number of their turns does to the history of a channel and to
    the broker's streams on the default node of Node.v; Resume.v lets them happen
    during a subscribe. *)
From S2P Require Import Prelude Protocol Traits PubSub PubSubProps MemoryBroker BrokerProps.
From S2P Require Import Session Hub HubInv HubReach HubSteps Node Delivery.

Section overlap.
Context `{NO : Notifier} `{M : Mpsc} {B : Broadcast}.
Implicit Types (st : @HubSt NodeW MemStream _ M).
Variable hub : @Hub NodeW MemStream.

(** ** Publishers, cut between the channel kind and the broker *)

Inductive Publisher : Type :=
| Before (session_id : N) (channel : string) (data : Bytes)
| Accepted (channel : string) (publication : Publication)
| Ended (r : result HubError Publication).

(** The end of [handle_publish]. *)
Definition announce (channel : string) (publication : Publication) :
    io (@HubSt NodeW MemStream _ M) HubError Publication :=
  on_world EBroker (broker_publish hub.(broker) channel publication) ;;
  io_modify (λ st, set_core (count_publication st.(core)) st) ;;
  io_ret publication.

Definition publisher_turn (x : Publisher) st : Publisher * HubSt :=
  match x with
  | Before sid ch data =>
      let '(r, st) := publish_prefix hub sid ch data st in
      (match r with Ok p => Accepted ch p | Err e => Ended (Err e) end, st)
  | Accepted ch p => let '(r, st) := announce ch p st in (Ended r, st)
  | Ended r => (Ended r, st)
  end.

(** Both turns at once are the handler. *)
Lemma both_turns sid ch data st :
  let '(x, st1) := publisher_turn (Before sid ch data) st in
  publisher_turn x st1 = let '(r, st2) := handle_publish hub sid ch data st in (Ended r, st2).
Proof.
  rewrite (handle_publish_prefix hub sid ch data st). simpl. unfold io_bind at 1.
  destruct (publish_prefix hub sid ch data st) as [[p|e] st1]; done.
Qed.

(** What happens between two points of a subscribe: publishers take turns, time
    passes. *)
Inductive happening : Type :=
| Turn (i : nat)
| Tick (d : N).

Definition tick (d : N) (w : NodeW) : NodeW :=
  mk_NodeW (w.(nw_clock) + d) w.(nw_kind) w.(nw_broker).

(** The publications announced on [ch]. *)
Definition announced (ch : string) (x x' : Publisher) : list Publication :=
  match x, x' with
  | Accepted ch' p, Ended (Ok _) => if decide (ch' = ch) then [p] else []
  | _, _ => []
  end.

Definition happen (ch : string) (h : happening) (c : list Publisher * HubSt) :
    list Publication * (list Publisher * HubSt) :=
  let '(pubs, st) := c in
  match h with
  | Turn i =>
      match pubs !! i with
      | None => ([], c)
      | Some x => let '(x', st') := publisher_turn x st in
                  (announced ch x x', (<[i := x']> pubs, st'))
      end
  | Tick d => ([], (pubs, set_world (tick d st.(world)) st))
  end.

Fixpoint happens (ch : string) (hs : list happening) (c : list Publisher * HubSt) :
    list Publication * (list Publisher * HubSt) :=
  match hs with
  | [] => ([], c)
  | h :: hs =>
      let '(ps, c) := happen ch h c in
      let '(qs, c) := happens ch hs c in
      (ps ++ qs, c)
  end.

(** ** What a turn does to the memory *)

Definition pure {E A} (m : io NodeW E A) : Prop := ∀ w, (m w).2 = w.

(** The default node, with components that have no state of their own. *)
Record plain_node : Prop := {
  pn_kind : hub.(kind) = pubsub_kind kind_lens nw_clock;
  pn_kinds : hub.(namespace_kinds) = ∅;
  pn_broker : hub.(broker) = memory_broker broker_lens;
  pn_check cl a ch : pure (check hub.(acl) cl a ch);
  pn_validate ch d : pure (validate hub.(validator) ch d);
}.

Context {BL : BroadcastLaws B}.
Hypothesis Hnode : plain_node.

Lemma kind_for_plain ch : kind_for hub ch = pubsub_kind kind_lens nw_clock.
Proof. unfold kind_for. rewrite (pn_kinds Hnode), lookup_empty. apply (pn_kind Hnode). Qed.

Lemma prefix_effect sid ch data st r st' :
  publish_prefix hub sid ch data st = (r, st') →
  match r with
  | Ok p => ∃ k, ps_on_publish st.(world).(nw_clock) ch data st.(world).(nw_kind) = (Ok p, k) ∧
              st'.(world) = mk_NodeW st.(world).(nw_clock) k st.(world).(nw_broker)
  | Err _ => st'.(world) = st.(world)
  end.
Proof.
  intros H. unfold publish_prefix in H. unfold io_bind at 1 in H.
  destruct (get_session sid st) as [[ptr|e] st1] eqn:Hg.
  2:{ unfold get_session in Hg. by simplify_eq. }
  apply get_session_Ok in Hg as [_ ->].
  unfold io_bind at 1 in H. destruct (effective_claims hub st ptr) as [cl|] eqn:Hcl.
  2:{ rewrite (require_claims_None _ _ _ Hcl) in H. by simplify_eq. }
  rewrite (require_claims_eq _ _ _ _ Hcl) in H.
  unfold io_bind at 1 in H. set (st2 := with_claims hub ptr st) in H.
  assert (st2.(world) = st.(world)) as Hw2 by apply with_claims_world.
  destruct (check hub.(acl) cl ActPublish ch st2.(world)) as [d w1] eqn:Hch.
  pose proof (pn_check Hnode cl ActPublish ch st2.(world)) as Hp. rewrite Hch in Hp. simpl in Hp.
  subst w1. rewrite (enforce_acl_eq _ _ _ _ _ _ _ Hch) in H.
  destruct d as [[]|]; simpl in H; [|by simplify_eq..].
  unfold io_bind at 1 in H.
  destruct (validate hub.(validator) ch data st2.(world)) as [d w1] eqn:Hv.
  pose proof (pn_validate Hnode ch data st2.(world)) as Hp. rewrite Hv in Hp. simpl in Hp. subst w1.
  rewrite (on_world_eq (M:=M) ESchema _ (set_world st2.(world) st2) _ _ Hv) in H.
  destruct d as [[]|]; simpl in H; [|by simplify_eq].
  rewrite kind_for_plain in H. unfold on_world, io_map_err, io_zoom at 1 in H. simpl in H.
  rewrite Hw2 in H. unfold io_zoom in H. simpl in H.
  destruct (ps_on_publish _ ch data _) as [[p|e] k] eqn:Hps; simpl in H; simplify_eq; [by eauto|].
  simpl. unfold ps_on_publish in Hps. case_decide; simplify_eq. by destruct (world st).
Qed.

Lemma announce_effect ch p st :
  broker_wf st.(world).(nw_broker) →
  ∃ st', announce ch p st = (Ok p, st') ∧
    st'.(world) = mk_NodeW st.(world).(nw_clock) st.(world).(nw_kind)
                    (mb_publish ch p st.(world).(nw_broker)).2.
Proof.
  intros Hwf. destruct (mb_publish_spec ch p _ Hwf) as (b' & cap & Hb & _).
  assert (broker_publish hub.(broker) ch p st.(world) = (Ok (), update broker_lens b' st.(world)))
    as Hbp by (rewrite (pn_broker Hnode); simpl; unfold io_zoom; simpl; by rewrite Hb).
  unfold announce. rewrite (io_bind_Ok_eq _ _ _ _ _ (on_world_eq EBroker _ _ _ _ Hbp)).
  eexists. split; [done|]. simpl. by rewrite Hb.
Qed.

(** ** What is announced has been accepted *)

Definition is_before (x : Publisher) : bool :=
  match x with Before _ _ _ => true | _ => false end.

(** The publishers that have not called the channel kind yet. *)
Definition unspent (pubs : list Publisher) : nat := length (filter is_before pubs).

Section progress.
Variables (ch : string) (t0 : N) (log0 : list HistoryEntry) (total : nat) (size ttl : N).

(** The log of the channel is [log0] and, since the instant [t0], [new]. *)
Record progress (pubs : list Publisher) (w : NodeW) (new : list HistoryEntry)
    (logs : string → list HistoryEntry) : Prop := {
  pg_rel : pubsub_rel w.(nw_clock) logs w.(nw_kind);
  pg_log : logs ch = log0 ++ new;
  pg_new : Forall (λ e, (t0 ≤ e.(inserted_at))%N) new;
  pg_total : length new + unspent pubs ≤ total;
  pg_room c : (N.of_nat (length (logs c) + unspent pubs) ≤ u64_max)%N;
  pg_accepted p : Accepted ch p ∈ pubs → p ∈ entry_publication ch <$> new;
  pg_size : w.(nw_kind).(history_size) = size;
  pg_ttl : w.(nw_kind).(history_ttl) = ttl;
  pg_clock : (t0 ≤ w.(nw_clock))%N;
  pg_broker : broker_wf w.(nw_broker);
}.

Lemma unspent_insert (i : nat) x x' pubs :
  pubs !! i = Some x →
  unspent (<[i := x']> pubs) + (if is_before x then 1 else 0)
  = unspent pubs + (if is_before x' then 1 else 0).
Proof.
  unfold unspent. revert i. induction pubs as [|y pubs IH]; intros [|i] H; simpl in *; [done..| |].
  - simplify_eq. rewrite !filter_cons. destruct (is_before x), (is_before x'); simpl; lia.
  - specialize (IH i H). rewrite !filter_cons. destruct (is_before y); simpl; lia.
Qed.

Lemma elem_of_insert_publisher (y x' : Publisher) (i : nat) (pubs : list Publisher) :
  y ∈ <[i := x']> pubs → y = x' ∨ y ∈ pubs.
Proof.
  intros [j Hj]%list_elem_of_lookup. destruct (decide (i = j)) as [->|Hne].
  - apply list_lookup_insert_Some in Hj as [(_ & <- & _)|[? _]]; [by left|done].
  - rewrite list_lookup_insert_ne in Hj by done. right. by eapply list_elem_of_lookup_2.
Qed.

(** A publisher that ends, or one whose publication is of another channel. *)
Lemma progress_weaken pubs w new logs i x x' :
  progress pubs w new logs → pubs !! i = Some x → is_before x' = false →
  (∀ p, x' ≠ Accepted ch p) → progress (<[i := x']> pubs) w new logs.
Proof.
  intros [] Hi Hx' Hne. pose proof (unspent_insert i x x' pubs Hi) as Hu. rewrite Hx' in Hu.
  split; try done; [destruct (is_before x); lia| |].
  - intros c. specialize (pg_room0 c). destruct (is_before x); lia.
  - intros p [Hp|Hp]%elem_of_insert_publisher; [by destruct (Hne p)|auto].
Qed.

Lemma progress_accept pubs w new logs i sid c data p k :
  progress pubs w new logs → pubs !! i = Some (Before sid c data) →
  ps_on_publish w.(nw_clock) c data w.(nw_kind) = (Ok p, k) →
  ∃ new' logs', (∃ l, new' = new ++ l) ∧
    progress (<[i := Accepted c p]> pubs) (mk_NodeW w.(nw_clock) k w.(nw_broker)) new' logs'.
Proof.
  intros [] Hi Hps. pose proof (unspent_insert i _ (Accepted c p) pubs Hi) as Hu. simpl in Hu.
  assert (c ≠ "") as Hc by (intros ->; unfold ps_on_publish in Hps; by rewrite decide_True in Hps).
  pose proof (pg_room0 c) as Hroom.
  destruct (refine_publish _ w.(nw_clock) logs w.(nw_kind) c data Hc (N.le_refl _)) as (k' & Hps' & Hrel');
    [lia|done|].
  rewrite Hps in Hps'. injection Hps' as Hp ->.
  assert (k'.(history_size) = size ∧ k'.(history_ttl) = ttl) as [Hsz Httl].
  { unfold ps_on_publish in Hps. rewrite decide_False in Hps by done. simplify_eq. done. }
  set (e := log_entry w.(nw_clock) (logs c) data) in *.
  set (logs' := log_insert c (logs c ++ [e]) logs) in *.
  assert (∀ c', length (logs' c') ≤ length (logs c') + 1) as Hlen.
  { intros c'. unfold logs', log_insert. case_decide; [subst|lia]. rewrite length_app. simpl. lia. }
  destruct (decide (c = ch)) as [->|Hne].
  - exists (new ++ [e]), logs'. split; [eauto|]. split; simpl; try done.
    + unfold logs', log_insert. rewrite decide_True, pg_log0 by done. by rewrite app_assoc.
    + apply Forall_app. split; [done|]. by repeat constructor.
    + rewrite length_app. simpl. lia.
    + intros c'. specialize (Hlen c'). specialize (pg_room0 c'). lia.
    + intros q [[= ->]|Hq]%elem_of_insert_publisher; rewrite fmap_app; apply elem_of_app;
        [right|left; auto]. rewrite Hp. by apply list_elem_of_singleton.
  - exists new, logs'. split; [exists []; by rewrite app_nil_r|]. split; simpl; try done.
    + unfold logs', log_insert. by rewrite decide_False by congruence.
    + lia.
    + intros c'. specialize (Hlen c'). specialize (pg_room0 c'). lia.
    + intros q [[= -> _]|Hq]%elem_of_insert_publisher; [done|auto].
Qed.

Lemma progress_announce pubs w new logs c p :
  progress pubs w new logs →
  progress pubs (mk_NodeW w.(nw_clock) w.(nw_kind) (mb_publish c p w.(nw_broker)).2) new logs.
Proof.
  intros []. split; simpl; try done. by destruct (mb_publish_spec c p _ pg_broker0) as (? & ? & -> & ? & _).
Qed.

Lemma progress_tick pubs w new logs d : progress pubs w new logs → progress pubs (tick d w) new logs.
Proof. intros []. split; simpl; try done; [|lia]. eapply pubsub_rel_later; [|done]. lia. Qed.

(** One happening: the log may grow, and what it announces is on it. *)
Lemma happen_progress h pubs st new logs :
  progress pubs st.(world) new logs →
  let '(ps, (pubs', st')) := happen ch h (pubs, st) in
  ∃ new' logs', (∃ l, new' = new ++ l) ∧ progress pubs' st'.(world) new' logs' ∧
    Forall (λ p, p ∈ entry_publication ch <$> new') ps.
Proof.
  intros Hpg. destruct h as [i|d]; simpl.
  2:{ exists new, logs. split; [exists []; by rewrite app_nil_r|]. split; [by apply progress_tick|done]. }
  destruct (pubs !! i) as [x|] eqn:Hi.
  2:{ exists new, logs. split; [exists []; by rewrite app_nil_r|]. done. }
  destruct x as [sid c data|c p|r]; simpl.
  - destruct (publish_prefix hub sid c data st) as [r st'] eqn:Hrun.
    apply prefix_effect in Hrun. destruct r as [p|e].
    + destruct Hrun as (k & Hps & Hw).
      destruct (progress_accept _ _ _ _ _ _ _ _ _ _ Hpg Hi Hps) as (new' & logs' & Hl & Hpg').
      exists new', logs'. rewrite Hw. split; [done|]. split; [exact Hpg'|constructor].
    + exists new, logs. rewrite Hrun. split; [exists []; by rewrite app_nil_r|].
      split; [|constructor]. by eapply progress_weaken.
  - destruct (announce_effect c p st (pg_broker _ _ _ _ Hpg)) as (st' & -> & Hw). simpl.
    exists new, logs. rewrite Hw. split; [exists []; by rewrite app_nil_r|]. split.
    + apply progress_announce. by eapply progress_weaken.
    + case_decide; [subst|constructor]. constructor; [|constructor].
      apply (pg_accepted _ _ _ _ Hpg). by eapply list_elem_of_lookup_2.
  - exists new, logs. split; [exists []; by rewrite app_nil_r|]. split; [|constructor].
    by eapply progress_weaken.
Qed.

Lemma happens_progress hs pubs st new logs :
  progress pubs st.(world) new logs →
  let '(ps, (pubs', st')) := happens ch hs (pubs, st) in
  ∃ new' logs', (∃ l, new' = new ++ l) ∧ progress pubs' st'.(world) new' logs' ∧
    Forall (λ p, p ∈ entry_publication ch <$> new') ps.
Proof.
  revert pubs st new logs. induction hs as [|h hs IH]; intros pubs st new logs Hpg; cbn [happens].
  { exists new, logs. split; [exists []; by rewrite app_nil_r|]. done. }
  pose proof (happen_progress h pubs st new logs Hpg) as H1.
  destruct (happen ch h (pubs, st)) as [ps [pubs1 st1]].
  destruct H1 as (new1 & logs1 & [l1 ->] & Hpg1 & Hps).
  specialize (IH pubs1 st1 _ _ Hpg1). destruct (happens ch hs (pubs1, st1)) as [qs [pubs2 st2]].
  destruct IH as (new2 & logs2 & [l2 ->] & Hpg2 & Hqs).
  exists ((new ++ l1) ++ l2), logs2. split; [exists (l1 ++ l2); by rewrite app_assoc|].
  split; [done|]. apply Forall_app. split; [|done].
  eapply Forall_impl; [exact Hps|]. intros p Hp. simpl in *. rewrite fmap_app. set_solver.
Qed.
End progress.

(** ** The stream that is already open *)

Record feeding (cap : N) (ch : string) (stream : MemStream) (buf : list Publication)
    (b : MemoryBroker) : Prop := {
  fd_wf : broker_wf b;
  fd_cap : b.(capacity) = cap;
  fd_label : stream.(topic_label) = ch;
  fd_live : live b stream;
  fd_slot : stream_slot b stream = Some (0%N, buf);
}.

Lemma feeding_publish cap ch stream buf b c p :
  feeding cap ch stream buf b →
  let ps := if decide (c = ch) then [p] else [] in
  (N.of_nat (length (buf ++ ps)) ≤ cap)%N → feeding cap ch stream (buf ++ ps) (mb_publish c p b).2.
Proof.
  intros [Hwf Hcap Hlab Hlive Hslot] ps Hlen.
  destruct (mb_publish_spec c p b Hwf) as (b' & cap' & -> & Hwf' & Hle & Hc & _ & Hs).
  destruct (Hs stream Hlive) as [Hlive' Hslot']. split; simpl; try done; [congruence|].
  rewrite Hslot', Hslot, Hlab. unfold ps in *. rewrite length_app in Hlen.
  destruct (decide (c = ch)) as [->|Hne].
  - rewrite decide_True by done. simpl in *. by rewrite decide_True by lia.
  - by rewrite decide_False, app_nil_r by congruence.
Qed.

Lemma happen_feeding cap ch stream buf h pubs st :
  feeding cap ch stream buf st.(world).(nw_broker) →
  let '(ps, (_, st')) := happen ch h (pubs, st) in
  (N.of_nat (length (buf ++ ps)) ≤ cap)%N →
  feeding cap ch stream (buf ++ ps) st'.(world).(nw_broker).
Proof.
  intros Hf. destruct h as [i|d]; simpl; [|by rewrite app_nil_r].
  destruct (pubs !! i) as [[sid c data|c p|r]|]; simpl; [|..|by rewrite app_nil_r].
  - destruct (publish_prefix hub sid c data st) as [r st'] eqn:Hrun.
    apply prefix_effect in Hrun. rewrite app_nil_r. intros _.
    destruct r; [destruct Hrun as (k & _ & ->)|rewrite Hrun]; done.
  - destruct (announce_effect c p st (fd_wf _ _ _ _ _ Hf)) as (st' & -> & ->). simpl.
    by apply feeding_publish.
  - by rewrite app_nil_r.
Qed.

Lemma happens_feeding cap ch stream buf hs pubs st :
  feeding cap ch stream buf st.(world).(nw_broker) →
  let '(ps, (_, st')) := happens ch hs (pubs, st) in
  (N.of_nat (length (buf ++ ps)) ≤ cap)%N →
  feeding cap ch stream (buf ++ ps) st'.(world).(nw_broker).
Proof.
  revert buf pubs st. induction hs as [|h hs IH]; intros buf pubs st Hf; cbn [happens].
  { by rewrite app_nil_r. }
  pose proof (happen_feeding cap ch stream buf h pubs st Hf) as H1.
  destruct (happen ch h (pubs, st)) as [ps [pubs1 st1]].
  specialize (IH (buf ++ ps) pubs1 st1). destruct (happens ch hs (pubs1, st1)) as [qs [pubs2 st2]].
  rewrite app_assoc. intros Hlen. apply IH; [|done]. apply H1.
  rewrite length_app in Hlen. lia.
Qed.

(** ** Time *)

Fixpoint elapsed (hs : list happening) : N :=
  match hs with
  | [] => 0
  | Turn _ :: hs => elapsed hs
  | Tick d :: hs => d + elapsed hs
  end.

Lemma elapsed_app hs hs' : elapsed (hs ++ hs') = (elapsed hs + elapsed hs')%N.
Proof. induction hs as [|[i|d] hs IH]; simpl; [done|done|]. rewrite IH. lia. Qed.

(** What no happening changes but the passing of time. *)
Definition same_but_time (w w' : NodeW) (d : N) : Prop :=
  broker_wf w'.(nw_broker) ∧ w'.(nw_broker).(capacity) = w.(nw_broker).(capacity) ∧
  w'.(nw_clock) = (w.(nw_clock) + d)%N.

Lemma happen_clock ch h pubs st :
  broker_wf st.(world).(nw_broker) →
  let '(_, (_, st')) := happen ch h (pubs, st) in same_but_time st.(world) st'.(world) (elapsed [h]).
Proof.
  intros Hwf. destruct h as [i|d]; simpl; unfold same_but_time; rewrite ?N.add_0_r; [|done].
  destruct (pubs !! i) as [[sid c data|c p|r]|]; simpl; try done.
  - destruct (publish_prefix hub sid c data st) as [r st'] eqn:Hrun.
    apply prefix_effect in Hrun. destruct r; [destruct Hrun as (k & _ & ->)|rewrite Hrun]; done.
  - destruct (announce_effect c p st Hwf) as (st' & -> & ->). simpl.
    by destruct (mb_publish_spec c p _ Hwf) as (? & ? & -> & ? & _ & ? & _).
Qed.

Lemma happens_clock ch hs pubs st :
  broker_wf st.(world).(nw_broker) →
  let '(_, (_, st')) := happens ch hs (pubs, st) in same_but_time st.(world) st'.(world) (elapsed hs).
Proof.
  revert pubs st. induction hs as [|h hs IH]; intros pubs st Hwf; cbn [happens].
  { split; [done|]. by rewrite N.add_0_r. }
  pose proof (happen_clock ch h pubs st Hwf) as H1.
  destruct (happen ch h (pubs, st)) as [ps [pubs1 st1]]. destruct H1 as (Hwf1 & Hb1 & Hc1).
  specialize (IH pubs1 st1 Hwf1). destruct (happens ch hs (pubs1, st1)) as [qs [pubs2 st2]].
  destruct IH as (Hwf2 & Hb2 & Hc2). split; [done|]. rewrite Hb2, Hc2, Hc1. split; [done|].
  change (h :: hs) with ([h] ++ hs). rewrite elapsed_app. lia.
Qed.

(** ** The start, the replay and the opening *)

Lemma unspent_all pubs : Forall is_before pubs → unspent pubs = length pubs.
Proof. intros H. unfold unspent. f_equal. by apply filter_all. Qed.

Lemma progress_start ch pubs st logs :
  broker_wf st.(world).(nw_broker) →
  pubsub_rel st.(world).(nw_clock) logs st.(world).(nw_kind) →
  Forall is_before pubs → (∀ c, (N.of_nat (length (logs c) + length pubs) ≤ u64_max)%N) →
  progress ch st.(world).(nw_clock) (logs ch) (length pubs) st.(world).(nw_kind).(history_size)
    st.(world).(nw_kind).(history_ttl) pubs st.(world) [] logs.
Proof.
  intros Hwf Hrel Hbefore Hroom. pose proof (unspent_all _ Hbefore) as Hu.
  split; rewrite ?Hu; simpl; try done; [by rewrite app_nil_r|].
  intros p Hp. rewrite Forall_forall in Hbefore. by specialize (Hbefore _ Hp).
Qed.

(** What was published since [t0] is retained when the history is long enough. *)
Lemma retained_new size ttl now t0 log0 new e :
  Forall (λ e, (t0 ≤ e.(inserted_at))%N) new → (N.of_nat (length new) ≤ size)%N →
  (now ≤ t0 + ttl)%N → e ∈ new → e ∈ retained size ttl now (log0 ++ new).
Proof.
  intros Hnew Hsize Htime He. unfold retained. apply list_elem_of_filter. split.
  - rewrite Forall_forall in Hnew. specialize (Hnew _ He). unfold fresh, saturating_duration_since.
    simpl in *. lia.
  - unfold lastn. rewrite length_app, drop_app. apply elem_of_app. right.
    replace (length log0 + length new - N.to_nat size - length log0) with 0 by lia. done.
Qed.

(** The replay has every publication since [t0] that is newer than the cursor. *)
Lemma progress_replay ch t0 log0 total size ttl pubs w new logs since :
  progress ch t0 log0 total size ttl pubs w new logs →
  (N.of_nat total ≤ size)%N → (w.(nw_clock) ≤ t0 + ttl)%N →
  ∃ ps k, replay_since (kind_for hub ch) ch since w = (Ok ps, mk_NodeW w.(nw_clock) k w.(nw_broker)) ∧
    Forall (λ p, p.(publ_channel) = ch ∧ (since < p.(publ_offset))%N) ps ∧
    ∀ p, p ∈ entry_publication ch <$> new → (since < p.(publ_offset))%N → p ∈ ps.
Proof.
  intros Hpg Hsize Htime. rewrite kind_for_plain. simpl. unfold io_zoom. simpl.
  destruct (refine_replay _ w.(nw_clock) logs w.(nw_kind) ch since (N.le_refl _)
    (pg_rel _ _ _ _ _ _ _ _ _ _ Hpg)) as (k & Hk & _).
  rewrite Hk. eexists _, k. split; [done|]. split.
  { apply Forall_fmap, Forall_forall. intros e [He _]%list_elem_of_filter. done. }
  intros p (e & -> & He)%list_elem_of_fmap Hp. unfold spec_replay.
  apply list_elem_of_fmap_2, list_elem_of_filter. split; [exact Hp|].
  rewrite (pg_log _ _ _ _ _ _ _ _ _ _ Hpg), (pg_size _ _ _ _ _ _ _ _ _ _ Hpg),
    (pg_ttl _ _ _ _ _ _ _ _ _ _ Hpg).
  pose proof (pg_total _ _ _ _ _ _ _ _ _ _ Hpg).
  eapply retained_new; [exact (pg_new _ _ _ _ _ _ _ _ _ _ Hpg)|lia|done|done].
Qed.

(** Opening the stream leaves the publishers' progress alone. *)
Lemma open_stream ch t0 log0 total size ttl pubs st new logs :
  progress ch t0 log0 total size ttl pubs st.(world) new logs →
  ∃ stream st', on_world EBroker (broker_subscribe hub.(broker) ch) st = (Ok stream, st') ∧
    progress ch t0 log0 total size ttl pubs st'.(world) new logs ∧
    feeding st.(world).(nw_broker).(capacity) ch stream [] st'.(world).(nw_broker) ∧
    st'.(world).(nw_clock) = st.(world).(nw_clock).
Proof.
  intros Hpg. pose proof (pg_broker _ _ _ _ _ _ _ _ _ _ Hpg) as Hwf.
  destruct (mb_subscribe_spec ch _ Hwf)
    as (stream & b & Hb & Hwfb & Hlab & Hlive & Hslot & _ & _ & _ & Hcapb).
  assert (broker_subscribe hub.(broker) ch st.(world) = (Ok stream, update broker_lens b st.(world)))
    as Hopen by (rewrite (pn_broker Hnode); simpl; unfold io_zoom; simpl; by rewrite Hb).
  exists stream, (set_world (update broker_lens b st.(world)) st).
  split; [by rewrite (on_world_eq EBroker _ _ _ _ Hopen)|].
  split; [by destruct Hpg; split|]. split; [|done]. by split.
Qed.
End overlap.
