(* ===== verification/Resume.v ===== *)
(** * Resuming while others publish

    [handle_subscribe] of cherenkov-core/src/hub.rs opens the broker's stream and then,
    after an await, asks the channel kind for the replay.  On the default node of
    Node.v nothing is lost between the two, whatever the publishers of Overlap.v do
    before each of its segments; a publication can arrive twice, and two can arrive in
    the wrong order. *)
From S2P Require Import Prelude Protocol Traits PubSub PubSubProps MemoryBroker BrokerProps.
From S2P Require Import Session Hub HubInv HubReach HubSteps Node Delivery Async Race Overlap.

Section resume.
Context `{NO : Notifier} `{M : Mpsc} {B : Broadcast}.
Implicit Types (st : @HubSt NodeW MemStream _ M).
Abbreviation async' := (async (@HubSt NodeW MemStream _ M) HubError).
Variable hub : @Hub NodeW MemStream.

(** ** A handler among publishers *)

(** What was announced earlier. *)
Definition prepend {R} (pss : list (list Publication)) (x : list (list Publication) * R) :
    list (list Publication) * R := (pss ++ x.1, x.2).

Lemma prepend_prepend {R} pss qss (x : _ * R) :
  prepend pss (prepend qss x) = prepend (pss ++ qss) x.
Proof. unfold prepend. simpl. by rewrite app_assoc. Qed.

(** [hs i] happens before segment [i].  What was announced on [ch] before each
    segment, the result, and where publishers and hub are then. *)
Fixpoint weave {A} (ch : string) (hs : nat → list happening) (i : nat) (a : async' A)
    (c : list Publisher * HubSt) :
    list (list Publication) * (result HubError A * (list Publisher * HubSt)) :=
  match a with
  | Done r => ([], (r, c))
  | Await m k =>
      let '(ps, (pubs, st)) := happens hub ch (hs i) c in
      let '(r, st) := m st in
      match r with
      | Ok x => prepend [ps] (weave ch hs (S i) (k x) (pubs, st))
      | Err e => ([ps], (Err e, (pubs, st)))
      end
  end.

Lemma weave_await {A X} ch hs i (m : io _ HubError X) (k : X → async' A) c :
  weave ch hs i (Await m k) c
  = let '(ps, (pubs, st)) := happens hub ch (hs i) c in
    let '(r, st) := m st in
    match r with
    | Ok x => prepend [ps] (weave ch hs (S i) (k x) (pubs, st))
    | Err e => ([ps], (Err e, (pubs, st)))
    end.
Proof. done. Qed.

(** When nothing happens it is the handler. *)
Lemma weave_nothing {A} ch i (a : async' A) pubs st :
  (weave ch (λ _, []) i a (pubs, st)).2 = let '(r, st') := run a st in (r, (pubs, st')).
Proof.
  revert i st. induction a as [r|X m k IH]; intros i st; cbn [weave run].
  - by destruct r.
  - cbn [happens]. unfold io_bind. destruct (m st) as [[x|e] st1]; [|done].
    apply IH.
Qed.

(** ** What happenings leave alone *)

Definition still st st' : Prop :=
  st'.(core).(registry) = st.(core).(registry) ∧
  ∀ p, (deref st'.(core) p).(subscriptions) = (deref st.(core) p).(subscriptions) ∧
       (deref st'.(core) p).(outbox) = (deref st.(core) p).(outbox) ∧
       effective_claims hub st' p = effective_claims hub st p.

Lemma still_refl st : still st st.
Proof. done. Qed.

Lemma still_trans st1 st2 st3 : still st1 st2 → still st2 st3 → still st1 st3.
Proof.
  intros [R1 H1] [R2 H2]. split; [congruence|]. intros p.
  destruct (H1 p) as (? & ? & ?), (H2 p) as (? & ? & ?). repeat split; congruence.
Qed.

Lemma still_core st st' : st'.(core) = st.(core) → still st st'.
Proof. intros H. unfold still, effective_claims. by rewrite H. Qed.

Lemma still_with_claims ptr cl st :
  effective_claims hub st ptr = Some cl → still st (with_claims hub ptr st).
Proof.
  unfold effective_claims at 1, with_claims. destruct (claims (deref (core st) ptr)) eqn:Hcl; [done|].
  destruct (allow_anonymous _) eqn:Ha; [|done]. intros _. split; [done|]. intros p.
  unfold effective_claims. rewrite Ha.
  assert (deref (core (set_core (store ptr (set_claims anonymous (deref (core st) ptr)).2 (core st)) st)) p
    = if decide (p = ptr) then (set_claims anonymous (deref (core st) ptr)).2 else deref (core st) p) as ->.
  { unfold deref at 1. simpl. case_decide; subst; [by rewrite lookup_insert_eq|].
    by rewrite lookup_insert_ne. }
  case_decide; [subst; simpl|done]. by rewrite Hcl.
Qed.

Lemma publish_prefix_still sid ch data st r st' :
  publish_prefix hub sid ch data st = (r, st') → still st st' ∧ st'.(outboxes) = st.(outboxes).
Proof.
  intros H. unfold publish_prefix in H. unfold io_bind at 1 in H.
  destruct (get_session sid st) as [[ptr|e] st1] eqn:Hg.
  2:{ unfold get_session in Hg. by simplify_eq. }
  apply get_session_Ok in Hg as [_ ->].
  unfold io_bind at 1 in H. destruct (effective_claims hub st ptr) as [cl|] eqn:Hcl.
  2:{ rewrite (require_claims_None _ _ _ Hcl) in H. by simplify_eq. }
  rewrite (require_claims_eq _ _ _ _ Hcl) in H.
  pose proof (still_with_claims _ _ _ Hcl) as Hst.
  pose proof (with_claims_outboxes hub ptr st) as Ho.
  assert (∃ w, st' = set_world w (with_claims hub ptr st)) as [w ->]; [|split; [|done]].
  2:{ eapply still_trans; [exact Hst|]. by apply still_core. }
  set (st2 := with_claims hub ptr st) in *. clearbody st2. unfold io_bind at 1 in H.
  destruct (check hub.(acl) cl ActPublish ch st2.(world)) as [d w] eqn:Hch.
  rewrite (enforce_acl_eq _ _ _ _ _ _ _ Hch) in H.
  destruct d as [[]|]; simpl in H; [|by simplify_eq; eauto..].
  unfold io_bind at 1 in H.
  destruct (validate hub.(validator) ch data w) as [d w1] eqn:Hv.
  rewrite (on_world_eq (M:=M) ESchema _ (set_world w st2) _ _ Hv) in H.
  destruct d as [[]|]; simpl in H; [|by simplify_eq; eauto].
  destruct (on_publish (kind_for hub ch) ch data w1) as [d w2] eqn:Hp.
  rewrite (on_world_eq (M:=M) EChannel _ (set_world w1 (set_world w st2)) _ _ Hp) in H.
  simplify_eq. by exists w2.
Qed.

Context {BL : BroadcastLaws B}.
Hypothesis Hnode : plain_node hub.

Lemma happen_still ch h pubs st :
  broker_wf st.(world).(nw_broker) →
  let '(_, (_, st')) := happen hub ch h (pubs, st) in
  still st st' ∧ st'.(outboxes) = st.(outboxes).
Proof.
  intros Hwf. destruct h as [i|d]; simpl; [|done].
  destruct (pubs !! i) as [[sid c data|c p|r]|]; simpl; try done.
  - destruct (publish_prefix hub sid c data st) as [r st'] eqn:Hrun.
    by apply publish_prefix_still in Hrun.
  - unfold announce, io_bind. destruct (on_world _ _ st) as [[[]|e] st1] eqn:Hw; simpl;
      unfold on_world, io_map_err, io_zoom in Hw; destruct (broker_publish _ _ _ _) as [[|] w];
      simpl in Hw; simplify_eq; done.
Qed.

Lemma happens_still ch hs pubs st :
  broker_wf st.(world).(nw_broker) →
  let '(_, (_, st')) := happens hub ch hs (pubs, st) in
  still st st' ∧ st'.(outboxes) = st.(outboxes).
Proof.
  revert pubs st. induction hs as [|h hs IH]; intros pubs st Hwf; cbn [happens]; [done|].
  pose proof (happen_still ch h pubs st Hwf) as H1.
  pose proof (happen_clock hub Hnode ch h pubs st Hwf) as Hc.
  destruct (happen hub ch h (pubs, st)) as [ps [pubs1 st1]]. destruct Hc as (Hwf1 & _).
  specialize (IH pubs1 st1 Hwf1). destruct (happens hub ch hs (pubs1, st1)) as [qs [pubs2 st2]].
  destruct H1 as [? ?], IH as [? ?]. split; [by eapply still_trans|congruence].
Qed.

(** ** The stream once it is open *)

Definition fed (cap : N) (ch : string) (stream : MemStream) (buf : list Publication) st : Prop :=
  broker_wf st.(world).(nw_broker) ∧
  ((N.of_nat (length buf) ≤ cap)%N → feeding cap ch stream buf st.(world).(nw_broker)).

Lemma happens_fed cap ch stream buf hs pubs st :
  fed cap ch stream buf st →
  let '(ps, (_, st')) := happens hub ch hs (pubs, st) in fed cap ch stream (buf ++ ps) st'.
Proof.
  intros [Hwf Hf]. pose proof (happens_clock hub Hnode ch hs pubs st Hwf) as Hc.
  pose proof (happens_feeding hub Hnode cap ch stream buf hs pubs st) as Hn.
  destruct (happens hub ch hs (pubs, st)) as [ps [pubs' st']]. split; [apply Hc|].
  intros Hlen. apply Hn; [|done]. apply Hf. rewrite length_app in Hlen. lia.
Qed.

Context {ML : MpscLaws M}.

Section tail.
Variables (ch : string) (hs : nat → list happening).
Variables (sid rid ptr o cap : N) (cursor : ChannelCursor) (stream : MemStream).

(** The forwarder is there and the stream has kept [buf]. *)
Definition subscribed (buf : list Publication) st : Prop :=
  fed cap ch stream buf st ∧ sid ∈ subscribers_of st.(core).(registry) ch ∧
  ∃ t, (deref st.(core) ptr).(subscriptions) !! ch = Some t ∧
       st.(core).(tasks) !! t = Some (mk_Task stream o ch).

Definition answer : result HubError SubscribeOk :=
  Ok (mk_SubscribeOk rid ch cursor.(epoch) cursor.(offset)).

Lemma weave_commit i buf pubs st :
  (deref st.(core) ptr).(subscriptions) !! ch = None → fed cap ch stream buf st →
  ∃ pss pubs' st',
    weave ch hs i (commit_async hub sid rid ptr ch cursor stream o) (pubs, st)
    = (pss, (answer, (pubs', st'))) ∧
    subscribed (buf ++ concat pss) st' ∧ st'.(outboxes) = st.(outboxes).
Proof.
  intros Hnone Hf. pose proof (happens_still ch (hs i) pubs st (proj1 Hf)) as Hs.
  pose proof (happens_fed cap ch stream buf (hs i) pubs st Hf) as Hf1.
  unfold commit_async. cbn [weave].
  destruct (happens hub ch (hs i) (pubs, st)) as [ps [pubs1 st1]].
  destruct Hs as [[_ Hd] Ho]. destruct (Hd ptr) as (Hsub & _). rewrite <- Hsub in Hnone.
  rewrite commit_segment_free, commit_subscription_run by done. cbn [snd].
  exists [ps]. do 2 eexists. split; [reflexivity|]. split; [|exact Ho].
  assert (concat [ps] = ps) as -> by apply app_nil_r. split; [exact Hf1|]. simpl. split.
  - rewrite subscribers_of_add, decide_True by done. apply elem_of_app. right.
    by apply list_elem_of_singleton.
  - exists st1.(core).(next_task). split; [|by rewrite lookup_insert_eq].
    unfold deref at 1. simpl. rewrite lookup_insert_eq. simpl. by rewrite lookup_insert_eq.
Qed.

Lemma weave_sends ps i buf pubs st :
  (deref st.(core) ptr).(subscriptions) !! ch = None → fed cap ch stream buf st →
  outbox_open st o →
  ∃ pss pubs' st',
    weave ch hs i (send_async hub sid o ch stream ps
      (commit_async hub sid rid ptr ch cursor stream o)) (pubs, st) = (pss, (answer, (pubs', st'))) ∧
    subscribed (buf ++ concat pss) st' ∧ queued st' o = queued st o ++ (SF_Publication <$> ps).
Proof.
  revert i buf pubs st. induction ps as [|p ps IH]; intros i buf pubs st Hnone Hf Ho.
  { destruct (weave_commit i buf pubs st Hnone Hf) as (pss & pubs' & st' & H & Hs & Hout).
    exists pss, pubs', st'. split; [exact H|]. split; [done|].
    unfold queued. by rewrite Hout, app_nil_r. }
  cbn [send_async weave]. pose proof (happens_still ch (hs i) pubs st (proj1 Hf)) as Hs.
  pose proof (happens_fed cap ch stream buf (hs i) pubs st Hf) as Hf1.
  destruct (happens hub ch (hs i) (pubs, st)) as [qs [pubs1 st1]].
  destruct Hs as [[_ Hd] Hout]. destruct (Hd ptr) as (Hsub & _). rewrite <- Hsub in Hnone.
  assert (outbox_open st1 o) as Ho1 by (unfold outbox_open; by rewrite Hout).
  destruct (outbox_send_open o (SF_Publication p) st1 Ho1) as (st2 & Hsend & Hc & Hw & Ho2 & Hq & _).
  unfold send_one. rewrite Hsend.
  destruct (IH (S i) (buf ++ qs) pubs1 st2) as (pss & pubs' & st' & -> & Hs & Hq');
    [by rewrite Hc|by (unfold fed; rewrite Hw)|done|].
  exists (qs :: pss), pubs', st'. split; [done|]. simpl. rewrite app_assoc. split; [done|].
  rewrite Hq', Hq. unfold queued. rewrite Hout. by rewrite <- app_assoc.
Qed.
End tail.

(** ** The way to the stream *)

Section head.
Variables (ch : string) (hs : nat → list happening) (pubs0 : list Publisher) (st0 : @HubSt NodeW MemStream _ M).
Variable (logs0 : string → list HistoryEntry).

(** Since [st0], [d] ago, nothing but publishers: [new] is what the channel got. *)
Record so_far (d : N) (pubs : list Publisher) st (new : list HistoryEntry) : Prop := {
  sf_progress : ∃ logs, progress ch st0.(world).(nw_clock) (logs0 ch) (length pubs0)
    st0.(world).(nw_kind).(history_size) st0.(world).(nw_kind).(history_ttl) pubs st.(world) new logs;
  sf_still : still st0 st;
  sf_outboxes : st.(outboxes) = st0.(outboxes);
  sf_clock : st.(world).(nw_clock) = (st0.(world).(nw_clock) + d)%N;
  sf_cap : st.(world).(nw_broker).(capacity) = st0.(world).(nw_broker).(capacity);
}.

(** What is announced is in the channel's log. *)
Definition on_log (new : list HistoryEntry) (ps : list Publication) : Prop :=
  Forall (λ p, p ∈ entry_publication ch <$> new) ps.

Lemma on_log_app new l ps : on_log new ps → on_log (new ++ l) ps.
Proof.
  intros H. eapply Forall_impl; [exact H|]. intros p Hp. simpl in *. rewrite fmap_app.
  apply elem_of_app. by left.
Qed.

Lemma so_far_happens d pubs st new hl :
  so_far d pubs st new →
  let '(ps, (pubs', st')) := happens hub ch hl (pubs, st) in
  ∃ l, so_far (d + elapsed hl) pubs' st' (new ++ l) ∧ on_log (new ++ l) ps.
Proof.
  intros [[logs Hpg] Hst Ho Hc Hcap]. pose proof (pg_broker _ _ _ _ _ _ _ _ _ _ Hpg) as Hwf.
  pose proof (happens_still ch hl pubs st Hwf) as H1.
  pose proof (happens_clock hub Hnode ch hl pubs st Hwf) as H2.
  pose proof (happens_progress hub Hnode _ _ _ _ _ _ hl pubs st _ _ Hpg) as H3.
  destruct (happens hub ch hl (pubs, st)) as [ps [pubs' st']].
  destruct H1 as [Hst' Ho'], H2 as (_ & Hcap' & Hc'), H3 as (new' & logs' & [l ->] & Hpg' & Hps).
  exists l. split; [|exact Hps]. split; [by exists logs'|by eapply still_trans|congruence| |congruence].
  rewrite Hc', Hc. lia.
Qed.

(** A segment that leaves publishers and channel alone. *)
Lemma weave_quiet {X} (Q : X → Prop) i (m : io (@HubSt NodeW MemStream _ M) HubError X)
    d pubs st new :
  so_far d pubs st new →
  (∀ d pubs st new, so_far d pubs st new → ∃ x st', m st = (Ok x, st') ∧ Q x ∧
     still st st' ∧ st'.(outboxes) = st.(outboxes) ∧ st'.(world) = st.(world)) →
  ∃ x ps pubs' st' l, Q x ∧
    (∀ A (k : X → async' A), weave ch hs i (Await m k) (pubs, st)
       = prepend [ps] (weave ch hs (S i) (k x) (pubs', st'))) ∧
    so_far (d + elapsed (hs i)) pubs' st' (new ++ l) ∧ on_log (new ++ l) ps ∧
    (∀ cap stream buf, fed cap ch stream buf st → fed cap ch stream (buf ++ ps) st').
Proof.
  intros Hsf Hm. pose proof (so_far_happens d pubs st new (hs i) Hsf) as H. setoid_rewrite weave_await.
  pose proof (λ cap stream buf, happens_fed cap ch stream buf (hs i) pubs st) as Hfed.
  destruct (happens hub ch (hs i) (pubs, st)) as [ps [pubs1 st1]]. destruct H as (l & Hsf1 & Hps).
  destruct (Hm _ _ _ _ Hsf1) as (x & st2 & -> & Hx & Hst & Ho & Hw).
  exists x, ps, pubs1, st2, l. split; [done|]. split; [done|].
  split; [|split; [done|]; unfold fed in *; by rewrite Hw].
  destruct Hsf1 as [Hpg Hst1 Ho1 Hc1 Hcap1].
  split; rewrite ?Hw, ?Ho; try done. by eapply still_trans.
Qed.

Variables (sid rid ptr since : N) (cl : SessionClaims).
Hypothesis Hch : ch ≠ "".
Hypothesis Hs : get st0.(core).(registry) sid = Some ptr.
Hypothesis Hcl : effective_claims hub st0 ptr = Some cl.
Hypothesis Hallow : ∀ w, check hub.(acl) cl ActSubscribe ch w = (Ok Allow, w).
Hypothesis Hfree : has_subscription (deref st0.(core) ptr) ch = false.

Lemma start_quiet d pubs st new :
  so_far d pubs st new → ∃ x st', start hub sid st = (Ok x, st') ∧ x = (ptr, cl) ∧
    still st st' ∧ st'.(outboxes) = st.(outboxes) ∧ st'.(world) = st.(world).
Proof.
  intros [_ [Hreg Hd] _ _ _]. destruct (Hd ptr) as (_ & _ & Hcl'). rewrite Hcl in Hcl'.
  assert (get st.(core).(registry) sid = Some ptr) as Hs' by by rewrite Hreg.
  unfold start. rewrite (io_bind_Ok_eq _ _ _ _ _ (get_session_eq _ _ _ Hs')).
  rewrite (io_bind_Ok_eq _ _ _ _ _ (require_claims_eq _ _ _ _ Hcl')).
  do 2 eexists. split; [reflexivity|]. split; [done|]. split; [by eapply still_with_claims|].
  split; [apply with_claims_outboxes|apply with_claims_world].
Qed.

Lemma acl_quiet d pubs st new :
  so_far d pubs st new → ∃ x st', enforce_acl hub cl ActSubscribe ch st = (Ok x, st') ∧ True ∧
    still st st' ∧ st'.(outboxes) = st.(outboxes) ∧ st'.(world) = st.(world).
Proof.
  intros _. rewrite (enforce_acl_eq _ _ _ _ _ _ _ (Hallow st.(world))).
  do 2 eexists. split; [reflexivity|]. split; [done|]. split; [by apply still_core|done].
Qed.

Lemma free_quiet d pubs st new :
  so_far d pubs st new →
  ∃ x st', (let! subscribed := read_session ptr (λ s, has_subscription s ch) in
            if subscribed : bool then io_fail (AlreadySubscribed sid ch) else io_ret ()) st
           = (Ok x, st') ∧ True ∧
    still st st' ∧ st'.(outboxes) = st.(outboxes) ∧ st'.(world) = st.(world).
Proof.
  intros [_ [_ Hd] _ _ _]. destruct (Hd ptr) as (Hsub & _ & _).
  unfold io_bind. simpl. unfold has_subscription in *. rewrite Hsub, Hfree.
  do 2 eexists. split; [reflexivity|]. done.
Qed.

Lemma cursor_quiet d pubs st new :
  so_far d pubs st new →
  ∃ x st', on_world EChannel (on_subscribe (kind_for hub ch) ch) st = (Ok x, st') ∧ True ∧
    still st st' ∧ st'.(outboxes) = st.(outboxes) ∧ st'.(world) = st.(world).
Proof.
  intros [[logs Hpg] _ _ _ _].
  pose proof (refine_subscribe _ _ _ ch Hch (pg_rel _ _ _ _ _ _ _ _ _ _ Hpg)) as Hps.
  assert (on_subscribe (kind_for hub ch) ch st.(world)
    = (Ok (spec_cursor st.(world).(nw_kind).(ps_epoch) logs ch), st.(world))) as Hon.
  { rewrite (kind_for_plain hub Hnode). simpl. unfold io_zoom. simpl. rewrite Hps.
    simpl. by destruct (world st). }
  rewrite (on_world_eq _ _ _ _ _ Hon).
  do 2 eexists. split; [reflexivity|]. split; [done|]. split; [by apply still_core|done].
Qed.

Lemma outbox_quiet d pubs st new :
  so_far d pubs st new →
  ∃ x st', (read_session ptr outbox : io _ HubError N) st = (Ok x, st') ∧
    x = (deref st0.(core) ptr).(outbox) ∧
    still st st' ∧ st'.(outboxes) = st.(outboxes) ∧ st'.(world) = st.(world).
Proof.
  intros [_ [_ Hd] _ _ _]. destruct (Hd ptr) as (_ & Ho & _).
  do 2 eexists. split; [reflexivity|]. done.
Qed.

Abbreviation replay_then_commit cursor stream := (λ o, replay_async hub sid o ch since stream
  (commit_async hub sid rid ptr ch cursor stream o)).

(** Opening the stream, among publishers. *)
Lemma weave_open_segment i d pubs st new :
  so_far d pubs st new →
  ∃ stream ps pubs' st' l,
    (∀ k : result HubError MemStream → async' SubscribeOk,
       weave ch hs i (Await (io_try (on_world EBroker (broker_subscribe hub.(broker) ch))) k) (pubs, st)
       = prepend [ps] (weave ch hs (S i) (k (Ok stream)) (pubs', st'))) ∧
    so_far (d + elapsed (hs i)) pubs' st' (new ++ l) ∧ on_log (new ++ l) ps ∧
    fed st0.(world).(nw_broker).(capacity) ch stream [] st'.
Proof.
  intros Hsf. pose proof (so_far_happens d pubs st new (hs i) Hsf) as H. cbn [weave].
  destruct (happens hub ch (hs i) (pubs, st)) as [ps [pubs1 st1]].
  destruct H as (l & [[logs Hpg] Hst Ho Hc Hcap] & Hps).
  destruct (open_stream hub Hnode _ _ _ _ _ _ _ _ _ _ Hpg)
    as (stream & st2 & Hopen & Hpg2 & Hf & Hc2).
  unfold io_try. rewrite Hopen. exists stream, ps, pubs1, st2, l. split; [done|].
  rewrite Hcap in Hf. assert (st2.(core) = st1.(core) ∧ st2.(outboxes) = st1.(outboxes)) as [Hco Hou].
  { unfold on_world, io_map_err, io_zoom in Hopen.
    destruct (broker_subscribe _ _ _) as [[|] w]; by simplify_eq. }
  split; [|split; [done|]].
  - split; [by exists logs|by eapply still_trans, still_core|congruence|congruence|].
    apply (fd_cap _ _ _ _ _ Hf).
  - split; [apply (fd_wf _ _ _ _ _ Hf)|done].
Qed.

(** The first five segments of a subscribe. *)
Lemma weave_open :
  so_far 0 pubs0 st0 [] →
  ∃ pss stream cursor pubs st new, length pss = 5 ∧
    weave ch hs 0 (subscribe_async hub sid rid ch since) (pubs0, st0)
    = prepend pss (weave ch hs 5 (Await (read_session ptr outbox) (replay_then_commit cursor stream))
        (pubs, st)) ∧
    so_far (elapsed (concat (hs <$> seq 0 5))) pubs st new ∧ on_log new (concat pss) ∧
    fed st0.(world).(nw_broker).(capacity) ch stream [] st.
Proof.
  intros H0. unfold subscribe_async.
  destruct (weave_quiet _ 0 _ _ _ _ _ H0 start_quiet)
    as (x & ps1 & pubs1 & st1 & l1 & -> & -> & H1 & L1 & _).
  destruct (weave_quiet _ 1 _ _ _ _ _ H1 acl_quiet)
    as ([] & ps2 & pubs2 & st2 & l2 & _ & -> & H2 & L2 & _).
  destruct (weave_quiet _ 2 _ _ _ _ _ H2 free_quiet)
    as ([] & ps3 & pubs3 & st3 & l3 & _ & -> & H3 & L3 & _).
  destruct (weave_quiet _ 3 _ _ _ _ _ H3 cursor_quiet)
    as (cursor & ps4 & pubs4 & st4 & l4 & _ & -> & H4 & L4 & _).
  destruct (weave_open_segment 4 _ _ _ _ H4) as (stream & ps5 & pubs5 & st5 & l5 & -> & H5 & L5 & Hf).
  exists [ps1; ps2; ps3; ps4; ps5], stream, cursor, pubs5, st5. eexists. split; [done|].
  split; [by rewrite !prepend_prepend|]. split; [|split; [|done]].
  - simpl. rewrite !elapsed_app. simpl. revert H5.
    match goal with |- so_far ?a _ _ _ → so_far ?b _ _ _ => replace b with a by lia; done end.
  - simpl. unfold on_log. rewrite app_nil_r, !Forall_app.
    split; [do 4 apply on_log_app; exact L1|]. split; [do 3 apply on_log_app; exact L2|].
    split; [do 2 apply on_log_app; exact L3|]. split; [apply on_log_app; exact L4|exact L5].
Qed.

(** Asking for the replay, among publishers. *)
Lemma weave_replay_segment i d pubs st new cap stream buf :
  so_far d pubs st new → fed cap ch stream buf st →
  (N.of_nat (length pubs0) ≤ st0.(world).(nw_kind).(history_size))%N →
  (d + elapsed (hs i) ≤ st0.(world).(nw_kind).(history_ttl))%N →
  ∃ replayed ps pubs' st' l,
    (∀ k : result HubError (list Publication) → async' SubscribeOk,
       weave ch hs i (Await (io_try (on_world EChannel
         (replay_since (kind_for hub ch) ch since))) k) (pubs, st)
       = prepend [ps] (weave ch hs (S i) (k (Ok replayed)) (pubs', st'))) ∧
    still st0 st' ∧ st'.(outboxes) = st0.(outboxes) ∧ fed cap ch stream (buf ++ ps) st' ∧
    on_log (new ++ l) ps ∧ Forall (λ p, p.(publ_channel) = ch ∧ (since < p.(publ_offset))%N) replayed ∧
    ∀ p, p ∈ entry_publication ch <$> (new ++ l) → (since < p.(publ_offset))%N → p ∈ replayed.
Proof.
  intros Hsf Hfed Hsize Httl. pose proof (so_far_happens d pubs st new (hs i) Hsf) as H.
  setoid_rewrite weave_await. pose proof (happens_fed cap ch stream buf (hs i) pubs st Hfed) as Hf.
  destruct (happens hub ch (hs i) (pubs, st)) as [ps [pubs1 st1]].
  destruct H as (l & [[logs Hpg] Hst Ho Hc Hcap] & Hps).
  destruct (progress_replay hub Hnode _ _ _ _ _ _ _ _ _ _ since Hpg Hsize) as (rs & k & Hrep & Hnewer & Hin);
    [rewrite Hc; lia|].
  unfold io_try. rewrite (on_world_eq EChannel _ _ _ _ Hrep). simpl.
  exists rs, ps, pubs1. eexists _, l. split; [reflexivity|]. split; [|split; [done|]].
  - eapply still_trans; [exact Hst|]. by apply still_core.
  - unfold fed in *. simpl. by split; [|split; [|split]].
Qed.
End head.

End resume.

(** ** Two publishers on the default node *)

Section witnesses.
#[local] Existing Instances QueueBroadcast CountNotifier QueueMpsc.

Abbreviation NodeSt := (@HubSt NodeW MemStream CountNotifier QueueMpsc).

(** The channel has had three publications, of which a client saw two. *)
Definition earlier : list (N * ps_op) :=
  (λ x, (0%N, OpPublish "rooms.lobby" [x])) <$> [x61; x62; x63].

Definition resuming : NodeSt :=
  set_world (mk_NodeW 0 (ps_run earlier (with_bounds 4 1000)).2 (with_capacity 8))
    (sample_open open_node).

Definition two_publishers : list Publisher :=
  [Before 0 "rooms.lobby" [x01]; Before 0 "rooms.lobby" [x02]].

(** [h] before segment [i]. *)
Definition before (hss : list (nat * list happening)) (i : nat) : list happening :=
  concat ((λ x, if decide (x.1 = i) then x.2 else []) <$> hss).

Definition sample_resume (since : N) (hss : list (nat * list happening)) :
    list (list Publication) * (result HubError SubscribeOk * (list Publisher * NodeSt)) :=
  weave open_node "rooms.lobby" (before hss) 0
    (subscribe_async open_node 0 1 "rooms.lobby" since) (two_publishers, resuming).

(** What the client gets: its outbox, then its stream. *)
Definition sample_frames (since : N) (hss : list (nat * list happening)) :
    list Publication * list Publication :=
  let '(_, (_, (_, st))) := sample_resume since hss in
  (omap (λ f, match f with SF_Publication p => Some p | _ => None end) (queued st 0),
   default [] (snd <$> stream_slot st.(world).(nw_broker) (mk_MemStream 0 0 "rooms.lobby"))).

Abbreviation pub n b := (mk_Publication "rooms.lobby" n [b]).

(** Nothing happens: the replay has what the client missed. *)
Example undisturbed : sample_frames 1 [] = ([pub 2 x63], []).
Proof. vm_compute. reflexivity. Qed.

(** The guard [since_offset > 0]. *)
Example from_the_start : sample_frames 0 [] = ([], []).
Proof. vm_compute. reflexivity. Qed.

(** The second publication is accepted before the stream is opened and announced
    after: the client gets it twice. *)
Example announced_in_between_comes_twice :
  sample_frames 2 [(0, [Turn 0; Turn 0; Turn 1]); (6, [Turn 1])]
  = ([pub 3 x01; pub 4 x02], [pub 4 x02]).
Proof. vm_compute. reflexivity. Qed.

(** Both are accepted, then announced the other way round: every subscriber gets
    offset 4 before offset 3. *)
Example offsets_out_of_order :
  sample_frames 0 [(6, [Turn 0; Turn 1; Turn 1; Turn 0])] = ([], [pub 4 x02; pub 3 x01]).
Proof. vm_compute. reflexivity. Qed.

Lemma open_node_plain : plain_node open_node.
Proof. by split. Qed.

Lemma resuming_logs : ∃ logs, pubsub_rel 0 logs resuming.(world).(nw_kind) ∧
  ∀ ch, (N.of_nat (length (logs ch)) ≤ 3)%N.
Proof.
  destruct (ps_run_refines 4 1000 0 0 earlier (λ _, []) (with_bounds 4 1000)) as [_ [Hrel _ _ _ Hn]];
    [vm_compute; intuition congruence|vm_compute; congruence|apply (run_inv_new 4 1000 0)|].
  eexists. split; [exact Hrel|]. intros ch. exact (Hn ch).
Qed.
End witnesses.

