(* ===== verification/WsProps.v ===== *)
(** * Correctness of the WebSocket transport

    One reply per request, in the session's own outbox; the codes of the errors;
    what closes a socket and what is left behind. *)
From S2P Require Import Prelude Protocol ProtoWire Traits Session Hub HubInv HubReach HubSteps.
From S2P Require Import Outbox Ws MemoryBroker Node HubProps.

(** The request a reply answers. *)
Definition client_request_id (f : ClientFrame) : N :=
  match f with
  | CF_Subscribe s => s.(sub_request_id)
  | CF_Unsubscribe u => u.(unsub_request_id)
  | CF_Publish p => p.(pub_request_id)
  | CF_Connect c => c.(con_request_id)
  end.

Definition server_request_id (f : ServerFrame) : option N :=
  match f with
  | SF_SubscribeOk s => Some s.(subok_request_id)
  | SF_UnsubscribeOk u => Some u.(unsubok_request_id)
  | SF_Publication _ => None
  | SF_Error e => Some e.(perr_request_id)
  | SF_ConnectOk c => Some c.(conok_request_id)
  end.

Section props.
Context {W Str : Type} `{NO : Notifier} `{M : Mpsc} {L : MpscLaws M} `{C : ProstCodec}.
Variable show_prost : prost_error → string.
Implicit Types (st : @HubSt W Str _ M) (hub : @Hub W Str).

(** The reply a result calls for. *)
Definition reply_frame {A} (request_id : N) (ok : A → list ServerFrame)
    (r : result HubError A) : list ServerFrame :=
  match r with
  | Ok a => ok a
  | Err err => [error_frame request_id (error_code_for err) (show_hub_error err)]
  end.

(** The reply to a frame: none for a publish that succeeds. *)
Definition reply_of (frame : ClientFrame) (sid : N) hub st : list ServerFrame :=
  match frame with
  | CF_Subscribe s =>
      reply_frame s.(sub_request_id) (λ ok, [SF_SubscribeOk ok])
        (handle_subscribe hub sid s.(sub_request_id) s.(sub_channel) s.(sub_since_offset) st).1
  | CF_Unsubscribe u =>
      reply_frame u.(unsub_request_id) (λ ok, [SF_UnsubscribeOk ok])
        (handle_unsubscribe hub sid u.(unsub_request_id) u.(unsub_channel) st).1
  | CF_Publish p =>
      reply_frame p.(pub_request_id) (λ _, [])
        (handle_publish hub sid p.(pub_channel) p.(pub_data) st).1
  | CF_Connect c =>
      reply_frame c.(con_request_id) (λ ok, [SF_ConnectOk ok])
        (handle_connect hub sid c.(con_request_id) c.(con_token) st).1
  end.

Lemma deliver_bound sid ptr o f st outs fs :
  bound sid ptr o st.(core) → appended o outs st.(outboxes) fs →
  appended o outs (deliver sid f st).(outboxes) (fs ++ [f]) ∧
  (deliver sid f st).(core) = st.(core).
Proof.
  intros [Hg Ho] Ha. unfold deliver. rewrite Hg, Ho.
  destruct (appended_send o f st (appended_open _ _ _ _ Ha)) as (st' & -> & Hc & Ha').
  simpl. split; [by eapply appended_trans|done].
Qed.

(** Reply frames, delivered or not. *)
Definition deliver_all (sid : N) (fs : list ServerFrame) st : HubSt :=
  foldl (λ st f, deliver sid f st) st fs.

Lemma handle_frame_replies frame sid hub st :
  handle_frame frame sid hub st
  = deliver_all sid (reply_of frame sid hub st)
      (match frame with
       | CF_Subscribe s =>
           (handle_subscribe hub sid s.(sub_request_id) s.(sub_channel) s.(sub_since_offset) st).2
       | CF_Unsubscribe u =>
           (handle_unsubscribe hub sid u.(unsub_request_id) u.(unsub_channel) st).2
       | CF_Publish p => (handle_publish hub sid p.(pub_channel) p.(pub_data) st).2
       | CF_Connect c => (handle_connect hub sid c.(con_request_id) c.(con_token) st).2
       end).
Proof. destruct frame; simpl; case_match; case_match; simplify_eq; done. Qed.

Lemma reply_of_cases frame sid hub st :
  length (reply_of frame sid hub st) ≤ 1 ∧
  (reply_of frame sid hub st = [] → ∃ p, frame = CF_Publish p).
Proof.
  destruct frame; simpl; unfold reply_frame; case_match; simpl; split; try lia; naive_solver.
Qed.

Lemma reply_of_request_id frame sid hub st :
  Forall (λ f, server_request_id f = Some (client_request_id frame)) (reply_of frame sid hub st).
Proof.
  assert (He : ∀ {A} rid ok (r : result HubError A),
    (∀ a, r = Ok a → Forall (λ f, server_request_id f = Some rid) (ok a)) →
    Forall (λ f, server_request_id f = Some rid) (reply_frame rid ok r)).
  { intros A rid ok [a|e] H; [by apply H|]. by repeat constructor. }
  destruct frame as [s|u|p|c]; simpl; apply He; intros ok Hok.
  - destruct (handle_subscribe _ _ _ _ _ st) as [r st'] eqn:E. simpl in Hok. subst r.
    apply handle_subscribe_Ok in E
      as (ptr & cl & w1 & cur & w2 & stream & w3 & st4 & _ & _ & _ & Hsub & _ & _ & _ & Hc & Hcom).
    rewrite commit_subscription_run in Hcom.
    + injection Hcom as <- _. by repeat constructor.
    + rewrite Hc. unfold has_subscription in Hsub. apply bool_decide_eq_false in Hsub.
      by apply eq_None_not_Some.
  - destruct (handle_unsubscribe _ _ _ _ st) as [r st'] eqn:E. simpl in Hok. subst r.
    unfold handle_unsubscribe in E. io_step E. io_step E. destruct a0; [|done].
    io_inv E. injection E as <- _. by repeat constructor.
  - constructor.
  - destruct (handle_connect _ _ _ _ st) as [r st'] eqn:E. simpl in Hok. subst r.
    unfold handle_connect in E. io_step E. io_step E.
    destruct (a0 && _); [done|]. io_inv E. injection E as <- _. by repeat constructor.
Qed.

Lemma queued_appended o st st' fs :
  appended o st.(outboxes) st'.(outboxes) fs → queued st' o = queued st o ++ fs.
Proof.
  intros [(ch & ch' & H1 & H2 & _ & Hq) _]. unfold queued. by rewrite H1, H2.
Qed.

(** A computation that leaves the outboxes alone appends nothing. *)
Lemma calm_appends_nothing {A} (m : io (@HubSt W Str _ M) HubError A) sid ptr o st ch :
  bound sid ptr o st.(core) → st.(outboxes) !! o = Some ch → mpsc_closed ch = false →
  calm (bound_with sid ptr o (λ outs, outs = st.(outboxes))) m →
  bound sid ptr o (m st).2.(core) ∧
  appended o st.(outboxes) (m st).2.(outboxes) (SF_Publication <$> []).
Proof.
  intros Hb Hch Hcl Hm. destruct (m st) as [r st'] eqn:E.
  destruct (calm_run _ _ _ _ _ Hm (conj Hb eq_refl) E) as [Hb' Ho]. simpl in *. rewrite Ho.
  split; [done|]. by eapply appended_refl.
Qed.

(** What is in the outbox when the reply is about to be delivered. *)
Lemma handle_frame_appends frame sid hub st ptr o :
  bound sid ptr o st.(core) → outbox_open st o →
  ∃ st1 ps, handle_frame frame sid hub st = deliver_all sid (reply_of frame sid hub st) st1 ∧
    bound sid ptr o st1.(core) ∧ appended o st.(outboxes) st1.(outboxes) (SF_Publication <$> ps) ∧
    (ps = [] ∨ ∃ s, frame = CF_Subscribe s).
Proof.
  intros Hb (ch & Hch & Hcl). pose proof (handle_frame_replies frame sid hub st) as Heq.
  assert (H0 : ∀ {A} (m : io (@HubSt W Str _ M) HubError A),
    calm (bound_with sid ptr o (λ outs, outs = st.(outboxes))) m →
    bound sid ptr o (m st).2.(core) ∧
    appended o st.(outboxes) (m st).2.(outboxes) (SF_Publication <$> []))
    by (intros A m Hm; by eapply calm_appends_nothing).
  destruct frame as [s|u|p|c].
  - assert (HP : bound_with sid ptr o (replayed o st.(outboxes)) st.(core) st.(outboxes)).
    { split; [done|]. exists []. by eapply appended_refl. }
    destruct (handle_subscribe hub sid s.(sub_request_id) s.(sub_channel) s.(sub_since_offset) st)
      as [r st1] eqn:E.
    destruct (calm_run _ _ _ _ _
      (handle_subscribe_outbox sid ptr o hub _ _ _ st.(outboxes)) HP E) as [Hb1 [ps Hps]].
    exists st1, ps. split; [exact Heq|]. split; [done|]. split; [done|]. right. eauto.
  - eexists _, []. split; [exact Heq|].
    destruct (H0 _ _ (calm_handle_unsubscribe sid ptr o _ hub sid u.(unsub_request_id)
      u.(unsub_channel))). by repeat (split; [done|]); left.
  - eexists _, []. split; [exact Heq|].
    destruct (H0 _ _ (calm_handle_publish sid ptr o _ hub sid p.(pub_channel) p.(pub_data))).
    by repeat (split; [done|]); left.
  - eexists _, []. split; [exact Heq|].
    destruct (H0 _ _ (calm_handle_connect sid ptr o _ hub sid c.(con_request_id) c.(con_token))).
    by repeat (split; [done|]); left.
Qed.

(** C15: handling a frame of a registered session whose connection is up puts
    into its outbox, after what was queued, the publications a subscribe replays
    and then the reply: exactly one frame carrying the request id, the
    acknowledgement or the error with the code and the text of the hub's error
    (nothing after a successful publish).  No other session's outbox changes. *)
Theorem one_reply_per_request (frame : ClientFrame) hub st sid ptr o
    (Hs : get st.(core).(registry) sid = Some ptr)
    (Ho : (deref st.(core) ptr).(outbox) = o) (Hopen : outbox_open st o) :
  let st' := handle_frame frame sid hub st in
  let reply := reply_of frame sid hub st in
  (∃ ps, queued st' o = queued st o ++ (SF_Publication <$> ps) ++ reply ∧
     (ps = [] ∨ ∃ s, frame = CF_Subscribe s)) ∧
  length reply ≤ 1 ∧ (reply = [] → ∃ p, frame = CF_Publish p) ∧
  Forall (λ f, server_request_id f = Some (client_request_id frame)) reply ∧
  outbox_open st' o ∧ ∀ o', o' ≠ o → queued st' o' = queued st o'.
Proof.
  intros st' reply. assert (Hb : bound sid ptr o st.(core)) by done.
  destruct (handle_frame_appends frame sid hub st ptr o Hb Hopen)
    as (st1 & ps & Heq & Hb1 & Ha1 & Hps).
  fold st' reply in Heq. rewrite Heq. destruct Hopen as (ch & Hch & Hcl).
  destruct (reply_of_cases frame sid hub st) as [Hlen Hpub].
  assert (Hfin : appended o st.(outboxes) (deliver_all sid reply st1).(outboxes)
                   ((SF_Publication <$> ps) ++ reply)).
  { fold reply in Hlen. destruct reply as [|f [|]]; simpl in *; [by rewrite app_nil_r| |lia].
    by eapply deliver_bound. }
  split; [exists ps; split; [by apply queued_appended|done]|].
  split; [done|]. split; [done|]. split; [apply reply_of_request_id|].
  split; [by eapply appended_open|]. intros o' Hne. unfold queued.
  destruct Hfin as [_ Hf]. by rewrite Hf.
Qed.

(** An undecodable binary message gets one [InvalidFrame] error with request
    id 0 and closes the socket; sessions, subscriptions and components are not
    involved.  Text, ping and pong messages change nothing, and only a close
    message or an undecodable one closes the socket. *)
Theorem dispatch_closes_on_invalid (msg : Message) hub st sid ptr o
    (Hs : get st.(core).(registry) sid = Some ptr)
    (Ho : (deref st.(core) ptr).(outbox) = o) (Hopen : outbox_open st o) :
  let '(go_on, st') := dispatch show_prost msg sid hub st in
  (go_on = false ↔ msg = Close ∨ ∃ bytes e, msg = Binary bytes ∧ decode_client bytes = Err e) ∧
  (∀ bytes e, msg = Binary bytes → decode_client bytes = Err e →
     st'.(core) = st.(core) ∧ st'.(world) = st.(world) ∧
     queued st' o = queued st o ++ [error_frame 0 InvalidFrame
       ("invalid frame: " +:+ show_decode_error show_prost e)]) ∧
  ((∀ bytes, msg ≠ Binary bytes) → st' = st).
Proof.
  destruct msg as [bytes| | | |]; simpl.
  2-4: split; [split; [done|intros [?|(? & ? & ? & _)]; done]|split; [done|done]].
  2: split; [split; [by left|done]|split; [done|done]].
  destruct (decode_client bytes) as [frame|e] eqn:E.
  { split; [split; [done|]|split].
    - intros [?|(? & ? & [= <-] & ?)]; [done|congruence].
    - intros ? ? [= <-]. congruence.
    - intros Hb. by destruct (Hb bytes). }
  destruct (outbox_send_open o (error_frame 0 InvalidFrame
    ("invalid frame: " +:+ show_decode_error show_prost e)) st Hopen)
    as (st1 & Hsend & Hc & Hw & _ & Hq & _).
  unfold deliver. rewrite Hs, Ho, Hsend. simpl. split; [split; [|done]|split].
  - intros _. right. by exists bytes, e.
  - intros b e' [= <-] He. rewrite E in He. injection He as <-. done.
  - intros Hb. by destruct (Hb bytes).
Qed.

(** The wire code of a hub error: schema rejections are 5, authentication
    failures 6, ACL denials 7, missing connects 8, everything else 4.  The codes
    [InvalidChannel] and [Unauthorized] are never sent, not even for an empty
    channel name. *)
Theorem error_codes (err : HubError) :
  (u32_of_error_code (error_code_for err) = 5%N ↔ ∃ e, err = ESchema e) ∧
  (u32_of_error_code (error_code_for err) = 6%N ↔ ∃ e, err = EAuth e) ∧
  (u32_of_error_code (error_code_for err) = 7%N ↔ ∃ e, err = EAcl e) ∧
  (u32_of_error_code (error_code_for err) = 8%N ↔ ∃ s, err = NotConnected s) ∧
  error_code_for (EChannel (InvalidChannel "")) = Internal ∧
  error_code_for err ∉ [InvalidFrame; InvalidChannelCode; Unauthorized].
Proof. destruct err; simpl; set_solver. Qed.

(** ** The socket *)

(** When the loop of a socket ends, for whatever reason, the session is no
    longer registered or listed for any channel, its allocation is gone and so
    are all its forwarders: nothing is leaked. *)
Theorem finish_cleans_up hub st s
    (Hst : reachable hub st) (Hheld : s.(Ws.session) ∈ st.(core).(held))
    (Hid : (deref st.(core) s.(Ws.session)).(id) = s.(session_id)) :
  let '(s', st') := finish hub s st in
  s'.(state) = Finished ∧ s'.(wire) = s.(wire) ∧
  get st'.(core).(registry) s.(session_id) ≠ Some s.(Ws.session) ∧
  st'.(core).(heap) !! s.(Ws.session) = None ∧
  ∀ ch t, (deref st.(core) s.(Ws.session)).(subscriptions) !! ch = Some t →
    st'.(core).(tasks) !! t = None.
Proof.
  unfold finish. set (st0 := drop_receiver s.(out) st).
  pose proof (core_inv_reachable _ _ Hst) as Hinv.
  destruct Hinv as (Hwf & _ & _). set (p := s.(Ws.session)) in *.
  destruct (cw_held _ _ Hwf _ Hheld) as [sid' Hp]. unfold id_at in Hp.
  destruct (heap (core st) !! p) as [x|] eqn:Hx; [|done].
  assert (Hd : deref st.(core) p = x) by (unfold deref; by rewrite Hx). rewrite Hd in *.
  assert (Hclose : ∃ st1, close_session hub s.(session_id) st0 = st1 ∧
    st1.(core).(heap) = st.(core).(heap) ∧ st1.(core).(held) = st.(core).(held) ∧
    st1.(core).(tasks) = st.(core).(tasks) ∧
    st1.(core).(registry).(sessions) !! s.(session_id) ≠ Some p).
  { eexists. split; [done|]. unfold close_session.
    destruct (sessions (registry (core st)) !! s.(session_id)) as [p'|] eqn:E.
    - assert (p' = p) as ->.
      { apply (cw_id_inj _ _ Hwf _ _ s.(session_id)); [by apply (cw_sess _ _ Hwf)|].
        unfold id_at. by rewrite Hx, <-Hid. }
      destruct (deregister_Some _ _ _ E) as (Heq & Hsess & _).
      change (registry (core st0)) with (registry (core st)). rewrite Heq.
      rewrite drop_arc_held by done. simpl. repeat (split; [done|]).
      by rewrite Hsess, lookup_delete_eq.
    - unfold deregister. simpl. rewrite E. simpl. repeat (split; [done|]). by rewrite E. }
  destruct Hclose as (st1 & -> & Hh1 & Hheld1 & Ht1 & Hs1).
  assert (Hd1 : deref st1.(core) p = x) by (unfold deref; by rewrite Hh1, Hx).
  set (st2 := set_core (set_held (held (core st1) ∖ {[p]}) (core st1)) st1).
  assert (Hd2 : deref st2.(core) p = x) by (unfold deref; simpl; by rewrite Hh1, Hx).
  assert (Hreg : get (release hub p st1).(core).(registry) s.(session_id) ≠ Some p).
  { unfold release, drop_arc. destruct (referenced _ _); [done|]. simpl.
    by rewrite abort_tasks_core. }
  split; [done|]. split; [done|]. split; [exact Hreg|].
  destruct (drop_arc_last hub p st2) as [Hheap Htasks].
  - simpl. set_solver.
  - rewrite Hd2, Hid. done.
  - split; [unfold release; fold st2; rewrite Hheap; simpl; by rewrite lookup_delete_eq|].
    intros ch t Hc. unfold release. fold st2. rewrite Htasks, Hd2, decide_True; [done|].
    by eapply elem_of_abort_all.
Qed.

(** Frames of a session that is gone have no effect and no reply. *)
Lemma handle_frame_gone frame sid hub st :
  get st.(core).(registry) sid = None → handle_frame frame sid hub st = st.
Proof.
  intros Hg. pose proof (get_session_None _ _ Hg) as He.
  assert (Hd : ∀ f, deliver sid f st = st) by (intros f; unfold deliver; by rewrite Hg).
  destruct frame; simpl;
    unfold handle_subscribe, handle_unsubscribe, handle_publish, handle_connect;
    rewrite (io_bind_Err_eq _ _ _ _ _ He); apply Hd.
Qed.

(** C39: a kick that arrives while a message is being handled is lost: the
    session disappears from the registry, but when the loop comes back to its
    [select!] it waits on a new notification that is not ready and that no later
    kick can fire, since the id is unknown by then.  The socket stays up, its
    frames have no effect and get no reply. *)
Theorem kick_during_dispatch_is_lost {NL : NotifierLaws NO} hub st s m
    (Hstate : s.(state) = Dispatching m)
    (Hs : get st.(core).(registry) s.(session_id) = Some s.(Ws.session))
    (Hheld : s.(Ws.session) ∈ st.(core).(held))
    (Hok : m = Text ∨ ∃ bytes frame, m = Binary bytes ∧ decode_client bytes = Ok frame) :
  let st1 := (kick_session hub s.(session_id) st).2 in
  let '(s', st') := dispatch_turn show_prost hub s st1 in
  st' = st1 ∧ get st1.(core).(registry) s.(session_id) = None ∧
  (∃ w, s' = set_state (Selecting w) s ∧
     notified_ready (deref st'.(core) s.(Ws.session)).(shutdown) w = false) ∧
  kick_session hub s.(session_id) st' = (false, st') ∧
  ∀ frame, handle_frame frame s.(session_id) hub st' = st'.
Proof.
  set (st1 := (kick_session hub s.(session_id) st).2). simpl.
  assert (Hgone : get st1.(core).(registry) s.(session_id) = None).
  { subst st1. unfold kick_session. rewrite Hs.
    destruct (deregister_Some s.(session_id) (registry (core st)) _ Hs) as (Heq & Hsess & _).
    change (registry (store ?p ?x (core st))) with (registry (core st)). rewrite Heq. simpl.
    rewrite drop_arc_held by done. unfold get. simpl. by rewrite Hsess, lookup_delete_eq. }
  assert (Hdisp : dispatch show_prost m s.(session_id) hub st1 = (true, st1)).
  { destruct Hok as [-> | (bytes & frame & -> & Hdec)]; simpl; [done|].
    by rewrite Hdec, handle_frame_gone. }
  unfold dispatch_turn. rewrite Hstate, Hdisp.
  split; [done|]. split; [done|]. split; [|split].
  - eexists. split; [done|]. apply notified_pending.
  - unfold kick_session. by rewrite Hgone.
  - intros frame. by apply handle_frame_gone.
Qed.
End props.

(** ** Witnesses *)

Section witnesses.
#[local] Existing Instances QueueBroadcast CountNotifier QueueMpsc.

(** A socket in the middle of a text message, its session subscribed. *)
Definition sample_socket (p : phase) : Socket := mk_Socket 0 0 0 p true [].

(** Suspended in the first [select!]. *)
Definition sample_selecting : phase := Selecting (notified Notify_new).
End witnesses.

Lemma one_reply_per_request_witness :
  let frame := CF_Publish (mk_Publish 5 "rooms.lobby" [x01]) in
  queued (handle_frame frame 0 read_only_node (sample_sub read_only_node)) 0%N
  = [error_frame 5 AclDenied
       (show_hub_error (EAcl (Denied "anonymous" "publish" "rooms.lobby" "policy denied")))].
Proof.
  intros frame.
  destruct (one_reply_per_request frame read_only_node (sample_sub read_only_node) 0 0 0
    ltac:(vm_compute; reflexivity) ltac:(vm_compute; reflexivity)
    ltac:(exists ([], false); split; vm_compute; reflexivity)) as ((ps & Hq & [->|[s Hs]]) & _).
  - rewrite Hq. vm_compute. reflexivity.
  - exfalso. discriminate Hs.
Defined.

Lemma dispatch_closes_on_invalid_witness :
  (dispatch (λ _ : prost_error, "bad") (Binary []) 0 open_node (sample_sub open_node)).1 = false.
Proof.
  pose proof (dispatch_closes_on_invalid (λ _ : prost_error, "bad") (Binary []) open_node
    (sample_sub open_node) 0 0 0 ltac:(vm_compute; reflexivity) ltac:(vm_compute; reflexivity)
    ltac:(exists ([], false); split; vm_compute; reflexivity)) as H.
  destruct (dispatch _ (Binary []) 0 open_node (sample_sub open_node)) as [b st'].
  destruct H as ([_ H] & _ & _). simpl. apply H. right. exists [], MissingClientKind.
  split; reflexivity.
Defined.

Lemma finish_cleans_up_witness :
  (finish open_node (sample_socket sample_selecting) (sample_sub open_node)).2.(core).(tasks) !! 0%N
  = None.
Proof.
  pose proof (finish_cleans_up open_node (sample_sub open_node) (sample_socket sample_selecting)
    (reachable_sample_sub _) ltac:(apply (bool_decide_unpack _); vm_compute; exact I)
    ltac:(vm_compute; reflexivity)) as H.
  destruct (finish open_node (sample_socket sample_selecting) (sample_sub open_node)) as [s' st'].
  destruct H as (_ & _ & _ & _ & H). apply (H "rooms.lobby"). vm_compute. reflexivity.
Defined.

Lemma kick_during_dispatch_is_lost_witness :
  (kick_session open_node 0 (kick_session open_node 0 (sample_sub open_node)).2).1 = false.
Proof.
  pose proof (kick_during_dispatch_is_lost (λ _ : prost_error, "bad") open_node
    (sample_sub open_node) (sample_socket (Dispatching Text)) Text eq_refl
    ltac:(vm_compute; reflexivity) ltac:(apply (bool_decide_unpack _); vm_compute; exact I)
    (or_introl eq_refl)) as (_ & _ & _ & H & _).
  exact (f_equal fst H).
Defined.
