(* ===== verification/Sockets.v ===== *)
(** * WebSockets whose handlers are interrupted

    The loop of [handle_socket] (crates/cherenkov-transport-ws/src/lib.rs) dispatches
    one message at a time and holds its session until it ends.  With any number of
    sockets, each dispatch suspended at any await of its handler, that is what
    Running.v asks of a transport: the runs of the sockets are runs of that machine,
    and so linearizable. *)
From S2P Require Import Prelude Protocol ProtoWire Traits MemoryBroker.
From S2P Require Import Session Hub HubInv HubReach HubSteps Node.
From S2P Require Import Async Race Service Running Linear Ws WsProps.

Section sockets.
Context {W Str : Type} `{NO : Notifier} `{M : Mpsc} `{C : ProstCodec}.
Variable show_prost : prost_error → string.
Implicit Types (c : @HubCore Str _) (st : @HubSt W Str _ M) (hub : @Hub W Str).

(** ** A frame as a call of the hub *)

Definition request_of (sid : N) (frame : ClientFrame) : Request :=
  match frame with
  | CF_Subscribe s => RSubscribe sid s.(sub_request_id) s.(sub_channel) s.(sub_since_offset)
  | CF_Unsubscribe u => RUnsubscribe sid u.(unsub_request_id) u.(unsub_channel)
  | CF_Publish p => RPublish sid p.(pub_channel) p.(pub_data)
  | CF_Connect x => RConnect sid x.(con_request_id) x.(con_token)
  end.

(** What [handle_frame] delivers for the hub's answer. *)
Definition replies_to (frame : ClientFrame) (v : result HubError Answer) : list ServerFrame :=
  match v with
  | Ok (ASubscribe ok) => [SF_SubscribeOk ok]
  | Ok (AUnsubscribe ok) => [SF_UnsubscribeOk ok]
  | Ok (AConnect ok) => [SF_ConnectOk ok]
  | Ok (APublish _) => []
  | Err e => [error_frame (client_request_id frame) (error_code_for e) (show_hub_error e)]
  end.

Lemma handle_frame_as_call frame sid hub st :
  handle_frame frame sid hub st
  = let '(v, st') := handle hub (request_of sid frame) st in
    deliver_all sid (replies_to frame v) st'.
Proof.
  destruct frame as [s|u|p|x]; unfold handle_frame; simpl; unfold io_bind.
  - by destruct (handle_subscribe _ _ _ _ _ st) as [[ok|e] st'].
  - by destruct (handle_unsubscribe _ _ _ _ st) as [[ok|e] st'].
  - by destruct (handle_publish _ _ _ _ st) as [[ok|e] st'].
  - by destruct (handle_connect _ _ _ _ st) as [[ok|e] st'].
Qed.

(** ** Sockets *)

(** A socket of Ws.v, and the call its dispatch waits for. *)
Record Link : Type := mk_Link {
  l_socket : Socket;
  l_call : option (nat * ClientFrame);
}.

Record SocketNet : Type := mk_SocketNet {
  sn_running : @Running W Str NO M;
  sn_links : list Link;
}.

Inductive sock_event : Type :=
| SockOpen (outbox capacity : N)
| SockRead (k : nat) (ev : read_event)
| SockDispatch (k : nat)
| SockTurn (i : nat)
| SockReply (k : nat)
| SockWrite (k : nat) (sent : bool)
| SockKick (sid : N)
| SockForward (task : N).

Definition with_link (k : nat) (l : Link) (R : @Running W Str NO M) (N : SocketNet) : SocketNet :=
  mk_SocketNet R (<[k := l]> N.(sn_links)).

(** A step of Ws.v by the socket alone. *)
Definition socket_alone (k : nat) (r : Socket * @HubSt W Str NO M) (N : SocketNet) : SocketNet :=
  with_link k (mk_Link r.1 None) (with_state r.2 N.(sn_running)) N.

Definition sock_perform hub (ev : sock_event) (N : SocketNet) : option SocketNet :=
  let R := N.(sn_running) in
  let st := R.(hub_state) in
  match ev with
  | SockOpen o capacity =>
      if bool_decide (st.(core).(metrics).(sessions_opened_total) < u64_modulus)%N then
        let '(s, st) := open_socket hub o capacity st in
        Some (mk_SocketNet (with_state st R) (N.(sn_links) ++ [mk_Link s None]))
      else None
  | SockRead k ev =>
      l ← N.(sn_links) !! k;
      match l.(l_socket).(state) with
      | Selecting _ => Some (socket_alone k (select_turn hub ev l.(l_socket) st) N)
      | _ => None
      end
  | SockDispatch k =>
      l ← N.(sn_links) !! k;
      match l.(l_socket).(state), l.(l_call) with
      | Dispatching m, None =>
          match m with
          | Binary bytes =>
              match decode_client bytes with
              | Ok frame =>
                  let r := request_of l.(l_socket).(session_id) frame in
                  Some (with_link k (mk_Link l.(l_socket) (Some (length R.(calls), frame)))
                    (mk_Running (R.(history) ++ [Invoked r]) (R.(calls) ++ [(r, handle_async hub r)]) st) N)
              | Err _ => Some (socket_alone k (dispatch_turn show_prost hub l.(l_socket) st) N)
              end
          | _ => Some (socket_alone k (dispatch_turn show_prost hub l.(l_socket) st) N)
          end
      | _, _ => None
      end
  | SockTurn i => R ← perform hub (DoTurn i) R; Some (mk_SocketNet R N.(sn_links))
  | SockReply k =>
      l ← N.(sn_links) !! k;
      '(i, frame) ← l.(l_call);
      match R.(calls) !! i with
      | Some (_, Done v) =>
          let s := l.(l_socket) in
          let st := deliver_all s.(session_id) (replies_to frame v) st in
          Some (socket_alone k
            (set_state (Selecting (notified (deref st.(core) s.(session)).(shutdown))) s, st) N)
      | _ => None
      end
  | SockWrite k sent =>
      l ← N.(sn_links) !! k;
      let '(s, st) := write_turn sent l.(l_socket) st in
      Some (with_link k (mk_Link s l.(l_call)) (with_state st R) N)
  | SockKick sid => Some (mk_SocketNet (with_state (kick_session hub sid st).2 R) N.(sn_links))
  | SockForward task => Some (mk_SocketNet (with_state (forward hub task st) R) N.(sn_links))
  end.

Inductive sock_step hub (N : SocketNet) : SocketNet → Prop :=
| sock_event_step ev N' : sock_perform hub ev N = Some N' → sock_step hub N N'
| sock_world w : sock_step hub N
    (mk_SocketNet (with_state (mk_HubSt N.(sn_running).(hub_state).(core)
       N.(sn_running).(hub_state).(outboxes) w) N.(sn_running)) N.(sn_links)).

Definition sock_init (w : W) : SocketNet := mk_SocketNet (running_init w) [].

(** *** Uninterrupted, it is the dispatch of Ws.v *)

(** All turns of the handler, then the replies. *)
Definition call_through hub (frame : ClientFrame) (sid : N) st : @HubSt W Str NO M :=
  let '(v, st) := run (handle_async hub (request_of sid frame)) st in
  deliver_all sid (replies_to frame v) st.

Lemma uninterrupted_dispatch hub frame bytes s st :
  s.(state) = Dispatching (Binary bytes) → decode_client bytes = Ok frame →
  dispatch_turn show_prost hub s st
  = let st := call_through hub frame s.(session_id) st in
    (set_state (Selecting (notified (deref st.(core) s.(session)).(shutdown))) s, st).
Proof.
  intros Hs Hd. unfold dispatch_turn, call_through. rewrite Hs. simpl. rewrite Hd.
  rewrite handle_frame_as_call, (uninterrupted_handlers hub _ st).
  by destruct (handle hub _ st) as [v st'].
Qed.
(** ** The promises are kept *)

(** Handles that are held stay, and their sessions with them. *)
Definition stable c c' : Prop :=
  c.(held) ⊆ c'.(held) ∧ ∀ p, p ∈ c.(held) → id_at c'.(heap) p = id_at c.(heap) p.

Lemma stable_same_arcs c c' : arcs c' = arcs c → stable c c'.
Proof. unfold arcs, stable. intros [= _ _ -> -> _ _]. done. Qed.

Lemma drop_arc_keeps hub p st :
  (drop_arc hub p st).(core).(held) = st.(core).(held) ∧
  ∀ q, q ∈ st.(core).(held) → (drop_arc hub p st).(core).(heap) !! q = st.(core).(heap) !! q.
Proof.
  unfold drop_arc, referenced. destruct (bool_decide (p ∈ _)) eqn:Hh; [done|].
  apply bool_decide_eq_false in Hh. destruct (bool_decide _); [done|]. simpl.
  rewrite abort_tasks_core. split; [done|]. intros q Hq. simpl. apply lookup_delete_ne. by intros ->.
Qed.

Lemma stable_drop_arc hub p st : stable st.(core) (drop_arc hub p st).(core).
Proof.
  destruct (drop_arc_keeps hub p st) as [Hh Hk]. split; [by rewrite Hh|].
  intros q Hq. unfold id_at. by rewrite Hk.
Qed.

#[local] Instance stable_trans : Transitive stable.
Proof.
  intros c1 c2 c3 [H1 H2] [H3 H4]. split; [set_solver|]. intros p Hp. rewrite H4 by auto. auto.
Qed.

Lemma stable_close hub sid st : stable st.(core) (close_session hub sid st).(core).
Proof.
  unfold close_session. destruct (deregister _ _) as [[p|] reg]; [|done].
  by etrans; [|apply stable_drop_arc].
Qed.

Lemma stable_store c p s s' :
  c.(heap) !! p = Some s → s'.(id) = s.(id) → stable c (store p s' c).
Proof.
  intros Hp Hid. split; [done|]. intros q _. simpl. unfold id_at.
  destruct (decide (p = q)) as [->|]; [by rewrite lookup_insert_eq, Hp; simpl; rewrite Hid|].
  by rewrite lookup_insert_ne.
Qed.

Lemma stable_kick hub sid st :
  arcs_but hub None st.(core) → stable st.(core) (kick_session hub sid st).2.(core).
Proof.
  intros Hok. unfold kick_session. destruct (get _ sid) as [p|] eqn:Hg; [|done].
  destruct (ao_sess _ _ _ Hok _ _ Hg) as (s & Hs & _).
  pose proof (stable_store _ _ _ (signal_shutdown (deref st.(core) p)) Hs) as H.
  rewrite (deref_heap _ _ _ Hs) in *. specialize (H eq_refl).
  destruct (deregister _ _) as [[p'|] reg]; [|exact H].
  simpl. etrans; [exact H|]. by etrans; [|apply stable_drop_arc].
Qed.

Lemma stable_open hub o st :
  arcs_but hub None st.(core) → stable st.(core) (open_session hub o st).2.(core).
Proof.
  intros Hok. split; simpl; [set_solver|]. intros q [s Hq]%(ao_held _ _ _ Hok).
  unfold id_at. rewrite lookup_insert_ne; [done|]. intros <-.
  apply (ao_fresh _ _ _ Hok) in Hq. lia.
Qed.

(** Letting go of one handle keeps the others. *)
Lemma release_keeps hub p st q :
  q ∈ st.(core).(held) → q ≠ p →
  q ∈ (release hub p st).(core).(held) ∧
  id_at (release hub p st).(core).(heap) q = id_at st.(core).(heap) q.
Proof.
  intros Hq Hne. unfold release. set (st1 := set_core _ st).
  destruct (drop_arc_keeps hub p st1) as [Hh Hk].
  assert (q ∈ st1.(core).(held)) as Hq1 by (simpl; set_solver).
  split; [by rewrite Hh|]. unfold id_at. by rewrite Hk.
Qed.

(** A turn of a handler. *)
Lemma call_steps_ids `{D : During W} hub x S x' S' :
  rtc (call_step hub) (x, S) (x', S') → ∀ p, m_id <$> S' !! p = m_id <$> S !! p.
Proof.
  intros H. remember (x, S) as a eqn:Ea. remember (x', S') as b eqn:Eb.
  revert x S x' S' Ea Eb. induction H as [a|a [x1 S1] b Hstep _ IH]; intros x S x' S' Ea Eb p;
    simplify_eq; [done|].
  rewrite (IH _ _ _ _ eq_refl eq_refl p).
  inversion Hstep as [| |r S0 q seen m A m' Hq _ Hs]; subst; try done.
  destruct (decide (q = p)) as [->|]; [|by rewrite lookup_insert_ne].
  rewrite lookup_insert_eq, Hq. simpl. by rewrite (serves_id _ _ _ _ _ _ Hs).
Qed.

Lemma id_at_service c p : id_at c.(heap) p = m_id <$> service c !! p.
Proof. rewrite service_lookup. unfold id_at. by destruct (heap c !! p). Qed.

(** The worlds do not matter here. *)
Definition anytime : During W := λ _, True.
Abbreviation sim_any hub := (sim (D:=anytime) hub None).

Lemma stable_turn hub R S i r a :
  sim_any hub R S → R.(calls) !! i = Some (r, a) → suspended a = true →
  stable R.(hub_state).(core) (turn a R.(hub_state)).2.(core).
Proof.
  intros [Hh Hsv Hok Hcs Hre Hke Hco Hix] Hi Hs.
  destruct (Forall2_lookup_l _ _ _ _ _ Hcs Hi) as (x & Hx & Hreq & Hfol). simpl in *.
  assert (tracks (D:=anytime) hub a x) as Ht by by destruct a.
  pose proof (Forall_lookup_1 _ _ _ _ Hre Hx) as Hrx. rewrite Hsv in Hrx.
  destruct (tracks_turn (D:=anytime) hub a x R.(hub_state) Hs Ht I Hok Hrx)
    as (_ & [Hheld _] & _ & x' & Hsteps & _).
  split; [by rewrite Hheld|]. intros p _. rewrite !id_at_service. by eapply call_steps_ids.
Qed.

(** *** The invariant of the sockets *)

Definition alive (l : Link) : Prop :=
  match l.(l_socket).(state) with Finished => False | _ => True end.

Definition owns c (l : Link) : Prop :=
  l.(l_socket).(session) ∈ c.(held) ∧
  id_at c.(heap) l.(l_socket).(session) = Some l.(l_socket).(session_id).

Record sock_inv hub (N : SocketNet) : Prop := {
  si_sim : ∃ S, sim_any hub N.(sn_running) S;
  si_owns k l : N.(sn_links) !! k = Some l → alive l → owns N.(sn_running).(hub_state).(core) l;
  si_apart k k' l l' : k ≠ k' → N.(sn_links) !! k = Some l → N.(sn_links) !! k' = Some l' →
    alive l → alive l' → l.(l_socket).(session_id) ≠ l'.(l_socket).(session_id);
  si_calls i r a : N.(sn_running).(calls) !! i = Some (r, a) → suspended a = true →
    ∃ k l frame, N.(sn_links) !! k = Some l ∧ l.(l_call) = Some (i, frame) ∧
      requester r = l.(l_socket).(session_id);
  si_busy k l i frame : N.(sn_links) !! k = Some l → l.(l_call) = Some (i, frame) →
    ∃ m, l.(l_socket).(state) = Dispatching m;
}.

Lemma owns_stable c c' l : stable c c' → owns c l → owns c' l.
Proof. intros [Hh Hi] [H1 H2]. split; [auto|]. by rewrite Hi. Qed.

(** The hub moves and the sockets stay. *)
Lemma sock_inv_hub hub N R' :
  sock_inv hub N → rtc (running_step hub) N.(sn_running) R' →
  stable N.(sn_running).(hub_state).(core) R'.(hub_state).(core) →
  (∀ i r a, R'.(calls) !! i = Some (r, a) → suspended a = true →
     ∃ a', N.(sn_running).(calls) !! i = Some (r, a') ∧ suspended a' = true) →
  sock_inv hub (mk_SocketNet R' N.(sn_links)).
Proof.
  intros [[S Hsim] Hown Hap Hca Hbu] Hrun Hst Hcalls. split; simpl; try done.
  - destruct (sim_run (D:=anytime) hub _ _ S Hrun) as (S' & _ & ?); [done..|]. by exists S'.
  - intros k l Hl Ha. eapply owns_stable; eauto.
  - intros i r a Hi Hs. destruct (Hcalls _ _ _ Hi Hs) as (a' & Hi' & Hs'). eauto.
Qed.
(** One socket changes and the hub stays. *)
Lemma sock_inv_link hub N k l l' :
  sock_inv hub N → N.(sn_links) !! k = Some l →
  l'.(l_socket).(session) = l.(l_socket).(session) →
  l'.(l_socket).(session_id) = l.(l_socket).(session_id) → (alive l' → alive l) →
  (∀ i frame r a, l.(l_call) = Some (i, frame) → N.(sn_running).(calls) !! i = Some (r, a) →
     suspended a = true → l'.(l_call) = Some (i, frame)) →
  (∀ i frame, l'.(l_call) = Some (i, frame) → ∃ m, l'.(l_socket).(state) = Dispatching m) →
  sock_inv hub (with_link k l' N.(sn_running) N).
Proof.
  intros [Hsim Hown Hap Hca Hbu] Hk Hse Hid Hal Hcall Hbusy.
  assert (∀ j x, <[k := l']> N.(sn_links) !! j = Some x → alive x →
    ∃ y, N.(sn_links) !! j = Some y ∧ alive y ∧ x.(l_socket).(session) = y.(l_socket).(session) ∧
      x.(l_socket).(session_id) = y.(l_socket).(session_id)) as Hback.
  { intros j x [(<- & <- & _)|[_ Hx]]%list_lookup_insert_Some Ha; eauto 6. }
  split; simpl; try done.
  - intros j x Hx Ha. destruct (Hback j x Hx Ha) as (y & Hy & Hay & H1 & H2).
    unfold owns. rewrite H1, H2. by eapply Hown.
  - intros j j' x x' Hne Hx Hx' Ha Ha'. destruct (Hback j x Hx Ha) as (y & Hy & Hay & _ & ->).
    destruct (Hback j' x' Hx' Ha') as (y' & Hy' & Hay' & _ & ->). eauto.
  - intros i r a Hi Hs. destruct (Hca i r a Hi Hs) as (j & x & frame & Hx & Hc & Hr).
    destruct (decide (k = j)) as [<-|Hne].
    + simplify_eq. exists k, l', frame. rewrite list_lookup_insert_eq by (by eapply lookup_lt_Some).
      split; [done|]. split; [by eapply Hcall|congruence].
    + exists j, x, frame. by rewrite list_lookup_insert_ne.
  - intros j x i frame [(<- & <- & _)|[_ Hx]]%list_lookup_insert_Some Hc; eauto.
Qed.

(** Whatever leaves the core alone is a step of the environment. *)
Lemma run_same_core hub (R : @Running W Str NO M) st' :
  st'.(core) = R.(hub_state).(core) → running_step hub R (with_state st' R).
Proof.
  intros Hc. pose proof (run_env hub R st'.(outboxes) st'.(world)) as H.
  rewrite <- Hc in H. by destruct st'.
Qed.

Lemma sock_inv_core hub N st' :
  sock_inv hub N → st'.(core) = N.(sn_running).(hub_state).(core) →
  sock_inv hub (mk_SocketNet (with_state st' N.(sn_running)) N.(sn_links)).
Proof.
  intros Hinv Hc. apply sock_inv_hub; [done|by apply rtc_once, run_same_core| |by eauto].
  simpl. rewrite Hc. by apply stable_same_arcs.
Qed.

(** Requests in flight are those of other sockets than an idle one. *)
Lemma in_flight_others hub N k l r :
  sock_inv hub N → N.(sn_links) !! k = Some l → alive l → l.(l_call) = None →
  r ∈ in_flight N.(sn_running).(calls) → requester r ≠ l.(l_socket).(session_id).
Proof.
  intros Hinv Hk Ha Hnone ((r' & a) & -> & [Hs Hin]%list_elem_of_filter)%list_elem_of_fmap.
  apply list_elem_of_lookup in Hin as [i Hi]. simpl in *.
  destruct (si_calls _ _ Hinv i r' a Hi Hs) as (k' & l' & frame & Hk' & Hc & ->).
  assert (k' ≠ k) as Hne by (intros ->; congruence).
  apply (si_apart _ _ Hinv _ _ _ _ Hne Hk' Hk); [|done].
  destruct (si_busy _ _ Hinv _ _ _ _ Hk' Hc) as [m Hm]. unfold alive. by rewrite Hm.
Qed.

Lemma si_arcs hub N : sock_inv hub N → arcs_but hub None N.(sn_running).(hub_state).(core).
Proof. intros [[S Hsim] _ _ _ _]. by apply sim_arcs in Hsim. Qed.

Definition socket_ok hub (N N' : SocketNet) : Prop :=
  rtc (running_step hub) N.(sn_running) N'.(sn_running) ∧ sock_inv hub N'.

(** The end of a socket: it closes its session, then lets go of it. *)
Lemma finish_ok hub N k l st1 :
  sock_inv hub N → N.(sn_links) !! k = Some l → alive l → l.(l_call) = None →
  st1.(core) = N.(sn_running).(hub_state).(core) →
  socket_ok hub N (socket_alone k (finish hub l.(l_socket) st1) N).
Proof.
  intros Hinv Hk Ha Hnone Hc. set (R := N.(sn_running)). set (s := l.(l_socket)).
  set (R1 := with_state (drop_receiver s.(out) st1) R).
  set (R2 := with_state (close_session hub s.(session_id) R1.(hub_state)) R1).
  set (R3 := with_state (release hub s.(session) R2.(hub_state)) R2).
  assert (rtc (running_step hub) R R2) as H12.
  { eapply rtc_l; [by apply (run_same_core hub R (drop_receiver s.(out) st1))|].
    apply rtc_once. by apply (run_action hub R1 (DoClose s.(session_id))). }
  assert (stable R.(hub_state).(core) R2.(hub_state).(core)) as Hst.
  { replace R.(hub_state).(core) with R1.(hub_state).(core) by done. apply stable_close. }
  pose proof (owns_stable _ _ _ Hst (si_owns _ _ Hinv _ _ Hk Ha)) as [Hheld Hid]. fold s in Hheld, Hid.
  assert (may_release R2 s.(session) = true) as Hmay.
  { unfold may_release. apply andb_true_iff. split; [by apply bool_decide_eq_true|].
    apply forallb_forall. intros r Hr%list_elem_of_In. apply bool_decide_eq_true.
    pose proof (in_flight_others hub N k l r Hinv Hk Ha Hnone Hr) as Hne.
    unfold id_at in Hid. destruct (heap _ !! _) as [ss|] eqn:Hss; [|done]. injection Hid as Hid.
    rewrite (deref_heap _ _ _ Hss), Hid. exact Hne. }
  assert (rtc (running_step hub) R R3) as H13.
  { eapply rtc_r; [exact H12|]. apply (run_action hub R2 (DoRelease s.(session))). simpl.
    by rewrite Hmay. }
  split; [exact H13|]. pose proof (sock_inv_hub hub N R2 Hinv H12 Hst) as Hinv2.
  assert (sock_inv hub (mk_SocketNet R2 N.(sn_links))) as [Hsim2 Hown2 Hap2 Hca2 Hbu2]
    by (apply Hinv2; eauto). clear Hinv2.
  set (l3 := mk_Link (finish hub s st1).1 None).
  assert (¬ alive l3) as Hdead by (by intros []).
  split.
  - destruct Hinv as [[S Hsim] _ _ _ _].
    destruct (sim_run (D:=anytime) hub _ _ S H13) as (S' & _ & ?); [done..|]. by exists S'.
  - simpl. intros j x [(<- & <- & _)|[Hne Hx]]%list_lookup_insert_Some Hax; [by destruct Hdead|].
    destruct (Hown2 _ _ Hx Hax) as [H1 H2]. simpl in H1, H2.
    assert (x.(l_socket).(session) ≠ s.(session)) as Hses.
    { intros He. apply (Hap2 _ _ _ _ Hne Hk Hx Ha Hax). fold s. rewrite He in H2.
      pose proof (eq_trans (eq_sym Hid) H2) as Heq. by injection Heq. }
    destruct (release_keeps hub s.(session) R2.(hub_state) _ H1 Hses) as [H3 H4].
    split; [exact H3|]. exact (eq_trans H4 H2).
  - simpl. intros j j' x x' Hne [(<- & <- & _)|[_ Hx]]%list_lookup_insert_Some
      [(<- & <- & _)|[_ Hx']]%list_lookup_insert_Some Hax Hax'; try (by destruct Hdead). by eapply Hap2.
  - simpl. intros i r a Hi Hs. destruct (Hca2 i r a Hi Hs) as (j & x & frame & Hx & Hcx & Hr).
    exists j, x, frame. rewrite list_lookup_insert_ne; [done|]. intros ->. simpl in Hx. congruence.
  - simpl. intros j x i frame [(<- & <- & _)|[_ Hx]]%list_lookup_insert_Some Hcx; [done|].
    by eapply Hbu2.
Qed.
(** *** The events *)

Lemma reply_core sid f st : (deliver sid f st).(core) = st.(core).
Proof. unfold deliver. destruct (get _ _); [apply outbox_send_core|done]. Qed.

Lemma deliver_all_core sid fs st : (deliver_all sid fs st).(core) = st.(core).
Proof.
  unfold deliver_all. revert st. induction fs as [|f fs IH]; intros st; simpl; [done|].
  by rewrite IH, reply_core.
Qed.

Lemma idle_call hub N k l :
  sock_inv hub N → N.(sn_links) !! k = Some l →
  (∀ m, l.(l_socket).(state) ≠ Dispatching m) → l.(l_call) = None.
Proof.
  intros Hinv Hk Hs. destruct l.(l_call) as [[i frame]|] eqn:Hc; [|done].
  destruct (si_busy _ _ Hinv _ _ _ _ Hk Hc) as [m Hm]. by destruct (Hs m).
Qed.

(** The link moves on and the outboxes may change. *)
Lemma link_ok hub N k l l' st' :
  sock_inv hub N → N.(sn_links) !! k = Some l → st'.(core) = N.(sn_running).(hub_state).(core) →
  l'.(l_socket).(session) = l.(l_socket).(session) →
  l'.(l_socket).(session_id) = l.(l_socket).(session_id) → (alive l' → alive l) →
  (∀ i frame r a, l.(l_call) = Some (i, frame) → N.(sn_running).(calls) !! i = Some (r, a) →
     suspended a = true → l'.(l_call) = Some (i, frame)) →
  (∀ i frame, l'.(l_call) = Some (i, frame) → ∃ m, l'.(l_socket).(state) = Dispatching m) →
  socket_ok hub N (with_link k l' (with_state st' N.(sn_running)) N).
Proof.
  intros Hinv Hk Hc Hse Hid Hal Hcall Hbusy. split; [by apply rtc_once, run_same_core|].
  by apply (sock_inv_link hub (mk_SocketNet (with_state st' N.(sn_running)) N.(sn_links)) k l l');
    [by apply sock_inv_core|..].
Qed.

Lemma select_ok hub N k l ev w :
  sock_inv hub N → N.(sn_links) !! k = Some l → l.(l_socket).(state) = Selecting w →
  socket_ok hub N (socket_alone k (select_turn hub ev l.(l_socket) N.(sn_running).(hub_state)) N).
Proof.
  intros Hinv Hk Hs.
  assert (l.(l_call) = None) as Hnone by (eapply idle_call; [done..|]; congruence).
  assert (alive l) as Ha by (unfold alive; by rewrite Hs).
  pose proof (finish_ok hub N k l N.(sn_running).(hub_state) Hinv Hk Ha Hnone eq_refl) as Hfin.
  unfold select_turn. rewrite Hs. destruct (negb _); [done|]. destruct (notified_ready _ _); [done|].
  destruct ev as [m| |]; [|done..].
  apply (link_ok hub N k l); simpl; try done. intros i frame r a Hc. congruence.
Qed.

Lemma dispatch_ok hub N k l m :
  sock_inv hub N → N.(sn_links) !! k = Some l → l.(l_socket).(state) = Dispatching m →
  l.(l_call) = None → (∀ bytes frame, m = Binary bytes → decode_client bytes ≠ Ok frame) →
  socket_ok hub N (socket_alone k (dispatch_turn show_prost hub l.(l_socket) N.(sn_running).(hub_state)) N).
Proof.
  intros Hinv Hk Hs Hnone Hm. assert (alive l) as Ha by (unfold alive; by rewrite Hs).
  set (st := N.(sn_running).(hub_state)).
  assert (socket_ok hub N (socket_alone k
    (set_state (Selecting (notified (deref st.(core) l.(l_socket).(session)).(shutdown))) l.(l_socket), st) N))
    as Hgo by (apply (link_ok hub N k l); simpl; try done; intros; congruence).
  unfold dispatch_turn. rewrite Hs. destruct m as [bytes| | | |]; simpl; try exact Hgo.
  - destruct (decode_client bytes) as [frame|e] eqn:Hd; [by destruct (Hm bytes frame eq_refl)|].
    apply finish_ok; try done. by rewrite reply_core.
  - by apply finish_ok.
Qed.

(** A frame becomes a call: nothing else of its session is in flight. *)
Lemma arrive_ok hub N k l m frame :
  sock_inv hub N → N.(sn_links) !! k = Some l → l.(l_socket).(state) = Dispatching m →
  l.(l_call) = None →
  let R := N.(sn_running) in
  let r := request_of l.(l_socket).(session_id) frame in
  socket_ok hub N (with_link k (mk_Link l.(l_socket) (Some (length R.(calls), frame)))
    (mk_Running (R.(history) ++ [Invoked r]) (R.(calls) ++ [(r, handle_async hub r)]) R.(hub_state)) N).
Proof.
  intros Hinv Hk Hs Hnone R r. assert (alive l) as Ha by (unfold alive; by rewrite Hs).
  assert (requester r = l.(l_socket).(session_id)) as Hr by (unfold r; by destruct frame).
  destruct (si_owns _ _ Hinv _ _ Hk Ha) as [Hheld Hid]. fold R in Hheld, Hid.
  assert (may_arrive R r = true) as Hmay.
  { unfold may_arrive. apply andb_true_iff. split.
    - apply forallb_forall. intros r' Hin%list_elem_of_In. apply negb_true_iff.
      pose proof (in_flight_others hub N k l r' Hinv Hk Ha Hnone Hin) as Hne.
      destruct (competing r r') eqn:Hcomp; [|done]. destruct Hne. rewrite <- Hr.
      destruct r, r'; try done. simpl in *. by apply bool_decide_eq_true in Hcomp.
    - rewrite Hr. destruct (get _ _) as [p|] eqn:Hg; [|done]. apply bool_decide_eq_true.
      pose proof (si_arcs _ _ Hinv) as Hok. fold R in Hok.
      destruct (ao_sess _ _ _ Hok _ _ Hg) as (s' & Hs' & Hid').
      unfold id_at in Hid. destruct (heap _ !! session _) as [s|] eqn:Hss; [|done]. injection Hid as Hid.
      rewrite (ao_unique _ _ _ Hok _ _ _ _ Hs' Hss); [done|congruence]. }
  set (R' := mk_Running _ _ _).
  assert (running_step hub R R') as Hstep
    by (apply (run_action hub R (DoArrive r)); simpl; by rewrite Hmay).
  split; [by apply rtc_once|]. destruct Hinv as [[S Hsim] Hown Hap Hca Hbu].
  set (l' := mk_Link _ _).
  assert (∀ j x, <[k := l']> N.(sn_links) !! j = Some x →
    ∃ y, N.(sn_links) !! j = Some y ∧ x.(l_socket) = y.(l_socket)) as Hback.
  { intros j x [(<- & <- & _)|[_ Hx]]%list_lookup_insert_Some; eauto. }
  split; simpl.
  - destruct (sim_step (D:=anytime) hub R R' S Hsim Logic.I Hstep) as (S' & _ & ?). by exists S'.
  - intros j x Hx Hax. destruct (Hback _ _ Hx) as (y & Hy & He). unfold owns, alive in *.
    rewrite He in *. by eapply Hown.
  - intros j j' x x' Hne Hx Hx' Hax Hax'. destruct (Hback _ _ Hx) as (y & Hy & He).
    destruct (Hback _ _ Hx') as (y' & Hy' & He'). unfold alive in *. rewrite He, He' in *. by eapply Hap.
  - intros i r' a [Hi|[Hi Hnew]]%lookup_app_Some Hsa.
    + destruct (Hca i r' a Hi Hsa) as (j & x & f & Hx & Hc & Hrx). exists j, x, f.
      rewrite list_lookup_insert_ne; [done|]. intros ->. congruence.
    + apply list_lookup_singleton_Some in Hnew as [Hi' [= <- <-]]. exists k, l', frame.
      rewrite list_lookup_insert_eq by (by eapply lookup_lt_Some). split; [done|].
      split; [|done]. simpl. do 2 f_equal. unfold R in *. lia.
  - intros j x i f [(<- & <- & _)|[_ Hx]]%list_lookup_insert_Some Hc; [by exists m|]. by eapply Hbu.
Qed.

(** A new socket has a session of its own. *)
Lemma open_ok hub N o capacity :
  sock_inv hub N →
  (N.(sn_running).(hub_state).(core).(metrics).(sessions_opened_total) < u64_modulus)%N →
  let '(s, st) := open_socket hub o capacity N.(sn_running).(hub_state) in
  socket_ok hub N (mk_SocketNet (with_state st N.(sn_running)) (N.(sn_links) ++ [mk_Link s None])).
Proof.
  intros Hinv Hlt. unfold open_socket. set (st1 := mk_HubSt _ (<[o := _]> _) _).
  set (R := N.(sn_running)) in *. set (R1 := with_state st1 R).
  pose proof (si_arcs _ _ Hinv) as Hok. fold R in Hok.
  destruct (arcs_open hub o st1 Hok Hlt) as (_ & Hheld & _ & Hfree & Hnew & Hserv).
  pose proof (stable_open hub o st1 Hok) as Hst.
  destruct (open_session hub o st1) as [p st2] eqn:Eo.
  assert (p = st1.(core).(next_ptr)) as Hp
    by (change p with (p, st2).1; rewrite <- Eo; unfold open_session; done).
  assert (running_step hub R1 (with_state st2 R1)) as Hstep.
  { apply (run_action hub R1 (DoOpen o)). unfold perform. rewrite bool_decide_eq_true_2 by done.
    change (hub_state R1) with st1. by rewrite Eo. }
  assert (rtc (running_step hub) R (with_state st2 R)) as Hrun
    by (eapply rtc_l; [by apply (run_same_core hub R st1)|by apply rtc_once]).
  split; [exact Hrun|]. simpl in Hheld, Hserv, Hst, Hfree, Hnew.
  assert (id_at st2.(core).(heap) p = Some st1.(core).(registry).(next_id_ctr)) as Hid.
  { rewrite id_at_service, Hserv, Hp. simpl. by rewrite lookup_insert_eq. }
  pose proof (sock_inv_hub hub N (with_state st2 R) Hinv Hrun Hst) as Hinv2.
  assert (sock_inv hub (mk_SocketNet (with_state st2 R) N.(sn_links))) as [Hsim2 Hown2 Hap2 Hca2 Hbu2]
    by (apply Hinv2; eauto). clear Hinv2.
  assert ((deref st2.(core) p).(id) = st1.(core).(registry).(next_id_ctr)) as Hderef.
  { unfold id_at in Hid. destruct (heap (core st2) !! p) as [s|] eqn:Hs; [|done].
    injection Hid as Hid. by rewrite (deref_heap _ _ _ Hs). }
  change (next_id_ctr (registry (core (hub_state R)))) with (next_id_ctr (registry (core st1))) in Hnew.
  rewrite <- Hderef in Hid. rewrite <- Hderef in Hnew.
  assert (∀ k l, N.(sn_links) !! k = Some l → alive l →
    l.(l_socket).(session_id) ≠ (deref st2.(core) p).(id)) as Hother.
  { intros k l Hk Ha. destruct (si_owns _ _ Hinv _ _ Hk Ha) as [_ Hids]. fold R in Hids.
    rewrite id_at_service in Hids. apply fmap_Some in Hids as (m & Hm & ->).
    by apply (Hnew _ _ Hm). }
  split; simpl in *; [done|..].
  - intros k l [Hk|[_ Hk]]%lookup_app_Some Ha; [eauto|].
    apply list_lookup_singleton_Some in Hk as [_ <-]. split; simpl; [|done].
    rewrite Hheld, Hp. set_solver.
  - intros k k' l l' Hne [Hk|[Hi Hk]]%lookup_app_Some [Hk'|[Hi' Hk']]%lookup_app_Some Ha Ha'.
    + by eapply Hap2.
    + apply list_lookup_singleton_Some in Hk' as [_ <-]. simpl. by eapply Hother.
    + apply list_lookup_singleton_Some in Hk as [_ <-]. simpl. intros He. by eapply Hother.
    + apply list_lookup_singleton_Some in Hk as [? _], Hk' as [? _]. lia.
  - intros i r a Hi Hs. destruct (Hca2 i r a Hi Hs) as (k & l & frame & Hk & Hc & Hr).
    exists k, l, frame. split; [by apply lookup_app_l_Some|done].
  - intros k l i frame [Hk|[_ Hk]]%lookup_app_Some Hc; [by eapply Hbu2|].
    by apply list_lookup_singleton_Some in Hk as [_ <-].
Qed.

Lemma turn_ok hub N i R' :
  sock_inv hub N → perform hub (DoTurn i) N.(sn_running) = Some R' →
  socket_ok hub N (mk_SocketNet R' N.(sn_links)).
Proof.
  intros Hinv Hact. pose proof (run_action hub _ (DoTurn i) R' Hact) as Hstep.
  split; [by apply rtc_once|]. simpl in Hact.
  destruct (calls _ !! i) as [[r a]|] eqn:Hi; [|done]. destruct (suspended a) eqn:Hs; [|done].
  pose proof (rtc_once (R:=running_step hub) _ _ Hstep) as Hrun.
  destruct Hinv as [[S Hsim] Hown Hap Hca Hbu].
  pose proof (stable_turn hub _ S i r a Hsim Hi Hs) as Hst.
  destruct (turn a _) as [a' st']. injection Hact as <-.
  apply sock_inv_hub; [split; eauto|exact Hrun|exact Hst|].
  intros j r' b [(<- & [= <- <-] & _)|[_ Hj]]%list_lookup_insert_Some Hb; eauto.
Qed.

Lemma sock_event_ok hub N ev N' :
  sock_inv hub N → sock_perform hub ev N = Some N' → socket_ok hub N N'.
Proof.
  intros Hinv Hp. destruct ev as [o capacity|k ev|k|i|k|k sent|sid|task]; cbn [sock_perform] in Hp.
  - case_bool_decide as Hlt; [|done]. pose proof (open_ok hub N o capacity Hinv Hlt) as H.
    destruct (open_socket hub o capacity (hub_state (sn_running N))) as [s st].
    injection Hp as <-. exact H.
  - apply bind_Some in Hp as (l & Hk & Hp). destruct (state _) as [w| |] eqn:Hs; [|done..].
    injection Hp as <-. by eapply select_ok.
  - apply bind_Some in Hp as (l & Hk & Hp). destruct (state _) as [|m|] eqn:Hs; [done| |done].
    destruct l.(l_call) as [c|] eqn:Hc; [done|].
    assert (∀ N', Some (socket_alone k (dispatch_turn show_prost hub l.(l_socket)
        N.(sn_running).(hub_state)) N) = Some N' →
      (∀ bytes frame, m = Binary bytes → decode_client bytes ≠ Ok frame) → socket_ok hub N N') as Hother
      by (intros ? [= <-] ?; by eapply dispatch_ok).
    destruct m as [bytes| | | |]; try (by apply Hother).
    destruct (decode_client bytes) as [frame|e] eqn:Hd.
    + injection Hp as <-. by eapply arrive_ok.
    + apply Hother; [done|]. intros ? frame [= <-]. congruence.
  - apply bind_Some in Hp as (R' & Hact & [= <-]). by apply (turn_ok hub N i).
  - apply bind_Some in Hp as (l & Hk & Hp). apply bind_Some in Hp as ([i frame] & Hc & Hp).
    destruct (calls _ !! i) as [[r [v|]]|] eqn:Hi; [|done..]. injection Hp as <-.
    destruct (si_busy _ _ Hinv _ _ _ _ Hk Hc) as [m Hm].
    apply (link_ok hub N k l); simpl; try done.
    + by apply deliver_all_core.
    + intros _. unfold alive. by rewrite Hm.
    + intros i' frame' r' a Hc' Hi' Hs'. rewrite Hc in Hc'. injection Hc' as <- <-.
      rewrite Hi in Hi'. by injection Hi' as <- <-.
  - apply bind_Some in Hp as (l & Hk & Hp).
    assert ((write_turn sent l.(l_socket) N.(sn_running).(hub_state)).2.(core)
      = N.(sn_running).(hub_state).(core) ∧
      let s := (write_turn sent l.(l_socket) N.(sn_running).(hub_state)).1 in
      s.(session) = l.(l_socket).(session) ∧ s.(session_id) = l.(l_socket).(session_id) ∧
      s.(state) = l.(l_socket).(state)) as (Hc & H1 & H2 & H3).
    { unfold write_turn. destruct (writer_running _); [|done]. destruct (outboxes _ !! _); [|done].
      destruct (mpsc_recv _) as [[f|] ch]; [|done]. by destruct sent. }
    destruct (write_turn _ _ _) as [s st]. injection Hp as <-. simpl in *.
    apply (link_ok hub N k l); simpl; try done.
    + unfold alive. simpl. by rewrite H3.
    + intros i frame Hcall. simpl in Hcall. rewrite H3. by eapply si_busy.
  - injection Hp as <-.
    assert (running_step hub N.(sn_running) (with_state (kick_session hub sid N.(sn_running).(hub_state)).2
      N.(sn_running))) as Hstep by by apply (run_action hub _ (DoKick sid)).
    split; [by apply rtc_once|]. apply sock_inv_hub; [done|by apply rtc_once| |by eauto].
    apply stable_kick. by apply si_arcs.
  - injection Hp as <-.
    assert (running_step hub N.(sn_running) (with_state (forward hub task N.(sn_running).(hub_state))
      N.(sn_running))) as Hstep by by apply (run_action hub _ (DoForward task)).
    split; [by apply rtc_once|]. apply sock_inv_hub; [done|by apply rtc_once| |by eauto].
    apply stable_same_arcs, arcs_forward.
Qed.

Lemma sock_step_ok hub N N' :
  sock_inv hub N → sock_step hub N N' → socket_ok hub N N'.
Proof.
  intros Hinv [ev N1 Hp|w]; [by eapply sock_event_ok|].
  split; [by apply rtc_once, run_same_core|by apply sock_inv_core].
Qed.

Lemma sock_inv_init hub (w : W) : sock_inv hub (sock_init w).
Proof. split; simpl; try done. exists service_init. apply sim_init. Qed.

Lemma sock_run hub N N' :
  rtc (sock_step hub) N N' → sock_inv hub N → socket_ok hub N N'.
Proof.
  induction 1 as [N|N N1 N' Hstep _ IH]; intros Hinv; [split; [apply rtc_refl|done]|].
  destruct (sock_step_ok _ _ _ Hinv Hstep) as [H1 Hinv1]. destruct (IH Hinv1) as [H2 ?].
  split; [by etrans|done].
Qed.
(** C3: the WebSocket server is linearizable.  With any number of sockets, each
    reading, dispatching, writing and ending in its own time, each dispatch
    suspended at every await of its handler, and sessions kicked at any moment: the
    run is one of the hub of Running.v, whose conditions the sockets meet by
    themselves, so that every request takes effect in one indivisible step of the
    abstract service between the frame that made it and its reply.  A dispatch that
    nothing interrupts is the one of Ws.v: same replies, same state. *)
Theorem sockets_are_linearizable hub (w0 : W) N
    (Hrun : rtc (sock_step hub) (sock_init w0) N) :
  linearized hub w0 N.(sn_running) ∧
  ∀ frame bytes s st, s.(state) = Dispatching (Binary bytes) → decode_client bytes = Ok frame →
    dispatch_turn show_prost hub s st
    = let st := call_through hub frame s.(session_id) st in
      (set_state (Selecting (notified (deref st.(core) s.(session)).(shutdown))) s, st).
Proof.
  split; [|by intros; eapply uninterrupted_dispatch].
  apply run_linearized. by apply (sock_run hub _ _ Hrun), sock_inv_init.
Qed.
End sockets.

(** ** Witness: two sockets, a kick, and an answer that crosses it *)

Section witnesses.
#[local] Existing Instances QueueBroadcast CountNotifier QueueMpsc wire_codec.

Fixpoint sock_events (hub : @Hub NodeW MemStream) (evs : list sock_event) (N : SocketNet) :
    @SocketNet NodeW MemStream CountNotifier QueueMpsc :=
  match evs with
  | [] => N
  | ev :: evs =>
      match sock_perform (λ _, "") hub ev N with Some N => sock_events hub evs N | None => N end
  end.

Lemma sock_events_steps hub evs N : rtc (sock_step (λ _, "") hub) N (sock_events hub evs N).
Proof.
  revert N. induction evs as [|ev evs IH]; intros N; simpl; [apply rtc_refl|].
  destruct (sock_perform _ hub ev N) eqn:E; [|apply rtc_refl].
  eapply rtc_l; [by eapply sock_event_step|apply IH].
Qed.

Definition subscribe_bytes : Bytes := encode_client (CF_Subscribe (mk_Subscribe 1 "rooms.lobby" 0)).
Definition publish_bytes : Bytes := encode_client (CF_Publish (mk_Publish 2 "rooms.lobby" [x01])).

(** Socket 0 subscribes; while its handler waits, socket 1 publishes and session 1 is
    kicked; both dispatches run to their end. *)
Definition crossing_sockets : @SocketNet NodeW MemStream CountNotifier QueueMpsc :=
  sock_events open_node
    ([SockOpen 0 8; SockOpen 1 8; SockRead 0 (ReadMsg (Binary subscribe_bytes)); SockDispatch 0;
      SockTurn 0; SockTurn 0; SockRead 1 (ReadMsg (Binary publish_bytes)); SockDispatch 1;
      SockTurn 1; SockTurn 0; SockKick 1]
     ++ repeat (SockTurn 0) 4 ++ repeat (SockTurn 1) 5
     ++ [SockReply 0; SockReply 1; SockForward 0; SockWrite 0 true; SockWrite 0 true; SockRead 1 ReadEnd])
    (sock_init (node_init 4 1000 8)).

(** What socket 0 was sent, and whether socket 1 has ended. *)
Definition crossing_outcome (N : @SocketNet NodeW MemStream CountNotifier QueueMpsc) :=
  (((λ l, decode_server <$> l.(l_socket).(wire)) <$> N.(sn_links) !! 0,
    (λ l, match l.(l_socket).(state) with Finished => true | _ => false end) <$> N.(sn_links) !! 1),
   verdicts N.(sn_running).(history)).
End witnesses.

Lemma sockets_are_linearizable_witness :
  crossing_outcome crossing_sockets
  = (Some [Ok (SF_SubscribeOk (mk_SubscribeOk 1 "rooms.lobby" 1 0));
           Ok (SF_Publication (mk_Publication "rooms.lobby" 0 [x01]))],
     Some true, [None; None; Some (0, true); Some (1, true)]) ∧
  linearized open_node (node_init 4 1000 8) crossing_sockets.(sn_running).
Proof.
  split; [vm_compute; reflexivity|].
  apply (sockets_are_linearizable (λ _, "") open_node (node_init 4 1000 8) crossing_sockets),
    sock_events_steps.
Defined.
