(* ===== verification/Watch.v ===== *)
(** * What other sessions do to a subscription

    One subscription is watched: its session, its forwarder, its stream, its outbox.
    Requests of other sessions, sessions that come and go, turns of forwarders and
    of writers leave it alone, or move publications along
    (crates/cherenkov-core/src/hub.rs, crates/cherenkov-transport-ws/src/lib.rs). *)
From S2P Require Import Prelude Protocol Traits MemoryBroker BrokerProps.
From S2P Require Import Session Hub HubInv HubReach HubSteps Delivery Ws.

Section watch.
Context {W : Type} `{NO : Notifier} `{M : Mpsc} {ML : MpscLaws M}.
Context {B : Broadcast} {BL : BroadcastLaws B}.
Variable bl : lens W MemoryBroker.
Implicit Types (st : @HubSt W MemStream _ M) (hub : @Hub W MemStream).

(** The watched subscription: session [sid], allocated at [ptr] as [sB], has task
    [t] forwarding [stream] of channel [ch] into outbox [o]. *)
Variables (sid ptr o : N) (sB : Session) (ch : string) (t cap : N) (stream : MemStream).

(** Others have other outboxes and other forwarders. *)
Definition apart (s : Session) : Prop :=
  s.(outbox) ≠ o ∧ ∀ ch', s.(subscriptions) !! ch' ≠ Some t.

Record watched (sent : list ServerFrame) (buf : list Publication) st : Prop := {
  wa_tracked : tracked bl cap ch t o stream st sent buf;
  wa_session : st.(core).(heap) !! ptr = Some sB;
  wa_registered : get st.(core).(registry) sid = Some ptr;
  wa_apart p s : st.(core).(heap) !! p = Some s → p ≠ ptr → apart s;
  wa_task : (t < st.(core).(next_task))%N;
}.

(** ** Handlers of another session

    It is allocated at [p], another address. *)
Definition aside_of (p : N) sent buf st : Prop :=
  watched sent buf st ∧ p ≠ ptr ∧ is_Some (st.(core).(heap) !! p).

Definition away {A} (p : N) (m : io (@HubSt W MemStream _ M) HubError A) : Prop :=
  ∀ sent buf, triple (aside_of p sent buf) m (λ _, aside_of p sent buf) (λ _, aside_of p sent buf).

Lemma away_bind {A C} p (m : io (@HubSt W MemStream _ M) HubError A) (k : A → io _ HubError C) :
  away p m → (∀ a, away p (k a)) → away p (io_bind m k).
Proof. intros Hm Hk sent buf. eapply triple_bind; [apply Hm|]. intros a. apply Hk. Qed.
Lemma away_ret {A} p (a : A) : away p (io_ret a).
Proof. intros sent buf. by apply triple_ret. Qed.
Lemma away_fail {A} p e : away p (io_fail (A:=A) e).
Proof. intros sent buf. by apply triple_fail. Qed.
Lemma away_try {A} p (m : io (@HubSt W MemStream _ M) HubError A) : away p m → away p (io_try m).
Proof. intros H sent buf. by apply triple_try. Qed.
Lemma away_read {A} p q (f : Session → A) : away p (read_session q f).
Proof. intros sent buf. by apply triple_gets. Qed.
Lemma away_modify p (f : @HubSt W MemStream _ M → HubSt) :
  (∀ sent buf st, aside_of p sent buf st → aside_of p sent buf (f st)) → away p (io_modify f).
Proof. intros H sent buf. apply triple_modify. auto. Qed.
Lemma away_if {A} p (b : bool) (m n : io (@HubSt W MemStream _ M) HubError A) :
  away p m → away p n → away p (if b then m else n).
Proof. by destruct b. Qed.

(** Changes of the core that keep the tasks, of the broker that keep nothing else. *)
Lemma tracked_core c st sent buf :
  c.(tasks) = st.(core).(tasks) → tracked bl cap ch t o stream st sent buf →
  tracked bl cap ch t o stream (set_core c st) sent buf.
Proof.
  intros Ht [Hok H1 H2 H3 H4 H5 H6]. split; simpl; rewrite ?Ht; try done.
  destruct Hok as [A1 A2 A3]. split; simpl; rewrite ?Ht; done.
Qed.

Lemma tracked_world w st sent buf :
  view bl w = view bl st.(world) → tracked bl cap ch t o stream st sent buf →
  tracked bl cap ch t o stream (set_world w st) sent buf.
Proof.
  intros Hv [Hok H1 H2 H3 H4 H5 H6]. split; simpl; rewrite ?Hv; try done.
  destruct Hok as [A1 A2 A3]. split; simpl; rewrite ?Hv; done.
Qed.

Lemma aside_of_world p w sent buf st :
  view bl w = view bl st.(world) → aside_of p sent buf st → aside_of p sent buf (set_world w st).
Proof.
  intros Hv ([H1 H2 H3 H4 H5] & Hp). split; [|done]. split; try done. by apply tracked_world.
Qed.

Lemma away_on_world {E A} p (f : E → HubError) (m : io W E A) :
  untouched bl m → away p (on_world f m).
Proof.
  intros H sent buf st Hst. specialize (H st.(world)).
  destruct (m st.(world)) as [r w] eqn:E1. rewrite (on_world_eq _ _ _ _ _ E1).
  destruct r; simpl; by apply aside_of_world.
Qed.

Lemma away_enforce_acl hub p cl a c : broker_private bl hub → away p (enforce_acl hub cl a c).
Proof.
  intros Hp. apply away_bind; [by apply away_on_world, bp_check|].
  intros []; [apply away_ret|apply away_fail].
Qed.

Lemma away_modify_session {A} p (f : Session → A * Session) :
  (∀ s, apart s → apart (f s).2) → away p (modify_session p f).
Proof.
  intros Hf sent buf st ([H1 H2 H3 H4 H5] & Hp & [s Hs]). unfold modify_session.
  assert (deref st.(core) p = s) as -> by (unfold deref; by rewrite Hs).
  pose proof (Hf s (H4 _ _ Hs Hp)) as Hs'. destruct (f s) as [a s']. simpl in Hs'.
  split; [|split; [done|]; unfold store; simpl; rewrite lookup_insert_eq; eauto].
  split; unfold store; simpl; [by apply tracked_core|by rewrite lookup_insert_ne|done| |done].
  intros q s1. rewrite lookup_insert_Some. intros [[<- <-]|[_ Hq]]; [done|by apply H4].
Qed.

Lemma away_require_claims hub p : away p (require_claims hub p).
Proof.
  apply away_bind; [apply away_read|]. intros [cl|]; [apply away_ret|].
  apply away_if.
  - apply away_bind; [by apply away_modify_session|]. intros _. apply away_ret.
  - apply away_bind; [apply away_read|]. intros. apply away_fail.
Qed.

Lemma away_registry p (f : SessionRegistry → SessionRegistry) :
  (∀ reg, (f reg).(sessions) = reg.(sessions)) →
  away p (io_modify (λ st, set_core (set_registry (f st.(core).(registry)) st.(core)) st)).
Proof.
  intros Hf. apply away_modify. intros sent buf st ([H1 H2 H3 H4 H5] & Hp). split; [|done].
  split; simpl; try done; [by apply tracked_core|]. unfold get in *. by rewrite Hf.
Qed.

Lemma watched_end_task hub t' sent buf st :
  broker_private bl hub → t' ≠ t → watched sent buf st → watched sent buf (end_task hub t' st).
Proof.
  intros Hp Hne [Htr H2 H3 H4 H5].
  split; rewrite ?end_task_core; try done.
  destruct (end_task_other bl hub t t' st _ stream Hp (tr_ok _ _ _ _ _ _ _ _ _ Htr) Hne
    (tr_task _ _ _ _ _ _ _ _ _ Htr) eq_refl) as (A1 & A2 & A3 & A4 & A5).
  pose proof (streams_ok_end_task bl hub t' st Hp (tr_ok _ _ _ _ _ _ _ _ _ Htr)) as Hok.
  destruct Htr. split; rewrite ?A4, ?A5; try done; [| |eauto].
  - unfold outbox_open in *. by rewrite A3.
  - unfold queued in *. by rewrite A3.
Qed.

Lemma away_end_task hub p t' :
  broker_private bl hub → t' ≠ t → away p (io_modify (end_task hub t')).
Proof.
  intros Hp Hne. apply away_modify. intros sent buf st (Hw & Hpp & Hs).
  split; [by apply watched_end_task|]. by rewrite end_task_core.
Qed.

(** *** Subscribing *)

Lemma watched_send o' f sent buf st :
  o' ≠ o → watched sent buf st → watched sent buf (outbox_send o' f st).2.
Proof.
  intros Hne [Htr H2 H3 H4 H5]. pose proof (outbox_send_core o' f st) as Hc.
  pose proof (streams_ok_send bl o' f st (tr_ok _ _ _ _ _ _ _ _ _ Htr)) as Hok.
  split; rewrite ?Hc; try done. destruct Htr as [A1 A2 A3 A4 A5 A6 A7]. revert Hok Hc.
  unfold outbox_send. destruct (outboxes st !! o') as [c|] eqn:Ho; [|done].
  destruct (mpsc_send f c) as [b c']. simpl. intros Hok _.
  split; try done; unfold outbox_open, queued in *; simpl; by rewrite lookup_insert_ne.
Qed.

Definition opened_stream (p : N) sent buf (ch' : string) (s : MemStream) st : Prop :=
  aside_of p sent buf st ∧ fresh_stream bl ch' s st.

Lemma broker_subscribe_away hub p ch' sent buf :
  broker_private bl hub →
  triple (aside_of p sent buf) (io_try (on_world EBroker (broker_subscribe hub.(broker) ch')))
    (λ r st, ∃ s, r = Ok s ∧ opened_stream p sent buf ch' s st) (λ _, aside_of p sent buf).
Proof.
  intros Hp st ([Htr H2 H3 H4 H5] & Hpp). unfold io_try.
  destruct (on_world EBroker _ st) as [r st1] eqn:Hb.
  pose proof Hb as Hb'. apply (broker_subscribe_fresh bl _ _ _ _ _ Hp (tr_ok _ _ _ _ _ _ _ _ _ Htr))
    in Hb' as (s & -> & Hf & Hc & Ho & _ & Hcap).
  apply on_world_Ok in Hb as (w & Hb & ->). rewrite (bp_broker _ _ Hp) in Hb. simpl in Hb.
  unfold io_zoom in Hb.
  destruct (mb_subscribe_spec ch' _ (so_wf _ _ (tr_ok _ _ _ _ _ _ _ _ _ Htr)))
    as (s' & b' & Hb1 & _ & _ & _ & _ & _ & Hmono & _ & _).
  rewrite Hb1 in Hb. injection Hb as -> <-.
  exists s. split; [done|]. split; [|done]. split; [|done]. split; try done.
  destruct (so_live _ _ (tr_ok _ _ _ _ _ _ _ _ _ Htr) _ _ (tr_task _ _ _ _ _ _ _ _ _ Htr)) as [Hl _].
  destruct Htr as [A1 A2 A3 A4 A5 A6 A7]. destruct Hf as (Hok & _).
  split; try done; simpl in *; rewrite view_update in *; [congruence|].
  by destruct (Hmono stream Hl) as [_ ->].
Qed.

Lemma opened_send p o' f sent buf ch' s st :
  o' ≠ o → opened_stream p sent buf ch' s st →
  opened_stream p sent buf ch' s (outbox_send o' f st).2.
Proof.
  intros Hne ((Hw & Hp & Hs) & Hf). pose proof (outbox_send_core o' f st) as Hc.
  split; [split; [by apply watched_send|by rewrite Hc]|].
  destruct Hf as (Hok & Hl & Hlab & Hd).
  pose proof (streams_ok_send bl o' f st Hok) as Hok'.
  assert ((outbox_send o' f st).2.(world) = st.(world)) as Hw'.
  { unfold outbox_send. destruct (outboxes st !! o'); [|done]. by destruct (mpsc_send f _). }
  split; [done|]. by rewrite Hw', Hc.
Qed.

Lemma replay_away hub p o' sid' ch' since sent buf s :
  broker_private bl hub → o' ≠ o →
  triple (opened_stream p sent buf ch' s) (replay (kind_for hub ch') sid' o' ch' since)
    (λ _, opened_stream p sent buf ch' s) (λ _, opened_stream p sent buf ch' s).
Proof.
  intros Hp Hne. unfold replay. case_decide; [|by apply triple_ret].
  eapply (triple_bind _ _ _ (λ _, opened_stream p sent buf ch' s)).
  - intros st [Ha Hf]. pose proof (bp_replay _ _ Hp ch' since st.(world)) as Hv.
    destruct (replay_since _ ch' since st.(world)) as [r w] eqn:E1.
    rewrite (on_world_eq _ _ _ _ _ E1). simpl in Hv.
    assert (opened_stream p sent buf ch' s (set_world w st)).
    { split; [by apply aside_of_world|]. by apply (fresh_stream_aside bl ch' s st). }
    by destruct r.
  - intros ps. induction ps as [|q ps IH]; intros st Hst; simpl; [done|].
    pose proof (opened_send p o' (SF_Publication q) sent buf ch' s st Hne Hst) as H1.
    destruct (outbox_send o' _ st) as [[] st1]; [by apply IH|done].
Qed.

Lemma drop_stream_away hub p ch' s sent buf st :
  broker_private bl hub → opened_stream p sent buf ch' s st →
  aside_of p sent buf (set_world (stream_drop hub.(broker) s st.(world)) st).
Proof.
  intros Hp [([Htr H2 H3 H4 H5] & Hpp) Hf]. split; [|done]. split; try done.
  pose proof (streams_ok_drop_stream bl hub ch' s st Hp Hf) as Hok.
  destruct Hf as (_ & _ & _ & Hd).
  destruct (mb_drop_spec _ s (so_wf _ _ (tr_ok _ _ _ _ _ _ _ _ _ Htr))) as (_ & _ & Hc & _ & Hs).
  destruct Htr as [A1 A2 A3 A4 A5 A6 A7]. rewrite (bp_broker _ _ Hp) in *. simpl in *.
  split; simpl; rewrite ?view_update; try done; [congruence|].
  rewrite Hs, decide_False; [done|]. apply (Hd _ _ A2).
Qed.

Lemma spawn_away p o' ch' s sent buf st :
  o' ≠ o → opened_stream p sent buf ch' s st →
  (spawn (mk_Task s o' ch') st).1 ≠ t ∧
  aside_of p sent buf (spawn (mk_Task s o' ch') st).2.
Proof.
  intros Hne [([Htr H2 H3 H4 H5] & Hpp) Hf]. simpl. split; [lia|]. split; [|done].
  pose proof (streams_ok_spawn bl ch' s o' st Hf) as Hok.
  destruct Htr as [A1 A2 A3 A4 A5 A6 A7]. split; simpl; try done; [|lia].
  split; simpl; try done; [by rewrite lookup_insert_ne by lia|].
  intros t' tk. rewrite lookup_insert_Some. intros [[_ <-]|[_ Htk]]; [done|]. by eapply A7.
Qed.

Lemma apart_insert ch' f s : f ≠ t → apart s → apart (insert_subscription ch' f s).2.
Proof.
  intros Hf [Ho Hs]. unfold insert_subscription. destruct (_ !! ch'); [done|]. split; [done|].
  intros c. simpl. rewrite lookup_insert_Some. intros [[_ ?]|[_ ?]]; [congruence|by eapply Hs].
Qed.

Lemma away_commit hub p sid' rid ch' cursor f :
  broker_private bl hub → f ≠ t →
  away p (let! inserted := modify_session p (insert_subscription ch' f) in
    match inserted with
    | Err stray =>
        io_modify (end_task hub stray) ;;
        io_try (on_world EChannel (on_unsubscribe (kind_for hub ch') ch')) ;;
        io_fail (AlreadySubscribed sid' ch')
    | Ok _ =>
        io_modify (λ st, set_core (set_registry
          (add_to_index sid' ch' st.(core).(registry)) st.(core)) st) ;;
        io_ret (mk_SubscribeOk rid ch' cursor.(epoch) cursor.(offset))
    end).
Proof.
  intros Hp Hf sent buf.
  eapply (triple_bind _ _ _ (λ r st, aside_of p sent buf st ∧ ∀ x, r = Err x → x = f)).
  - intros st Hst. pose proof (away_modify_session p (insert_subscription ch' f)
      (λ s, apart_insert ch' f s Hf) sent buf st Hst) as H.
    revert H. unfold modify_session. destruct (insert_subscription _ _ _) as [r s] eqn:E1.
    intros H. split; [done|]. intros x ->. unfold insert_subscription in E1.
    destruct (_ !! ch'); congruence.
  - intros [u|stray].
    + assert (away p (io_modify (λ st : @HubSt W MemStream _ M, set_core (set_registry
          (add_to_index sid' ch' st.(core).(registry)) st.(core)) st) ;;
        io_ret (mk_SubscribeOk rid ch' cursor.(epoch) cursor.(offset)))) as H.
      { apply away_bind; [by apply away_registry|]. intros _. apply away_ret. }
      intros st [Hst _]. by apply H.
    + intros st [Hst Hx]. rewrite (Hx _ eq_refl) in *. revert st Hst.
      change (triple (aside_of p sent buf) (io_modify (end_task hub f) ;;
        io_try (on_world EChannel (on_unsubscribe (kind_for hub ch') ch')) ;;
        io_fail (A:=SubscribeOk) (AlreadySubscribed sid' ch'))
        (λ _, aside_of p sent buf) (λ _, aside_of p sent buf)).
      apply away_bind; [by apply away_end_task|]. intros _.
      apply away_bind; [by apply away_try, away_on_world, bp_on_unsubscribe|].
      intros _. apply away_fail.
Qed.

Lemma away_subscribe hub p sid' rid ch' since :
  broker_private bl hub →
  away p (let! claims := require_claims hub p in
    enforce_acl hub claims ActSubscribe ch' ;;
    let! subscribed := read_session p (λ s, has_subscription s ch') in
    if subscribed : bool then io_fail (AlreadySubscribed sid' ch') else
    let k := kind_for hub ch' in
    let! cursor := on_world EChannel (on_subscribe k ch') in
    let unwind := io_try (on_world EChannel (on_unsubscribe k ch')) in
    let! opened := io_try (on_world EBroker (broker_subscribe hub.(broker) ch')) in
    match opened with
    | Err err => unwind ;; io_fail err
    | Ok stream =>
        let! o := read_session p outbox in
        let! replayed := io_try (replay k sid' o ch' since) in
        match replayed with
        | Err err => unwind ;; drop_stream hub stream ;; io_fail err
        | Ok _ =>
            let! forwarder := (λ st, let '(t, st) := spawn (mk_Task stream o ch') st in
                                     (Ok t, st)) in
            let! inserted := modify_session p (insert_subscription ch' forwarder) in
            match inserted with
            | Err stray =>
                io_modify (end_task hub stray) ;; unwind ;;
                io_fail (AlreadySubscribed sid' ch')
            | Ok _ =>
                io_modify (λ st, set_core (set_registry
                  (add_to_index sid' ch' st.(core).(registry)) st.(core)) st) ;;
                io_ret (mk_SubscribeOk rid ch' cursor.(epoch) cursor.(offset))
            end
        end
    end).
Proof.
  intros Hp. apply away_bind; [apply away_require_claims|]. intros cl.
  apply away_bind; [by apply away_enforce_acl|]. intros _.
  apply away_bind; [apply away_read|]. intros [|]; [apply away_fail|].
  apply away_bind; [by apply away_on_world, bp_on_subscribe|]. intros cursor sent buf.
  eapply triple_bind; [by apply broker_subscribe_away|]. intros r. apply triple_pre.
  intros st (s & -> & Hst). cbn zeta beta iota.
  apply (triple_conseq _ _ (opened_stream p sent buf ch' s) _ (λ _, aside_of p sent buf) _
    (λ _, aside_of p sent buf)); [|by intros ? <-|done|done]. clear st Hst.
  eapply (triple_bind _ _ _ (λ o' st, o' ≠ o ∧ opened_stream p sent buf ch' s st)).
  { apply triple_gets. intros st Hst. split; [|done].
    destruct Hst as [[[_ _ _ Hap _] [Hpp [sp Hsp]]] _].
    assert (deref st.(core) p = sp) as -> by (unfold deref; by rewrite Hsp).
    by apply (Hap _ _ Hsp). }
  intros o'. apply triple_pre. intros st [Hne Hst].
  apply (triple_conseq _ _ (opened_stream p sent buf ch' s) _ (λ _, aside_of p sent buf) _
    (λ _, aside_of p sent buf)); [|by intros ? <-|done|done]. clear st Hst.
  eapply (triple_bind _ _ _ (λ _, opened_stream p sent buf ch' s)).
  { apply triple_try. by apply replay_away. }
  intros [u|err].
  - intros st Hst. destruct (spawn_away p o' ch' s sent buf st Hne Hst) as [Hf Ha].
    unfold io_bind at 1. destruct (spawn _ st) as [f st1]. simpl in Hf, Ha.
    by apply (away_commit hub p sid' rid ch' cursor f Hp Hf).
  - eapply (triple_bind _ _ _ (λ _, opened_stream p sent buf ch' s)).
    + intros st [Ha Hf]. unfold io_try. pose proof (bp_on_unsubscribe _ _ Hp ch' st.(world)) as Hv.
      destruct (on_unsubscribe _ ch' st.(world)) as [r w] eqn:E1.
      rewrite (on_world_eq _ _ _ _ _ E1). simpl in Hv.
      assert (opened_stream p sent buf ch' s (set_world w st)).
      { split; [by apply aside_of_world|]. by apply (fresh_stream_aside bl ch' s st). }
      by destruct r.
    + intros _ st Hst. by apply (drop_stream_away hub p ch' s sent buf st Hp).
Qed.

(** *** The other requests *)

Lemma away_connect hub p sid' rid token :
  broker_private bl hub →
  away p (let! connected := read_session p (λ s, bool_decide (is_Some s.(claims))) in
    if connected && negb (allow_anonymous hub.(authenticator))
    then io_fail (AlreadyConnected sid')
    else
      let! claims := on_world EAuth (authenticate hub.(authenticator) token) in
      let subject := claims.(subject) in
      let expires_at := claims.(expires_at) in
      modify_session p (set_claims claims) ;;
      io_ret (mk_ConnectOk rid subject expires_at)).
Proof.
  intros Hp. apply away_bind; [apply away_read|]. intros b. apply away_if; [apply away_fail|].
  apply away_bind; [by apply away_on_world, bp_authenticate|]. intros cl.
  apply away_bind; [by apply away_modify_session|]. intros _. apply away_ret.
Qed.

Lemma away_unsubscribe hub p sid' rid ch' :
  broker_private bl hub →
  away p (let! removed := modify_session p (remove_subscription ch') in
    match removed with
    | None => io_fail (NotSubscribed sid' ch')
    | Some forwarder =>
        io_modify (end_task hub forwarder) ;;
        io_modify (λ st, set_core (set_registry
          (remove_from_index sid' ch' st.(core).(registry)) st.(core)) st) ;;
        on_world EChannel (on_unsubscribe (kind_for hub ch') ch') ;;
        io_ret (mk_UnsubscribeOk rid ch')
    end).
Proof.
  intros Hp sent buf.
  eapply (triple_bind _ _ _ (λ r st, aside_of p sent buf st ∧ ∀ x, r = Some x → x ≠ t)).
  - intros st Hst.
    assert (∀ s, apart s → apart (remove_subscription ch' s).2) as Hap.
    { intros s [Ho Hs]. unfold remove_subscription. destruct (_ !! ch'); [|done]. split; [done|].
      intros c. simpl. rewrite lookup_delete_Some. intros [_ ?]. by eapply Hs. }
    pose proof (away_modify_session p (remove_subscription ch') Hap sent buf st Hst) as H.
    destruct Hst as ([_ _ _ Hs _] & Hpp & [s Hp']). specialize (Hs _ _ Hp' Hpp).
    assert (deref st.(core) p = s) as Hd by (unfold deref; by rewrite Hp').
    revert H. unfold modify_session. rewrite Hd.
    destruct (remove_subscription ch' s) as [r s1] eqn:E1. intros H. split; [done|].
    intros x ->. unfold remove_subscription in E1.
    destruct (subscriptions s !! ch') as [x'|] eqn:E2; [|done]. injection E1 as -> _.
    intros ->. by apply (proj2 Hs ch').
  - intros [f|].
    + apply triple_pre. intros st [Hst Hf].
      apply (triple_conseq _ _ (aside_of p sent buf) _ (λ _, aside_of p sent buf) _
        (λ _, aside_of p sent buf)); [|by intros ? <-|done|done].
      apply away_bind; [apply away_end_task; auto|]. intros _.
      apply away_bind; [apply away_registry; intros; apply sessions_remove_from_index|]. intros _.
      apply away_bind; [by apply away_on_world, bp_on_unsubscribe|]. intros _. apply away_ret.
    + intros st [Hst _]. exact Hst.
Qed.

(** *** Whole requests *)

Lemma other_address st sent buf sid' p :
  core_inv st.(core) → watched sent buf st → sid' ≠ sid →
  get st.(core).(registry) sid' = Some p → aside_of p sent buf st.
Proof.
  intros Hinv Hw Hne Hg. destruct (core_inv_deref _ _ _ Hinv Hg) as [Hp Hid].
  split; [done|]. split; [|eauto]. intros ->.
  destruct (core_inv_deref _ _ _ Hinv (wa_registered _ _ _ Hw)) as [_ Hid2]. congruence.
Qed.

Lemma watched_request {A} sid' (k : N → io (@HubSt W MemStream _ M) HubError A) sent buf st :
  (∀ p, away p (k p)) → core_inv st.(core) → watched sent buf st → sid' ≠ sid →
  watched sent buf ((let! p := get_session sid' in k p) st).2.
Proof.
  intros Hk Hinv Hw Hne. unfold io_bind. destruct (get st.(core).(registry) sid') as [p|] eqn:Hg.
  - rewrite (get_session_eq _ _ _ Hg).
    pose proof (Hk p sent buf st (other_address _ _ _ _ _ Hinv Hw Hne Hg)) as H.
    by destruct (k p st) as [[a|e] st']; apply H.
  - by rewrite (get_session_None _ _ Hg).
Qed.

Lemma watched_prefix hub sid' ch' data sent buf st :
  broker_private bl hub → core_inv st.(core) → watched sent buf st → sid' ≠ sid →
  watched sent buf (publish_prefix hub sid' ch' data st).2.
Proof.
  intros Hp. apply (watched_request sid'). intros p.
  apply away_bind; [apply away_require_claims|]. intros cl.
  apply away_bind; [by apply away_enforce_acl|]. intros _.
  apply away_bind; intros; apply away_on_world; [by apply bp_validate|by apply bp_on_publish].
Qed.

Lemma watched_publish hub sid' ch' data sent buf st r st' :
  broker_private bl hub → core_inv st.(core) → watched sent buf st → sid' ≠ sid →
  handle_publish hub sid' ch' data st = (r, st') →
  let ps := match r with Ok p => if decide (ch' = ch) then [p] else [] | Err _ => [] end in
  (N.of_nat (length buf + length ps) ≤ cap)%N → watched sent (buf ++ ps) st'.
Proof.
  intros Hp Hinv Hw Hne Hrun ps Hcap.
  pose proof (tracked_publish bl hub _ _ _ _ _ _ _ _ sid' ch' data r st' Hp (wa_tracked _ _ _ Hw)
    Hrun Hcap) as Htr.
  pose proof (watched_prefix hub sid' ch' data sent buf st Hp Hinv Hw Hne) as [_ H2 H3 H4 H5].
  rewrite (handle_publish_prefix hub sid' ch' data st) in Hrun. unfold io_bind at 1 in Hrun.
  destruct (publish_prefix hub sid' ch' data st) as [[pub|e] st1]; simpl in *.
  2:{ injection Hrun as <- <-. by split. }
  unfold io_bind at 1 in Hrun.
  destruct (broker_publish hub.(broker) ch' pub st1.(world)) as [rb w] eqn:E1.
  rewrite (on_world_eq EBroker _ _ _ _ E1) in Hrun.
  destruct rb as [u|e]; simpl in Hrun; injection Hrun as <- <-; by split.
Qed.

Lemma watched_deliver sid' f sent buf st :
  core_inv st.(core) → watched sent buf st → sid' ≠ sid → watched sent buf (deliver sid' f st).
Proof.
  intros Hinv Hw Hne. unfold deliver. destruct (get _ sid') as [p|] eqn:Hg; [|done].
  destruct (other_address _ _ _ _ _ Hinv Hw Hne Hg) as (_ & Hpp & [s Hs]).
  apply watched_send; [|done]. unfold deref. rewrite Hs. by apply (wa_apart _ _ _ Hw _ _ Hs).
Qed.

Lemma deliver_core sid' f st : (deliver sid' f st).(core) = st.(core).
Proof. unfold deliver. destruct (get _ _); [apply outbox_send_core|done]. Qed.

(** *** Sessions that come and go *)

Lemma watched_drop_arc hub p sent buf st :
  broker_private bl hub → p ≠ ptr → watched sent buf st → watched sent buf (drop_arc hub p st).
Proof.
  intros Hp Hne Hw. unfold drop_arc. destruct (referenced _ _); [done|].
  destruct (abort_all (deref st.(core) p)) as [handles s0] eqn:Ea.
  assert (Forall (λ t', t' ≠ t) handles) as Hh.
  { injection Ea as <- _. apply Forall_fmap, Forall_forall. intros [c t'] Hin. simpl. intros ->.
    apply elem_of_map_to_list in Hin. unfold deref in Hin.
    destruct (heap (core st) !! p) as [s|] eqn:Hs; simpl in Hin;
      [by apply (wa_apart _ _ _ Hw p s Hs Hne) in Hin|by rewrite lookup_empty in Hin]. }
  clear Ea. assert (watched sent buf (abort_tasks hub handles st)) as [H1 H2 H3 H4 H5].
  { unfold abort_tasks. revert st Hw. induction Hh as [|t' l Ht _ IH]; intros st Hw; [done|].
    simpl. by apply IH, watched_end_task. }
  split; simpl; try done; [by apply tracked_core|by rewrite lookup_delete_ne|].
  intros q s. rewrite lookup_delete_Some. intros [_ ?]. by eapply H4.
Qed.

Lemma watched_core c sent buf st :
  c.(tasks) = st.(core).(tasks) → c.(heap) = st.(core).(heap) →
  get c.(registry) sid = Some ptr → c.(next_task) = st.(core).(next_task) →
  watched sent buf st → watched sent buf (set_core c st).
Proof.
  intros Ht Hh Hr Hn [H1 H2 H3 H4 H5]. split; simpl; rewrite ?Hh, ?Hn; try done.
  by apply tracked_core.
Qed.

Lemma get_deregister sid' reg :
  sid' ≠ sid → get (deregister sid' reg).2 sid = get reg sid.
Proof.
  intros Hne. unfold deregister, get. destruct (sessions reg !! sid'); [|done].
  simpl. by rewrite lookup_delete_ne.
Qed.

Lemma watched_close hub sid' sent buf st :
  broker_private bl hub → core_inv st.(core) → watched sent buf st → sid' ≠ sid →
  watched sent buf (close_session hub sid' st).
Proof.
  intros Hp Hinv Hw Hne. unfold close_session.
  pose proof (get_deregister sid' st.(core).(registry) Hne) as Hg.
  rewrite (wa_registered _ _ _ Hw) in Hg.
  destruct (deregister sid' _) as [[p|] reg] eqn:Ed; simpl in Hg; [|by apply watched_core].
  assert (get st.(core).(registry) sid' = Some p) as Hg'.
  { unfold deregister in Ed. unfold get. destruct (sessions _ !! sid'); congruence. }
  destruct (other_address _ _ _ _ _ Hinv Hw Hne Hg') as (_ & Hpp & _).
  apply watched_drop_arc; [done..|]. apply watched_core; try done. by apply watched_core.
Qed.

Lemma watched_kick hub sid' sent buf st :
  broker_private bl hub → core_inv st.(core) → watched sent buf st → sid' ≠ sid →
  watched sent buf (kick_session hub sid' st).2.
Proof.
  intros Hp Hinv Hw Hne. unfold kick_session. destruct (get _ sid') as [p|] eqn:Hg'; [|done].
  destruct (other_address _ _ _ _ _ Hinv Hw Hne Hg') as (Ha & Hpp & Hs).
  assert (∀ s : Session, apart s → apart (tt, signal_shutdown s).2) as Hsig by done.
  pose proof (away_modify_session p (λ s, (tt, signal_shutdown s)) Hsig sent buf st
    (conj Ha (conj Hpp Hs))) as [Hw' _]. simpl in Hw'.
  set (st1 := set_core (store p _ st.(core)) st) in Hw'.
  pose proof (get_deregister sid' st.(core).(registry) Hne) as Hg.
  rewrite (wa_registered _ _ _ Hw) in Hg.
  change (registry (store ?a ?b ?c)) with (registry c).
  destruct (deregister sid' _) as [[q|] reg] eqn:Ed; simpl in Hg |- *; [|by apply (watched_core _ _ _ st1)].
  assert (q = p) as ->.
  { unfold deregister in Ed. unfold get in Hg'. rewrite Hg' in Ed. congruence. }
  apply watched_drop_arc; [done..|].
  by apply (watched_core _ _ _ st1).
Qed.

Lemma watched_outboxes outs sent buf st :
  outs !! o = st.(outboxes) !! o → watched sent buf st →
  watched sent buf (mk_HubSt st.(core) outs st.(world)).
Proof.
  intros Ho [[Hok A2 A3 A4 A5 A6 A7] H2 H3 H4 H5]. split; try done.
  split; try done; [by destruct Hok|..]; unfold outbox_open, queued in *; simpl; by rewrite Ho.
Qed.

Lemma watched_open_session hub o' sent buf st :
  core_inv st.(core) → (st.(core).(metrics).(sessions_opened_total) < u64_modulus)%N → o' ≠ o →
  watched sent buf st → watched sent buf (open_session hub o' st).2.
Proof.
  intros Hinv Hlt Hne Hw. destruct (core_inv_deref _ _ _ Hinv (wa_registered _ _ _ Hw)) as [_ Hid].
  destruct Hinv as (Hwf & [Hn _] & _). destruct (cw_fresh _ _ Hwf ptr sid) as [Hp Hs].
  { unfold id_at. rewrite (wa_session _ _ _ Hw). simpl. unfold deref in Hid.
    rewrite (wa_session _ _ _ Hw) in Hid. simpl in Hid. by rewrite Hid. }
  rewrite N.mod_small in Hn by done.
  destruct Hw as [H1 H2 H3 H4 H5]. unfold open_session. simpl.
  split; simpl; try done; [by apply tracked_core|by rewrite lookup_insert_ne by lia| |].
  - unfold get in *. simpl. by rewrite lookup_insert_ne by lia.
  - intros p s. rewrite lookup_insert_Some. intros [[<- <-]|[_ Hps]] Hpne; [|by eapply H4].
    by destruct (allow_anonymous _).
Qed.

(** ** The pipeline *)

Lemma forward_core hub t' st :
  ∃ ts, (forward hub t' st).(core) = set_tasks ts st.(core).
Proof.
  unfold forward. destruct (tasks (core st) !! t') as [tk|].
  2:{ exists st.(core).(tasks). by destruct (core st). }
  destruct (stream_next _ _ _) as [[|[p|]] w].
  - exists st.(core).(tasks). simpl. by destruct (core st).
  - pose proof (outbox_send_core tk.(t_outbox) (SF_Publication p)
                  (mk_HubSt st.(core) st.(outboxes) w)) as Hc.
    destruct (outbox_send _ _ _) as [[] st1]; simpl in Hc.
    + rewrite Hc. exists st.(core).(tasks). by destruct (core st).
    + rewrite end_task_core, Hc. eauto.
  - rewrite end_task_core. simpl. eauto.
Qed.

Lemma watched_forward hub t' sent buf st :
  broker_private bl hub → watched sent buf st →
  ∃ i, watched (sent ++ (SF_Publication <$> take i buf)) (drop i buf) (forward hub t' st) ∧
    (t' = t → i = 1).
Proof.
  intros Hp [H1 H2 H3 H4 H5]. destruct (forward_core hub t' st) as [ts Hc].
  destruct (decide (t' = t)) as [->|Hne].
  - exists 1. split; [|done]. split; rewrite ?Hc; try done. by apply tracked_forward.
  - exists 0. split; [|done]. rewrite take_0, drop_0, app_nil_r.
    split; rewrite ?Hc; try done. by apply tracked_forward_other.
Qed.

Context {C : ProstCodec}.

Lemma watched_write (s : Socket) sent buf st :
  s.(out) = o → s.(writer_running) = true → watched sent buf st →
  let '(s', st') := write_turn true s st in
  watched (drop 1 sent) buf st' ∧ s'.(wire) = s.(wire) ++ (encode_server <$> take 1 sent) ∧
  s'.(out) = o ∧ s'.(writer_running) = true ∧ st'.(core) = st.(core).
Proof.
  intros Ho Hr Hw. unfold write_turn. rewrite Hr, Ho.
  pose proof Hw as [[Hok A2 A3 A4 (c & A5 & A5') A6 A7] H2 H3 H4 H5].
  unfold queued in A6. rewrite A5 in A6 |- *. simpl in A6.
  destruct sent as [|f sent].
  - rewrite (mpsc_recv_none c A6). simpl. by rewrite app_nil_r.
  - destruct (mpsc_recv_some f sent c A6) as (c' & -> & Hq & Hc). simpl.
    rewrite ?drop_0, ?take_0. split; [|done]. split; try done.
    split; try done; [by destruct Hok|..]; unfold outbox_open, queued; simpl; rewrite lookup_insert_eq.
    + exists c'. by rewrite Hc.
    + done.
Qed.

Lemma watched_other_write (b : bool) (s : Socket) sent buf st :
  s.(out) ≠ o → watched sent buf st →
  watched sent buf (write_turn b s st).2 ∧ (write_turn b s st).2.(core) = st.(core).
Proof.
  intros Ho Hw. unfold write_turn. destruct (writer_running s); [|done].
  destruct (outboxes st !! out s) as [c|] eqn:Hc; [|done].
  destruct (mpsc_recv c) as [[f|] c']; [|done]. destruct b; simpl; (split; [|done]).
  - apply (watched_outboxes (<[s.(out) := c']> st.(outboxes)) _ _ st); [|done].
    by rewrite lookup_insert_ne.
  - apply (watched_outboxes (alter mpsc_close s.(out) (<[s.(out) := c']> st.(outboxes))) _ _ st);
      [|done]. by rewrite lookup_alter_ne, lookup_insert_ne.
Qed.
End watch.
