(* ===== verification/EndToEnd.v ===== *)
(** * From socket to socket

    Delivery.v follows a publication from the broker to the outbox of a
    subscriber.  Here it is followed all the way: the bytes of a [Publish] message
    read from one socket (crates/cherenkov-transport-ws/src/lib.rs, [dispatch]), the
    hub, the broker, the forwarder, the writer task, the bytes written to another
    socket, while all other sessions do whatever they like. *)
From S2P Require Import Prelude Protocol ProtoWire Traits MemoryBroker BrokerProps.
From S2P Require Import Session Hub Node HubInv HubReach HubSteps Delivery Ws Outbox Race WsProps Watch.

Section net.
Context {W : Type} `{NO : Notifier} `{M : Mpsc} {ML : MpscLaws M}.
Context {B : Broadcast} {BL : BroadcastLaws B} {C : ProstCodec}.
Variable bl : lens W MemoryBroker.
Variable show_prost : prost_error → string.
Implicit Types (st : @HubSt W MemStream _ M) (hub : @Hub W MemStream).

(** ** What happens around a socket *)

(** Another socket's message is dispatched, another socket opens, a session is
    closed or kicked, a transport lets go of a handle it holds, a forwarder gets a
    turn, another socket's writer gets one, or this socket's writer does. *)
Inductive net_event : Type :=
| NetFrame (from : N) (bytes : Bytes)
| NetOpen (outbox capacity : N)
| NetClose (who : N)
| NetKick (who : N)
| NetRelease (handle : N)
| NetForward (task : N)
| NetOther (s : Socket) (sent : bool)
| NetWrite.

(** An opening counts while fewer than 2^64 sessions were opened, a release when the
    handle is held. *)
Definition net_step hub (ev : net_event) (c : Socket * HubSt) : Socket * HubSt :=
  let '(s, st) := c in
  match ev with
  | NetFrame from bytes => (s, (dispatch show_prost (Binary bytes) from hub st).2)
  | NetOpen o capacity =>
      if decide (st.(core).(metrics).(sessions_opened_total) < u64_modulus)%N
      then (s, (open_socket hub o capacity st).2) else (s, st)
  | NetClose who => (s, close_session hub who st)
  | NetKick who => (s, (kick_session hub who st).2)
  | NetRelease handle =>
      if decide (handle ∈ st.(core).(held)) then (s, release hub handle st) else (s, st)
  | NetForward task => (s, forward hub task st)
  | NetOther s' sent => (s, (write_turn sent s' st).2)
  | NetWrite => write_turn true s st
  end.

(** What a message published on the channel: the request with the publication. *)
Definition net_published hub (ch : string) (ev : net_event) (st : @HubSt W MemStream _ M) :
    list (Publish * Publication) :=
  match ev with
  | NetFrame from bytes =>
      match decode_client bytes with
      | Ok (CF_Publish p) =>
          if decide (p.(pub_channel) = ch) then
            match (handle_publish hub from p.(pub_channel) p.(pub_data) st).1 with
            | Ok publication => [(p, publication)]
            | Err _ => []
            end
          else []
      | _ => []
      end
  | _ => []
  end.

Fixpoint net_run hub (ch : string) (evs : list net_event) (c : Socket * HubSt) :
    list (Publish * Publication) * (Socket * @HubSt W MemStream _ M) :=
  match evs with
  | [] => ([], c)
  | ev :: evs =>
      let '(ps, c') := net_run hub ch evs (net_step hub ev c) in
      (net_published hub ch ev c.2 ++ ps, c')
  end.

(** The event is somebody else's, or a turn of a forwarder or of this writer. *)
Definition foreign (sid ptr o : N) (ev : net_event) : Prop :=
  match ev with
  | NetFrame from _ => from ≠ sid
  | NetOpen o' _ => o' ≠ o
  | NetClose who | NetKick who => who ≠ sid
  | NetRelease handle => handle ≠ ptr
  | NetOther s _ => s.(out) ≠ o
  | NetForward _ | NetWrite => True
  end.

(** ** A message of another session *)

Section flow.
Variables (sid ptr o : N) (sB : Session) (ch : string) (t cap : N) (stream : MemStream).
Abbreviation watched_here := (watched bl sid ptr o sB ch t cap stream).

Lemma core_inv_deliver_all sid' fs st :
  core_inv st.(core) → core_inv (deliver_all sid' fs st).(core).
Proof.
  unfold deliver_all. revert st. induction fs as [|f fs IH]; intros st Hinv; [done|].
  apply IH. by rewrite deliver_core.
Qed.

Lemma watched_deliver_all sid' fs sent buf st :
  core_inv st.(core) → watched_here sent buf st → sid' ≠ sid →
  watched_here sent buf (deliver_all sid' fs st).
Proof.
  unfold deliver_all. revert st. induction fs as [|f fs IH]; intros st Hinv Hw Hne; [done|].
  apply IH; [by rewrite deliver_core|by apply watched_deliver|done].
Qed.

(** The bytes on the wire, the frames in the outbox and the publications the stream
    still holds, in the order in which they are on their way. *)
Definition pipeline (wire : list Bytes) (sent : list ServerFrame) (buf : list Publication) :
    list Bytes :=
  wire ++ (encode_server <$> (sent ++ (SF_Publication <$> buf))).

Record flowing (sent : list ServerFrame) (buf : list Publication) (s : Socket) st : Prop := {
  fl_inv : core_inv st.(core);
  fl_watched : watched_here sent buf st;
  fl_out : s.(out) = o;
  fl_writer : s.(writer_running) = true;
}.

(** The step a dispatched frame takes before its reply is delivered. *)
Definition request_step hub (from : N) (f : ClientFrame) st : @HubSt W MemStream _ M :=
  match f with
  | CF_Subscribe s =>
      (handle_subscribe hub from s.(sub_request_id) s.(sub_channel) s.(sub_since_offset) st).2
  | CF_Unsubscribe u =>
      (handle_unsubscribe hub from u.(unsub_request_id) u.(unsub_channel) st).2
  | CF_Publish p => (handle_publish hub from p.(pub_channel) p.(pub_data) st).2
  | CF_Connect c => (handle_connect hub from c.(con_request_id) c.(con_token) st).2
  end.

Lemma core_inv_request hub from f st :
  core_inv st.(core) → core_inv (request_step hub from f st).(core).
Proof. intros H. eapply core_inv_step; [exact H|]. destruct f; simpl; constructor. Qed.

Lemma watched_frame hub from bytes sent buf st :
  broker_private bl hub → core_inv st.(core) → watched_here sent buf st → from ≠ sid →
  (N.of_nat (length buf + length (net_published hub ch (NetFrame from bytes) st)) ≤ cap)%N →
  let st' := (dispatch show_prost (Binary bytes) from hub st).2 in
  core_inv st'.(core) ∧
  watched_here sent (buf ++ (net_published hub ch (NetFrame from bytes) st).*2) st'.
Proof.
  intros Hp Hinv Hw Hne. simpl. destruct (decode_client bytes) as [f|e]; simpl.
  2:{ rewrite app_nil_r, deliver_core. split; [done|]. by apply watched_deliver. }
  intros Hcap. rewrite handle_frame_replies. fold (request_step hub from f st).
  pose proof (core_inv_request hub from f st Hinv) as Hinv'.
  split; [by apply core_inv_deliver_all|]. apply watched_deliver_all; [done| |done].
  destruct f as [sub|unsub|p|con]; simpl; rewrite ?app_nil_r.
  - apply watched_request; [|done..]. intros q. by apply away_subscribe.
  - apply watched_request; [|done..]. intros q. by apply away_unsubscribe.
  - destruct (handle_publish hub from (pub_channel p) (pub_data p) st) as [r st'] eqn:Hrun.
    pose proof (watched_publish bl _ _ _ _ _ _ _ _ hub from (pub_channel p) (pub_data p) sent buf st
      r st' Hp Hinv Hw Hne Hrun) as Hpub. simpl in *.
    destruct r as [pub|e]; simpl in *; case_decide; simpl in *; apply Hpub; lia.
  - apply watched_request; [|done..]. intros q. by apply away_connect.
Qed.

Lemma release_watched hub p sent buf st :
  broker_private bl hub → p ≠ ptr → watched_here sent buf st → watched_here sent buf (release hub p st).
Proof. intros Hp Hne Hw. apply watched_drop_arc; [done..|]. by destruct Hw; apply watched_core. Qed.

(** Nothing on its way is lost, duplicated or reordered by a step; what the step
    published joins at the end. *)
Lemma flow_step hub ev sent buf s st :
  broker_private bl hub → foreign sid ptr o ev → flowing sent buf s st →
  (N.of_nat (length buf + length (net_published hub ch ev st)) ≤ cap)%N →
  ∃ sent' buf', let '(s', st') := net_step hub ev (s, st) in
    flowing sent' buf' s' st' ∧ length buf' ≤ length buf + length (net_published hub ch ev st) ∧
    length s.(wire) ≤ length s'.(wire) ∧
    pipeline s'.(wire) sent' buf'
    = pipeline s.(wire) sent (buf ++ (net_published hub ch ev st).*2).
Proof.
  intros Hp Hf [Hinv Hw Ho Hr] Hcap.
  assert (∀ st', core_inv st'.(core) → watched_here sent buf st' →
    ∃ sent' buf', flowing sent' buf' s st' ∧ length buf' ≤ length buf + 0 ∧
      length s.(wire) ≤ length s.(wire) ∧ pipeline s.(wire) sent' buf' = pipeline s.(wire) sent (buf ++ [])) as Hsame.
  { intros st' H1 H2. exists sent, buf. rewrite app_nil_r. split; [by split|]. split_and!; [lia|lia|done]. }
  destruct ev as [from bytes|o' capacity|who|who|handle|task|s' b|]; simpl in Hf; cbn [net_step].
  - destruct (watched_frame hub from bytes sent buf st Hp Hinv Hw Hf Hcap) as [H1 H2].
    eexists sent, _. split; [split; [exact H1|exact H2|done|done]|]. split; [|by split].
    by rewrite length_app, length_fmap.
  - case_decide; [|by apply Hsame]. unfold open_socket.
    set (st1 := mk_HubSt _ (<[o' := _]> _) _).
    assert (watched_here sent buf st1) as Hw1
      by (apply (watched_outboxes _ _ _ _ _ _ _ _ _ (<[o' := _]> st.(outboxes)) _ _ st);
          [by rewrite lookup_insert_ne|done]).
    pose proof (core_inv_open hub o' st1 Hinv H) as Hinv2.
    assert (watched_here sent buf (open_session hub o' st1).2) as Hw2
      by by apply watched_open_session.
    destruct (open_session hub o' st1) as [p st2]. by apply Hsame.
  - apply Hsame; [by apply core_inv_close|by apply watched_close].
  - apply Hsame; [by apply core_inv_kick|by apply watched_kick].
  - case_decide; [|by apply Hsame].
    apply Hsame; [by apply core_inv_release|by apply release_watched].
  - destruct (watched_forward bl _ _ _ _ _ _ _ _ hub task sent buf st Hp Hw) as (i & Hw' & _).
    eexists _, _. split; [split; [by apply core_inv_forward|exact Hw'|done|done]|].
    split; [rewrite length_drop; lia|]. split; [done|]. unfold pipeline. simpl. f_equal. f_equal.
    by rewrite app_nil_r, <-app_assoc, <-fmap_app, take_drop.
  - destruct (watched_other_write bl _ _ _ _ _ _ _ _ b s' sent buf st Hf Hw) as [H1 H2].
    apply Hsame; [by rewrite H2|done].
  - pose proof (watched_write bl _ _ _ _ _ _ _ _ s sent buf st Ho Hr Hw) as H.
    destruct (write_turn true s st) as [s' st']. destruct H as (H1 & H2 & H3 & H4 & H5).
    exists (drop 1 sent), buf. split; [split; [by rewrite H5|done..]|]. split; [lia|].
    split; [rewrite H2, length_app; lia|]. unfold pipeline. rewrite H2. simpl. rewrite app_nil_r, !fmap_app, <-!app_assoc. f_equal.
    by rewrite !app_assoc, <-fmap_app, take_drop.
Qed.

Lemma flow_run hub evs sent buf s st :
  broker_private bl hub → Forall (foreign sid ptr o) evs → flowing sent buf s st →
  (N.of_nat (length buf + length (net_run hub ch evs (s, st)).1) ≤ cap)%N →
  ∃ sent' buf', let '(ps, (s', st')) := net_run hub ch evs (s, st) in
    flowing sent' buf' s' st' ∧ length buf' ≤ length buf + length ps ∧
    length s.(wire) ≤ length s'.(wire) ∧
    pipeline s'.(wire) sent' buf' = pipeline s.(wire) sent (buf ++ ps.*2).
Proof.
  intros Hp Hf. revert sent buf s st. induction Hf as [|ev evs Hev _ IH]; intros sent buf s st Hfl Hcap.
  - exists sent, buf. simpl. rewrite app_nil_r. split; [done|]. split_and!; [lia|lia|done].
  - cbn [net_run] in *. simpl (snd _) in *.
    destruct (net_run hub ch evs (net_step hub ev (s, st))) as [ps [s2 st2]] eqn:Hrun.
    simpl in Hcap. rewrite length_app in Hcap.
    destruct (flow_step hub ev sent buf s st Hp Hev Hfl ltac:(lia)) as (sent1 & buf1 & H1).
    destruct (net_step hub ev (s, st)) as [s1 st1]. destruct H1 as (Hfl1 & Hl1 & Hw1 & Hpipe1).
    specialize (IH sent1 buf1 s1 st1 Hfl1). rewrite Hrun in IH. simpl in IH.
    destruct IH as (sent2 & buf2 & Hfl2 & Hl2 & Hw2 & Hpipe2); [lia|].
    exists sent2, buf2. split; [done|]. split; [rewrite length_app; lia|]. split; [lia|].
    rewrite Hpipe2. unfold pipeline in *. rewrite fmap_app, app_assoc.
    rewrite !fmap_app, !app_assoc. rewrite !fmap_app, !app_assoc in Hpipe1. by rewrite Hpipe1.
Qed.

(** *** Enough turns *)

Lemma flow_forward hub n sent buf s st :
  broker_private bl hub → flowing sent buf s st → length buf ≤ n →
  ∃ st', net_run hub ch (replicate n (NetForward t)) (s, st) = ([], (s, st')) ∧
    flowing (sent ++ (SF_Publication <$> buf)) [] s st'.
Proof.
  intros Hp. revert sent buf st. induction n as [|n IH]; intros sent buf st Hfl Hn.
  - destruct buf; simpl in *; [|lia]. rewrite app_nil_r. eauto.
  - cbn [replicate net_run]. destruct Hfl as [Hinv Hw Ho Hr].
    destruct (watched_forward bl _ _ _ _ _ _ _ _ hub t sent buf st Hp Hw) as (i & Hw' & Hi).
    rewrite (Hi eq_refl) in Hw'. cbn [net_step].
    destruct (IH (sent ++ (SF_Publication <$> take 1 buf)) (drop 1 buf) (forward hub t st))
      as (st' & -> & Hfl'); [split; [by apply core_inv_forward|done..]|rewrite length_drop; lia|].
    exists st'. split; [done|]. by rewrite <-app_assoc, <-fmap_app, take_drop in Hfl'.
Qed.

Lemma flow_write hub m sent s st :
  flowing sent [] s st → length sent ≤ m →
  ∃ s' st', net_run hub ch (replicate m NetWrite) (s, st) = ([], (s', st')) ∧
    s'.(wire) = s.(wire) ++ (encode_server <$> sent).
Proof.
  revert sent s st. induction m as [|m IH]; intros sent s st Hfl Hm.
  - destruct sent; simpl in *; [|lia]. exists s, st. by rewrite app_nil_r.
  - cbn [replicate net_run net_step]. destruct Hfl as [Hinv Hw Ho Hr].
    pose proof (watched_write bl _ _ _ _ _ _ _ _ s sent [] st Ho Hr Hw) as H.
    destruct (write_turn true s st) as [s1 st1]. destruct H as (H1 & H2 & H3 & H4 & H5).
    destruct (IH (drop 1 sent) s1 st1) as (s' & st' & -> & Hwire);
      [split; [by rewrite H5|done..]|rewrite length_drop; lia|].
    exists s', st'. split; [done|]. by rewrite Hwire, H2, <-app_assoc, <-fmap_app, take_drop.
Qed.

Lemma flow_drain hub n m sent buf s st :
  broker_private bl hub → flowing sent buf s st → length buf ≤ n → length sent + length buf ≤ m →
  (net_run hub ch (replicate n (NetForward t) ++ replicate m NetWrite) (s, st)).2.1.(wire)
  = pipeline s.(wire) sent buf.
Proof.
  intros Hp Hfl Hn Hm.
  destruct (flow_forward hub n sent buf s st Hp Hfl Hn) as (st1 & Hrun1 & Hfl1).
  destruct (flow_write hub m _ s st1 Hfl1) as (s2 & st2 & Hrun2 & Hwire);
    [rewrite length_app, length_fmap; lia|].
  assert (∀ evs1 evs2 c, (net_run hub ch (evs1 ++ evs2) c).2
            = (net_run hub ch evs2 (net_run hub ch evs1 c).2).2) as Happ.
  { intros evs1. induction evs1 as [|ev evs1 IH]; intros evs2 c; [done|].
    cbn [net_run app]. specialize (IH evs2 (net_step hub ev c)).
    destruct (net_run hub ch (evs1 ++ evs2) _) as [ps c1].
    by destruct (net_run hub ch evs1 _) as [ps' c2]. }
  rewrite Happ, Hrun1. simpl. by rewrite Hrun2.
Qed.
End flow.

(** ** Subscribing *)

Lemma subscribe_heap_other hub sid rid ch since st ok st' ptr p :
  handle_subscribe hub sid rid ch since st = (Ok ok, st') →
  get st.(core).(registry) sid = Some ptr → p ≠ ptr →
  st'.(core).(heap) !! p = st.(core).(heap) !! p.
Proof.
  intros H Hg Hne. apply handle_subscribe_Ok in H
    as (ptr' & cl & w1 & cursor & w2 & stream & w3 & st4 & Hg' & Hcl & _ & Hsub & _ & _ & _ &
        Hcore & Hcommit). assert (ptr' = ptr) as -> by congruence.
  rewrite commit_subscription_run in Hcommit.
  2:{ rewrite Hcore. unfold has_subscription in Hsub. apply bool_decide_eq_false in Hsub.
      by apply eq_None_not_Some. }
  injection Hcommit as _ <-. simpl. rewrite lookup_insert_ne by done. rewrite Hcore.
  unfold with_claims. destruct (claims _); [done|]. simpl. by rewrite lookup_insert_ne.
Qed.

Lemma tracked_send cap ch t o stream st sent buf f :
  tracked bl cap ch t o stream st sent buf →
  tracked bl cap ch t o stream (outbox_send o f st).2 (sent ++ [f]) buf ∧
  (outbox_send o f st).2.(core) = st.(core).
Proof.
  intros [Hok A2 A3 A4 A5 A6 A7]. pose proof (streams_ok_send bl o f st Hok) as Hok'.
  destruct (outbox_send_open o f st A5) as (st' & Hs & Hc & Hw & Ho & Hq & _).
  rewrite Hs in *. simpl in *. split; [|done].
  split; rewrite ?Hc, ?Hw; try done. by rewrite Hq, A6.
Qed.

(** A subscribe through the socket starts the flow. *)
Lemma flow_start hub s st sid ptr sub ok st1 {Hk : ChannelKindLaws (kind_for hub sub.(sub_channel))} :
  broker_private bl hub → streams_ok bl st → core_inv st.(core) →
  get st.(core).(registry) sid = Some ptr → s.(out) = (deref st.(core) ptr).(outbox) →
  s.(writer_running) = true → outbox_open st s.(out) →
  (∀ t tk, st.(core).(tasks) !! t = Some tk → tk.(t_outbox) ≠ s.(out)) →
  (∀ p s', st.(core).(heap) !! p = Some s' → p ≠ ptr → s'.(outbox) ≠ s.(out)) →
  handle_subscribe hub sid sub.(sub_request_id) sub.(sub_channel) sub.(sub_since_offset) st
  = (Ok ok, st1) →
  ∃ sB t stream replayed,
    (if decide (sub.(sub_since_offset) = 0%N) then replayed = []
     else ∃ w, replay_since (kind_for hub sub.(sub_channel)) sub.(sub_channel)
                 sub.(sub_since_offset) w = (Ok replayed, st1.(world))) ∧
    flowing sid ptr s.(out) sB sub.(sub_channel) t (view bl st.(world)).(capacity) stream
      (queued st s.(out) ++ (SF_Publication <$> replayed) ++ [SF_SubscribeOk ok]) [] s
      (deliver sid (SF_SubscribeOk ok) st1).
Proof.
  intros Hp Hok Hinv Hg Ho Hr Hopen Hown Halone Hrun. rewrite Ho in *.
  destruct (tracked_subscribe bl hub sid _ _ _ ok st st1 ptr Hp Hok Hrun Hg Hopen Hown)
    as (t & stream & replayed & Hrep & Htr).
  pose proof (keeps_run _ _ _ (keeps_handle_subscribe hub sid sub.(sub_request_id)
    sub.(sub_channel) sub.(sub_since_offset)) Hinv) as Hinv1. rewrite Hrun in Hinv1. simpl in Hinv1.
  assert (bound sid ptr (deref st.(core) ptr).(outbox) st1.(core)) as [Hg1 Ho1].
  { pose proof (calm_bound sid ptr (deref st.(core) ptr).(outbox) _ st
      (calm_subscribe_any sid ptr _ hub sid sub.(sub_request_id) sub.(sub_channel)
         sub.(sub_since_offset)) (conj Hg eq_refl)) as Hb. by rewrite Hrun in Hb. }
  destruct (core_inv_deref _ _ _ Hinv1 Hg1) as [Hp1 _].
  exists (deref st1.(core) ptr), t, stream, replayed. split; [done|].
  unfold deliver. rewrite Hg1, Ho1.
  destruct (tracked_send _ _ _ _ _ _ _ _ (SF_SubscribeOk ok) Htr) as [Htr2 Hc2].
  set (st2 := (outbox_send _ _ st1).2) in *. destruct Hinv1 as [Hwf Hrest].
  split; [by rewrite Hc2| |done|done]. split; rewrite ?Hc2; try done.
  - by rewrite <-app_assoc in Htr2.
  - intros p s' Hs' Hne. rewrite (subscribe_heap_other _ _ _ _ _ _ _ _ _ _ Hrun Hg Hne) in Hs'.
    split; [by eapply Halone|]. intros ch' Hch'.
    rewrite <-(subscribe_heap_other _ _ _ _ _ _ _ _ _ _ Hrun Hg Hne) in Hs'.
    destruct (cw_task _ _ Hwf _ _ (tr_task _ _ _ _ _ _ _ _ _ Htr)) as (q & Hq & Hoq). simpl in Hq, Hoq.
    destruct (decide (q = ptr)) as [->|Hqne].
    + destruct (cw_sub_inj _ _ Hwf p ch' ptr sub.(sub_channel) t) as [-> _];
        [unfold subs_at; by rewrite Hs'|done|done].
    + unfold outbox_at in Hoq. rewrite (subscribe_heap_other _ _ _ _ _ _ _ _ _ _ Hrun Hg Hqne) in Hoq.
      destruct (st.(core).(heap) !! q) as [sq|] eqn:Hsq; [|done]. injection Hoq as Hoq.
      by apply (Halone q sq).
  - destruct (cw_task _ _ Hwf _ _ (tr_task _ _ _ _ _ _ _ _ _ Htr)) as (q & Hq & _).
    by eapply (cw_sub _ _ Hwf).
Qed.

Lemma publish_echo hub from ch data st p {Hk : ChannelKindLaws (kind_for hub ch)} :
  (handle_publish hub from ch data st).1 = Ok p → p.(publ_channel) = ch ∧ p.(publ_data) = data.
Proof.
  destruct (handle_publish hub from ch data st) as [r st'] eqn:H. simpl. intros ->.
  rewrite (handle_publish_prefix hub from ch data st) in H. io_step H.
  assert (a = p) as ->.
  { io_step H. io_step H. by injection H. }
  unfold publish_prefix in Hio. io_step Hio. io_step Hio. io_step Hio. io_step Hio.
  apply on_world_Ok in Hio as (w' & Hon & _). by eapply on_publish_echo.
Qed.

Lemma net_published_echo hub ch ev st {Hk : ChannelKindLaws (kind_for hub ch)} :
  Forall (λ '(f, p), p.(publ_channel) = ch ∧ f.(pub_channel) = ch ∧ p.(publ_data) = f.(pub_data))
    (net_published hub ch ev st).
Proof.
  destruct ev as [from bytes| | | | | | |]; simpl; try constructor.
  destruct (decode_client bytes) as [[]|]; try constructor. case_decide as Hc; [|constructor].
  destruct (handle_publish _ _ _ _ _).1 as [p|] eqn:Hp; [|constructor].
  rewrite Hc in Hp. destruct (publish_echo hub from ch _ st p Hp) as [H1 H2]. apply Forall_singleton. by rewrite Hc.
Qed.

Lemma net_run_echo hub ch evs c {Hk : ChannelKindLaws (kind_for hub ch)} :
  Forall (λ '(f, p), p.(publ_channel) = ch ∧ f.(pub_channel) = ch ∧ p.(publ_data) = f.(pub_data))
    (net_run hub ch evs c).1.
Proof.
  revert c. induction evs as [|ev evs IH]; intros c; [constructor|]. cbn [net_run].
  specialize (IH (net_step hub ev c)). destruct (net_run hub ch evs _) as [ps c'].
  apply Forall_app. split; [by apply (net_published_echo hub ch ev c.2)|exact IH].
Qed.

(** States reached without touching the broker from outside. *)
Definition node_reaches hub (w0 : W) (st : @HubSt W MemStream _ M) : Prop :=
  rtc (λ st1 st2, node_step bl hub st1 st2 ∧ hub_step hub st1 st2) (hub_init w0) st.

Lemma node_reaches_inv hub w0 st :
  broker_private bl hub → broker_wf (view bl w0) → node_reaches hub w0 st →
  streams_ok bl st ∧ core_inv st.(core).
Proof.
  intros Hp Hwf H. split.
  - apply (streams_ok_reachable bl hub w0 st Hp Hwf). eapply rtc_subrel; [|exact H]. by intros ? ? [].
  - apply core_inv_reachable with (hub := hub). exists w0.
    eapply rtc_subrel; [|exact H]. by intros ? ? [].
Qed.

(** A session without subscriptions, whose outbox is its own, has no forwarder. *)
Lemma no_forwarder_yet st ptr o t tk :
  core_inv st.(core) → (deref st.(core) ptr).(subscriptions) = ∅ →
  (∀ p s', st.(core).(heap) !! p = Some s' → p ≠ ptr → s'.(outbox) ≠ o) →
  st.(core).(tasks) !! t = Some tk → tk.(t_outbox) ≠ o.
Proof.
  intros (Hwf & _) Hnone Hown Ht Ho. destruct (cw_task _ _ Hwf _ _ Ht) as (p & Hsub & Hout).
  unfold subs_at, outbox_at in *. destruct (heap st.(core) !! p) as [s'|] eqn:Hp; [|done].
  simpl in *. destruct (decide (p = ptr)) as [->|Hne]; [|apply (Hown _ _ Hp Hne); congruence].
  unfold deref in Hnone. rewrite Hp in Hnone. simpl in Hnone. by rewrite Hnone, lookup_empty in Hsub.
Qed.

(** The bytes [bs] decode to the frames [fs]. *)
Definition decodes_to : list Bytes → list ServerFrame → Prop :=
  Forall2 (λ b f, wf_server f → decode_server b = Ok f).

Lemma decode_encoded {L : ProstCodecLaws C} (fs : list ServerFrame) :
  decodes_to (encode_server <$> fs) fs.
Proof.
  induction fs as [|f fs IH]; [constructor|]. constructor; [apply decode_encode_server|exact IH].
Qed.

Lemma decodes_to_all bs fs :
  Forall wf_server fs → decodes_to bs fs → decode_server <$> bs = Ok <$> fs.
Proof.
  intros Hwf. induction 1 as [|b f bs fs Hb _ IH]; [done|]. inversion Hwf; subst.
  by rewrite !fmap_cons, Hb, IH.
Qed.

(** C1: from socket to socket.  On a hub with the in-process broker, the first
    [Subscribe] message of a session (it has no other subscription yet) arrives on
    its socket and succeeds.  Then other sockets send any messages
    (requests of every kind and garbage), open, are closed or kicked, and forwarders
    and writers get turns, in any order.  Each publication on the channel carries the
    bytes that were in its [Publish] message.  At all times what was written to the
    socket is the beginning of: the frames it had to send before, the replayed
    publications, the reply to the subscribe, and the channel's publications in the
    order in which they were accepted, encoded; and enough turns of the forwarder
    and the writer write exactly all of it, so that the reader decodes these frames
    (those whose fields are within their Rust types), each once, in order, with any
    codec that keeps protobuf's promises.  The channel must not run ahead of the
    broker's capacity, and the socket's outbox must be its own. *)
Theorem socket_to_socket {L : ProstCodecLaws C} hub w0 st (s : Socket) sid ptr bytes sub ok st1 evs
    {Hk : ChannelKindLaws (kind_for hub sub.(sub_channel))}
    (Hp : broker_private bl hub) (Hwf : broker_wf (view bl w0)) (Hst : node_reaches hub w0 st)
    (Hptr : get st.(core).(registry) sid = Some ptr)
    (Hout : s.(out) = (deref st.(core) ptr).(outbox)) (Hwriter : s.(writer_running) = true)
    (Hopen : outbox_open st s.(out))
    (Hfirst : (deref st.(core) ptr).(subscriptions) = ∅)
    (Hown : ∀ p s', st.(core).(heap) !! p = Some s' → p ≠ ptr → s'.(outbox) ≠ s.(out))
    (Hbytes : decode_client bytes = Ok (CF_Subscribe sub))
    (Hsub : handle_subscribe hub sid sub.(sub_request_id) sub.(sub_channel)
              sub.(sub_since_offset) st = (Ok ok, st1))
    (Hevs : Forall (foreign sid ptr s.(out)) evs) :
  let ch := sub.(sub_channel) in
  let '(go_on, st2) := dispatch show_prost (Binary bytes) sid hub st in
  let '(ps, (s3, st3)) := net_run hub ch evs (s, st2) in
  (N.of_nat (length ps) ≤ (view bl st.(world)).(capacity))%N →
  go_on = true ∧
  Forall (λ '(f, p), p.(publ_channel) = ch ∧ f.(pub_channel) = ch ∧ p.(publ_data) = f.(pub_data)) ps ∧
  ∃ t replayed,
    (if decide (sub.(sub_since_offset) = 0%N) then replayed = []
     else ∃ w, replay_since (kind_for hub ch) ch sub.(sub_since_offset) w
               = (Ok replayed, st1.(world))) ∧
    let due := queued st s.(out) ++ (SF_Publication <$> replayed) ++ [SF_SubscribeOk ok]
                 ++ (SF_Publication <$> ps.*2) in
    (∃ rest, s3.(wire) ++ rest = s.(wire) ++ (encode_server <$> due)) ∧
    ∀ n m, length ps ≤ n → length due ≤ m →
      let written :=
        (net_run hub ch (replicate n (NetForward t) ++ replicate m NetWrite) (s3, st3)).2.1.(wire) in
      written = s.(wire) ++ (encode_server <$> due) ∧
      decodes_to (drop (length s.(wire)) written) due.
Proof.
  cbn zeta. unfold dispatch. rewrite Hbytes. unfold handle_frame. rewrite Hsub.
  destruct (node_reaches_inv _ _ _ Hp Hwf Hst) as [Hok Hinv].
  destruct (flow_start hub s st sid ptr sub ok st1 Hp Hok Hinv Hptr Hout Hwriter Hopen
    (λ t tk, no_forwarder_yet st ptr s.(out) t tk Hinv Hfirst Hown) Hown Hsub) as (sB & t & stream & replayed & Hrep & Hfl).
  pose proof (net_run_echo hub sub.(sub_channel) evs (s, deliver sid (SF_SubscribeOk ok) st1)) as Hecho.
  pose proof (flow_run _ _ _ _ _ _ _ _ hub evs _ _ _ _ Hp Hevs Hfl) as Hflow.
  destruct (net_run hub _ evs _) as [ps [s3 st3]]. intros Hcap.
  destruct (Hflow Hcap) as (sent3 & buf3 & Hfl3 & Hlen & Hwire & Hpipe). clear Hflow. simpl in *.
  split; [done|]. split; [exact Hecho|]. exists t, replayed. split; [exact Hrep|].
  assert (pipeline s3.(wire) sent3 buf3 = s.(wire) ++ (encode_server <$>
    (queued st s.(out) ++ (SF_Publication <$> replayed) ++ [SF_SubscribeOk ok]
       ++ (SF_Publication <$> ps.*2)))) as Heq.
  { rewrite Hpipe. unfold pipeline. by rewrite <-!app_assoc. }
  split; [eexists; exact Heq|]. intros n m Hn Hm. cbv zeta.
  match goal with |- ?w = ?e ∧ _ => assert (w = e) as Hall; [|split; [exact Hall|]] end.
  2:{ rewrite Hall, drop_app_length. apply decode_encoded. }
  transitivity (pipeline s3.(wire) sent3 buf3); [|exact Heq].
  eapply flow_drain; [done|exact Hfl3|lia|].
  apply (f_equal length) in Heq. unfold pipeline in Heq.
  rewrite !length_app, !length_fmap, length_app, length_fmap in Heq.
  rewrite !length_app, !length_fmap in Hm, Heq. simpl in *. lia.
Qed.
End net.

(** ** Witness: two sockets on the default node *)

Section witnesses.
#[local] Existing Instances QueueBroadcast CountNotifier QueueMpsc wire_codec.

(** Sessions 0 and 1, on outboxes 0 and 1. *)
Definition two_sessions : @HubSt NodeW MemStream CountNotifier QueueMpsc :=
  let st := mk_HubSt sample_init.(core) {[0%N := ([], false); 1%N := ([], false)]}
              sample_init.(world) in
  (open_session open_node 1 (open_session open_node 0 st).2).2.

Lemma two_sessions_reach : node_reaches broker_lens open_node (node_init 4 1000 8) two_sessions.
Proof.
  unfold two_sessions. eapply rtc_r; [|split; [apply ns_open|apply step_open; vm_compute; reflexivity]].
  eapply rtc_r; [|split; [apply ns_open|apply step_open; vm_compute; reflexivity]].
  apply rtc_once. split.
  - by apply (ns_env broker_lens open_node (hub_init (node_init 4 1000 8))).
  - apply (step_env open_node (hub_init (node_init 4 1000 8))).
Qed.

Definition lobby_socket : Socket :=
  mk_Socket 0 0 0 (Selecting (NO:=CountNotifier) (0%N : Notified (Notifier:=CountNotifier))) true [].

Definition lobby_subscribe : Subscribe := mk_Subscribe 1 "rooms.lobby" 0.

Definition say (data : Bytes) : net_event :=
  NetFrame 1 (encode_client (CF_Publish (mk_Publish 7 "rooms.lobby" data))).

(** Session 1 publishes, sends garbage, publishes again and is kicked. *)
Definition lobby_events : list net_event :=
  [say [x01]; NetForward 0; NetWrite; NetFrame 1 [xff]; say [x02]; NetKick 1].
End witnesses.

Lemma socket_to_socket_witness :
  ∃ t, let st := (dispatch (λ _, "") (Binary (encode_client (CF_Subscribe lobby_subscribe))) 0
                    open_node two_sessions).2 in
    let c := (net_run (λ _, "") open_node "rooms.lobby" lobby_events (lobby_socket, st)).2 in
    let w := (net_run (λ _, "") open_node "rooms.lobby"
                (replicate 2 (NetForward t) ++ replicate 3 NetWrite) c).2.1.(wire) in
    w = encode_server <$> [SF_SubscribeOk (mk_SubscribeOk 1 "rooms.lobby" 1 0);
        SF_Publication (mk_Publication "rooms.lobby" 0 [x01]);
        SF_Publication (mk_Publication "rooms.lobby" 1 [x02])] ∧
    decode_server <$> w = Ok <$> [SF_SubscribeOk (mk_SubscribeOk 1 "rooms.lobby" 1 0);
        SF_Publication (mk_Publication "rooms.lobby" 0 [x01]);
        SF_Publication (mk_Publication "rooms.lobby" 1 [x02])].
Proof.
  pose proof (socket_to_socket broker_lens (λ _, "") open_node (node_init 4 1000 8) two_sessions
    lobby_socket 0 0 (encode_client (CF_Subscribe lobby_subscribe)) lobby_subscribe
    (mk_SubscribeOk 1 "rooms.lobby" 1 0)
    (handle_subscribe open_node 0 1 "rooms.lobby" 0 two_sessions).2 lobby_events
    node_broker_private (broker_wf_new 8) two_sessions_reach) as H.
  assert ((net_run (λ _, "") open_node "rooms.lobby" lobby_events (lobby_socket,
    (dispatch (λ _, "") (Binary (encode_client (CF_Subscribe lobby_subscribe))) 0
                    open_node two_sessions).2)).1.*2
    = [mk_Publication "rooms.lobby" 0 [x01]; mk_Publication "rooms.lobby" 1 [x02]]) as Hps
    by (vm_compute; reflexivity).
  destruct (dispatch _ (Binary (encode_client (CF_Subscribe lobby_subscribe))) 0 open_node
              two_sessions) as [go_on st2].
  cbn [sub_channel lobby_subscribe snd] in *.
  destruct (net_run _ open_node "rooms.lobby" lobby_events (lobby_socket, st2)) as [ps [s3 st3]].
  cbn [fst snd] in *.
  assert (length ps = 2) as Hlen by (by rewrite <-(length_fmap snd ps), Hps).
  destruct H as (_ & _ & t & replayed & Hrep & _ & Hn).
  - vm_compute. reflexivity.
  - vm_compute. reflexivity.
  - reflexivity.
  - eexists. split; vm_compute; reflexivity.
  - reflexivity.
  - refine (bool_decide_unpack (map_Forall (λ p s', p ≠ 0%N → s'.(outbox) ≠ 0%N)
      two_sessions.(core).(heap)) _). vm_compute. constructor.
  - apply decode_encode_client. vm_compute. done.
  - assert ((handle_subscribe open_node 0 1 "rooms.lobby" 0 two_sessions).1
      = Ok (mk_SubscribeOk 1 "rooms.lobby" 1 0)) as Hok by (vm_compute; reflexivity).
    simpl. by destruct (handle_subscribe _ _ _ _ _ _) as [r st']; simpl in *; subst r.
  - repeat constructor; simpl; discriminate.
  - rewrite Hlen. vm_compute. discriminate.
  - exists t. cbn zeta. simpl in Hrep. subst replayed. rewrite Hps in Hn.
    destruct (Hn 2 3) as [Hw Hd]; [by rewrite Hlen|vm_compute; lia|]. split; [exact Hw|].
    apply (decodes_to_all _ [_; _; _]); [repeat constructor; vm_compute; done|exact Hd].
Defined.
