(* ===== verification/Wt.v ===== *)
(** * The WebTransport transport

    crates/cherenkov-transport-wt/src/lib.rs: the same frames over a byte stream,
    each preceded by its length on four bytes, big end first. *)
From S2P Require Import Prelude Utf8 Protocol ProtoWire Traits Session Hub HubInv HubReach Ws.
From S2P Require Import MemoryBroker Node HubProps.

Definition DEFAULT_OUTBOX_CAPACITY : N := 1024.

(** ** Framing *)

(** [u32::to_be_bytes]; the argument is reduced as [bytes.len() as u32] does. *)
Definition be32 (n : N) : Bytes :=
  [byte_of (n / 16777216 mod 256); byte_of (n / 65536 mod 256); byte_of (n / 256 mod 256);
   byte_of (n mod 256)]%N.

(** [u32::from_be_bytes]. *)
Definition from_be32 (a b c d : Byte.byte) : N :=
  (byte_val a * 16777216 + byte_val b * 65536 + byte_val c * 256 + byte_val d)%N.

Definition MAX_FRAME : N := (16 * 1024 * 1024)%N.

(** What the writer task writes for a body. *)
Definition write_frame (bytes : Bytes) : Bytes := be32 (N.of_nat (length bytes)) ++ bytes.

(** [read_exact]: fails when the stream ends early. *)
Definition read_exact (n : nat) (input : Bytes) : option (Bytes * Bytes) :=
  if decide (n ≤ length input) then Some (take n input, drop n input) else None.

(** The reading branch of the [select!]; [input] is the rest of the stream. *)
Definition read_frame (input : Bytes) : option (Bytes * Bytes) :=
  match read_exact 4 input with
  | Some ([a; b; c; d], input) =>
      let len := from_be32 a b c d in
      if decide (MAX_FRAME < len)%N then None
      else read_exact (N.to_nat len) input
  | _ => None
  end.

Section wt.
Context {W Str : Type} `{NO : Notifier} `{M : Mpsc} `{C : ProstCodec}.
Variable show_prost : prost_error → string.

Definition deliver (session_id : N) (frame : ServerFrame) (st : @HubSt W Str _ M) : HubSt :=
  match get st.(core).(registry) session_id with
  | None => st
  | Some session => (outbox_send (deref st.(core) session).(outbox) frame st).2
  end.

Definition deliver_error (session_id request_id : N) (err : HubError) (st : @HubSt W Str _ M) :
    HubSt :=
  let code :=
    match err with
    | ESchema _ => ValidationFailed
    | EAuth _ => InvalidTokenCode
    | EAcl _ => AclDenied
    | NotConnected _ => NotConnectedCode
    | _ => Internal
    end in
  deliver session_id
    (SF_Error (mk_ProtocolError request_id (u32_of_error_code code) (show_hub_error err))) st.

Definition dispatch (frame : ClientFrame) (session_id : N) (hub : @Hub W Str)
    (st : @HubSt W Str _ M) : HubSt :=
  match frame with
  | CF_Connect c =>
      match handle_connect hub session_id c.(con_request_id) c.(con_token) st with
      | (Ok ok, st) => deliver session_id (SF_ConnectOk ok) st
      | (Err err, st) => deliver_error session_id c.(con_request_id) err st
      end
  | CF_Subscribe s =>
      match handle_subscribe hub session_id s.(sub_request_id) s.(sub_channel)
              s.(sub_since_offset) st with
      | (Ok ok, st) => deliver session_id (SF_SubscribeOk ok) st
      | (Err err, st) => deliver_error session_id s.(sub_request_id) err st
      end
  | CF_Unsubscribe u =>
      match handle_unsubscribe hub session_id u.(unsub_request_id) u.(unsub_channel) st with
      | (Ok ok, st) => deliver session_id (SF_UnsubscribeOk ok) st
      | (Err err, st) => deliver_error session_id u.(unsub_request_id) err st
      end
  | CF_Publish p =>
      match handle_publish hub session_id p.(pub_channel) p.(pub_data) st with
      | (Ok _, st) => st
      | (Err err, st) => deliver_error session_id p.(pub_request_id) err st
      end
  end.

(** ** The connection *)

Record Conn : Type := mk_Conn {
  session : N;
  session_id : N;
  out : N;
  waiting : option Notified;
  input : Bytes;
  writer_running : bool;
  wire : Bytes;
}.

Definition open_conn (hub : @Hub W Str) (o capacity : N) (input : Bytes) (st : @HubSt W Str _ M) :
    Conn * HubSt :=
  let st := mk_HubSt st.(core) (<[o := mpsc_channel capacity]> st.(outboxes)) st.(world) in
  let '(session, st) := open_session hub o st in
  let s := deref st.(core) session in
  (mk_Conn session s.(id) o (Some (notified s.(shutdown))) input true [], st).

(** A turn of the writer task. *)
Definition write_turn (sent : bool) (s : Conn) (st : @HubSt W Str _ M) : Conn * HubSt :=
  if s.(writer_running) then
    match st.(outboxes) !! s.(out) with
    | None => (s, st)
    | Some ch =>
        match mpsc_recv ch with
        | (None, _) => (s, st)
        | (Some frame, ch) =>
            let st := mk_HubSt st.(core) (<[s.(out) := ch]> st.(outboxes)) st.(world) in
            if sent
            then (mk_Conn s.(session) s.(session_id) s.(out) s.(waiting) s.(input) true
                    (s.(wire) ++ write_frame (encode_server frame)), st)
            else (mk_Conn s.(session) s.(session_id) s.(out) s.(waiting) s.(input) false s.(wire),
                  drop_receiver s.(out) st)
        end
    end
  else (s, st).

Definition finish (hub : @Hub W Str) (s : Conn) (st : @HubSt W Str _ M) : Conn * HubSt :=
  let st := drop_receiver s.(out) st in
  let st := close_session hub s.(session_id) st in
  (mk_Conn s.(session) s.(session_id) s.(out) None s.(input) false s.(wire),
   release hub s.(session) st).

(** A turn of the loop. *)
Definition loop_turn (hub : @Hub W Str) (s : Conn) (st : @HubSt W Str _ M) : Conn * HubSt :=
  match s.(waiting) with
  | None => (s, st)
  | Some w =>
      if notified_ready (deref st.(core) s.(session)).(shutdown) w then finish hub s st
      else match read_frame s.(input) with
           | None => finish hub s st
           | Some (buf, rest) =>
               match decode_client buf with
               | Ok frame =>
                   let st := dispatch frame s.(session_id) hub st in
                   (mk_Conn s.(session) s.(session_id) s.(out)
                      (Some (notified (deref st.(core) s.(session)).(shutdown))) rest
                      s.(writer_running) s.(wire), st)
               | Err err =>
                   let st := deliver s.(session_id)
                     (SF_Error (mk_ProtocolError 0 (u32_of_error_code InvalidFrame)
                        ("invalid frame: " +:+ show_decode_error show_prost err))) st in
                   finish hub s st
               end
           end
  end.

(** C38: a client gets the same treatment over WebTransport as over a WebSocket:
    for every frame, session and state the two dispatchers do exactly the same,
    replies and error codes included. *)
Theorem wt_dispatch_as_ws (frame : ClientFrame) (sid : N) (hub : @Hub W Str)
    (st : @HubSt W Str _ M) :
  dispatch frame sid hub st = Ws.handle_frame frame sid hub st.
Proof.
  assert (He : ∀ rid err s, deliver_error sid rid err s
    = Ws.deliver sid (error_frame rid (error_code_for err) (show_hub_error err)) s)
    by (intros rid err s; by destruct err).
  destruct frame; simpl; case_match; case_match; done || apply He.
Qed.
End wt.

(** ** Correctness of the framing *)

Lemma byte_val_lt b : (byte_val b < 256)%N.
Proof. unfold byte_val. pose proof (Byte.to_N_bounded b). lia. Qed.

Lemma from_be32_be32 n :
  (n < 2 ^ 32)%N → ∃ a b c d, be32 n = [a; b; c; d] ∧ from_be32 a b c d = n.
Proof.
  intros Hn. do 4 eexists. split; [done|]. unfold from_be32.
  rewrite !byte_val_byte_of by (apply N.mod_lt; done).
  pose proof (N.div_mod n 256). pose proof (N.div_mod (n / 256) 256).
  pose proof (N.div_mod (n / 65536) 256).
  rewrite N.Div0.div_div in *. change (256 * 256)%N with 65536%N in *.
  change (65536 * 256)%N with 16777216%N in *.
  assert (n / 16777216 < 256)%N by (apply N.Div0.div_lt_upper_bound; lia).
  rewrite (N.mod_small (n / 16777216) 256) by done. lia.
Qed.

Lemma read_exact_app n l k : length l = n → read_exact n (l ++ k) = Some (l, k).
Proof.
  intros <-. unfold read_exact. rewrite decide_True by (rewrite length_app; lia).
  by rewrite take_app_length, drop_app_length.
Qed.

Lemma read_write_frame body rest :
  (N.of_nat (length body) ≤ MAX_FRAME)%N →
  read_frame (write_frame body ++ rest) = Some (body, rest).
Proof.
  intros Hlen. unfold write_frame, read_frame, MAX_FRAME in *.
  destruct (from_be32_be32 (N.of_nat (length body))) as (a & b & c & d & -> & Hv); [lia|].
  rewrite <-app_assoc, (read_exact_app 4) by done. rewrite Hv.
  rewrite decide_False by (unfold MAX_FRAME; lia). rewrite Nat2N.id. by apply read_exact_app.
Qed.

(** Reading frames until the stream ends or breaks; each takes four bytes at least,
    so the length of the stream is fuel enough. *)
Fixpoint read_all (fuel : nat) (input : Bytes) : list Bytes :=
  match fuel with
  | O => []
  | S fuel => match read_frame input with
              | Some (body, rest) => body :: read_all fuel rest
              | None => []
              end
  end.

(** C37: whatever frames are written one after the other, up to 16 MiB each, are
    read back one by one, complete and in order; a length above 16 MiB is refused
    before its body is read, and a stream cut inside a frame yields no frame. *)
Theorem framing_round_trip (bodies : list Bytes) (cut : Bytes) (body : Bytes)
    (Hb : Forall (λ b, N.of_nat (length b) ≤ MAX_FRAME)%N bodies)
    (Hcut : ∃ more, more ≠ [] ∧ cut ++ more = write_frame body)
    (Hbody : (N.of_nat (length body) ≤ MAX_FRAME)%N) :
  read_all (length (concat (map write_frame bodies) ++ cut))
    (concat (map write_frame bodies) ++ cut) = bodies ∧
  (∀ big rest, (MAX_FRAME < N.of_nat (length big) < 2 ^ 32)%N →
     read_frame (write_frame big ++ rest) = None).
Proof.
  split.
  - assert (Hnone : read_frame cut = None).
    { destruct Hcut as (more & Hne & Heq).
      destruct (from_be32_be32 (N.of_nat (length body))) as (a & b & c & d & Hbe & Hv);
        [unfold MAX_FRAME in Hbody; lia|].
      unfold write_frame in Heq. rewrite Hbe in Heq.
      unfold read_frame, read_exact. destruct (decide (4 ≤ length cut)) as [Hl|]; [|done].
      do 4 (destruct cut as [|? cut]; [simpl in Hl; lia|]). simpl in Heq.
      injection Heq as -> -> -> -> Heq. simpl. rewrite Hv.
      destruct (decide (MAX_FRAME < N.of_nat (length body))%N); [done|].
      rewrite decide_False; [done|]. rewrite Nat2N.id, <-Heq, length_app.
      destruct more; [done|]. simpl. rewrite drop_0. lia. }
    assert (Hgen : ∀ fuel, length (concat (map write_frame bodies) ++ cut) ≤ fuel →
      read_all fuel (concat (map write_frame bodies) ++ cut) = bodies); [|by apply Hgen].
    induction Hb as [|b l Hb0 _ IH]; intros fuel Hf.
    + destruct fuel; simpl; [done|]. by rewrite Hnone.
    + change (concat (map write_frame (b :: l))) with (write_frame b ++ concat (map write_frame l)) in *.
      rewrite <-app_assoc in *. rewrite length_app in Hf.
      assert (4 ≤ length (write_frame b)) by (unfold write_frame; rewrite length_app; simpl; lia).
      destruct fuel as [|fuel]; [lia|]. cbn [read_all].
      rewrite read_write_frame by done. f_equal. apply IH. lia.
  - intros big rest Hbig. unfold write_frame, read_frame.
    destruct (from_be32_be32 (N.of_nat (length big))) as (a & b & c & d & -> & Hv); [lia|].
    rewrite <-app_assoc, (read_exact_app 4) by done. rewrite Hv. by rewrite decide_True by lia.
Qed.

Lemma framing_round_trip_witness :
  read_all 12 (write_frame [x01; x02] ++ write_frame [] ++ [x00; x00]) = [[x01; x02]; []].
Proof.
  refine (proj1 (framing_round_trip [[x01; x02]; []] [x00; x00] [] _ _ _)).
  - repeat constructor; vm_compute; discriminate.
  - exists [x00; x00]. split; [discriminate|reflexivity].
  - vm_compute. discriminate.
Defined.
