(* ===== verification/Sse.v ===== *)
(** * The Server-Sent Events transport

    crates/cherenkov-transport-sse/src/lib.rs: the query parser, the two HTTP
    handlers and the event stream.  The JSON and base64 encoders are parameters. *)
From S2P Require Import Prelude Utf8 Protocol ProtoWire Traits Session Hub Ws.

Definition DEFAULT_PATH : string := "/sse/v1".

(** ** Query strings *)

(** [str::split]: never empty. *)
Fixpoint split (c : ascii) (s : string) : list string :=
  match s with
  | EmptyString => [""]
  | String a s' =>
      if decide (a = c) then "" :: split c s'
      else match split c s' with
           | p :: ps => String a p :: ps
           | [] => [String a ""]
           end
  end.

(** [char::to_digit(16)] of an ASCII byte. *)
Definition hex_digit (b : Byte.byte) : option N :=
  let v := byte_val b in
  if decide (48 ≤ v ≤ 57)%N then Some (v - 48)%N
  else if decide (65 ≤ v ≤ 70)%N then Some (v - 55)%N
  else if decide (97 ≤ v ≤ 102)%N then Some (v - 87)%N
  else None.

(** [u8::from_str_radix(h, 16)] of two bytes: a leading plus sign is accepted. *)
Definition from_str_radix_16 (a b : Byte.byte) : option Byte.byte :=
  if decide (a = x2b) then byte_of <$> hex_digit b
  else h ← hex_digit a; l ← hex_digit b; Some (byte_of (h * 16 + l)).

(** The loop of [urlencoding_decode]; its early return is the [?]. *)
Fixpoint decode_loop (bytes : Bytes) : result Utf8Error Bytes :=
  match bytes with
  | [] => Ok []
  | b :: rest =>
      if decide (b = x2b) then
        let? out := decode_loop rest in Ok (x20 :: out)
      else
        match rest with
        | h1 :: h2 :: rest' =>
            if decide (b = x25) then
              let? _h := from_utf8 [h1; h2] in
              match from_str_radix_16 h1 h2 with
              | Some byte => let? out := decode_loop rest' in Ok (byte :: out)
              | None => let? out := decode_loop rest in Ok (b :: out)
              end
            else let? out := decode_loop rest in Ok (b :: out)
        | _ => let? out := decode_loop rest in Ok (b :: out)
        end
  end.

Definition urlencoding_decode (s : string) : result Utf8Error string :=
  let? out := decode_loop (bytes_of_string s) in from_utf8 out.

(** One pair of the query: the channel it names, if it does. *)
Definition channel_of_pair (pair : string) : option string :=
  match split_once "="%char pair with
  | None => None
  | Some (k, v) =>
      if decide (k ≠ "channel") then None
      else match urlencoding_decode v with
           | Ok decoded => if decide (decoded = "") then None else Some decoded
           | Err _ => None
           end
  end.

Definition channels_from_raw_query (query : option string) : list string :=
  match query with
  | None => []
  | Some q => omap channel_of_pair (split "&"%char q)
  end.

(** [authorization] is the header as a string, when it is one. *)
Definition token_from_headers (authorization : option string) : option string :=
  v ← authorization; strip_prefix "Bearer " v.

(** ** Responses *)

Definition OK : N := 200.
Definition BAD_REQUEST : N := 400.
Definition UNAUTHORIZED : N := 401.
Definition FORBIDDEN : N := 403.
Definition UNPROCESSABLE_ENTITY : N := 422.
Definition INTERNAL_SERVER_ERROR : N := 500.

Record Response : Type := mk_Response { status : N; body : string }.

Definition into_response (err : HubError) : Response :=
  let status :=
    match err with
    | EAuth _ => UNAUTHORIZED
    | EAcl _ | NotConnected _ => FORBIDDEN
    | ESchema _ => UNPROCESSABLE_ENTITY
    | _ => INTERNAL_SERVER_ERROR
    end in
  mk_Response status (show_hub_error err).

Record Event : Type := mk_Event { event : string; data : string }.

Section sse.
Context {W Str : Type} `{NO : Notifier} `{M : Mpsc}.
(** [serde_json::Value::String(..)]'s [Display] and the standard base64 alphabet. *)
Variables (json_string : string → string) (base64 : Bytes → string).

(** The text of a JSON object literal in a format string. *)
Definition quote : string := String (ascii_of_nat 34) EmptyString.
Definition json_object (fields : list (string * string)) : string :=
  "{" +:+ String.concat "," (map (λ '(k, v), quote +:+ k +:+ quote +:+ ":" +:+ v) fields) +:+ "}".

Definition frame_to_event (frame : ServerFrame) : Event :=
  match frame with
  | SF_Publication p =>
      mk_Event "publication"
        (json_object [("channel", json_string p.(publ_channel));
                      ("offset", show_u64 p.(publ_offset));
                      ("data", json_string (base64 p.(publ_data)))])
  | SF_Error e =>
      mk_Event "error"
        (json_object [("request_id", show_u64 e.(perr_request_id));
                      ("code", show_u64 e.(perr_code));
                      ("message", json_string e.(perr_message))])
  | SF_SubscribeOk ok =>
      mk_Event "subscribe-ok"
        (json_object [("request_id", show_u64 ok.(subok_request_id));
                      ("channel", json_string ok.(subok_channel))])
  | SF_UnsubscribeOk ok =>
      mk_Event "unsubscribe-ok"
        (json_object [("request_id", show_u64 ok.(unsubok_request_id));
                      ("channel", json_string ok.(unsubok_channel))])
  | SF_ConnectOk ok =>
      mk_Event "connect-ok"
        (json_object [("request_id", show_u64 ok.(conok_request_id));
                      ("subject", json_string ok.(conok_subject))])
  end.

(** ** The handlers *)

(** A session on a fresh outbox [o]. *)
Definition open_request (hub : @Hub W Str) (o capacity : N) (st : @HubSt W Str _ M) :
    N * HubSt :=
  open_session hub o
    (mk_HubSt st.(core) (<[o := mpsc_channel capacity]> st.(outboxes)) st.(world)).

(** The block both handlers share: connect with the bearer token, if there is
    one; the response is the early return. *)
Definition connect_request (hub : @Hub W Str) (session_id : N) (token : option string)
    (st : @HubSt W Str _ M) : option Response * HubSt :=
  match token with
  | Some token =>
      match handle_connect hub session_id 0 token st with
      | (Err err, st) => (Some (into_response err), close_session hub session_id st)
      | (Ok _, st) => (None, st)
      end
  | None =>
      if requires_connect hub
      then (Some (mk_Response UNAUTHORIZED "Authorization header required"),
            close_session hub session_id st)
      else (None, st)
  end.

(** [to_bytes(body, 16 MiB)] gives [content]. *)
Definition publish_handler (hub : @Hub W Str) (o : N) (channel : string)
    (authorization : option string) (content : result string Bytes) (st : @HubSt W Str _ M) :
    Response * HubSt :=
  match content with
  | Err e => (mk_Response BAD_REQUEST ("body: " +:+ e), st)
  | Ok bytes =>
      let '(session, st) := open_request hub o 8 st in
      let session_id := (deref st.(core) session).(id) in
      let '(resp, st) :=
        match connect_request hub session_id (token_from_headers authorization) st with
        | (Some resp, st) => (resp, st)
        | (None, st) =>
            let '(result, st) := handle_publish hub session_id channel bytes st in
            let st := close_session hub session_id st in
            match result with
            | Ok p => (mk_Response OK (json_object
                         [("channel", json_string p.(publ_channel));
                          ("offset", show_u64 p.(publ_offset))]
                         +:+ String (ascii_of_nat 10) EmptyString), st)
            | Err err => (into_response err, st)
            end
        end in
      (resp, release hub session (drop_receiver o st))
  end.

(** The subscribe loop, with its early return; [i] counts the channels. *)
Fixpoint subscribe_all (hub : @Hub W Str) (session_id i : N) (channels : list string)
    (st : @HubSt W Str _ M) : option Response * HubSt :=
  match channels with
  | [] => (None, st)
  | channel :: channels =>
      match handle_subscribe hub session_id i channel 0 st with
      | (Err err, st) => (Some (into_response err), close_session hub session_id st)
      | (Ok _, st) => subscribe_all hub session_id (i + 1) channels st
      end
  end.

(** The event stream that a successful subscribe returns. *)
Inductive sse_phase : Type := Live | Closing | Ended.
Record SseStream : Type := mk_SseStream {
  ss_session_id : N;
  ss_rx : N;
  ss_phase : sse_phase;
}.

(** The handler's own [Arc<Session>] goes when it returns. *)
Definition subscribe_handler (hub : @Hub W Str) (o : N) (query : option string)
    (authorization : option string) (st : @HubSt W Str _ M) : result Response SseStream * HubSt :=
  match channels_from_raw_query query with
  | [] => (Err (mk_Response BAD_REQUEST "missing `channel` query parameter"), st)
  | channels =>
      let '(session, st) := open_request hub o 1024 st in
      let session_id := (deref st.(core) session).(id) in
      match connect_request hub session_id (token_from_headers authorization) st with
      | (Some resp, st) => (Err resp, release hub session (drop_receiver o st))
      | (None, st) =>
          match subscribe_all hub session_id 0 channels st with
          | (Some resp, st) => (Err resp, release hub session (drop_receiver o st))
          | (None, st) => (Ok (mk_SseStream session_id o Live), release hub session st)
          end
      end
  end.

(** Polling the stream: [shutdown] is whether the notification, awaited since the
    first poll, has fired; [senders_gone] whether every sender of the outbox has
    been dropped. *)
Definition sse_poll (hub : @Hub W Str) (shutdown senders_gone : bool) (s : SseStream)
    (st : @HubSt W Str _ M) : option Event * SseStream * HubSt :=
  let closing := mk_SseStream s.(ss_session_id) s.(ss_rx) Closing in
  match s.(ss_phase) with
  | Live =>
      if shutdown then (None, closing, st)
      else match st.(outboxes) !! s.(ss_rx) with
           | None => (None, closing, st)
           | Some ch =>
               match mpsc_recv ch with
               | (Some frame, ch) =>
                   (Some (frame_to_event frame), s,
                    mk_HubSt st.(core) (<[s.(ss_rx) := ch]> st.(outboxes)) st.(world))
               | (None, _) => (None, if senders_gone then closing else s, st)
               end
           end
  | Closing =>
      (Some (mk_Event "close" ""), mk_SseStream s.(ss_session_id) s.(ss_rx) Ended,
       close_session hub s.(ss_session_id) (drop_receiver s.(ss_rx) st))
  | Ended => (None, s, st)
  end.

(** The client goes away: the whole stream is dropped, [chain]ed future included. *)
Definition sse_drop (s : SseStream) (st : @HubSt W Str _ M) : HubSt :=
  drop_receiver s.(ss_rx) st.
End sse.

(** What [from_str_radix] lets through. *)
Example plus_is_a_hex_digit : urlencoding_decode "%+A" = Ok (String (ascii_of_nat 10) "").
Proof. reflexivity. Qed.
