(* ===== verification/SseProps.v ===== *)
(** * Correctness of the SSE transport

    Percent-encoded channel lists are read back; a publish request leaves no
    session behind, on any path; a subscribe request that fails leaves none, and
    one that succeeds is cleaned up when its stream is polled to the end. *)
From S2P Require Import Prelude Utf8 Protocol ProtoWire Traits Session Hub HubInv HubReach.
From S2P Require Import HubSteps Ws Sse MemoryBroker Node HubProps.

(** ** The query *)

Definition hex_char (v : N) : Byte.byte := byte_of (if decide (v < 10)%N then v + 48 else v + 55).
Definition hex_hi (b : Byte.byte) : Byte.byte := hex_char (byte_val b / 16).
Definition hex_lo (b : Byte.byte) : Byte.byte := hex_char (byte_val b mod 16).

(** Every byte escaped: what [encodeURIComponent] may produce. *)
Definition percent_encode (s : string) : string :=
  string_of_bytes (concat (map (λ b, [x25; hex_hi b; hex_lo b]) (bytes_of_string s))).

(** [channel=..&channel=..]. *)
Fixpoint query_of (cs : list string) : string :=
  match cs with
  | [] => ""
  | [c] => "channel=" +:+ percent_encode c
  | c :: cs => "channel=" +:+ percent_encode c +:+ "&" +:+ query_of cs
  end.

Lemma hex_round_trip b :
  from_str_radix_16 (hex_hi b) (hex_lo b) = Some b ∧
  is_ok (from_utf8 [hex_hi b; hex_lo b]) = true ∧ hex_hi b ≠ x2b.
Proof. by destruct b; vm_compute. Qed.

Lemma decode_loop_encode bs :
  decode_loop (concat (map (λ b, [x25; hex_hi b; hex_lo b]) bs)) = Ok bs.
Proof.
  induction bs as [|b bs IH]; [done|]. simpl.
  destruct (hex_round_trip b) as (Hr & Hu & _).
  destruct (from_utf8 [hex_hi b; hex_lo b]) as [u|e]; [|done]. simpl.
  by rewrite Hr, IH.
Qed.

Lemma urlencoding_decode_encode s : is_str s → urlencoding_decode (percent_encode s) = Ok s.
Proof.
  intros Hs. unfold urlencoding_decode, percent_encode.
  rewrite bytes_of_string_of_bytes, decode_loop_encode. simpl. by apply from_utf8_bytes_of_string.
Qed.

(** Splitting at a character that does not occur in the pieces. *)
Lemma split_no c s : ¬ string_has c s → split c s = [s].
Proof.
  unfold string_has. induction s as [|a s IH]; [done|]. simpl. rewrite not_elem_of_cons.
  intros [Ha Hs]. rewrite decide_False by congruence. by rewrite IH.
Qed.

Lemma split_app c s t : ¬ string_has c s → split c (s +:+ String c t) = s :: split c t.
Proof.
  unfold string_has. induction s as [|a s IH]; simpl.
  - intros _. by rewrite decide_True.
  - rewrite not_elem_of_cons. intros [Ha Hs].
    rewrite decide_False by congruence. by rewrite IH.
Qed.

Lemma percent_encode_no c s :
  c ∈ ["&"%char; "="%char] → ¬ string_has c (percent_encode s).
Proof.
  intros Hc. unfold percent_encode. induction (bytes_of_string s) as [|b bs IH]; simpl.
  { unfold string_has. simpl. apply not_elem_of_nil. }
  unfold string_has in *. simpl. rewrite !not_elem_of_cons. split; [set_solver|].
  assert (Hb : c ≠ ascii_of_byte (hex_hi b) ∧ c ≠ ascii_of_byte (hex_lo b)).
  { apply elem_of_cons in Hc as [-> | ->%list_elem_of_singleton]; destruct b; by vm_compute. }
  destruct Hb. split; [done|]. split; [done|exact IH].
Qed.

Lemma channel_of_encoded c :
  is_str c → c ≠ "" → channel_of_pair ("channel=" +:+ percent_encode c) = Some c.
Proof.
  intros Hs Hne. unfold channel_of_pair.
  assert (Hsp : split_once "="%char ("channel=" +:+ percent_encode c)
                = Some ("channel", percent_encode c)).
  { apply split_once_Some. split; [done|]. vm_compute. set_solver. }
  rewrite Hsp. rewrite decide_False by (intros H; by apply H).
  rewrite urlencoding_decode_encode by done. by rewrite decide_False.
Qed.

(** A query built from any list of non-empty channel names, each escaped byte
    by byte, is parsed back to exactly that list, in order, whatever characters
    the names contain (separators, percent signs and non-ASCII included). *)
Theorem query_round_trip (cs : list string) (Hcs : Forall (λ c, is_str c ∧ c ≠ "") cs)
    (Hne : cs ≠ []) :
  channels_from_raw_query (Some (query_of cs)) = cs.
Proof.
  simpl. induction Hcs as [|c cs [Hs Hc] Hcs IH]; [done|].
  assert (Hno : ¬ string_has "&"%char ("channel=" +:+ percent_encode c)).
  { rewrite string_has_app. intros [H|H].
    - vm_compute in H. set_solver.
    - by apply percent_encode_no in H; [|set_solver]. }
  destruct cs as [|c2 cs].
  - simpl query_of. rewrite split_no by done. simpl. by rewrite channel_of_encoded.
  - change (query_of (c :: c2 :: cs))
      with ("channel=" +:+ percent_encode c +:+ "&" +:+ query_of (c2 :: cs)).
    rewrite string_app_assoc. change ("&" +:+ query_of (c2 :: cs))
      with (String "&" (query_of (c2 :: cs))).
    rewrite split_app by done. simpl omap. rewrite channel_of_encoded by done. f_equal. by apply IH.
Qed.

Lemma query_round_trip_witness :
  channels_from_raw_query (Some (query_of ["a&b=c%2B+"; "rooms.lobby"])) = ["a&b=c%2B+"; "rooms.lobby"].
Proof.
  apply (query_round_trip ["a&b=c%2B+"; "rooms.lobby"]); [|discriminate].
  repeat constructor; (vm_compute; reflexivity) || discriminate.
Defined.

(** ** What a request leaves behind *)

Section requests.
Context {W Str : Type} `{NO : Notifier} `{M : Mpsc}.
Variables (json_string : string → string) (base64 : Bytes → string).
Implicit Types (c : @HubCore Str _) (st : @HubSt W Str _ M) (hub : @Hub W Str).

(** The sessions, the transports' handles and the count of publications. *)
Definition still (R : gmap N N) (H : gset N) (n : N) (c : @HubCore Str _) : Prop :=
  c.(registry).(sessions) = R ∧ c.(held) = H ∧ c.(metrics).(publications_total) = n.

Lemma keeps_still_modify {A} R H n ptr (f : Session → A * Session) :
  keeps (still R H n) (modify_session ptr f : io (@HubSt W Str _ M) _ _).
Proof. intros st Hs. unfold modify_session. by destruct (f _). Qed.

Lemma keeps_still_require R H n hub ptr :
  keeps (still R H n) (require_claims hub ptr : io (@HubSt W Str _ M) _ _).
Proof.
  apply keeps_bind; [apply keeps_read|]. intros [cl|]; [apply keeps_ret|].
  destruct (allow_anonymous _).
  - apply keeps_bind; [apply keeps_still_modify|]. intros. apply keeps_ret.
  - apply keeps_bind; [apply keeps_read|]. intros. apply keeps_fail.
Qed.

Lemma keeps_get P sid : keeps P (get_session sid : io (@HubSt W Str _ M) _ _).
Proof. intros st HP. unfold get_session. by destruct (get _ _). Qed.

Lemma keeps_still_core R H n (f : @HubSt W Str _ M → HubSt) :
  (∀ st, still R H n st.(core) → still R H n (f st).(core)) →
  keeps (still R H n) (io_modify f).
Proof. apply keeps_modify. Qed.

#[local] Hint Resolve keeps_still_modify keeps_still_require keeps_get : keeps.

Lemma keeps_still_connect R H n hub sid rid tok :
  keeps (still R H n) (handle_connect hub sid rid tok : io (@HubSt W Str _ M) _ _).
Proof. unfold handle_connect. keeps_auto. Qed.

Lemma keeps_still_commit R H n hub sid rid p ch k cur stream o :
  keeps (still R H n)
    (commit_subscription hub sid rid p ch k cur stream o : io (@HubSt W Str _ M) _ _).
Proof.
  unfold commit_subscription. apply keeps_bind; [by intros st Hs|]. intros t.
  apply keeps_bind; [apply keeps_still_modify|]. intros [[]|stray].
  - apply keeps_bind; [by apply keeps_still_core|]. intros. apply keeps_ret.
  - apply keeps_bind; [|intros ?; keeps_auto]. apply keeps_still_core. intros st Hs.
    rewrite end_task_core. exact Hs.
Qed.

Lemma keeps_still_subscribe R H n hub sid rid ch since :
  keeps (still R H n) (handle_subscribe hub sid rid ch since : io (@HubSt W Str _ M) _ _).
Proof.
  unfold handle_subscribe. apply keeps_bind; [apply keeps_get|]. intros ptr.
  do 2 (apply keeps_bind; [eauto with keeps|]; intros).
  apply keeps_bind; [apply keeps_read|]. intros [|]; [apply keeps_fail|].
  do 2 (apply keeps_bind; [eauto with keeps|]; intros). destruct a2 as [stream|err]; [|keeps_auto].
  apply keeps_bind; [apply keeps_read|]. intros o.
  apply keeps_bind; [eauto with keeps|]. intros [[]|err]; [|keeps_auto].
  exact (keeps_still_commit R H n hub sid rid ptr ch (kind_for hub ch) a1 stream o).
Qed.

(** A publish counts exactly when it succeeds. *)
Lemma still_publish R H n hub sid ch data :
  triple (λ st, still R H n st.(core)) (handle_publish hub sid ch data : io (@HubSt W Str _ M) _ _)
    (λ _ st, still R H (n + 1) st.(core)) (λ _ st, still R H n st.(core)).
Proof.
  unfold handle_publish.
  assert (Hb : ∀ {A B} (m : io (@HubSt W Str _ M) HubError A) (k : A → io _ HubError B) Q,
    keeps (still R H n) m →
    (∀ a, triple (λ st, still R H n st.(core)) (k a) Q (λ _ st, still R H n st.(core))) →
    triple (λ st, still R H n st.(core)) (io_bind m k) Q (λ _ st, still R H n st.(core)))
    by (intros A B m k Q Hm Hk; eapply triple_bind; [exact Hm|exact Hk]).
  do 6 (apply Hb; [eauto with keeps|]; intros).
  intros st (H1 & H2 & H3). simpl. split; [done|]. split; [done|]. simpl. by rewrite H3.
Qed.

Lemma keeps_still_run {A} R H n (m : io (@HubSt W Str _ M) HubError A) st r st' :
  keeps (still R H n) m → still R H n st.(core) → m st = (r, st') → still R H n st'.(core).
Proof. intros Hm Hs Hr. specialize (Hm st Hs). rewrite Hr in Hm. by destruct r. Qed.

Lemma still_drop_arc R H n hub ptr st :
  still R H n st.(core) → still R H n (drop_arc hub ptr st).(core).
Proof.
  intros Hs. unfold drop_arc. destruct (referenced _ _); [done|]. simpl.
  by rewrite abort_tasks_core.
Qed.

Lemma still_close R H n hub sid st :
  still R H n st.(core) → still (delete sid R) H n (close_session hub sid st).(core).
Proof.
  intros (H1 & H2 & H3). unfold close_session, deregister.
  destruct (sessions (registry (core st)) !! sid) as [p|] eqn:E.
  - apply still_drop_arc. split; [|done]. simpl. by rewrite H1.
  - split; [|done]. simpl. by rewrite H1, delete_id by (by rewrite <-H1).
Qed.

Lemma still_release R H n hub ptr st :
  still R H n st.(core) → still R (H ∖ {[ptr]}) n (release hub ptr st).(core).
Proof.
  intros (H1 & H2 & H3). unfold release. apply still_drop_arc. split; [done|].
  split; [|done]. simpl. by rewrite H2.
Qed.

Lemma still_open hub o cap st :
  reachable hub st → (st.(core).(metrics).(sessions_opened_total) < u64_modulus)%N →
  let R := st.(core).(registry).(sessions) in
  let H := st.(core).(held) in
  let '(ptr, st') := open_request hub o cap st in
  let sid := (deref st'.(core) ptr).(id) in
  still (<[sid := ptr]> R) ({[ptr]} ∪ H) st.(core).(metrics).(publications_total) st'.(core) ∧
  R !! sid = None ∧ ptr ∉ H.
Proof.
  intros Hst Hlt. destruct (core_inv_reachable _ _ Hst) as (Hwf & [Hn _] & _).
  simpl. set (s := if allow_anonymous _ then _ else _).
  assert (Hd : deref (core (set_core (count_opened (mk_HubCore (register
      (next_id_ctr (registry (core st))) (next_ptr (core st)) (next_id (registry (core st))).2)
      (<[next_ptr (core st) := s]> (heap (core st))) (next_ptr (core st) + 1)
      ({[next_ptr (core st)]} ∪ held (core st)) (tasks (core st)) (next_task (core st))
      (metrics (core st)))) st)) (next_ptr (core st)) = s)
    by (unfold deref; simpl; by rewrite lookup_insert_eq).
  unfold deref at 1. simpl. rewrite lookup_insert_eq. simpl.
  assert (Hid : s.(id) = next_id_ctr (registry (core st)))
    by (subst s; by destruct (allow_anonymous _)).
  unfold deref. simpl. rewrite lookup_insert_eq. simpl. rewrite Hid.
  split; [done|]. split.
  - destruct (sessions _ !! _) as [p|] eqn:E; [|done].
    apply (cw_sess _ _ Hwf), (cw_fresh _ _ Hwf) in E. rewrite Hn, N.mod_small in E by done. lia.
  - intros Hh. apply (cw_held _ _ Hwf) in Hh as [x Hx]. apply (cw_fresh _ _ Hwf) in Hx. lia.
Qed.

Lemma still_connect_request R H n hub sid token st resp st' :
  still R H n st.(core) → connect_request hub sid token st = (resp, st') →
  match resp with
  | None => still R H n st'.(core)
  | Some r => still (delete sid R) H n st'.(core) ∧ r.(status) ≠ OK
  end.
Proof.
  intros Hs. unfold connect_request. destruct token as [token|].
  - destruct (handle_connect _ _ _ _ st) as [[ok|err] st1] eqn:E; intros [= <- <-];
      apply (keeps_still_run _ _ _ _ _ _ _ (keeps_still_connect R H n hub sid 0 token) Hs) in E.
    + done.
    + split; [by apply still_close|]. by destruct err.
  - destruct (requires_connect hub); intros [= <- <-]; [|done].
    split; [by apply still_close|done].
Qed.

Lemma still_drop_receiver R H n o st :
  still R H n st.(core) → still R H n (drop_receiver o st).(core).
Proof. done. Qed.

Lemma into_response_not_ok err : (into_response err).(status) ≠ OK.
Proof. by destruct err. Qed.

(** The end of a request: the temporary session is gone. *)
Lemma still_end R (H : gset N) n hub sid ptr o st :
  still (delete sid (<[sid := ptr]> R)) ({[ptr]} ∪ H) n st.(core) → R !! sid = None → ptr ∉ H →
  still R H n (release hub ptr (drop_receiver o st)).(core).
Proof.
  intros Hs HR HH. apply still_drop_receiver with (o:=o) in Hs.
  apply (still_release _ _ _ hub ptr) in Hs. rewrite delete_insert_id in Hs by done.
  by replace (({[ptr]} ∪ H) ∖ {[ptr]}) with H in Hs by set_solver.
Qed.

(** C33: a publish request over HTTP leaves the registry and the transports'
    handles exactly as they were, whether it fails to authenticate, is refused,
    or succeeds: its session never outlives it.  It answers 200 exactly when a
    publication was counted. *)
Theorem publish_request_leaves_no_session hub st o channel auth content
    (Hst : reachable hub st)
    (Hlt : (st.(core).(metrics).(sessions_opened_total) < u64_modulus)%N) :
  let '(resp, st') := publish_handler json_string hub o channel auth content st in
  let n := st.(core).(metrics).(publications_total) in
  st'.(core).(registry).(sessions) = st.(core).(registry).(sessions) ∧
  st'.(core).(held) = st.(core).(held) ∧
  st'.(core).(metrics).(publications_total)
  = (if decide (resp.(status) = OK) then n + 1 else n)%N.
Proof.
  unfold publish_handler. destruct content as [bytes|e]; [|done].
  pose proof (still_open hub o 8 st Hst Hlt) as Hopen.
  destruct (open_request hub o 8 st) as [ptr st1]. simpl in Hopen.
  destruct Hopen as (Hs1 & HR & HH). set (sid := id (deref (core st1) ptr)) in *.
  destruct (connect_request hub sid (token_from_headers auth) st1) as [[resp|] st2] eqn:E;
    apply (still_connect_request _ _ _ _ _ _ _ _ _ Hs1) in E.
  - destruct E as [Hs2 Hne]. apply (still_end _ _ _ hub sid ptr o) in Hs2; [|done..].
    destruct Hs2 as (-> & -> & ->). by rewrite decide_False.
  - pose proof (still_publish _ _ _ hub sid channel bytes st2 E) as Hp.
    destruct (handle_publish hub sid channel bytes st2) as [[p|err] st3];
      apply (still_close _ _ _ hub sid) in Hp;
      apply (still_end _ _ _ hub sid ptr o) in Hp; try done;
      destruct Hp as (-> & -> & ->); simpl.
    by destruct err.
Qed.

(** ** Subscribe requests *)

Lemma still_subscribe_all R H n hub sid i chs st resp st' :
  still R H n st.(core) → subscribe_all hub sid i chs st = (resp, st') →
  match resp with
  | None => still R H n st'.(core)
  | Some r => still (delete sid R) H n st'.(core) ∧ r.(status) ≠ OK
  end.
Proof.
  revert i st. induction chs as [|ch chs IH]; intros i st Hs; simpl; [by intros [= <- <-]|].
  destruct (handle_subscribe hub sid i ch 0 st) as [[ok|err] st1] eqn:E;
    apply (keeps_still_run _ _ _ _ _ _ _ (keeps_still_subscribe R H n hub sid i ch 0) Hs) in E.
  - by apply IH.
  - intros [= <- <-]. split; [by apply still_close|by destruct err].
Qed.

(** C34: a subscribe request over HTTP that fails (no channel, no or bad token, a
    channel refused, the same channel twice) leaves no session behind; one that
    succeeds leaves exactly one, registered and held by nobody but the registry,
    so that polling its stream past the end closes it and frees it, while
    dropping the stream, as a disconnecting client does, leaves it registered. *)
Theorem subscribe_request_sessions hub st o query auth
    (Hst : reachable hub st)
    (Hlt : (st.(core).(metrics).(sessions_opened_total) < u64_modulus)%N) :
  let '(r, st') := subscribe_handler hub o query auth st in
  let R := st.(core).(registry).(sessions) in
  st'.(core).(held) = st.(core).(held) ∧
  match r with
  | Err resp => st'.(core).(registry).(sessions) = R ∧ resp.(status) ≠ OK
  | Ok s =>
      R !! s.(ss_session_id) = None ∧
      (∃ ptr, st'.(core).(registry).(sessions) = <[s.(ss_session_id) := ptr]> R) ∧
      (sse_drop s st').(core).(registry).(sessions) = st'.(core).(registry).(sessions) ∧
      (sse_poll json_string base64 hub false true
         (mk_SseStream s.(ss_session_id) s.(ss_rx) Closing) st').2.(core).(registry).(sessions) = R
  end.
Proof.
  unfold subscribe_handler. destruct (channels_from_raw_query query) as [|ch chs]; [done|].
  pose proof (still_open hub o 1024 st Hst Hlt) as Hopen.
  destruct (open_request hub o 1024 st) as [ptr st1]. simpl in Hopen.
  destruct Hopen as (Hs1 & HR & HH). set (sid := id (deref (core st1) ptr)) in *.
  destruct (connect_request hub sid (token_from_headers auth) st1) as [[resp|] st2] eqn:E;
    apply (still_connect_request _ _ _ _ _ _ _ _ _ Hs1) in E.
  - destruct E as [Hs2 Hne]. apply (still_end _ _ _ hub sid ptr o) in Hs2; [|done..].
    by destruct Hs2 as (-> & -> & _).
  - destruct (subscribe_all hub sid 0 (ch :: chs) st2) as [[resp|] st3] eqn:E3;
      apply (still_subscribe_all _ _ _ _ _ _ _ _ _ _ E) in E3.
    + destruct E3 as [Hs3 Hne]. apply (still_end _ _ _ hub sid ptr o) in Hs3; [|done..].
      by destruct Hs3 as (-> & -> & _).
    + apply (still_release _ _ _ hub ptr) in E3.
      replace (({[ptr]} ∪ held (core st)) ∖ {[ptr]}) with (held (core st)) in E3 by set_solver.
      pose proof (still_close _ _ _ hub sid (drop_receiver o (release hub ptr st3)) E3) as Hcl.
      rewrite delete_insert_id in Hcl by done.
      pose proof E3 as (H1 & H2 & _). split; [done|]. split; [done|]. split; [eauto|].
      split; [done|]. simpl. apply Hcl.
Qed.
End requests.

Lemma publish_request_leaves_no_session_witness :
  let '(resp, st') := publish_handler (λ s, s) read_only_node 7 "rooms.lobby" None (Ok [x01])
                        (sample_open read_only_node) in
  resp.(status) = FORBIDDEN ∧ len st'.(core).(registry) = 1.
Proof.
  pose proof (publish_request_leaves_no_session (λ s, s) read_only_node (sample_open read_only_node)
    7 "rooms.lobby" None (Ok [x01]) (reachable_sample_open _) ltac:(vm_compute; reflexivity)) as H.
  assert (Hst : (publish_handler (λ s, s) read_only_node 7 "rooms.lobby" None (Ok [x01])
                   (sample_open read_only_node)).1.(status) = FORBIDDEN) by (vm_compute; reflexivity).
  destruct (publish_handler _ _ _ _ _ _ _) as [resp st']. destruct H as (H & _ & _).
  split; [exact Hst|]. unfold len. rewrite H. reflexivity.
Defined.

Lemma subscribe_request_sessions_witness :
  let '(r, st') := subscribe_handler open_node 7 (Some "channel=a&channel=a") None
                     (sample_open open_node) in
  is_ok r = false ∧ len st'.(core).(registry) = 1.
Proof.
  pose proof (subscribe_request_sessions (λ s, s) string_of_bytes open_node (sample_open open_node)
    7 (Some "channel=a&channel=a") None (reachable_sample_open _) ltac:(vm_compute; reflexivity)) as H.
  assert (Hst : is_ok (subscribe_handler open_node 7 (Some "channel=a&channel=a") None
                   (sample_open open_node)).1 = false) by (vm_compute; reflexivity).
  destruct (subscribe_handler _ _ _ _ _) as [[s|resp] st']; [discriminate Hst|].
  destruct H as (_ & H & _). split; [reflexivity|]. unfold len. rewrite H. reflexivity.
Defined.
