(* ===== verification/Admin.v ===== *)
(** * The admin API (crates/cherenkov-admin/src/lib.rs)

    Read-only views of the session registry and the disconnect endpoint, behind
    an optional bearer token.  Requests are what axum's router and extractors
    hand over; JSON bodies are the values that get serialised. *)
From stdpp Require Import sorting.
From S2P Require Import Prelude Protocol Traits Session Hub HubInv HubReach HubSteps.
From S2P Require Import PubSub MemoryBroker Node HubProps Async Race Service Running Linear Index.

Definition DEFAULT_API_PREFIX : string := "/admin/v1".

(** ** Bodies *)

Record HealthResponse : Type := mk_HealthResponse { hr_status : string; hr_sessions : nat }.

Record SessionSummary : Type := mk_SessionSummary {
  ss_id : N;
  ss_subject : option string;
  ss_channels : nat;
}.

Record SessionDetail : Type := mk_SessionDetail {
  sd_id : N;
  sd_subject : option string;
  sd_channels : list string;
}.

Record SubscribersResponse : Type := mk_SubscribersResponse {
  sr_channel : string;
  sr_subscribers : list N;
}.

Record DisconnectResponse : Type := mk_DisconnectResponse { dr_id : N; dr_removed : bool }.

Inductive Body : Type :=
| JsonHealth (b : HealthResponse)
| JsonSessions (b : list SessionSummary)
| JsonSession (b : SessionDetail)
| JsonSubscribers (b : SubscribersResponse)
| JsonDisconnect (b : DisconnectResponse)
| PlainText (s : string)
| ConsoleHtml.

Record Response : Type := mk_Response { status : N; body : Body }.

(** The routes of [router]. *)
Inductive ApiRequest : Type :=
| GetHealth
| GetSessions
| GetSession (id : N)
| PostDisconnect (id : N)
| GetSubscribers (channel : string)
| GetMetrics.

Inductive Request : Type := Api (r : ApiRequest) | GetConsole.

(** ** Resources *)

Section admin.
Context {W Str : Type} `{NO : Notifier} `{M : Mpsc}.
Implicit Types (c : @HubCore Str _) (st : @HubSt W Str _ M).

(** An [Arc<SessionRegistry>] is where in the memory the registry is (the hub's own,
    in the server); a Prometheus handle renders what was recorded. *)
Definition RegistryArc : Type := @HubCore Str _ → SessionRegistry.

Record AdminResources : Type := mk_AdminResources {
  res_sessions : option RegistryArc;
  res_hub : option (@Hub W Str);
  res_metrics : option (@HubCore Str _ → string);
  res_auth_token : option string;
}.

Definition resources_new (sessions : RegistryArc) : AdminResources :=
  mk_AdminResources (Some sessions) None None None.
Definition with_hub (hub : @Hub W Str) (r : AdminResources) : AdminResources :=
  mk_AdminResources r.(res_sessions) (Some hub) r.(res_metrics) r.(res_auth_token).
Definition with_metrics (m : @HubCore Str _ → string) (r : AdminResources) : AdminResources :=
  mk_AdminResources r.(res_sessions) r.(res_hub) (Some m) r.(res_auth_token).
Definition with_auth_token (token : string) (r : AdminResources) : AdminResources :=
  mk_AdminResources r.(res_sessions) r.(res_hub) r.(res_metrics) (Some token).

Record AppState : Type := mk_AppState {
  app_sessions : RegistryArc;
  app_hub : option (@Hub W Str);
  app_metrics : option (@HubCore Str _ → string);
  app_auth_token : option string;
}.

(** The state [router] builds; without a registry, an empty one nobody fills. *)
Definition app_state (r : AdminResources) : AppState :=
  mk_AppState (default (λ _, SessionRegistry_new) r.(res_sessions)) r.(res_hub) r.(res_metrics)
    r.(res_auth_token).

(** ** Handlers *)

Definition health (state : AppState) c : HealthResponse :=
  mk_HealthResponse "ok" (len (state.(app_sessions) c)).

Definition by_id (a b : SessionSummary) : Prop := (a.(ss_id) ≤ b.(ss_id))%N.

#[export] Instance by_id_dec : RelDecision by_id.
Proof. intros a b. unfold by_id. apply _. Defined.

Definition summary (s : Session) : SessionSummary :=
  mk_SessionSummary s.(id) (subject <$> s.(claims)) (length (session_channels s)).

(** [sort_by_key(|s| s.id)]. *)
Definition list_sessions (state : AppState) c : list SessionSummary :=
  merge_sort by_id ((λ ptr, summary (deref c ptr)) <$> snapshot (state.(app_sessions) c)).

Definition get_session (state : AppState) c (sid : N) : result Response SessionDetail :=
  match get (state.(app_sessions) c) sid with
  | None => Err (mk_Response 404 (PlainText "session not found"))
  | Some ptr =>
      let session := deref c ptr in
      Ok (mk_SessionDetail sid (subject <$> session.(claims)) (session_channels session))
  end.

Definition channel_subscribers (state : AppState) c (channel : string) : SubscribersResponse :=
  mk_SubscribersResponse channel (subscribers_of (state.(app_sessions) c) channel).

Definition disconnect_session (state : AppState) (sid : N) st :
    result Response DisconnectResponse * HubSt :=
  match state.(app_hub) with
  | None =>
      (Err (mk_Response 404
         (PlainText "disconnect endpoint not enabled (admin built without hub handle)")), st)
  | Some hub =>
      let '(removed, st) := kick_session hub sid st in
      (Ok (mk_DisconnectResponse sid removed), st)
  end.

Definition metrics_endpoint (state : AppState) c : Response :=
  match state.(app_metrics) with
  | Some render => mk_Response 200 (PlainText (render c))
  | None => mk_Response 503 (PlainText "metrics recorder not installed")
  end.

Definition respond {A} (json : A → Body) (r : result Response A) : Response :=
  match r with Ok a => mk_Response 200 (json a) | Err resp => resp end.

(** The handler the router picks. *)
Definition handle_api (state : AppState) (r : ApiRequest) st : Response * HubSt :=
  match r with
  | GetHealth => (mk_Response 200 (JsonHealth (health state st.(core))), st)
  | GetSessions => (mk_Response 200 (JsonSessions (list_sessions state st.(core))), st)
  | GetSession sid => (respond JsonSession (get_session state st.(core) sid), st)
  | PostDisconnect sid =>
      let '(r, st) := disconnect_session state sid st in (respond JsonDisconnect r, st)
  | GetSubscribers ch =>
      (mk_Response 200 (JsonSubscribers (channel_subscribers state st.(core) ch)), st)
  | GetMetrics => (metrics_endpoint state st.(core), st)
  end.

(** The middleware; [authorization] is the header as a string, when it is one. *)
Definition require_token (state : AppState) (authorization : option string)
    (next : @HubSt W Str _ M → Response * HubSt) st : Response * HubSt :=
  match state.(app_auth_token) with
  | None => next st
  | Some expected =>
      let provided := v ← authorization; strip_prefix "Bearer " v in
      match provided with
      | Some t =>
          if decide (t = expected) then next st
          else (mk_Response 401 (PlainText "missing or invalid Authorization: Bearer <token>"), st)
      | None =>
          (mk_Response 401 (PlainText "missing or invalid Authorization: Bearer <token>"), st)
      end
  end.

(** [router]: the middleware wraps the API, not the console. *)
Definition router (r : AdminResources) (authorization : option string) (req : Request) st :
    Response * HubSt :=
  let state := app_state r in
  match req with
  | Api req => require_token state authorization (handle_api state req) st
  | GetConsole => (mk_Response 200 ConsoleHtml, st)
  end.
End admin.

(** ** Properties *)

Section properties.
Context {W Str : Type} `{NO : Notifier} `{M : Mpsc}.
Implicit Types (c : @HubCore Str _) (st : @HubSt W Str _ M) (hub : @Hub W Str).

(** The header grants access to the API. *)
Definition authorized (expected auth : option string) : bool :=
  match expected with
  | None => true
  | Some t => bool_decide (auth = Some ("Bearer " +:+ t))
  end.

(** C35: with a token configured, an API request is handled exactly when its
    [Authorization] header is that token behind [Bearer ], and otherwise gets 401
    with nothing done; without one every request is handled, and the console
    always is.  No request but a disconnect changes the server's state, and a
    disconnect changes it only by kicking the session. *)
Theorem admin_token_gate (r : AdminResources) (auth : option string) (req : ApiRequest) st :
  router r auth (Api req) st
  = (if authorized r.(res_auth_token) auth then handle_api (app_state r) req st
     else (mk_Response 401 (PlainText "missing or invalid Authorization: Bearer <token>"), st)) ∧
  router r auth GetConsole st = (mk_Response 200 ConsoleHtml, st) ∧
  (handle_api (app_state r) req st).2
  = match req, r.(res_hub) with
    | PostDisconnect sid, Some hub => (kick_session hub sid st).2
    | _, _ => st
    end.
Proof.
  split; [|split; [done|]].
  - unfold router, require_token, authorized.
    change (app_auth_token (app_state r)) with (res_auth_token r).
    destruct (res_auth_token r) as [t|]; [|done].
    destruct auth as [v|]; [|by rewrite bool_decide_false].
    change (v ← Some v; strip_prefix "Bearer " v) with (strip_prefix "Bearer " v).
    destruct (strip_prefix "Bearer " v) as [t'|] eqn:E.
    + apply strip_prefix_Some in E as ->. destruct (decide (t' = t)) as [->|Hne].
      * by rewrite bool_decide_true.
      * rewrite bool_decide_false; [done|]. intros [= H]. by apply Hne.
    + rewrite bool_decide_false; [done|]. intros [= ->].
      rewrite (proj2 (strip_prefix_Some _ _ _) eq_refl) in E. done.
  - destruct req; simpl; try done. unfold disconnect_session. simpl.
    destruct (res_hub r) as [hub|]; [|done]. by destruct (kick_session hub id st).
Qed.

(** ** The views of a reachable state *)

Lemma elem_of_snapshot (reg : SessionRegistry) ptr :
  ptr ∈ snapshot reg ↔ ∃ sid, reg.(sessions) !! sid = Some ptr.
Proof.
  unfold snapshot. rewrite list_elem_of_fmap. split.
  - intros ([sid p] & -> & H%elem_of_map_to_list). eauto.
  - intros [sid H]. exists (sid, ptr). split; [done|]. by apply elem_of_map_to_list.
Qed.

Lemma list_sessions_ids hub c (Hok : arcs_but hub None c) :
  (λ ptr, (deref c ptr).(id)) <$> snapshot c.(registry) = ids c.(registry).
Proof.
  unfold snapshot, ids. rewrite <-list_fmap_compose. apply list_fmap_ext.
  intros i [sid ptr] H%list_elem_of_lookup_2%elem_of_map_to_list. simpl.
  by destruct (running_deref hub c sid ptr Hok H).
Qed.

#[export] Instance by_id_trans : Transitive by_id.
Proof. intros a b d. unfold by_id. lia. Qed.

#[export] Instance by_id_total : Total by_id.
Proof. intros a b. unfold by_id. lia. Qed.

Lemma StronglySorted_lt (l : list SessionSummary) :
  StronglySorted by_id l → NoDup (ss_id <$> l) → StronglySorted N.lt (ss_id <$> l).
Proof.
  induction 1 as [|x l Hs IH Hx]; simpl; [constructor|]. intros [Hnin Hnd]%NoDup_cons.
  constructor; [by apply IH|]. apply Forall_fmap. rewrite Forall_forall in *. intros y Hy.
  specialize (Hx y Hy). unfold by_id in Hx. simpl.
  assert (ss_id x ≠ ss_id y) by (intros E; apply Hnin; rewrite E; by apply list_elem_of_fmap_2).
  lia.
Qed.

Lemma elem_of_session_channels s ch :
  ch ∈ session_channels s ↔ has_subscription s ch = true.
Proof.
  unfold session_channels, has_subscription. rewrite bool_decide_eq_true, list_elem_of_fmap. split.
  - intros ([ch' t] & -> & Ht%elem_of_map_to_list). eauto.
  - intros [t Ht]. exists (ch, t). split; [done|]. by apply elem_of_map_to_list.
Qed.

(** C36: in every state the hub reaches, with any number of requests, forwarders,
    kicks and closes interleaved await by await (transports keep the handle of a
    session while a request of it is in flight), the endpoints agree: the list has
    one entry per registered session, by increasing id, with the subject and the
    number of channels its detail page shows; a registered session is among the
    subscribers of a channel exactly when the channel is on its detail page; the
    detail page of any other id is a 404, also of one that is still among the
    subscribers of a channel (C29); and the health check counts the entries of the
    list. *)
Theorem admin_views_agree hub (w0 : W) (R : @Running W Str NO M)
    (Hrun : rtc (running_step hub) (running_init w0) R) :
  let c := R.(hub_state).(core) in
  let state := app_state (resources_new (W:=W) registry) in
  let l := list_sessions state c in
  StronglySorted N.lt (ss_id <$> l) ∧
  (∀ sid, sid ∈ ss_id <$> l ↔ is_Some (get c.(registry) sid)) ∧
  Forall (λ s, ∃ d, get_session state c s.(ss_id) = Ok d ∧ d.(sd_id) = s.(ss_id) ∧
    d.(sd_subject) = s.(ss_subject) ∧ length d.(sd_channels) = s.(ss_channels)) l ∧
  (∀ sid, sid ∈ ss_id <$> l → ∀ ch,
     sid ∈ (channel_subscribers state c ch).(sr_subscribers) ↔
     ∃ d, get_session state c sid = Ok d ∧ ch ∈ d.(sd_channels)) ∧
  (∀ sid, sid ∉ ss_id <$> l →
     get_session state c sid = Err (mk_Response 404 (PlainText "session not found"))) ∧
  (health state c).(hr_sessions) = length l.
Proof.
  pose proof (running_arcs _ _ _ Hrun) as Hok. pose proof (running_index _ _ _ Hrun) as Hix.
  intros c. fold c in Hok, Hix. cbv zeta. set (l := list_sessions _ _).
  assert (Hperm : l ≡ₚ (λ ptr, summary (deref c ptr)) <$> snapshot c.(registry))
    by apply merge_sort_Permutation.
  assert (Hids : ss_id <$> l ≡ₚ ids c.(registry)).
  { rewrite Hperm, <-list_fmap_compose. rewrite <-(list_sessions_ids hub c Hok). done. }
  assert (Hin : ∀ sid, sid ∈ ss_id <$> l ↔ is_Some (get c.(registry) sid)).
  { intros sid. rewrite Hids. unfold ids, get. rewrite list_elem_of_fmap. split.
    - intros ([s p] & -> & H%elem_of_map_to_list). simpl. by rewrite H.
    - intros [p Hp]. exists (sid, p). split; [done|]. by apply elem_of_map_to_list. }
  split; [|split; [exact Hin|split; [|split; [|split]]]].
  - apply StronglySorted_lt.
    + apply (StronglySorted_merge_sort by_id).
    + rewrite Hids. apply NoDup_fst_map_to_list.
  - rewrite Hperm. apply Forall_fmap, Forall_forall. intros ptr [sid Hp]%elem_of_snapshot.
    destruct (running_deref hub c sid ptr Hok Hp) as [_ Hid]. simpl. rewrite Hid.
    unfold get_session, get. simpl. rewrite Hp. eauto.
  - intros sid [ptr Hp]%Hin ch. simpl. rewrite (running_listed hub c sid ptr ch Hok Hix Hp).
    unfold get_session. simpl. rewrite Hp, <- elem_of_session_channels. naive_solver.
  - intros sid Hnot. unfold get_session. simpl.
    destruct (get (registry c) sid) eqn:Hp; [|done]. destruct Hnot. apply Hin. eauto.
  - rewrite Hperm, length_fmap. unfold snapshot. rewrite length_fmap. simpl.
    unfold len. by rewrite length_map_to_list.
Qed.
End properties.

Lemma admin_views_agree_witness :
  let state := app_state (resources_new (W:=NodeW) registry) in
  let c := busy.(hub_state).(core) in
  ss_id <$> list_sessions state c = [1%N; 2%N] ∧ (health state c).(hr_sessions) = 2 ∧
  (channel_subscribers state c "rooms.lobby").(sr_subscribers) = [0%N] ∧
  get_session state c 0 = Err (mk_Response 404 (PlainText "session not found")).
Proof.
  intros state c.
  destruct (admin_views_agree open_node (node_init 4 1000 8) busy busy_runs)
    as (_ & _ & _ & _ & Hgone & Hlen).
  assert (ss_id <$> list_sessions state c = [1%N; 2%N]) as Hl by (vm_compute; reflexivity).
  split; [exact Hl|]. split; [|split; [vm_compute; reflexivity|]].
  - etransitivity; [exact Hlen|]. vm_compute. reflexivity.
  - apply Hgone. fold state c. rewrite Hl. apply (bool_decide_unpack _). vm_compute. exact Logic.I.
Defined.
