(* ===== verification/Config.v ===== *)
(** * Server configuration (crates/cherenkov-server/src/config.rs)

    The configuration tree with its defaults and the one check it does itself.
    Reading YAML and the environment is the crate figment's.  Addresses and paths
    are their text; a [BTreeMap] is its entries in the order of iteration. *)
From S2P Require Import Prelude SchemaRegistry.

Abbreviation BTreeMap := (λ A : Type, list (string * A)).

(** ** Transports *)

Record SseConfig : Type := mk_SseConfig { sse_listen : string; sse_path_prefix : string }.
Definition SseConfig_default : SseConfig := mk_SseConfig "127.0.0.1:7100" "/sse/v1".

Record WsConfig : Type := mk_WsConfig {
  ws_listen : string;
  ws_path : string;
  ws_outbox_capacity : N;
}.
Definition WsConfig_default : WsConfig := mk_WsConfig "127.0.0.1:7000" "/connect/v1" 1024.

Record TransportConfig : Type := mk_TransportConfig { tc_ws : WsConfig; tc_sse : option SseConfig }.
Definition TransportConfig_default : TransportConfig := mk_TransportConfig WsConfig_default None.

(** ** Broker *)

Inductive BrokerBackend : Type := Memory | Redis | Nats.

Record BrokerConfig : Type := mk_BrokerConfig {
  backend : BrokerBackend;
  broker_capacity : N;
  redis_url : option string;
  nats_url : option string;
}.
Definition BrokerConfig_default : BrokerConfig := mk_BrokerConfig Memory 1024 None None.

(** ** Admin, pub/sub, logging *)

Record AdminConfig : Type := mk_AdminConfig {
  admin_listen : string;
  enabled : bool;
  auth_token : option string;
}.
Definition AdminConfig_default : AdminConfig := mk_AdminConfig "127.0.0.1:7200" false None.

Record ChannelPubSubConfig : Type := mk_ChannelPubSubConfig {
  cfg_history_size : N;
  history_ttl_seconds : N;
}.
Definition ChannelPubSubConfig_default : ChannelPubSubConfig := mk_ChannelPubSubConfig 256 300.

(** [Duration::from_secs], in nanoseconds. *)
Definition history_ttl (self : ChannelPubSubConfig) : N :=
  (self.(history_ttl_seconds) * 1000000000)%N.

Inductive LogFormat : Type := LogJson | LogPretty.
Record LogConfig : Type := mk_LogConfig { level : string; format : LogFormat }.
Definition LogConfig_default : LogConfig := mk_LogConfig "info" LogPretty.

(** ** Channel kinds, authentication, ACL *)

Inductive ChannelKindName : Type := KindPubsub | KindCrdtYjs | KindCrdtAutomerge.
Definition ChannelKindsConfig : Type := BTreeMap ChannelKindName.

Record AuthConfig : Type := mk_AuthConfig {
  hmac_secret : string;
  cfg_audiences : list string;
  cfg_issuer : option string;
}.
Definition AuthConfig_default : AuthConfig := mk_AuthConfig "" [] None.

Inductive AclEffectConfig : Type := CfgAllow | CfgDeny.
Inductive AclActionConfig : Type := CfgSubscribe | CfgPublish | CfgAny.

Record AclRuleConfig : Type := mk_AclRuleConfig {
  arc_effect : AclEffectConfig;
  arc_channel : string;
  arc_subject : option string;
  arc_action : AclActionConfig;
}.

Record AclConfig : Type := mk_AclConfig { acl_rules : list AclRuleConfig; cfg_default_allow : bool }.
Definition AclConfig_default : AclConfig := mk_AclConfig [] false.

(** ** Schemas *)

Section config.
Context `{J : JsonEngine}.

Inductive SchemaKind : Type := JsonSchema.

Record NamespaceConfig : Type := mk_NamespaceConfig {
  nc_kind : SchemaKind;
  nc_schema : option Value;
  nc_schema_path : option string;
}.
Definition NamespaceConfig_default : NamespaceConfig := mk_NamespaceConfig JsonSchema None None.

Definition validate_schema_source (self : NamespaceConfig) : result string unit :=
  match self.(nc_schema), self.(nc_schema_path) with
  | None, None => Err "one of `schema` or `schema_path` must be set"
  | Some _, Some _ => Err "`schema` and `schema_path` are mutually exclusive"
  | _, _ => Ok ()
  end.

Definition NamespacesConfig : Type := BTreeMap NamespaceConfig.

Record ServerConfig : Type := mk_ServerConfig {
  sc_transport : TransportConfig;
  sc_broker : BrokerConfig;
  sc_channel_pubsub : ChannelPubSubConfig;
  sc_namespaces : NamespacesConfig;
  sc_auth : option AuthConfig;
  sc_acl : option AclConfig;
  sc_channel_kinds : ChannelKindsConfig;
  sc_admin : AdminConfig;
  sc_log : LogConfig;
}.
Definition ServerConfig_default : ServerConfig :=
  mk_ServerConfig TransportConfig_default BrokerConfig_default ChannelPubSubConfig_default []
    None None [] AdminConfig_default LogConfig_default.

(** The check is "exactly one source". *)
Lemma validate_schema_source_Ok c :
  is_ok (validate_schema_source c) = true ↔
    (∃ v, c.(nc_schema) = Some v ∧ c.(nc_schema_path) = None) ∨
    (∃ p, c.(nc_schema) = None ∧ c.(nc_schema_path) = Some p).
Proof.
  unfold validate_schema_source. destruct (nc_schema c), (nc_schema_path c); naive_solver.
Qed.
End config.

(** The repository's test of the check. *)
Example namespace_validate_schema_source `{J : JsonEngine} (v : Value) :
  validate_schema_source NamespaceConfig_default
  = Err "one of `schema` or `schema_path` must be set" ∧
  validate_schema_source (mk_NamespaceConfig JsonSchema (Some v) None) = Ok () ∧
  validate_schema_source (mk_NamespaceConfig JsonSchema (Some v) (Some "/dev/null"))
  = Err "`schema` and `schema_path` are mutually exclusive" ∧
  validate_schema_source (mk_NamespaceConfig JsonSchema None (Some "/dev/null")) = Ok ().
Proof. done. Qed.
