(* ===== verification/App.v ===== *)
(** * Putting a server together (crates/cherenkov-server/src/app.rs)

    [build_hub] turns a configuration into a hub: which objects it creates, how
    they share the memory, which misconfigurations stop the boot.  Binding
    sockets and spawning the transports are not modelled. *)
From Stdlib Require Import FunctionalExtensionality.
From S2P Require Import Prelude Protocol Traits PubSub MemoryBroker Remote Crdt NamespaceAcl.
From S2P Require Import SchemaRegistry Jwt Session Hub Config Admin.

Inductive ServerError : Type :=
| ServerHub (msg : string)
| ServerTransport (msg : string)
| ServerTask (msg : string)
| ServerSchema (msg : string)
| ServerAuth (msg : string)
| ServerAcl (msg : string)
| ServerBroker (msg : string).

Definition show_server_error (e : ServerError) : string :=
  match e with
  | ServerHub m => "hub configuration error: " +:+ m
  | ServerTransport m => "transport error: " +:+ m
  | ServerTask m => "transport task panicked: " +:+ m
  | ServerSchema m => "schema configuration error: " +:+ m
  | ServerAuth m => "auth configuration error: " +:+ m
  | ServerAcl m => "acl configuration error: " +:+ m
  | ServerBroker m => "broker configuration error: " +:+ m
  end.

(** ** Brokers of different stream types behind one [dyn Broker]

    The operations act on the part [l] of the memory; a stream of another broker
    is never polled or dropped through this one. *)
Definition dyn_broker {W S A B} (l : lens W S) (inject : A → B) (project : B → option A)
    (b : Broker S A) : Broker W B := {|
  broker_name := b.(broker_name);
  broker_subscribe t :=
    let! s := io_zoom l (broker_subscribe b t) in io_ret (inject s);
  broker_publish t p := io_zoom l (broker_publish b t p);
  stream_next s w :=
    match project s with
    | Some s => let '(r, x) := stream_next b s (view l w) in (r, update l x w)
    | None => (Pending, w)
    end;
  stream_drop s w :=
    match project s with
    | Some s => update l (stream_drop b s (view l w)) w
    | None => w
    end;
|}.

Section app.
(** [X] is the outside world: what the Redis and NATS clients are connected to. *)
Context {X : Type} `{F : !Fred X} `{AN : !AsyncNats X} `{C : ProstCodec} `{B : Broadcast}.
Context `{Y : YrsLib} `{A : AutomergeLib} `{J : JwtLib} `{G : GlobEngine} `{JS : JsonEngine}.
(** The files the configuration may name. *)
Variable read_file : string → result string Bytes.

(** ** The server's memory: the objects [build_hub] creates *)

Record AppW : Type := mk_AppW {
  aw_clock : N;
  aw_kind : PubSubChannel;
  aw_pubsub : string → PubSubChannel;
  aw_yjs : string → YjsChannel;
  aw_automerge : string → AutomergeChannel;
  aw_broker : MemoryBroker;
  aw_world : X;
}.

Inductive AppStream : Type :=
| MemoryStream (s : MemStream)
| RedisStreamOf (s : RedisStream (F:=F))
| NatsStreamOf (s : Subscriber).

Definition set_at {V} (ns : string) (v : V) (f : string → V) : string → V :=
  λ ns', if decide (ns' = ns) then v else f ns'.

Lemma set_at_id {V} ns (f : string → V) : set_at ns (f ns) f = f.
Proof. apply functional_extensionality. intros x. unfold set_at. case_decide; congruence. Qed.

Lemma set_at_set_at {V} ns v v' (f : string → V) : set_at ns v (set_at ns v' f) = set_at ns v f.
Proof. apply functional_extensionality. intros x. unfold set_at. by case_decide. Qed.

Lemma set_at_eq {V} ns v (f : string → V) : set_at ns v f ns = v.
Proof. unfold set_at. by rewrite decide_True. Qed.

#[local] Ltac app_lens :=
  intros; simpl; rewrite ?set_at_id, ?set_at_set_at, ?set_at_eq; try done;
  match goal with w : AppW |- _ => by destruct w end.

Definition kind_lens : lens AppW PubSubChannel.
Proof.
  refine {| view := aw_kind; update k w := mk_AppW w.(aw_clock) k w.(aw_pubsub) w.(aw_yjs)
              w.(aw_automerge) w.(aw_broker) w.(aw_world) |}; app_lens.
Defined.

Definition pubsub_lens (ns : string) : lens AppW PubSubChannel.
Proof.
  refine {| view w := w.(aw_pubsub) ns; update k w := mk_AppW w.(aw_clock) w.(aw_kind)
              (set_at ns k w.(aw_pubsub)) w.(aw_yjs) w.(aw_automerge) w.(aw_broker) w.(aw_world) |};
    app_lens.
Defined.

Definition yjs_lens (ns : string) : lens AppW YjsChannel.
Proof.
  refine {| view w := w.(aw_yjs) ns; update k w := mk_AppW w.(aw_clock) w.(aw_kind)
              w.(aw_pubsub) (set_at ns k w.(aw_yjs)) w.(aw_automerge) w.(aw_broker) w.(aw_world) |};
    app_lens.
Defined.

Definition automerge_lens (ns : string) : lens AppW AutomergeChannel.
Proof.
  refine {| view w := w.(aw_automerge) ns; update k w := mk_AppW w.(aw_clock) w.(aw_kind)
              w.(aw_pubsub) w.(aw_yjs) (set_at ns k w.(aw_automerge)) w.(aw_broker) w.(aw_world) |};
    app_lens.
Defined.

Definition broker_lens : lens AppW MemoryBroker.
Proof.
  refine {| view := aw_broker; update b w := mk_AppW w.(aw_clock) w.(aw_kind) w.(aw_pubsub)
              w.(aw_yjs) w.(aw_automerge) b w.(aw_world) |}; app_lens.
Defined.

Definition outside_lens : lens AppW X.
Proof.
  refine {| view := aw_world; update x w := mk_AppW w.(aw_clock) w.(aw_kind) w.(aw_pubsub)
              w.(aw_yjs) w.(aw_automerge) w.(aw_broker) x |}; app_lens.
Defined.

(** ** The pieces *)

Definition as_memory (s : AppStream) : option MemStream :=
  match s with MemoryStream s => Some s | _ => None end.
Definition as_redis (s : AppStream) : option (RedisStream (F:=F)) :=
  match s with RedisStreamOf s => Some s | _ => None end.
Definition as_nats (s : AppStream) : option Subscriber :=
  match s with NatsStreamOf s => Some s | _ => None end.

Definition build_broker (cfg : BrokerConfig) : io X ServerError (Broker AppW AppStream) :=
  match cfg.(backend) with
  | Memory => io_ret (dyn_broker broker_lens MemoryStream as_memory (memory_broker lens_id))
  | Redis =>
      let! url := io_of_result (ok_or cfg.(redis_url)
        (ServerBroker "broker.backend = redis requires broker.redis_url")) in
      let! b := io_map_err (λ e, ServerBroker (show_broker_error e))
                  (redis_connect (mk_RedisBrokerConfig url)) in
      io_ret (dyn_broker outside_lens RedisStreamOf as_redis (redis_broker b))
  | Nats =>
      let! url := io_of_result (ok_or cfg.(nats_url)
        (ServerBroker "broker.backend = nats requires broker.nats_url")) in
      let! b := io_map_err (λ e, ServerBroker (show_broker_error e))
                  (nats_connect (mk_NatsBrokerConfig url)) in
      io_ret (dyn_broker outside_lens NatsStreamOf as_nats (nats_broker b))
  end.

(** The schema of a namespace, once [validate_schema_source] has passed: the last
    case is the [unreachable!]. *)
Definition schema_value (namespace : string) (ns_cfg : NamespaceConfig) : result ServerError Value :=
  match ns_cfg.(nc_schema), ns_cfg.(nc_schema_path) with
  | Some value, None => Ok value
  | None, Some path =>
      let? bytes := result_map_err (λ e, ServerSchema ("namespace `" +:+ namespace
        +:+ "`: cannot read schema file " +:+ path +:+ ": " +:+ e)) (read_file path) in
      result_map_err (λ e, ServerSchema ("namespace `" +:+ namespace
        +:+ "`: schema file " +:+ path +:+ " is not valid JSON: " +:+ e)) (from_slice bytes)
  | _, _ => Err (ServerSchema "unreachable")
  end.

Fixpoint add_namespaces (builder : JsonSchemaRegistryBuilder)
    (namespaces : list (string * NamespaceConfig)) :
    result ServerError JsonSchemaRegistryBuilder :=
  match namespaces with
  | [] => Ok builder
  | (namespace, ns_cfg) :: rest =>
      let? _u := result_map_err (λ reason, ServerSchema ("namespace `" +:+ namespace
                   +:+ "`: " +:+ reason)) (validate_schema_source ns_cfg) in
      let? value := schema_value namespace ns_cfg in
      let? builder := result_map_err (λ err, ServerSchema (show_registry_error err))
                        (with_namespace builder namespace value) in
      add_namespaces builder rest
  end.

Definition build_schema_registry (namespaces : NamespacesConfig) :
    result ServerError JsonSchemaRegistry :=
  let? builder := add_namespaces builder_new namespaces in
  Ok (SchemaRegistry.build builder).

(** The builder of a configured section. *)
Definition jwt_configured (cfg : AuthConfig) : JwtAuthBuilder :=
  let builder := with_hmac_secret jwt_builder (bytes_of_string cfg.(hmac_secret)) in
  let builder := foldl with_audience builder cfg.(cfg_audiences) in
  match cfg.(cfg_issuer) with
  | Some iss => with_issuer builder iss
  | None => builder
  end.

(** The [expect] of [JwtAuthBuilder::build] holds: the secret was supplied
    ([jwt_configured_builds]). *)
Definition build_authenticator (auth : option AuthConfig) :
    result ServerError (Authenticator AppW) :=
  match auth with
  | None => Ok AllowAllAuthenticator
  | Some cfg =>
      if decide (cfg.(hmac_secret) = "") then
        Err (ServerAuth "auth.hmac_secret must not be empty")
      else
        match jwt_build (jwt_configured cfg) with
        | Some a => Ok (jwt_authenticator aw_clock a)
        | None => Err (ServerAuth "panic")
        end
  end.

Definition build_namespace_kind (namespace : string) (name : ChannelKindName) :
    ChannelKind AppW :=
  match name with
  | KindPubsub => pubsub_kind (pubsub_lens namespace) aw_clock
  | KindCrdtYjs => yjs_kind (yjs_lens namespace)
  | KindCrdtAutomerge => am_kind (automerge_lens namespace)
  end.

Definition build_namespace_kinds (cfg : ChannelKindsConfig) :
    list (string * ChannelKind AppW) :=
  (λ '(namespace, name), (namespace, build_namespace_kind namespace name)) <$> cfg.

(** One configured rule. *)
Definition compile_rule (rule : AclRuleConfig) : result ServerError AclRule :=
  let action := match rule.(arc_action) with
                | CfgSubscribe => MatchSubscribe
                | CfgPublish => MatchPublish
                | CfgAny => MatchAny
                end in
  let? compiled := result_map_err
    (λ e, ServerAcl ("invalid channel glob `" +:+ rule.(arc_channel) +:+ "`: "
                     +:+ show_glob_error e))
    (match rule.(arc_effect) with
     | CfgAllow => try_allow rule.(arc_channel) action
     | CfgDeny => try_deny rule.(arc_channel) action
     end) in
  match rule.(arc_subject) with
  | Some subject => result_map_err
      (λ e, ServerAcl ("invalid subject glob `" +:+ subject +:+ "`: " +:+ show_glob_error e))
      (with_subject compiled subject)
  | None => Ok compiled
  end.

Fixpoint add_rules (builder : NamespaceAcl) (rules : list AclRuleConfig) :
    result ServerError NamespaceAcl :=
  match rules with
  | [] => Ok builder
  | rule :: rules =>
      let? compiled := compile_rule rule in
      add_rules (with_rule builder compiled) rules
  end.

Definition build_acl (acl : option AclConfig) : result ServerError (AclChecker AppW) :=
  match acl with
  | None => Ok AllowAllAcl
  | Some cfg =>
      let? builder := add_rules (set_default_allow NamespaceAcl.builder cfg.(cfg_default_allow))
                        cfg.(acl_rules) in
      Ok (namespace_acl (NamespaceAcl.build builder))
  end.

(** ** The hub *)

Definition build_hub (config : ServerConfig) : io X ServerError (@Hub AppW AppStream) :=
  let kind := pubsub_kind kind_lens aw_clock in
  let! broker := build_broker config.(sc_broker) in
  let! validator := io_of_result (build_schema_registry config.(sc_namespaces)) in
  let! authenticator := io_of_result (build_authenticator config.(sc_auth)) in
  let! acl := io_of_result (build_acl config.(sc_acl)) in
  let builder := HubBuilder_new (T:=unit) in
  let builder := with_channel_kind builder kind in
  let builder := with_broker builder broker in
  let builder := with_schema_validator builder (json_schema_registry validator) in
  let builder := with_authenticator builder authenticator in
  let builder := with_acl_checker builder acl in
  let builder := foldl (λ b '(namespace, kind), with_channel_kind_for b namespace kind) builder
                   (build_namespace_kinds config.(sc_channel_kinds)) in
  let! built := io_of_result (result_map_err ServerHub (Hub.build builder)) in
  io_ret built.1.

(** The objects as they are created, next to the world the clients connected to. *)
Definition app_memory (config : ServerConfig) (now : N) (x : X) : AppW :=
  mk_AppW now
    (with_bounds config.(sc_channel_pubsub).(cfg_history_size)
       (Config.history_ttl config.(sc_channel_pubsub)))
    (λ _, PubSub.new) (λ _, yjs_new) (λ _, am_new)
    (with_capacity config.(sc_broker).(broker_capacity)) x.

(** The resources [run] gives the admin router. *)
Definition admin_resources `{NO : Notifier} (config : ServerConfig) (hub : @Hub AppW AppStream)
    (render : @HubCore AppStream NO → string) : @AdminResources AppW AppStream NO :=
  let resources := with_hub hub (resources_new registry) in
  let resources := with_metrics render resources in
  match config.(sc_admin).(Config.auth_token) with
  | Some token => with_auth_token token resources
  | None => resources
  end.
End app.
