(* ===== verification/AppProps.v ===== *)
(** * What a configuration boots into

    The configured ACL decides by its first matching rule, and [build_hub]
    accepts exactly the well-formed configurations. *)
From S2P Require Import Prelude Protocol Traits PubSub MemoryBroker Remote Crdt NamespaceAcl.
From S2P Require Import ProtoWire SchemaRegistry Jwt Session Hub Config Admin App.

(** ** The ACL *)

Section acl.
Context `{G : GlobEngine}.

Definition glob_ok (p : string) : bool := is_ok (glob_new p).
Definition glob_matches (p s : string) : bool :=
  match glob_new p with Ok m => is_match m s | Err _ => false end.

Definition rule_ok (rule : AclRuleConfig) : bool :=
  glob_ok rule.(arc_channel) &&
  match rule.(arc_subject) with Some p => glob_ok p | None => true end.

Definition config_covers (a : AclActionConfig) (action : AclAction) : bool :=
  match a, action with
  | CfgAny, _ | CfgSubscribe, ActSubscribe | CfgPublish, ActPublish => true
  | _, _ => false
  end.

(** What a rule of the configuration says, read off its text. *)
Definition config_matches (rule : AclRuleConfig) (claims : SessionClaims) (action : AclAction)
    (channel : string) : bool :=
  config_covers rule.(arc_action) action && glob_matches rule.(arc_channel) channel &&
  match rule.(arc_subject) with
  | Some p => glob_matches p claims.(subject)
  | None => true
  end.

Definition config_decision (cfg : AclConfig) (claims : SessionClaims) (action : AclAction)
    (channel : string) : AclDecision :=
  match List.find (λ r, config_matches r claims action channel) cfg.(acl_rules) with
  | Some r => match r.(arc_effect) with CfgAllow => Allow | CfgDeny => Deny end
  | None => if cfg.(cfg_default_allow) then Allow else Deny
  end.

(** A compiled rule behaves as the configured one. *)
Definition compiles_to (rule : AclRuleConfig) (r : AclRule) : Prop :=
  (∀ claims action channel,
     rule_matches r claims action channel = config_matches rule claims action channel) ∧
  r.(effect) = match rule.(arc_effect) with CfgAllow => EffectAllow | CfgDeny => EffectDeny end.

Lemma compile_rule_spec (rule : AclRuleConfig) :
  match compile_rule rule with
  | Ok r => rule_ok rule = true ∧ compiles_to rule r
  | Err e => rule_ok rule = false ∧ ∃ msg, e = ServerAcl msg
  end.
Proof.
  unfold compile_rule, rule_ok, compiles_to, config_matches, glob_ok, glob_matches.
  set (action := match arc_action rule with CfgSubscribe => _ | _ => _ end).
  assert (Hc : ∀ a, covers action a = config_covers rule.(arc_action) a)
    by (intros a; subst action; by destruct (arc_action rule), a).
  unfold try_allow, try_deny, AclRule_new.
  destruct (glob_new (arc_channel rule)) as [m|e]; destruct (arc_effect rule); simpl; eauto.
  all: destruct (arc_subject rule) as [p|]; simpl.
  all: unfold with_subject; try destruct (glob_new p) as [ms|e]; simpl; eauto.
  all: split; [done|]; split; [|done]; intros claims a channel; unfold rule_matches; simpl; rewrite Hc.
  all: destruct (config_covers _ _); simpl; try done.
  all: try destruct (is_match ms _); simpl; rewrite ?andb_true_r, ?andb_false_r; done.
Qed.

Lemma add_rules_spec rules (b : NamespaceAcl) :
  match add_rules b rules with
  | Ok b' => Forall (λ r, rule_ok r = true) rules ∧ b'.(default_allow) = b.(default_allow) ∧
      ∃ rs, b'.(NamespaceAcl.rules) = b.(NamespaceAcl.rules) ++ rs ∧ Forall2 compiles_to rules rs
  | Err e => ¬ Forall (λ r, rule_ok r = true) rules ∧ ∃ msg, e = ServerAcl msg
  end.
Proof.
  revert b. induction rules as [|rule rules IH]; intros b; simpl.
  - split; [constructor|]. split; [done|]. exists []. by rewrite app_nil_r.
  - pose proof (compile_rule_spec rule) as Hr. destruct (compile_rule rule) as [r|e]; simpl.
    + destruct Hr as [Hok Hr]. specialize (IH (with_rule b r)).
      destruct (add_rules (with_rule b r) rules) as [b'|e].
      * destruct IH as (H1 & H2 & rs & H3 & H4). split; [by constructor|]. split; [done|].
        exists (r :: rs). rewrite H3. simpl. split; [by rewrite <-app_assoc|by constructor].
      * destruct IH as [H1 H2]. split; [|done]. intros H. inversion H. by apply H1.
    + destruct Hr as [Hok Hr]. split; [|done]. intros H. inversion H. congruence.
Qed.

Lemma check_rules_config rules rs d claims action channel :
  Forall2 compiles_to rules rs →
  check_rules rs d claims action channel
  = config_decision (mk_AclConfig rules d) claims action channel.
Proof.
  unfold config_decision. simpl. induction 1 as [|rule r rules rs [Hm He] _ IH]; [done|]. simpl.
  rewrite Hm, He. destruct (config_matches rule claims action channel); [|done].
  by destruct (arc_effect rule).
Qed.
End acl.

(** ** Schemas, authentication, channel kinds *)

Section pieces.
Context {X : Type} `{F : !Fred X} `{AN : !AsyncNats X} `{C : ProstCodec} `{B : Broadcast}.
Context `{Y : YrsLib} `{A : AutomergeLib} `{J : JwtLib} `{G : GlobEngine} `{JS : JsonEngine}.
Variable read_file : string → result string Bytes.

(** The schema a declaration stands for: exactly one source, which can be read,
    parsed and compiled. *)
Definition resolve (e : string * NamespaceConfig) : option (string * Value) :=
  if is_ok (validate_schema_source e.2) then
    match schema_value read_file e.1 e.2 with
    | Ok v => if is_ok (validator_for v) then Some (e.1, v) else None
    | Err _ => None
    end
  else None.

Lemma schema_value_error ns cfg e :
  is_ok (validate_schema_source cfg) = true → schema_value read_file ns cfg = Err e →
  ∃ msg, e = ServerSchema ("namespace `" +:+ msg).
Proof.
  unfold validate_schema_source, schema_value.
  destruct (nc_schema cfg), (nc_schema_path cfg) as [path|]; try done; intros _.
  destruct (read_file path) as [bytes|err]; simpl; [destruct (from_slice bytes); simpl|];
    intros [= <-]; eauto.
Qed.

Lemma add_namespaces_spec nss b :
  match mapM resolve nss with
  | Some l => ∃ b', add_namespaces read_file b nss = Ok b' ∧ with_namespaces b l = Ok b'
  | None => ∃ msg, add_namespaces read_file b nss = Err (ServerSchema msg) ∧ msg ≠ "unreachable"
  end.
Proof.
  revert b. induction nss as [|[ns cfg] nss IH]; intros b; [simpl; by eexists|].
  change (mapM resolve ((ns, cfg) :: nss))
    with (y ← resolve (ns, cfg); k ← mapM resolve nss; mret (y :: k)).
  set (R := mapM resolve nss) in *. unfold resolve. simpl.
  destruct (validate_schema_source cfg) as [[]|reason] eqn:Ev; simpl; [|by eexists].
  pose proof (schema_value_error ns cfg) as Hs. rewrite Ev in Hs.
  destruct (schema_value read_file ns cfg) as [v|e]; simpl.
  - destruct (validator_for v) as [va|err] eqn:Hv; simpl.
    + set (b1 := mk_builder (<[ns:=va]> (builder_schemas b))).
      assert (Hw : with_namespace b ns v = Ok b1) by (unfold with_namespace; by rewrite Hv).
      specialize (IH b1). destruct R as [l|]; simpl; rewrite Hw; exact IH.
    + unfold with_namespace. rewrite Hv. simpl. by eexists.
  - destruct (Hs e eq_refl eq_refl) as [msg ->]. by eexists.
Qed.

Lemma jwt_configured_builds (cfg : AuthConfig) : is_Some (jwt_build (jwt_configured cfg)).
Proof.
  assert (Hs : secret (jwt_configured cfg) = Some (bytes_of_string cfg.(hmac_secret))).
  { unfold jwt_configured.
    assert (Hf : ∀ l b, secret (foldl with_audience b l) = secret b)
      by (induction l as [|a l IH]; intros b; simpl; [done|by rewrite IH]).
    destruct (cfg_issuer cfg); simpl; by rewrite Hf. }
  unfold jwt_build. rewrite Hs. eauto.
Qed.

(** Registering kinds one by one. *)
Lemma namespace_kinds_fold {T W Str} (l : list (string * ChannelKind W)) (b : @HubBuilder W Str T) :
  let b' := foldl (λ b '(ns, k), with_channel_kind_for b ns k) b l in
  b_kind T b' = b_kind T b ∧ b_broker T b' = b_broker T b ∧ b_validator T b' = b_validator T b ∧
  b_authenticator T b' = b_authenticator T b ∧ b_acl T b' = b_acl T b ∧
  b_namespace_kinds T b' = foldl (λ m '(ns, k), <[ns := k]> m) (b_namespace_kinds T b) l.
Proof.
  revert b. induction l as [|[ns k] l IH]; intros b; [done|].
  exact (IH (with_channel_kind_for b ns k)).
Qed.

Lemma foldl_insert_lookup {V} (l : list (string * V)) (m : gmap string V) ns :
  NoDup l.*1 →
  (∀ v, (ns, v) ∈ l → foldl (λ m '(ns, k), <[ns := k]> m) m l !! ns = Some v) ∧
  (ns ∉ l.*1 → foldl (λ m '(ns, k), <[ns := k]> m) m l !! ns = m !! ns).
Proof.
  revert m. induction l as [|[ns' v'] l IH]; intros m; simpl.
  - intros _. split; [|done]. intros v Hv. by apply elem_of_nil in Hv.
  - intros [Hnin Hnd]%NoDup_cons. destruct (IH (<[ns':=v']> m) Hnd) as [IH1 IH2]. split.
    + intros v [[= -> ->]|Hv]%elem_of_cons; [|by apply IH1].
      rewrite IH2 by done. by rewrite lookup_insert_eq.
    + rewrite not_elem_of_cons. intros [Hne Hn]. rewrite IH2 by done.
      by rewrite lookup_insert_ne.
Qed.

(** ** Properties *)

(** C23: the server's ACL is the one written in the configuration: when every glob
    compiles, a request is decided by the first rule whose action, channel glob
    and subject glob (if any) match, else by the default; one bad glob stops the
    boot with an ACL error; without an [acl] section everything is allowed. *)
Theorem server_acl_first_match (cfg : AclConfig) (w : AppW (X:=X)) :
  (Forall (λ r, rule_ok r = true) cfg.(acl_rules) →
   ∃ acl, build_acl (X:=X) (Some cfg) = Ok acl ∧
     ∀ claims action channel,
       check acl claims action channel w = (Ok (config_decision cfg claims action channel), w)) ∧
  (¬ Forall (λ r, rule_ok r = true) cfg.(acl_rules) →
   ∃ msg, build_acl (X:=X) (Some cfg) = Err (ServerAcl msg)) ∧
  (∃ acl, build_acl (X:=X) None = Ok acl ∧
     ∀ claims action channel, check acl claims action channel w = (Ok Allow, w)).
Proof.
  pose proof (add_rules_spec cfg.(acl_rules)
    (set_default_allow NamespaceAcl.builder cfg.(cfg_default_allow))) as H.
  simpl. destruct (add_rules _ _) as [b|e]; simpl.
  - destruct H as (Hok & Hd & rs & Hrs & Hc). split; [intros _|split; [done|eauto]].
    eexists. split; [done|]. intros claims action channel. simpl. unfold namespace_check.
    simpl. rewrite Hrs, Hd, (check_rules_config (acl_rules cfg)) by done. by destruct cfg.
  - destruct H as (Hok & msg & ->). split; [done|]. split; eauto.
Qed.

(** The well-formed configurations of a server with the in-process broker. *)
Definition config_valid (config : ServerConfig) : Prop :=
  is_Some (mapM resolve config.(sc_namespaces)) ∧
  (∀ a, config.(sc_auth) = Some a → a.(hmac_secret) ≠ "") ∧
  (∀ a, config.(sc_acl) = Some a → Forall (λ r, rule_ok r = true) a.(acl_rules)).

Lemma build_authenticator_spec (auth : option AuthConfig) :
  match build_authenticator (X:=X) auth with
  | Ok a => (∀ c, auth = Some c → c.(hmac_secret) ≠ "") ∧
      Traits.allow_anonymous a = bool_decide (auth = None)
  | Err e => (∃ c, auth = Some c ∧ c.(hmac_secret) = "") ∧
      e = ServerAuth "auth.hmac_secret must not be empty"
  end.
Proof.
  destruct auth as [cfg|]; simpl; [|done]. case_decide as Hs; [eauto|].
  destruct (jwt_configured_builds cfg) as [a ->]. split; [|done]. by intros c [= <-].
Qed.

Lemma build_acl_spec (acl : option AclConfig) :
  match build_acl (X:=X) acl with
  | Ok _ => ∀ a, acl = Some a → Forall (λ r, rule_ok r = true) a.(acl_rules)
  | Err e => (∃ a, acl = Some a ∧ ¬ Forall (λ r, rule_ok r = true) a.(acl_rules)) ∧
      ∃ msg, e = ServerAcl msg
  end.
Proof.
  destruct acl as [cfg|]; simpl; [|done].
  pose proof (add_rules_spec cfg.(acl_rules)
    (set_default_allow NamespaceAcl.builder cfg.(cfg_default_allow))) as H.
  destruct (add_rules _ _) as [b|e]; simpl.
  - destruct H as [H _]. by intros a [= <-].
  - destruct H as [H Hm]. eauto.
Qed.

(** C22: with the in-process broker, a server boots exactly on the well-formed
    configurations: every namespace has one schema source that can be read,
    parsed and compiled, the HMAC secret is not empty, every ACL glob compiles;
    otherwise it stops with a schema, auth or ACL error.  The hub it boots asks
    for a connect exactly when there is an [auth] section, validates a payload
    against the schema declared for its namespace, and routes the channels of a
    listed namespace to that namespace's own channel kind and all others to the
    shared pub/sub kind. *)
Theorem build_hub_boots (config : ServerConfig) (x : X)
    (Hmem : config.(sc_broker).(backend) = Memory)
    (Hkeys : NoDup (config.(sc_channel_kinds)).*1) :
  match build_hub read_file config x with
  | (Ok hub, x') =>
      x' = x ∧ config_valid config ∧
      requires_connect hub = negb (bool_decide (config.(sc_auth) = None)) ∧
      (∀ l ch data w, mapM resolve config.(sc_namespaces) = Some l →
         (validate hub.(validator) ch data w).1 = Ok () ↔
         conforms (last_schema l (SchemaRegistry.namespace_of ch)) data) ∧
      (∀ ch name, (Hub.namespace_of ch, name) ∈ config.(sc_channel_kinds) →
         kind_for hub ch = build_namespace_kind (Hub.namespace_of ch) name) ∧
      (∀ ch, Hub.namespace_of ch ∉ (config.(sc_channel_kinds)).*1 →
         kind_for hub ch = pubsub_kind kind_lens aw_clock)
  | (Err e, x') =>
      x' = x ∧ ¬ config_valid config ∧
      ∃ msg, e = ServerSchema msg ∨ e = ServerAuth msg ∨ e = ServerAcl msg
  end.
Proof.
  pose proof (add_namespaces_spec config.(sc_namespaces) builder_new) as Hns.
  pose proof (build_authenticator_spec config.(sc_auth)) as Hau.
  pose proof (build_acl_spec config.(sc_acl)) as Hac.
  unfold build_hub, build_broker, build_schema_registry, config_valid. rewrite Hmem.
  unfold io_bind, io_of_result, io_ret.
  destruct (mapM resolve (sc_namespaces config)) as [l|] eqn:El.
  2: { destruct Hns as (msg & -> & _). simpl. split; [done|]. split; [by intros [[? ?] _]|eauto]. }
  destruct Hns as (b & -> & Hb). cbn [result_bind].
  destruct (build_authenticator (sc_auth config)) as [a|e].
  2: { destruct Hau as ((c & Hc & Hs) & ->). split; [done|].
       split; [intros (_ & H & _); by apply (H c)|eauto]. }
  destruct Hau as [Hsec Hanon].
  destruct (build_acl (sc_acl config)) as [acl|e].
  2: { destruct Hac as ((c & Hc & Hbad) & msg & ->). split; [done|].
       split; [intros (_ & _ & H); by apply Hbad, (H c)|eauto]. }
  set (b0 := with_acl_checker _ acl).
  destruct (namespace_kinds_fold (build_namespace_kinds config.(sc_channel_kinds)) b0)
    as (Hk1 & Hk2 & Hk3 & Hk4 & Hk5 & Hk6).
  set (b1 := foldl _ b0 _) in *.
  unfold Hub.build. rewrite Hk1, Hk2, Hk3, Hk4, Hk5, Hk6. simpl.
  split; [done|]. split; [eauto|]. split; [unfold requires_connect; simpl; by rewrite Hanon|].
  split; [|].
  { intros l' ch data w [= <-]. by apply registry_validate_conforms. }
  pose proof (foldl_insert_lookup (build_namespace_kinds (X:=X) config.(sc_channel_kinds)) ∅) as Hl.
  assert (Hkeys' : (build_namespace_kinds (X:=X) config.(sc_channel_kinds)).*1 = (sc_channel_kinds config).*1).
  { unfold build_namespace_kinds. rewrite <-list_fmap_compose. by apply list_fmap_ext; intros ? []. }
  unfold kind_for. simpl. rewrite Hkeys' in Hl. split.
  - intros ch name Hin. destruct (Hl (Hub.namespace_of ch) Hkeys) as [H _].
    erewrite H; [done|]. apply list_elem_of_fmap. by exists (Hub.namespace_of ch, name).
  - intros ch Hn. destruct (Hl (Hub.namespace_of ch) Hkeys) as [_ H]. by rewrite H.
Qed.
End pieces.

(** ** Witnesses *)

Section witnesses.
#[local] Existing Instances QueueFred QueueNats QueueBroadcast ListYrs ListAutomerge PlainJwt
  StarGlob LengthJson.

Definition sample_acl : AclConfig :=
  mk_AclConfig [mk_AclRuleConfig CfgDeny "admin.*" None CfgAny;
                mk_AclRuleConfig CfgAllow "*" (Some "alice") CfgSubscribe] false.

(** One schema, a secret with an audience and an issuer, an ACL, a Y.js namespace. *)
Definition sample_config (secret : string) : ServerConfig :=
  mk_ServerConfig TransportConfig_default BrokerConfig_default ChannelPubSubConfig_default
    [("orders", mk_NamespaceConfig JsonSchema (Some (3 : Value)) None)]
    (Some (mk_AuthConfig secret ["chat"] (Some "idp"))) (Some sample_acl) [("docs", KindCrdtYjs)]
    AdminConfig_default LogConfig_default.

Definition sample_memory : AppW :=
  app_memory (sample_config "k") 0 (([], []) : Queues).

Definition sample_boot (secret : string) : result ServerError (@Hub AppW AppStream) * Queues :=
  build_hub (X:=Queues) (λ _, Err "no such file") (sample_config secret) ([], []).
End witnesses.

Lemma server_acl_first_match_witness :
  config_decision (G:=StarGlob) sample_acl (mk_SessionClaims "alice" [] 0) ActSubscribe "rooms.a"
  = Allow ∧
  config_decision (G:=StarGlob) sample_acl (mk_SessionClaims "alice" [] 0) ActSubscribe "admin.a"
  = Deny ∧
  is_ok (build_acl (G:=StarGlob) (X:=Queues) (B:=QueueBroadcast) (Y:=ListYrs)
    (A:=ListAutomerge) (Some sample_acl)) = true.
Proof.
  split; [reflexivity|]. split; [reflexivity|].
  destruct (proj1 (server_acl_first_match (G:=StarGlob) sample_acl sample_memory)) as (acl & H & _).
  - repeat constructor.
  - rewrite H. reflexivity.
Defined.

Lemma build_hub_boots_witness :
  is_ok (sample_boot "k").1 = true ∧ is_ok (sample_boot "").1 = false.
Proof.
  pose proof (build_hub_boots (X:=Queues) (F:=QueueFred) (AN:=QueueNats) (B:=QueueBroadcast) (Y:=ListYrs)
    (A:=ListAutomerge) (J:=PlainJwt) (G:=StarGlob) (JS:=LengthJson) (λ _, Err "no such file")
    (sample_config "") ([], []) eq_refl ltac:(repeat constructor; apply not_elem_of_nil)) as H.
  split; [vm_compute; reflexivity|]. fold (sample_boot "") in H.
  destruct (sample_boot "") as [[hub|e] x']; [|reflexivity].
  destruct H as (_ & (_ & Hs & _) & _). exfalso. by apply (Hs _ eq_refl).
Defined.
