(* ===== verification/Security.v ===== *)
(** * Access control of the configured server

    What Access.v traces back to the authenticator and the ACL of a hub is traced
    further, for the hub [build_hub] boots (crates/cherenkov-server/src/app.rs), to
    the [auth], [acl] and [namespaces] sections of the configuration. *)
From S2P Require Import Prelude Protocol Traits PubSub MemoryBroker Remote Crdt NamespaceAcl.
From S2P Require Import ProtoWire SchemaRegistry Jwt Session Hub HubReach Access Config App AppProps.

(** ** The server *)

Section server.
Context {X : Type} `{F : !Fred X} `{AN : !AsyncNats X} `{C : ProstCodec} `{B : Broadcast}.
Context `{Y : YrsLib} `{A : AutomergeLib} `{J : JwtLib} `{G : GlobEngine} `{JS : JsonEngine}.
Context `{NO : Notifier} `{M : Mpsc}.
Variable read_file : string → result string Bytes.
Implicit Types (st : @HubSt (AppW (X:=X)) AppStream NO M).

(** A booted hub asks the pieces the configuration describes. *)
Lemma build_hub_parts config x hub x' :
  build_hub read_file config x = (Ok hub, x') →
  ∃ v a acl, build_schema_registry read_file config.(sc_namespaces) = Ok v ∧
    build_authenticator config.(sc_auth) = Ok a ∧ build_acl config.(sc_acl) = Ok acl ∧
    hub.(validator) = json_schema_registry v ∧ hub.(authenticator) = a ∧ hub.(Hub.acl) = acl.
Proof.
  intros H. unfold build_hub in H. io_step H. clear Hio.
  unfold io_of_result in H.
  io_step H. injection Hio as Hv ->. io_step H. injection Hio as Ha ->.
  io_step H. injection Hio as Hacl ->. rename a0 into v, a1 into au, a2 into ac.
  exists v, au, ac. do 3 (split; [done|]). revert H.
  match goal with |- context [foldl _ ?b ?l] => destruct (namespace_kinds_fold l b)
    as (Hk1 & Hk2 & Hk3 & Hk4 & Hk5 & Hk6); set (b1 := foldl _ b l) in * end.
  unfold Hub.build. rewrite Hk1, Hk2, Hk3, Hk4, Hk5, Hk6. simpl. intros H.
  by injection H as <- _.
Qed.

(** What the [auth] section demands of a token at time [now]: an HMAC of the secret
    with SHA-256, an expiry at most a minute ago, and, of the audiences and issuers
    the token names, if it names any, one of those configured, if any are. *)
Definition token_valid `{L : !JwtLibLaws J} (a : AuthConfig) (now : N) (token : string)
    (cl : SessionClaims) : Prop :=
  a.(hmac_secret) ≠ "" ∧ ∃ t, parse_token token = Some t ∧
    t.(tok_alg) = HS256 ∧
    t.(tok_signature) = mac HS256 (bytes_of_string a.(hmac_secret)) t.(tok_message) ∧
    (∃ e, t.(tok_exp) = Some e ∧ (now ≤ e + 60)%N) ∧
    (∀ l, t.(tok_aud) = Some l → a.(cfg_audiences) ≠ [] → ∃ x, x ∈ l ∧ x ∈ a.(cfg_audiences)) ∧
    (∀ l i, t.(tok_iss) = Some l → a.(cfg_issuer) = Some i → i ∈ l) ∧
    cl = mk_SessionClaims t.(tok_claims).(sub) t.(tok_claims).(cc_permissions) t.(tok_claims).(exp).

Lemma jwt_configured_fields (a : AuthConfig) :
  let b := jwt_configured a in
  secret b = Some (bytes_of_string a.(hmac_secret)) ∧ builder_algorithm b = Hs256 ∧
  audiences b = a.(cfg_audiences) ∧ issuer b = a.(cfg_issuer).
Proof.
  assert (Hf : ∀ l b, let b' := foldl with_audience b l in secret b' = secret b ∧
    builder_algorithm b' = builder_algorithm b ∧ audiences b' = audiences b ++ l ∧
    issuer b' = issuer b).
  { induction l as [|x l IH]; intros b; simpl; [by rewrite app_nil_r|].
    destruct (IH (with_audience b x)) as (-> & -> & -> & ->). simpl. by rewrite <-app_assoc. }
  unfold jwt_configured.
  destruct (Hf a.(cfg_audiences) (with_hmac_secret jwt_builder (bytes_of_string a.(hmac_secret))))
    as (H1 & H2 & H3 & H4). by destruct (cfg_issuer a) as [i|].
Qed.

(** The authenticator of the [auth] section accepts exactly the valid tokens. *)
Lemma configured_authenticate `{L : !JwtLibLaws J} a auth token (w : AppW (X:=X)) cl :
  build_authenticator (Some a) = Ok auth →
  (authenticate auth token w).1 = Ok cl ↔ token_valid a (aw_clock w) token cl.
Proof.
  simpl. case_decide as Hs; [done|]. destruct (jwt_configured_fields a) as (H1 & H2 & H3 & H4).
  destruct (jwt_build (jwt_configured a)) as [j|] eqn:Ej; [|done]. intros [= <-].
  pose proof (jwt_accepts aw_clock _ _ token w Ej) as H.
  destruct (authenticate _ _ _) as [r w']. destruct H as (_ & H & _). simpl. rewrite H.
  unfold token_meets, token_valid. rewrite H1, H2, H3, H4. simpl. split.
  - intros (t & Ht & ((s & [= <-] & Hsig) & Ha & He & Hau & Hi) & ->). rewrite Ha in Hsig.
    split; [done|]. by exists t.
  - intros (_ & t & Ht & Ha & Hsig & He & Hau & Hi & ->). exists t. rewrite Ha.
    split; [done|]. split; [|done]. by split; [eauto|].
Qed.

Lemma configured_token `{L : !JwtLibLaws J} a auth token (w w' : AppW (X:=X)) cl :
  build_authenticator (Some a) = Ok auth → authenticate auth token w = (Ok cl, w') →
  token_valid a (aw_clock w) token cl.
Proof. intros Ha H. eapply configured_authenticate; [exact Ha|]. by rewrite H. Qed.

(** Whatever audiences and issuer are configured, a token that names neither is
    accepted: [build] of jwt.rs sets what the claims must match and does not make
    them required.  So is one that expired a minute ago. *)
Theorem unnamed_audience_accepted `{L : !JwtLibLaws J} a auth token t (w : AppW (X:=X)) e
    (Hbuild : build_authenticator (Some a) = Ok auth) (Ht : parse_token token = Some t)
    (Halg : t.(tok_alg) = HS256)
    (Hsig : t.(tok_signature) = mac HS256 (bytes_of_string a.(hmac_secret)) t.(tok_message))
    (Hexp : t.(tok_exp) = Some e) (Hnow : (aw_clock w ≤ e + 60)%N)
    (Haud : t.(tok_aud) = None) (Hiss : t.(tok_iss) = None) :
  (authenticate auth token w).1
  = Ok (mk_SessionClaims t.(tok_claims).(sub) t.(tok_claims).(cc_permissions) t.(tok_claims).(exp)).
Proof.
  apply (configured_authenticate a); [done|]. split.
  { intros Hs. simpl in Hbuild. by rewrite decide_True in Hbuild. }
  exists t. rewrite Haud, Hiss. split_and!; eauto; done.
Qed.

Lemma configured_check ac acl cl action ch (w w' : AppW (X:=X)) :
  build_acl (Some ac) = Ok acl → check acl cl action ch w = (Ok Allow, w') →
  config_decision ac cl action ch = Allow.
Proof.
  simpl. pose proof (add_rules_spec ac.(acl_rules)
    (set_default_allow NamespaceAcl.builder ac.(cfg_default_allow))) as H.
  destruct (add_rules _ _) as [b|e]; simpl; [|done]. destruct H as (_ & Hd & rs & Hrs & Hc).
  intros [= <-]. simpl. unfold namespace_check. simpl.
  rewrite Hrs, Hd, (check_rules_config (acl_rules ac)) by done. destruct ac. by intros [= ->].
Qed.

Lemma configured_validate nss reg ch data (w w' : AppW (X:=X)) :
  build_schema_registry read_file nss = Ok reg →
  validate (json_schema_registry reg) ch data w = (Ok (), w') →
  ∃ l, mapM (resolve read_file) nss = Some l ∧
    conforms (last_schema l (SchemaRegistry.namespace_of ch)) data.
Proof.
  unfold build_schema_registry. pose proof (add_namespaces_spec read_file nss builder_new) as H.
  destruct (mapM _ nss) as [l|].
  - destruct H as (b & -> & Hb). cbn [result_bind]. intros [= <-] Hv. exists l. split; [done|].
    apply (registry_validate_conforms l b ch data Hb). by injection Hv.
  - destruct H as (msg & -> & _). done.
Qed.

End server.

(** ** Witness: alice subscribes on the server of [sample_config] *)

Section witnesses.
#[local] Existing Instances QueueFred QueueNats QueueBroadcast ListYrs ListAutomerge PlainJwt
  StarGlob LengthJson CountNotifier QueueMpsc.

Definition alice_steps (hub : @Hub (AppW (X:=Queues)) AppStream) :
    @HubSt AppW AppStream CountNotifier QueueMpsc :=
  let st := hub_init sample_memory in
  let st := mk_HubSt st.(core) {[0%N := ([], false)]} st.(world) in
  let st := (open_session hub 0 st).2 in
  let st := (handle_connect hub 0 1 "alice;chat;idp:k" st).2 in
  (handle_subscribe hub 0 2 "rooms.a" 0 st).2.

Lemma alice_steps_reach hub : rtc (hub_step hub) (hub_init sample_memory) (alice_steps hub).
Proof.
  unfold alice_steps. eapply rtc_r; [|apply step_subscribe].
  eapply rtc_r; [|apply step_connect].
  eapply rtc_r; [|apply step_open; vm_compute; reflexivity].
  eapply rtc_r; [apply rtc_refl|apply step_env].
Qed.
End witnesses.

