(* ===== verification/Grants.v ===== *)
(** * Access control under interleaving

    Access.v and Security.v trace what a session has back to its requests when the
    handlers of cherenkov-core/src/hub.rs run one at a time.  Here they are
    interrupted: the invariant is proved of the abstract service, by induction on
    its steps, and holds of the hub because the hub refines it (Linear.v). *)
From S2P Require Import Prelude Protocol Traits PubSub MemoryBroker Remote Crdt NamespaceAcl.
From S2P Require Import ProtoWire SchemaRegistry Jwt Session Hub HubReach Config App AppProps Security.
From S2P Require Import Async Service Running Linear.

Section grants.
Context {W Str : Type} `{NO : Notifier} `{D : During W}.
Implicit Types (hub : @Hub W Str) (h : list Observed).

(** Session [sid] may act as [cl]: it presented a token the authenticator accepted
    for these claims, or the server lets anyone act as anonymous. *)
Definition entitled hub h (sid : N) (cl : SessionClaims) : Prop :=
  (allow_anonymous hub.(authenticator) = true ∧ cl = anonymous) ∨
  ∃ rid token, Invoked (RConnect sid rid token) ∈ h ∧
    said (authenticate hub.(authenticator) token) (Ok cl).

(** Session [sid] has been subscribed to [ch] on the strength of its claims. *)
Definition admitted hub h (sid : N) (ch : string) : Prop :=
  ∃ rid since cl, Invoked (RSubscribe sid rid ch since) ∈ h ∧
    entitled hub h sid cl ∧ cleared hub cl ActSubscribe ch.

Definition accepted hub h (sid : N) (ch : string) (data : Bytes) (p : Publication) : Prop :=
  ∃ cl, entitled hub h sid cl ∧ cleared hub cl ActPublish ch ∧
    said (validate hub.(validator) ch data) (Ok ()) ∧
    said (on_publish (kind_for hub ch) ch data) (Ok p) ∧
    said (broker_publish hub.(broker) ch p) (Ok ()).

(** What a peer has was granted to it. *)
Definition granted_to hub h (m : Peer) : Prop :=
  (∀ cl, m.(m_claims) = Some cl → entitled hub h m.(m_id) cl) ∧
  (∀ ch, ch ∈ m.(m_channels) → admitted hub h m.(m_id) ch).

(** What a success tells. *)
Definition justified hub h (r : Request) (a : result HubError Answer) : Prop :=
  match r, a with
  | RSubscribe sid _ ch _, Ok _ => admitted hub h sid ch
  | RPublish sid ch data, Ok a => ∃ p, a = APublish p ∧ accepted hub h sid ch data p
  | _, _ => True
  end.

Definition call_granted hub h (x : Call) : Prop :=
  Invoked (call_request x) ∈ h ∧
  match x with
  | Bound r _ (Some cl) => entitled hub h (requester r) cl
  | Settled r A => ∀ a, A a → justified hub h r a
  | Answered r a => justified hub h r a
  | _ => True
  end.

Definition all_granted hub (S : SpecSt) : Prop :=
  map_Forall (λ _, granted_to hub S.(s_history)) S.(s_service) ∧
  Forall (call_granted hub S.(s_history)) S.(s_calls).

(** ** Later is no worse *)

Lemma entitled_later hub h h' sid cl : h ⊆ h' → entitled hub h sid cl → entitled hub h' sid cl.
Proof. intros Hh [?|(rid & token & ? & ?)]; [by left|right]. exists rid, token. auto. Qed.

Lemma admitted_later hub h h' sid ch : h ⊆ h' → admitted hub h sid ch → admitted hub h' sid ch.
Proof.
  intros Hh (rid & since & cl & ? & ? & ?). exists rid, since, cl.
  split; [auto|]. split; [by eapply entitled_later|done].
Qed.

Lemma granted_to_later hub h h' m : h ⊆ h' → granted_to hub h m → granted_to hub h' m.
Proof. intros Hh [H1 H2]. split; eauto using entitled_later, admitted_later. Qed.

Lemma justified_later hub h h' r a : h ⊆ h' → justified hub h r a → justified hub h' r a.
Proof.
  intros Hh. destruct r, a as [a|e]; simpl; try done; [by apply admitted_later|].
  intros (p & Ha & cl & ? & ?). exists p. split; [done|]. exists cl. eauto using entitled_later.
Qed.

Lemma call_granted_later hub h h' x : h ⊆ h' → call_granted hub h x → call_granted hub h' x.
Proof.
  intros Hh [Hi H]. split; [auto|].
  destruct x as [r|r p [cl|]|r A|r a]; eauto using entitled_later, justified_later.
Qed.

Lemma all_granted_later hub h h' xs S :
  h ⊆ h' → all_granted hub (mk_SpecSt h xs S) → all_granted hub (mk_SpecSt h' xs S).
Proof.
  intros Hh [H1 H2]. split; simpl in *.
  - eapply map_Forall_impl; [exact H1|]. intros p m. by apply granted_to_later.
  - eapply Forall_impl; [exact H2|]. intros x. by apply call_granted_later.
Qed.

(** ** Every step of the service keeps it *)

Lemma granted_serves hub h seen m r A m' :
  serves hub seen m r A m' → m.(m_id) = requester r → Invoked r ∈ h →
  (∀ cl, seen = Some cl → entitled hub h (requester r) cl) → granted_to hub h m →
  granted_to hub h m' ∧ ∀ a, A a → justified hub h r a.
Proof.
  intros Hs Hid Hin Hseen [Hcl Hch].
  destruct Hs as [s rid token|s rid token e|s rid token cl|r|r action ch cl e|s rid ch since cl
    |s rid ch since cl e|s rid ch since cl cursor stream|s rid ch|s rid ch|s ch data cl e
    |s ch data cl p]; simpl in *; subst;
    try (split; [by split|]; intros ? <-; first [done|by destruct r]).
  - split; [|by intros ? <-]. split; [|done]. simpl. intros cl' [= <-]. right. eauto.
  - assert (admitted hub h m.(m_id) ch) as Had by (exists rid, since, cl; auto).
    split; [|by intros ? <-]. split; [done|]. simpl.
    intros ch' [->%elem_of_singleton|?]%elem_of_union; auto.
  - split; [|by intros a [[_ ->]|(e & _ & ->)]]. split; [done|]. simpl.
    intros ch' [? _]%elem_of_difference. auto.
  - split; [by split|]. intros ? <-. exists p. split; [done|]. exists cl. auto 6.
Qed.

Lemma granted_call hub h xs S i x x' S' :
  call_step hub (x, S) (x', S') → xs !! i = Some x → all_granted hub (mk_SpecSt h xs S) →
  all_granted hub (mk_SpecSt h (<[i := x']> xs) S').
Proof.
  intros Hc Hi [H1 H2]. simpl in *. destruct (Forall_lookup_1 _ _ _ _ H2 Hi) as [Hin Hx].
  inversion Hc as [r S0 Hgone|r S0 p m Hp Hid Hpr|r S0 p seen m A m' Hp Hid Hsv]; subst; simpl in *.
  - split; simpl; [done|]. apply Forall_insert; [done|]. split; [done|]. intros a <-. by destruct r.
  - split; simpl; [done|]. apply Forall_insert; [done|]. split; [done|].
    destruct m.(m_claims) as [cl|] eqn:Hcl; [|done]. rewrite <- Hid. by apply (H1 _ _ Hp).
  - destruct (granted_serves hub h seen m r A m' Hsv Hid Hin) as [Hm Ha].
    + intros cl ->. done.
    + exact (H1 _ _ Hp).
    + split; simpl; [by apply map_Forall_insert_2|]. by apply Forall_insert.
Qed.

Lemma granted_step hub S S' : service_step hub S S' → all_granted hub S → all_granted hub S'.
Proof.
  destruct 1 as [h xs S r|h xs S i x x' S' Hi Hc|h xs S i r A a Hi Ha|h xs S p sid cl Hp Hn Hcl
    |h xs S p m Hp _|h xs S p m Hp _]; intros Hg.
  - apply (all_granted_later _ _ (h ++ [Invoked r])) in Hg as [H1 H2]; [|set_solver].
    split; simpl in *; [done|]. apply Forall_app. split; [done|]. constructor; [|done].
    split; [simpl; set_solver|done].
  - by eapply granted_call.
  - apply (all_granted_later _ _ (h ++ [Returned i a])) in Hg as [H1 H2]; [|set_solver].
    split; simpl in *; [done|]. destruct (Forall_lookup_1 _ _ _ _ H2 Hi) as [Hin Hx].
    apply Forall_insert; [done|]. split; [done|]. by apply Hx.
  - destruct Hg as [H1 H2]. split; simpl in *; [|done]. apply map_Forall_insert_2; [|done].
    split; simpl; [|set_solver]. intros cl' ->. destruct (allow_anonymous _) eqn:Ha; [|done].
    injection Hcl as ->. by left.
  - destruct Hg as [H1 H2]. split; simpl in *; [|done]. apply map_Forall_insert_2; [|done].
    exact (H1 _ _ Hp).
  - destruct Hg as [H1 H2]. split; simpl in *; [|done]. by apply map_Forall_delete.
Qed.

Lemma granted_run hub S S' : rtc (service_step hub) S S' → all_granted hub S → all_granted hub S'.
Proof. induction 1; eauto using granted_step. Qed.

Lemma granted_init hub : all_granted hub service_init.
Proof. split; [apply map_Forall_empty|by constructor]. Qed.

End grants.

(** ** So it is in the hub *)

Lemma concurrent_grants {W Str} `{NO : Notifier} `{M : Mpsc} (hub : @Hub W Str) (w0 : W)
    (R : @Running W Str NO M) :
  rtc (running_step hub) (running_init w0) R →
  let D := moments hub w0 R in
  (∀ ptr s, R.(hub_state).(core).(heap) !! ptr = Some s →
     (∀ cl, s.(claims) = Some cl → entitled (D:=D) hub R.(history) s.(id) cl) ∧
     (∀ ch, has_subscription s ch = true → admitted (D:=D) hub R.(history) s.(id) ch)) ∧
  (∀ i r v, R.(calls) !! i = Some (r, Done v) → justified (D:=D) hub R.(history) r v).
Proof.
  intros Hrun D. destruct (sim_reachable _ _ _ Hrun) as (S & Hsteps & Hsim).
  destruct (granted_run _ _ _ Hsteps (granted_init hub)) as [H1 H2].
  rewrite (sim_history _ _ _ _ Hsim) in H1, H2. rewrite (sim_service _ _ _ _ Hsim) in H1. split.
  - intros ptr s Hs. destruct (H1 ptr (peer_of R.(hub_state).(core).(registry).(sessions) ptr s))
      as [Hcl Hch]; [by rewrite service_lookup, Hs|]. split; [exact Hcl|].
    intros ch Hsub%bool_decide_eq_true. apply Hch. by apply elem_of_dom.
  - intros i r v Hi. destruct (Forall2_lookup_l _ _ _ _ _ (sim_calls _ _ _ _ Hsim) Hi)
      as (x & Hx & _ & Hf). simpl in Hf. subst x. by apply (Forall_lookup_1 _ _ _ _ H2 Hx).
Qed.

(** ** The configured server *)

Section server.
Context {X : Type} `{F : !Fred X} `{AN : !AsyncNats X} `{C : ProstCodec} `{B : Broadcast}.
Context `{Y : YrsLib} `{A : AutomergeLib} `{J : JwtLib} `{G : GlobEngine} `{JS : JsonEngine}.
Context `{NO : Notifier} `{M : Mpsc}.
Variable read_file : string → result string Bytes.
Implicit Types (R : @Running (AppW (X:=X)) AppStream NO M).

(** In the run to [R] session [sid] presented a token that was valid under the
    [auth] section [a] at a moment of the run, and the [acl] section allows its
    claims the action. *)
Definition authorised `{L : !JwtLibLaws J} (config : ServerConfig) (a : AuthConfig)
    (hub : @Hub (AppW (X:=X)) AppStream) (w0 : AppW (X:=X)) R (sid : N) (action : AclAction)
    (ch : string) : Prop :=
  ∃ rid token w cl, Invoked (RConnect sid rid token) ∈ R.(history) ∧
    moments hub w0 R w ∧ token_valid a (aw_clock w) token cl ∧
    ∀ ac, config.(sc_acl) = Some ac → config_decision ac cl action ch = Allow.

End server.

(** ** Witness: alice subscribes and publishes at once *)

Section witnesses.
#[local] Existing Instances QueueFred QueueNats QueueBroadcast ListYrs ListAutomerge PlainJwt
  StarGlob LengthJson CountNotifier QueueMpsc.

Definition alice_at_once (hub : @Hub (AppW (X:=Queues)) AppStream) :
    @Running AppW AppStream CountNotifier QueueMpsc :=
  run_actions hub
    [DoOpen 0; DoArrive (RConnect 0 1 "alice;chat;idp:k"); DoTurn 0; DoTurn 0; DoTurn 0;
     DoArrive (RSubscribe 0 2 "rooms.a" 0); DoTurn 1; DoArrive (RPublish 0 "rooms.a" []);
     DoTurn 2; DoTurn 1; DoTurn 1; DoTurn 2; DoTurn 1; DoTurn 1; DoTurn 1; DoTurn 1]
    (running_init sample_memory).

(** Connected, subscribed; publishing is refused. *)
Definition alice_verdicts (R : @Running (AppW (X:=Queues)) AppStream CountNotifier QueueMpsc) :=
  (verdicts R.(history), bool_decide (has_subscription (deref R.(hub_state).(core) 0) "rooms.a" = true),
   bool_decide (is_Some (R.(hub_state).(core).(heap) !! 0%N))).
End witnesses.

