(* ===== verification/Serve.v ===== *)
(** * Serving the transports

    The builders, [Transport::serve] and [serve_on_listener] of the three transport
    crates and of the admin crate: which routes are served on which listener, with
    which hub and which outbox capacity, and how a connection starts.  Sockets are
    tokio's, TLS and QUIC wtransport's, the accept loop axum's. *)
From S2P Require Import Prelude Protocol Traits Session Hub Ws Wt Sse Admin.

(** tokio's listeners. *)
Class Net : Type := {
  NetState : Type;
  TcpListener : Type;
  bind : string → io NetState string TcpListener;
  local_addr : TcpListener → result string string;
}.

Section serve.
Context {W Str : Type} `{NO : Notifier} `{M : Mpsc} `{NT : Net}.

(** The handlers routes lead to, with the state they get. *)
Inductive Endpoint : Type :=
| WsHandler (hub : @Hub W Str) (outbox_capacity : N)
| SubscribeHandler (hub : @Hub W Str)
| PublishHandler (hub : @Hub W Str).

(** An axum [Router]: method, path and handler of each route, or the router Admin.v
    models. *)
Inductive Router : Type :=
| Routes (routes : list (string * string * Endpoint))
| AdminRouter (resources : @AdminResources W Str NO).

(** [axum::serve(listener, app)]. *)
Record Server : Type := mk_Server { srv_listener : TcpListener; srv_app : Router }.

(** ** WebSocket *)

Record WsTransport : Type := mk_WsTransport {
  ws_hub : @Hub W Str;
  ws_transport : WsTransportBuilder;
}.
Definition ws_build (b : WsTransportBuilder) (hub : @Hub W Str) : WsTransport :=
  mk_WsTransport hub b.

Definition ws_serve_on_listener (listener : TcpListener) (path : string) (hub : @Hub W Str)
    (outbox_capacity : N) : Server :=
  mk_Server listener (Routes [("GET", path, WsHandler hub (N.max outbox_capacity 1))]).

(** What [serve_on_listener] returns when [axum::serve] does. *)
Definition serve_outcome (r : result string unit) : result TransportError unit :=
  result_map_err TransportOther r.

Definition ws_serve (self : WsTransport) : io NetState TransportError Server :=
  let! listener := io_map_err Bind (bind self.(ws_transport).(Ws.listen)) in
  let! _local := io_of_result (result_map_err Bind (local_addr listener)) in
  io_ret (ws_serve_on_listener listener self.(ws_transport).(Ws.path) self.(ws_hub)
            self.(ws_transport).(Ws.outbox_capacity)).

(** [ws_handler]: the upgraded socket starts with a session of its own, whose
    outbox is [o]. *)
Definition ws_handler (e : Endpoint) (o : N) (st : @HubSt W Str _ M) :
    option (Ws.Socket * HubSt) :=
  match e with
  | WsHandler hub capacity => Some (open_socket hub o capacity st)
  | _ => None
  end.

(** ** Server-sent events *)

Record SseTransportBuilder : Type := mk_SseTransportBuilder {
  sse_builder_listen : string;
  path_prefix : string;
}.
Definition sse_builder (listen : string) : SseTransportBuilder :=
  mk_SseTransportBuilder listen Sse.DEFAULT_PATH.
Definition with_path_prefix (b : SseTransportBuilder) (prefix : string) : SseTransportBuilder :=
  mk_SseTransportBuilder b.(sse_builder_listen) prefix.

Record SseTransport : Type := mk_SseTransport {
  sse_hub : @Hub W Str;
  sse_transport : SseTransportBuilder;
}.
Definition sse_build (b : SseTransportBuilder) (hub : @Hub W Str) : SseTransport :=
  mk_SseTransport hub b.

Definition sse_serve_on_listener (listener : TcpListener) (path_prefix : string)
    (hub : @Hub W Str) : Server :=
  mk_Server listener
    (Routes [("GET", path_prefix +:+ "/subscribe", SubscribeHandler hub);
             ("POST", path_prefix +:+ "/publish", PublishHandler hub)]).

Definition sse_serve (self : SseTransport) : io NetState TransportError Server :=
  let! listener := io_map_err Bind (bind self.(sse_transport).(sse_builder_listen)) in
  io_ret (sse_serve_on_listener listener self.(sse_transport).(path_prefix) self.(sse_hub)).

(** ** Admin *)

Definition admin_serve_on_listener (listener : TcpListener)
    (resources : @AdminResources W Str NO) : Server :=
  mk_Server listener (AdminRouter resources).

Definition admin_serve (listen : string) (resources : @AdminResources W Str NO) :
    io NetState string Server :=
  let! listener := bind listen in
  io_ret (admin_serve_on_listener listener resources).
End serve.

(** ** WebTransport *)

(** wtransport's endpoint; an incoming session goes through three handshakes before
    its stream, here the bytes it will deliver, is available. *)
Class Quic : Type := {
  Identity : Type;
  QuicEndpoint : Type;
  endpoint_server : string → Identity → result string QuicEndpoint;
  endpoint_addr : QuicEndpoint → result string string;
}.

Record Incoming : Type := mk_Incoming {
  inc_request : result string unit;
  inc_accept : result string unit;
  inc_accept_bi : result string Bytes;
}.

Inductive WtError : Type := EndpointSetup (msg : string).
Definition show_wt_error (e : WtError) : string :=
  match e with EndpointSetup m => "WebTransport endpoint setup failed: " +:+ m end.

Section wt.
Context {W Str : Type} `{NO : Notifier} `{M : Mpsc} `{Q : Quic}.

Record WtTransportBuilder : Type := mk_WtTransportBuilder {
  wt_listen : string;
  wt_identity : Identity;
  wt_outbox_capacity : N;
}.
Definition wt_builder (listen : string) (identity : Identity) : WtTransportBuilder :=
  mk_WtTransportBuilder listen identity Wt.DEFAULT_OUTBOX_CAPACITY.
Definition wt_with_outbox_capacity (b : WtTransportBuilder) (capacity : N) : WtTransportBuilder :=
  mk_WtTransportBuilder b.(wt_listen) b.(wt_identity) (N.max capacity 1).

Record WtTransport : Type := mk_WtTransport {
  wt_hub : @Hub W Str;
  wt_endpoint : QuicEndpoint;
  wt_capacity : N;
}.
Definition wt_build (self : WtTransportBuilder) (hub : @Hub W Str) : result WtError WtTransport :=
  let? endpoint := result_map_err EndpointSetup
    (endpoint_server self.(wt_listen) self.(wt_identity)) in
  Ok (mk_WtTransport hub endpoint self.(wt_outbox_capacity)).

Definition handle_incoming (incoming : Incoming) (hub : @Hub W Str) (outbox_capacity o : N)
    (st : @HubSt W Str _ M) : option Conn * HubSt :=
  match incoming.(inc_request) with
  | Err _ => (None, st)
  | Ok _ =>
      match incoming.(inc_accept) with
      | Err _ => (None, st)
      | Ok _ =>
          match incoming.(inc_accept_bi) with
          | Err _ => (None, st)
          | Ok input => let '(c, st) := open_conn hub o outbox_capacity input st in (Some c, st)
          end
      end
  end.

(** One turn of the accept loop; the loop itself never ends. *)
Definition wt_serve (self : WtTransport) : result TransportError
    (Incoming → N → @HubSt W Str _ M → option Conn * HubSt) :=
  let? _local_addr := result_map_err Bind (endpoint_addr self.(wt_endpoint)) in
  Ok (λ incoming o st, handle_incoming incoming self.(wt_hub) self.(wt_capacity) o st).
End wt.
