(* ===== verification/Run.v ===== *)
(** * Starting, waiting for and stopping the server

    crates/cherenkov-server: [run_with_listener], [run] and the handles of
    src/app.rs, loading the configuration (src/config.rs), and the command line's
    exit codes (src/main.rs).  A spawned transport is an entry of a table of tasks;
    dropping a [JoinHandle] detaches its task, so handles are indices. *)
From S2P Require Import Prelude Protocol Traits MemoryBroker Remote Crdt NamespaceAcl.
From S2P Require Import SchemaRegistry Jwt Session Hub Config Admin App Ws Serve.

(** The crates metrics and metrics_exporter_prometheus: the recorder of the process. *)
Class Prometheus : Type := {
  MetricsState : Type;
  Recorder : Type;
  PrometheusHandle : Type;
  build_recorder : MetricsState → Recorder * MetricsState;
  recorder_handle : Recorder → PrometheusHandle;
  set_global_recorder : Recorder → MetricsState → result unit unit * MetricsState;
}.

(** The outcome of a [JoinHandle]. *)
Inductive JoinResult (A : Type) : Type :=
| Finished (a : A)
| JoinError (msg : string).
Arguments Finished {A} a.
Arguments JoinError {A} msg.

Section run.
Context {X : Type} `{F : !Fred X} `{AN : !AsyncNats X} `{C : ProstCodec} `{B : Broadcast}.
Context `{Y : YrsLib} `{A : AutomergeLib} `{J : JwtLib} `{G : GlobEngine} `{JS : JsonEngine}.
Context `{NO : Notifier} `{NT : Net} `{P : Prometheus}.
Variable read_file : string → result string Bytes.

Abbreviation W := (@AppW X B Y A).
Abbreviation Str := (@AppStream X F AN).

(** What a handle's Prometheus text shows of the hub. *)
Variable render : PrometheusHandle → @HubCore Str NO → string.

(** A spawned transport: what it serves, how the closure maps the outcome of
    [axum::serve], and whether it was aborted. *)
Record RunTask : Type := mk_RunTask {
  rt_server : @Server W Str NO NT;
  rt_outcome : result string unit → result ServerError unit;
  rt_aborted : bool;
}.

Record RunW : Type := mk_RunW {
  rw_tasks : list RunTask;
  rw_net : NetState;
  rw_metrics : MetricsState;
  rw_world : X;
}.

Definition net_lens : lens RunW NetState.
Proof.
  by refine {| view := rw_net; update n w := mk_RunW w.(rw_tasks) n w.(rw_metrics) w.(rw_world) |};
    intros; simpl; try done; destruct w.
Defined.

Definition run_world_lens : lens RunW X.
Proof.
  by refine {| view := rw_world; update x w := mk_RunW w.(rw_tasks) w.(rw_net) w.(rw_metrics) x |};
    intros; simpl; try done; destruct w.
Defined.

Definition spawn_server (t : RunTask) : io RunW ServerError nat := λ w,
  (Ok (length w.(rw_tasks)),
   mk_RunW (w.(rw_tasks) ++ [t]) w.(rw_net) w.(rw_metrics) w.(rw_world)).

(** [JoinHandle::abort]. *)
Definition abort_task (t : RunTask) : RunTask := mk_RunTask t.(rt_server) t.(rt_outcome) true.
Definition abort (join : nat) (w : RunW) : RunW :=
  mk_RunW (alter abort_task join w.(rw_tasks)) w.(rw_net) w.(rw_metrics) w.(rw_world).

(** ** One listener *)

Record ServerHandle : Type := mk_ServerHandle { sh_local_addr : string; sh_join : nat }.

Definition shutdown_handle (self : ServerHandle) (w : RunW) : RunW := abort self.(sh_join) w.

(** The closure spawned for the WebSocket transport by [run_with_listener]. *)
Definition transport_outcome (show : TransportError → string) (r : result string unit) :
    result ServerError unit :=
  result_map_err (λ e, ServerTransport (show e)) (serve_outcome r).

Definition run_with_listener (config : ServerConfig) (listener : TcpListener) :
    io RunW ServerError ServerHandle :=
  let! addr := io_of_result (result_map_err ServerTransport (local_addr listener)) in
  let! hub := io_zoom run_world_lens (build_hub read_file config) in
  let path := config.(sc_transport).(tc_ws).(ws_path) in
  let outbox_capacity := config.(sc_transport).(tc_ws).(ws_outbox_capacity) in
  let! join := spawn_server (mk_RunTask (ws_serve_on_listener listener path hub outbox_capacity)
                 (transport_outcome show_transport_error) false) in
  io_ret (mk_ServerHandle addr join).

(** ** Every transport *)

Definition install_prometheus_recorder (m : MetricsState) :
    option PrometheusHandle * MetricsState :=
  let '(recorder, m) := build_recorder m in
  let handle := recorder_handle recorder in
  match set_global_recorder recorder m with
  | (Ok _, m) => (Some handle, m)
  | (Err _, m) => let '(recorder, m) := build_recorder m in (Some (recorder_handle recorder), m)
  end.

Record ServerRunHandle : Type := mk_ServerRunHandle {
  ws_addr : string;
  sse_addr : option string;
  admin_addr : option string;
  joins : list nat;
}.

(** Binding a configured address and reading back the local one. *)
Definition bind_listener (what listen : string) : io RunW ServerError (TcpListener * string) :=
  let! listener := io_map_err (λ e, ServerTransport (what +:+ " bind: " +:+ e))
                     (io_zoom net_lens (bind listen)) in
  let! local := io_of_result (result_map_err ServerTransport (local_addr listener)) in
  io_ret (listener, local).

Definition run_sse (config : ServerConfig) (hub : @Hub W Str) (joins : list nat) :
    io RunW ServerError (option string * list nat) :=
  match config.(sc_transport).(tc_sse) with
  | Some sse_cfg =>
      let! (listener, local) := bind_listener "sse" sse_cfg.(sse_listen) in
      let! join := spawn_server (mk_RunTask
        (sse_serve_on_listener listener sse_cfg.(sse_path_prefix) hub)
        (transport_outcome (λ e, "sse: " +:+ show_transport_error e)) false) in
      io_ret (Some local, joins ++ [join])
  | None => io_ret (None, joins)
  end.

(** The block of [run] around [install_prometheus_recorder]; the resources are
    [admin_resources] of App.v, with or without a handle. *)
Definition admin_resources_with (config : ServerConfig) (hub : @Hub W Str)
    (handle : option PrometheusHandle) : @AdminResources W Str NO :=
  match handle with
  | Some handle => admin_resources config hub (render handle)
  | None =>
      let resources := with_hub hub (resources_new registry) in
      match config.(sc_admin).(Config.auth_token) with
      | Some token => with_auth_token token resources
      | None => resources
      end
  end.

Definition run_admin (config : ServerConfig) (hub : @Hub W Str) (joins : list nat) :
    io RunW ServerError (option string * list nat) :=
  if config.(sc_admin).(enabled) then
    let! (listener, local) := bind_listener "admin" config.(sc_admin).(admin_listen) in
    let! metrics_handle := λ w,
      let '(handle, m) := install_prometheus_recorder w.(rw_metrics) in
      (Ok handle, mk_RunW w.(rw_tasks) w.(rw_net) m w.(rw_world)) in
    let resources := admin_resources_with config hub metrics_handle in
    let! join := spawn_server (mk_RunTask (admin_serve_on_listener listener resources)
      (result_map_err (λ e, ServerTransport ("admin: " +:+ e))) false) in
    io_ret (Some local, joins ++ [join])
  else io_ret (None, joins).

Definition run (config : ServerConfig) : io RunW ServerError ServerRunHandle :=
  let! hub := io_zoom run_world_lens (build_hub read_file config) in
  let! (ws_listener, ws_local) := bind_listener "ws" config.(sc_transport).(tc_ws).(ws_listen) in
  let ws_path := config.(sc_transport).(tc_ws).(ws_path) in
  let ws_capacity := config.(sc_transport).(tc_ws).(ws_outbox_capacity) in
  let! ws_join := spawn_server (mk_RunTask
    (ws_serve_on_listener ws_listener ws_path hub ws_capacity)
    (transport_outcome (λ e, "ws: " +:+ show_transport_error e)) false) in
  let! (sse_local, joins) := run_sse config hub [ws_join] in
  let! (admin_local, joins) := run_admin config hub joins in
  io_ret (mk_ServerRunHandle ws_local sse_local admin_local joins).

(** ** Stopping *)

Definition shutdown (self : ServerRunHandle) (w : RunW) : RunW :=
  foldl (λ w j, abort j w) w self.(joins).

(** [wait], once [select_all] resolved: [first] is the position in [joins] of a task
    that ended, with its outcome. *)
Definition wait (self : ServerRunHandle)
    (first : nat * JoinResult (result ServerError unit)) (w : RunW) :
    result ServerError unit * RunW :=
  match self.(joins) with
  | [] => (Ok (), w)
  | joins =>
      let '(idx, outcome) := first in
      let rest := delete idx joins in
      let w := foldl (λ w j, abort j w) w rest in
      (match outcome with
       | Finished inner => inner
       | JoinError e => Err (ServerTask e)
       end, w)
  end.
End run.
