(* ===== verification/RunProps.v ===== *)
(** * Properties of starting and stopping the server

    Which transports [run] starts and what is left running when it fails, what
    [wait] and [shutdown] stop. *)
From S2P Require Import Prelude Protocol Traits MemoryBroker Remote Crdt NamespaceAcl.
From S2P Require Import ProtoWire SchemaRegistry Jwt Session Hub Config Admin App Ws Serve Run.

Lemma elem_of_delete_NoDup {A} (l : list A) i x y :
  NoDup l → l !! i = Some x → y ∈ delete i l ↔ y ∈ l ∧ y ≠ x.
Proof.
  revert i. induction l as [|a l IH]; intros [|i] Hnd Hi; simplify_eq/=.
  - apply NoDup_cons in Hnd as [Hx _]. set_solver.
  - apply NoDup_cons in Hnd as [Ha Hnd]. rewrite !elem_of_cons, (IH i) by done.
    apply list_elem_of_lookup_2 in Hi. set_solver.
Qed.

Section run.
Context {X : Type} `{F : !Fred X} `{AN : !AsyncNats X} `{C : ProstCodec} `{B : Broadcast}.
Context `{Y : YrsLib} `{A : AutomergeLib} `{J : JwtLib} `{G : GlobEngine} `{JS : JsonEngine}.
Context `{NO : Notifier} `{NT : Net} `{P : Prometheus}.
Variable read_file : string → result string Bytes.
Variable render : PrometheusHandle → @HubCore (@AppStream X F AN) NO → string.

Abbreviation HubT := (@Hub (@AppW X B Y A) (@AppStream X F AN)).
Abbreviation RunState := (@RunW X F AN B Y A NO NT P).
Abbreviation TaskT := (@RunTask X F AN B Y A NO NT).
Implicit Types (w : RunState) (hub : HubT).

(** A transport to start: the words its errors begin with, the address to listen on,
    the router to serve there, and what its task makes of the outcome. *)
Record Stage : Type := mk_Stage {
  stage_what : string;
  stage_listen : string;
  stage_app : @Router (@AppW X B Y A) (@AppStream X F AN) NO;
  stage_outcome : result string unit → result ServerError unit;
}.

(** Those a configuration asks for, in the order they are started. *)
Definition ws_stage (config : ServerConfig) hub : Stage :=
  let ws := config.(sc_transport).(tc_ws) in
  mk_Stage "ws" ws.(ws_listen)
    (Routes [("GET", ws.(ws_path), WsHandler hub (N.max ws.(ws_outbox_capacity) 1))])
    (transport_outcome (λ e, "ws: " +:+ show_transport_error e)).

Definition sse_stages (config : ServerConfig) hub : list Stage :=
  match config.(sc_transport).(tc_sse) with
  | Some sse =>
      [mk_Stage "sse" sse.(sse_listen)
         (Routes [("GET", sse.(sse_path_prefix) +:+ "/subscribe", SubscribeHandler hub);
                  ("POST", sse.(sse_path_prefix) +:+ "/publish", PublishHandler hub)])
         (transport_outcome (λ e, "sse: " +:+ show_transport_error e))]
  | None => []
  end.

Definition admin_stages (config : ServerConfig) hub (handle : option PrometheusHandle) :
    list Stage :=
  if config.(sc_admin).(enabled)
  then [mk_Stage "admin" config.(sc_admin).(admin_listen)
          (AdminRouter (admin_resources_with render config hub handle))
          (result_map_err (λ e, ServerTransport ("admin: " +:+ e)))]
  else [].

Definition configured_stages (config : ServerConfig) hub handle : list Stage :=
  ws_stage config hub :: sse_stages config hub ++ admin_stages config hub handle.

(** From the network [n] the stages are started one after the other: each binds its
    own address, has its local one, and serves its router on the listener it got
    there, in a task that is running. *)
Inductive started (n : NetState) : list Stage → list TaskT → list string → NetState → Prop :=
| started_none : started n [] [] [] n
| started_one s stages l a n1 ts addrs n2 :
    bind s.(stage_listen) n = (Ok l, n1) → local_addr l = Ok a →
    started n1 stages ts addrs n2 →
    started n (s :: stages)
      (mk_RunTask (mk_Server l s.(stage_app)) s.(stage_outcome) false :: ts) (a :: addrs) n2.

(** A stage that cannot be started. *)
Inductive start_fails (n : NetState) (s : Stage) : ServerError → Prop :=
| bind_fails e n1 : bind s.(stage_listen) n = (Err e, n1) →
    start_fails n s (ServerTransport (s.(stage_what) +:+ " bind: " +:+ e))
| address_fails l n1 e : bind s.(stage_listen) n = (Ok l, n1) → local_addr l = Err e →
    start_fails n s (ServerTransport e).

Lemma started_app n stages ts addrs n1 stages' ts' addrs' n2 :
  started n stages ts addrs n1 → started n1 stages' ts' addrs' n2 →
  started n (stages ++ stages') (ts ++ ts') (addrs ++ addrs') n2.
Proof. induction 1; simpl; eauto using started. Qed.

Lemma started_cons n s stages ts addrs n2 :
  started n (s :: stages) ts addrs n2 →
  ∃ l a n1 ts' addrs', bind s.(stage_listen) n = (Ok l, n1) ∧ local_addr l = Ok a ∧
    ts = mk_RunTask (mk_Server l s.(stage_app)) s.(stage_outcome) false :: ts' ∧
    addrs = a :: addrs' ∧ started n1 stages ts' addrs' n2.
Proof. inversion 1; subst. by repeat eexists. Qed.

Lemma started_nil n ts addrs n2 : started n [] ts addrs n2 → ts = [] ∧ addrs = [].
Proof. by inversion 1. Qed.

Lemma started_length n stages ts addrs n1 :
  started n stages ts addrs n1 → length ts = length stages ∧ length addrs = length stages.
Proof. induction 1 as [|? ? ? ? ? ? ? ? ? ? ? _ IH]; simpl; lia. Qed.

Lemma bind_listener_spec s w r w' :
  bind_listener s.(stage_what) s.(stage_listen) w = (r, w') →
  w'.(rw_tasks) = w.(rw_tasks) ∧ w'.(rw_metrics) = w.(rw_metrics) ∧
  match r with
  | Ok (l, a) => bind s.(stage_listen) w.(rw_net) = (Ok l, w'.(rw_net)) ∧ local_addr l = Ok a
  | Err e => start_fails w.(rw_net) s e
  end.
Proof.
  unfold bind_listener, io_bind, io_map_err, io_zoom, io_of_result, io_ret. simpl.
  destruct (bind _ _) as [[l|e] n] eqn:Hb; simpl.
  - destruct (local_addr l) eqn:Hl; intros [= <- <-]; (do 2 (split; [done|])); [done|].
    by eapply address_fails.
  - intros [= <- <-]. do 2 (split; [done|]). by eapply bind_fails.
Qed.

(** One more transport, or an error and nothing started. *)
Definition stage_done (stages : list Stage) (joins : list nat) w
    (r : result ServerError (option string * list nat)) w' : Prop :=
  match r with
  | Ok (addr, joins') => ∃ ts,
      started w.(rw_net) stages ts (option_list addr) w'.(rw_net) ∧
      w'.(rw_tasks) = w.(rw_tasks) ++ ts ∧
      joins' = joins ++ seq (length w.(rw_tasks)) (length ts)
  | Err e => w'.(rw_tasks) = w.(rw_tasks) ∧ ∃ s, stages = [s] ∧ start_fails w.(rw_net) s e
  end.

Lemma stage_none joins w : stage_done [] joins w (Ok (None, joins)) w.
Proof. exists []. rewrite !app_nil_r. split; [constructor|done]. Qed.

Lemma stage_started s joins w l a n1 w1 :
  bind s.(stage_listen) w.(rw_net) = (Ok l, n1) → local_addr l = Ok a → w1.(rw_net) = n1 →
  w1.(rw_tasks)
  = w.(rw_tasks) ++ [mk_RunTask (mk_Server l s.(stage_app)) s.(stage_outcome) false] →
  stage_done [s] joins w (Ok (Some a, joins ++ [length w.(rw_tasks)])) w1.
Proof. intros Hb Hl <- Ht. eexists. split; [by repeat econstructor|]. by rewrite Ht. Qed.

Lemma run_sse_spec config hub joins w r w' :
  run_sse config hub joins w = (r, w') →
  stage_done (sse_stages config hub) joins w r w' ∧ w'.(rw_metrics) = w.(rw_metrics).
Proof.
  unfold run_sse, sse_stages. destruct (tc_sse _) as [sse|].
  2:{ intros [= <- <-]. split; [apply stage_none|done]. }
  set (s := mk_Stage _ _ _ _). intros H. unfold io_bind at 1 in H.
  destruct (bind_listener _ _ w) as [r1 w1] eqn:Hb.
  apply (bind_listener_spec s) in Hb as (Ht & Hm & Hb).
  destruct r1 as [[l a]|e].
  - destruct Hb as [Hb Hl]. unfold io_bind, spawn_server, io_ret in H. injection H as <- <-.
    split; [|done]. rewrite Ht. eapply stage_started; [exact Hb|exact Hl|done..].
  - injection H as <- <-. split; [|done]. split; [done|]. by exists s.
Qed.

Lemma run_admin_spec config hub joins w r w' :
  run_admin render config hub joins w = (r, w') →
  stage_done (admin_stages config hub (install_prometheus_recorder w.(rw_metrics)).1) joins w r w'.
Proof.
  unfold run_admin, admin_stages. destruct (enabled _).
  2:{ intros [= <- <-]. apply stage_none. }
  set (s := mk_Stage _ _ _ _). intros H. unfold io_bind at 1 in H.
  destruct (bind_listener _ _ w) as [r1 w1] eqn:Hb.
  apply (bind_listener_spec s) in Hb as (Ht & Hm & Hb).
  destruct r1 as [[l a]|e].
  - destruct Hb as [Hb Hl]. unfold io_bind in H. rewrite Hm in H. subst s.
    destruct (install_prometheus_recorder _) as [handle m].
    unfold spawn_server, io_ret in H. injection H as <- <-. rewrite Ht.
    eapply stage_started; [exact Hb|exact Hl|done..].
  - injection H as <- <-. split; [done|]. by exists s.
Qed.

(** The stages after the WebSocket transport. *)
Definition run_rest (config : ServerConfig) hub (ws_local : string) (joins : list nat) :
    io RunState ServerError ServerRunHandle :=
  let! (sse_local, joins) := run_sse config hub joins in
  let! (admin_local, joins) := run_admin render config hub joins in
  io_ret (mk_ServerRunHandle ws_local sse_local admin_local joins).

(** The stages before the one that fails are started. *)
Definition stopped_at (stages : list Stage) w e w' : Prop :=
  ∃ before s rest ts addrs n, stages = before ++ s :: rest ∧
    started w.(rw_net) before ts addrs n ∧ w'.(rw_tasks) = w.(rw_tasks) ++ ts ∧ start_fails n s e.

Lemma run_rest_spec config hub ws_local js w r w' :
  run_rest config hub ws_local js w = (r, w') →
  let stages := sse_stages config hub
    ++ admin_stages config hub (install_prometheus_recorder w.(rw_metrics)).1 in
  match r with
  | Ok h => ∃ ts, h.(ws_addr) = ws_local ∧ w'.(rw_tasks) = w.(rw_tasks) ++ ts ∧
      started w.(rw_net) stages ts (option_list h.(sse_addr) ++ option_list h.(admin_addr))
        w'.(rw_net) ∧
      (is_Some h.(sse_addr) ↔ is_Some config.(sc_transport).(tc_sse)) ∧
      h.(joins) = js ++ seq (length w.(rw_tasks)) (length ts)
  | Err e => stopped_at stages w e w'
  end.
Proof.
  intros H. unfold run_rest in H. unfold io_bind at 1 in H.
  destruct (run_sse config hub js w) as [r1 w1] eqn:E1. apply run_sse_spec in E1 as [E1 Hm].
  rewrite <-Hm. destruct r1 as [[addr1 js1]|e].
  2:{ injection H as <- <-. destruct E1 as (Ht & s & -> & Hf). simpl.
      eexists [], s, _, [], [], _. rewrite app_nil_r. split; [done|]. by split; [constructor|]. }
  destruct E1 as (ts1 & H1 & Ht1 & ->). unfold io_bind at 1 in H.
  destruct (run_admin render config hub _ w1) as [r2 w2] eqn:E2. apply run_admin_spec in E2.
  destruct r2 as [[addr2 js2]|e].
  - destruct E2 as (ts2 & H2 & Ht2 & ->). injection H as <- <-. exists (ts1 ++ ts2). simpl.
    split_and!; [done|by rewrite Ht2, Ht1, app_assoc|by eapply started_app| |].
    + apply started_length in H1 as [_ Hl]. revert Hl. unfold sse_stages.
      destruct addr1, (tc_sse _); simpl; try done; intros _; by rewrite !is_Some_alt.
    + by rewrite Ht1, !length_app, seq_app, app_assoc.
  - destruct E2 as (Ht2 & s & Hs & Hf). injection H as <- <-.
    exists (sse_stages config hub), s, [], ts1, (option_list addr1), w1.(rw_net).
    rewrite Hs, Ht2. done.
Qed.

(** C25: [run] starts the configured transports in order, WebSocket, then SSE and
    admin if they are configured.  Each listens on its own configured address and
    serves, on the listener bound there, its own routes for the one hub [build_hub]
    made, the WebSocket outboxes with room for at least one frame; the handle [run]
    returns has the local address of each and their tasks.  When a listener cannot
    be bound or has no address, [run] returns that error, and the transports before
    it keep running, not aborted and without a handle; when the hub cannot be built
    it returns that error and starts nothing. *)
Theorem run_starts_configured_transports (config : ServerConfig) (w w' : RunState)
    (r : result ServerError ServerRunHandle)
    (Hrun : run read_file render config w = (r, w')) :
  let handle := (install_prometheus_recorder w.(rw_metrics)).1 in
  match (build_hub read_file config w.(rw_world)).1 with
  | Err e => r = Err e ∧ w'.(rw_tasks) = w.(rw_tasks)
  | Ok hub =>
      match r with
      | Ok h => ∃ ts,
          w'.(rw_tasks) = w.(rw_tasks) ++ ts ∧
          started w.(rw_net) (configured_stages config hub handle) ts
            (h.(ws_addr) :: option_list h.(sse_addr) ++ option_list h.(admin_addr)) w'.(rw_net) ∧
          (is_Some h.(sse_addr) ↔ is_Some config.(sc_transport).(tc_sse)) ∧
          h.(joins) = seq (length w.(rw_tasks)) (length ts)
      | Err e => ∃ before s rest ts addrs n,
          configured_stages config hub handle = before ++ s :: rest ∧
          started w.(rw_net) before ts addrs n ∧
          w'.(rw_tasks) = w.(rw_tasks) ++ ts ∧ start_fails n s e
      end
  end.
Proof.
  cbn zeta. unfold run in Hrun. unfold io_bind at 1 in Hrun. unfold io_zoom in Hrun.
  change (view run_world_lens w) with (rw_world w) in Hrun.
  destruct (build_hub read_file config (rw_world w)) as [[hub|e] x] eqn:Hhub; simpl;
    [|by injection Hrun as <- <-].
  unfold io_bind at 1 in Hrun. set (w0 := update run_world_lens x w) in *.
  set (s := ws_stage config hub).
  destruct (bind_listener "ws" _ w0) as [r1 w1] eqn:Hb.
  apply (bind_listener_spec s) in Hb as (Ht & Hm & Hb).
  change (rw_tasks w0) with (rw_tasks w) in Ht. change (rw_metrics w0) with (rw_metrics w) in Hm.
  change (rw_net w0) with (rw_net w) in Hb. clearbody w0.
  destruct r1 as [[l a]|e].
  2:{ injection Hrun as <- <-. eexists [], s, _, [], [], _. rewrite app_nil_r.
      split; [done|]. by split; [constructor|]. }
  destruct Hb as [Hb Hl]. unfold io_bind at 1, spawn_server at 1 in Hrun. rewrite Ht in Hrun.
  set (w2 := mk_RunW _ _ _ _) in Hrun. apply (run_rest_spec config hub a _ w2) in Hrun.
  change (rw_metrics w2) with (rw_metrics w1) in Hrun. rewrite Hm in Hrun.
  destruct r as [h|e].
  - destruct Hrun as (ts & <- & Htasks & Hts & Hsse & Hj). simpl in Htasks, Hj.
    eexists. rewrite Htasks, <-app_assoc. split; [reflexivity|]. simpl. split; [|split; [done|]].
    + by eapply started_one; [exact Hb|exact Hl|].
    + rewrite Hj, length_app. simpl. by rewrite Nat.add_1_r.
  - destruct Hrun as (before & s' & rest & ts & addrs & n & Hst & Hts & Htasks & Hf).
    simpl in Htasks. unfold configured_stages. rewrite Hst.
    eexists (s :: before), s', rest, _, _, n. rewrite Htasks, <-app_assoc.
    split; [done|]. split; [by eapply started_one; [exact Hb|exact Hl|]|]. done.
Qed.

End run.

(** ** Stopping *)

Section stop.
Context {X : Type} `{F : !Fred X} `{AN : !AsyncNats X} `{B : Broadcast}.
Context `{Y : YrsLib} `{A : AutomergeLib} `{NO : Notifier} `{NT : Net} `{P : Prometheus}.
Implicit Types w : @RunW X F AN B Y A NO NT P.

Lemma abort_all_lookup (js : list nat) w j :
  (foldl (λ w j, abort j w) w js).(rw_tasks) !! j
  = if decide (j ∈ js) then abort_task <$> w.(rw_tasks) !! j else w.(rw_tasks) !! j.
Proof.
  revert w. induction js as [|i js IH]; intros w; cbn [foldl].
  - case_decide; set_solver.
  - rewrite IH. cbn [abort rw_tasks]. destruct (decide (j = i)) as [->|Hne].
    + rewrite list_lookup_alter_eq. destruct (rw_tasks w !! i); repeat case_decide; set_solver.
    + rewrite list_lookup_alter_ne by done. repeat case_decide; set_solver.
Qed.

(** C26: [wait] returns the outcome of the transport that ended first, also when it
    ended without an error, a panic as a task error; by then every other transport
    the handle owns is aborted.  [shutdown] aborts them all; the tasks of others are
    left alone. *)
Theorem wait_and_shutdown_stop_all (h : ServerRunHandle) (w : @RunW X F AN B Y A NO NT P) (idx first : nat)
    (outcome : JoinResult (result ServerError unit))
    (Hjoins : NoDup h.(joins)) (Hfirst : h.(joins) !! idx = Some first) :
  let '(r, w') := wait h (idx, outcome) w in
  r = match outcome with Finished inner => inner | JoinError e => Err (ServerTask e) end ∧
  (∀ j, w'.(rw_tasks) !! j
        = if decide (j ∈ h.(joins) ∧ j ≠ first)
          then abort_task <$> w.(rw_tasks) !! j else w.(rw_tasks) !! j) ∧
  (∀ j, (shutdown h w).(rw_tasks) !! j
        = if decide (j ∈ h.(joins))
          then abort_task <$> w.(rw_tasks) !! j else w.(rw_tasks) !! j).
Proof.
  unfold wait, shutdown. destruct h as [wa sa aa js]. simpl in *.
  destruct js as [|j0 js]; [done|]. split_and!; [done| |intros; apply abort_all_lookup].
  intros j. rewrite abort_all_lookup.
  pose proof (elem_of_delete_NoDup _ _ _ j Hjoins Hfirst) as Hiff.
  repeat case_decide; try done; naive_solver.
Qed.
End stop.

(** ** Witnesses *)

(** Listeners on a host where an address can be bound once. *)
Definition PortNet : Net := {|
  NetState := list string;
  TcpListener := string;
  bind a s := if decide (a ∈ s) then (Err "address in use", s) else (Ok a, a :: s);
  local_addr l := Ok l;
|}.

(** Recorders are numbered; the first one installed stays. *)
Definition CountPrometheus : Prometheus := {|
  MetricsState := N * option N;
  Recorder := N;
  PrometheusHandle := N;
  build_recorder '(n, g) := (n, ((n + 1)%N, g));
  recorder_handle r := r;
  set_global_recorder r '(n, g) :=
    match g with Some _ => (Err (), (n, g)) | None => (Ok (), (n, Some r)) end;
|}.

Section witnesses.
#[local] Existing Instances QueueFred QueueNats QueueBroadcast ListYrs ListAutomerge PlainJwt
  StarGlob LengthJson wire_codec CountNotifier PortNet CountPrometheus.

(** The default configuration with admin and SSE, SSE listening on [sse]. *)
Definition sample_run_config (sse : string) : ServerConfig :=
  mk_ServerConfig (mk_TransportConfig WsConfig_default (Some (mk_SseConfig sse "/sse/v1")))
    BrokerConfig_default ChannelPubSubConfig_default [] None None []
    (mk_AdminConfig "127.0.0.1:7200" true None) LogConfig_default.

Definition sample_run_state : @RunW Queues _ _ _ _ _ _ _ _ :=
  mk_RunW [] ([] : NetState) ((0%N, None) : MetricsState) (([], []) : Queues).

Definition sample_run (sse : string) :=
  run (X:=Queues) (λ _, Err "no such file") (λ _ _, "") (sample_run_config sse) sample_run_state.

Lemma sample_run_ok :
  is_ok (sample_run "127.0.0.1:7100").1 = true ∧
  length (rw_tasks (sample_run "127.0.0.1:7100").2) = 3 ∧
  match (sample_run "127.0.0.1:7100").1 with Ok h => joins h | Err _ => [] end = [0; 1; 2].
Proof. split_and!; vm_compute; reflexivity. Qed.

(** SSE on the WebSocket's address: the boot fails, and the WebSocket transport goes
    on serving. *)
Example failed_run_leaves_ws_running :
  is_ok (sample_run "127.0.0.1:7000").1 = false ∧
  rt_aborted <$> rw_tasks (sample_run "127.0.0.1:7000").2 = [false].
Proof. split; vm_compute; reflexivity. Qed.

Lemma run_starts_configured_transports_witness :
  ∃ h ts, (sample_run "127.0.0.1:7100").1 = Ok h ∧
    h.(ws_addr) = "127.0.0.1:7000" ∧ h.(sse_addr) = Some "127.0.0.1:7100" ∧
    h.(admin_addr) = Some "127.0.0.1:7200" ∧
    rw_tasks (sample_run "127.0.0.1:7100").2 = ts ∧
    (λ t, t.(rt_server).(srv_listener)) <$> ts
    = ["127.0.0.1:7000" : TcpListener; "127.0.0.1:7100"; "127.0.0.1:7200"].
Proof.
  pose proof (run_starts_configured_transports (X:=Queues) (λ _, Err "no such file") (λ _ _, "")
    (sample_run_config "127.0.0.1:7100") sample_run_state (sample_run "127.0.0.1:7100").2
    (sample_run "127.0.0.1:7100").1 (surjective_pairing (sample_run "127.0.0.1:7100"))) as H.
  destruct sample_run_ok as (Hok & _). cbn zeta in H.
  destruct (sample_run "127.0.0.1:7100") as [[h|e] w']; [|discriminate Hok]. cbn [fst snd] in *.
  match type of H with match ?x with _ => _ end => destruct x as [hub|e] eqn:E end;
    [|destruct H; discriminate].
  destruct H as (ts & Ht & Hs & _). exists h, ts. split; [reflexivity|].
  apply started_cons in Hs as (l1 & a1 & n1 & ts1 & addrs1 & Hb1 & Hl1 & -> & Ha1 & Hs).
  vm_compute in Hb1. injection Hb1 as <- <-. vm_compute in Hl1. injection Hl1 as <-.
  apply started_cons in Hs as (l2 & a2 & n2 & ts2 & addrs2 & Hb2 & Hl2 & -> & Ha2 & Hs).
  vm_compute in Hb2. injection Hb2 as <- <-. vm_compute in Hl2. injection Hl2 as <-.
  apply started_cons in Hs as (l3 & a3 & n3 & ts3 & addrs3 & Hb3 & Hl3 & -> & Ha3 & Hs).
  vm_compute in Hb3. injection Hb3 as <- <-. vm_compute in Hl3. injection Hl3 as <-.
  apply started_nil in Hs as [-> ->]. rewrite Ha3 in Ha2. rewrite Ha2 in Ha1.
  destruct (sse_addr h), (admin_addr h); simplify_eq/=; try discriminate.
  do 3 (split; [congruence|]). split; [exact Ht|reflexivity].
Defined.

End witnesses.

Lemma wait_and_shutdown_stop_all_witness :
  ∃ h, (sample_run "127.0.0.1:7100").1 = Ok h ∧
    (wait h (1, JoinError "panic") (sample_run "127.0.0.1:7100").2).1 = Err (ServerTask "panic").
Proof.
  destruct sample_run_ok as (Hok & _ & Hj).
  destruct (sample_run "127.0.0.1:7100") as [[h|e] w']; [|done]. simpl in *.
  exists h. split; [reflexivity|].
  pose proof (wait_and_shutdown_stop_all h w' 1 1 (JoinError "panic")) as H. rewrite Hj in H.
  destruct (wait _ _ _) as [r w'']. apply H.
  - apply (bool_decide_unpack _). vm_compute. exact I.
  - reflexivity.
Defined.
