(* ===== verification/Cli.v ===== *)
(** * The server's command line (crates/cherenkov-server/src/main.rs)

    Loading the configuration, logging, running until a transport stops or a signal
    arrives, and the exit code.  figment, tracing_subscriber, the tokio runtime and
    the signals are parameters. *)
From S2P Require Import Prelude Protocol Traits MemoryBroker Remote Crdt NamespaceAcl.
From S2P Require Import ProtoWire SchemaRegistry Jwt Session Hub Config Admin App Serve Run RunProps.

(** figment: sources are merged, later ones win, and the whole is deserialised. *)
Class Figment `{JS : JsonEngine} : Type := {
  FigmentBuilder : Type;
  figment_error : Type;
  figment_new : FigmentBuilder;
  merge_yaml_file : string → FigmentBuilder → FigmentBuilder;
  merge_env : string → string → FigmentBuilder → FigmentBuilder;
  extract : FigmentBuilder → result figment_error ServerConfig;
  show_figment_error : figment_error → string;
}.

(** tracing_subscriber: filters, and the subscriber of the process. *)
Class Tracing : Type := {
  EnvFilter : Type;
  filter_try_new : string → option EnvFilter;
  filter_new : string → EnvFilter;
}.

(** [ServerConfig::load]. *)
Definition load `{FG : Figment} (path : string) : result figment_error ServerConfig :=
  extract (merge_env "CHERENKOV_" "__" (merge_yaml_file path figment_new)).

Definition RUNTIME_ERROR : N := 1.
Definition CONFIG_ERROR : N := 3.
Definition SUCCESS : N := 0.

Section cli.
Context {X : Type} `{F : !Fred X} `{AN : !AsyncNats X} `{C : ProstCodec} `{B : Broadcast}.
Context `{Y : YrsLib} `{A : AutomergeLib} `{J : JwtLib} `{G : GlobEngine} `{JS : JsonEngine}.
Context `{NO : Notifier} `{NT : Net} `{P : Prometheus} `{FG : !Figment} `{T : Tracing}.
Variable read_file : string → result string Bytes.
Variable render : PrometheusHandle → @HubCore (@AppStream X F AN) NO → string.

Abbreviation RunState := (@RunW X F AN B Y A NO NT P).

(** ** Errors: an [anyhow::Error] is its chain, outermost first *)

Inductive Cause : Type :=
| FigmentCause (e : figment_error)
| Message (msg : string).
Definition AnyError : Type := list Cause.

Definition is_figment (c : Cause) : bool :=
  match c with FigmentCause _ => true | Message _ => false end.

Definition show_cause (c : Cause) : string :=
  match c with FigmentCause e => show_figment_error e | Message m => m end.

(** [{err:#}]: the chain, separated by colons. *)
Definition show_chain (e : AnyError) : string := String.concat ": " (show_cause <$> e).

Definition exit_code_for_error (err : AnyError) : N :=
  if existsb is_figment err then CONFIG_ERROR else RUNTIME_ERROR.

(** ** Logging *)

(** The subscriber of the process, if one is installed; [try_init] does not replace
    it and its error is dropped. *)
Definition init_tracing (config : ServerConfig) (installed : option (EnvFilter * LogFormat)) :
    option (EnvFilter * LogFormat) :=
  let filter := match filter_try_new config.(sc_log).(level) with
                | Some f => f
                | None => default (filter_new "info") (filter_try_new "info")
                end in
  match installed with
  | Some s => Some s
  | None => Some (filter, config.(sc_log).(format))
  end.

(** ** Serving *)

(** What ends the [select!] of [serve]: a task that ended, or a signal. *)
Inductive Wake : Type :=
| Stopped (first : nat * JoinResult (result ServerError unit))
| Signal.

(** Whether the signal future has resolved: [ctrl_c] resolves also when its handler
    cannot be installed; without a SIGTERM handler that branch stays pending. *)
Definition shutdown_signal (ctrl_c : option (result string unit)) (sigterm : result string bool) :
    bool :=
  match ctrl_c, sigterm with
  | Some _, _ => true
  | None, Ok received => received
  | None, Err _ => false
  end.

Definition serve (config : ServerConfig) (wake : Wake) : io RunState AnyError unit :=
  let! handle := io_map_err (λ e, [Message (show_server_error e)])
                   (run read_file render config) in
  match wake with
  | Stopped first => λ w,
      match wait handle first w with
      | (Err err, w) => (Err [Message (show_server_error err)], w)
      | (Ok _, w) => (Ok (), w)
      end
  | Signal => io_ret ()
  end.

(** [runtime] is the outcome of building the tokio runtime. *)
Definition run_cli (path : string) (runtime : result string unit) (wake : Wake) :
    io (option (EnvFilter * LogFormat) * RunState) AnyError unit := λ '(log, w),
  match load path with
  | Err e => (Err [Message ("loading config from " +:+ path); FigmentCause e], (log, w))
  | Ok config =>
      let log := init_tracing config log in
      match runtime with
      | Err e => (Err [Message "building tokio runtime"; Message e], (log, w))
      | Ok _ => let '(r, w) := serve config wake w in (r, (log, w))
      end
  end.

(** The exit code and what is printed on standard error. *)
Definition main (path : string) (runtime : result string unit) (wake : Wake)
    (w : option (EnvFilter * LogFormat) * RunState) : N * option string :=
  match (run_cli path runtime wake w).1 with
  | Ok _ => (SUCCESS, None)
  | Err err => (exit_code_for_error err, Some ("cherenkov-server: " +:+ show_chain err))
  end.

(** The errors of the stages after loading are plain messages. *)
Lemma serve_error_messages config wake w e w' :
  serve config wake w = (Err e, w') → existsb is_figment e = false.
Proof.
  unfold serve. intros H. io_inv H; [done|].
  destruct wake as [first|]; [|done].
  destruct (wait a first w0) as [[[]|err] w1]; by simplify_eq.
Qed.

Lemma main_code path runtime wake w :
  (main path runtime wake w).1 =
    match load path with
    | Err _ => CONFIG_ERROR
    | Ok config =>
        match runtime with
        | Err _ => RUNTIME_ERROR
        | Ok _ => match (serve config wake w.2).1 with
                  | Ok _ => SUCCESS
                  | Err _ => RUNTIME_ERROR
                  end
        end
    end.
Proof.
  unfold main, run_cli. destruct w as [log w]. destruct (load path) as [config|e]; [|done].
  destruct runtime as [[]|e]; [|done]. simpl.
  destruct (serve config wake w) as [[[]|e] w'] eqn:Hs; simpl; [done|].
  unfold exit_code_for_error. by rewrite (serve_error_messages _ _ _ _ _ Hs).
Qed.

(** C28: the process exits with 3 exactly when the configuration does not load; a
    configuration error that [build_hub] finds (a schema, an ACL rule, an empty
    secret, a broker without a URL) exits with 1, like a failure at run time,
    because [serve] keeps only its text. *)
Theorem exit_codes (path : string) (runtime : result string unit) (wake : Wake)
    (w : option (EnvFilter * LogFormat) * RunState) :
  ((main path runtime wake w).1 = CONFIG_ERROR ↔ ∃ e, load path = Err e) ∧
  (∀ config e x, load path = Ok config → runtime = Ok () →
     build_hub read_file config w.2.(rw_world) = (Err e, x) →
     main path runtime wake w
     = (RUNTIME_ERROR, Some ("cherenkov-server: " +:+ show_server_error e))) ∧
  ((main path runtime wake w).1 = SUCCESS ↔
     ∃ config, load path = Ok config ∧ runtime = Ok () ∧ (serve config wake w.2).1 = Ok ()).
Proof.
  split_and!.
  - rewrite main_code. destruct (load path) as [config|e]; [|split; [eauto|done]].
    destruct runtime as [[]|e]; [destruct (serve config wake w.2).1|]; split; try done; naive_solver.
  - intros config e x Hl -> Hb. unfold main, run_cli. destruct w as [log w]. rewrite Hl.
    unfold serve, run. simpl. unfold io_bind at 1, io_map_err. unfold io_bind at 1.
    unfold io_zoom at 1. simpl in Hb. simpl. rewrite Hb. done.
  - rewrite main_code. destruct (load path) as [config|e]; [|split; [done|naive_solver]].
    destruct runtime as [[]|e]; [|split; [done|naive_solver]].
    destruct (serve config wake w.2).1 as [[]|e] eqn:Hs; split; try done; [eauto|].
    intros (config' & [= <-] & _ & ?). congruence.
Qed.
End cli.

(** ** A witness *)

(** One file loads, with an empty secret; another is no YAML. *)
Definition FileFigment : @Figment LengthJson := {|
  FigmentBuilder := option string;
  figment_error := string;
  figment_new := None;
  merge_yaml_file p _ := Some p;
  merge_env _ _ b := b;
  extract b :=
    if decide (b = Some "server.yaml") then
      Ok (mk_ServerConfig TransportConfig_default BrokerConfig_default ChannelPubSubConfig_default
            [] (Some (mk_AuthConfig "" [] None)) None [] AdminConfig_default LogConfig_default)
    else Err "mapping values are not allowed";
  show_figment_error e := e;
|}.

Definition LevelTracing : Tracing :=
  {| EnvFilter := string; filter_try_new l := Some l; filter_new l := l |}.

Section witness.
#[local] Existing Instances QueueFred QueueNats QueueBroadcast ListYrs ListAutomerge PlainJwt
  StarGlob LengthJson wire_codec CountNotifier PortNet CountPrometheus FileFigment LevelTracing.

Definition sample_main (path : string) : N * option string :=
  main (X:=Queues) (λ _, Err "no such file") (λ _ _, "") path (Ok ()) Signal
    (None, sample_run_state).
End witness.

Lemma exit_codes_witness :
  sample_main "server.yaml"
  = (1%N, Some "cherenkov-server: auth configuration error: auth.hmac_secret must not be empty") ∧
  (sample_main "other.yaml").1 = 3%N.
Proof.
  destruct (exit_codes (X:=Queues) (F:=QueueFred) (AN:=QueueNats) (C:=wire_codec)
    (B:=QueueBroadcast) (Y:=ListYrs) (A:=ListAutomerge) (J:=PlainJwt) (G:=StarGlob)
    (JS:=LengthJson) (NO:=CountNotifier) (NT:=PortNet) (P:=CountPrometheus) (FG:=FileFigment)
    (T:=LevelTracing) (λ _, Err "no such file") (λ _ _, "") "server.yaml" (Ok ()) Signal
    (None, sample_run_state)) as (_ & H & _).
  split; [|vm_compute; reflexivity].
  unfold sample_main. refine (H _ (ServerAuth "auth.hmac_secret must not be empty") ([], []) _ _ _);
    reflexivity.
Defined.
