(* ===== verification/Json.v ===== *)
(** * JSON documents

    The operations of serde_json's [Value] that the generator of
    crates/cherenkov-sdk-ts uses, the laws the theorems need, and an instance: a
    tree of JSON values with a small reader and the fragment of JSON Schema the
    generator understands. *)
From S2P Require Import Prelude SchemaRegistry.

Class JsonAccess `{J : JsonEngine} : Type := {
  get : Value → string → option Value;
  as_str : Value → option string;
  as_array : Value → option (list Value);
  as_object : Value → option (list (string * Value));
  is_number : Value → bool;
  is_boolean : Value → bool;
  value_string : string → Value;
  value_object : gmap string Value → Value;
  from_str : string → result string Value;
}.

Section json.
Context `{A : JsonAccess}.

(** A document is a finite tree, and what is written into one is read back. *)
Class JsonAccessLaws : Type := {
  value_size : Value → nat;
  get_size v k c : get v k = Some c → value_size c < value_size v;
  as_object_size v m k c : as_object v = Some m → (k, c) ∈ m → value_size c < value_size v;
  get_value_object m k : get (value_object m) k = m !! k;
  get_value_string s k : get (value_string s) k = None;
  as_str_value_string s : as_str (value_string s) = Some s;
  from_str_slice s : from_str s = from_slice (bytes_of_string s);
}.

(** The JSON type a document has, by the name JSON Schema gives it. *)
Definition has_type (ty : string) (x : Value) : Prop :=
  if decide (ty = "string") then is_Some (as_str x)
  else if decide (ty = "integer" ∨ ty = "number") then is_number x = true
  else if decide (ty = "boolean") then is_boolean x = true
  else if decide (ty = "array") then is_Some (as_array x)
  else if decide (ty = "object") then is_Some (as_object x)
  else True.

(** The occurrences of subschemas under [items] and [properties]. *)
Inductive subschema (s : Value) : Value → Prop :=
| subschema_refl : subschema s s
| subschema_items t i : subschema s t → get t "items" = Some i → subschema s i
| subschema_property t ps m k p : subschema s t → get t "properties" = Some ps →
    as_object ps = Some m → (k, p) ∈ m → subschema s p.

(** Documents without the two keywords that change what the others mean: [$ref]
    (which overrides its siblings up to draft 7) and [prefixItems] (after which
    [items] is about the rest of the array). *)
Definition plain_schema (s : Value) : Prop := ∀ t, subschema s t →
  get t "$ref" = None ∧ get t "prefixItems" = None.

(** What JSON Schema says of the keywords the generator looks at.  [valid root s x]:
    the document [x] is valid against the subschema [s] of [root]. *)
Class JsonSchemaLaws : Type := {
  valid : Value → Value → Value → Prop;
  validate_valid s v x u :
    validator_for s = Ok v → validator_validate v x = Ok u → valid s s x;
  valid_type root s x t ty : get s "$ref" = None → valid root s x →
    get s "type" = Some t → as_str t = Some ty → has_type ty x;
  valid_items root s x i l m : get s "$ref" = None → get s "prefixItems" = None →
    valid root s x → get s "items" = Some i → as_object i = Some m →
    as_array x = Some l → Forall (valid root i) l;
  valid_property root s x ps m k p o c : get s "$ref" = None → valid root s x →
    get s "properties" = Some ps → as_object ps = Some m → (k, p) ∈ m →
    as_object x = Some o → get x k = Some c → valid root p c;
  valid_required root s x r l n k o : get s "$ref" = None → valid root s x →
    get s "required" = Some r → as_array r = Some l → n ∈ l → as_str n = Some k →
    as_object x = Some o → is_Some (get x k);
  (** Only an object has members. *)
  get_object v k c : get v k = Some c → is_Some (as_object v);
}.

Lemma subschema_trans s t u : subschema s t → subschema t u → subschema s u.
Proof. induction 2; [done|by eapply subschema_items|by eapply subschema_property]. Qed.

Lemma plain_subschema s t : plain_schema s → subschema s t → plain_schema t.
Proof. intros Hs Ht u Hu. apply Hs. by eapply subschema_trans. Qed.

Lemma plain_here s : plain_schema s → get s "$ref" = None ∧ get s "prefixItems" = None.
Proof. intros Hs. apply Hs, subschema_refl. Qed.

Lemma plain_items s i : plain_schema s → get s "items" = Some i → plain_schema i.
Proof.
  intros Hs Hi. eapply plain_subschema; [done|]. eapply subschema_items; [apply subschema_refl|done].
Qed.

Lemma plain_property s ps m k p :
  plain_schema s → get s "properties" = Some ps → as_object ps = Some m → (k, p) ∈ m →
  plain_schema p.
Proof.
  intros Hs Hp Hm Hk. eapply plain_subschema; [done|].
  eapply subschema_property; [apply subschema_refl|done..].
Qed.
End json.
Arguments JsonAccessLaws {J} A.
Arguments JsonSchemaLaws {J} A.

#[export] Hint Resolve plain_items plain_property : cherenkov.

(** ** An instance: trees *)

Inductive Json : Type :=
| JNull
| JBool (b : bool)
| JNum (n : N)
| JStr (s : string)
| JArr (l : list Json)
| JObj (m : list (string * Json)).

Fixpoint json_size (j : Json) : nat :=
  match j with
  | JArr l => S (sum_list_with json_size l)
  | JObj m => S (sum_list_with (λ e, json_size e.2) m)
  | _ => 1
  end.

Definition json_get (j : Json) (k : string) : option Json :=
  match j with JObj m => (list_to_map m : gmap string Json) !! k | _ => None end.
Definition json_str (j : Json) : option string :=
  match j with JStr s => Some s | _ => None end.
Definition json_array (j : Json) : option (list Json) :=
  match j with JArr l => Some l | _ => None end.
Definition json_object (j : Json) : option (list (string * Json)) :=
  match j with JObj m => Some m | _ => None end.

(** The fragment of JSON Schema: [type], [items], [properties], [required]. *)
Definition json_has_type (ty : string) (x : Json) : bool :=
  match x with
  | JNull => bool_decide (ty = "null")
  | JBool _ => bool_decide (ty = "boolean")
  | JNum _ => bool_decide (ty = "integer" ∨ ty = "number")
  | JStr _ => bool_decide (ty = "string")
  | JArr _ => bool_decide (ty = "array")
  | JObj _ => bool_decide (ty = "object")
  end.

Definition json_type_names : list string :=
  ["null"; "boolean"; "integer"; "number"; "string"; "array"; "object"].

Definition opt_forall {A} (o : option A) (f : A → bool) : bool :=
  match o with Some a => f a | None => true end.

Fixpoint json_valid (fuel : nat) (s x : Json) : bool :=
  match fuel with
  | O => false
  | S fuel =>
      opt_forall (json_get s "type" ≫= json_str) (λ ty, json_has_type ty x)
      && opt_forall (json_get s "items") (λ i,
           opt_forall (json_array x) (λ l, forallb (json_valid fuel i) l))
      && opt_forall (json_get s "properties" ≫= json_object) (λ m,
           forallb (λ '(k, p), opt_forall (json_get x k) (json_valid fuel p)) m)
      && opt_forall (json_get s "required" ≫= json_array) (λ l,
           match x with
           | JObj _ => forallb (λ n, opt_forall (json_str n)
                         (λ k, bool_decide (is_Some (json_get x k)))) l
           | _ => true
           end)
  end.

(** A reader of JSON text without blanks, escapes, signs and fractions. *)
Definition quote : ascii := "034"%char.

Fixpoint read_digits (acc : N) (s : string) : N * string :=
  match s with
  | String a s' =>
      let d := N_of_ascii a in
      if ((48 <=? d) && (d <=? 57))%N then read_digits (10 * acc + (d - 48)) s' else (acc, s)
  | EmptyString => (acc, s)
  end.

Definition read_string (s : string) : option (string * string) :=
  match s with
  | String a s' => if decide (a = quote) then split_once quote s' else None
  | EmptyString => None
  end.

(** Items up to the closing character, the first one being next. *)
Fixpoint read_items {A} (item : string → option (A * string)) (close : ascii) (fuel : nat)
    (s : string) : option (list A * string) :=
  match fuel with
  | O => None
  | S fuel =>
      '(a, s) ← item s;
      match s with
      | String c s' =>
          if decide (c = close) then Some ([a], s')
          else if decide (c = ","%char) then
            '(l, s) ← read_items item close fuel s'; Some (a :: l, s)
          else None
      | EmptyString => None
      end
  end.

Definition read_list {A} (item : string → option (A * string)) (close : ascii) (fuel : nat)
    (s : string) : option (list A * string) :=
  match s with
  | String c s' => if decide (c = close) then Some ([], s') else read_items item close fuel s
  | EmptyString => None
  end.

Fixpoint read_json (fuel : nat) (s : string) : option (Json * string) :=
  match fuel with
  | O => None
  | S fuel =>
      let member s :=
        '(k, s) ← read_string s; s ← strip_prefix ":" s;
        '(j, s) ← read_json fuel s; Some ((k, j), s) in
      match s with
      | String "[" s' => '(l, s) ← read_list (read_json fuel) "]" fuel s'; Some (JArr l, s)
      | String "{" s' => '(m, s) ← read_list member "}" fuel s'; Some (JObj m, s)
      | String "n" s' => s ← strip_prefix "ull" s'; Some (JNull, s)
      | String "t" s' => s ← strip_prefix "rue" s'; Some (JBool true, s)
      | String "f" s' => s ← strip_prefix "alse" s'; Some (JBool false, s)
      | String a _ =>
          if decide (a = quote) then '(k, s) ← read_string s; Some (JStr k, s)
          else if ((48 <=? N_of_ascii a) && (N_of_ascii a <=? 57))%N then
            let '(n, s) := read_digits 0 s in Some (JNum n, s)
          else None
      | EmptyString => None
      end
  end.

Definition tree_from_str (s : string) : result string Json :=
  match read_json (S (String.length s)) s with
  | Some (j, "") => Ok j
  | _ => Err "expected value"
  end.

Definition TreeJson : JsonEngine := {|
  Value := Json;
  Validator := Json;
  validator_for s :=
    match s with
    | JBool _ => Ok s
    | JObj _ => if opt_forall (json_get s "type" ≫= json_str)
                     (λ ty, bool_decide (ty ∈ json_type_names))
                then Ok s else Err "not a type"
    | _ => Err "not a schema"
    end;
  from_slice b := tree_from_str (string_of_bytes b);
  validator_validate s x := if json_valid (json_size s) s x then Ok () else Err "not valid";
|}.

Definition TreeAccess : JsonAccess (J:=TreeJson) := {|
  get := json_get : @Value TreeJson → string → option (@Value TreeJson);
  as_str := json_str;
  as_array := json_array;
  as_object := json_object;
  is_number j := match j with JNum _ => true | _ => false end;
  is_boolean j := match j with JBool _ => true | _ => false end;
  value_string := JStr;
  value_object m := JObj (map_to_list m);
  from_str := tree_from_str;
|}.

Lemma json_size_pos j : 0 < json_size j.
Proof. destruct j; simpl; lia. Qed.

Lemma json_member_size m k c : (k, c) ∈ m → json_size c < json_size (JObj m).
Proof.
  intros Hk. simpl. enough (json_size c ≤ sum_list_with (λ e, json_size e.2) m) by lia.
  induction m as [|e m IH]; [by apply elem_of_nil in Hk|]. simpl.
  apply elem_of_cons in Hk as [<-|Hk]; simpl; [lia|]. specialize (IH Hk). lia.
Qed.

Lemma json_get_member j k c : json_get j k = Some c → ∃ m, j = JObj m ∧ (k, c) ∈ m.
Proof.
  destruct j as [| | | | |m]; simpl; [done..|]. intros Hk%elem_of_list_to_map_2. eauto.
Qed.

Lemma json_get_size j k c : json_get j k = Some c → json_size c < json_size j.
Proof. intros (m & -> & Hk)%json_get_member. by eapply json_member_size. Qed.

Lemma tree_laws : JsonAccessLaws TreeAccess.
Proof.
  refine {| value_size := json_size : @Value TreeJson → nat |}; simpl.
  - apply json_get_size.
  - intros [| | | | |m'] m k c; simpl; try done. intros [= ->]. apply json_member_size.
  - intros m k. by rewrite list_to_map_to_list.
  - done.
  - done.
  - intros s. by rewrite string_of_bytes_of_string.
Defined.

(** Every unit of fuel a validation used is enough for its parts, and the whole
    depth is enough for the whole. *)
Lemma opt_forall_iff {A} (o : option A) f :
  opt_forall o f = true ↔ ∀ a, o = Some a → f a = true.
Proof. destruct o; naive_solver. Qed.

Lemma json_valid_mono n m s x : json_valid n s x = true → n ≤ m → json_valid m s x = true.
Proof.
  revert m s x. induction n as [|n IH]; intros [|m] s x; simpl; [done..|lia|]. intros Hv Hle.
  rewrite !andb_true_iff, !opt_forall_iff in *. destruct Hv as [[[Ht Hi] Hp] Hr].
  split_and!; [done| | |done].
  - intros i Hg. specialize (Hi i Hg). rewrite opt_forall_iff in *. intros l Hl.
    specialize (Hi l Hl). rewrite forallb_forall in *. intros y Hy. apply IH; [auto|lia].
  - intros ps Hg. specialize (Hp ps Hg). rewrite forallb_forall in *. intros [k p] Hk.
    specialize (Hp _ Hk). simpl in Hp. rewrite opt_forall_iff in *. intros c Hc.
    apply IH; [auto|lia].
Qed.

Lemma tree_schema_laws : JsonSchemaLaws TreeAccess.
Proof.
  refine (@Build_JsonSchemaLaws TreeJson TreeAccess
    (λ _ s x : Json, ∃ n, json_valid n s x = true) _ _ _ _ _ _); simpl.
  - intros s v x u Hv. assert (v = s) as -> by (destruct s; repeat case_match; congruence).
    destruct (json_valid (json_size s) s x) eqn:E; [eauto|done].
  - intros _ s x t ty _ [[|n] Hv] Ht Hty; [done|]. simpl in Hv.
    rewrite !andb_true_iff, !opt_forall_iff in Hv. destruct Hv as [[[Hv _] _] _].
    rewrite Ht in Hv. simpl in Hv. specialize (Hv ty Hty). unfold has_type.
    repeat case_decide; subst; destruct x; simpl in *; try done; naive_solver.
  - intros _ s x i l m _ _ [[|n] Hv] Hi Hm Hl; [done|]. simpl in Hv.
    rewrite !andb_true_iff, !opt_forall_iff in Hv. destruct Hv as [[[_ Hv] _] _].
    specialize (Hv i Hi). rewrite opt_forall_iff in Hv. specialize (Hv l Hl).
    rewrite forallb_forall in Hv. apply list.Forall_forall. intros y Hy. exists n.
    by apply Hv, list_elem_of_In.
  - intros _ s x ps m k p o c _ [[|n] Hv] Hps Hm Hk Ho Hc; [done|]. simpl in Hv.
    rewrite !andb_true_iff, !opt_forall_iff in Hv. destruct Hv as [[[_ _] Hv] _].
    rewrite Hps in Hv. specialize (Hv m Hm). rewrite forallb_forall in Hv.
    specialize (Hv (k, p) (proj1 (list_elem_of_In _ _) Hk)). simpl in Hv.
    rewrite opt_forall_iff in Hv. exists n. by apply Hv.
  - intros _ s x r l y k o _ [[|n] Hv] Hr Hl Hy Hk Ho; [done|]. simpl in Hv.
    rewrite !andb_true_iff, !opt_forall_iff in Hv. destruct Hv as [_ Hv].
    rewrite Hr in Hv. specialize (Hv l Hl). destruct x; simplify_eq/=.
    rewrite forallb_forall in Hv. specialize (Hv y (proj1 (list_elem_of_In _ _) Hy)).
    rewrite opt_forall_iff in Hv. by apply (bool_decide_unpack _), Is_true_true, Hv.
  - intros v k c (m & -> & _)%json_get_member. by eexists.
Defined.
