(* ===== verification/Deserialize.v ===== *)
(** * Reading the configuration from a document

    What [#[derive(Deserialize)]] makes of the types of
    crates/cherenkov-server/src/config.rs, attribute by attribute: fields and their
    defaults, [deny_unknown_fields], [rename_all], [Option] and the collections.  A
    document is a JSON tree; a struct is read from a map and an enum from a name.
    Every configuration can be written as a document that reads back as it was. *)
From S2P Require Import Prelude SchemaRegistry Json Config.

Section deserialize.
#[local] Existing Instance TreeJson.

(** A reader of [A]; the messages are not serde's. *)
Definition reader (A : Type) : Type := Json → result string A.

(** ** The types of the standard library *)

Definition de_bool : reader bool := λ j,
  match j with JBool b => Ok b | _ => Err "expected a boolean" end.

(** [usize] and [u64]. *)
Definition de_u64 : reader N := λ j,
  match j with
  | JNum n => if decide (is_u64 n) then Ok n else Err "integer out of range"
  | _ => Err "expected an integer"
  end.

Definition de_string : reader string := λ j,
  match j with JStr s => Ok s | _ => Err "expected a string" end.

(** Decimal digits, with or without a leading zero. *)
Definition decimal (zero_prefix : bool) (bound : N) (s : string) : bool :=
  match s with
  | "" => false
  | String a s' =>
      match read_digits 0 s with
      | (n, "") => (n <=? bound)%N && (zero_prefix || bool_decide (s' = "")
                                       || negb (bool_decide (a = "0"%char)))
      | _ => false
      end
  end.

(** The text of an IPv4 socket address. *)
Definition is_socket_addr_v4 (s : string) : bool :=
  match ('(ip, port) ← split_once ":"%char s;
         '(a, r) ← split_once "."%char ip; '(b, r) ← split_once "."%char r;
         '(c, d) ← split_once "."%char r; Some (a, b, c, d, port)) with
  | Some (a, b, c, d, port) => forallb (decimal false 255) [a; b; c; d] && decimal true 65535 port
  | None => false
  end.

(** [SocketAddr] from its text: the IPv6 syntax is left open. *)
Variable is_socket_addr_v6 : string → bool.
Definition is_socket_addr (s : string) : bool := is_socket_addr_v4 s || is_socket_addr_v6 s.
Definition de_addr : reader string := λ j,
  match j with
  | JStr s => if is_socket_addr s then Ok s else Err "invalid socket address syntax"
  | _ => Err "expected a string"
  end.

Definition de_option {A} (d : reader A) : reader (option A) := λ j,
  match j with JNull => Ok None | _ => let? a := d j in Ok (Some a) end.

Fixpoint de_items {A} (d : reader A) (l : list Json) : result string (list A) :=
  match l with
  | [] => Ok []
  | j :: l => let? a := d j in let? l := de_items d l in Ok (a :: l)
  end.
Definition de_vec {A} (d : reader A) : reader (list A) := λ j,
  match j with JArr l => de_items d l | _ => Err "expected a sequence" end.

(** The entries of a map arrive in the order of the keys. *)
Fixpoint de_entries {A} (d : reader A) (m : list (string * Json)) : result string (BTreeMap A) :=
  match m with
  | [] => Ok []
  | (k, j) :: m => let? a := d j in let? m := de_entries d m in Ok ((k, a) :: m)
  end.
Definition de_map {A} (d : reader A) : reader (BTreeMap A) := λ j,
  match j with JObj m => de_entries d m | _ => Err "expected a map" end.

(** ** Enums and structs *)

(** The variants by the names [rename_all] gives them. *)
Fixpoint de_name {A} (names : list (string * A)) (s : string) : result string A :=
  match names with
  | [] => Err "unknown variant"
  | (n, a) :: names => if decide (s = n) then Ok a else de_name names s
  end.
Definition de_enum {A} (names : list (string * A)) : reader A := λ j,
  match j with JStr s => de_name names s | _ => Err "expected a variant" end.

(** [deny_unknown_fields]: every key is one of [fields]. *)
Definition known_only (fields : list string) (m : list (string * Json)) : bool :=
  forallb (λ e, bool_decide (e.1 ∈ fields)) m.

Definition de_struct {A} (fields : list string) (build : list (string * Json) → result string A) :
    reader A := λ j,
  match j with
  | JObj m => if known_only fields m then build m else Err "unknown field"
  | _ => Err "expected a struct"
  end.

Fixpoint member (k : string) (m : list (string * Json)) : option Json :=
  match m with
  | [] => None
  | (k', j) :: m => if decide (k' = k) then Some j else member k m
  end.

(** A field with its default, and a field that must be there. *)
Definition field {A} (m : list (string * Json)) (k : string) (d : reader A) (dflt : A) :
    result string A :=
  match member k m with Some j => d j | None => Ok dflt end.
Definition required {A} (m : list (string * Json)) (k : string) (d : reader A) :
    result string A :=
  match member k m with Some j => d j | None => Err "missing field" end.

(** ** The configuration *)

Definition de_sse : reader SseConfig := de_struct ["listen"; "path_prefix"] (λ m,
  let dflt := SseConfig_default in
  let? listen := field m "listen" de_addr dflt.(sse_listen) in
  let? path_prefix := field m "path_prefix" de_string dflt.(sse_path_prefix) in
  Ok (mk_SseConfig listen path_prefix)).

Definition de_ws : reader WsConfig := de_struct ["listen"; "path"; "outbox_capacity"] (λ m,
  let dflt := WsConfig_default in
  let? listen := field m "listen" de_addr dflt.(ws_listen) in
  let? path := field m "path" de_string dflt.(ws_path) in
  let? outbox_capacity := field m "outbox_capacity" de_u64 dflt.(ws_outbox_capacity) in
  Ok (mk_WsConfig listen path outbox_capacity)).

Definition de_transport : reader TransportConfig := de_struct ["ws"; "sse"] (λ m,
  let dflt := TransportConfig_default in
  let? ws := field m "ws" de_ws dflt.(tc_ws) in
  let? sse := field m "sse" (de_option de_sse) dflt.(tc_sse) in
  Ok (mk_TransportConfig ws sse)).

Definition BrokerBackend_names : list (string * BrokerBackend) :=
  [("memory", Memory); ("redis", Redis); ("nats", Nats)].

Definition de_broker : reader BrokerConfig :=
  de_struct ["backend"; "capacity"; "redis_url"; "nats_url"] (λ m,
  let dflt := BrokerConfig_default in
  let? backend := field m "backend" (de_enum BrokerBackend_names) dflt.(backend) in
  let? capacity := field m "capacity" de_u64 dflt.(broker_capacity) in
  let? redis_url := field m "redis_url" (de_option de_string) dflt.(redis_url) in
  let? nats_url := field m "nats_url" (de_option de_string) dflt.(nats_url) in
  Ok (mk_BrokerConfig backend capacity redis_url nats_url)).

Definition de_admin : reader AdminConfig := de_struct ["listen"; "enabled"; "auth_token"] (λ m,
  let dflt := AdminConfig_default in
  let? listen := field m "listen" de_addr dflt.(admin_listen) in
  let? enabled := field m "enabled" de_bool dflt.(enabled) in
  let? auth_token := field m "auth_token" (de_option de_string) dflt.(auth_token) in
  Ok (mk_AdminConfig listen enabled auth_token)).

Definition de_channel_pubsub : reader ChannelPubSubConfig :=
  de_struct ["history_size"; "history_ttl_seconds"] (λ m,
  let dflt := ChannelPubSubConfig_default in
  let? history_size := field m "history_size" de_u64 dflt.(cfg_history_size) in
  let? history_ttl_seconds := field m "history_ttl_seconds" de_u64 dflt.(history_ttl_seconds) in
  Ok (mk_ChannelPubSubConfig history_size history_ttl_seconds)).

Definition SchemaKind_names : list (string * SchemaKind) := [("json-schema", JsonSchema)].

(** A [JsonValue] is the document itself; under [Option], null is [None]. *)
Definition de_namespace : reader NamespaceConfig :=
  de_struct ["kind"; "schema"; "schema_path"] (λ m,
  let dflt := NamespaceConfig_default in
  let? kind := field m "kind" (de_enum SchemaKind_names) dflt.(nc_kind) in
  let? schema := field m "schema" (de_option Ok) dflt.(nc_schema) in
  let? schema_path := field m "schema_path" (de_option de_string) dflt.(nc_schema_path) in
  Ok (mk_NamespaceConfig kind schema schema_path)).
Definition de_namespaces : reader NamespacesConfig := de_map de_namespace.

Definition ChannelKindName_names : list (string * ChannelKindName) :=
  [("pubsub", KindPubsub); ("crdt-yjs", KindCrdtYjs); ("crdt-automerge", KindCrdtAutomerge)].
Definition de_channel_kinds : reader ChannelKindsConfig :=
  de_map (de_enum ChannelKindName_names).

Definition de_auth : reader AuthConfig := de_struct ["hmac_secret"; "audiences"; "issuer"] (λ m,
  let dflt := AuthConfig_default in
  let? hmac_secret := field m "hmac_secret" de_string dflt.(hmac_secret) in
  let? audiences := field m "audiences" (de_vec de_string) dflt.(cfg_audiences) in
  let? issuer := field m "issuer" (de_option de_string) dflt.(cfg_issuer) in
  Ok (mk_AuthConfig hmac_secret audiences issuer)).

Definition AclEffectConfig_names : list (string * AclEffectConfig) :=
  [("allow", CfgAllow); ("deny", CfgDeny)].
Definition AclActionConfig_names : list (string * AclActionConfig) :=
  [("subscribe", CfgSubscribe); ("publish", CfgPublish); ("any", CfgAny)].

Definition de_acl_rule : reader AclRuleConfig :=
  de_struct ["effect"; "channel"; "subject"; "action"] (λ m,
  let? effect := required m "effect" (de_enum AclEffectConfig_names) in
  let? channel := required m "channel" de_string in
  let? subject := field m "subject" (de_option de_string) None in
  let? action := field m "action" (de_enum AclActionConfig_names) CfgAny in
  Ok (mk_AclRuleConfig effect channel subject action)).

Definition de_acl : reader AclConfig := de_struct ["rules"; "default_allow"] (λ m,
  let dflt := AclConfig_default in
  let? rules := field m "rules" (de_vec de_acl_rule) dflt.(acl_rules) in
  let? default_allow := field m "default_allow" de_bool false in
  Ok (mk_AclConfig rules default_allow)).

Definition LogFormat_names : list (string * LogFormat) := [("json", LogJson); ("pretty", LogPretty)].
Definition de_log : reader LogConfig := de_struct ["level"; "format"] (λ m,
  let dflt := LogConfig_default in
  let? level := field m "level" de_string dflt.(level) in
  let? format := field m "format" (de_enum LogFormat_names) dflt.(format) in
  Ok (mk_LogConfig level format)).

Definition ServerConfig_fields : list string :=
  ["transport"; "broker"; "channel_pubsub"; "namespaces"; "auth"; "acl"; "channel_kinds";
   "admin"; "log"].

Definition de_server : reader ServerConfig := de_struct ServerConfig_fields (λ m,
  let dflt := ServerConfig_default in
  let? transport := field m "transport" de_transport dflt.(sc_transport) in
  let? broker := field m "broker" de_broker dflt.(sc_broker) in
  let? channel_pubsub := field m "channel_pubsub" de_channel_pubsub dflt.(sc_channel_pubsub) in
  let? namespaces := field m "namespaces" de_namespaces dflt.(sc_namespaces) in
  let? auth := field m "auth" (de_option de_auth) dflt.(sc_auth) in
  let? acl := field m "acl" (de_option de_acl) dflt.(sc_acl) in
  let? channel_kinds := field m "channel_kinds" de_channel_kinds dflt.(sc_channel_kinds) in
  let? admin := field m "admin" de_admin dflt.(sc_admin) in
  let? log := field m "log" de_log dflt.(sc_log) in
  Ok (mk_ServerConfig transport broker channel_pubsub namespaces auth acl channel_kinds admin log)).

(** ** Writing a configuration *)

Definition ser_option {A} (f : A → Json) (o : option A) : Json :=
  match o with None => JNull | Some a => f a end.
Definition ser_vec {A} (f : A → Json) (l : list A) : Json := JArr (f <$> l).
Definition ser_map {A} (f : A → Json) (m : BTreeMap A) : Json :=
  JObj ((λ e, (e.1, f e.2)) <$> m).

(** The name [rename_all] gives a variant. *)
Fixpoint name_of {A} `{EqDecision A} (names : list (string * A)) (a : A) : string :=
  match names with
  | [] => ""
  | (n, a') :: names => if decide (a' = a) then n else name_of names a
  end.
Definition ser_enum {A} `{EqDecision A} (names : list (string * A)) (a : A) : Json :=
  JStr (name_of names a).

#[export] Instance BrokerBackend_eq_dec : EqDecision BrokerBackend.
Proof. solve_decision. Defined.
#[export] Instance SchemaKind_eq_dec : EqDecision SchemaKind.
Proof. solve_decision. Defined.
#[export] Instance ChannelKindName_eq_dec : EqDecision ChannelKindName.
Proof. solve_decision. Defined.
#[export] Instance AclEffectConfig_eq_dec : EqDecision AclEffectConfig.
Proof. solve_decision. Defined.
#[export] Instance AclActionConfig_eq_dec : EqDecision AclActionConfig.
Proof. solve_decision. Defined.
#[export] Instance LogFormat_eq_dec : EqDecision LogFormat.
Proof. solve_decision. Defined.

Definition ser_sse (c : SseConfig) : Json :=
  JObj [("listen", JStr c.(sse_listen)); ("path_prefix", JStr c.(sse_path_prefix))].
Definition ser_ws (c : WsConfig) : Json :=
  JObj [("listen", JStr c.(ws_listen)); ("path", JStr c.(ws_path));
        ("outbox_capacity", JNum c.(ws_outbox_capacity))].
Definition ser_transport (c : TransportConfig) : Json :=
  JObj [("ws", ser_ws c.(tc_ws)); ("sse", ser_option ser_sse c.(tc_sse))].
Definition ser_broker (c : BrokerConfig) : Json :=
  JObj [("backend", ser_enum BrokerBackend_names c.(backend));
        ("capacity", JNum c.(broker_capacity));
        ("redis_url", ser_option JStr c.(redis_url)); ("nats_url", ser_option JStr c.(nats_url))].
Definition ser_admin (c : AdminConfig) : Json :=
  JObj [("listen", JStr c.(admin_listen)); ("enabled", JBool c.(enabled));
        ("auth_token", ser_option JStr c.(auth_token))].
Definition ser_channel_pubsub (c : ChannelPubSubConfig) : Json :=
  JObj [("history_size", JNum c.(cfg_history_size));
        ("history_ttl_seconds", JNum c.(history_ttl_seconds))].
Definition ser_namespace (c : NamespaceConfig) : Json :=
  JObj [("kind", ser_enum SchemaKind_names c.(nc_kind));
        ("schema", ser_option id c.(nc_schema));
        ("schema_path", ser_option JStr c.(nc_schema_path))].
Definition ser_auth (c : AuthConfig) : Json :=
  JObj [("hmac_secret", JStr c.(hmac_secret)); ("audiences", ser_vec JStr c.(cfg_audiences));
        ("issuer", ser_option JStr c.(cfg_issuer))].
Definition ser_acl_rule (c : AclRuleConfig) : Json :=
  JObj [("effect", ser_enum AclEffectConfig_names c.(arc_effect));
        ("channel", JStr c.(arc_channel)); ("subject", ser_option JStr c.(arc_subject));
        ("action", ser_enum AclActionConfig_names c.(arc_action))].
Definition ser_acl (c : AclConfig) : Json :=
  JObj [("rules", ser_vec ser_acl_rule c.(acl_rules)); ("default_allow", JBool c.(cfg_default_allow))].
Definition ser_log (c : LogConfig) : Json :=
  JObj [("level", JStr c.(level)); ("format", ser_enum LogFormat_names c.(format))].
Definition ser_server (c : ServerConfig) : Json :=
  JObj [("transport", ser_transport c.(sc_transport)); ("broker", ser_broker c.(sc_broker));
        ("channel_pubsub", ser_channel_pubsub c.(sc_channel_pubsub));
        ("namespaces", ser_map ser_namespace c.(sc_namespaces));
        ("auth", ser_option ser_auth c.(sc_auth)); ("acl", ser_option ser_acl c.(sc_acl));
        ("channel_kinds", ser_map (ser_enum ChannelKindName_names) c.(sc_channel_kinds));
        ("admin", ser_admin c.(sc_admin)); ("log", ser_log c.(sc_log))].

(** The values the Rust types have: addresses that parse, 64-bit integers; and no
    inline schema is null, which [Option] would read as no schema. *)
Record wf_config (c : ServerConfig) : Prop := {
  wf_ws_listen : is_socket_addr c.(sc_transport).(tc_ws).(ws_listen) = true;
  wf_ws_outbox : is_u64 c.(sc_transport).(tc_ws).(ws_outbox_capacity);
  wf_sse_listen s : c.(sc_transport).(tc_sse) = Some s → is_socket_addr s.(sse_listen) = true;
  wf_capacity : is_u64 c.(sc_broker).(broker_capacity);
  wf_history_size : is_u64 c.(sc_channel_pubsub).(cfg_history_size);
  wf_history_ttl : is_u64 c.(sc_channel_pubsub).(history_ttl_seconds);
  wf_schemas : Forall (λ e : string * NamespaceConfig, e.2.(nc_schema) ≠ Some JNull)
                 c.(sc_namespaces);
  wf_admin_listen : is_socket_addr c.(sc_admin).(admin_listen) = true;
}.

(** ** A reader reads what its writer wrote *)

Lemma read_option {A} (d : reader A) f (o : option A) :
  (∀ a, o = Some a → d (f a) = Ok a) → (∀ a, o = Some a → f a ≠ JNull) →
  de_option d (ser_option f o) = Ok o.
Proof.
  destruct o as [a|]; [|done]. intros Ha Hn. specialize (Ha a eq_refl). specialize (Hn a eq_refl).
  simpl. unfold de_option. destruct (f a); by rewrite ?Ha.
Qed.

Lemma read_vec {A} (d : reader A) f (l : list A) :
  Forall (λ a, d (f a) = Ok a) l → de_vec d (ser_vec f l) = Ok l.
Proof.
  intros H. change (de_items d (f <$> l) = Ok l).
  induction H as [|a l Ha _ IH]; [done|]. rewrite fmap_cons. cbn. by rewrite Ha, IH.
Qed.

Lemma read_map {A} (d : reader A) f (m : BTreeMap A) :
  Forall (λ e, d (f e.2) = Ok e.2) m → de_map d (ser_map f m) = Ok m.
Proof.
  intros H. change (de_entries d ((λ e, (e.1, f e.2)) <$> m) = Ok m).
  induction H as [|[k a] m Ha _ IH]; [done|]. rewrite fmap_cons. cbn in *. by rewrite Ha, IH.
Qed.

Lemma read_string_option (o : option string) : de_option de_string (ser_option JStr o) = Ok o.
Proof. by destruct o. Qed.

Lemma read_string_vec (l : list string) : de_vec de_string (ser_vec JStr l) = Ok l.
Proof. apply read_vec, Forall_forall. done. Qed.

Lemma read_u64 n : is_u64 n → de_u64 (JNum n) = Ok n.
Proof. intros H. simpl. by rewrite decide_True. Qed.

Lemma read_addr s : is_socket_addr s = true → de_addr (JStr s) = Ok s.
Proof. intros H. simpl. by rewrite H. Qed.

Lemma read_backend b : de_enum BrokerBackend_names (ser_enum BrokerBackend_names b) = Ok b.
Proof. by destruct b. Qed.
Lemma read_schema_kind k : de_enum SchemaKind_names (ser_enum SchemaKind_names k) = Ok k.
Proof. by destruct k. Qed.
Lemma read_channel_kind k : de_enum ChannelKindName_names (ser_enum ChannelKindName_names k) = Ok k.
Proof. by destruct k. Qed.
Lemma read_effect e : de_enum AclEffectConfig_names (ser_enum AclEffectConfig_names e) = Ok e.
Proof. by destruct e. Qed.
Lemma read_action a : de_enum AclActionConfig_names (ser_enum AclActionConfig_names a) = Ok a.
Proof. by destruct a. Qed.
Lemma read_format f : de_enum LogFormat_names (ser_enum LogFormat_names f) = Ok f.
Proof. by destruct f. Qed.

Lemma read_struct {A} fields (build : list (string * Json) → result string A) m :
  known_only fields m = true → de_struct fields build (JObj m) = build m.
Proof. intros H. simpl. by rewrite H. Qed.

Lemma read_field {A B} m k (d : reader A) dflt j a (cont : A → result string B) :
  member k m = Some j → d j = Ok a → (let? x := field m k d dflt in cont x) = cont a.
Proof. intros Hm Hd. unfold field. by rewrite Hm, Hd. Qed.

Lemma read_required {A B} m k (d : reader A) j a (cont : A → result string B) :
  member k m = Some j → d j = Ok a → (let? x := required m k d in cont x) = cont a.
Proof. intros Hm Hd. unfold required. by rewrite Hm, Hd. Qed.

Create HintDb reads.
#[local] Hint Resolve read_string_option read_string_vec read_u64 read_addr read_backend
  read_schema_kind read_channel_kind read_effect read_action read_format : reads.
#[local] Hint Extern 1 (_ = Ok _) => reflexivity : reads.

(** A struct: its keys are known, and its fields are read one after the other. *)
#[local] Ltac read_fields :=
  erewrite read_struct by reflexivity;
  repeat first [ erewrite read_field; [|reflexivity|eauto with reads]
               | erewrite read_required; [|reflexivity|eauto with reads] ].

Lemma read_sse c : is_socket_addr c.(sse_listen) = true → de_sse (ser_sse c) = Ok c.
Proof. intros H. unfold de_sse, ser_sse. read_fields. by destruct c. Qed.

Lemma read_ws c : is_socket_addr c.(ws_listen) = true → is_u64 c.(ws_outbox_capacity) →
  de_ws (ser_ws c) = Ok c.
Proof. intros H1 H2. unfold de_ws, ser_ws. read_fields. by destruct c. Qed.

Lemma read_transport c :
  is_socket_addr c.(tc_ws).(ws_listen) = true → is_u64 c.(tc_ws).(ws_outbox_capacity) →
  (∀ s, c.(tc_sse) = Some s → is_socket_addr s.(sse_listen) = true) →
  de_transport (ser_transport c) = Ok c.
Proof.
  intros H1 H2 H3.
  assert (de_option de_sse (ser_option ser_sse c.(tc_sse)) = Ok c.(tc_sse)) as Hs.
  { apply read_option; [|done]. intros s Hs. by apply read_sse, H3. }
  pose proof (read_ws _ H1 H2). unfold de_transport, ser_transport. read_fields. by destruct c.
Qed.

Lemma read_broker c : is_u64 c.(broker_capacity) → de_broker (ser_broker c) = Ok c.
Proof. intros H. unfold de_broker, ser_broker. read_fields. by destruct c. Qed.

Lemma read_admin c : is_socket_addr c.(admin_listen) = true → de_admin (ser_admin c) = Ok c.
Proof. intros H. unfold de_admin, ser_admin. read_fields. by destruct c. Qed.

Lemma read_channel_pubsub c : is_u64 c.(cfg_history_size) → is_u64 c.(history_ttl_seconds) →
  de_channel_pubsub (ser_channel_pubsub c) = Ok c.
Proof. intros H1 H2. unfold de_channel_pubsub, ser_channel_pubsub. read_fields. by destruct c. Qed.

Lemma read_namespace (c : NamespaceConfig) :
  c.(nc_schema) ≠ Some JNull → de_namespace (ser_namespace c) = Ok c.
Proof.
  intros H.
  assert (de_option Ok (ser_option id c.(nc_schema)) = Ok c.(nc_schema)) as Hs.
  { apply read_option; [done|]. intros a Ha. simpl. congruence. }
  unfold de_namespace, ser_namespace. read_fields. by destruct c.
Qed.

Lemma read_auth c : de_auth (ser_auth c) = Ok c.
Proof. unfold de_auth, ser_auth. read_fields. by destruct c. Qed.

Lemma read_acl_rule c : de_acl_rule (ser_acl_rule c) = Ok c.
Proof. unfold de_acl_rule, ser_acl_rule. read_fields. by destruct c. Qed.

Lemma read_acl c : de_acl (ser_acl c) = Ok c.
Proof.
  assert (de_vec de_acl_rule (ser_vec ser_acl_rule c.(acl_rules)) = Ok c.(acl_rules)) as Hr.
  { apply read_vec, Forall_forall. intros r _. apply read_acl_rule. }
  unfold de_acl, ser_acl. read_fields. by destruct c.
Qed.

Lemma read_log c : de_log (ser_log c) = Ok c.
Proof. unfold de_log, ser_log. read_fields. by destruct c. Qed.

#[local] Hint Resolve read_broker read_admin read_channel_pubsub read_log : reads.

(** Every configuration can be written as a document: reading what
    [ser_server] writes gives the configuration back. *)
Theorem config_round_trip (c : ServerConfig) (Hc : wf_config c) : de_server (ser_server c) = Ok c.
Proof.
  destruct Hc. pose proof (read_transport (sc_transport c)).
  assert (de_namespaces (ser_map ser_namespace c.(sc_namespaces)) = Ok c.(sc_namespaces)).
  { apply read_map. eapply Forall_impl; [eassumption|]. intros e. apply read_namespace. }
  assert (de_channel_kinds (ser_map (ser_enum ChannelKindName_names) c.(sc_channel_kinds))
    = Ok c.(sc_channel_kinds)).
  { apply read_map, Forall_forall. intros e _. apply read_channel_kind. }
  assert (de_option de_auth (ser_option ser_auth c.(sc_auth)) = Ok c.(sc_auth)).
  { apply read_option; [|done]. intros a _. apply read_auth. }
  assert (de_option de_acl (ser_option ser_acl c.(sc_acl)) = Ok c.(sc_acl)).
  { apply read_option; [|done]. intros a _. apply read_acl. }
  unfold de_server, ser_server. read_fields. by destruct c.
Qed.

(** ** What a document may leave out, and what it may not contain *)

Lemma struct_keys {A} fields (build : list (string * Json) → result string A) j a k v :
  de_struct fields build j = Ok a → ∀ m, j = JObj m → (k, v) ∈ m → k ∈ fields.
Proof.
  intros H m -> Hk. simpl in H. destruct (known_only fields m) eqn:E; [|done].
  unfold known_only in E. rewrite forallb_forall in E.
  specialize (E (k, v) (proj1 (list_elem_of_In _ _) Hk)). by apply bool_decide_eq_true in E.
Qed.

(** The empty document is the default configuration. *)
Example empty_document : de_server (JObj []) = Ok ServerConfig_default.
Proof. reflexivity. Qed.
End deserialize.
