(* ===== verification/Loader.v ===== *)
(** * Where the configuration comes from

    [ServerConfig::load] (crates/cherenkov-server/src/config.rs) layers the
    environment over a file; the command line (main.rs) takes the file's path from an
    option or from the environment too, and the two meet.  [SerdeFigment] is an
    instance of figment over documents, with the readers of Deserialize.v. *)
From S2P Require Import Prelude Protocol Traits MemoryBroker Remote Crdt NamespaceAcl.
From S2P Require Import ProtoWire SchemaRegistry Jwt Session Hub Config Admin App Serve Run RunProps Cli.
From S2P Require Import Json Deserialize.

(** ** The environment *)

(** [Env::prefixed(..).split("__")]: a variable with the prefix, whatever its case,
    is a key without it in lower case; two underscores or a dot end a segment. *)
Definition lower_ascii (a : ascii) : ascii :=
  let n := N_of_ascii a in if ((65 <=? n) && (n <=? 90))%N then ascii_of_N (n + 32) else a.
Fixpoint lowercase (s : string) : string :=
  match s with "" => "" | String a s => String (lower_ascii a) (lowercase s) end.

Fixpoint segments (acc s : string) : list string :=
  match s with
  | "" => [acc]
  | String "_" (String "_" s) => acc :: segments "" s
  | String "." s => acc :: segments "" s
  | String a s => segments (acc +:+ String a "") s
  end.

Definition env_path (prefix name : string) : option (list string) :=
  match strip_prefix (lowercase prefix) (lowercase name) with
  | Some "" | None => None
  | Some key => Some (segments "" key)
  end.

Definition env_root (prefix name : string) : option string := env_path prefix name ≫= head.

(** ** What figment promises *)

(** The keys at the root of a document. *)
Definition doc_keys (j : Json) : gset string :=
  match j with JObj m => list_to_set (fst <$> m) | _ => ∅ end.

#[local] Existing Instance TreeJson.

(** The sources are merged into one document, in which every variable of the
    prefix has its key, and [extract] reads the type it is asked for from that
    document.  How the type is read is the program's: the attributes of
    [ServerConfig], [de_server] of Deserialize.v. *)
Class FigmentLaws `{FG : !Figment} : Type := {
  environment : gmap string string;
  ipv6_syntax : string → bool;
  document : FigmentBuilder → Json;
  merge_env_keys prefix b name v root :
    environment !! name = Some v → env_root prefix name = Some root →
    root ∈ doc_keys (document (merge_env prefix "__" b));
  extract_reads b config :
    extract b = Ok config → de_server ipv6_syntax (document b) = Ok config;
}.

(** clap's part: the option [--config], else the variable. *)
Definition parse_args (config : option string) (environment : gmap string string) :
    option string :=
  match config with
  | Some path => Some path
  | None => environment !! "CHERENKOV_CONFIG"
  end.

Section loader.
Context {X : Type} `{F : !Fred X} `{AN : !AsyncNats X} `{C : ProstCodec} `{B : Broadcast}.
Context `{Y : YrsLib} `{A : AutomergeLib} `{J : JwtLib} `{G : GlobEngine}.
Context `{NO : Notifier} `{NT : Net} `{P : Prometheus} `{FG : !Figment} `{T : Tracing}.
Context {FL : FigmentLaws}.
Variable read_file : string → result string Bytes.
Variable render : PrometheusHandle → @HubCore (@AppStream X F AN) NO → string.

(** [deny_unknown_fields]: a configuration is read only from known sections. *)
Lemma server_sections v6 j config k :
  de_server v6 j = Ok config → k ∈ doc_keys j → k ∈ ServerConfig_fields.
Proof.
  intros Hx Hk. destruct j as [| | | | |m]; try done. simpl in Hk.
  apply elem_of_list_to_set, list_elem_of_fmap in Hk as ([k' v] & -> & Hk).
  eapply struct_keys; [exact Hx|reflexivity|exact Hk].
Qed.

(** A variable whose first segment is no section of the configuration. *)
Lemma unknown_variable_fails path name v root :
  environment !! name = Some v → env_root "CHERENKOV_" name = Some root →
  root ∉ ServerConfig_fields → ∃ e, load path = Err e.
Proof.
  intros Hv Hr Hn. destruct (load path) as [config|e] eqn:Hl; [|eauto]. exfalso. apply Hn.
  eapply server_sections; [exact (extract_reads _ _ Hl)|]. by eapply merge_env_keys.
Qed.

(** C27: the variable the command line documents for the path of the file is
    read a second time, as a setting: it has the prefix of the settings, no section
    is called [config], and [ServerConfig] denies unknown fields.  Whenever it is set, whatever to, and even if the
    path is given by the option, the configuration does not load and the process
    exits with 3; so no path can be given this way.  The same happens with
    [CHERENKOV_LISTEN_ADDR]. *)
Theorem config_variable_stops_the_boot (name v : string) (flag : option string)
    (path : string) (runtime : result string unit) (wake : Wake)
    (w : option (EnvFilter * LogFormat) * (@RunW X F AN B Y A NO NT P))
    (Hname : name ∈ ["CHERENKOV_CONFIG"; "CHERENKOV_LISTEN_ADDR"])
    (Hset : environment !! name = Some v) (Hpath : parse_args flag environment = Some path) :
  (∃ e, load path = Err e) ∧ (main read_file render path runtime wake w).1 = CONFIG_ERROR.
Proof.
  assert (∃ e, load path = Err e) as [e He].
  { set_unfold in Hname. destruct Hname as [->| [-> |[]]];
      (eapply unknown_variable_fails; [exact Hset|reflexivity|];
       apply (bool_decide_unpack _); vm_compute; exact I). }
  split; [eauto|]. by rewrite main_code, He.
Qed.
End loader.

(** ** An instance over documents *)

(** A dictionary is kept in the order of its keys. *)
Fixpoint dict_insert (k : string) (v : Json) (m : list (string * Json)) : list (string * Json) :=
  match m with
  | [] => [(k, v)]
  | (k', v') :: m' =>
      match String.compare k k' with
      | Lt => (k, v) :: m
      | Eq => (k, v) :: m'
      | Gt => (k', v') :: dict_insert k v m'
      end
  end.

(** Dictionaries are merged key by key; otherwise the second value wins. *)
Fixpoint doc_merge (a b : Json) {struct b} : Json :=
  match b with
  | JObj mb =>
      let ma := match a with JObj ma => ma | _ => [] end in
      JObj (foldl (λ m e, dict_insert e.1 (doc_merge (default JNull (member e.1 m)) e.2) m) ma mb)
  | _ => b
  end.

Definition nest (path : list string) (v : Json) : Json := foldr (λ k v, JObj [(k, v)]) v path.

Section figment.

(** The files, each the document its YAML denotes; the variables; how the text of a
    variable is read; std's syntax of IPv6 addresses. *)
Variables (files : string → option Json) (vars : gmap string string).
Variables (env_value : string → Json) (is_socket_addr_v6 : string → bool).

(** A file that is not there has no settings. *)
Definition doc_merge_env (prefix sep : string) (b : Json) : Json :=
  foldl (λ b e, match env_path prefix e.1 with
                | Some path => doc_merge b (nest path (env_value e.2))
                | None => b
                end) b (map_to_list vars).

Definition SerdeFigment : Figment := {|
  FigmentBuilder := Json;
  figment_error := string;
  figment_new := JObj [];
  merge_yaml_file path b := doc_merge b (default (JObj []) (files path));
  merge_env := doc_merge_env;
  extract := de_server is_socket_addr_v6;
  show_figment_error e := e;
|}.

Lemma dict_insert_keys k v m : list_to_set (fst <$> dict_insert k v m)
  =@{gset string} {[k]} ∪ list_to_set (fst <$> m).
Proof.
  induction m as [|[k' v'] m IH]; [done|]. cbn [dict_insert].
  destruct (String.compare k k') eqn:E; rewrite !fmap_cons, !list_to_set_cons; cbn [fst].
  - apply String.compare_eq_iff in E as ->. set_solver.
  - set_solver.
  - rewrite IH. set_solver.
Qed.

Lemma doc_merge_keys a mb :
  doc_keys (doc_merge a (JObj mb)) = doc_keys a ∪ list_to_set (fst <$> mb).
Proof.
  simpl. assert (∀ m, list_to_set (fst <$>
      foldl (λ m e, dict_insert e.1 (doc_merge (default JNull (member e.1 m)) e.2) m) m mb)
    =@{gset string} list_to_set (fst <$> m) ∪ list_to_set (fst <$> mb)) as H.
  { induction mb as [|[k v] mb IH]; intros m; [set_solver|]. cbn [foldl].
    rewrite IH, dict_insert_keys, fmap_cons, list_to_set_cons. set_solver. }
  rewrite H. by destruct a.
Qed.

Lemma segments_nonempty acc s : segments acc s ≠ [].
Proof.
  revert acc. induction s as [s IH] using (well_founded_induction (well_founded_ltof _ String.length)).
  unfold ltof in IH.
  intros acc. destruct s as [|a s]; [done|].
  repeat (simpl; case_match; try done); apply IH; subst; simpl; lia.
Qed.

Lemma env_path_root prefix name path :
  env_path prefix name = Some path → ∃ k rest, path = k :: rest ∧ env_root prefix name = Some k.
Proof.
  intros H. destruct path as [|k rest]; [exfalso|].
  - unfold env_path in H. destruct (strip_prefix _ _) as [[|a s]|]; try done.
    apply (segments_nonempty "" (String a s)). congruence.
  - exists k, rest. split; [done|]. unfold env_root. by rewrite H.
Qed.

(** The settings of a variable are among those merged, and stay. *)
Lemma doc_merge_env_keys prefix b k :
  k ∈ doc_keys (doc_merge_env prefix "__" b) ↔
    k ∈ doc_keys b ∨ ∃ name v, vars !! name = Some v ∧ env_root prefix name = Some k.
Proof.
  unfold doc_merge_env. trans (k ∈ doc_keys b ∨ ∃ name v,
    (name, v) ∈ map_to_list vars ∧ env_root prefix name = Some k);
    [|by setoid_rewrite elem_of_map_to_list].
  generalize (map_to_list vars). intros l. revert b.
  induction l as [|[name v] l IH]; intros b; simpl; [set_solver|]. rewrite IH.
  destruct (env_path prefix name) as [path|] eqn:Hp.
  - destruct (env_path_root _ _ _ Hp) as (k' & rest & -> & Hr). simpl nest.
    rewrite doc_merge_keys, elem_of_union. simpl. setoid_rewrite elem_of_cons. set_solver.
  - assert (env_root prefix name = None) as Hr by (unfold env_root; by rewrite Hp).
    setoid_rewrite elem_of_cons. set_solver.
Qed.

#[export] Instance SerdeFigmentLaws : FigmentLaws (FG:=SerdeFigment).
Proof.
  refine (@Build_FigmentLaws SerdeFigment vars is_socket_addr_v6 (λ j : Json, j) _ _); [|done].
  intros prefix b name v root Hv Hr. apply doc_merge_env_keys. eauto.
Defined.
End figment.

(** ** Samples *)

(** One file, with a secret; a variable's value is its text. *)
Definition sample_file : Json :=
  JObj [("auth", JObj [("hmac_secret", JStr "k")]);
        ("transport", JObj [("ws", JObj [("path", JStr "/ws")])])].
Definition sample_files (path : string) : option Json :=
  if decide (path = "server.yaml") then Some sample_file else None.
Definition sample_figment (vars : gmap string string) : @Figment TreeJson :=
  SerdeFigment sample_files vars JStr (λ _, false).

(** The file alone loads; a variable overrides one of its settings and leaves the
    others; a path that leads nowhere gives the defaults, without authentication. *)
Definition loaded (vars : gmap string string) (path : string)
    (test : @ServerConfig TreeJson → bool) : bool :=
  match load (FG:=sample_figment vars) path with Ok c => test c | Err _ => false end.

Example sample_load :
  loaded ∅ "server.yaml" (λ c, match c.(sc_auth) with
                              | Some a => bool_decide (a.(hmac_secret) = "k")
                              | None => false
                              end) &&
  loaded {["CHERENKOV_TRANSPORT__WS__LISTEN" := "0.0.0.0:9000"]} "server.yaml" (λ c,
    let ws := c.(sc_transport).(tc_ws) in
    bool_decide (ws.(ws_listen) = "0.0.0.0:9000") && bool_decide (ws.(ws_path) = "/ws")) &&
  loaded ∅ "no-such-file.yaml" (λ c, match c.(sc_auth) with Some _ => false | None => true end)
  = true.
Proof. vm_compute. reflexivity. Qed.

Lemma config_variable_stops_the_boot_witness :
  is_ok (load (FG:=sample_figment ∅) "server.yaml") = true ∧
  ∃ e, load (FG:=sample_figment {["CHERENKOV_CONFIG" := "server.yaml"]}) "server.yaml" = Err e.
Proof.
  split; [vm_compute; reflexivity|].
  refine (proj1 (config_variable_stops_the_boot (X:=Queues) (F:=QueueFred) (AN:=QueueNats)
    (C:=wire_codec) (B:=QueueBroadcast) (Y:=ListYrs) (A:=ListAutomerge) (J:=PlainJwt) (G:=StarGlob)
    (NO:=CountNotifier) (NT:=PortNet) (P:=CountPrometheus)
    (FG:=sample_figment {["CHERENKOV_CONFIG" := "server.yaml"]}) (T:=LevelTracing)
    (FL:=SerdeFigmentLaws sample_files {["CHERENKOV_CONFIG" := "server.yaml"]} JStr (λ _, false))
    (λ _, Err "no such file") (λ _ _, "") "CHERENKOV_CONFIG" "server.yaml" None "server.yaml"
    (Ok ()) Signal (None, sample_run_state) _ _ _)); [by left|reflexivity|reflexivity].
Defined.
