(* ===== verification/TsGen.v ===== *)
(** * The TypeScript generator (crates/cherenkov-sdk-ts/src/tsgen.rs)

    [render] and its parts, with fuel for the recursion of [ts_type] and
    [render_object] into a schema; the types the generator can emit, with their
    printer and a parser; and what the emitted types promise. *)
From S2P Require Import Prelude Utf8 Traits SchemaRegistry Json.

Definition PRELUDE : string := "// AUTO-GENERATED by cherenkov-sdk-ts. Do not edit by hand.
// Wire protocol: cherenkov.v1
// Each declared namespace has a typed publish helper; channels in
// undeclared namespaces accept arbitrary payloads.

export interface CherenkovTransport {
  send(bytes: Uint8Array): Promise<void>;
  onMessage(handler: (bytes: Uint8Array) => void): void;
}

export interface PublishOptions {
  requestId?: number;
}

export class CherenkovClient {
  private nextRequestId = 1;
  constructor(private readonly transport: CherenkovTransport) {}

  publish(channel: string, data: Uint8Array, opts: PublishOptions = {}): Promise<void> {
    // Encoding the v1 Publish frame is left to a wire library; this
    // SDK passes the channel + payload through to the transport.
    const requestId = opts.requestId ?? this.nextRequestId++;
    return this.transport.send(encodePublishFrame(requestId, channel, data));
  }
}

// Implemented in the runtime companion package.
declare function encodePublishFrame(
  requestId: number,
  channel: string,
  data: Uint8Array,
): Uint8Array;
".

Definition newline : string := String "010"%char "".

(** ** Characters

    A [char] is the byte string that encodes it. *)

Definition starts_with_cont (s : string) : bool :=
  match s with String b _ => is_cont (byte_of_ascii b) | EmptyString => false end.

(** [str::chars]: a character ends where the next byte is not a continuation. *)
Fixpoint chars (s : string) : list string :=
  match s with
  | EmptyString => []
  | String a s' =>
      if starts_with_cont s' then
        match chars s' with
        | c :: cs => String a c :: cs
        | [] => [String a ""]
        end
      else String a "" :: chars s'
  end.

(** The standard library's Unicode tables, beyond ASCII. *)
Class UnicodeTables : Type := {
  uni_alphanumeric : string → bool;
  uni_uppercase : string → string;
}.

Definition ascii_between (lo hi : N) (a : ascii) : bool :=
  ((lo <=? N_of_ascii a) && (N_of_ascii a <=? hi))%N.
Definition ascii_digit : ascii → bool := ascii_between 48 57.
Definition ascii_lower : ascii → bool := ascii_between 97 122.
Definition ascii_alphanumeric (a : ascii) : bool :=
  ascii_digit a || ascii_between 65 90 a || ascii_lower a.

Definition is_alphanumeric `{UnicodeTables} (c : string) : bool :=
  match c with String a "" => ascii_alphanumeric a | _ => uni_alphanumeric c end.

Definition to_uppercase `{UnicodeTables} (c : string) : string :=
  match c with
  | String a "" => if ascii_lower a then String (ascii_of_N (N_of_ascii a - 32)) "" else c
  | _ => uni_uppercase c
  end.

(** ** Names *)

Section names.
Context `{U : UnicodeTables}.

Fixpoint type_name_loop (out : string) (upper_next : bool) (cs : list string) : string :=
  match cs with
  | [] => out
  | c :: cs =>
      if is_alphanumeric c then
        if upper_next then type_name_loop (out +:+ to_uppercase c) false cs
        else type_name_loop (out +:+ c) upper_next cs
      else type_name_loop out true cs
  end.

Definition type_name (namespace : string) : string :=
  let out := type_name_loop "" true (chars namespace) in
  if decide (out = "") then "Payload" else out +:+ "Payload".
End names.

(** ** Types *)

Section types.
Context `{A : JsonAccess}.

(** The members of an object type; [ts_type] is the recursive call. *)
Fixpoint render_members (ts_type : Value → option string) (required : gset string)
    (out : string) (first : bool) (props : list (string * Value)) : option string :=
  match props with
  | [] => Some out
  | (key, value) :: props =>
      let out := if first then out else out +:+ "; " in
      let q := if decide (key ∈ required) then "" else "?" in
      t ← ts_type value;
      render_members ts_type required (out +:+ (key +:+ q +:+ ": " +:+ t)) false props
  end.

Definition required_of (schema : Value) : gset string :=
  match get schema "required" ≫= as_array with
  | Some arr => list_to_set (omap as_str arr)
  | None => ∅
  end.

Definition render_object (ts_type : Value → option string) (schema : Value) : option string :=
  let required := required_of schema in
  match get schema "properties" ≫= as_object with
  | None => Some "Record<string, unknown>"
  | Some props =>
      out ← render_members ts_type required "{ " true props;
      Some (out +:+ " }")
  end.

Fixpoint ts_type (fuel : nat) (schema : Value) : option string :=
  match fuel with
  | O => None
  | S fuel =>
      match get schema "type" ≫= as_str with
      | Some ty =>
          if decide (ty = "string") then Some "string"
          else if decide (ty = "integer" ∨ ty = "number") then Some "number"
          else if decide (ty = "boolean") then Some "boolean"
          else if decide (ty = "array") then
            item ← match get schema "items" with
                   | Some items => ts_type fuel items
                   | None => Some "unknown"
                   end;
            Some (item +:+ "[]")
          else if decide (ty = "object") then render_object (ts_type fuel) schema
          else Some "unknown"
      | None => Some "unknown"
      end
  end.

(** ** The module *)

Context `{U : UnicodeTables}.

(** What the loop appends for a namespace whose schema gives the type [t]. *)
Definition namespace_block (name t : string) : string :=
  let n := type_name name in
  newline +:+ "// Namespace: " +:+ name +:+ newline
    +:+ ("export type " +:+ n +:+ " = " +:+ t +:+ ";" +:+ newline)
    +:+ ("export function publish" +:+ n +:+ "(client: CherenkovClient, channel: string, value: "
         +:+ n +:+ ", encode: (v: " +:+ n +:+ ") => Uint8Array): Promise<void> {" +:+ newline
         +:+ "  return client.publish(channel, encode(value));" +:+ newline +:+ "}" +:+ newline).

Fixpoint render_loop (fuel : nat) (out : string) (namespaces : list (string * Value)) :
    option string :=
  match namespaces with
  | [] => Some out
  | (name, schema) :: namespaces =>
      t ← ts_type fuel schema;
      render_loop fuel (out +:+ namespace_block name t) namespaces
  end.

Definition render (fuel : nat) (namespaces : list (string * Value)) : option string :=
  render_loop fuel (PRELUDE +:+ newline) namespaces.
End types.
