(* ===== verification/TsProps.v ===== *)
(** * What the emitted TypeScript means

    The types the generator emits as a syntax tree with its printer, a parser of
    that syntax, and the documents that inhabit a type.  Theorems: generation
    terminates; a payload the server lets through inhabits the type emitted for
    its channel's namespace; the text of a type is parsed back when the property
    names are identifiers; the names the generator makes are identifiers. *)
From S2P Require Import Prelude Utf8 Traits SchemaRegistry Json TsGen.

(** ** Syntax *)

Inductive TsType : Type :=
| TsString
| TsNumber
| TsBoolean
| TsUnknown
| TsRecord
| TsArray (item : TsType)
| TsObject (members : list (string * bool * TsType)).

(** The name of a member and whether it is optional. *)
Abbreviation Member := (string * bool * TsType)%type.

Lemma ts_type_ind (P : TsType → Prop) :
  P TsString → P TsNumber → P TsBoolean → P TsUnknown → P TsRecord →
  (∀ t, P t → P (TsArray t)) →
  (∀ ms : list Member, Forall (λ m, P m.2) ms → P (TsObject ms)) → ∀ t, P t.
Proof.
  intros H1 H2 H3 H4 H5 H6 H7. fix IH 1. intros [| | | | |t|ms]; [done..|by apply H6|].
  apply H7. induction ms as [|[k t] ms IHms]; constructor; [apply IH|done].
Qed.

(** The members, separated by semicolons. *)
Fixpoint show_members (show : TsType → string) (ms : list Member) : string :=
  match ms with
  | [] => ""
  | [(k, opt, t)] => k +:+ (if opt : bool then "?" else "") +:+ ": " +:+ show t
  | (k, opt, t) :: ms =>
      (k +:+ (if opt : bool then "?" else "") +:+ ": " +:+ show t) +:+ "; " +:+ show_members show ms
  end.

Fixpoint show_ts (t : TsType) : string :=
  match t with
  | TsString => "string"
  | TsNumber => "number"
  | TsBoolean => "boolean"
  | TsUnknown => "unknown"
  | TsRecord => "Record<string, unknown>"
  | TsArray t => show_ts t +:+ "[]"
  | TsObject ms => "{ " +:+ show_members show_ts ms +:+ " }"
  end.

(** ** A parser *)

Definition ident_char (a : ascii) : bool :=
  ascii_alphanumeric a || bool_decide (a = "_"%char) || bool_decide (a = "$"%char).

Fixpoint all_chars (p : ascii → bool) (s : string) : bool :=
  match s with String a s => p a && all_chars p s | EmptyString => true end.

Definition is_ident (s : string) : bool :=
  match s with
  | String a s' => ident_char a && negb (ascii_digit a) && all_chars ident_char s'
  | EmptyString => false
  end.

Fixpoint span_ident (s : string) : string * string :=
  match s with
  | String a s' => if ident_char a then let '(k, r) := span_ident s' in (String a k, r) else ("", s)
  | EmptyString => ("", "")
  end.

(** The [[]] after a type. *)
Fixpoint array_suffix (t : TsType) (s : string) : TsType * string :=
  match s with
  | String "[" (String "]" s') => array_suffix (TsArray t) s'
  | _ => (t, s)
  end.

Definition parse_member (parse_type : string → option (TsType * string)) (s : string) :
    option (Member * string) :=
  let '(k, s) := span_ident s in
  let '(opt, s) := match strip_prefix "?" s with Some s => (true, s) | None => (false, s) end in
  s ← strip_prefix ": " s;
  '(t, s) ← parse_type s;
  if is_ident k then Some ((k, opt, t), s) else None.

Fixpoint parse_members (parse_type : string → option (TsType * string)) (fuel : nat) (s : string) :
    option (list Member * string) :=
  match fuel with
  | O => None
  | S fuel =>
      '(m, s) ← parse_member parse_type s;
      match strip_prefix "; " s with
      | Some s => '(ms, s) ← parse_members parse_type fuel s; Some (m :: ms, s)
      | None => s ← strip_prefix " }" s; Some ([m], s)
      end
  end.

Definition parse_simple (s : string) : option (TsType * string) :=
  match strip_prefix "string" s with Some s => Some (TsString, s) | None =>
  match strip_prefix "number" s with Some s => Some (TsNumber, s) | None =>
  match strip_prefix "boolean" s with Some s => Some (TsBoolean, s) | None =>
  match strip_prefix "unknown" s with Some s => Some (TsUnknown, s) | None =>
  match strip_prefix "Record<string, unknown>" s with Some s => Some (TsRecord, s) | None =>
  None end end end end end.

Fixpoint parse_type (fuel : nat) (s : string) : option (TsType * string) :=
  match fuel with
  | O => None
  | S fuel =>
      '(t, s) ←
        match strip_prefix "{ " s with
        | Some s =>
            match strip_prefix " }" s with
            | Some s => Some (TsObject [], s)
            | None => '(ms, s) ← parse_members (parse_type fuel) fuel s; Some (TsObject ms, s)
            end
        | None => parse_simple s
        end;
      Some (array_suffix t s)
  end.

Definition parse_ts (s : string) : option TsType :=
  match parse_type (S (String.length s)) s with
  | Some (t, "") => Some t
  | _ => None
  end.

(** The property names of a type that TypeScript reads as identifiers. *)
Fixpoint ident_keys (t : TsType) : bool :=
  match t with
  | TsArray t => ident_keys t
  | TsObject ms => forallb (λ '(k, _, t), is_ident k && ident_keys t) ms
  | _ => true
  end.

Example parses_the_documented_type :
  parse_ts "{ qty?: number; sku: string; tags: string[][]; extra?: {  }[] }"
  = Some (TsObject [("qty", true, TsNumber); ("sku", false, TsString);
                    ("tags", false, TsArray (TsArray TsString));
                    ("extra", true, TsArray (TsObject []))]).
Proof. vm_compute. reflexivity. Qed.

(** ** Parsing what was printed *)

Fixpoint ts_size (t : TsType) : nat :=
  match t with
  | TsArray t => S (ts_size t)
  | TsObject ms => S (sum_list_with (λ m, S (ts_size m.2)) ms)
  | _ => 1
  end.

Definition stops_ident (s : string) : Prop :=
  match s with String a _ => ident_char a = false | EmptyString => True end.

Lemma span_ident_app k s :
  all_chars ident_char k = true → stops_ident s → span_ident (k +:+ s) = (k, s).
Proof.
  induction k as [|a k IH]; simpl.
  - intros _ Hs. destruct s as [|b s]; simpl in *; [done|]. by rewrite Hs.
  - intros [Ha Hk]%andb_true_iff Hs. rewrite Ha.
    by rewrite (IH Hk Hs).
Qed.

Lemma is_ident_all k : is_ident k = true → all_chars ident_char k = true.
Proof.
  destruct k as [|a k]; simpl; [done|]. rewrite !andb_true_iff. naive_solver.
Qed.

Lemma strip_prefix_app p s : strip_prefix p (p +:+ s) = Some s.
Proof. by apply strip_prefix_Some. Qed.

(** The characters that may follow the type of a member. *)
Lemma array_suffix_stop t s : array_suffix t ("; " +:+ s) = (t, "; " +:+ s)
  ∧ array_suffix t (" }" +:+ s) = (t, " }" +:+ s).
Proof. done. Qed.

Lemma parse_member_show (parse : string → option (TsType * string)) (k : string) (opt : bool) t s :
  is_ident k = true → (∀ s, parse (show_ts t +:+ s) = Some (array_suffix t s)) →
  array_suffix t s = (t, s) →
  parse_member parse ((k +:+ (if opt then "?" else "") +:+ ": " +:+ show_ts t) +:+ s)
  = Some ((k, opt, t), s).
Proof.
  intros Hk Ht Hs. unfold parse_member. rewrite <- !string_app_assoc.
  rewrite span_ident_app by (destruct opt; (by apply is_ident_all) || done).
  destruct opt; simpl; rewrite string_app_nil_l, Ht; simpl; by rewrite Hs, Hk.
Qed.

Lemma show_members_cons k opt t m ms :
  show_members show_ts ((k, opt, t) :: m :: ms)
  = (k +:+ (if opt : bool then "?" else "") +:+ ": " +:+ show_ts t)
    +:+ "; " +:+ show_members show_ts (m :: ms).
Proof. done. Qed.

Lemma parse_members_show (parse : string → option (TsType * string)) (ms : list Member) fuel s :
  Forall (λ m, is_ident m.1.1 = true ∧
               ∀ s, parse (show_ts m.2 +:+ s) = Some (array_suffix m.2 s)) ms →
  0 < length ms ≤ fuel →
  parse_members parse fuel (show_members show_ts ms +:+ " }" +:+ s) = Some (ms, s).
Proof.
  intros Hms. revert fuel. induction Hms as [|[[k opt] t] ms [Hk Ht] Hms IH]; [simpl; lia|].
  intros [|fuel] Hfuel; simpl in Hfuel; [lia|]. simpl in Hk, Ht.
  destruct ms as [|m ms].
  - change (show_members show_ts [(k, opt, t)])
      with (k +:+ (if opt : bool then "?" else "") +:+ ": " +:+ show_ts t).
    cbn [parse_members]. rewrite parse_member_show by (done || apply array_suffix_stop). simpl.
    done.
  - rewrite show_members_cons. cbn [parse_members].
    rewrite <- (string_app_assoc (k +:+ _)), <- (string_app_assoc "; ").
    rewrite parse_member_show by (done || apply array_suffix_stop).
    cbn [mbind option_bind]. rewrite strip_prefix_app.
    by rewrite IH by (simpl in *; lia).
Qed.

Lemma show_members_not_closed k opt t ms s :
  is_ident k = true → strip_prefix " }" (show_members show_ts ((k, opt, t) :: ms) +:+ s) = None.
Proof.
  intros Hk. destruct k as [|a k]; [done|]. simpl in Hk.
  assert (a ≠ " "%char) as Ha by (intros ->; done).
  destruct ms; simpl; by case_decide.
Qed.

Lemma parse_show t :
  ident_keys t = true → ∀ fuel s, ts_size t ≤ fuel →
  parse_type fuel (show_ts t +:+ s) = Some (array_suffix t s).
Proof.
  induction t as [| | | | |t IH|ms IH] using ts_type_ind; intros Hk fuel s Hf.
  1-5: destruct fuel; [simpl in Hf; lia|done].
  - simpl in Hf. cbn [show_ts]. rewrite <- string_app_assoc. by rewrite IH by (done || lia).
  - destruct fuel as [|fuel]; simpl in Hf; [lia|]. cbn [show_ts parse_type].
    rewrite <- !string_app_assoc, strip_prefix_app.
    destruct ms as [|[[k opt] t] ms]; [done|].
    rewrite show_members_not_closed by (simpl in Hk; apply andb_true_iff in Hk as [Hk _];
                                        by apply andb_true_iff in Hk as [Hk _]).
    rewrite parse_members_show; [done| |].
    + clear -IH Hk Hf. induction IH as [|[[k' opt'] t'] l IH _ IHl]; constructor.
      * simpl in Hk, Hf. rewrite !andb_true_iff in Hk. destruct Hk as [[Hk Ht] _].
        split; [done|]. intros s. apply IH; [done|simpl; lia].
      * apply IHl; simpl in *; [|lia]. by apply andb_true_iff in Hk as [_ Hk].
    + split; [simpl; lia|]. clear -Hf. enough (∀ l : list Member,
        length l ≤ sum_list_with (λ m, S (ts_size m.2)) l) as H by
        (specialize (H ((k, opt, t) :: ms)); simpl in *; lia).
      induction l; simpl; lia.
Qed.

Lemma ts_size_length t : ident_keys t = true → ts_size t ≤ String.length (show_ts t).
Proof.
  induction t as [| | | | |t IH|ms IH] using ts_type_ind; simpl; intros Hk; try lia.
  - rewrite length_string_app. simpl. specialize (IH Hk). lia.
  - rewrite !length_string_app. simpl.
    enough (sum_list_with (λ m, S (ts_size m.2)) ms
            ≤ String.length (show_members show_ts ms)) by lia.
    induction IH as [|[[k opt] t] ms IH _ IHms]; [done|]. simpl in Hk.
    rewrite !andb_true_iff in Hk. destruct Hk as [[_ Ht] Hms].
    specialize (IH Ht). specialize (IHms Hms). simpl in IH.
    destruct ms as [|m ms]; simpl sum_list_with.
    + cbn [show_members]. rewrite !length_string_app. simpl. lia.
    + rewrite show_members_cons, !length_string_app. cbn [String.length]. simpl in *. lia.
Qed.

Lemma parse_ts_show t : ident_keys t = true → parse_ts (show_ts t) = Some t.
Proof.
  intros Hk. unfold parse_ts. pose proof (ts_size_length t Hk) as Hs.
  rewrite <- (string_app_nil_r (show_ts t)) at 2. by rewrite (parse_show t Hk) by lia.
Qed.

(** ** The documents of a type *)

Section inhabits.
Context `{A : JsonAccess}.

Fixpoint inhabits (t : TsType) (x : Value) : Prop :=
  match t with
  | TsString => is_Some (as_str x)
  | TsNumber => is_number x = true
  | TsBoolean => is_boolean x = true
  | TsUnknown => True
  | TsRecord => is_Some (as_object x)
  | TsArray t => ∃ l, as_array x = Some l ∧ Forall (inhabits t) l
  | TsObject ms => is_Some (as_object x) ∧
      foldr (λ m P, match get x m.1.1 with
                    | Some c => inhabits m.2 c
                    | None => m.1.2 = true
                    end ∧ P) True ms
  end.

(** Every property named in the schema is an identifier. *)
Definition ident_schema (s : Value) : Prop := ∀ t ps m k p, subschema s t →
  get t "properties" = Some ps → as_object ps = Some m → (k, p) ∈ m → is_ident k = true.

Lemma ident_subschema s t : ident_schema s → subschema s t → ident_schema t.
Proof. intros Hs Ht u ps m k p Hu. eapply Hs. by eapply subschema_trans. Qed.

Context {SL : JsonSchemaLaws A}.

(** What the type [t] promises of a schema [s]. *)
Definition types (root s : Value) (t : TsType) : Prop :=
  (∀ x, valid root s x → inhabits t x) ∧ (ident_schema s → ident_keys t = true).

Lemma types_unknown root s : types root s TsUnknown.
Proof. done. Qed.

(** The members rendered for a list of properties. *)
Definition member_of (root : Value) (required : gset string) (e : string * Value) (m : Member) :
    Prop :=
  m.1 = (e.1, bool_decide (e.1 ∉ required)) ∧ types root e.2 m.2.

Lemma render_members_show root f required props out out' :
  (∀ k v text, (k, v) ∈ props → f v = Some text → ∃ t, text = show_ts t ∧ types root v t) →
  render_members f required out true props = Some out' →
  ∃ ms, out' = out +:+ show_members show_ts ms ∧ Forall2 (member_of root required) props ms.
Proof.
  assert (∀ first out, (∀ k v text, (k, v) ∈ props → f v = Some text →
            ∃ t, text = show_ts t ∧ types root v t) →
          render_members f required out first props = Some out' →
          ∃ ms, out' = out +:+ match ms with [] => "" | _ =>
                  (if first : bool then "" else "; ") +:+ show_members show_ts ms end
                ∧ Forall2 (member_of root required) props ms) as H.
  { clear out. induction props as [|[k v] props IH]; intros first out Hf; cbn [render_members].
    - intros [= <-]. exists []. split; [|constructor]. by rewrite string_app_nil_r.
    - destruct (f v) as [text|] eqn:Hv; cbn [mbind option_bind]; [|done]. intros Hr.
      destruct (Hf k v text ltac:(apply elem_of_cons; by left) Hv) as (t & -> & Ht).
      destruct (IH false _ ltac:(intros; eapply Hf; [apply elem_of_cons; by right|done]) Hr)
        as (ms & -> & Hms).
      exists ((k, bool_decide (k ∉ required), t) :: ms). split; [|by constructor].
      destruct (decide (k ∈ required)) as [Hk|Hk];
        [rewrite bool_decide_false by naive_solver|rewrite bool_decide_true by done];
        destruct ms as [|m ms], first; cbn [show_members];
        rewrite ?string_app_nil_l, ?string_app_nil_r, ?string_app_assoc; try done. }
  intros Hf Hr. destruct (H true out Hf Hr) as (ms & -> & Hms). exists ms. split; [|done].
  by destruct ms.
Qed.

Lemma types_array root s i t :
  plain_schema s → get s "type" ≫= as_str = Some "array" → get s "items" = Some i →
  types root i t → (is_Some (as_object i) ∨ t = TsUnknown) → types root s (TsArray t).
Proof.
  intros Hp Hty Hi [Ht Hk] Hobj. destruct (plain_here s Hp) as [Hr Hpi].
  destruct (get s "type") as [ty|] eqn:Hg; [|done]. simpl in Hty. split.
  - intros x Hx. pose proof (valid_type root s x ty _ Hr Hx Hg Hty) as [l Hl].
    exists l. split; [done|]. destruct Hobj as [[m Hm]| ->].
    + eapply Forall_impl; [by eapply valid_items|exact Ht].
    + by apply list.Forall_forall.
  - intros Hid. apply Hk. eapply ident_subschema; [done|].
    eapply subschema_items; [apply subschema_refl|done].
Qed.

Definition member_inhabited (x : Value) (m : Member) : Prop :=
  match get x m.1.1 with Some c => inhabits m.2 c | None => m.1.2 = true end.

Lemma inhabits_object ms x :
  inhabits (TsObject ms) x ↔ is_Some (as_object x) ∧ Forall (member_inhabited x) ms.
Proof.
  simpl. apply and_iff_compat_l. induction ms as [|m ms IH]; simpl.
  - by split; [constructor|].
  - by rewrite IH, Forall_cons.
Qed.

Lemma ident_keys_object ms :
  ident_keys (TsObject ms) = true ↔
  Forall (λ m : Member, is_ident m.1.1 = true ∧ ident_keys m.2 = true) ms.
Proof.
  simpl. induction ms as [|[[k o] t] ms IH]; simpl.
  - by split; [constructor|].
  - by rewrite !andb_true_iff, IH, Forall_cons.
Qed.

Lemma required_present root s x o k :
  get s "$ref" = None → valid root s x → as_object x = Some o → k ∈ required_of s →
  is_Some (get x k).
Proof.
  intros Hr Hx Ho. unfold required_of.
  destruct (get s "required") as [r|] eqn:Hrq; [|by intros []%elem_of_empty]. simpl.
  destruct (as_array r) as [l|] eqn:Hl; [|by intros []%elem_of_empty].
  rewrite elem_of_list_to_set, list_elem_of_omap.
  intros (n & Hn & Hnk). by eapply valid_required.
Qed.

Lemma types_object root s ps props ms :
  plain_schema s → get s "type" ≫= as_str = Some "object" →
  get s "properties" = Some ps → as_object ps = Some props →
  Forall2 (member_of root (required_of s)) props ms → types root s (TsObject ms).
Proof.
  intros Hp Hty Hps Hprops Hms. destruct (plain_here s Hp) as [Hr _].
  destruct (get s "type") as [ty|] eqn:Hg; [|done]. simpl in Hty. split.
  - intros x Hx. pose proof (valid_type root s x ty _ Hr Hx Hg Hty) as [o Ho].
    apply inhabits_object. split; [by exists o|]. apply list.Forall_forall. intros m Hm.
    apply list_elem_of_lookup in Hm as [i Hi].
    destruct (Forall2_lookup_r _ _ _ _ _ Hms Hi) as ([k p] & Hkp & Hmk & Ht & _).
    unfold member_inhabited. rewrite Hmk. simpl in *.
    destruct (get x k) as [c|] eqn:Hc.
    + apply Ht. eapply valid_property; [done..| |done|done]. by eapply list_elem_of_lookup_2.
    + apply bool_decide_true. intros Hk. destruct (required_present root s x o k Hr Hx Ho Hk). congruence.
  - intros Hid. apply ident_keys_object. apply list.Forall_forall. intros m Hm.
    apply list_elem_of_lookup in Hm as [i Hi].
    destruct (Forall2_lookup_r _ _ _ _ _ Hms Hi) as ([k p] & Hkp & Hmk & _ & Ht).
    apply list_elem_of_lookup_2 in Hkp. rewrite Hmk. simpl in *. split.
    + eapply Hid; [apply subschema_refl|done..].
    + apply Ht. eapply ident_subschema; [done|].
      eapply subschema_property; [apply subschema_refl|done..].
Qed.

Lemma types_simple root s ty t :
  plain_schema s → get s "type" ≫= as_str = Some ty →
  (∀ x, has_type ty x → inhabits t x) → ident_keys t = true → types root s t.
Proof.
  intros Hp Hty Ht Hk. destruct (plain_here s Hp) as [Hr _].
  destruct (get s "type") as [v|] eqn:Hg; [|done]. split; [|done].
  intros x Hx. apply Ht. by eapply valid_type.
Qed.

Lemma ts_type_sound fuel root s text :
  plain_schema s → ts_type fuel s = Some text →
  ∃ t, text = show_ts t ∧ types root s t ∧ (is_Some (as_object s) ∨ t = TsUnknown).
Proof.
  revert s text. induction fuel as [|fuel IH]; intros s text Hp; cbn [ts_type]; [done|].
  destruct (get s "type" ≫= as_str) as [ty|] eqn:Hty;
    [|intros [= <-]; exists TsUnknown; by auto using types_unknown].
  assert (is_Some (as_object s)) as Hobj.
  { destruct (get s "type") eqn:Hg; [|done]. by eapply get_object. }
  pose proof (types_simple root s ty) as Hsimple.
  repeat case_decide; subst.
  - intros [= <-]. exists TsString. split_and!; auto.
  - intros [= <-]. exists TsNumber. split_and!; auto. apply Hsimple; auto.
    intros x. unfold has_type. by repeat case_decide.
  - intros [= <-]. exists TsBoolean. split_and!; auto.
  - destruct (get s "items") as [i|] eqn:Hi.
    + destruct (ts_type fuel i) as [item|] eqn:Hitem; [|done]. intros [= <-].
      destruct (IH i item) as (t & -> & Ht & Hti); [eauto with cherenkov|done|].
      exists (TsArray t). split_and!; [done| |by left]. by eapply types_array.
    + intros [= <-]. exists (TsArray TsUnknown). split_and!; [done| |by left].
      apply Hsimple; [done..| |done]. intros x [l Hl]. exists l. split; [done|].
      by apply list.Forall_forall.
  - unfold render_object. destruct (get s "properties" ≫= as_object) as [props|] eqn:Hprops.
    + destruct (get s "properties") as [ps|] eqn:Hps; [|done]. simpl in Hprops.
      destruct (render_members _ _ _ _ _) as [out|] eqn:Hr; [|done]. intros [= <-].
      eapply render_members_show in Hr as (ms & -> & Hms).
      * exists (TsObject ms). rewrite <- string_app_assoc. split_and!; [done| |by left].
        by eapply types_object.
      * intros k v text Hk Hv. destruct (IH v text) as (t & ? & ? & _); eauto with cherenkov.
    + intros [= <-]. exists TsRecord. split_and!; [done| |by left]. by apply Hsimple.
  - intros [= <-]. exists TsUnknown. split_and!; auto using types_unknown.
Qed.
End inhabits.

(** ** Termination *)

Section terminates.
Context `{A : JsonAccess} {AL : JsonAccessLaws A}.

Lemma render_members_some f g required props out first :
  (∀ k v, (k, v) ∈ props → ∃ t, f v = Some t ∧ g v = Some t) →
  ∃ out', render_members f required out first props = Some out' ∧
          render_members g required out first props = Some out'.
Proof.
  revert out first. induction props as [|[k v] props IH]; intros out first Hf;
    cbn [render_members]; [eauto|].
  destruct (Hf k v) as (t & -> & ->); [apply elem_of_cons; by left|]. simpl. apply IH.
  intros k' v' Hk. eapply Hf. apply elem_of_cons. by right.
Qed.

(** From a fuel above the size of the schema on, the fuel does not matter. *)
Lemma ts_type_fuel s fuel fuel' :
  value_size s < fuel → value_size s < fuel' →
  ∃ t, ts_type fuel s = Some t ∧ ts_type fuel' s = Some t.
Proof.
  revert s fuel'. induction fuel as [|fuel IH]; intros s [|fuel'] H H'; [lia..|].
  cbn [ts_type]. destruct (get s "type" ≫= as_str) as [ty|]; [|eauto].
  repeat case_decide; [eauto..| | |eauto].
  - destruct (get s "items") as [i|] eqn:Hi; [|simpl; eauto]. apply get_size in Hi.
    destruct (IH i fuel') as (t & -> & ->); [lia..|]. simpl. eauto.
  - unfold render_object. destruct (get s "properties") as [ps|] eqn:Hps; simpl; [|eauto].
    apply get_size in Hps. destruct (as_object ps) as [props|] eqn:Hprops; [|eauto].
    destruct (render_members_some (ts_type fuel) (ts_type fuel') (required_of s) props "{ " true)
      as (out & -> & ->); [|simpl; eauto].
    intros k v Hk. pose proof (as_object_size _ _ _ _ Hprops Hk). apply IH; lia.
Qed.

Context `{U : UnicodeTables}.

Lemma render_loop_spec fuel out namespaces texts :
  Forall2 (λ e t, ts_type fuel e.2 = Some t) namespaces texts →
  render_loop fuel out namespaces
  = Some (out +:+ foldr (λ e s, namespace_block e.1.1 e.2 +:+ s) "" (zip namespaces texts)).
Proof.
  intros H. revert out. induction H as [|[name s] t namespaces texts Ht _ IH]; intros out; simpl.
  - by rewrite string_app_nil_r.
  - simpl in Ht. rewrite Ht. simpl. rewrite IH. by rewrite string_app_assoc.
Qed.

Lemma render_texts (namespaces : list (string * Value)) :
  ∃ texts,
    Forall2 (λ e t, ∀ fuel, value_size e.2 < fuel → ts_type fuel e.2 = Some t)
      namespaces texts ∧
    ∀ fuel, Forall (λ e, value_size e.2 < fuel) namespaces →
      render fuel namespaces
      = Some (PRELUDE +:+ newline
              +:+ foldr (λ e s, namespace_block e.1.1 e.2 +:+ s) "" (zip namespaces texts)).
Proof.
  assert (∃ texts, Forall2 (λ e t, ∀ fuel, value_size e.2 < fuel → ts_type fuel e.2 = Some t)
            namespaces texts) as [texts Htexts].
  { induction namespaces as [|[name s] namespaces [texts IH]]; [by exists []|].
    destruct (ts_type_fuel s (S (value_size s)) (S (value_size s))) as (t & Ht & _); [lia..|].
    exists (t :: texts). constructor; [|done]. simpl. intros fuel Hf.
    destruct (ts_type_fuel s fuel (S (value_size s))) as (t' & ? & ?); [lia..|]. congruence. }
  exists texts. split; [done|]. intros fuel Hf. unfold render.
  rewrite (render_loop_spec _ _ _ texts); [by rewrite <- string_app_assoc|].
  induction Htexts; decompose_Forall_hyps; constructor; auto.
Qed.

(** C24: the generator terminates on every configuration: each schema has a type that
    every fuel above the schema's size computes, and the module is, for every
    sufficient fuel, the prelude followed by one block per namespace, in order,
    that declares this type. *)
Theorem render_terminates (namespaces : list (string * Value)) :
  ∃ texts,
    Forall2 (λ e t, ∀ fuel, value_size e.2 < fuel → ts_type fuel e.2 = Some t)
      namespaces texts ∧
    ∀ fuel, Forall (λ e, value_size e.2 < fuel) namespaces →
      render fuel namespaces
      = Some (PRELUDE +:+ newline
              +:+ foldr (λ e s, namespace_block e.1.1 e.2 +:+ s) "" (zip namespaces texts)).
Proof. apply render_texts. Qed.
End terminates.

(** ** What the server lets through *)

Section published.
Context `{A : JsonAccess} {SL : JsonSchemaLaws A}.

(** C17: let the server's registry be built from the same namespaces the generator
    reads.  A payload the registry accepts on a channel, when parsed, inhabits
    the TypeScript type emitted for the schema of the channel's namespace; and
    where the property names are identifiers the emitted text parses to that
    type.  The schema has neither [$ref] nor [prefixItems]. *)
Theorem accepted_payload_has_emitted_type
    (namespaces : list (string * Value)) (b : JsonSchemaRegistryBuilder) (channel : string)
    (data : Bytes) (schema x : Value) (fuel : nat) (text : string)
    (Hb : with_namespaces builder_new namespaces = Ok b)
    (Hschema : last_schema namespaces (namespace_of channel) = Some schema)
    (Hplain : plain_schema schema)
    (Hok : registry_validate (build b) channel data = Ok ())
    (Hx : from_slice data = Ok x)
    (Htext : ts_type fuel schema = Some text) :
  ∃ t, text = show_ts t ∧ inhabits t x ∧ (ident_schema schema → parse_ts text = Some t).
Proof.
  apply (registry_validate_conforms namespaces) in Hok; [|done]. rewrite Hschema in Hok.
  destruct Hok as (v & x' & u & Hv & Hx' & Hvx). assert (x' = x) as -> by congruence.
  destruct (ts_type_sound fuel schema schema text Hplain Htext) as (t & -> & [Ht Hk] & _).
  exists t. split_and!; [done| |].
  - apply Ht. by eapply validate_valid.
  - intros Hid. by apply parse_ts_show, Hk.
Qed.
End published.

(** ** A concrete configuration *)

(** No object of the tree has one of the two keywords. *)
Fixpoint json_plain (j : Json) : bool :=
  match j with
  | JObj m => forallb (λ e, negb (bool_decide (e.1 = "$ref" ∨ e.1 = "prefixItems"))
                            && json_plain e.2) m
  | JArr l => forallb json_plain l
  | _ => true
  end.

Lemma json_plain_get j k c :
  json_plain j = true → json_get j k = Some c →
  k ≠ "$ref" ∧ k ≠ "prefixItems" ∧ json_plain c = true.
Proof.
  intros Hj (m & -> & Hk)%json_get_member. cbn [json_plain] in Hj.
  rewrite forallb_forall in Hj. specialize (Hj (k, c) (proj1 (list_elem_of_In _ _) Hk)).
  apply andb_true_iff in Hj as [Hn Hc]. rewrite negb_true_iff, bool_decide_eq_false in Hn.
  naive_solver.
Qed.

Lemma json_plain_schema (s : Json) :
  json_plain s = true → plain_schema (A:=TreeAccess) s.
Proof.
  intros Hs t Ht. assert (json_plain t = true) as Hp.
  { induction Ht as [|t i _ IH Hi|t ps m k p _ IH Hps Hm Hk]; [done| |].
    - by apply (json_plain_get t "items") in Hi as (_ & _ & ?).
    - apply (json_plain_get t "properties") in Hps as (_ & _ & Hps); [|done].
      destruct ps; simplify_eq/=. rewrite forallb_forall in Hps.
      specialize (Hps (k, p) (proj1 (list_elem_of_In _ _) Hk)).
      by apply andb_true_iff in Hps as [_ ?]. }
  split; apply eq_None_not_Some; intros [c Hc]; by apply json_plain_get in Hc as (? & ? & _).
Qed.

(** [{"type":"object","required":["sku"],"properties":{"qty":..,"sku":..}}] *)
Definition orders_schema : Json :=
  JObj [("type", JStr "object"); ("required", JArr [JStr "sku"]);
        ("properties", JObj [("qty", JObj [("type", JStr "integer")]);
                             ("sku", JObj [("type", JStr "string")]);
                             ("tags", JObj [("type", JStr "array");
                                            ("items", JObj [("type", JStr "string")])])])].

(** The text of a JSON document, the quotes written as apostrophes. *)
Definition json_text (s : string) : Bytes :=
  bytes_of_string (String.string_of_list_ascii
    ((λ a : ascii, if decide (a = "'"%char) then quote else a) <$> String.list_ascii_of_string s)).

Definition AsciiTables : UnicodeTables :=
  {| uni_alphanumeric _ := false; uni_uppercase c := c |}.

(** Different namespaces may get the same name, a namespace may get a name that is
    no identifier, and a property name is not quoted. *)
Example type_name_collides :
  type_name (U:=AsciiTables) "rooms.lobby" = type_name (U:=AsciiTables) "rooms-lobby" ∧
  is_ident (type_name (U:=AsciiTables) "2fa") = false ∧
  (text ← ts_type (A:=TreeAccess) 9
     (JObj [("type", JStr "object");
            ("properties", JObj [("content-type", JObj [("type", JStr "string")])])]);
   Some (text, parse_ts text))
  = Some ("{ content-type?: string }", None).
Proof. by vm_compute. Qed.

Lemma render_terminates_witness :
  ∃ texts, Forall2 (λ e t, ∀ fuel, json_size e.2 < fuel → ts_type (A:=TreeAccess) fuel e.2 = Some t)
             [("orders", orders_schema)] texts.
Proof.
  destruct (render_terminates (A:=TreeAccess) (AL:=tree_laws) (U:=AsciiTables)
    [("orders", orders_schema)]) as (texts & Ht & _).
  exists texts. exact Ht.
Defined.

Lemma accepted_payload_has_emitted_type_witness :
  ∃ t, "{ qty?: number; sku: string; tags?: string[] }" = show_ts t ∧
       inhabits (A:=TreeAccess) t
         (JObj [("sku", JStr "A1"); ("tags", JArr [JStr "new"; JStr "red"])]).
Proof.
  destruct (accepted_payload_has_emitted_type (A:=TreeAccess) (SL:=tree_schema_laws)
    [("orders", orders_schema)]
    (mk_builder (H:=TreeJson) (<["orders" := orders_schema]> ∅)) "orders.created"
    (json_text "{'sku':'A1','tags':['new','red']}") orders_schema
    (JObj [("sku", JStr "A1"); ("tags", JArr [JStr "new"; JStr "red"])])
    4 "{ qty?: number; sku: string; tags?: string[] }") as (t & ? & ? & _); [..|by exists t].
  - reflexivity.
  - reflexivity.
  - by apply json_plain_schema.
  - vm_compute. reflexivity.
  - vm_compute. reflexivity.
  - vm_compute. reflexivity.
Defined.
