(* ===== verification/AsyncApi.v ===== *)
(** * The AsyncAPI generator (crates/cherenkov-sdk-ts/src/asyncapi.rs)

    The document built for a list of namespaces.  Every [$ref] in it resolves to
    the schema of its namespace. *)
From S2P Require Import Prelude SchemaRegistry Json.

Section asyncapi.
Context `{A : JsonAccess}.

(** serde_yaml's [to_string]. *)
Variable to_yaml : Value → result string string.

(** The object literals of [json!]. *)
Definition json_obj (l : list (string * Value)) : Value := value_object (list_to_map l).

Definition component_ref (name : string) : string :=
  "#/components/schemas/" +:+ name +:+ "Payload".
Definition channel_path (name : string) : string := name +:+ ".{channelTail}".

Definition channel_message (name : string) : Value :=
  json_obj [("name", value_string (name +:+ "Publication"));
            ("payload", json_obj [("$ref", value_string (component_ref name))])].

Definition channel_item (name : string) : Value :=
  json_obj
    [("parameters", json_obj
       [("channelTail", json_obj
          [("description", value_string "Channel suffix after the namespace separator");
           ("schema", json_obj [("type", value_string "string")])])]);
     ("publish", json_obj
       [("operationId", value_string ("publish_" +:+ name)); ("message", channel_message name)]);
     ("subscribe", json_obj
       [("operationId", value_string ("subscribe_" +:+ name)); ("message", channel_message name)])].

(** The loop: the maps [channels] and [schemas]. *)
Definition add_namespace (acc : gmap string Value * gmap string Value)
    (e : string * Value) : gmap string Value * gmap string Value :=
  let '(channels, schemas) := acc in
  let '(name, schema) := e in
  let schemas := <[name +:+ "Payload" := schema]> schemas in
  (<[channel_path name := channel_item name]> channels, schemas).

Definition document_of (channels schemas : gmap string Value) : Value :=
  json_obj
    [("asyncapi", value_string "2.6.0");
     ("info", json_obj
       [("title", value_string "Cherenkov realtime API");
        ("version", value_string "0.1.0");
        ("description", value_string "Generated by cherenkov-sdk-ts from a server config file.")]);
     ("servers", json_obj
       [("default", json_obj
          [("url", value_string "ws://localhost:7000/connect/v1");
           ("protocol", value_string "ws")])]);
     ("channels", value_object channels);
     ("components", json_obj [("schemas", value_object schemas)])].

Definition document (namespaces : list (string * Value)) : Value :=
  let '(channels, schemas) := foldl add_namespace (∅, ∅) namespaces in
  document_of channels schemas.

Definition render (namespaces : list (string * Value)) : result string string :=
  to_yaml (document namespaces).

(** ** References *)

(** The reference tokens of a JSON pointer (RFC 6901), unescaped. *)
Fixpoint split_char (c : ascii) (s : string) : list string :=
  match s with
  | EmptyString => [""]
  | String a s' =>
      if decide (a = c) then "" :: split_char c s'
      else match split_char c s' with
           | h :: t => String a h :: t
           | [] => []
           end
  end.

Fixpoint unescape (s : string) : string :=
  match s with
  | String "~" (String "1" s') => String "/" (unescape s')
  | String "~" (String "0" s') => String "~" (unescape s')
  | String a s' => String a (unescape s')
  | EmptyString => ""
  end.

Definition follow (v : option Value) (token : string) : option Value := v' ← v; get v' token.

(** A reference within the document. *)
Definition resolve (doc : Value) (ref : string) : option Value :=
  pointer ← strip_prefix "#/" ref;
  foldl follow (Some doc) (unescape <$> split_char "/"%char pointer).

(** The reference in the message of an operation of a channel. *)
Definition operation_ref (doc : Value) (channel operation : string) : option string :=
  foldl follow (Some doc) ["channels"; channel; operation; "message"; "payload"; "$ref"]
    ≫= as_str.

Context {AL : JsonAccessLaws A}.

Lemma split_char_none c s : ¬ string_has c s → split_char c s = [s].
Proof.
  unfold string_has. induction s as [|a s IH]; simpl; [done|].
  rewrite elem_of_cons. intros H. rewrite decide_False by naive_solver.
  by rewrite IH by naive_solver.
Qed.

Lemma component_tokens s :
  ¬ string_has "/"%char s →
  split_char "/"%char ("components/schemas/" +:+ s) = ["components"; "schemas"; s].
Proof. intros Hs. simpl. by rewrite string_app_nil_l, split_char_none. Qed.

Lemma unescape_none s : ¬ string_has "~"%char s → unescape s = s.
Proof.
  unfold string_has. induction s as [|a s IH]; simpl; [done|].
  rewrite elem_of_cons. intros H. assert (a ≠ "~"%char) as Ha by naive_solver.
  assert (unescape (String a s) = String a (unescape s)) as He.
  { destruct a as [[] [] [] [] [] [] [] []]; try reflexivity. by destruct Ha. }
  simpl in He. rewrite He. by rewrite IH by naive_solver.
Qed.

Lemma string_app_inv_tail s t u : s +:+ u = t +:+ u → s = t.
Proof.
  revert t. induction s as [|a s IH]; intros [|b t]; [done| | |].
  - intros H. apply (f_equal String.length) in H. rewrite !length_string_app in H. simpl in H. lia.
  - intros H. apply (f_equal String.length) in H. rewrite !length_string_app in H. simpl in H. lia.
  - rewrite !string_app_cons. intros [= -> H]. by rewrite (IH t H).
Qed.

(** Looking up a key of an object literal. *)
Fixpoint assoc (k : string) (l : list (string * Value)) : option Value :=
  match l with
  | [] => None
  | (k', v) :: l => if decide (k' = k) then Some v else assoc k l
  end.

Lemma get_json_obj l k : get (json_obj l) k = assoc k l.
Proof.
  unfold json_obj. rewrite get_value_object. induction l as [|[k' v] l IH]; simpl.
  - apply lookup_empty.
  - case_decide; subst; [apply lookup_insert_eq|by rewrite lookup_insert_ne].
Qed.

Lemma follow_obj l k ks :
  foldl follow (Some (json_obj l)) (k :: ks) = foldl follow (assoc k l) ks.
Proof. simpl. by rewrite get_json_obj. Qed.

Lemma follow_map m k ks :
  foldl follow (Some (value_object m)) (k :: ks) = foldl follow (m !! k) ks.
Proof. simpl. by rewrite get_value_object. Qed.

Lemma channels_lookup l name :
  name ∈ l.*1 → (foldl add_namespace (∅, ∅) l).1 !! channel_path name = Some (channel_item name).
Proof.
  induction l as [|[n s] l IH] using rev_ind; [by intros ?%elem_of_nil|].
  rewrite foldl_snoc, fmap_app, elem_of_app. simpl. rewrite list_elem_of_singleton.
  destruct (foldl add_namespace (∅, ∅) l) as [cs ss]. simpl in *.
  destruct (decide (n = name)) as [->|Hne]; [by rewrite lookup_insert_eq|].
  rewrite lookup_insert_ne by (intros ?%string_app_inv_tail; done). intros [?|?]; [auto|done].
Qed.

Lemma schemas_lookup l name :
  (foldl add_namespace (∅, ∅) l).2 !! (name +:+ "Payload") = last_schema l name.
Proof.
  induction l as [|[n s] l IH] using rev_ind; [apply lookup_empty|].
  rewrite foldl_snoc, last_schema_snoc. destruct (foldl add_namespace (∅, ∅) l) as [cs ss].
  simpl in *. case_decide as Hn; [subst; apply lookup_insert_eq|].
  by rewrite lookup_insert_ne by (intros ?%string_app_inv_tail; done).
Qed.

(** In the generated document the payload reference of both operations of a
    namespace's channel resolves, as a JSON pointer into the document, to the
    schema of this namespace, when the name has no slash and no tilde. *)
Theorem document_refs_resolve (namespaces : list (string * Value)) (name operation : string)
    (schema : Value)
    (Hschema : last_schema namespaces name = Some schema)
    (Hslash : ¬ string_has "/"%char name) (Htilde : ¬ string_has "~"%char name)
    (Hop : operation = "publish" ∨ operation = "subscribe") :
  ∃ ref, operation_ref (document namespaces) (channel_path name) operation = Some ref ∧
         resolve (document namespaces) ref = Some schema.
Proof.
  pose proof (schemas_lookup namespaces name) as Hs. rewrite Hschema in Hs.
  assert (name ∈ namespaces.*1) as Hname.
  { unfold last_schema in Hschema. apply fmap_Some in Hschema as ([n s] & Hl & ->).
    apply last_Some_elem_of, list_elem_of_filter in Hl as [<- Hl].
    by apply (list_elem_of_fmap_2 fst) in Hl. }
  apply channels_lookup in Hname. unfold document.
  destruct (foldl add_namespace (∅, ∅) namespaces) as [channels schemas]. simpl in Hs, Hname.
  exists (component_ref name). split.
  - unfold operation_ref, document_of. rewrite follow_obj. simpl assoc. rewrite follow_map, Hname.
    unfold channel_item, channel_message.
    destruct Hop as [-> | ->]; repeat (rewrite follow_obj; simpl assoc); apply as_str_value_string.
  - assert (¬ string_has "/"%char (name +:+ "Payload") ∧ ¬ string_has "~"%char (name +:+ "Payload"))
      as [Hslash' Htilde'] by (rewrite !string_has_app; split; intros [?|H]; try done;
          by apply (bool_decide_pack _ (dec:=string_has_dec _ _)) in H).
    unfold resolve, component_ref.
    change (strip_prefix "#/" _) with (Some ("components/schemas/" +:+ name +:+ "Payload")).
    cbn [mbind option_bind]. rewrite component_tokens by done.
    cbn [fmap list_fmap]. change (unescape "components") with "components".
    change (unescape "schemas") with "schemas". rewrite unescape_none by done.
    unfold document_of. repeat (rewrite follow_obj; simpl assoc). by rewrite follow_map.
Qed.
End asyncapi.

(** A slash in the name of a namespace breaks its references. *)
Example slash_breaks_refs :
  let doc := document (A:=TreeAccess) [("rooms/eu", JBool true)] in
  operation_ref (A:=TreeAccess) doc (channel_path "rooms/eu") "publish"
  = Some "#/components/schemas/rooms/euPayload" ∧
  resolve (A:=TreeAccess) doc "#/components/schemas/rooms/euPayload" = None.
Proof. split; vm_compute; reflexivity. Qed.

Lemma document_refs_resolve_witness :
  ∃ ref, operation_ref (A:=TreeAccess) (document (A:=TreeAccess) [("orders", JBool true)])
           "orders.{channelTail}" "publish" = Some ref ∧
         resolve (A:=TreeAccess) (document (A:=TreeAccess) [("orders", JBool true)]) ref
         = Some (JBool true).
Proof.
  apply (document_refs_resolve (A:=TreeAccess) (AL:=tree_laws) [("orders", JBool true)]
    "orders" "publish" (JBool true)).
  - reflexivity.
  - apply (bool_decide_unpack _). vm_compute. exact I.
  - apply (bool_decide_unpack _). vm_compute. exact I.
  - by left.
Defined.
