(* ===== verification/SdkMain.v ===== *)
(** * The generator's command (crates/cherenkov-sdk-ts/src/main.rs)

    Reading the server's configuration, collecting the namespaces with a schema
    and writing the artifact.  serde_yaml and the operating system's files are
    parameters; the command line arrives parsed.  *)
From S2P Require Import Prelude SchemaRegistry Json TsGen AsyncApi.

(** ** Paths, by their components *)

Record PathBuf : Type := mk_path { absolute : bool; components : list string }.

Definition path_default : PathBuf := mk_path false [].

(** [Path::parent]. *)
Definition path_parent (p : PathBuf) : option PathBuf :=
  match p.(components) with
  | [] => None
  | c => Some (mk_path p.(absolute) (removelast c))
  end.

(** [Path::join]. *)
Definition path_join (p q : PathBuf) : PathBuf :=
  if q.(absolute) then q else mk_path p.(absolute) (p.(components) ++ q.(components)).

Inductive Target : Type := Ts | Asyncapi.

Record Cli : Type := mk_Cli {
  cli_config : PathBuf;
  cli_target : Target;
  cli_output : option PathBuf;
}.

Section main.
Context `{A : JsonAccess} `{U : UnicodeTables}.

Record NamespaceSection : Type := mk_section {
  section_kind : option string;
  section_schema : option Value;
  section_schema_path : option PathBuf;
}.

Class SerdeYaml : Type := {
  YamlValue : Type;
  yaml_as_str : YamlValue → option string;
  config_from_str : string → result string (list (YamlValue * YamlValue));
  section_from_value : YamlValue → result string NamespaceSection;
  to_yaml : Value → result string string;
}.
Context `{Y : SerdeYaml}.

(** An [anyhow::Error]: its messages, the outermost context first. *)
Definition Error : Type := list string.
Definition context {B} (c : string) (r : result string B) : result Error B :=
  result_map_err (λ e, [c; e]) r.

(** The operating system: files and standard output, and [Debug] of a path. *)
Context {W : Type}.
Variable read_to_string : W → PathBuf → result string string.
Variable write_file : PathBuf → string → io W string unit.
Variable println : string → W → W.
Variable debug_path : PathBuf → string.

Section collect.
Variable w : W.
Variable config_dir : PathBuf.

(** The document of one section, [None] for one that is skipped. *)
Definition section_document (name : string) (section : NamespaceSection) :
    result Error (option Value) :=
  match section.(section_schema), section.(section_schema_path) with
  | Some inline, None => Ok (Some inline)
  | None, Some path =>
      let resolved := if path.(absolute) then path else path_join config_dir path in
      let? text := context ("read " +:+ debug_path resolved) (read_to_string w resolved) in
      let? value := context ("parse " +:+ debug_path resolved) (from_str text) in
      Ok (Some value)
  | Some _, Some _ =>
      Err ["namespace `" +:+ name +:+ "`: schema and schema_path are mutually exclusive"]
  | None, None => Ok None
  end.

Fixpoint collect (namespaces : list (string * Value)) (entries : list (YamlValue * YamlValue)) :
    result Error (list (string * Value)) :=
  match entries with
  | [] => Ok namespaces
  | (key, value) :: entries =>
      let? name := ok_or (yaml_as_str key) ["namespace key must be a string"] in
      let? section := context "parse namespace section" (section_from_value value) in
      let? schema := section_document name section in
      collect (match schema with
               | Some schema => namespaces ++ [(name, schema)]
               | None => namespaces
               end) entries
  end.
End collect.

(** The TypeScript generator has fuel ([fuel]); the error for want of it does not
    occur ([main_has_fuel]). *)
Definition main (fuel : nat) (cli : Cli) : io W Error unit :=
  let! w := io_gets (λ w : W, w) in
  let! config_text := io_of_result (context ("read " +:+ debug_path cli.(cli_config))
    (read_to_string w cli.(cli_config))) in
  let! entries := io_of_result (context "parse config yaml" (config_from_str config_text)) in
  let config_dir := default path_default (path_parent cli.(cli_config)) in
  let! namespaces := io_of_result (collect w config_dir [] entries) in
  let! rendered := match cli.(cli_target) with
    | Ts => io_of_result (ok_or (TsGen.render fuel namespaces) ["out of fuel"])
    | Asyncapi => io_of_result (result_map_err (λ e, [e]) (AsyncApi.render to_yaml namespaces))
    end in
  match cli.(cli_output) with
  | Some path => io_map_err (λ e, ["write " +:+ debug_path path; e]) (write_file path rendered)
  | None => io_modify (println rendered)
  end.
End main.
