(* ===== verification/SdkProps.v ===== *)
(** * The generator and the server read the same configuration

    On a configuration the server accepts, the generator works on exactly the
    schemas the server enforces. *)
From S2P Require Import Prelude Traits SchemaRegistry Config App Json TsGen TsProps AsyncApi SdkMain.

(** ** Registering schemas in any order *)

Lemma Forall2_perm {B C} (P : B → C → Prop) l l' k :
  l ≡ₚ l' → Forall2 P l k → ∃ k', k ≡ₚ k' ∧ Forall2 P l' k'.
Proof.
  intros Hp. revert k. induction Hp as [|x l l' _ IH|x y l|l l' l'' _ IH1 _ IH2]; intros k Hk.
  - inversion Hk. subst. by exists [].
  - inversion Hk as [|? c ? k0 Hc Hk0]. subst. destruct (IH _ Hk0) as (k' & ? & ?).
    exists (c :: k'). split; [by constructor|by constructor].
  - inversion Hk as [|? c ? k0 Hc Hk0]. subst. inversion Hk0 as [|? d ? k1 Hd Hk1]. subst.
    exists (d :: c :: k1). split; [constructor|repeat constructor; done].
  - destruct (IH1 _ Hk) as (k1 & H1 & Hk1). destruct (IH2 _ Hk1) as (k2 & H2 & Hk2).
    exists k2. split; [by rewrite H1|done].
Qed.

Section order.
Context `{JsonEngine}.

Lemma with_namespaces_perm l l' b r :
  l ≡ₚ l' → NoDup l.*1 → with_namespaces b l = Ok r → with_namespaces b l' = Ok r.
Proof.
  intros Hp. revert b. induction Hp as [|[n s] l l' _ IH|[n s] [n' s'] l|l l' l'' H1 IH1 H2 IH2];
    intros b Hnd; simpl; [done| | |].
  - apply NoDup_cons in Hnd as [_ Hnd]. destruct (with_namespace b n s); simpl; [|done]. by apply IH.
  - apply NoDup_cons in Hnd as [Hn _]. apply not_elem_of_cons in Hn as [Hn _]. simpl in Hn.
    unfold with_namespace. destruct (validator_for s') as [v'|], (validator_for s) as [v|]; simpl;
      try done. by rewrite insert_insert_ne by done.
  - intros Hl. apply IH2; [by rewrite <- H1|]. by apply IH1.
Qed.
End order.

Section agree.
Context `{A : JsonAccess} {AL : JsonAccessLaws A} {Y : SerdeYaml}.
Context {W : Type}.
Variable read_to_string : W → PathBuf → result string string.
Variable read_file : string → result string Bytes.
Variables debug_path show_path : PathBuf → string.

(** How the server sees a section of the same file. *)
Definition server_section (s : NamespaceSection) : NamespaceConfig :=
  mk_NamespaceConfig JsonSchema s.(section_schema) (show_path <$> s.(section_schema_path)).
Definition server_namespaces (l : list (string * NamespaceSection)) : NamespacesConfig :=
  (λ e, (e.1, server_section e.2)) <$> l.

Definition parsed_entry (e : YamlValue * YamlValue) (s : string * NamespaceSection) : Prop :=
  yaml_as_str e.1 = Some s.1 ∧ section_from_value e.2 = Ok s.2.

(** The document the server finds for a section. *)
Definition section_has (e : string * NamespaceSection) (s : string * Value) : Prop :=
  s.1 = e.1 ∧ is_ok (validate_schema_source (server_section e.2)) = true ∧
  schema_value read_file e.1 (server_section e.2) = Ok s.2.

Lemma add_namespaces_documents l b b' :
  add_namespaces read_file b (server_namespaces l) = Ok b' →
  ∃ docs, Forall2 section_has l docs ∧ with_namespaces b docs = Ok b'.
Proof.
  revert b. induction l as [|[n s] l IH]; intros b; simpl.
  - intros [= <-]. by exists [].
  - destruct (validate_schema_source (server_section s)) eqn:Hv; simpl; [|done].
    destruct (schema_value read_file n (server_section s)) as [v|] eqn:Hs; simpl; [|done].
    destruct (with_namespace b n v) as [b1|] eqn:Hb; simpl; [|done].
    intros (docs & Hdocs & Hw)%IH. exists ((n, v) :: docs). split.
    + constructor; [|done]. split_and!; simpl; [done|by rewrite Hv|done].
    + simpl. by rewrite Hb.
Qed.

Variable w : W.
Variable config_dir : PathBuf.

(** What both programs read: the same bytes, under the path the generator makes of
    the configured one. *)
Definition same_file (p : PathBuf) : Prop := ∀ bytes, read_file (show_path p) = Ok bytes →
  ∃ text, read_to_string w (if p.(absolute) then p else path_join config_dir p) = Ok text ∧
          bytes_of_string text = bytes.

Lemma section_document_agrees e s :
  (∀ p, e.2.(section_schema_path) = Some p → same_file p) → section_has e s →
  section_document read_to_string debug_path w config_dir e.1 e.2 = Ok (Some s.2).
Proof.
  intros Hf (_ & Hv & Hs). unfold section_document. destruct e as [n [k sch path]], s as [n' v].
  unfold schema_value in Hs. simpl in *.
  destruct sch as [sch|], path as [p|]; simpl in *; try done; [congruence|].
  destruct (read_file (show_path p)) as [bytes|] eqn:Hr; simpl in Hs; [|done].
  destruct (from_slice bytes) as [v'|] eqn:Hj; simpl in Hs; [|done]. injection Hs as ->.
  destruct (Hf p eq_refl bytes Hr) as (text & -> & <-). simpl.
  by rewrite from_str_slice, Hj.
Qed.

Lemma collect_agrees entries l docs acc :
  Forall2 parsed_entry entries l → Forall2 section_has l docs →
  Forall (λ e, ∀ p, e.2.(section_schema_path) = Some p → same_file p) l →
  collect read_to_string debug_path w config_dir acc entries = Ok (acc ++ docs).
Proof.
  intros He. revert docs acc. induction He as [|[k v] [n s] entries l [Hk Hv] _ IH];
    intros docs acc Hd Hf; inversion Hd as [|? [n' d] ? docs' Hs Hds]; subst; simpl.
  - by rewrite app_nil_r.
  - apply Forall_cons in Hf as [Hf1 Hf]. simpl in Hk, Hv. rewrite Hk, Hv. simpl.
    pose proof (section_document_agrees _ _ Hf1 Hs) as Hdoc. simpl in Hdoc. rewrite Hdoc. simpl.
    destruct Hs as [Hn _]. simpl in Hn. subst.
    rewrite (IH docs') by done. by rewrite <- app_assoc.
Qed.

(** C19: the server keeps the namespaces of its configuration ordered by name and the
    generator reads them in the order of the file.  If the server builds its schema
    registry from them, and the schema files the server reads are the ones the
    generator finds, then the generator collects a document for every
    namespace, and registering what it collected gives the server's registry: the
    generated types are about the schemas the server enforces. *)
Theorem generator_reads_enforced_schemas
    (entries : list (YamlValue * YamlValue)) (sections sorted : list (string * NamespaceSection))
    (registry : JsonSchemaRegistry)
    (Hentries : Forall2 parsed_entry entries sections)
    (Hsorted : sorted ≡ₚ sections) (Hnames : NoDup sections.*1)
    (Hfiles : Forall (λ e, ∀ p, e.2.(section_schema_path) = Some p → same_file p) sections)
    (Hserver : build_schema_registry read_file (server_namespaces sorted) = Ok registry) :
  ∃ namespaces b,
    collect read_to_string debug_path w config_dir [] entries = Ok namespaces ∧
    namespaces.*1 = sections.*1 ∧
    with_namespaces builder_new namespaces = Ok b ∧ SchemaRegistry.build b = registry.
Proof.
  unfold build_schema_registry in Hserver.
  destruct (add_namespaces _ _ _) as [b|] eqn:Hb; simpl in Hserver; [|done].
  injection Hserver as Hreg. apply add_namespaces_documents in Hb as (docs & Hdocs & Hb).
  destruct (Forall2_perm _ _ _ _ Hsorted Hdocs) as (docs' & Hp & Hdocs').
  assert (docs'.*1 = sections.*1) as Hn.
  { clear -Hdocs'. induction Hdocs' as [|e s l l' [H _] _ IH]; simpl; [done|]. by f_equal. }
  exists docs', b. split_and!; [|done| |done].
  - by rewrite (collect_agrees _ sections docs').
  - apply (with_namespaces_perm docs); [done| |done]. by rewrite Hp, Hn.
Qed.

Context `{U : UnicodeTables}.
Variable write_file : PathBuf → string → io W string unit.
Variable println : string → W → W.

(** With fuel for the schemas, the command writes the module of the namespaces it
    collected: the fuel's error does not occur. *)
Lemma main_has_fuel fuel (cli : Cli) text entries namespaces :
  read_to_string w cli.(cli_config) = Ok text → config_from_str text = Ok entries →
  collect read_to_string debug_path w (default path_default (path_parent cli.(cli_config)))
    [] entries = Ok namespaces →
  Forall (λ e, value_size e.2 < fuel) namespaces → cli.(cli_target) = Ts →
  ∃ rendered, TsGen.render fuel namespaces = Some rendered ∧
    main read_to_string write_file println debug_path fuel cli w
    = match cli.(cli_output) with
      | Some path => io_map_err (λ e, ["write " +:+ debug_path path; e])
                       (write_file path rendered) w
      | None => (Ok (), println rendered w)
      end.
Proof.
  intros Ht He Hc Hf Htarget. destruct (render_texts namespaces) as (texts & _ & Hr).
  specialize (Hr fuel Hf). eexists. split; [exact Hr|].
  unfold main, io_bind, io_gets, io_of_result. simpl. rewrite Ht. simpl. rewrite He. simpl.
  rewrite Hc, Htarget. simpl. rewrite Hr. simpl. by destruct (cli_output cli).
Qed.
End agree.

(** ** A concrete configuration *)

Definition ListYaml : @SerdeYaml TreeJson := {|
  YamlValue := string + @NamespaceSection TreeJson;
  yaml_as_str v := match v with inl s => Some s | inr _ => None end;
  config_from_str _ := Err "invalid type";
  section_from_value v := match v with inr s => Ok s | inl _ => Err "invalid type" end;
  to_yaml _ := Ok "{}";
|}.

Definition rooms_section : @NamespaceSection TreeJson :=
  @mk_section TreeJson (Some "json-schema") (Some (JObj [("type", JStr "string")])) None.
Definition orders_section : @NamespaceSection TreeJson :=
  @mk_section TreeJson None None (Some (mk_path true ["orders.json"])).

Definition disk (p : string) : result string Bytes :=
  if decide (p = "/orders.json") then Ok (json_text "{'type':'object'}") else Err "not found".

Lemma generator_reads_enforced_schemas_witness :
  ∃ namespaces : list (string * Json),
    collect (A:=TreeAccess) (Y:=ListYaml)
      (λ (_ : unit) p, result_map_err id (match disk "/orders.json" with
                          | Ok b => Ok (string_of_bytes b) | Err e => Err e end))
      (λ _, "") () path_default []
      [(inl "rooms", inr rooms_section); (inl "orders", inr orders_section)] = Ok namespaces ∧
    namespaces.*1 = ["rooms"; "orders"].
Proof.
  set (reg := match build_schema_registry (JS:=TreeJson) disk
                     (server_namespaces (λ _, "/orders.json")
                        [("orders", orders_section); ("rooms", rooms_section)]) with
              | Ok r => r | Err _ => SchemaRegistry.empty (H:=TreeJson) end).
  destruct (generator_reads_enforced_schemas (A:=TreeAccess) (AL:=tree_laws) (Y:=ListYaml)
    (λ (_ : unit) p, result_map_err id (match disk "/orders.json" with
                          | Ok b => Ok (string_of_bytes b) | Err e => Err e end))
    disk (λ _, "") (λ _, "/orders.json") () path_default
    [(inl "rooms", inr rooms_section); (inl "orders", inr orders_section)]
    [("rooms", rooms_section); ("orders", orders_section)]
    [("orders", orders_section); ("rooms", rooms_section)] reg)
    as (namespaces & b & Hc & Hn & _ & _).
  - repeat constructor.
  - constructor.
  - apply (bool_decide_unpack _). vm_compute. exact I.
  - repeat constructor; simpl; [done|]. intros p _ bytes Hb. exists (string_of_bytes bytes).
    change (disk "/orders.json") with (Ok (E:=string) (json_text "{'type':'object'}")) in *.
    injection Hb as <-. split; [done|]. apply bytes_of_string_of_bytes.
  - reflexivity.
  - exists namespaces. split; [exact Hc|exact Hn].
Defined.
