(* ===== verification/TestKit.v ===== *)
(** * The repository's own unit tests: how they are written here

    The test modules of the crates are translated next to the model and run on it:
    a test is a computation that fails where an assertion of the Rust test would
    panic.  The files ending in Tests.v hold the translations, each with the
    statement that the model passes them. *)
From S2P Require Import Prelude Protocol Traits Session Hub Node.

Section tests.
Context {W : Type}.

(** A test over the state [W]; an error is the panic. *)
Definition test (A : Type) : Type := io W string A.

(** [assert!] and [assert_eq!]. *)
Definition assert (b : bool) : test unit :=
  if b then io_ret () else io_fail "assertion failed".
Definition assert_eq {A} `{EqDecision A} (x y : A) : test unit := assert (bool_decide (x = y)).

(** [m.await.expect(msg)] and [m.await.expect_err(msg)]. *)
Definition expect {E A} (msg : string) (m : io W E A) : test A := io_map_err (λ _, msg) m.
Definition expect_err {E A} (msg : string) (m : io W E A) : test E := λ w,
  match m w with
  | (Err e, w) => (Ok e, w)
  | (Ok _, w) => (Err msg, w)
  end.
Definition unwrap {E A} (m : io W E A) : test A := expect "unwrap" m.

(** The same for what is not a computation. *)
Definition expect_some {A} (msg : string) (o : option A) : test A :=
  match o with Some a => io_ret a | None => io_fail msg end.
Definition unwrap_ok {E A} (r : result E A) : test A := unwrap (io_of_result r).

Lemma assert_eq_refl {A} `{EqDecision A} (x : A) (w : W) : assert_eq x x w = (Ok (), w).
Proof. unfold assert_eq. by rewrite bool_decide_true. Qed.

(** The test passes from [w]. *)
Definition passes {A} (w : W) (t : test A) : bool := is_ok (t w).1.
End tests.
#[global] Arguments test W A : clear implicits.
