(* ===== verification/HubTests.v ===== *)
(** * The unit tests of crates/cherenkov-core/src/hub.rs

    The stubs of the tests and every test function, run on the model. *)
From S2P Require Import Prelude Protocol Traits Session Hub TestKit.

Section tests.
#[local] Existing Instances CountNotifier QueueMpsc.

(** What the stubs keep: the counter of the kind, the record of the broker. *)
Record Stubs : Type := mk_Stubs {
  kind_offset : N;
  published : list (string * Publication);
}.

Definition CountingKind : ChannelKind Stubs := {|
  kind_name := "counting";
  on_subscribe _channel := io_ret ChannelCursor_default;
  on_unsubscribe _channel := io_ret ();
  on_publish channel data := λ w,
    let offset := w.(kind_offset) in
    (Ok (mk_Publication channel offset data),
     mk_Stubs (u64_wrapping_add offset 1) w.(published));
  replay_since := default_replay_since;
|}.

(** [stream::pending()]: a stream that is never ready. *)
Definition RecordingBroker : Broker Stubs unit := {|
  broker_name := "recording";
  broker_subscribe _topic := io_ret ();
  broker_publish topic publication := io_modify (λ w,
    mk_Stubs w.(kind_offset) (w.(published) ++ [(topic, publication)]));
  stream_next _ w := (Pending, w);
  stream_drop _ w := w;
|}.

Abbreviation St := (@HubSt Stubs unit CountNotifier QueueMpsc).
Abbreviation THub := (@Hub Stubs unit).

Definition built (b : result string (THub * list unit)) : test St THub :=
  let! built := unwrap_ok b in io_ret built.1.

Definition build_hub : test St THub :=
  built (build (with_broker (with_channel_kind HubBuilder_new CountingKind) RecordingBroker)).

(** [mpsc::channel(16)] and [hub.open_session(tx)]: the new session's id. *)
Definition open_session (hub : THub) : test St N := λ st,
  let o := N.of_nat (size st.(outboxes)) in
  let st := mk_HubSt st.(core) (<[o := mpsc_channel 16]> st.(outboxes)) st.(world) in
  let '(ptr, st) := open_session hub o st in
  (Ok (deref st.(core) ptr).(id), st).

Definition subscribe_then_unsubscribe_round_trip : test St unit :=
  let! hub := build_hub in
  let! session := open_session hub in
  let! ok := expect "subscribe ok" (handle_subscribe hub session 1 "rooms.lobby" 0) in
  assert_eq ok.(subok_channel) "rooms.lobby" ;;
  assert_eq ok.(subok_request_id) 1%N ;;
  let! ok := expect "unsubscribe ok" (handle_unsubscribe hub session 2 "rooms.lobby") in
  assert_eq ok.(unsubok_request_id) 2%N.

Definition double_subscribe_is_rejected : test St unit :=
  let! hub := build_hub in
  let! session := open_session hub in
  expect "first subscribe ok" (handle_subscribe hub session 1 "rooms.lobby" 0) ;;
  let! err := expect_err "second subscribe must fail"
                (handle_subscribe hub session 2 "rooms.lobby" 0) in
  assert (match err with AlreadySubscribed _ _ => true | _ => false end).

Definition double_unsubscribe_is_rejected : test St unit :=
  let! hub := build_hub in
  let! session := open_session hub in
  let! err := expect_err "unsubscribe without subscribe must fail"
                (handle_unsubscribe hub session 1 "rooms.lobby") in
  assert (match err with NotSubscribed _ _ => true | _ => false end).

Definition publish_routes_through_kind_and_broker : test St unit :=
  let! hub := build_hub in
  let! session := open_session hub in
  expect "publish ok" (handle_publish hub session "rooms.lobby" (bytes_of_string "hi")) ;;
  let! recorded := io_gets (λ st : St, st.(world).(published)) in
  assert_eq (length recorded) 1 ;;
  let! first := expect_some "index out of bounds" (recorded !! 0) in
  assert_eq first.1 "rooms.lobby" ;;
  assert_eq first.2.(publ_data) (bytes_of_string "hi").

Definition RejectAllValidator : SchemaValidator Stubs := {|
  validator_name := "reject-all";
  validate channel _data := io_fail (PayloadRejected channel "always rejects");
|}.

Definition publish_blocked_by_validator_short_circuits_kind_and_broker : test St unit :=
  let! hub := built (build (with_schema_validator
    (with_broker (with_channel_kind HubBuilder_new CountingKind) RecordingBroker)
    RejectAllValidator)) in
  let! session := open_session hub in
  let! err := expect_err "validator must short-circuit publish"
                (handle_publish hub session "rooms.lobby" (bytes_of_string "hi")) in
  assert (match err with ESchema (PayloadRejected _ _) => true | _ => false end) ;;
  let! offset := io_gets (λ st : St, st.(world).(kind_offset)) in
  assert_eq offset 0%N ;;
  let! recorded := io_gets (λ st : St, st.(world).(published)) in
  assert_eq recorded [].

Definition FixedTokenAuth : Authenticator Stubs := {|
  auth_name := "fixed";
  allow_anonymous := false;
  authenticate token :=
    if decide (token = "good") then io_ret (mk_SessionClaims "alice" ["publish"] 0)
    else io_fail (InvalidToken "expected `good`");
|}.

Definition PrefixAcl : AclChecker Stubs := {|
  acl_name := "prefix";
  check _claims _action channel :=
    if String.prefix "forbidden." channel then io_ret Deny else io_ret Allow;
|}.

Definition build_auth_hub : test St THub :=
  built (build (with_acl_checker (with_authenticator
    (with_broker (with_channel_kind HubBuilder_new CountingKind) RecordingBroker)
    FixedTokenAuth) PrefixAcl)).

Definition subscribe_before_connect_is_rejected : test St unit :=
  let! hub := build_auth_hub in
  let! session := open_session hub in
  let! err := expect_err "must require connect"
                (handle_subscribe hub session 1 "rooms.lobby" 0) in
  assert (match err with NotConnected _ => true | _ => false end).

Definition connect_with_bad_token_returns_auth_error : test St unit :=
  let! hub := build_auth_hub in
  let! session := open_session hub in
  let! err := expect_err "bad token must fail" (handle_connect hub session 1 "wrong") in
  assert (match err with EAuth (InvalidToken _) => true | _ => false end).

Definition connect_then_subscribe_then_publish_round_trip : test St unit :=
  let! hub := build_auth_hub in
  let! session := open_session hub in
  let! ok := expect "connect ok" (handle_connect hub session 1 "good") in
  assert_eq ok.(conok_subject) "alice" ;;
  expect "subscribe ok" (handle_subscribe hub session 2 "rooms.lobby" 0) ;;
  expect "publish ok" (handle_publish hub session "rooms.lobby" (bytes_of_string "hi")) ;;
  io_ret ().

Definition acl_deny_short_circuits_subscribe_and_publish : test St unit :=
  let! hub := build_auth_hub in
  let! session := open_session hub in
  unwrap (handle_connect hub session 1 "good") ;;
  let! err := expect_err "must deny" (handle_subscribe hub session 2 "forbidden.x" 0) in
  assert (match err with EAcl _ => true | _ => false end) ;;
  let! err := expect_err "must deny publish too"
                (handle_publish hub session "forbidden.x" (bytes_of_string "hi")) in
  assert (match err with EAcl _ => true | _ => false end).

Definition double_connect_is_rejected : test St unit :=
  let! hub := build_auth_hub in
  let! session := open_session hub in
  unwrap (handle_connect hub session 1 "good") ;;
  let! err := expect_err "re-auth must fail" (handle_connect hub session 2 "good") in
  assert (match err with AlreadyConnected _ => true | _ => false end).

(** The model passes them all. *)
Example hub_tests_pass : Forall (λ t, passes (hub_init (mk_Stubs 0 [])) t = true)
  [subscribe_then_unsubscribe_round_trip; double_subscribe_is_rejected;
   double_unsubscribe_is_rejected; publish_routes_through_kind_and_broker;
   publish_blocked_by_validator_short_circuits_kind_and_broker;
   subscribe_before_connect_is_rejected; connect_with_bad_token_returns_auth_error;
   connect_then_subscribe_then_publish_round_trip;
   acl_deny_short_circuits_subscribe_and_publish; double_connect_is_rejected].
Proof. repeat constructor. Qed.
End tests.
