(* ===== verification/CoreTests.v ===== *)
(** * The unit tests of cherenkov-core, less the hub's

    session.rs, auth.rs, acl.rs and schema.rs of crates/cherenkov-core/src. *)
From S2P Require Import Prelude Protocol Traits Session Hub TestKit.

(** ** session.rs *)

Section session_tests.
#[local] Existing Instances CountNotifier.

(** The sessions are allocated; the registry holds their addresses. *)
Record St : Type := mk_St { reg : SessionRegistry; cells : list Session }.

Definition with_reg {A} (f : SessionRegistry → A * SessionRegistry) : test St A := λ st,
  let '(a, r) := f st.(reg) in (Ok a, mk_St r st.(cells)).

(** [Arc::new(Session::new(reg.next_id(), tx))]: its address. *)
Definition make_session : test St N :=
  let! id := with_reg next_id in
  λ st, (Ok (N.of_nat (length st.(cells))), mk_St st.(reg) (st.(cells) ++ [Session_new id 0])).

Definition session_id (ptr : N) : test St N := λ st,
  match st.(cells) !! N.to_nat ptr with
  | Some s => (Ok s.(id), st)
  | None => (Err "dangling", st)
  end.

Definition ids_are_monotonic : test St unit :=
  let! a := with_reg next_id in
  let! b := with_reg next_id in
  assert (bool_decide (a < b)%N).

Definition register_and_get_round_trip : test St unit :=
  let! s := make_session in
  let! id := session_id s in
  with_reg (λ r, ((), register id s r)) ;;
  let! found := io_gets (λ st, get st.(reg) id) in
  let! fetched := expect_some "registered session is fetchable" found in
  let! fetched_id := session_id fetched in
  assert_eq fetched_id id ;;
  let! n := io_gets (λ st, len st.(reg)) in
  assert_eq n 1.

Definition deregister_clears_reverse_index : test St unit :=
  let! s := make_session in
  let! id := session_id s in
  with_reg (λ r, ((), register id s r)) ;;
  with_reg (λ r, ((), add_to_index id "rooms.lobby" r)) ;;
  let! subs := io_gets (λ st, subscribers_of st.(reg) "rooms.lobby") in
  assert_eq subs [id] ;;
  with_reg (deregister id) ;;
  let! e := io_gets (λ st, is_empty st.(reg)) in
  assert e ;;
  let! subs := io_gets (λ st, subscribers_of st.(reg) "rooms.lobby") in
  assert_eq subs [].

Definition add_and_remove_subscription_updates_reverse_index : test St unit :=
  let! s := make_session in
  let! id := session_id s in
  with_reg (λ r, ((), register id s r)) ;;
  with_reg (λ r, ((), add_to_index id "ch" r)) ;;
  let! subs := io_gets (λ st, subscribers_of st.(reg) "ch") in
  assert_eq subs [id] ;;
  with_reg (λ r, ((), remove_from_index id "ch" r)) ;;
  let! subs := io_gets (λ st, subscribers_of st.(reg) "ch") in
  assert_eq subs [].

Example session_tests_pass : Forall (λ t, passes (mk_St SessionRegistry_new []) t = true)
  [ids_are_monotonic; register_and_get_round_trip; deregister_clears_reverse_index;
   add_and_remove_subscription_updates_reverse_index].
Proof. repeat constructor. Qed.
End session_tests.

(** ** auth.rs, acl.rs, schema.rs *)

Definition allow_all_yields_anonymous_claims : test unit unit :=
  let auth := AllowAllAuthenticator in
  let! claims := expect "no error" (authenticate auth "") in
  assert_eq claims.(subject) "anonymous" ;;
  assert auth.(allow_anonymous) ;;
  assert_eq auth.(auth_name) "allow-all".

Definition allow_all_returns_allow : test unit unit :=
  let acl := AllowAllAcl in
  let! decision := expect "no error" (check acl anonymous ActSubscribe "rooms.lobby") in
  assert_eq decision Allow ;;
  assert_eq acl.(acl_name) "allow-all".

Definition action_as_str_is_stable : test unit unit :=
  assert_eq (acl_action_as_str ActSubscribe) "subscribe" ;;
  assert_eq (acl_action_as_str ActPublish) "publish".

Definition allow_all_accepts_every_payload : test unit unit :=
  let v := AllowAllValidator in
  expect "allow-all never rejects" (validate v "any.channel" (bytes_of_string "opaque")) ;;
  assert_eq v.(validator_name) "allow-all".

Example trait_tests_pass : Forall (λ t, passes () t = true)
  [allow_all_yields_anonymous_claims; allow_all_returns_allow; action_as_str_is_stable;
   allow_all_accepts_every_payload].
Proof. repeat constructor. Qed.
