(* ===== verification/ChannelTests.v ===== *)
(** * The unit tests of the pub/sub kind and of the in-process broker

    crates/cherenkov-channel-pubsub/src/lib.rs and crates/cherenkov-broker/src/lib.rs. *)
From S2P Require Import Prelude Protocol Traits PubSub MemoryBroker TestKit.

(** ** cherenkov-channel-pubsub *)

(** One channel object and the clock. *)
Record Timed : Type := mk_Timed { now : N; object : PubSubChannel }.

Definition object_lens : lens Timed PubSubChannel.
Proof.
  refine {| view := object; update c w := mk_Timed w.(now) c |}; try done. by intros [].
Defined.

Definition channel : ChannelKind Timed := pubsub_kind object_lens now.

(** [let channel = ..], and [tokio::time::sleep(..).await] in nanoseconds. *)
Definition let_channel (c : PubSubChannel) : test Timed unit := io_modify (update object_lens c).
Definition sleep (d : N) : test Timed unit := io_modify (λ w, mk_Timed (w.(now) + d) w.(object)).
Definition seconds (n : N) : N := (n * 1000000000)%N.

Definition is_invalid_channel (e : ChannelError) : bool :=
  match e with InvalidChannel _ => true | _ => false end.

(** [for i in 0..n { .. }], ignoring what the publishes return. *)
Definition publish_each (bodies : list Bytes) : test Timed unit :=
  foldr (λ body rest, unwrap (on_publish channel "rooms.lobby" body) ;; rest) (io_ret ()) bodies.

Definition five_bytes : list Bytes := [[x00]; [x01]; [x02]; [x03]; [x04]].

Definition happy_path_publish_assigns_increasing_offsets : test Timed unit :=
  let_channel PubSub.new ;;
  let! p0 := unwrap (on_publish channel "rooms.lobby" (bytes_of_string "a")) in
  let! p1 := unwrap (on_publish channel "rooms.lobby" (bytes_of_string "b")) in
  assert_eq p0.(publ_offset) 0%N ;;
  assert_eq p1.(publ_offset) 1%N.

Definition empty_channel_name_is_rejected : test Timed unit :=
  let_channel PubSub.new ;;
  let! err := expect_err "must reject" (on_subscribe channel "") in
  assert (is_invalid_channel err) ;;
  let! err := expect_err "must reject" (on_publish channel "" (bytes_of_string "x")) in
  assert (is_invalid_channel err).

Definition history_size_caps_retention : test Timed unit :=
  let_channel (with_bounds 3 (seconds 60)) ;;
  publish_each five_bytes ;;
  let! n := io_gets (λ w, history_len w.(object) "rooms.lobby") in
  assert_eq n 3.

Definition ttl_evicts_old_entries_on_next_publish : test Timed unit :=
  let_channel (with_bounds 64 0) ;;
  unwrap (on_publish channel "rooms.lobby" (bytes_of_string "a")) ;;
  sleep 5000000 ;;
  unwrap (on_publish channel "rooms.lobby" (bytes_of_string "b")) ;;
  let! n := io_gets (λ w, history_len w.(object) "rooms.lobby") in
  assert_eq n 1.

Definition cursor_reflects_most_recent_offset : test Timed unit :=
  let_channel PubSub.new ;;
  publish_each (replicate 3 (bytes_of_string "x")) ;;
  let! cursor := unwrap (on_subscribe channel "rooms.lobby") in
  assert_eq cursor.(offset) 2%N.

Definition replay_since_returns_entries_after_cursor : test Timed unit :=
  let_channel PubSub.new ;;
  unwrap (on_publish channel "rooms.lobby" (bytes_of_string "a")) ;;
  unwrap (on_publish channel "rooms.lobby" (bytes_of_string "b")) ;;
  unwrap (on_publish channel "rooms.lobby" (bytes_of_string "c")) ;;
  let! replay_after_first := unwrap (replay_since channel "rooms.lobby" 0) in
  assert_eq (publ_offset <$> replay_after_first) [1%N; 2%N] ;;
  let! replay_after_second := unwrap (replay_since channel "rooms.lobby" 1) in
  assert_eq (publ_offset <$> replay_after_second) [2%N] ;;
  assert_eq (publ_data <$> replay_after_second) [bytes_of_string "c"] ;;
  let! nothing_left := unwrap (replay_since channel "rooms.lobby" 99) in
  assert_eq nothing_left [].

Definition replay_since_empty_when_history_evicted : test Timed unit :=
  let_channel (with_bounds 2 (seconds 60)) ;;
  publish_each five_bytes ;;
  let! replay := unwrap (replay_since channel "rooms.lobby" 1) in
  assert_eq (publ_offset <$> replay) [3%N; 4%N].

Example pubsub_tests_pass : Forall (λ t, passes (mk_Timed 0 PubSub.new) t = true)
  [happy_path_publish_assigns_increasing_offsets; empty_channel_name_is_rejected;
   history_size_caps_retention; ttl_evicts_old_entries_on_next_publish;
   cursor_reflects_most_recent_offset; replay_since_returns_entries_after_cursor;
   replay_since_empty_when_history_evicted].
Proof. repeat constructor. Qed.

(** ** cherenkov-broker *)

Section broker_tests.
#[local] Existing Instances QueueBroadcast.

Definition broker : Broker MemoryBroker MemStream := memory_broker lens_id.

Definition pub_ (channel : string) (offset : N) (body : string) : Publication :=
  mk_Publication channel offset (bytes_of_string body).

Definition topics_now : test MemoryBroker nat := io_gets topic_count.

(** [stream.next().await.unwrap()]: here the stream is ready. *)
Definition next (s : MemStream) : test MemoryBroker Publication := λ b,
  match stream_next broker s b with
  | (Ready (Some p), b) => (Ok p, b)
  | (Ready None, b) => (Err "unwrap", b)
  | (Pending, b) => (Err "pending", b)
  end.

(** The end of the scope a stream lives in. *)
Definition drop_stream (s : MemStream) : test MemoryBroker unit := io_modify (stream_drop broker s).

Definition lazy_topic_creation : test MemoryBroker unit :=
  let! n := topics_now in
  assert_eq n 0 ;;
  unwrap (broker_subscribe broker "rooms.lobby") ;;
  let! n := topics_now in
  assert_eq n 1.

Definition publish_without_subscribers_is_silent : test MemoryBroker unit :=
  unwrap (broker_publish broker "ghosts" (pub_ "ghosts" 0 "x")) ;;
  let! n := topics_now in
  assert_eq n 0.

Definition publish_delivers_to_active_subscribers : test MemoryBroker unit :=
  let! a := unwrap (broker_subscribe broker "rooms.lobby") in
  let! b := unwrap (broker_subscribe broker "rooms.lobby") in
  unwrap (broker_publish broker "rooms.lobby" (pub_ "rooms.lobby" 0 "hi")) ;;
  let! p := next a in
  assert_eq p.(publ_offset) 0%N ;;
  let! p := next b in
  assert_eq p.(publ_offset) 0%N.

Definition topic_is_reaped_after_last_subscriber_gone : test MemoryBroker unit :=
  let! s := unwrap (broker_subscribe broker "rooms.lobby") in
  drop_stream s ;;
  unwrap (broker_publish broker "rooms.lobby" (pub_ "rooms.lobby" 0 "x")) ;;
  let! n := topics_now in
  assert_eq n 0.

Example broker_tests_pass : Forall (λ t, passes MemoryBroker.new t = true)
  [lazy_topic_creation; publish_without_subscribers_is_silent;
   publish_delivers_to_active_subscribers; topic_is_reaped_after_last_subscriber_gone].
Proof. repeat constructor. Qed.
End broker_tests.
