(* ===== verification/FrameTests.v ===== *)
(** * The unit tests of crates/cherenkov-protocol/src/frame.rs

    The property tests hold for every frame their generators can produce, not for
    a sample; the others run, with the protobuf codec of ProtoWire.v. *)
From S2P Require Import Prelude Utf8 Protocol ProtoWire TestKit.

(** ** The generators, as what they can produce *)

(** The characters and the length of a regular expression ["[..]{lo,hi}"]. *)
Definition between (lo hi a : ascii) : bool :=
  bool_decide (nat_of_ascii lo ≤ nat_of_ascii a) && bool_decide (nat_of_ascii a ≤ nat_of_ascii hi).
Definition one_of (l : list ascii) (a : ascii) : bool := bool_decide (a ∈ l).
Definition lower (a : ascii) : bool := between "a" "z" a.
Definition upper (a : ascii) : bool := between "A" "Z" a.
Definition digit (a : ascii) : bool := between "0" "9" a.

Definition matches (cls : ascii → bool) (lo hi : nat) (s : string) : bool :=
  forallb cls (String.list_ascii_of_string s) &&
  bool_decide (lo ≤ String.length s) && bool_decide (String.length s ≤ hi).

(** [any::<u64>()] and [any::<u32>()]. *)
Definition any_u64 (n : N) : bool := bool_decide (is_u64 n).
Definition any_u32 (n : N) : bool := bool_decide (n < 2 ^ 32)%N.

Definition arb_bytes (b : Bytes) : bool := bool_decide (length b < 64).

Definition arb_channel : string → bool :=
  matches (λ a, lower a || digit a || one_of ["."; "_"; ":"; "-"]%char a) 1 32.

Definition arb_subscribe (f : Subscribe) : bool :=
  any_u64 f.(sub_request_id) && arb_channel f.(sub_channel) && any_u64 f.(sub_since_offset).

Definition arb_unsubscribe (f : Unsubscribe) : bool :=
  any_u64 f.(unsub_request_id) && arb_channel f.(unsub_channel).

Definition arb_publish (f : Publish) : bool :=
  any_u64 f.(pub_request_id) && arb_channel f.(pub_channel) && arb_bytes f.(pub_data).

Definition arb_connect (f : Connect) : bool :=
  any_u64 f.(con_request_id) &&
  matches (λ a, lower a || upper a || digit a || one_of ["."; "_"; "-"]%char a) 0 64 f.(con_token).

Definition arb_client_frame (f : ClientFrame) : bool :=
  match f with
  | CF_Subscribe f => arb_subscribe f
  | CF_Unsubscribe f => arb_unsubscribe f
  | CF_Publish f => arb_publish f
  | CF_Connect f => arb_connect f
  end.

Definition arb_server_frame (f : ServerFrame) : bool :=
  match f with
  | SF_SubscribeOk f =>
      any_u64 f.(subok_request_id) && arb_channel f.(subok_channel) &&
      any_u64 f.(subok_epoch) && any_u64 f.(subok_offset)
  | SF_UnsubscribeOk f => any_u64 f.(unsubok_request_id) && arb_channel f.(unsubok_channel)
  | SF_Publication f =>
      arb_channel f.(publ_channel) && any_u64 f.(publ_offset) && arb_bytes f.(publ_data)
  | SF_Error f =>
      any_u64 f.(perr_request_id) && any_u32 f.(perr_code) &&
      matches (λ a, lower a || upper a || digit a || one_of [" "; "."; "_"; ":"; "-"]%char a) 0 64
        f.(perr_message)
  | SF_ConnectOk f =>
      any_u64 f.(conok_request_id) &&
      matches (λ a, lower a || upper a || digit a || one_of ["."; "_"; ":"; "-"]%char a) 0 32
        f.(conok_subject) && any_u64 f.(conok_expires_at)
  end.

(** What the generators produce is within the Rust types. *)
Lemma matches_is_str cls lo hi s :
  (∀ a, cls a = true → nat_of_ascii a < 128) → matches cls lo hi s = true → is_str s.
Proof.
  intros Hcls Hm. unfold matches in Hm. apply andb_true_iff in Hm as [Hm _].
  apply andb_true_iff in Hm as [Hm _]. rewrite forallb_forall in Hm.
  apply utf8_valid_ascii, Forall_forall. intros b Hb. unfold bytes_of_string in Hb.
  apply list_elem_of_In, in_map_iff in Hb as (a & <- & Ha).
  specialize (Hcls a (Hm a Ha)). clear -Hcls.
  destruct a as [[] [] [] [] [] [] [] []]; vm_compute in Hcls |- *; try reflexivity; lia.
Qed.

(** A property test over the generator [gen]. *)
Definition holds_for_all {A} (gen : A → bool) (t : A → test unit unit) : Prop :=
  ∀ a, gen a = true → passes () (t a) = true.

Section proptests.
Context {C : ProstCodec}.

Definition client_frame_round_trip (frame : ClientFrame) : test unit unit :=
  let bytes := encode_client frame in
  let! decoded := expect "encode produces decodable bytes" (io_of_result (decode_client bytes)) in
  assert_eq decoded frame.

Definition server_frame_round_trip (frame : ServerFrame) : test unit unit :=
  let bytes := encode_server frame in
  let! decoded := expect "encode produces decodable bytes" (io_of_result (decode_server bytes)) in
  assert_eq decoded frame.

#[local] Ltac chars := intros a; unfold lower, upper, digit, one_of, between; intros Ha;
  repeat (apply orb_prop in Ha as [Ha|Ha]);
  first [ apply bool_decide_eq_true in Ha; repeat (apply elem_of_cons in Ha as [->|Ha]);
          [vm_compute; lia..|by apply elem_of_nil in Ha]
        | apply andb_prop in Ha as [_ Ha]; apply bool_decide_eq_true in Ha;
          eapply Nat.le_lt_trans; [exact Ha|vm_compute; lia] ].

Lemma arb_channel_is_str s : arb_channel s = true → is_str s.
Proof. apply matches_is_str. chars. Qed.
#[local] Opaque arb_channel.

Context {L : ProstCodecLaws C}.

Example proptests_hold :
  holds_for_all arb_client_frame client_frame_round_trip ∧
  holds_for_all arb_server_frame server_frame_round_trip.
Proof.
  split; intros f Hf; unfold passes, client_frame_round_trip, server_frame_round_trip.
  - rewrite decode_encode_client; [by setoid_rewrite assert_eq_refl|].
    destruct f as [v|v|v|v]; unfold arb_client_frame, arb_subscribe, arb_unsubscribe, arb_publish,
      arb_connect, any_u64 in Hf; repeat (apply andb_prop in Hf as [Hf ?]);
      repeat match goal with H : bool_decide _ = true |- _ => apply bool_decide_eq_true in H end;
      simpl; unfold wf_subscribe, wf_unsubscribe, wf_publish, wf_connect;
      split_and!; try done; try (by apply arb_channel_is_str).
    eapply matches_is_str; [|eassumption]. chars.
  - rewrite decode_encode_server; [by setoid_rewrite assert_eq_refl|].
    destruct f as [v|v|v|v|v]; unfold arb_server_frame, any_u64, any_u32 in Hf;
      repeat (apply andb_prop in Hf as [Hf ?]);
      repeat match goal with H : bool_decide _ = true |- _ => apply bool_decide_eq_true in H end;
      simpl; unfold wf_subscribe_ok, wf_unsubscribe_ok, wf_publication, wf_protocol_error,
        wf_connect_ok; split_and!; try done; try (by apply arb_channel_is_str);
      (eapply matches_is_str; [|eassumption]; chars).
Qed.
End proptests.

(** ** The other tests *)

Section frame_tests.
#[local] Existing Instance wire_codec.

Definition decode_rejects_empty_client_frame : test unit unit :=
  let! err := expect_err "empty buffer must not decode" (io_of_result (decode_client [])) in
  assert (match err with MissingClientKind => true | _ => false end).

Definition decode_rejects_empty_server_frame : test unit unit :=
  let! err := expect_err "empty buffer must not decode" (io_of_result (decode_server [])) in
  assert (match err with MissingServerKind => true | _ => false end).

Definition decode_rejects_garbage : test unit unit :=
  let! err := expect_err "garbage must not decode"
                (io_of_result (decode_client [xff; xff; xff])) in
  assert (match err with Prost _ => true | _ => false end).

(** The recorded snapshots, src/snapshots/*.snap of the crate. *)
Definition snapshot (bytes : Bytes) (recorded : list N) : test unit unit :=
  assert_eq bytes (bytes_of_nats recorded).

Definition snapshot_subscribe : test unit unit :=
  snapshot (encode_client (CF_Subscribe (mk_Subscribe 7 "rooms.lobby" 0)))
    [10; 15; 8; 7; 18; 11; 114; 111; 111; 109; 115; 46; 108; 111; 98; 98; 121]%N.

Definition snapshot_publish : test unit unit :=
  snapshot (encode_client (CF_Publish (mk_Publish 11 "rooms.lobby" (bytes_of_string "hello"))))
    [26; 22; 8; 11; 18; 11; 114; 111; 111; 109; 115; 46; 108; 111; 98; 98; 121;
     26; 5; 104; 101; 108; 108; 111]%N.

Definition snapshot_publication : test unit unit :=
  snapshot (encode_server (SF_Publication (mk_Publication "rooms.lobby" 42 (bytes_of_string "hi"))))
    [26; 19; 10; 11; 114; 111; 111; 109; 115; 46; 108; 111; 98; 98; 121; 16; 42;
     26; 2; 104; 105]%N.

Definition snapshot_connect : test unit unit :=
  snapshot (encode_client (CF_Connect (mk_Connect 13 "tok-abc")))
    [34; 11; 8; 13; 18; 7; 116; 111; 107; 45; 97; 98; 99]%N.

Definition snapshot_connect_ok : test unit unit :=
  snapshot (encode_server (SF_ConnectOk (mk_ConnectOk 13 "alice" 1700000000)))
    [42; 15; 8; 13; 18; 5; 97; 108; 105; 99; 101; 24; 128; 226; 207; 170; 6]%N.

Definition snapshot_error : test unit unit :=
  snapshot (encode_server (SF_Error (mk_ProtocolError 9 (u32_of_error_code InvalidChannelCode)
                                       "channel name must not be empty")))
    [34; 36; 8; 9; 16; 2; 26; 30; 99; 104; 97; 110; 110; 101; 108; 32; 110; 97;
     109; 101; 32; 109; 117; 115; 116; 32; 110; 111; 116; 32; 98; 101; 32; 101;
     109; 112; 116; 121]%N.

Example frame_tests_pass : Forall (λ t, passes () t = true)
  [decode_rejects_empty_client_frame; decode_rejects_empty_server_frame; decode_rejects_garbage;
   snapshot_subscribe; snapshot_publish; snapshot_publication; snapshot_connect;
   snapshot_connect_ok; snapshot_error].
Proof. repeat constructor. Qed.
End frame_tests.
