(* ===== verification/AclTests.v ===== *)
(** * The unit tests of the glob ACL and of the schema registry

    crates/cherenkov-auth/src/namespace_acl.rs, with [StarGlob] for the crate
    [globset], and the tests of crates/cherenkov-schema/src/registry.rs, which hold for
    every JSON engine that does what the tests expect of the crate [jsonschema]. *)
From S2P Require Import Prelude Traits NamespaceAcl SchemaRegistry Json TestKit.

(** ** namespace_acl.rs *)

Section acl_tests.
#[local] Existing Instance StarGlob.

Definition alice : SessionClaims := mk_SessionClaims "alice" [] 0.

(** [AclRule::allow] and [AclRule::deny] panic on a bad pattern. *)
Definition allow (pattern : string) (m : AclMatch) : test unit AclRule :=
  expect_some "invalid glob" (rule_allow pattern m).
Definition deny (pattern : string) (m : AclMatch) : test unit AclRule :=
  expect_some "invalid glob" (rule_deny pattern m).

Definition check_unwrap (acl : NamespaceAcl) (claims : SessionClaims) (action : AclAction)
    (channel : string) : test unit AclDecision :=
  unwrap (check (namespace_acl acl) claims action channel).

Definition first_match_wins : test unit unit :=
  let! r1 := allow "rooms.*" MatchAny in
  let! r2 := deny "rooms.lobby" MatchAny in
  let acl := NamespaceAcl.build (with_rule (with_rule builder r1) r2) in
  let! d := check_unwrap acl alice ActSubscribe "rooms.lobby" in
  assert_eq d Allow.

Definition deny_overrides_when_listed_first : test unit unit :=
  let! r1 := deny "admin.*" MatchAny in
  let! r2 := allow "*" MatchAny in
  let acl := NamespaceAcl.build (with_rule (with_rule builder r1) r2) in
  let! allowed := check_unwrap acl alice ActPublish "rooms.lobby" in
  assert_eq allowed Allow ;;
  let! denied := check_unwrap acl alice ActPublish "admin.users" in
  assert_eq denied Deny.

Definition empty_rules_deny_by_default : test unit unit :=
  let acl := NamespaceAcl.build builder in
  let! d := check_unwrap acl alice ActSubscribe "rooms.lobby" in
  assert_eq d Deny.

Definition default_allow_flag_inverts_fall_through : test unit unit :=
  let acl := NamespaceAcl.build (set_default_allow builder true) in
  let! d := check_unwrap acl alice ActPublish "anything" in
  assert_eq d Allow.

Definition subject_filter_narrows_the_match : test unit unit :=
  let! r := allow "rooms.*" MatchSubscribe in
  let! r := unwrap_ok (with_subject r "admin*") in
  let acl := NamespaceAcl.build (set_default_allow (with_rule builder r) false) in
  let admin := mk_SessionClaims "admin-1" alice.(permissions) alice.(expires_at) in
  let! denied := check_unwrap acl alice ActSubscribe "rooms.lobby" in
  assert_eq denied Deny ;;
  let! allowed := check_unwrap acl admin ActSubscribe "rooms.lobby" in
  assert_eq allowed Allow.

Definition action_match_narrows_to_publish_only : test unit unit :=
  let! r := allow "rooms.*" MatchPublish in
  let acl := NamespaceAcl.build (with_rule builder r) in
  let! pub_d := check_unwrap acl alice ActPublish "rooms.lobby" in
  assert_eq pub_d Allow ;;
  let! sub_d := check_unwrap acl alice ActSubscribe "rooms.lobby" in
  assert_eq sub_d Deny.

Example acl_tests_pass : Forall (λ t, passes () t = true)
  [first_match_wins; deny_overrides_when_listed_first; empty_rules_deny_by_default;
   default_allow_flag_inverts_fall_through; subject_filter_narrows_the_match;
   action_match_narrows_to_publish_only].
Proof. repeat constructor. Qed.
End acl_tests.

(** ** registry.rs *)

Section registry_tests.
Context `{JsonEngine}.

(** [build_registry], given a schema that compiles, and what the test module's
    literal compiles to is not looked into. *)
Definition build_registry (schema : Value) : test unit JsonSchemaRegistry :=
  let! b := expect "schema compiles" (io_of_result (with_namespace builder_new "orders" schema)) in
  io_ret (SchemaRegistry.build b).

Definition run_validate (r : JsonSchemaRegistry) (channel : string) (data : Bytes) :
    io unit SchemaError unit :=
  validate (json_schema_registry r) channel data.

Definition namespace_of_splits_on_first_dot : test unit unit :=
  assert_eq (namespace_of "rooms.lobby") "rooms" ;;
  assert_eq (namespace_of "rooms.lobby.subroom") "rooms" ;;
  assert_eq (namespace_of "standalone") "standalone" ;;
  assert_eq (namespace_of "") "".

(** The byte strings of the tests, with apostrophes for the quotes. *)
Definition b_raw (s : string) : Bytes :=
  (λ c, if decide (c = "'"%char) then x22 else byte_of_ascii c) <$> String.list_ascii_of_string s.

Definition ok_bytes : Bytes := b_raw "{'sku':'abc','qty':3}".
Definition missing_bytes : Bytes := b_raw "{'sku':'abc'}".
Definition wrong_bytes : Bytes := b_raw "{'sku':'abc','qty':'three'}".

Definition valid_payload_passes (schema : Value) : test unit unit :=
  let! r := build_registry schema in
  expect "valid payload accepted" (run_validate r "orders.created" ok_bytes).

Definition missing_required_field_rejected (schema : Value) : test unit unit :=
  let! r := build_registry schema in
  let! err := expect_err "missing field rejected" (run_validate r "orders.created" missing_bytes) in
  assert (match err with PayloadRejected _ _ => true | _ => false end).

Definition wrong_type_rejected (schema : Value) : test unit unit :=
  let! r := build_registry schema in
  let! err := expect_err "wrong type rejected" (run_validate r "orders.created" wrong_bytes) in
  match err with
  | PayloadRejected channel reason =>
      assert_eq channel "orders.created" ;;
      assert (negb (bool_decide (reason = "")))
  | _ => io_fail "unexpected error variant"
  end.

(** The payload is one [serde_json] refuses. *)
Definition unparsable_json_rejected (schema : Value) : test unit unit :=
  let! r := build_registry schema in
  let! err := expect_err "non-json payload rejected"
                (run_validate r "orders.created" (x00 :: bytes_of_string "not json")) in
  match err with
  | PayloadRejected _ reason =>
      assert (String.prefix "payload is not valid JSON" reason)
  | _ => io_fail "unexpected error variant"
  end.

Definition unknown_namespace_is_pass_through (schema : Value) : test unit unit :=
  let! r := build_registry schema in
  expect "unknown namespace passes through" (run_validate r "rooms.lobby" [xff; xff; xff]).

Definition empty_registry_accepts_anything : test unit unit :=
  let r := SchemaRegistry.empty in
  assert (SchemaRegistry.is_empty r) ;;
  expect "empty registry never rejects" (run_validate r "any.channel" [x00]).

Definition invalid_schema_is_reported (not_a_real_type : Value) : test unit unit :=
  match with_namespace builder_new "bad" not_a_real_type with
  | Ok _ => io_fail "invalid schema must be rejected"
  | Err (InvalidSchema namespace _) => assert_eq namespace "bad"
  end.

(** What the crates do on the literals of the tests: the schema compiles, to a
    validator that accepts the first payload and refuses the two others; the last
    payload is not JSON; and there is no type of that name. *)
Record engine_facts (schema not_a_real_type : Value) : Prop := {
  facts_schema : ∃ v ok missing wrong u e1 e2, validator_for schema = Ok v ∧
    from_slice ok_bytes = Ok ok ∧ from_slice missing_bytes = Ok missing ∧
    from_slice wrong_bytes = Ok wrong ∧ validator_validate v ok = Ok u ∧
    validator_validate v missing = Err e1 ∧ validator_validate v wrong = Err e2 ∧ e2 ≠ "";
  facts_json : ∃ e, from_slice (x00 :: bytes_of_string "not json") = Err e;
  facts_type : ∃ e, validator_for not_a_real_type = Err e;
}.

Lemma registry_tests_pass (schema not_a_real_type : Value) :
  engine_facts schema not_a_real_type →
  Forall (λ t, passes () t = true)
    [namespace_of_splits_on_first_dot; valid_payload_passes schema;
     missing_required_field_rejected schema; wrong_type_rejected schema;
     unparsable_json_rejected schema; unknown_namespace_is_pass_through schema;
     empty_registry_accepts_anything; invalid_schema_is_reported not_a_real_type].
Proof.
  intros [(v & ok & missing & wrong & u & e1 & e2 & Hv & H1 & H2 & H3 & V1 & V2 & V3 & Hne)
          [e Hj] [e' Ht]].
  assert (Hb : ∀ w, build_registry schema w = (Ok (mk_registry {["orders" := v]}), w)).
  { intros w. unfold build_registry, with_namespace. by rewrite Hv. }
  assert (Hr : ∀ data, registry_validate (mk_registry {["orders" := v]}) "orders.created" data
    = (let? value := result_map_err (λ err, PayloadRejected "orders.created"
                       ("payload is not valid JSON: " +:+ err)) (from_slice data) in
       match validator_validate v value with
       | Err err => Err (PayloadRejected "orders.created" err) | Ok _ => Ok () end)) by done.
  repeat apply Forall_cons_2; [done|..|constructor];
    unfold passes, valid_payload_passes, missing_required_field_rejected, wrong_type_rejected,
      unparsable_json_rejected, unknown_namespace_is_pass_through, invalid_schema_is_reported,
      run_validate, io_bind; rewrite ?Hb; simpl; unfold expect, expect_err, io_map_err, io_of_result;
    rewrite ?Hr, ?H1, ?H2, ?H3, ?Hj; simpl; rewrite ?V1, ?V2, ?V3; simpl; try done.
  - by rewrite bool_decide_false.
  - unfold with_namespace. by rewrite Ht.
Qed.
End registry_tests.

(** The literals of the tests, and the facts for the JSON trees. *)
Definition orders_literal : Json :=
  JObj [("type", JStr "object"); ("required", JArr [JStr "sku"; JStr "qty"]);
        ("properties", JObj
           [("sku", JObj [("type", JStr "string"); ("minLength", JNum 1)]);
            ("qty", JObj [("type", JStr "integer"); ("minimum", JNum 1)])])].
Definition bad_literal : Json := JObj [("type", JStr "not-a-real-type")].

Example engine_facts_hold : engine_facts (H:=TreeJson) orders_literal bad_literal.
Proof. split; repeat eexists; by vm_compute. Qed.
