(* ===== verification/ServerTests.v ===== *)
(** * The unit tests of the server, of the admin API and of the SSE query parser

    crates/cherenkov-server/src/app.rs and config.rs (a YAML text being given as the
    document it denotes), crates/cherenkov-admin/src/lib.rs, and [query_tests] of
    crates/cherenkov-transport-sse/src/lib.rs. *)
From S2P Require Import Prelude Protocol ProtoWire Traits PubSub MemoryBroker Remote Crdt NamespaceAcl.
From S2P Require Import SchemaRegistry Jwt Session Hub Node Admin Config App AppProps TestKit.
From S2P Require Import Json Deserialize Cli Loader.

(** ** app.rs *)

Section app_tests.
#[local] Existing Instances QueueFred QueueNats QueueBroadcast ListYrs ListAutomerge PlainJwt
  StarGlob LengthJson.

(** No file is configured in these tests. *)
Definition build_hub_of (config : ServerConfig) :
    io Queues ServerError (@Hub AppW AppStream) :=
  build_hub (X:=Queues) (λ _, Err "no such file") config.

(** [match build_hub(&config).await { Ok(_) => panic!(..), Err(e) => e }]. *)
Definition must_reject (config : ServerConfig) : test Queues ServerError :=
  expect_err "must reject" (build_hub_of config).

Definition with_broker_config (b : BrokerConfig) : ServerConfig :=
  let d := ServerConfig_default in
  mk_ServerConfig d.(sc_transport) b d.(sc_channel_pubsub) d.(sc_namespaces) d.(sc_auth)
    d.(sc_acl) d.(sc_channel_kinds) d.(sc_admin) d.(sc_log).
Definition with_backend (b : BrokerBackend) : BrokerConfig :=
  let d := BrokerConfig_default in mk_BrokerConfig b d.(broker_capacity) d.(redis_url) d.(nats_url).
Definition with_access (auth : option AuthConfig) (acl : option AclConfig) : ServerConfig :=
  let d := ServerConfig_default in
  mk_ServerConfig d.(sc_transport) d.(sc_broker) d.(sc_channel_pubsub) d.(sc_namespaces) auth acl
    d.(sc_channel_kinds) d.(sc_admin) d.(sc_log).

Definition redis_backend_without_url_is_rejected : test Queues unit :=
  let! err := must_reject (with_broker_config (with_backend Redis)) in
  assert (match err with ServerBroker _ => true | _ => false end).

Definition nats_backend_without_url_is_rejected : test Queues unit :=
  let! err := must_reject (with_broker_config (with_backend Nats)) in
  assert (match err with ServerBroker _ => true | _ => false end).

Definition empty_hmac_secret_is_rejected : test Queues unit :=
  let! err := must_reject (with_access (Some AuthConfig_default) None) in
  assert (match err with ServerAuth _ => true | _ => false end).

Definition invalid_acl_glob_is_rejected : test Queues unit :=
  let! err := must_reject (with_access None
    (Some (mk_AclConfig [mk_AclRuleConfig CfgAllow "[" None CfgAny] false))) in
  assert (match err with ServerAcl _ => true | _ => false end).

Definition admin_config_default_is_disabled_with_no_token : test Queues unit :=
  let admin := AdminConfig_default in
  assert (negb admin.(enabled)) ;;
  assert_eq admin.(Config.auth_token) None.

(** ** config.rs *)

Definition default_config_compiles : test Queues unit :=
  let cfg := ServerConfig_default in
  assert_eq cfg.(sc_transport).(tc_ws).(ws_path) "/connect/v1" ;;
  assert_eq cfg.(sc_broker).(broker_capacity) 1024%N ;;
  assert (match cfg.(sc_broker).(backend) with Memory => true | _ => false end) ;;
  assert_eq cfg.(sc_channel_pubsub).(cfg_history_size) 256%N ;;
  assert (match cfg.(sc_namespaces) with [] => true | _ => false end) ;;
  assert (match cfg.(sc_transport).(tc_sse) with None => true | _ => false end) ;;
  assert (negb cfg.(sc_admin).(enabled)) ;;
  assert_eq cfg.(sc_admin).(Config.auth_token) None.

(** The value of the inline schema plays no role. *)
Definition namespace_validate_schema_source_round_trip (schema : Value) : test Queues unit :=
  let cfg := NamespaceConfig_default in
  assert_eq (validate_schema_source cfg) (Err "one of `schema` or `schema_path` must be set") ;;
  let cfg := mk_NamespaceConfig cfg.(nc_kind) (Some schema) cfg.(nc_schema_path) in
  expect "inline schema is valid" (io_of_result (validate_schema_source cfg)) ;;
  let cfg := mk_NamespaceConfig cfg.(nc_kind) cfg.(nc_schema) (Some "/dev/null") in
  assert_eq (validate_schema_source cfg)
    (Err "`schema` and `schema_path` are mutually exclusive") ;;
  let cfg := mk_NamespaceConfig cfg.(nc_kind) None cfg.(nc_schema_path) in
  expect "schema_path alone is valid" (io_of_result (validate_schema_source cfg)).

Example server_unit_tests_pass : Forall (λ t, passes (([], []) : Queues) t = true)
  [redis_backend_without_url_is_rejected; nats_backend_without_url_is_rejected;
   empty_hmac_secret_is_rejected; invalid_acl_glob_is_rejected;
   admin_config_default_is_disabled_with_no_token; default_config_compiles;
   namespace_validate_schema_source_round_trip 3].
Proof. repeat constructor. Qed.
End app_tests.

Section load_tests.
#[local] Existing Instance TreeJson.

(** A temporary file with the text of [body], no variables, and [ServerConfig::load]. *)
Definition load_tmp (body : Json) : result string ServerConfig :=
  load (FG:=SerdeFigment (λ p, if decide (p = "tmp") then Some body else None) ∅ JStr (λ _, false))
    "tmp".

Definition broker_backend_round_trips : test unit unit :=
  let body := JObj [("broker", JObj [("backend", JStr "redis");
                                     ("redis_url", JStr "redis://localhost:6379")])] in
  let! cfg := unwrap_ok (load_tmp body) in
  assert_eq cfg.(sc_broker).(backend) Redis ;;
  assert_eq cfg.(sc_broker).(redis_url) (Some "redis://localhost:6379").

Definition admin_auth_token_parses : test unit unit :=
  let body := JObj [("admin", JObj [("enabled", JBool true); ("auth_token", JStr "s3cr3t")])] in
  let! cfg := unwrap_ok (load_tmp body) in
  assert cfg.(sc_admin).(enabled) ;;
  assert_eq cfg.(sc_admin).(Config.auth_token) (Some "s3cr3t").

Definition load_from_yaml_file : test unit unit :=
  let body := JObj
    [("transport", JObj [("ws", JObj [("listen", JStr "127.0.0.1:0"); ("path", JStr "/connect/v1");
                                      ("outbox_capacity", JNum 32)])]);
     ("broker", JObj [("capacity", JNum 16)]);
     ("channel_pubsub", JObj [("history_size", JNum 8); ("history_ttl_seconds", JNum 60)]);
     ("log", JObj [("level", JStr "info"); ("format", JStr "json")])] in
  let! cfg := expect "load" (io_of_result (load_tmp body)) in
  assert_eq cfg.(sc_broker).(broker_capacity) 16%N ;;
  assert_eq cfg.(sc_channel_pubsub).(cfg_history_size) 8%N ;;
  assert_eq cfg.(sc_log).(format) LogJson.

Definition namespace_section_parses_inline_schema : test unit unit :=
  let body := JObj [("namespaces", JObj [("orders", JObj
    [("kind", JStr "json-schema");
     ("schema", JObj [("type", JStr "object"); ("required", JArr [JStr "sku"]);
        ("properties", JObj [("sku", JObj [("type", JStr "string")])])])])])] in
  let! cfg := expect "load" (io_of_result (load_tmp body)) in
  let! orders := expect_some "orders namespace present"
    (snd <$> list_find (λ e, e.1 = "orders") cfg.(sc_namespaces)) in
  assert_eq orders.2.(nc_kind) JsonSchema ;;
  assert (match orders.2.(nc_schema) with Some _ => true | None => false end) ;;
  assert (match orders.2.(nc_schema_path) with Some _ => false | None => true end).

Example load_tests_pass :
  forallb (passes ()) [broker_backend_round_trips; admin_auth_token_parses; load_from_yaml_file;
                       namespace_section_parses_inline_schema] = true.
Proof. vm_compute. reflexivity. Qed.
End load_tests.

(** ** cherenkov-admin *)

Section admin_tests.
#[local] Existing Instances QueueBroadcast CountNotifier QueueMpsc.

Abbreviation St := (@HubSt NodeW MemStream CountNotifier QueueMpsc).
Abbreviation Router := (@AdminResources NodeW MemStream CountNotifier).

(** [AdminResources::new(Arc::new(SessionRegistry::new()))]: the registry of a memory
    in which nothing has happened. *)
Definition fresh : Router := resources_new registry.

(** [app.oneshot(request)], with or without an [Authorization] header. *)
Definition oneshot (app : Router) (authorization : option string) (req : Request) :
    test St Response := λ st,
  let '(resp, st) := router app authorization req st in (Ok resp, st).

Definition health_endpoint_returns_ok : test St unit :=
  let! resp := oneshot fresh None (Api GetHealth) in
  assert_eq resp.(status) 200%N ;;
  assert (match resp.(body) with JsonHealth b => bool_decide (b.(hr_status) = "ok") | _ => false end).

Definition console_route_returns_html : test St unit :=
  let! resp := oneshot fresh None GetConsole in
  assert_eq resp.(status) 200%N ;;
  assert (match resp.(body) with ConsoleHtml => true | _ => false end).

(** [Session::new(registry.next_id(), tx)] behind an [Arc], then [register]. *)
Definition register_session : test St unit := λ st,
  let c := st.(core) in
  let '(sid, reg) := next_id c.(registry) in
  let c := mk_HubCore (register sid c.(next_ptr) reg)
             (<[c.(next_ptr) := Session_new sid 0]> c.(heap)) (c.(next_ptr) + 1)%N
             ({[c.(next_ptr)]} ∪ c.(held)) c.(tasks) c.(next_task) c.(metrics) in
  (Ok (), mk_HubSt c st.(outboxes) st.(world)).

Definition list_sessions_returns_registered_sessions : test St unit :=
  register_session ;;
  register_session ;;
  let! resp := oneshot fresh None (Api GetSessions) in
  assert_eq resp.(status) 200%N ;;
  match resp.(body) with
  | JsonSessions l =>
      assert (bool_decide (0%N ∈ ss_id <$> l)) ;; assert (bool_decide (1%N ∈ ss_id <$> l))
  | _ => io_fail "not a list of sessions"
  end.

Definition metrics_endpoint_503_without_handle : test St unit :=
  let! resp := oneshot fresh None (Api GetMetrics) in
  assert_eq resp.(status) 503%N.

(** What the Prometheus recorder renders is not looked at. *)
Definition metrics_endpoint_renders_when_handle_installed (rendered : string) : test St unit :=
  let! resp := oneshot (with_metrics (λ _, rendered) fresh) None (Api GetMetrics) in
  assert_eq resp.(status) 200%N.

Definition disconnect_endpoint_404_without_hub : test St unit :=
  let! resp := oneshot fresh None (Api (PostDisconnect 0)) in
  assert_eq resp.(status) 404%N.

(** [HubBuilder] with the pub/sub kind and the in-process broker. *)
Definition built_hub : test St (@Hub NodeW MemStream) :=
  let! built := unwrap_ok (Hub.build (with_broker
    (with_channel_kind (HubBuilder_new (T:=unit)) (pubsub_kind Node.kind_lens nw_clock))
    (memory_broker Node.broker_lens))) in
  io_ret built.1.

Definition disconnect_endpoint_kicks_session_when_hub_present : test St unit :=
  let! hub := built_hub in
  let! id := (λ st, let '(ptr, st) := open_session hub 0 st in
                    (Ok (deref st.(core) ptr).(id), st)) in
  let! resp := oneshot (with_hub hub fresh) None (Api (PostDisconnect id)) in
  assert_eq resp.(status) 200%N ;;
  assert (match resp.(body) with JsonDisconnect b => b.(dr_removed) | _ => false end) ;;
  let! found := io_gets (λ st : St, Session.get st.(core).(registry) id) in
  assert_eq found None.

Definition auth_token_required_when_set : test St unit :=
  let app := with_auth_token "s3cr3t" fresh in
  let! resp := oneshot app None (Api GetHealth) in
  assert_eq resp.(status) 401%N ;;
  let! resp := oneshot app (Some "Bearer nope") (Api GetHealth) in
  assert_eq resp.(status) 401%N ;;
  let! resp := oneshot app (Some "Bearer s3cr3t") (Api GetHealth) in
  assert_eq resp.(status) 200%N.

Definition console_html_is_public_even_when_auth_set : test St unit :=
  let! resp := oneshot (with_auth_token "s3cr3t" fresh) None GetConsole in
  assert_eq resp.(status) 200%N.

Definition channel_subscribers_returns_empty_when_unused : test St unit :=
  let! resp := oneshot fresh None (Api (GetSubscribers "rooms.lobby")) in
  assert_eq resp.(status) 200%N ;;
  assert (match resp.(body) with
          | JsonSubscribers b => bool_decide (b.(sr_subscribers) = [])
          | _ => false
          end).

Example admin_tests_pass :
  Forall (λ t, passes (hub_init (node_init 256 300 1024)) t = true)
  [health_endpoint_returns_ok; console_route_returns_html;
   list_sessions_returns_registered_sessions; metrics_endpoint_503_without_handle;
   metrics_endpoint_renders_when_handle_installed "";
   disconnect_endpoint_404_without_hub; disconnect_endpoint_kicks_session_when_hub_present;
   auth_token_required_when_set; console_html_is_public_even_when_auth_set;
   channel_subscribers_returns_empty_when_unused].
Proof. repeat constructor. Qed.
End admin_tests.
