(* ===== verification/KindTests.v ===== *)
(** * The unit tests that rest on third-party crates

    The CRDT kinds (crates/cherenkov-channel-crdt/src), the JWT authenticator
    (crates/cherenkov-auth/src/jwt.rs) and the configurations of the remote brokers.
    What a test needs of a crate is a record of facts, and an instance has them. *)
From S2P Require Import Prelude Protocol Traits Remote Crdt Jwt TestKit.

Definition is_rejected (e : ChannelError) : bool :=
  match e with RejectedPublication _ => true | _ => false end.
Definition is_invalid (e : ChannelError) : bool :=
  match e with InvalidChannel _ => true | _ => false end.

Definition garbage : Bytes := [xff; xff; xff].

(** ** What both CRDT kinds do on the channel of the tests *)

Section doc_kinds.
Context {D : Type} {fresh : D} {merge : Bytes → D → bool * D}.
Context {k : ChannelKind (gmap string (DocSlot D))} `{K : !DocKind fresh merge k}.

Definition after_first (d : D) : gmap string (DocSlot D) :=
  <["doc.lobby" := mk_DocSlot d 1]> ∅.

Lemma first_publish data d : merge data fresh = (true, d) →
  on_publish k "doc.lobby" data ∅ = (Ok (mk_Publication "doc.lobby" 0 data), after_first d).
Proof. intros Hm. by rewrite (dk_publish_ok "doc.lobby" data ∅ d). Qed.

Lemma second_publish data d d' : merge data d = (true, d') →
  ∃ w, on_publish k "doc.lobby" data (after_first d)
       = (Ok (mk_Publication "doc.lobby" 1 data), w).
Proof. intros Hm. eexists. by rewrite (dk_publish_ok "doc.lobby" data (after_first d) d'). Qed.

Lemma refused_publish data d : merge data fresh = (false, d) →
  ∃ reason w, on_publish k "doc.lobby" data ∅ = (Err (RejectedPublication reason), w).
Proof.
  intros Hm. destruct (dk_publish_refused "doc.lobby" data ∅ d) as (r & w & H & _); eauto.
Qed.
End doc_kinds.

(** ** yjs.rs *)

Section yjs_tests.
Context `{Y : YrsLib}.

(** [yjs_update_inserting_hello()], and [Text::get_string] of the test's text. *)
Variables (hello : Bytes) (greeting_string : Doc → string).

Definition yjs : ChannelKind YjsChannel := yjs_kind lens_id.

Definition yjs_publish_valid_update_round_trips_and_advances_offset : test YjsChannel unit :=
  let! p0 := expect "first publish ok" (on_publish yjs "doc.lobby" hello) in
  assert_eq p0.(publ_offset) 0%N ;;
  let! p1 := expect "second publish ok" (on_publish yjs "doc.lobby" hello) in
  assert_eq p1.(publ_offset) 1%N.

Definition yjs_publish_rejects_garbage : test YjsChannel unit :=
  let! err := expect_err "garbage rejected" (on_publish yjs "doc.lobby" garbage) in
  assert (is_rejected err).

Definition snapshot_reflects_applied_updates : test YjsChannel unit :=
  unwrap (on_publish yjs "doc.lobby" hello) ;;
  let! found := io_gets (λ w, yjs_snapshot w "doc.lobby") in
  let! snapshot := expect_some "snapshot present" found in
  assert (negb (bool_decide (snapshot = []))) ;;
  let! update := expect "decode" (io_of_result (decode_v1 snapshot)) in
  let '(r, replay_doc) := apply_update update Doc_new in
  expect "apply" (io_of_result r) ;;
  assert_eq (greeting_string replay_doc) "hello".

Definition yjs_empty_channel_name_is_rejected : test YjsChannel unit :=
  let! err := expect_err "empty subscribe rejected" (on_subscribe yjs "") in
  assert (is_invalid err) ;;
  let! err := expect_err "empty publish rejected" (on_publish yjs "" []) in
  assert (is_invalid err).

(** The update merges, again too; a document that took it has a snapshot that
    makes a fresh document read "hello"; and the three bytes are no update. *)
Record yrs_facts : Prop := {
  yrs_hello : ∃ d1 d2 s r d3, yjs_merge hello Doc_new = (true, d1) ∧
    yjs_merge hello d1 = (true, d2) ∧ encode_state_as_update_v1 d1 ≠ [] ∧
    decode_v1 (encode_state_as_update_v1 d1) = Ok s ∧
    apply_update s Doc_new = (Ok r, d3) ∧ greeting_string d3 = "hello";
  yrs_garbage : ∃ e, decode_v1 garbage = Err e;
}.

#[local] Opaque yjs.

Lemma yjs_tests_pass : yrs_facts → Forall (λ t, passes yjs_new t = true)
  [yjs_publish_valid_update_round_trips_and_advances_offset; yjs_publish_rejects_garbage;
   snapshot_reflects_applied_updates; yjs_empty_channel_name_is_rejected].
Proof.
  intros [(d1 & d2 & s & r & d3 & H1 & H2 & Hne & Hs & H3 & Hg) [e He]].
  pose proof (first_publish (k:=yjs) hello d1 H1 : on_publish yjs _ _ yjs_new = _) as Hp0.
  destruct (second_publish (k:=yjs) hello d1 d2 H2 :
    ∃ w : YjsChannel, on_publish yjs "doc.lobby" hello (after_first d1 : YjsChannel) = (_, w))
    as [w Hp1].
  destruct (refused_publish (k:=yjs) garbage Doc_new) as (reason & w' & Hr).
  { unfold yjs_merge. by rewrite He. }
  change (on_publish yjs "doc.lobby" garbage yjs_new = (Err (RejectedPublication reason), w')) in Hr.
  repeat apply Forall_cons_2; [..|done|constructor].
  - unfold passes, yjs_publish_valid_update_round_trips_and_advances_offset, io_bind, expect,
      io_map_err.
    rewrite Hp0. cbn. rewrite assert_eq_refl. cbn beta iota. unfold expect, io_map_err. by rewrite Hp1.
  - unfold passes, yjs_publish_rejects_garbage, io_bind, expect_err. by rewrite Hr.
  - unfold passes, snapshot_reflects_applied_updates, io_bind, unwrap, expect, io_map_err.
    rewrite Hp0. cbn.
    change (yjs_snapshot (after_first d1) "doc.lobby") with (Some (encode_state_as_update_v1 d1)).
    cbn. rewrite bool_decide_false by done. cbn. unfold expect, io_map_err.
    cbn. rewrite Hs. cbn. rewrite H3. cbn. by rewrite Hg.
Qed.
End yjs_tests.

(** ** automerge.rs *)

Section automerge_tests.
Context `{A : AutomergeLib}.

(** [automerge_change_setting_greeting()], [AutoCommit::load], and
    [get(ROOT, "greeting")]. *)
Variables (change : Bytes) (load : Bytes → result string AutoCommit).
Variable get_greeting : AutoCommit → option string.

Definition am : ChannelKind AutomergeChannel := am_kind lens_id.

Definition publish_valid_change_round_trips : test AutomergeChannel unit :=
  let! p0 := unwrap (on_publish am "doc.lobby" change) in
  assert_eq p0.(publ_offset) 0%N ;;
  let! found := (λ w, let '(s, w) := am_snapshot w "doc.lobby" in (Ok s, w)) in
  let! snapshot := expect_some "snapshot" found in
  let! replay := expect "load" (io_of_result (load snapshot)) in
  assert (bool_decide (is_Some (get_greeting replay))).

Definition am_publish_rejects_garbage : test AutomergeChannel unit :=
  let! err := expect_err "garbage rejected" (on_publish am "doc.lobby" garbage) in
  assert (is_rejected err).

(** The change merges into a fresh document; loading what that document saves gives
    one with a greeting; the three bytes are refused. *)
Record automerge_facts : Prop := {
  am_change : ∃ d d' bytes replay, am_merge change AutoCommit_new = (true, d) ∧
    save d = (bytes, d') ∧ load bytes = Ok replay ∧ is_Some (get_greeting replay);
  am_garbage : (am_merge garbage AutoCommit_new).1 = false;
}.

#[local] Opaque am.

Lemma automerge_tests_pass : automerge_facts → Forall (λ t, passes am_new t = true)
  [publish_valid_change_round_trips; am_publish_rejects_garbage].
Proof.
  intros [(d & d' & bytes & replay & H1 & Hs & Hl & Hg) Hgarb].
  pose proof (first_publish (k:=am) change d H1 : on_publish am _ _ am_new = _) as Hp0.
  destruct (am_merge garbage AutoCommit_new) as [b dg] eqn:E. simpl in Hgarb. subst b.
  destruct (refused_publish (k:=am) garbage dg E :
    ∃ reason (w : AutomergeChannel), on_publish am "doc.lobby" garbage am_new = _)
    as (reason & w' & Hr).
  repeat apply Forall_cons_2; [..|constructor].
  - unfold passes, publish_valid_change_round_trips, io_bind, unwrap, expect, io_map_err.
    rewrite Hp0. cbn. rewrite assert_eq_refl. cbn beta iota.
    change (am_snapshot (after_first d) "doc.lobby") with
      (let '(bytes, d') := save d in
       (Some bytes, <["doc.lobby" := mk_DocSlot d' 1]> (after_first d) : AutomergeChannel)).
    rewrite Hs. cbn. rewrite Hl. cbn. by rewrite bool_decide_true.
  - unfold passes, am_publish_rejects_garbage, io_bind, expect_err. by rewrite Hr.
Qed.
End automerge_tests.

(** Libraries with these facts: documents that keep the bytes they were given. *)
Definition is_garbage (b : Bytes) : bool := match b with [] | xff :: _ => true | _ => false end.

Definition TextYrs : YrsLib := {|
  Doc := Bytes;
  Update := Bytes;
  Doc_new := [];
  decode_v1 data := if is_garbage data then Err "unexpected end of buffer" else Ok data;
  apply_update u _ := (Ok (), u);
  encode_state_as_update_v1 d := d;
|}.

Example yrs_facts_hold : yrs_facts (Y:=TextYrs) (bytes_of_string "hello") string_of_bytes.
Proof. split; [|by eexists]. by repeat eexists. Qed.

Definition TextAutomerge : AutomergeLib := {|
  AutoCommit := Bytes;
  AutoCommit_new := [];
  load_incremental data d := if is_garbage data then (Err "bad magic bytes", d) else (Ok 1%N, data);
  save d := (d, d);
|}.

Example automerge_facts_hold : automerge_facts (A:=TextAutomerge) (bytes_of_string "hello")
  Ok (λ d, Some (string_of_bytes d)).
Proof. split; [|done]. by repeat eexists. Qed.

(** ** jwt.rs *)

(** The object the tests sign: [permissions] is left out when empty. *)
Record TokenBody : Type := mk_TokenBody {
  tb_sub : string;
  tb_aud : option string;
  tb_exp : N;
  tb_permissions : list string;
}.

(** [encode(&Header::new(HS256), ..)] of the crate: a token of that body, signed.
    Different keys of at most a block, no padding among them, sign differently. *)
Class JwtSigning (J : JwtLib) {L : JwtLibLaws J} : Type := {
  sign : Bytes → TokenBody → string;
  sign_parses k body : ∃ m, parse_token (sign k body)
    = Some (mk_Token HS256 m (mac HS256 k m) (Some body.(tb_exp)) ((λ a, [a]) <$> body.(tb_aud))
              None (mk_CherenkovClaims body.(tb_sub) body.(tb_permissions) body.(tb_exp)));
  mac_keys k k' m : Forall (λ k, length k ≤ 64 ∧ last k ≠ Some x00) [k; k'] →
    mac HS256 k m = mac HS256 k' m → k = k';
}.

Section jwt_tests.
Context `{S : JwtSigning}.

(** The memory is the clock; [build] panics without a secret. *)
Definition built_auth (b : JwtAuthBuilder) : test N (Authenticator N) :=
  let! a := expect_some "JwtAuthBuilder requires a secret" (jwt_build b) in
  io_ret (jwt_authenticator (λ now, now) a).

Definition is_invalid_token (e : AuthError) : bool :=
  match e with InvalidToken _ => true | _ => false end.

Definition hs256_round_trip : test N unit :=
  let secret := bytes_of_string "super-secret-key" in
  let! auth := built_auth (with_audience (with_hmac_secret jwt_builder secret) "cherenkov") in
  let token := sign secret
    (mk_TokenBody "alice" (Some "cherenkov") 9999999999 ["publish"; "subscribe"]) in
  let! claims := expect "verify ok" (authenticate auth token) in
  assert_eq claims.(subject) "alice" ;;
  assert (bool_decide ("publish" ∈ claims.(permissions))) ;;
  assert_eq auth.(auth_name) "jwt" ;;
  assert (negb auth.(allow_anonymous)).

Definition invalid_signature_rejected : test N unit :=
  let! auth := built_auth (with_hmac_secret jwt_builder (bytes_of_string "correct-key")) in
  let token := sign (bytes_of_string "wrong-key") (mk_TokenBody "alice" None 9999999999 []) in
  let! err := expect_err "must reject" (authenticate auth token) in
  assert (is_invalid_token err).

Definition audience_mismatch_rejected : test N unit :=
  let secret := bytes_of_string "abc" in
  let! auth := built_auth (with_audience (with_hmac_secret jwt_builder secret) "cherenkov") in
  let token := sign secret (mk_TokenBody "alice" (Some "other") 9999999999 []) in
  let! err := expect_err "must reject" (authenticate auth token) in
  assert (is_invalid_token err).

Definition expired_token_rejected : test N unit :=
  let secret := bytes_of_string "abc" in
  let! auth := built_auth (with_hmac_secret jwt_builder secret) in
  let token := sign secret (mk_TokenBody "alice" None 1 []) in
  let! err := expect_err "must reject" (authenticate auth token) in
  assert (is_invalid_token err).

(** What a built authenticator says to a signed token. *)
Lemma authenticate_signed b a now k body :
  jwt_build b = Some a →
  (∀ m, token_accepted (λ a, mac a (default [] b.(secret))) now (fields a.(validation))
     (mk_Token HS256 m (mac HS256 k m) (Some body.(tb_exp)) ((λ a, [a]) <$> body.(tb_aud)) None
        (mk_CherenkovClaims body.(tb_sub) body.(tb_permissions) body.(tb_exp))) = false) →
  ∃ e, authenticate (jwt_authenticator (λ now, now) a) (sign k body) now = (Err (InvalidToken e), now).
Proof.
  intros Hb H. destruct (built_fields b a Hb) as (_ & s & Hs & Hk). rewrite Hs in H.
  destruct (sign_parses k body) as [m Hm]. simpl. unfold jwt_authenticate. rewrite Hk.
  destruct (decode_refuses now (sign k body) s a.(validation)) as [e ->]; [|by exists e].
  intros t Ht. simplify_eq. apply H.
Qed.

(** At any time after the first minute of 1970 and before 2286. *)
Lemma jwt_tests_pass (now : N) : (61 < now ≤ 9999999999)%N →
  Forall (λ t, passes now t = true)
  [hs256_round_trip; invalid_signature_rejected; audience_mismatch_rejected;
   expired_token_rejected].
Proof.
  intros Hnow. repeat apply Forall_cons_2; [..|constructor].
  - unfold passes, hs256_round_trip, io_bind, expect, io_map_err, built_auth, io_bind.
    set (b := with_audience _ _). destruct (jwt_build b) as [a|] eqn:Hb; [|done]. simpl.
    destruct (sign_parses (bytes_of_string "super-secret-key")
      (mk_TokenBody "alice" (Some "cherenkov") 9999999999 ["publish"; "subscribe"])) as [m Hm].
    pose proof (jwt_accepts (λ now, now) b a (sign (bytes_of_string "super-secret-key")
      (mk_TokenBody "alice" (Some "cherenkov") 9999999999 ["publish"; "subscribe"])) now Hb) as H.
    simpl in H. destruct (jwt_authenticate _ _ _ _) as [r w']. destruct H as (-> & H & _).
    assert (r = Ok (mk_SessionClaims "alice" ["publish"; "subscribe"] 9999999999)) as ->; [|done].
    apply H. eexists. split; [exact Hm|]. split; [|reflexivity]. split_and!; simpl.
    + by eexists.
    + done.
    + eexists. split; [done|]. lia.
    + intros l [= <-] _. exists "cherenkov". split; by apply list_elem_of_singleton.
    + done.
  - unfold passes, invalid_signature_rejected, io_bind, expect_err, built_auth, io_bind.
    set (b := with_hmac_secret _ _). destruct (jwt_build b) as [a|] eqn:Hb; [|done]. simpl.
    edestruct (authenticate_signed b a now) as [e He]; [exact Hb| |simpl in He; by rewrite He].
    intros m. unfold token_accepted. simpl. rewrite (bool_decide_false (_ = mac _ _ _)).
    { by rewrite andb_false_r. }
    intros Hmac. apply mac_keys in Hmac; [done|]. by repeat constructor; simpl; try lia.
  - unfold passes, audience_mismatch_rejected, io_bind, expect_err, built_auth, io_bind.
    set (b := with_audience _ _). destruct (jwt_build b) as [a|] eqn:Hb; [|done]. simpl.
    edestruct (authenticate_signed b a now) as [e He]; [exact Hb| |simpl in He; by rewrite He].
    intros m. destruct (built_fields b a Hb) as [-> _]. unfold token_accepted. simpl.
    by rewrite !andb_false_r.
  - unfold passes, expired_token_rejected, io_bind, expect_err, built_auth, io_bind.
    set (b := with_hmac_secret _ _). destruct (jwt_build b) as [a|] eqn:Hb; [|done]. simpl.
    edestruct (authenticate_signed b a now) as [e He]; [exact Hb| |simpl in He; by rewrite He].
    intros m. destruct (built_fields b a Hb) as [-> _]. unfold token_accepted. simpl.
    rewrite (proj2 (N.leb_gt _ _)) by lia. by rewrite !andb_false_r.
Qed.
End jwt_tests.

(** A library that signs: a token spells out its key and its body in bits. *)
Section bits.
Fixpoint bits_of_pos (p : positive) : string :=
  match p with
  | xH => ""
  | xO p => String "0" (bits_of_pos p)
  | xI p => String "1" (bits_of_pos p)
  end.
Fixpoint pos_of_bits (s : string) : positive :=
  match s with
  | "" => xH
  | String a s => if decide (a = "0"%char) then xO (pos_of_bits s) else xI (pos_of_bits s)
  end.

Lemma pos_of_bits_of_pos p : pos_of_bits (bits_of_pos p) = p.
Proof. induction p as [p IH|p IH|]; simpl; by rewrite ?IH. Qed.

Definition Signed : Type := string * (string * (option string * (N * list string))).
Definition signed_token (k : Bytes) (body : TokenBody) : string :=
  bits_of_pos (encode ((string_of_bytes k, (body.(tb_sub), (body.(tb_aud),
    (body.(tb_exp), body.(tb_permissions))))) : Signed)).
Definition opened (token : string) : option Signed := countable.decode (pos_of_bits token).

Lemma opened_signed_token k body : opened (signed_token k body)
  = Some (string_of_bytes k, (body.(tb_sub), (body.(tb_aud),
      (body.(tb_exp), body.(tb_permissions))))).
Proof. unfold opened, signed_token. rewrite pos_of_bits_of_pos. apply decode_encode. Qed.
End bits.

Definition parse_bits (token : string) : option Token :=
  '(k, (s, (a, (e, ps)))) ← opened token;
  Some (mk_Token HS256 "" (bytes_of_string k) (Some e) ((λ a, [a]) <$> a) None
          (mk_CherenkovClaims s ps e)).

#[export] Instance BitsSigning : JwtSigning (format_jwt parse_bits) (L:=format_jwt_laws parse_bits).
Proof.
  refine {| sign := signed_token : Bytes → TokenBody → string |}.
  - intros k body. exists "". unfold parse_token, format_jwt_laws, parse_bits.
    rewrite opened_signed_token. simpl. by rewrite bytes_of_string_of_bytes.
  - done.
Defined.

Example jwt_tests_hold : Forall (λ t, passes (1700000000 : N) t = true)
  [hs256_round_trip (S:=BitsSigning); invalid_signature_rejected (S:=BitsSigning);
   audience_mismatch_rejected (S:=BitsSigning); expired_token_rejected (S:=BitsSigning)].
Proof. by apply jwt_tests_pass. Qed.

(** ** The remote brokers *)

Definition redis_config_round_trip : test unit unit :=
  let cfg := mk_RedisBrokerConfig "redis://127.0.0.1:6379" in
  assert_eq cfg.(redis_config_url) "redis://127.0.0.1:6379".

Definition nats_config_round_trip : test unit unit :=
  let cfg := mk_NatsBrokerConfig "nats://127.0.0.1:4222" in
  assert_eq cfg.(nats_config_url) "nats://127.0.0.1:4222".

Example remote_tests_pass : Forall (λ t, passes () t = true)
  [redis_config_round_trip; nats_config_round_trip].
Proof. repeat constructor. Qed.
