(* ===== verification/TextTests.v ===== *)
(** * The unit tests of the SSE query parser, the SDK generator and WebTransport

    [query_tests] of crates/cherenkov-transport-sse/src/lib.rs and the tests of
    crates/cherenkov-sdk-ts/src/tsgen.rs and asyncapi.rs and of
    crates/cherenkov-transport-wt/src/lib.rs. *)
From S2P Require Import Prelude SchemaRegistry Json Deserialize Serve AsyncApi Sse TsGen TsProps TestKit.

(** ** cherenkov-transport-sse *)

Definition parses_single_channel : test unit unit :=
  let v := channels_from_raw_query (Some "channel=rooms.lobby") in
  assert_eq v ["rooms.lobby"].

Definition parses_repeated_channel_keys : test unit unit :=
  let v := channels_from_raw_query (Some "channel=rooms.a&channel=rooms.b") in
  assert_eq v ["rooms.a"; "rooms.b"].

Definition ignores_unrelated_keys : test unit unit :=
  let v := channels_from_raw_query (Some "foo=bar&channel=x&baz=qux") in
  assert_eq v ["x"].

Definition empty_query_returns_empty : test unit unit :=
  assert (bool_decide (channels_from_raw_query None = [])) ;;
  assert (bool_decide (channels_from_raw_query (Some "") = [])).

Definition percent_decoding_works : test unit unit :=
  let v := channels_from_raw_query (Some "channel=rooms%2Elobby") in
  assert_eq v ["rooms.lobby"].

Definition token_from_headers_strips_bearer_prefix : test unit unit :=
  assert_eq (token_from_headers (Some "Bearer abc-123")) (Some "abc-123").

Definition token_from_headers_returns_none_for_other_schemes : test unit unit :=
  assert (bool_decide (token_from_headers (Some "Basic dXNlcjpwYXNz") = None)).

Example query_tests_pass : Forall (λ t, passes () t = true)
  [parses_single_channel; parses_repeated_channel_keys; ignores_unrelated_keys;
   empty_query_returns_empty; percent_decoding_works; token_from_headers_strips_bearer_prefix;
   token_from_headers_returns_none_for_other_schemes].
Proof. repeat constructor. Qed.

(** ** cherenkov-sdk-ts *)

(** [str::contains]. *)
Fixpoint str_contains (s sub : string) : bool :=
  String.prefix sub s || match s with "" => false | String _ s => str_contains s sub end.

(** The members of the literal are in the order serde_json keeps them, by name. *)
Definition renders_object_namespace : test unit unit :=
  let schema := JObj [("type", JStr "object"); ("required", JArr [JStr "sku"]);
    ("properties", JObj [("qty", JObj [("type", JStr "integer")]);
                         ("sku", JObj [("type", JStr "string")])])] in
  let! out := expect_some "out of fuel"
    (render (A:=TreeAccess) (U:=AsciiTables) 4 [("orders", schema)]) in
  assert (str_contains out "export type OrdersPayload = { qty?: number; sku: string }") ;;
  assert (str_contains out "publishOrdersPayload").

Definition type_name_strips_punctuation : test unit unit :=
  assert_eq (type_name (U:=AsciiTables) "rooms.lobby") "RoomsLobbyPayload" ;;
  assert_eq (type_name (U:=AsciiTables) "orders") "OrdersPayload".

Example tsgen_tests_pass : Forall (λ t, passes () t = true)
  [renders_object_namespace; type_name_strips_punctuation].
Proof. repeat constructor. Qed.

(** [tests] of crates/cherenkov-sdk-ts/src/asyncapi.rs, over any serializer of YAML. *)
Definition renders_yaml_with_publish_and_subscribe_per_namespace
    (to_yaml : Json → result string string) : test unit unit :=
  let schema := JObj [("properties", JObj [("sku", JObj [("type", JStr "string")])]);
    ("required", JArr [JStr "sku"]); ("type", JStr "object")] in
  let! out := unwrap_ok (AsyncApi.render (A:=TreeAccess) to_yaml [("orders", schema)]) in
  assert (str_contains out "asyncapi: 2.6.0") ;;
  assert (str_contains out "operationId: publish_orders") ;;
  assert (str_contains out "operationId: subscribe_orders") ;;
  assert (str_contains out "ordersPayload").

(** A serializer: block style, a scalar quoted unless it is plain. *)
Definition plain_char (a : ascii) : bool :=
  bool_decide ((48 ≤ nat_of_ascii a ≤ 57) ∨ (65 ≤ nat_of_ascii a ≤ 90) ∨
               (97 ≤ nat_of_ascii a ≤ 122) ∨ a ∈ ["."; "_"; "-"; "$"; "/"]%char).
Definition yaml_scalar (s : string) : string :=
  if forallb plain_char (String.list_ascii_of_string s) then s else "'" +:+ s +:+ "'".
Definition newline : string := String "010" "".

Fixpoint yaml_block (pad : string) (v : Json) : string :=
  match v with
  | JNull => " null" +:+ newline
  | JBool b => (if b then " true" else " false") +:+ newline
  | JNum n => " " +:+ pretty n +:+ newline
  | JStr s => " " +:+ yaml_scalar s +:+ newline
  | JArr l => newline +:+ (fix items l := match l with
      | [] => ""
      | x :: l => pad +:+ "-" +:+ yaml_block ("  " +:+ pad) x +:+ items l
      end) l
  | JObj m => newline +:+ (fix members m := match m with
      | [] => ""
      | (k, x) :: m => pad +:+ yaml_scalar k +:+ ":" +:+ yaml_block ("  " +:+ pad) x +:+ members m
      end) m
  end.

Example asyncapi_tests_pass :
  passes () (renders_yaml_with_publish_and_subscribe_per_namespace (λ v, Ok (yaml_block "" v)))
  = true.
Proof. vm_compute. reflexivity. Qed.

(** ** cherenkov-transport-wt *)

(** Over any QUIC implementation that makes its own certificates. *)
Definition builder_constructs_with_self_signed_identity `{Q : Quic}
    (self_signed : list string → result string Identity) : test unit unit :=
  let! identity := expect "self-signed identity"
    (io_of_result (self_signed ["localhost"; "127.0.0.1"])) in
  let listen := "127.0.0.1:0" in
  assert (is_socket_addr_v4 listen) ;;
  let _builder := wt_with_outbox_capacity (wt_builder listen identity) 64 in
  io_ret ().

(** It passes exactly when the identity can be made. *)
Lemma wt_tests_pass `{Q : Quic} self_signed :
  passes () (builder_constructs_with_self_signed_identity self_signed)
  = is_ok (self_signed ["localhost"; "127.0.0.1"]).
Proof.
  unfold builder_constructs_with_self_signed_identity, expect, io_of_result, io_map_err, io_bind, passes.
  by destruct (self_signed _).
Qed.
