(* ===== verification/ServerKit.v ===== *)
(** * A booted server and its clients

    What the integration tests of cherenkov-server/tests need: a server booted from
    a configuration (App.v) with clients on WebSockets (Ws.v), run until nothing is
    left to deliver before a client reads its next message. *)
From S2P Require Import Prelude Protocol ProtoWire Traits PubSub MemoryBroker Remote Crdt.
From S2P Require Import NamespaceAcl SchemaRegistry Jwt Session Hub Config App Json Ws TestKit.

Section kit.
#[local] Existing Instances QueueFred QueueNats QueueBroadcast ListYrs ListAutomerge PlainJwt
  StarGlob TreeJson wire_codec CountNotifier QueueMpsc.

Abbreviation ServerHub := (@Hub (AppW (X:=Queues)) AppStream).
Abbreviation ServerSt := (@HubSt (AppW (X:=Queues)) AppStream CountNotifier QueueMpsc).

(** The server's state, and each client's socket with the number of messages the
    client has read from it. *)
Record Site : Type := mk_Site {
  site_st : ServerSt;
  site_clients : list (Socket * nat);
}.
Abbreviation itest A := (test Site A).

Definition site_init (config : ServerConfig) : Site :=
  mk_Site (hub_init (app_memory config 0 (([], []) : Queues))) [].

(** [run_with_listener(config, listener).await.expect(..)]: the hub it serves. *)
Definition started (config : ServerConfig) : option ServerHub :=
  match (build_hub (X:=Queues) (λ _, Err "no such file") config ([], [])).1 with
  | Ok hub => Some hub
  | Err _ => None
  end.

(** The test runs on the server, which has to boot. *)
Definition runs {A} (config : ServerConfig) (t : ServerHub → itest A) : bool :=
  match started config with
  | Some hub => passes (site_init config) (t hub)
  | None => false
  end.

(** Outboxes are numbered like the clients, from [10] on for the HTTP requests. *)
Definition connect_async (hub : ServerHub) : itest nat := λ site,
  let i := length site.(site_clients) in
  let '(s, st) := open_socket hub (N.of_nat i) DEFAULT_OUTBOX_CAPACITY site.(site_st) in
  (Ok i, mk_Site st (site.(site_clients) ++ [(s, 0)])).

Definition show_prost_none (e : prost_error) : string := "malformed".

(** The server reads a message of client [i] and dispatches it. *)
Definition receive (hub : ServerHub) (i : nat) (ev : read_event) : itest unit := λ site,
  match site.(site_clients) !! i with
  | Some (s, n) =>
      let '(s, st) := select_turn hub ev s site.(site_st) in
      let '(s, st) := dispatch_turn show_prost_none hub s st in
      (Ok (), mk_Site st (<[i := (s, n)]> site.(site_clients)))
  | None => (Err "no such client", site)
  end.

Definition send (hub : ServerHub) (i : nat) (frame : ClientFrame) : itest unit :=
  receive hub i (ReadMsg (Binary (encode_client frame))).
Definition close (hub : ServerHub) (i : nat) : itest unit := receive hub i (ReadMsg Close).

(** One turn of every forwarder and of every writer. *)
Definition forward_all (hub : ServerHub) (st : ServerSt) : ServerSt :=
  foldl (λ st t, forward hub t st) st (map_to_list st.(core).(tasks)).*1.
Fixpoint write_all (clients : list (Socket * nat)) (st : ServerSt) : list (Socket * nat) * ServerSt :=
  match clients with
  | [] => ([], st)
  | (s, n) :: clients =>
      let '(s, st) := write_turn true s st in
      let '(clients, st) := write_all clients st in
      ((s, n) :: clients, st)
  end.
Definition turn_all (hub : ServerHub) (site : Site) : Site :=
  let '(clients, st) := write_all site.(site_clients) (forward_all hub site.(site_st)) in
  mk_Site st clients.

(** Enough turns for what the tests publish; waiting longer than that is the
    timeout. *)
Definition settle (hub : ServerHub) (site : Site) : Site := Nat.iter 6 (turn_all hub) site.
Definition sleep (hub : ServerHub) : itest unit := io_modify (settle hub).

Definition next_frame (hub : ServerHub) (i : nat) : itest ServerFrame :=
  sleep hub ;;
  (λ site,
    match site.(site_clients) !! i with
    | Some (s, n) =>
        match s.(wire) !! n with
        | Some bytes =>
            match decode_server bytes with
            | Ok frame => (Ok frame, mk_Site site.(site_st) (<[i := (s, S n)]> site.(site_clients)))
            | Err _ => (Err "decode", site)
            end
        | None => (Err "timeout", site)
        end
    | None => (Err "no such client", site)
    end).

(** [ws.next()] on a socket the server closes. *)
Definition observes_close (hub : ServerHub) (i : nat) : itest unit :=
  receive hub i (ReadMsg Ping) ;;
  (λ site, match site.(site_clients) !! i with
           | Some (s, _) => match s.(state) with
                            | Finished => (Ok (), site)
                            | _ => (Err "WS did not observe close", site)
                            end
           | None => (Err "no such client", site)
           end).

Definition expect_subscribe_ok (hub : ServerHub) (i : nat) (channel : string) : itest unit :=
  let! frame := next_frame hub i in
  match frame with
  | SF_SubscribeOk ok => assert_eq ok.(subok_channel) channel
  | _ => io_fail "expected SubscribeOk"
  end.

Definition expect_publication (hub : ServerHub) (i : nat) : itest Publication :=
  let! frame := next_frame hub i in
  match frame with SF_Publication p => io_ret p | _ => io_fail "expected Publication" end.

Definition expect_error (hub : ServerHub) (i : nat) (code : ErrorCode) : itest ProtocolError :=
  let! frame := next_frame hub i in
  match frame with
  | SF_Error e => assert_eq e.(perr_code) (u32_of_error_code code) ;; io_ret e
  | _ => io_fail "expected Error"
  end.

Definition subscribe_frame (request_id : N) (channel : string) (since_offset : N) : ClientFrame :=
  CF_Subscribe (mk_Subscribe request_id channel since_offset).
Definition publish_frame (request_id : N) (channel data : string) : ClientFrame :=
  CF_Publish (mk_Publish request_id channel (bytes_of_string data)).

(** [next_server_frame] matched against a subscription acknowledgement. *)
Definition expect_data (hub : ServerHub) (i : nat) (channel data : string) : itest unit :=
  let! p := expect_publication hub i in
  assert_eq p.(publ_channel) channel ;;
  assert_eq p.(publ_data) (bytes_of_string data).
End kit.
