(* ===== verification/IntegrationTests.v ===== *)
(** * The integration tests of the server

    crates/cherenkov-server/tests: a server booted from a configuration, driven
    through its transports.  Every layer of the model takes part: build_hub, the
    protobuf codec, the sockets, the hub, the channel kinds, the broker, the
    forwarders and the writers. *)
From S2P Require Import Prelude Protocol ProtoWire Traits PubSub MemoryBroker Remote Crdt.
From S2P Require Import NamespaceAcl SchemaRegistry Jwt Session Config App Json Sse Admin Hub Ws.
From S2P Require Import TestKit ServerKit TextTests.

Section integration.
#[local] Existing Instances QueueFred QueueNats QueueBroadcast ListYrs ListAutomerge PlainJwt
  StarGlob TreeJson wire_codec CountNotifier QueueMpsc.
Abbreviation ServerHub := (@Hub (AppW (X:=Queues)) AppStream).
Abbreviation itest A := (test Site A).

(** ** echo.rs *)

Definition two_clients_observe_fan_out (hub : ServerHub) : itest unit :=
  let! alice := connect_async hub in
  let! bob := connect_async hub in
  send hub alice (subscribe_frame 1 "rooms.lobby" 0) ;;
  send hub bob (subscribe_frame 1 "rooms.lobby" 0) ;;
  expect_subscribe_ok hub alice "rooms.lobby" ;;
  expect_subscribe_ok hub bob "rooms.lobby" ;;
  send hub alice (publish_frame 2 "rooms.lobby" "hello") ;;
  let! bob_pub := expect_publication hub bob in
  assert_eq bob_pub.(publ_channel) "rooms.lobby" ;;
  assert_eq bob_pub.(publ_data) (bytes_of_string "hello") ;;
  let! alice_pub := expect_publication hub alice in
  assert_eq alice_pub.(publ_data) (bytes_of_string "hello") ;;
  close hub alice ;; close hub bob.

(** ** recovery.rs *)

(** At most [n] frames, until there is an acknowledgement and an offset. *)
Fixpoint pull (hub : ServerHub) (latecomer n : nat) (got_offsets : list N) (got_subscribe_ok : bool) :
    itest (list N * bool) :=
  match n with
  | O => io_ret (got_offsets, got_subscribe_ok)
  | S n =>
      let! frame := next_frame hub latecomer in
      let! r := match frame with
                | SF_Publication p =>
                    assert_eq p.(publ_channel) "rooms.lobby" ;;
                    io_ret (got_offsets ++ [p.(publ_offset)], got_subscribe_ok)
                | SF_SubscribeOk ok =>
                    assert_eq ok.(subok_channel) "rooms.lobby" ;; io_ret (got_offsets, true)
                | SF_Error _ => io_fail "got Error frame"
                | _ => io_fail "unexpected frame"
                end in
      let '(got_offsets, got_subscribe_ok) := r in
      if got_subscribe_ok && negb (bool_decide (got_offsets = []))
      then io_ret (got_offsets, got_subscribe_ok)
      else pull hub latecomer n got_offsets got_subscribe_ok
  end.

Definition recovery_replays_retained_history (hub : ServerHub) : itest unit :=
  let! publisher := connect_async hub in
  send hub publisher (publish_frame 9 "rooms.lobby" "m1") ;;
  send hub publisher (publish_frame 9 "rooms.lobby" "m2") ;;
  send hub publisher (publish_frame 9 "rooms.lobby" "m3") ;;
  sleep hub ;;
  let! latecomer := connect_async hub in
  send hub latecomer (subscribe_frame 2 "rooms.lobby" 1) ;;
  let! (got_offsets, got_subscribe_ok) := pull hub latecomer 3 [] false in
  assert_eq got_offsets [2%N] ;;
  assert got_subscribe_ok ;;
  close hub publisher ;; close hub latecomer.

(** ** auth.rs *)

Definition SECRET : string := "integration-test-secret".

(** A token of the instance: its subject, signed under the secret. *)
Definition signed_token : string := "alice:" +:+ SECRET.

Definition auth_config : ServerConfig :=
  let d := ServerConfig_default in
  mk_ServerConfig d.(sc_transport) d.(sc_broker) d.(sc_channel_pubsub) d.(sc_namespaces)
    (Some (mk_AuthConfig SECRET ["cherenkov"] None))
    (Some (mk_AclConfig [mk_AclRuleConfig CfgAllow "rooms.*" None CfgAny;
                         mk_AclRuleConfig CfgDeny "admin.*" None CfgAny] false))
    d.(sc_channel_kinds) d.(sc_admin) d.(sc_log).

Definition auth_and_acl_end_to_end (hub : ServerHub) : itest unit :=
  let! precon := connect_async hub in
  send hub precon (subscribe_frame 1 "rooms.lobby" 0) ;;
  expect_error hub precon NotConnectedCode ;;
  close hub precon ;;
  let! bad := connect_async hub in
  send hub bad (CF_Connect (mk_Connect 7 "not.a.real.jwt")) ;;
  let! err := expect_error hub bad InvalidTokenCode in
  assert_eq err.(perr_request_id) 7%N ;;
  close hub bad ;;
  let! alice := connect_async hub in
  send hub alice (CF_Connect (mk_Connect 1 signed_token)) ;;
  let! frame := next_frame hub alice in
  match frame with
  | SF_ConnectOk ok => assert_eq ok.(conok_subject) "alice"
  | _ => io_fail "expected ConnectOk"
  end ;;
  send hub alice (subscribe_frame 2 "rooms.lobby" 0) ;;
  expect_subscribe_ok hub alice "rooms.lobby" ;;
  send hub alice (publish_frame 3 "admin.users" "x") ;;
  let! err := expect_error hub alice AclDenied in
  assert_eq err.(perr_request_id) 3%N ;;
  send hub alice (publish_frame 4 "rooms.lobby" "hello") ;;
  expect_data hub alice "rooms.lobby" "hello" ;;
  close hub alice.

(** ** schema_validation.rs *)

(** [minLength] and [minimum] are not keywords of the schema instance; the payload
    the test calls malformed also lacks a required member. *)
Definition config_with_orders_schema : ServerConfig :=
  let d := ServerConfig_default in
  let schema := JObj
    [("properties", JObj [("qty", JObj [("minimum", JNum 1); ("type", JStr "integer")]);
                          ("sku", JObj [("minLength", JNum 1); ("type", JStr "string")])]);
     ("required", JArr [JStr "sku"; JStr "qty"]); ("type", JStr "object")] in
  mk_ServerConfig d.(sc_transport) d.(sc_broker) d.(sc_channel_pubsub)
    [("orders", mk_NamespaceConfig JsonSchema (Some (schema : @Value TreeJson)) None)]
    d.(sc_auth) d.(sc_acl) d.(sc_channel_kinds) d.(sc_admin) d.(sc_log).

(** A JSON text: the quotes are written as apostrophes here. *)
Definition json_text (s : string) : string :=
  String.string_of_list_ascii ((λ a, if decide (a = "'"%char) then "034"%char else a)
    <$> String.list_ascii_of_string s).

Definition schema_validation_end_to_end (hub : ServerHub) : itest unit :=
  let! client := connect_async hub in
  send hub client (subscribe_frame 1 "orders.created" 0) ;;
  expect_subscribe_ok hub client "orders.created" ;;
  let valid := json_text "{'sku':'abc','qty':3}" in
  send hub client (publish_frame 2 "orders.created" valid) ;;
  expect_data hub client "orders.created" valid ;;
  send hub client (publish_frame 7 "orders.created" (json_text "{'sku':''}")) ;;
  let! err := expect_error hub client ValidationFailed in
  assert_eq err.(perr_request_id) 7%N ;;
  assert (negb (bool_decide (err.(perr_message) = ""))) ;;
  send hub client (subscribe_frame 11 "rooms.lobby" 0) ;;
  expect_subscribe_ok hub client "rooms.lobby" ;;
  let opaque := string_of_bytes [x00; x01; x02] in
  send hub client (publish_frame 12 "rooms.lobby" opaque) ;;
  expect_data hub client "rooms.lobby" opaque ;;
  close hub client.
(** ** crdt_yjs.rs *)

Definition yjs_config : ServerConfig :=
  let d := ServerConfig_default in
  mk_ServerConfig d.(sc_transport) d.(sc_broker) d.(sc_channel_pubsub) d.(sc_namespaces)
    d.(sc_auth) d.(sc_acl) [("doc", KindCrdtYjs)] d.(sc_admin) d.(sc_log).

(** The update is what a replica with the text [hi] encodes; whoever applies it to
    an empty replica has that replica. *)
Definition yjs_namespace_round_trips_updates (hub : ServerHub) : itest unit :=
  let! a := connect_async hub in
  let! b := connect_async hub in
  send hub a (subscribe_frame 1 "doc.shared" 0) ;;
  send hub b (subscribe_frame 1 "doc.shared" 0) ;;
  expect_subscribe_ok hub a "doc.shared" ;;
  expect_subscribe_ok hub b "doc.shared" ;;
  let publisher_doc := (apply_update (bytes_of_string "hi" : Update) Doc_new).2 in
  let update := encode_state_as_update_v1 publisher_doc in
  send hub a (CF_Publish (mk_Publish 2 "doc.shared" update)) ;;
  let! p := expect_publication hub a in
  assert_eq p.(publ_data) update ;;
  let! observed := expect_publication hub b in
  assert_eq observed.(publ_data) update ;;
  let! u := unwrap_ok (decode_v1 observed.(publ_data)) in
  let local := (apply_update u Doc_new).2 in
  assert_eq (encode_state_as_update_v1 local) (bytes_of_string "hi") ;;
  close hub a ;; close hub b.

(** ** sse.rs *)

(** [base64] is any encoding; here none. *)
Definition sse_config : ServerConfig :=
  let d := ServerConfig_default in
  mk_ServerConfig (mk_TransportConfig d.(sc_transport).(tc_ws) (Some SseConfig_default))
    d.(sc_broker) d.(sc_channel_pubsub) d.(sc_namespaces) d.(sc_auth) d.(sc_acl)
    d.(sc_channel_kinds) d.(sc_admin) d.(sc_log).

Definition on_site {A} (f : @HubSt (AppW (X:=Queues)) AppStream CountNotifier QueueMpsc →
    A * @HubSt (AppW (X:=Queues)) AppStream CountNotifier QueueMpsc) : itest A := λ site,
  let '(a, st) := f site.(site_st) in (Ok a, mk_Site st site.(site_clients)).

Definition sse_publish_and_subscribe_round_trip (hub : ServerHub) : itest unit :=
  let json_string s := s in
  let! resp := on_site (subscribe_handler hub 10 (Some "channel=rooms.lobby") None) in
  let! stream := expect_some "subscribe status"
    (match resp with Ok stream => Some stream | Err _ => None end) in
  let! publish := on_site (publish_handler json_string hub 11 "rooms.lobby" None
    (Ok (bytes_of_string "hello-sse"))) in
  assert (bool_decide (publish.(Sse.status) = OK)) ;;
  sleep hub ;;
  (* The acknowledgement is not sent on a stream: the first event is the publication. *)
  let! (ev, stream) := on_site (λ st, sse_poll json_string string_of_bytes hub false false stream st) in
  let! ev := expect_some "stream ended without event" ev in
  assert_eq ev.(event) "publication" ;;
  assert (str_contains ev.(data) "hello-sse").

(** ** admin.rs *)

Definition admin_config : ServerConfig :=
  let d := ServerConfig_default in
  mk_ServerConfig d.(sc_transport) d.(sc_broker) d.(sc_channel_pubsub) d.(sc_namespaces)
    d.(sc_auth) d.(sc_acl) d.(sc_channel_kinds)
    (mk_AdminConfig "127.0.0.1:0" true (Some "admin-test")) d.(sc_log).

Definition admin_call (hub : ServerHub) (authorization : option string) (req : ApiRequest) :
    itest Admin.Response :=
  on_site (router (App.admin_resources admin_config hub (λ _, "")) authorization (Api req)).

Definition expect_health (hub : ServerHub) (count : nat) : itest unit :=
  let! resp := admin_call hub (Some "Bearer admin-test") GetHealth in
  match resp.(Admin.body) with
  | JsonHealth body => assert_eq body.(hr_status) "ok" ;; assert_eq body.(hr_sessions) count
  | _ => io_fail "not a health response"
  end.

Definition admin_health_and_disconnect_round_trip (hub : ServerHub) : itest unit :=
  let bearer := Some "Bearer admin-test" in
  let! resp := admin_call hub None GetHealth in
  assert_eq resp.(Admin.status) 401%N ;;
  expect_health hub 0 ;;
  let! ws := connect_async hub in
  expect_health hub 1 ;;
  let! resp := admin_call hub bearer GetSessions in
  let! sessions := expect_some "array"
    (match resp.(Admin.body) with JsonSessions l => Some l | _ => None end) in
  assert_eq (length sessions) 1 ;;
  let! summary := expect_some "id present" (head sessions) in
  let! resp := admin_call hub bearer (PostDisconnect summary.(ss_id)) in
  assert_eq resp.(Admin.status) 200%N ;;
  observes_close hub ws ;;
  expect_health hub 0.

(** Every test of the directory, on the server it configures. *)
Example integration_tests_pass :
  [runs ServerConfig_default two_clients_observe_fan_out;
   runs ServerConfig_default recovery_replays_retained_history;
   runs auth_config auth_and_acl_end_to_end;
   runs config_with_orders_schema schema_validation_end_to_end;
   runs yjs_config yjs_namespace_round_trips_updates;
   runs sse_config sse_publish_and_subscribe_round_trip;
   runs admin_config admin_health_and_disconnect_round_trip]
  = repeat true 7.
Proof. vm_compute. reflexivity. Qed.
End integration.
